(* ===== verification/_CoqProject ===== *)
-Q . S2P
Prelude.v
Doubles.v
Protocol.v
Codec.v
Wire.v
Ring.v
FrameParser.v
Stream.v
Session.v
Queue.v
Spsc.v
SpscMachine.v
SpscLogic.v
SpscVariants.v
SpscSequential.v
SpscConcurrent.v
SpscMutex.v
SpscProperties.v
SpscProgress.v
SpscAlone.v
SpscQueue.v
SpscLinear.v
Throughput.v
Rates.v
EngineMessages.v
Matching.v
Gateway.v
GatewayInvariant.v
GatewayRequests.v
BenchClient.v
BenchStats.v
Calls.v
Startup.v
BenchProgram.v
GatewayProperties.v
System.v
SystemInvariant.v
SystemRuns.v
SystemProperties.v
Slots.v
Loopback.v
LoopbackInvariant.v
Roundtrip.v
Server.v
