(* ===== verification/Prelude.v ===== *)
(** * Verification of the low-latency trading gateway

    A library of definitions and theorems about the C++ program under
    [src/core]: a binary order-entry protocol over TCP, the gateway that
    serves it with one epoll thread, the matching thread behind it, and the
    lock-free queues between the two.

    ** The program and its model

    Clients send 64-byte frames.  The gateway appends what [recv] returns to
    the frame parser of the connection, checks the sequence number of every
    decoded message, answers control messages itself and pushes orders to the
    command queue.  The matching thread pops commands, pushes one response per
    order to the response queue and writes an eventfd; the gateway then pops
    the responses and sends each to the connection whose slot and generation
    it names.

    - [protocol.hpp]: [Protocol] (constants, enumerations with their unnamed
      values, structs with offsets and initialisers).
    - [codec.hpp]: [Codec] (the code: word stores and loads, one encoder and
      decoder per message, header validation) and [Wire] (its laws, proved
      once for the class [WireMessage] and inherited by all messages).
    - [frame_parser.hpp]: [FrameParser] (the ring of bytes, [append],
      [try_parse]) and [Stream] (the calls a server makes on one parser).
    - [session.hpp]: [Session].  The gateway does not call it; it has its own
      copy of the sequence check.
    - [spsc_ring_buffer.hpp]: [Spsc] (the five variants as programs over their
      memory accesses), [SpscMachine] (two threads under release/acquire
      memory with races as undefined behaviour), [SpscLogic] and
      [SpscVariants] (a logic for the lock-free ones and the proofs in it),
      [SpscSequential] (one thread), [SpscConcurrent] and [SpscMutex]
      (soundness for two threads), [SpscProperties], [SpscProgress] and
      [SpscAlone] (threads that run alone), [SpscLinear] (overlapping calls).  [Queue] has the classes by which
      clients know a queue, with the looks a thread takes at the other one's
      progress; [SpscSequential] implements them for one thread and
      [SpscQueue] for two, over the weak memory.  [Ring] has the arithmetic
      that the queues share with the frame parser.
    - [SPSC/test.cpp]: [Throughput] (the runs, the threads and the verdict)
      and [Rates] (the rates it prints).
    - [engine_messages.hpp]: [EngineMessages].
    - [epoll_server.cpp]: [Startup] ([create_listen_socket], [main] before and
      after its loops), [Matching] ([matching_thread], [encode_response]),
      [Gateway] ([close_conn] and the bodies of the loops of [main]),
      [GatewayInvariant], [GatewayRequests] (what the parse loop does, as a
      specification over the decoded messages), [GatewayProperties], [System]
      (both threads), [SystemInvariant], [SystemRuns], [SystemProperties],
      [Slots] (the uses of the 1024 slots over time), [Server] ([main] from
      its start to its exit).
    - [epoll_bench_client.cpp]: [BenchClient] (options, orders and the two
      loops), [BenchStats] (percentiles and mean) and [BenchProgram] ([main]
      from its command line to its exit).  It and [Startup] are programs over
      system calls, in the monad of [Calls].  [Doubles] has IEEE binary64 and
      its rounding errors, for [BenchStats] and [Rates].
    - client and server together: [Loopback] (the rounds of the client and
      both threads of the server as one machine, with a byte stream in each
      direction), [LoopbackInvariant] and [Roundtrip].

    State is passed explicitly.  Undefined behaviour (an access outside a span
    or array, a dangling reference, an integer overflow of a signed type) is
    [None], so "defined" in a theorem means that the code has none.  Unsigned
    integers are [Z] with the wrap-around written out ([+₆₄] and the like).
    Operating system and network are parameters: records of functions that
    answer a call by the whole trace of calls so far.  What the proofs need of
    them is named: [kernel_ok] (an accepted descriptor is not open already,
    [recv] returns at most the bytes asked for), [fresh_descriptors],
    [network_ok].  The eventfd is known by the class [EventFd], with its
    documented counter as instance.

    ** What is proved

    - Codec ([Wire]): encode and decode are inverse in both directions where
      the format is; status, defined spans, types and reserved bytes of
      every function; the unrolled word accesses are the little-endian conversions.
    - Parser ([Stream]): [append] and [try_parse] refine a byte queue cut into
      frames, with free-running counters that may wrap; the result does not
      depend on how TCP cuts the stream; encoded requests arrive exactly;
      protocol errors stick.
    - Session ([Session]): [handle_message] refines an abstract session on
      every branch; replays are refused; a client can rebuild the order book
      from the responses, and the handles are 1, 2, 3, ..., none of them twice;
      any bytes whatever, in pieces the buffer is made for, are served without
      undefined behaviour, one response per request until a log-out.
    - Queues ([SpscProperties], [SpscAlone], [SpscSequential],
      [SpscLinear]): under every interleaving and every value the memory
      orders allow there is no data race and no access outside the array, pops
      are a prefix of pushes, and no more than the capacity is in the queue;
      the lock-free variants are wait-free and refuse only by what they have
      seen; with any variant a call whose thread runs alone, while the other
      does not hold the mutex, returns within 13 moves, and succeeds if there
      is room or an item and it sees the newest stores; called one at a time,
      all five are a bounded FIFO queue; and calls that overlap are linearisable with
      respect to one, exactly for the mutex variant, up to what a thread has
      yet to see of the other for the lock-free ones.
    - Throughput test ([Throughput], [Rates]): values arrive in order with
      every variant, the checksum is the sum, the verdict is right below 2^32,
      every execution can be finished for every total but 2^64 - 1, with
      which none ends, and the rates are right up to a relative error of 2^-49.
    - Gateway ([GatewayProperties]): the event of a client on every branch;
      commands in sequence with the token of their connection; agreement with
      the session's sequence check; and two consequences of the code as it
      is: the flag [should_close] never closes a connection, and an order that
      meets a full command queue is lost with its sequence number.
    - Both threads ([SystemProperties]): no reachable state has undefined
      behaviour; responses go to the connection that sent the order, in
      order, and none is missing while the response queue has room; no wake-up
      is lost; as long as no queue can be full, no slot is shared and no send
      is short, every order can be answered to the client that sent it;
      [matching.join()] returns exactly when the shutdown command found room,
      and every client is closed then.
    - Slots ([Slots]): from the 1025th accept on two open connections may
      share a slot, and when one of them closes the other is sent no response
      in any later state.
    - Start-up and exit ([Startup], [Server]): every failing call's branch;
      what is open and running when the event loop begins; [main] as a whole
      returns with nothing left open, and with 0 only after its thread has
      stopped, and a server that sleeps with room in its command queue can be
      brought to return.
    - Benchmark client ([BenchClient], [BenchStats], [BenchProgram]): its byte stream is
      accepted by the gateway order by order; its percentiles, in IEEE
      binary64, are measured values in ascending order at the ranks asked for;
      [main] ends as its options and the connection say.
    - The client connected to the server ([Roundtrip]): under every
      interleaving of the client and the two threads, and however the streams
      are cut, each order is accepted once and in order, and every run can be
      finished.

    ** Bounds and fuel

    - [Gateway.parse_loop] and [Stream.drain] run with [drain_fuel] = capacity
      / 64 + 1: a parser holds at most capacity / 64 frames, and running out
      is [None], which the theorems exclude.
    - A push or pop of any variant makes at most 12 accesses.
    - The matching thread answers [k] waiting commands in [3k + 2] steps.
    - 2^42 accepts: 1024 slots of 2^32 generations, after which tokens repeat.
    - 4095 responses: the capacity of the response queue less the cell V3
      leaves free.  1024 clients: the slots.

    ** Granularity and assumptions

    In [SpscMachine] a step is one memory access, made in program order: loads
    may be stale as far as coherence and synchronisation allow, but executions
    in which a load takes a value from the future are outside the model.
    Sequentially consistent accesses count as acquire and release.
    In [System] a step of the gateway is one loop body and a step of the
    matching thread one access to shared state.  A queue operation is one step
    of the class [BoundedQueue], implemented by V3 under weak memory
    ([SpscQueue]): it works with the stores of the other thread that its own
    has seen, and may miss later ones, so that a pop finds the queue empty
    although an item is published, and a push finds it full although there is
    room.  Every step chooses what is seen.  That an operation may be taken as
    one step is what [SpscLinear] shows of the overlapping calls themselves.
    The write and the read of the eventfd are system calls, and the model
    takes them to synchronise: a thread that reads the signal sees what the
    writer stored before it.  This is how the kernels the program runs on
    behave; the C++ standard does not speak of it.  [epoll_wait] may report
    any events at any time.
    In [Loopback] one client is connected, TCP loses nothing, and [epoll_wait]
    does not fail.  A pop may still miss what was pushed, but a push sees the
    newest pops: the client sends an order after it has the response to the
    one before, which the matching thread produced after its pop and the
    gateway sent after its own.

    ** Not modelled

    Console output, [_mm_pause], [alignas] and cache lines (no effect on
    results); clocks, whose readings are parameters; [CMakeLists.txt], the
    shell script and the reports under [src] (no program logic).  The payload
    structs [Heartbeat] and [Logout] are data only: the code has no codec for
    them and treats these messages as headers. *)

From stdpp Require Export prelude list list_numbers gmap.
From Stdlib Require Export ZArith Lia Sorted.

#[global] Open Scope Z_scope.

(** ** Machine integers

    A [w]-bit unsigned integer is a [Z] in [0, 2^w); arithmetic that can
    leave the range is wrapped explicitly, as the C++ unsigned types do. *)

Definition uint (w z : Z) : Prop := 0 ≤ z < 2 ^ w.

Definition wrap (w z : Z) : Z := z `mod` 2 ^ w.

Abbreviation u8 := (wrap 8).
Abbreviation u16 := (wrap 16).
Abbreviation u32 := (wrap 32).
Abbreviation u64 := (wrap 64).

Abbreviation is_u8 := (uint 8).
Abbreviation is_u16 := (uint 16).
Abbreviation is_u32 := (uint 32).
Abbreviation is_u64 := (uint 64).

#[global] Instance uint_dec w z : Decision (uint w z).
Proof. unfold uint. apply _. Defined.

(** Arithmetic at 64-bit width ([std::size_t] and [std::uint64_t]) and at
    32-bit width ([std::uint32_t]). *)
Declare Scope lltg_scope.
Delimit Scope lltg_scope with lltg.
#[global] Open Scope lltg_scope.

Notation "x +₆₄ y" := (wrap 64 (x + y)) (at level 50, left associativity) : lltg_scope.
Notation "x -₆₄ y" := (wrap 64 (x - y)) (at level 50, left associativity) : lltg_scope.
Notation "x +₃₂ y" := (wrap 32 (x + y)) (at level 50, left associativity) : lltg_scope.

(** [mlia] decides linear goals over the wrapped operations: it exposes
    the widths as numerals and turns [mod] and [/] into equations. *)
Ltac expose_widths :=
  unfold uint, wrap in *;
  change (2 ^ 8) with 256 in *;
  change (2 ^ 16) with 65536 in *;
  change (2 ^ 32) with 4294967296 in *;
  change (2 ^ 63) with 9223372036854775808 in *;
  change (2 ^ 64) with 18446744073709551616 in *.

Ltac mlia := expose_widths; Z.div_mod_to_equations; lia.

Lemma uint_wrap w z : 0 ≤ w → uint w (wrap w z).
Proof. intros Hw. apply Z.mod_pos_bound. by apply Z.pow_pos_nonneg. Qed.

Lemma wrap_uint w z : uint w z → wrap w z = z.
Proof. apply Z.mod_small. Qed.

(** Proves a decidable closed proposition by evaluation. *)
Ltac evaluate := apply (bool_decide_unpack _); vm_compute; exact I.

Create HintDb lltg.
Create Rewrite HintDb lltg.
#[export] Hint Resolve uint_wrap : lltg.

(** ** Undefined behaviour

    A computation that can have undefined behaviour (an access past the end
    of a span or an array) returns an [option]; [None] is the undefined
    behaviour, and theorems that the code is well defined show the result
    is [Some].  [x ← m; k] is stdpp's bind. *)

(** Write one element of a buffer, as [out[i] = b] does. *)
Definition put {A} (out : list A) (i : nat) (b : A) : option (list A) :=
  if decide (i < length out)%nat then Some (<[i := b]> out) else None.

(** [std::memcpy (dst + doff) (src + soff) n]. *)
Definition memcpy {A} (dst : list A) (doff : nat) (src : list A) (soff n : nat)
    : option (list A) :=
  if decide (doff + n ≤ length dst ∧ soff + n ≤ length src)%nat
  then Some (list_inserts doff (take n (drop soff src)) dst) else None.

(** A run of consecutive one-element writes. *)
Fixpoint put_all {A} (out : list A) (off i : nat) (bs : list A) : option (list A) :=
  match bs with
  | [] => Some out
  | b :: bs => out' ← put out (off + i) b; put_all out' off (S i) bs
  end.

Section buffers.
Context {A : Type}.
Implicit Types l pre rest bs : list A.

Lemma put_Some l i b : (i < length l)%nat → put l i b = Some (<[i := b]> l).
Proof. intros. unfold put. by rewrite decide_True. Qed.

Lemma put_lookup_range l i b l' : put l i b = Some l' → (i < length l)%nat.
Proof. unfold put. by case_decide. Qed.

Lemma put_length l i b l' : put l i b = Some l' → length l' = length l.
Proof. unfold put. case_decide; intros; simplify_eq. apply length_insert. Qed.

(** Writing where the rest of the buffer begins. *)
Lemma put_app pre b x rest :
  put (pre ++ x :: rest) (length pre) b = Some (pre ++ b :: rest).
Proof.
  rewrite put_Some by (rewrite length_app; simpl; lia).
  by rewrite insert_app_r_alt, Nat.sub_diag by lia.
Qed.

Lemma put_all_app pre mid bs rest off i :
  (length pre = off + i)%nat → length mid = length bs →
  put_all (pre ++ mid ++ rest) off i bs = Some (pre ++ bs ++ rest).
Proof.
  revert pre mid i. induction bs as [|b bs IH]; intros pre mid i Hpre Hmid.
  - by destruct mid.
  - destruct mid as [|x mid]; [done|]. simpl in *.
    rewrite <- Hpre, put_app. simpl.
    change (pre ++ b :: mid ++ rest) with (pre ++ [b] ++ mid ++ rest).
    rewrite app_assoc, IH; [by rewrite <- app_assoc| |lia].
    rewrite length_app. simpl. lia.
Qed.

Lemma put_all_length l off i bs l' : put_all l off i bs = Some l' → length l' = length l.
Proof.
  revert l i. induction bs as [|b bs IH]; intros l i; simpl; [by intros [= ->]|].
  destruct (put l (off + i) b) eqn:E; [|done]. simpl.
  intros ->%IH. by eapply put_length.
Qed.

(** A run of writes is defined exactly when its last index is in range. *)
Lemma put_all_None l off i bs :
  (length l < off + i + length bs)%nat → bs ≠ [] → put_all l off i bs = None.
Proof.
  revert l i. induction bs as [|b bs IH]; intros l i Hlen Hne; [done|].
  simpl in *. destruct (put l (off + i) b) as [l'|] eqn:E; [|done]. simpl.
  pose proof (put_length _ _ _ _ E). pose proof (put_lookup_range _ _ _ _ E).
  apply IH; [lia|]. intros ->. simpl in *. lia.
Qed.

Lemma memcpy_Some (dst : list A) doff (src : list A) soff n :
  (doff + n ≤ length dst)%nat → (soff + n ≤ length src)%nat →
  memcpy dst doff src soff n = Some (list_inserts doff (take n (drop soff src)) dst).
Proof. intros. unfold memcpy. by rewrite decide_True. Qed.

End buffers.

(** Evaluates the first step of a chain. *)
Lemma bind_step {A B} (m : option A) (f : A → option B) x r :
  m = Some x → f x = r → (m ≫= f) = r.
Proof. by intros -> . Qed.

(** ** Little-endian words: facts on stdpp's [Z_to_little_endian] *)

(** The [n] bytes of [v], least significant first. *)
Definition le_bytes (n : Z) (v : Z) : list Z := Z_to_little_endian n 8 v.

(** The value of a byte string, least significant byte first. *)
Definition le_value (bs : list Z) : Z := little_endian_to_Z 8 bs.

Lemma length_le_bytes n v : 0 ≤ n → length (le_bytes n v) = Z.to_nat n.
Proof.
  intros Hn. unfold le_bytes.
  pose proof (length_Z_to_little_endian n 8 v Hn). lia.
Qed.

Lemma le_bytes_u8 n v : 0 ≤ n → Forall is_u8 (le_bytes n v).
Proof. intros Hn. by apply Z_to_little_endian_bound. Qed.

Lemma le_value_bytes n v : 0 ≤ n → uint (n * 8) v → le_value (le_bytes n v) = v.
Proof.
  intros Hn Hv. unfold le_value, le_bytes.
  rewrite little_endian_to_Z_to_little_endian by lia. by apply Z.mod_small.
Qed.

Lemma le_bytes_value n bs :
  Forall is_u8 bs → n = Z.of_nat (length bs) → le_bytes n (le_value bs) = bs.
Proof. intros Hbs ->. apply Z_to_little_endian_to_Z; [done|lia|done]. Qed.

Lemma le_value_bound bs :
  Forall is_u8 bs → uint (Z.of_nat (length bs) * 8) (le_value bs).
Proof. intros. apply little_endian_to_Z_bound; [lia|done]. Qed.

#[export] Hint Resolve le_bytes_u8 : lltg.

Lemma le_value_app bs1 bs2 :
  le_value (bs1 ++ bs2) =
  Z.lor (le_value bs1) (Z.shiftl (le_value bs2) (8 * Z.of_nat (length bs1))).
Proof.
  unfold le_value. induction bs1 as [|b bs1 IH]; simpl.
  - by rewrite Z.shiftl_0_r.
  - rewrite IH, Z.shiftl_lor, Z.shiftl_shiftl, Z.lor_assoc by lia.
    do 2 f_equal. lia.
Qed.

Lemma lookup_at {A} (l k : list A) i : (l ++ k) !! (length l + i)%nat = k !! i.
Proof. rewrite lookup_app_r by lia. f_equal. lia. Qed.

Lemma split_at {A} (l : list A) n :
  (n ≤ length l)%nat → ∃ a b, l = a ++ b ∧ length a = n ∧ b = drop n l.
Proof.
  intros. exists (take n l), (drop n l).
  by rewrite take_drop, length_take, Nat.min_l by lia.
Qed.

Lemma le_value_nil : le_value [] = 0.
Proof. done. Qed.

Lemma le_value_singleton b : le_value [b] = b.
Proof. unfold le_value. apply Z.lor_0_r. Qed.

Lemma uint_mono w w' z : w ≤ w' → uint w z → uint w' z.
Proof.
  intros Hw [Hlo Hhi]. split; [done|].
  eapply Z.lt_le_trans; [done|]. apply Z.pow_le_mono_r; lia.
Qed.

Lemma le_bytes_nil v : le_bytes 0 v = [].
Proof. done. Qed.

Lemma le_bytes_cons n v : 0 ≤ n → le_bytes (Z.succ n) v = Z.land v 255 :: le_bytes n (Z.shiftr v 8).
Proof. intros. unfold le_bytes. by rewrite Z_to_little_endian_succ. Qed.

Lemma sublist_Forall {A} (P : A → Prop) l l' : l `sublist_of` l' → Forall P l' → Forall P l.
Proof.
  induction 1 as [|x l l' _ IH|x l l' _ IH]; [done|..]; intros [Hx Hl]%Forall_cons; auto.
Qed.

Lemma sublist_StronglySorted {A} (R : A → A → Prop) l l' :
  l `sublist_of` l' → StronglySorted R l' → StronglySorted R l.
Proof.
  induction 1 as [|x l l' Hs IH|x l l' _ IH]; [done|..]; intros [Hl Hx]%StronglySorted_inv; auto.
  constructor; [auto|]. by eapply sublist_Forall.
Qed.

Lemma seqZ_snoc m n : 0 ≤ n → seqZ m (n + 1) = seqZ m n ++ [m + n].
Proof. intros. by rewrite seqZ_app by lia. Qed.

(** A computation known to succeed, by its value or any default. *)
Lemma some_default {A} (m : option A) d : bool_decide (is_Some m) = true → m = Some (default d m).
Proof. by destruct m. Qed.

#[global] Opaque le_bytes le_value.

#[export] Hint Extern 0 (0 ≤ _)%Z => lia : lltg.
#[export] Hint Extern 1 (length (le_bytes _ _) = _) => rewrite length_le_bytes by lia; reflexivity : lltg.
