(* ===== verification/Doubles.v ===== *)
(** * Floating-point arithmetic

    The [double] of the two benchmark programs: the Standard Library's
    specification of IEEE-754 binary64 with rounding to nearest, and what the
    proofs need of it: integers up to 2^53 are exact, a result below 2^53 has
    the right integer part, and a product or quotient is within one unit of
    the last place. *)

From Stdlib Require Import SpecFloat QArith Lqa Qpower Qabs.
From S2P Require Import Prelude.

#[local] Open Scope Z_scope.

(** [static_cast<double>] of an integer, the product and the quotient of two
    doubles, and [static_cast<std::size_t>] of a double that is not negative. *)
Definition double_of (n : Z) : spec_float := binary_normalize 53 1024 n 0 false.
Definition double_mul : spec_float → spec_float → spec_float := SFmul 53 1024.
Definition double_div : spec_float → spec_float → spec_float := SFdiv 53 1024.
Definition size_of (x : spec_float) : option Z :=
  match x with
  | S754_zero _ => Some 0
  | S754_finite false m e =>
      let n := if decide (0 ≤ e) then Z.pos m * 2 ^ e else Z.pos m / 2 ^ (- e) in
      if decide (n < 2 ^ 64) then Some n else None
  | _ => None
  end.

(** ** Doubles *)

Lemma digits_bounds m : 2 ^ (Z.pos (digits2_pos m) - 1) ≤ Z.pos m < 2 ^ Z.pos (digits2_pos m).
Proof.
  induction m as [m IH|m IH|]; [| |done]; cbn [digits2_pos]; rewrite Pos2Z.inj_succ;
    rewrite Z.pow_succ_r by lia;
    replace (Z.succ (Z.pos (digits2_pos m)) - 1) with (Z.succ (Z.pos (digits2_pos m) - 1)) by lia;
    rewrite Z.pow_succ_r by lia; lia.
Qed.

Lemma digits_unique m d : 1 ≤ d → 2 ^ (d - 1) ≤ Z.pos m < 2 ^ d → Z.pos (digits2_pos m) = d.
Proof.
  intros Hd [Hl Hu]. pose proof (digits_bounds m) as [Hl' Hu'].
  assert (d - 1 < Z.pos (digits2_pos m)) by (apply (Z.pow_lt_mono_r_iff 2); lia).
  assert (Z.pos (digits2_pos m) - 1 < d) by (apply (Z.pow_lt_mono_r_iff 2); lia). lia.
Qed.

Lemma shr_1_m r : 0 ≤ shr_m r → shr_m (shr_1 r) = shr_m r / 2.
Proof. destruct r as [[|[p|p|]|p] ? ?]; cbn; rewrite <- ?Z.div2_div; [done..|lia]. Qed.

Lemma div_pow2_pos m n : 0 ≤ m → 0 ≤ m / 2 ^ Z.pos n.
Proof. intros. apply Z.div_pos; [done|]. by apply Z.pow_pos_nonneg. Qed.

Lemma iter_shr p r : 0 ≤ shr_m r → shr_m (SpecFloat.iter_pos shr_1 p r) = shr_m r / 2 ^ Z.pos p.
Proof.
  revert r. induction p as [p IH|p IH|]; intros r Hr; cbn [SpecFloat.iter_pos]; [| |by apply shr_1_m];
    pose proof (Z.pow_pos_nonneg 2 (Z.pos p)).
  - assert (0 ≤ shr_m (shr_1 r)) as H1 by (rewrite shr_1_m by done; by apply Z.div_pos).
    rewrite IH by (rewrite IH by done; by apply div_pow2_pos). rewrite IH, shr_1_m by done.
    rewrite !Z.div_div by lia. f_equal.
    replace (Z.pos p~1) with (1 + Z.pos p + Z.pos p) by lia.
    rewrite !Z.pow_add_r by lia. lia.
  - rewrite IH by (rewrite IH by done; by apply div_pow2_pos). rewrite IH by done.
    rewrite !Z.div_div by lia. f_equal.
    replace (Z.pos p~0) with (Z.pos p + Z.pos p) by lia.
    rewrite !Z.pow_add_r by lia. lia.
Qed.

(** Bits shifted out of a mantissa with exponent [e] to leave 53. *)
Definition excess (m : Z) : Z := Z.max 0 (Zdigits2 m - 53).

Lemma shr_fexp_spec m e :
  0 ≤ m → -1074 ≤ e →
  ∃ r, shr_fexp 53 1024 m e loc_Exact = (r, e + excess m) ∧ shr_m r = m / 2 ^ excess m ∧
    (excess m = 0 → loc_of_shr_record r = loc_Exact).
Proof.
  intros Hm He. unfold shr_fexp, excess.
  assert (Z.max 0 (fexp 53 1024 (Zdigits2 m + e) - e) = Z.max 0 (Zdigits2 m - 53)) as <-.
  { unfold fexp, emin. lia. }
  unfold shr. destruct (fexp 53 1024 (Zdigits2 m + e) - e) as [|n|n].
  - exists (Build_shr_record m false false). simpl. by rewrite Z.div_1_r, Z.add_0_r.
  - eexists. split; [done|]. split; [by rewrite iter_shr|]. lia.
  - exists (Build_shr_record m false false). simpl. by rewrite Z.div_1_r, Z.add_0_r.
Qed.

Lemma round_nearest_bounds m l : m ≤ round_nearest_even m l ≤ m + 1.
Proof. destruct l as [|[| |]]; simpl; try lia. destruct (Z.even m); lia. Qed.

Lemma excess_scale m : 0 < m → excess m ≠ 0 → 2 ^ (52 + excess m) ≤ m < 2 ^ (53 + excess m).
Proof.
  unfold excess. destruct m as [|m|]; [done| |done]. intros _ Hx. cbn [Zdigits2] in *.
  pose proof (digits_bounds m). 
  replace (52 + _) with (Z.pos (digits2_pos m) - 1) by lia.
  by replace (53 + _) with (Z.pos (digits2_pos m)) by lia.
Qed.

Lemma excess_0 m : 0 < m < 2 ^ 53 → excess m = 0.
Proof.
  intros Hm. destruct (decide (excess m = 0)) as [|Hx]; [done|].
  pose proof (excess_scale m ltac:(lia) Hx) as [Hl _].
  assert (2 ^ 53 ≤ 2 ^ (52 + excess m)); [|lia].
  apply Z.pow_le_mono_r; unfold excess in *; lia.
Qed.

(** What is left of a mantissa. *)
Lemma excess_floor m : 0 < m → 0 < m / 2 ^ excess m < 2 ^ 53.
Proof.
  intros Hm. destruct (decide (excess m = 0)) as [E|Hne].
  - rewrite E. change (2 ^ 0) with 1. rewrite Z.div_1_r. split; [done|].
    unfold excess in E. destruct m as [|p|]; [done| |done].
    cbn [Zdigits2] in E. pose proof (digits_bounds p) as [_ Hu].
    assert (2 ^ Z.pos (digits2_pos p) ≤ 2 ^ 53) by (apply Z.pow_le_mono_r; lia). lia.
  - assert (0 ≤ excess m) by (unfold excess; lia). destruct (excess_scale m Hm Hne) as [Hl Hu].
    assert (0 < 2 ^ excess m) by (by apply Z.pow_pos_nonneg).
    rewrite Z.pow_add_r in Hl, Hu by lia. split.
    + apply Z.div_str_pos. lia.
    + apply Z.div_lt_upper_bound; lia.
Qed.

Lemma excess_rounded m : 0 < m ≤ 2 ^ 53 → excess m = 0 ∨ excess m = 1 ∧ m = 2 ^ 53.
Proof.
  intros Hm. destruct (decide (m = 2 ^ 53)) as [->|]; [by right|left]. apply excess_0. lia.
Qed.

(** Rounding to 53 bits, for an exact value below 2^53: the integer part does
    not drop and the value grows by one unit of the last place at most. *)
Lemma binary_round_bounds m e :
  0 < m → -1074 ≤ e → e + excess m ≤ -1 →
  ∃ m' e', binary_round_aux 53 1024 false m e loc_Exact = S754_finite false m' e' ∧ e' ≤ 0 ∧
    m / 2 ^ (- e) ≤ Z.pos m' / 2 ^ (- e') ∧
    Z.pos m' / 2 ^ (- e') * 2 ^ (- e) ≤ m + 2 ^ excess m.
Proof.
  intros Hm He Hx. assert (0 ≤ excess m) as Hx0 by (unfold excess; lia).
  destruct (shr_fexp_spec m e ltac:(lia) He) as (r & E1 & Hr & _).
  set (k := excess m) in *. set (e1 := e + k) in *.
  set (m1 := shr_m r) in *. set (m2 := round_nearest_even m1 (loc_of_shr_record r)).
  assert (m1 ≤ m2 ≤ m1 + 1) as Hm2 by apply round_nearest_bounds.
  assert (0 < 2 ^ k) as Hk by (by apply Z.pow_pos_nonneg).
  assert (0 < 2 ^ (- e1)) as Hp1 by (apply Z.pow_pos_nonneg; lia).
  assert (2 ^ (- e) = 2 ^ k * 2 ^ (- e1)) as Hpow by (rewrite <- Z.pow_add_r by lia; f_equal; lia).
  assert (m1 * 2 ^ k ≤ m) as Hfloor by (rewrite Hr, Z.mul_comm; by apply Z.mul_div_le).
  pose proof (excess_floor m Hm) as Hm1. fold k in Hm1. rewrite <- Hr in Hm1. fold m1 in Hm1.
  pose proof (excess_rounded m2 ltac:(lia)) as Hx2.
  assert (0 ≤ excess m2) as Hx20 by (unfold excess; lia).
  destruct (shr_fexp_spec m2 e1 ltac:(lia) ltac:(lia)) as (r2 & E2 & Hr2 & _).
  assert (0 < shr_m r2) as Hpos.
  { rewrite Hr2. apply excess_floor. lia. }
  unfold binary_round_aux. rewrite E1. fold m1 m2. fold k. fold e1. rewrite E2.
  destruct (shr_m r2) as [|m'|] eqn:E3; [done| |done].
  rewrite (proj2 (Z.leb_le _ _)) by lia. exists m', (e1 + excess m2). split; [done|]. split; [lia|].
  assert (Z.pos m' / 2 ^ (- (e1 + excess m2)) = m2 / 2 ^ (- e1)) as ->.
  { rewrite Hr2, Z.div_div by (try apply Z.pow_nonzero; try apply Z.pow_pos_nonneg; lia).
    f_equal. rewrite <- Z.pow_add_r by lia. f_equal. lia. }
  split.
  - rewrite Hpow, <- Z.div_div, <- Hr by lia. apply Z.div_le_mono; lia.
  - rewrite Hpow. pose proof (Z.mul_div_le m2 (2 ^ (- e1)) Hp1). nia.
Qed.

(** Integers up to 2^53 are exact. *)
Lemma iter_xO m n : Z.pos (Pos.iter xO m n) = Z.pos m * 2 ^ Z.pos n.
Proof.
  induction n as [|n IH] using Pos.peano_ind; [simpl; lia|].
  rewrite Pos.iter_succ, Pos2Z.inj_succ, Z.pow_succ_r by lia. lia.
Qed.

Lemma double_of_exact n :
  0 < n < 2 ^ 53 →
  ∃ m t, double_of n = S754_finite false m (- t) ∧ 0 ≤ t ≤ 52 ∧ Z.pos m = n * 2 ^ t ∧
    2 ^ 52 ≤ Z.pos m < 2 ^ 53.
Proof.
  intros Hn. destruct n as [|n|]; [lia| |lia]. unfold double_of, binary_normalize, binary_round.
  pose proof (digits_bounds n) as Hb. set (d := Z.pos (digits2_pos n)) in *.
  assert (d ≤ 53) as Hd. { cut (d - 1 < 53); [lia|]. apply (Z.pow_lt_mono_r_iff 2); lia. }
  assert (∃ m, shl_align n 0 (fexp 53 1024 (d + 0)) = (m, - (53 - d)) ∧ Z.pos m = Z.pos n * 2 ^ (53 - d))
    as (m & Es & Hm).
  { unfold shl_align. replace (fexp 53 1024 (d + 0)) with (d - 53) by (unfold fexp, emin; lia).
    rewrite Z.sub_0_r. replace (53 - d) with (- (d - 53)) by lia. destruct (d - 53) as [|p|p] eqn:Ed; [|lia|].
    - exists n. split; [done|]. simpl. lia.
    - eexists. split; [done|]. apply iter_xO. }
  assert (2 ^ 52 ≤ Z.pos m < 2 ^ 53) as Hr.
  { assert (0 < 2 ^ (53 - d)) by (apply Z.pow_pos_nonneg; lia). rewrite Hm.
    assert (2 ^ 52 = 2 ^ (d - 1) * 2 ^ (53 - d)) as -> by
      (rewrite <- Z.pow_add_r by lia; apply f_equal; lia).
    assert (2 ^ 53 = 2 ^ d * 2 ^ (53 - d)) as -> by
      (rewrite <- Z.pow_add_r by lia; apply f_equal; lia).
    split; [apply Z.mul_le_mono_nonneg_r|apply Z.mul_lt_mono_pos_r]; lia. }
  rewrite Es. exists m, (53 - d). split; [|split; [lia|done]].
  assert (fexp 53 1024 (Zdigits2 (Z.pos m) + - (53 - d)) - - (53 - d) = 0) as Hf.
  { cbn [Zdigits2]. rewrite (digits_unique m 53) by lia. unfold fexp, emin. lia. }
  unfold binary_round_aux, shr_fexp. rewrite Hf. cbn [shr shr_record_of_loc loc_of_shr_record round_nearest_even shr_m].
  rewrite Hf. cbn [shr shr_record_of_loc shr_m]. by rewrite (proj2 (Z.leb_le _ _)) by lia.
Qed.


(** ** Relative errors *)

(** The value of a finite double that is not negative. *)
Definition value (x : spec_float) : Q :=
  match x with S754_finite false m e => inject_Z (Z.pos m) * Qpower 2 e | _ => 0 end.

(** A positive finite double with a full mantissa. *)
Definition normal (x : spec_float) (m : positive) (e : Z) : Prop :=
  x = S754_finite false m e ∧ 2 ^ 52 ≤ Z.pos m < 2 ^ 53.

Lemma pow2_pos e : (0 < Qpower 2 e)%Q.
Proof. by apply Qpower_0_lt. Qed.

Lemma pow2_add e e' : (Qpower 2 (e + e') == Qpower 2 e * Qpower 2 e')%Q.
Proof. by apply Qpower_plus. Qed.

Lemma pow2_Z k : 0 ≤ k → (inject_Z (2 ^ k) == Qpower 2 k)%Q.
Proof. intros Hk. destruct k as [|k|k]; [done| |done]. by rewrite Zpower_Qpower. Qed.

(** The shift of [shr_fexp] whatever was lost before. *)
Lemma shr_fexp_shift m e l :
  0 ≤ m → -1074 ≤ e → ∃ r, shr_fexp 53 1024 m e l = (r, e + excess m) ∧ shr_m r = m / 2 ^ excess m.
Proof.
  intros Hm He. unfold shr_fexp, excess.
  assert (shr_m (shr_record_of_loc m l) = m) as Hl by (by destruct l as [|[| |]]).
  assert (Z.max 0 (fexp 53 1024 (Zdigits2 m + e) - e) = Z.max 0 (Zdigits2 m - 53)) as <-.
  { unfold fexp, emin. lia. }
  unfold shr. destruct (fexp 53 1024 (Zdigits2 m + e) - e) as [|n|n].
  - eexists. split; [f_equal; simpl; lia|]. by rewrite Hl, Z.div_1_r.
  - eexists. split; [done|]. by rewrite iter_shr, Hl by lia.
  - eexists. split; [f_equal; simpl; lia|]. by rewrite Hl, Z.div_1_r.
Qed.

(** A mantissa of 53 bits or more is rounded to 53. *)
Lemma binary_round_53 m e l :
  2 ^ 52 ≤ m → -1074 ≤ e → e + excess m ≤ 970 →
  ∃ m' e' n, binary_round_aux 53 1024 false m e l = S754_finite false m' e' ∧ 2 ^ 52 ≤ Z.pos m' < 2 ^ 53 ∧
    m / 2 ^ excess m ≤ n ≤ m / 2 ^ excess m + 1 ∧ e + excess m ≤ e' ≤ e + excess m + 1 ∧
    Z.pos m' * 2 ^ (e' - (e + excess m)) = n.
Proof.
  intros Hm He Hx. assert (0 ≤ excess m) as Hx0 by (unfold excess; lia).
  destruct (shr_fexp_shift m e l ltac:(lia) He) as (r & E1 & Hr). unfold binary_round_aux. rewrite E1.
  set (n := round_nearest_even (shr_m r) (loc_of_shr_record r)).
  pose proof (round_nearest_bounds (shr_m r) (loc_of_shr_record r)) as Hn. fold n in Hn. rewrite Hr in Hn.
  pose proof (excess_floor m ltac:(lia)) as Hfloor.
  assert (2 ^ 52 ≤ m / 2 ^ excess m) as Hlow.
  { destruct (decide (excess m = 0)) as [->|Hne]; [change (2 ^ 0) with 1; by rewrite Z.div_1_r|].
    destruct (excess_scale m ltac:(lia) Hne) as [Hl _]. rewrite Z.pow_add_r in Hl by lia.
    apply Z.div_le_lower_bound; [by apply Z.pow_pos_nonneg|lia]. }
  destruct (shr_fexp_shift n (e + excess m) loc_Exact ltac:(lia) ltac:(lia)) as (r2 & E2 & Hr2). rewrite E2.
  destruct (excess_rounded n ltac:(lia)) as [Hn0|[Hn1 Hn53]].
  - rewrite Hn0, Z.div_1_r in Hr2. rewrite Hr2, Hn0. destruct n as [|n'|]; [lia| |lia].
    assert (Z.pos n' ≠ 2 ^ 53).
    { intros E. rewrite E in Hn0. done. }
    rewrite (proj2 (Z.leb_le _ _)) by lia. exists n', (e + excess m), (Z.pos n').
    rewrite Z.add_0_r, Z.sub_diag. split_and!; try done; lia.
  - rewrite Hn1, Hn53 in Hr2. rewrite Hr2, Hn1. cbn -[Z.leb Z.pow Z.add].
    change (2 ^ 53 / 2 ^ 1) with 4503599627370496. cbv iota. rewrite (proj2 (Z.leb_le _ _)) by lia.
    exists 4503599627370496%positive, (e + excess m + 1), n.
    replace (e + excess m + 1 - _) with 1 by lia. split_and!; try done; lia.
Qed.

(** [x] is [y] up to a relative error, and the error of one rounding. *)
Definition near (err x y : Q) : Prop := (y * (1 - err) <= x /\ x <= y * (1 + err))%Q.
Definition ulp : Q := 1 # 4503599627370496.

#[export] Instance near_proper : Proper (Qeq ==> Qeq ==> Qeq ==> iff) near.
Proof. intros a a' Ha x x' Hx y y' Hy. unfold near. by rewrite Ha, Hx, Hy. Qed.

Lemma inject_le a b : a ≤ b → (inject_Z a <= inject_Z b)%Q.
Proof. intros. by rewrite <- Zle_Qle. Qed.

Lemma scale_le a b e : (inject_Z a <= inject_Z b)%Q → (inject_Z a * Qpower 2 e <= inject_Z b * Qpower 2 e)%Q.
Proof. intros. apply Qmult_le_compat_r; [done|]. apply Qlt_le_weak, pow2_pos. Qed.

(** Shifting the mantissa. *)
Lemma value_shift n k e : 0 ≤ k → (inject_Z (n * 2 ^ k) * Qpower 2 e == inject_Z n * Qpower 2 (e + k))%Q.
Proof. intros Hk. rewrite inject_Z_mult, pow2_Z, pow2_add by done. ring. Qed.

(** Rounding a value that lies between two multiples of a power of two. *)
Lemma rounded_near m e l (x : Q) :
  2 ^ 52 ≤ m → -1074 ≤ e → e + excess m ≤ 970 →
  (inject_Z m * Qpower 2 e <= x)%Q → (x <= inject_Z (m + 1) * Qpower 2 e)%Q →
  ∃ m' e', binary_round_aux 53 1024 false m e l = S754_finite false m' e' ∧ 2 ^ 52 ≤ Z.pos m' < 2 ^ 53 ∧
    e + excess m ≤ e' ≤ e + excess m + 1 ∧ near ulp (value (S754_finite false m' e')) x.
Proof.
  intros Hm He Hx Hlo Hhi. assert (0 ≤ excess m) as Hk by (unfold excess; lia).
  destruct (binary_round_53 m e l Hm He Hx) as (m' & e' & n & E & Hm' & Hn & He' & Hval).
  exists m', e'. split_and!; try done; try lia. set (k := excess m) in *. set (m1 := m / 2 ^ k) in *.
  assert (0 < 2 ^ k) as Hp by (by apply Z.pow_pos_nonneg).
  pose proof (excess_floor m ltac:(lia)) as Hf. fold k m1 in Hf.
  assert (2 ^ 52 ≤ m1) as H52.
  { unfold m1. destruct (decide (k = 0)) as [->|Hne]; [change (2 ^ 0) with 1; by rewrite Z.div_1_r|].
    destruct (excess_scale m ltac:(lia) Hne) as [Hl _]. fold k in Hl. rewrite Z.pow_add_r in Hl by lia.
    apply Z.div_le_lower_bound; lia. }
  assert (m1 * 2 ^ k ≤ m ∧ m + 1 ≤ (m1 + 1) * 2 ^ k) as [Hd1 Hd2].
  { unfold m1. pose proof (Z.mul_div_le m _ Hp). pose proof (Z.mul_succ_div_gt m _ Hp). lia. }
  apply inject_le, (scale_le _ _ e) in Hd1. apply inject_le, (scale_le _ _ e) in Hd2.
  rewrite value_shift in Hd1, Hd2 by done.
  assert (value (S754_finite false m' e') == inject_Z n * Qpower 2 (e + k))%Q as Hv.
  { unfold value. rewrite <- Hval, value_shift by lia. by replace (e + k + (e' - (e + k))) with e' by lia. }
  destruct Hn as [Hn1 Hn2]. apply inject_le, (scale_le _ _ (e + k)) in Hn1. apply inject_le, (scale_le _ _ (e + k)) in Hn2.
  apply inject_le, (scale_le _ _ (e + k)) in H52. rewrite (inject_Z_plus m1 1), Qmult_plus_distr_l in Hd2, Hn2.
  pose proof (pow2_pos (e + k)). unfold near, ulp. rewrite Hv. change (inject_Z (2 ^ 52)) with (4503599627370496 # 1) in H52.
  change (inject_Z 1) with 1%Q in *. split; lra.
Qed.

Lemma excess_range m a b : 0 ≤ a → 2 ^ (52 + a) ≤ m < 2 ^ (53 + b) → a ≤ excess m ≤ b.
Proof.
  intros Ha [Hl Hu]. assert (0 < 2 ^ (52 + a)) by (apply Z.pow_pos_nonneg; lia).
  destruct m as [|m|]; [lia| |lia]. pose proof (digits_bounds m) as [Hd1 Hd2]. unfold excess. cbn [Zdigits2].
  assert (52 + a < Z.pos (digits2_pos m)) by (apply (Z.pow_lt_mono_r_iff 2); lia).
  assert (Z.pos (digits2_pos m) - 1 < 53 + b); [|lia].
  destruct (decide (53 + b < 0)) as [Hneg|]; [rewrite Z.pow_neg_r in Hu by done; lia|].
  apply (Z.pow_lt_mono_r_iff 2); lia.
Qed.

Lemma value_pos x m e : normal x m e → (0 < value x)%Q.
Proof.
  intros [-> _]. unfold value. apply Qmult_lt_0_compat; [done|apply pow2_pos].
Qed.

Lemma double_of_near n :
  0 < n < 2 ^ 53 → ∃ m e, normal (double_of n) m e ∧ -52 ≤ e ≤ 0 ∧ (value (double_of n) == inject_Z n)%Q.
Proof.
  intros Hn. destruct (double_of_exact n Hn) as (m & t & -> & Ht & Hm & Hb).
  exists m, (- t). split; [done|]. split; [lia|]. unfold value. rewrite Hm, value_shift by lia.
  replace (- t + t) with 0 by lia. simpl. ring.
Qed.

Lemma mul_near x y mx ex my ey :
  normal x mx ex → normal y my ey → -1000 ≤ ex + ey ≤ 900 →
  ∃ m e, normal (double_mul x y) m e ∧ ex + ey + 52 ≤ e ≤ ex + ey + 54 ∧
    near ulp (value (double_mul x y)) (value x * value y).
Proof.
  intros [-> Hx] [-> Hy] He. unfold double_mul, SFmul, xorb.
  assert (52 ≤ excess (Z.pos (mx * my)) ≤ 53) as Hex.
  { apply excess_range; [done|]. rewrite Pos2Z.inj_mul. change (2 ^ (52 + 52)) with (2 ^ 52 * 2 ^ 52).
    change (2 ^ (53 + 53)) with (2 ^ 53 * 2 ^ 53). nia. }
  assert (value (S754_finite false mx ex) * value (S754_finite false my ey) ==
    inject_Z (Z.pos (mx * my)) * Qpower 2 (ex + ey))%Q as Hv.
  { unfold value. rewrite Pos2Z.inj_mul, inject_Z_mult, pow2_add. ring. }
  destruct (rounded_near (Z.pos (mx * my)) (ex + ey) loc_Exact (inject_Z (Z.pos (mx * my)) * Qpower 2 (ex + ey)))
    as (m & e & E & Hm & He' & Hnear); [nia|lia|lia|apply Qle_refl|apply scale_le, inject_le; lia|].
  exists m, e. rewrite E. split; [done|]. split; [lia|]. by rewrite Hv.
Qed.

Lemma div_near x y mx ex my ey :
  normal x mx ex → normal y my ey → -900 ≤ ex - ey ≤ 900 →
  ∃ m e, normal (double_div x y) m e ∧ ex - ey - 53 ≤ e ≤ ex - ey - 51 ∧
    near ulp (value (double_div x y)) (value x / value y).
Proof.
  intros [-> Hx] [-> Hy] He. unfold double_div, SFdiv, SFdiv_core_binary, xorb. cbn [Zdigits2].
  rewrite !(digits_unique _ 53) by lia.
  replace (Z.min (fexp 53 1024 (53 + ex - (53 + ey))) (ex - ey)) with (ex - ey - 53) by (unfold fexp, emin; lia).
  replace (ex - ey - (ex - ey - 53)) with 53 by lia. cbv iota. rewrite Z.shiftl_mul_pow2 by done.
  pose proof (Z_div_mod (Z.pos mx * 2 ^ 53) (Z.pos my) ltac:(lia)) as Hdm.
  destruct (Z.div_eucl _ _) as [q r]. destruct Hdm as [Hq Hr].
  assert (2 ^ 52 ≤ q < 2 ^ 54) as Hqb by nia.
  assert (0 ≤ excess q ≤ 1) as Hex by (by apply excess_range).
  assert (value (S754_finite false mx ex) / value (S754_finite false my ey) ==
    inject_Z (Z.pos mx * 2 ^ 53) / inject_Z (Z.pos my) * Qpower 2 (ex - ey - 53))%Q as Hv.
  { unfold value. rewrite inject_Z_mult, pow2_Z by done.
    assert (Qpower 2 ex == Qpower 2 53 * Qpower 2 (ex - ey - 53) * Qpower 2 ey)%Q as ->.
    { rewrite <- !pow2_add. by replace (53 + (ex - ey - 53) + ey) with ex by lia. }
    field. split; [done|]. intros E. pose proof (pow2_pos ey) as Hp. rewrite E in Hp. by apply Qlt_irrefl in Hp. }
  destruct (rounded_near q (ex - ey - 53) (new_location (Z.pos my) r)
    (inject_Z (Z.pos mx * 2 ^ 53) / inject_Z (Z.pos my) * Qpower 2 (ex - ey - 53)))
    as (m & e & E & Hm & He' & Hnear); [lia|lia|lia| | |].
  - apply Qmult_le_compat_r; [|apply Qlt_le_weak, pow2_pos]. apply Qle_shift_div_l; [done|].
    rewrite <- inject_Z_mult. apply inject_le. lia.
  - apply Qmult_le_compat_r; [|apply Qlt_le_weak, pow2_pos]. apply Qle_shift_div_r; [done|].
    rewrite <- inject_Z_mult. apply inject_le. lia.
  - exists m, e. rewrite E. split; [done|]. split; [lia|]. by rewrite Hv.
Qed.

(** Relative errors add up. *)
Lemma near_scale err x y c : (0 <= c)%Q → near err x y → near err (x * c) (y * c).
Proof. intros Hc [H1 H2]. unfold near. split; nra. Qed.

Lemma near_trans a b x y z :
  (0 <= a <= 1)%Q → (0 <= b)%Q → (0 < z)%Q → near a x y → near b y z → near (a + b + a * b) x z.
Proof.
  unfold near. intros [Ha Ha1] Hb Hz [H1 H2] [H3 H4].
  assert (z * (1 - b) * (1 - a) <= y * (1 - a))%Q by (apply Qmult_le_compat_r; lra).
  assert (y * (1 + a) <= z * (1 + b) * (1 + a))%Q by (apply Qmult_le_compat_r; lra).
  assert (0 <= z * (a * b))%Q by (apply Qmult_le_0_compat; [lra|by apply Qmult_le_0_compat]). split; lra.
Qed.

Lemma near_weaken a b x y : (a <= b)%Q → (0 <= y)%Q → near a x y → near b x y.
Proof. intros Hab Hy [H1 H2]. unfold near. split; nra. Qed.

Lemma near_div a c x y :
  (0 <= a <= 1 # 2)%Q → (0 <= c)%Q → (0 < x)%Q → (0 < y)%Q → near a x y → near (2 * a) (c / x) (c / y).
Proof.
  intros [Ha Ha1] Hc Hx Hy [H1 H2]. unfold near. split.
  - apply Qle_shift_div_l; [done|].
    assert (c / y * (1 - 2 * a) * x <= c / y * (1 - 2 * a) * (y * (1 + a)))%Q as Hle.
    { rewrite !(Qmult_comm (c / y * (1 - 2 * a))). apply Qmult_le_compat_r; [done|].
      apply Qmult_le_0_compat; [|lra]. by apply Qle_shift_div_l; [|lra]. }
    assert (c / y * (1 - 2 * a) * (y * (1 + a)) == c * ((1 - 2 * a) * (1 + a)))%Q as E.
    { field. intros E. rewrite E in Hy. by apply Qlt_irrefl in Hy. }
    rewrite E in Hle. assert (0 <= c * (a + 2 * a * a))%Q by (apply Qmult_le_0_compat; [done|nra]). lra.
  - apply Qle_shift_div_r; [done|].
    assert (c / y * (1 + 2 * a) * (y * (1 - a)) <= c / y * (1 + 2 * a) * x)%Q as Hle.
    { rewrite !(Qmult_comm (c / y * (1 + 2 * a))). apply Qmult_le_compat_r; [done|].
      apply Qmult_le_0_compat; [|lra]. by apply Qle_shift_div_l; [|lra]. }
    assert (c / y * (1 + 2 * a) * (y * (1 - a)) == c * ((1 + 2 * a) * (1 - a)))%Q as E.
    { field. intros E. rewrite E in Hy. by apply Qlt_irrefl in Hy. }
    rewrite E in Hle. assert (0 <= c * (a - 2 * a * a))%Q by (apply Qmult_le_0_compat; [done|nra]). lra.
Qed.
