(* ===== verification/Protocol.v ===== *)
(** * Wire constants, message types and message structs

    Models [core/order_entry/include/lltg/order_entry/protocol.hpp].  A scoped
    enumeration has the source's enumerators and one constructor [Other] for
    the remaining values of its fixed underlying type: a [static_cast] from
    the wire can produce any of them.  A struct is a record in a module of the
    struct's name, with its default member initialisers as [default] and its
    [off_*] constants beside it. *)

From S2P Require Import Prelude.

Definition kMagic : Z := 0x6c6c7467.
Definition kVersion : Z := 1.
Definition kFrameSize : nat := 64.
Definition kHeaderSize : nat := 32.
Definition kPayloadSize : nat := 32.

Module MessageType.

Inductive t : Set :=
| NewOrder | CancelOrder | ModifyOrder | Heartbeat | Logout
| Accepted | Rejected | Cancelled | Modified | Trade
| Other (raw : Z).

(** [static_cast<std::uint16_t>(type)] *)
Definition to_u16 (ty : t) : Z :=
  match ty with
  | NewOrder => 1 | CancelOrder => 2 | ModifyOrder => 3 | Heartbeat => 4 | Logout => 5
  | Accepted => 101 | Rejected => 102 | Cancelled => 103 | Modified => 104 | Trade => 105
  | Other raw => raw
  end.

(** [static_cast<MessageType>(raw)] *)
Definition of_u16 (raw : Z) : t :=
  if decide (raw = 1) then NewOrder
  else if decide (raw = 2) then CancelOrder
  else if decide (raw = 3) then ModifyOrder
  else if decide (raw = 4) then Heartbeat
  else if decide (raw = 5) then Logout
  else if decide (raw = 101) then Accepted
  else if decide (raw = 102) then Rejected
  else if decide (raw = 103) then Cancelled
  else if decide (raw = 104) then Modified
  else if decide (raw = 105) then Trade
  else Other raw.

#[global] Instance t_eq_dec : EqDecision t.
Proof. solve_decision. Defined.

(** The values of the enumeration: 16-bit, and [Other] only where no
    enumerator has the value. *)
Definition ok (ty : t) : Prop := is_u16 (to_u16 ty) ∧ of_u16 (to_u16 ty) = ty.

#[global] Instance ok_dec ty : Decision (ok ty).
Proof. unfold ok. apply _. Defined.

End MessageType.

Module Side.

Inductive t : Set := Buy | Sell | Other (raw : Z).

Definition to_u64 (s : t) : Z :=
  match s with Buy => 1 | Sell => 2 | Other raw => raw end.

Definition of_u64 (raw : Z) : t :=
  if decide (raw = 1) then Buy else if decide (raw = 2) then Sell else Other raw.

#[global] Instance t_eq_dec : EqDecision t.
Proof. solve_decision. Defined.

Definition ok (s : t) : Prop := is_u64 (to_u64 s) ∧ of_u64 (to_u64 s) = s.

#[global] Instance ok_dec s : Decision (ok s).
Proof. unfold ok. apply _. Defined.

End Side.

Module RejectReason.

Inductive t : Set :=
| None | BadSequence | DuplicateClientOrderId | UnknownClientOrderId
| InvalidPrice | InvalidQuantity | UnsupportedMessageType
| Other (raw : Z).

Definition to_u64 (r : t) : Z :=
  match r with
  | None => 0 | BadSequence => 1 | DuplicateClientOrderId => 2 | UnknownClientOrderId => 3
  | InvalidPrice => 4 | InvalidQuantity => 5 | UnsupportedMessageType => 6
  | Other raw => raw
  end.

Definition of_u64 (raw : Z) : t :=
  if decide (raw = 0) then None
  else if decide (raw = 1) then BadSequence
  else if decide (raw = 2) then DuplicateClientOrderId
  else if decide (raw = 3) then UnknownClientOrderId
  else if decide (raw = 4) then InvalidPrice
  else if decide (raw = 5) then InvalidQuantity
  else if decide (raw = 6) then UnsupportedMessageType
  else Other raw.

#[global] Instance t_eq_dec : EqDecision t.
Proof. solve_decision. Defined.

Definition ok (r : t) : Prop := is_u64 (to_u64 r) ∧ of_u64 (to_u64 r) = r.

#[global] Instance ok_dec r : Decision (ok r).
Proof. unfold ok. apply _. Defined.

End RejectReason.

Module DecodeStatus.

Inductive t : Set :=
| Ok | NeedMoreData | BadMagic | BadVersion | UnknownMessageType | BadPayloadLength.

#[global] Instance t_eq_dec : EqDecision t.
Proof. solve_decision. Defined.

End DecodeStatus.

Module MessageHeader.

Record t : Set := mk {
  magic : Z;
  version : Z;
  message_type : MessageType.t;
  payload_length : Z;
  flags : Z;
  sequence_number : Z;
  session_id : Z;
  reserved : Z
}.

(** [MessageHeader{}] *)
Definition default : t := mk kMagic kVersion (MessageType.of_u16 0) 0 0 0 0 0.

Definition off_magic : nat := 0.
Definition off_version : nat := 4.
Definition off_message_type : nat := 6.
Definition off_payload_length : nat := 8.
Definition off_flags : nat := 10.
Definition off_sequence_number : nat := 12.
Definition off_session_id : nat := 20.
Definition off_reserved : nat := 28.

Definition set_message_type (ty : MessageType.t) (h : t) : t :=
  mk (magic h) (version h) ty (payload_length h) (flags h) (sequence_number h)
     (session_id h) (reserved h).

Definition set_payload_length (len : Z) (h : t) : t :=
  mk (magic h) (version h) (message_type h) len (flags h) (sequence_number h)
     (session_id h) (reserved h).

Definition set_sequence_number (n : Z) (h : t) : t :=
  mk (magic h) (version h) (message_type h) (payload_length h) (flags h) n
     (session_id h) (reserved h).

Definition set_session_id (sid : Z) (h : t) : t :=
  mk (magic h) (version h) (message_type h) (payload_length h) (flags h)
     (sequence_number h) sid (reserved h).

(** Every member is in the range of its C++ type. *)
Definition ok (h : t) : Prop :=
  is_u32 (magic h) ∧ is_u16 (version h) ∧ MessageType.ok (message_type h) ∧
  is_u16 (payload_length h) ∧ is_u16 (flags h) ∧ is_u64 (sequence_number h) ∧
  is_u64 (session_id h) ∧ is_u32 (reserved h).

#[global] Instance ok_dec h : Decision (ok h).
Proof. unfold ok. apply _. Defined.

#[global] Instance t_eq_dec : EqDecision t.
Proof. solve_decision. Defined.

End MessageHeader.

Module NewOrder.

Record t : Set := mk { client_order_id : Z; side : Side.t; price : Z; quantity : Z }.

Definition default : t := mk 0 Side.Buy 0 0.

Definition off_id : nat := 0.
Definition off_side : nat := 8.
Definition off_price : nat := 16.
Definition off_quantity : nat := 24.

Definition ok (o : t) : Prop :=
  is_u64 (client_order_id o) ∧ Side.ok (side o) ∧ is_u64 (price o) ∧ is_u64 (quantity o).

#[global] Instance ok_dec o : Decision (ok o).
Proof. unfold ok. apply _. Defined.

End NewOrder.

Module CancelOrder.

Record t : Set := mk { client_order_id : Z; reserved1 : Z; reserved2 : Z; reserved3 : Z }.

Definition default : t := mk 0 0 0 0.

Definition off_id : nat := 0.

Definition ok (o : t) : Prop :=
  is_u64 (client_order_id o) ∧ is_u64 (reserved1 o) ∧ is_u64 (reserved2 o) ∧ is_u64 (reserved3 o).

#[global] Instance ok_dec o : Decision (ok o).
Proof. unfold ok. apply _. Defined.

End CancelOrder.

Module ModifyOrder.

Record t : Set := mk { client_order_id : Z; new_price : Z; new_quantity : Z; reserved : Z }.

Definition default : t := mk 0 0 0 0.

Definition off_id : nat := 0.
Definition off_new_price : nat := 8.
Definition off_new_quantity : nat := 16.

Definition ok (o : t) : Prop :=
  is_u64 (client_order_id o) ∧ is_u64 (new_price o) ∧ is_u64 (new_quantity o) ∧ is_u64 (reserved o).

#[global] Instance ok_dec o : Decision (ok o).
Proof. unfold ok. apply _. Defined.

End ModifyOrder.

Module Accepted.

Record t : Set := mk { client_order_id : Z; order_handle : Z; reserved1 : Z; reserved2 : Z }.

Definition default : t := mk 0 0 0 0.

Definition off_client_order_id : nat := 0.
Definition off_order_handle : nat := 8.
Definition off_reserved1 : nat := 16.
Definition off_reserved2 : nat := 24.

Definition ok (r : t) : Prop :=
  is_u64 (client_order_id r) ∧ is_u64 (order_handle r) ∧ is_u64 (reserved1 r) ∧ is_u64 (reserved2 r).

#[global] Instance ok_dec r : Decision (ok r).
Proof. unfold ok. apply _. Defined.

End Accepted.

Module Rejected.

Record t : Set := mk { client_order_id : Z; reason : RejectReason.t; reserved1 : Z; reserved2 : Z }.

Definition default : t := mk 0 RejectReason.None 0 0.

Definition off_client_order_id : nat := 0.
Definition off_reason : nat := 8.
Definition off_reserved1 : nat := 16.
Definition off_reserved2 : nat := 24.

Definition ok (r : t) : Prop :=
  is_u64 (client_order_id r) ∧ RejectReason.ok (reason r) ∧ is_u64 (reserved1 r) ∧ is_u64 (reserved2 r).

#[global] Instance ok_dec r : Decision (ok r).
Proof. unfold ok. apply _. Defined.

End Rejected.

Module Cancelled.

Record t : Set := mk { client_order_id : Z; order_handle : Z; reserved1 : Z; reserved2 : Z }.

Definition default : t := mk 0 0 0 0.

Definition off_client_order_id : nat := 0.
Definition off_order_handle : nat := 8.
Definition off_reserved1 : nat := 16.
Definition off_reserved2 : nat := 24.

Definition ok (r : t) : Prop :=
  is_u64 (client_order_id r) ∧ is_u64 (order_handle r) ∧ is_u64 (reserved1 r) ∧ is_u64 (reserved2 r).

#[global] Instance ok_dec r : Decision (ok r).
Proof. unfold ok. apply _. Defined.

End Cancelled.

Module Modified.

Record t : Set := mk { client_order_id : Z; order_handle : Z; reserved1 : Z; reserved2 : Z }.

Definition default : t := mk 0 0 0 0.

Definition off_client_order_id : nat := 0.
Definition off_order_handle : nat := 8.
Definition off_reserved1 : nat := 16.
Definition off_reserved2 : nat := 24.

Definition ok (r : t) : Prop :=
  is_u64 (client_order_id r) ∧ is_u64 (order_handle r) ∧ is_u64 (reserved1 r) ∧ is_u64 (reserved2 r).

#[global] Instance ok_dec r : Decision (ok r).
Proof. unfold ok. apply _. Defined.

End Modified.

Module Trade.

Record t : Set := mk { client_order_id : Z; order_handle : Z; price : Z; quantity : Z }.

Definition default : t := mk 0 0 0 0.

Definition off_client_order_id : nat := 0.
Definition off_order_handle : nat := 8.
Definition off_price : nat := 16.
Definition off_quantity : nat := 24.

Definition ok (r : t) : Prop :=
  is_u64 (client_order_id r) ∧ is_u64 (order_handle r) ∧ is_u64 (price r) ∧ is_u64 (quantity r).

#[global] Instance ok_dec r : Decision (ok r).
Proof. unfold ok. apply _. Defined.

End Trade.

(** The payloads of the control messages: declared, and used by no function. *)

Module Heartbeat.

Record t : Set := mk { reserved1 : Z; reserved2 : Z; reserved3 : Z; reserved4 : Z }.

Definition default : t := mk 0 0 0 0.

End Heartbeat.

Module Logout.

Record t : Set := mk { reserved1 : Z; reserved2 : Z; reserved3 : Z; reserved4 : Z }.

Definition default : t := mk 0 0 0 0.

End Logout.

(** ** Conversions of the enumerations *)

Lemma MessageType_to_of raw : MessageType.to_u16 (MessageType.of_u16 raw) = raw.
Proof. unfold MessageType.of_u16. repeat case_decide; subst; reflexivity. Qed.

Lemma Side_to_of raw : Side.to_u64 (Side.of_u64 raw) = raw.
Proof. unfold Side.of_u64. repeat case_decide; subst; reflexivity. Qed.

Lemma RejectReason_to_of raw : RejectReason.to_u64 (RejectReason.of_u64 raw) = raw.
Proof. unfold RejectReason.of_u64. repeat case_decide; subst; reflexivity. Qed.

Lemma MessageType_of_ok raw : is_u16 raw → MessageType.ok (MessageType.of_u16 raw).
Proof. intros. unfold MessageType.ok. by rewrite MessageType_to_of. Qed.

Lemma Side_of_ok raw : is_u64 raw → Side.ok (Side.of_u64 raw).
Proof. intros. unfold Side.ok. by rewrite Side_to_of. Qed.

Lemma RejectReason_of_ok raw : is_u64 raw → RejectReason.ok (RejectReason.of_u64 raw).
Proof. intros. unfold RejectReason.ok. by rewrite RejectReason_to_of. Qed.

#[export] Hint Resolve MessageType_of_ok Side_of_ok RejectReason_of_ok : lltg.
#[export] Hint Rewrite MessageType_to_of Side_to_of RejectReason_to_of : lltg.
