(* ===== verification/Codec.v ===== *)
(** * Explicit little-endian codec

    Models [core/order_entry/include/lltg/order_entry/codec.hpp].  A
    [std::span] is the list of its bytes; an index past its end is undefined
    behaviour ([None]).  An encoder returns the number of bytes and the span
    after the stores; a decoder returns its status and the object its
    reference parameter [out] is left with. *)

From S2P Require Import Prelude Protocol.

(** ** Word stores and loads *)

Definition store_u16_le (out : list Z) (offset : nat) (value : Z) : option (list Z) :=
  out ← put out (offset + 0) (Z.land value 0xff);
  put out (offset + 1) (Z.land (Z.shiftr value 8) 0xff).

Definition store_u32_le (out : list Z) (offset : nat) (value : Z) : option (list Z) :=
  out ← put out (offset + 0) (Z.land value 0xff);
  out ← put out (offset + 1) (Z.land (Z.shiftr value 8) 0xff);
  out ← put out (offset + 2) (Z.land (Z.shiftr value 16) 0xff);
  put out (offset + 3) (Z.land (Z.shiftr value 24) 0xff).

Definition store_u64_le (out : list Z) (offset : nat) (value : Z) : option (list Z) :=
  out ← put out (offset + 0) (Z.land value 0xff);
  out ← put out (offset + 1) (Z.land (Z.shiftr value 8) 0xff);
  out ← put out (offset + 2) (Z.land (Z.shiftr value 16) 0xff);
  out ← put out (offset + 3) (Z.land (Z.shiftr value 24) 0xff);
  out ← put out (offset + 4) (Z.land (Z.shiftr value 32) 0xff);
  out ← put out (offset + 5) (Z.land (Z.shiftr value 40) 0xff);
  out ← put out (offset + 6) (Z.land (Z.shiftr value 48) 0xff);
  put out (offset + 7) (Z.land (Z.shiftr value 56) 0xff).

(** [res |= static_cast<T>(in[i]) << k], at the width of [T]. *)
Definition or_byte (w : Z) (res : Z) (b k : Z) : Z := wrap w (Z.lor res (Z.shiftl b k)).

Definition load_u16_le (inp : list Z) (offset : nat) : option Z :=
  let res := 0 in
  b0 ← inp !! (offset + 0)%nat; let res := or_byte 16 res b0 0 in
  b1 ← inp !! (offset + 1)%nat; let res := or_byte 16 res b1 8 in
  Some res.

Definition load_u32_le (inp : list Z) (offset : nat) : option Z :=
  let res := 0 in
  b0 ← inp !! (offset + 0)%nat; let res := or_byte 32 res b0 0 in
  b1 ← inp !! (offset + 1)%nat; let res := or_byte 32 res b1 8 in
  b2 ← inp !! (offset + 2)%nat; let res := or_byte 32 res b2 16 in
  b3 ← inp !! (offset + 3)%nat; let res := or_byte 32 res b3 24 in
  Some res.

Definition load_u64_le (inp : list Z) (offset : nat) : option Z :=
  let res := 0 in
  b0 ← inp !! (offset + 0)%nat; let res := or_byte 64 res b0 0 in
  b1 ← inp !! (offset + 1)%nat; let res := or_byte 64 res b1 8 in
  b2 ← inp !! (offset + 2)%nat; let res := or_byte 64 res b2 16 in
  b3 ← inp !! (offset + 3)%nat; let res := or_byte 64 res b3 24 in
  b4 ← inp !! (offset + 4)%nat; let res := or_byte 64 res b4 32 in
  b5 ← inp !! (offset + 5)%nat; let res := or_byte 64 res b5 40 in
  b6 ← inp !! (offset + 6)%nat; let res := or_byte 64 res b6 48 in
  b7 ← inp !! (offset + 7)%nat; let res := or_byte 64 res b7 56 in
  Some res.

(** ** Header *)

Definition encode_header (h : MessageHeader.t) (out : list Z) : option (list Z) :=
  out ← store_u32_le out MessageHeader.off_magic (MessageHeader.magic h);
  out ← store_u16_le out MessageHeader.off_version (MessageHeader.version h);
  out ← store_u16_le out MessageHeader.off_message_type
          (MessageType.to_u16 (MessageHeader.message_type h));
  out ← store_u16_le out MessageHeader.off_payload_length (MessageHeader.payload_length h);
  out ← store_u16_le out MessageHeader.off_flags (MessageHeader.flags h);
  out ← store_u64_le out MessageHeader.off_sequence_number (MessageHeader.sequence_number h);
  out ← store_u64_le out MessageHeader.off_session_id (MessageHeader.session_id h);
  store_u32_le out MessageHeader.off_reserved (MessageHeader.reserved h).

Definition decode_header (inp : list Z) (out : MessageHeader.t)
    : option (DecodeStatus.t * MessageHeader.t) :=
  if decide (length inp < kHeaderSize)%nat then Some (DecodeStatus.NeedMoreData, out) else
  magic ← load_u32_le inp MessageHeader.off_magic;
  version ← load_u16_le inp MessageHeader.off_version;
  message_type ← load_u16_le inp MessageHeader.off_message_type;
  payload_length ← load_u16_le inp MessageHeader.off_payload_length;
  flags ← load_u16_le inp MessageHeader.off_flags;
  sequence_number ← load_u64_le inp MessageHeader.off_sequence_number;
  session_id ← load_u64_le inp MessageHeader.off_session_id;
  reserved ← load_u32_le inp MessageHeader.off_reserved;
  let out := MessageHeader.mk magic version (MessageType.of_u16 message_type) payload_length
               flags sequence_number session_id reserved in
  if decide (MessageHeader.magic out ≠ kMagic) then Some (DecodeStatus.BadMagic, out)
  else if decide (MessageHeader.version out ≠ kVersion) then Some (DecodeStatus.BadVersion, out)
  else Some (DecodeStatus.Ok, out).

Definition is_known_request_type (type : MessageType.t) : bool :=
  match type with
  | MessageType.NewOrder | MessageType.CancelOrder | MessageType.ModifyOrder
  | MessageType.Heartbeat | MessageType.Logout => true
  | _ => false
  end.

Definition is_known_response_type (type : MessageType.t) : bool :=
  match type with
  | MessageType.Accepted | MessageType.Rejected | MessageType.Cancelled
  | MessageType.Modified | MessageType.Trade => true
  | _ => false
  end.

Definition expected_payload_size (type : MessageType.t) : Z :=
  match type with
  | MessageType.NewOrder | MessageType.CancelOrder | MessageType.ModifyOrder
  | MessageType.Heartbeat | MessageType.Logout => Z.of_nat kPayloadSize
  | _ => 0
  end.

Definition validate_header (h : MessageHeader.t) : DecodeStatus.t :=
  if negb (is_known_request_type (MessageHeader.message_type h))
  then DecodeStatus.UnknownMessageType
  else
    let expected := expected_payload_size (MessageHeader.message_type h) in
    if decide (MessageHeader.payload_length h ≠ expected)
    then DecodeStatus.BadPayloadLength
    else DecodeStatus.Ok.

Definition validate_request_header (h : MessageHeader.t) : DecodeStatus.t :=
  if negb (is_known_request_type (MessageHeader.message_type h))
  then DecodeStatus.UnknownMessageType
  else if decide (MessageHeader.payload_length h ≠ Z.of_nat kPayloadSize)
  then DecodeStatus.BadPayloadLength
  else DecodeStatus.Ok.

Definition validate_response_header (h : MessageHeader.t) : DecodeStatus.t :=
  if negb (is_known_response_type (MessageHeader.message_type h))
  then DecodeStatus.UnknownMessageType
  else if decide (MessageHeader.payload_length h ≠ Z.of_nat kPayloadSize)
  then DecodeStatus.BadPayloadLength
  else DecodeStatus.Ok.

(** ** Messages *)

Definition encode_new_order (header : MessageHeader.t) (order : NewOrder.t) (out : list Z)
    : option (nat * list Z) :=
  let total_size := (kHeaderSize + kPayloadSize)%nat in
  let h := MessageHeader.set_message_type MessageType.NewOrder header in
  let h := MessageHeader.set_payload_length (Z.of_nat kPayloadSize) h in
  out ← encode_header h out;
  let base := kHeaderSize in
  out ← store_u64_le out (base + NewOrder.off_id) (NewOrder.client_order_id order);
  out ← store_u64_le out (base + NewOrder.off_side) (Side.to_u64 (NewOrder.side order));
  out ← store_u64_le out (base + NewOrder.off_price) (NewOrder.price order);
  out ← store_u64_le out (base + NewOrder.off_quantity) (NewOrder.quantity order);
  Some (total_size, out).

Definition decode_new_order (inp : list Z) (out : NewOrder.t)
    : option (DecodeStatus.t * NewOrder.t) :=
  if decide (length inp < (kHeaderSize + kPayloadSize))%nat then Some (DecodeStatus.NeedMoreData, out) else
  let base := kHeaderSize in
  client_order_id ← load_u64_le inp (base + NewOrder.off_id);
  side ← load_u64_le inp (base + NewOrder.off_side);
  price ← load_u64_le inp (base + NewOrder.off_price);
  quantity ← load_u64_le inp (base + NewOrder.off_quantity);
  Some (DecodeStatus.Ok, NewOrder.mk client_order_id (Side.of_u64 side) price quantity).

Definition encode_cancel_order (header : MessageHeader.t) (order : CancelOrder.t) (out : list Z)
    : option (nat * list Z) :=
  let total_size := (kHeaderSize + kPayloadSize)%nat in
  let h := MessageHeader.set_message_type MessageType.CancelOrder header in
  let h := MessageHeader.set_payload_length (Z.of_nat kPayloadSize) h in
  out ← encode_header h out;
  let base := kHeaderSize in
  out ← store_u64_le out (base + CancelOrder.off_id) (CancelOrder.client_order_id order);
  Some (total_size, out).

Definition decode_cancel_order (inp : list Z) (out : CancelOrder.t)
    : option (DecodeStatus.t * CancelOrder.t) :=
  if decide (length inp < (kHeaderSize + kPayloadSize))%nat then Some (DecodeStatus.NeedMoreData, out) else
  let base := kHeaderSize in
  client_order_id ← load_u64_le inp (base + CancelOrder.off_id);
  Some (DecodeStatus.Ok, CancelOrder.mk client_order_id (CancelOrder.reserved1 out) (CancelOrder.reserved2 out) (CancelOrder.reserved3 out)).

Definition encode_modify_order (header : MessageHeader.t) (order : ModifyOrder.t) (out : list Z)
    : option (nat * list Z) :=
  let total_size := (kHeaderSize + kPayloadSize)%nat in
  let h := MessageHeader.set_message_type MessageType.ModifyOrder header in
  let h := MessageHeader.set_payload_length (Z.of_nat kPayloadSize) h in
  out ← encode_header h out;
  let base := kHeaderSize in
  out ← store_u64_le out (base + ModifyOrder.off_id) (ModifyOrder.client_order_id order);
  out ← store_u64_le out (base + ModifyOrder.off_new_price) (ModifyOrder.new_price order);
  out ← store_u64_le out (base + ModifyOrder.off_new_quantity) (ModifyOrder.new_quantity order);
  Some (total_size, out).

Definition decode_modify_order (inp : list Z) (out : ModifyOrder.t)
    : option (DecodeStatus.t * ModifyOrder.t) :=
  if decide (length inp < (kHeaderSize + kPayloadSize))%nat then Some (DecodeStatus.NeedMoreData, out) else
  let base := kHeaderSize in
  client_order_id ← load_u64_le inp (base + ModifyOrder.off_id);
  new_price ← load_u64_le inp (base + ModifyOrder.off_new_price);
  new_quantity ← load_u64_le inp (base + ModifyOrder.off_new_quantity);
  Some (DecodeStatus.Ok, ModifyOrder.mk client_order_id new_price new_quantity (ModifyOrder.reserved out)).

Definition encode_accepted (header : MessageHeader.t) (response : Accepted.t) (out : list Z)
    : option (nat * list Z) :=
  let h := MessageHeader.set_message_type MessageType.Accepted header in
  let h := MessageHeader.set_payload_length (Z.of_nat kPayloadSize) h in
  out ← encode_header h out;
  let base := kHeaderSize in
  out ← store_u64_le out (base + Accepted.off_client_order_id) (Accepted.client_order_id response);
  out ← store_u64_le out (base + Accepted.off_order_handle) (Accepted.order_handle response);
  out ← store_u64_le out (base + Accepted.off_reserved1) (Accepted.reserved1 response);
  out ← store_u64_le out (base + Accepted.off_reserved2) (Accepted.reserved2 response);
  Some (kFrameSize, out).

Definition decode_accepted (inp : list Z) (out : Accepted.t)
    : option (DecodeStatus.t * Accepted.t) :=
  if decide (length inp < kFrameSize)%nat then Some (DecodeStatus.NeedMoreData, out) else
  let base := kHeaderSize in
  client_order_id ← load_u64_le inp (base + Accepted.off_client_order_id);
  order_handle ← load_u64_le inp (base + Accepted.off_order_handle);
  reserved1 ← load_u64_le inp (base + Accepted.off_reserved1);
  reserved2 ← load_u64_le inp (base + Accepted.off_reserved2);
  Some (DecodeStatus.Ok, Accepted.mk client_order_id order_handle reserved1 reserved2).

Definition encode_rejected (header : MessageHeader.t) (response : Rejected.t) (out : list Z)
    : option (nat * list Z) :=
  let h := MessageHeader.set_message_type MessageType.Rejected header in
  let h := MessageHeader.set_payload_length (Z.of_nat kPayloadSize) h in
  out ← encode_header h out;
  let base := kHeaderSize in
  out ← store_u64_le out (base + Rejected.off_client_order_id) (Rejected.client_order_id response);
  out ← store_u64_le out (base + Rejected.off_reason) (RejectReason.to_u64 (Rejected.reason response));
  out ← store_u64_le out (base + Rejected.off_reserved1) (Rejected.reserved1 response);
  out ← store_u64_le out (base + Rejected.off_reserved2) (Rejected.reserved2 response);
  Some (kFrameSize, out).

Definition decode_rejected (inp : list Z) (out : Rejected.t)
    : option (DecodeStatus.t * Rejected.t) :=
  if decide (length inp < kFrameSize)%nat then Some (DecodeStatus.NeedMoreData, out) else
  let base := kHeaderSize in
  client_order_id ← load_u64_le inp (base + Rejected.off_client_order_id);
  reason ← load_u64_le inp (base + Rejected.off_reason);
  reserved1 ← load_u64_le inp (base + Rejected.off_reserved1);
  reserved2 ← load_u64_le inp (base + Rejected.off_reserved2);
  Some (DecodeStatus.Ok, Rejected.mk client_order_id (RejectReason.of_u64 reason) reserved1 reserved2).

Definition encode_cancelled (header : MessageHeader.t) (response : Cancelled.t) (out : list Z)
    : option (nat * list Z) :=
  let h := MessageHeader.set_message_type MessageType.Cancelled header in
  let h := MessageHeader.set_payload_length (Z.of_nat kPayloadSize) h in
  out ← encode_header h out;
  let base := kHeaderSize in
  out ← store_u64_le out (base + Cancelled.off_client_order_id) (Cancelled.client_order_id response);
  out ← store_u64_le out (base + Cancelled.off_order_handle) (Cancelled.order_handle response);
  out ← store_u64_le out (base + Cancelled.off_reserved1) (Cancelled.reserved1 response);
  out ← store_u64_le out (base + Cancelled.off_reserved2) (Cancelled.reserved2 response);
  Some (kFrameSize, out).

Definition decode_cancelled (inp : list Z) (out : Cancelled.t)
    : option (DecodeStatus.t * Cancelled.t) :=
  if decide (length inp < kFrameSize)%nat then Some (DecodeStatus.NeedMoreData, out) else
  let base := kHeaderSize in
  client_order_id ← load_u64_le inp (base + Cancelled.off_client_order_id);
  order_handle ← load_u64_le inp (base + Cancelled.off_order_handle);
  reserved1 ← load_u64_le inp (base + Cancelled.off_reserved1);
  reserved2 ← load_u64_le inp (base + Cancelled.off_reserved2);
  Some (DecodeStatus.Ok, Cancelled.mk client_order_id order_handle reserved1 reserved2).

Definition encode_modified (header : MessageHeader.t) (response : Modified.t) (out : list Z)
    : option (nat * list Z) :=
  let h := MessageHeader.set_message_type MessageType.Modified header in
  let h := MessageHeader.set_payload_length (Z.of_nat kPayloadSize) h in
  out ← encode_header h out;
  let base := kHeaderSize in
  out ← store_u64_le out (base + Modified.off_client_order_id) (Modified.client_order_id response);
  out ← store_u64_le out (base + Modified.off_order_handle) (Modified.order_handle response);
  out ← store_u64_le out (base + Modified.off_reserved1) (Modified.reserved1 response);
  out ← store_u64_le out (base + Modified.off_reserved2) (Modified.reserved2 response);
  Some (kFrameSize, out).

Definition decode_modified (inp : list Z) (out : Modified.t)
    : option (DecodeStatus.t * Modified.t) :=
  if decide (length inp < kFrameSize)%nat then Some (DecodeStatus.NeedMoreData, out) else
  let base := kHeaderSize in
  client_order_id ← load_u64_le inp (base + Modified.off_client_order_id);
  order_handle ← load_u64_le inp (base + Modified.off_order_handle);
  reserved1 ← load_u64_le inp (base + Modified.off_reserved1);
  reserved2 ← load_u64_le inp (base + Modified.off_reserved2);
  Some (DecodeStatus.Ok, Modified.mk client_order_id order_handle reserved1 reserved2).

Definition encode_trade (header : MessageHeader.t) (response : Trade.t) (out : list Z)
    : option (nat * list Z) :=
  let h := MessageHeader.set_message_type MessageType.Trade header in
  let h := MessageHeader.set_payload_length (Z.of_nat kPayloadSize) h in
  out ← encode_header h out;
  let base := kHeaderSize in
  out ← store_u64_le out (base + Trade.off_client_order_id) (Trade.client_order_id response);
  out ← store_u64_le out (base + Trade.off_order_handle) (Trade.order_handle response);
  out ← store_u64_le out (base + Trade.off_price) (Trade.price response);
  out ← store_u64_le out (base + Trade.off_quantity) (Trade.quantity response);
  Some (kFrameSize, out).

Definition decode_trade (inp : list Z) (out : Trade.t)
    : option (DecodeStatus.t * Trade.t) :=
  if decide (length inp < kFrameSize)%nat then Some (DecodeStatus.NeedMoreData, out) else
  let base := kHeaderSize in
  client_order_id ← load_u64_le inp (base + Trade.off_client_order_id);
  order_handle ← load_u64_le inp (base + Trade.off_order_handle);
  price ← load_u64_le inp (base + Trade.off_price);
  quantity ← load_u64_le inp (base + Trade.off_quantity);
  Some (DecodeStatus.Ok, Trade.mk client_order_id order_handle price quantity).


(** ** The stores write, and the loads read, little-endian words

    The unrolled helpers agree with the reference conversions [le_bytes] and
    [le_value]. *)

(** Unfolds [le_bytes n v] into its [n] bytes. *)
Ltac expand_le_bytes :=
  repeat match goal with
  | |- context [le_bytes ?n ?v] =>
      match n with
      | 0 => rewrite (le_bytes_nil v)
      | _ => let m := eval vm_compute in (Z.pred n) in
             change (le_bytes n v) with (le_bytes (Z.succ m) v);
             rewrite (le_bytes_cons m v) by lia
      end
  end; rewrite ?Z.shiftr_shiftr by lia; simpl (8 + _).

(** Two chains of writes that start with the same writes. *)
Ltac same_writes :=
  simpl; repeat (destruct (put _ _ _); simpl; [|done]); done.

Lemma store_u16_le_spec out off v : store_u16_le out off v = put_all out off 0 (le_bytes 2 v).
Proof. unfold store_u16_le. expand_le_bytes. same_writes. Qed.

Lemma store_u32_le_spec out off v : store_u32_le out off v = put_all out off 0 (le_bytes 4 v).
Proof. unfold store_u32_le. expand_le_bytes. same_writes. Qed.

Lemma store_u64_le_spec out off v : store_u64_le out off v = put_all out off 0 (le_bytes 8 v).
Proof. unfold store_u64_le. expand_le_bytes. same_writes. Qed.

(** One more byte of an accumulated word. *)
Lemma or_byte_le_value w bs b k :
  Forall is_u8 (bs ++ [b]) → k = 8 * Z.of_nat (length bs) → k + 8 ≤ w →
  or_byte w (le_value bs) b k = le_value (bs ++ [b]).
Proof.
  intros Hall -> Hw. unfold or_byte. pose proof (le_value_bound _ Hall) as Hb.
  rewrite le_value_app, le_value_singleton in *.
  apply wrap_uint. eapply uint_mono; [|exact Hb]. rewrite length_app. simpl. lia.
Qed.

(** The accumulation the loads unroll. *)
Fixpoint or_bytes (w res k : Z) (bs : list Z) : Z :=
  match bs with
  | [] => res
  | b :: bs => or_bytes w (or_byte w res b k) (k + 8) bs
  end.

Lemma or_bytes_le_value w acc k bs :
  Forall is_u8 (acc ++ bs) → k = 8 * Z.of_nat (length acc) →
  8 * Z.of_nat (length (acc ++ bs)) ≤ w →
  or_bytes w (le_value acc) k bs = le_value (acc ++ bs).
Proof.
  revert acc k. induction bs as [|b bs IH]; intros acc k Hall -> Hw; simpl.
  - by rewrite app_nil_r.
  - rewrite (cons_middle b acc bs), app_assoc in Hall, Hw |- *.
    rewrite or_byte_le_value; [apply IH; [done|rewrite length_app; simpl; lia|done]| |done|].
    + by apply Forall_app in Hall as [? _].
    + rewrite !length_app in Hw. simpl in Hw. lia.
Qed.

Lemma or_bytes_word w bs :
  Forall is_u8 bs → 8 * Z.of_nat (length bs) ≤ w → le_value bs = or_bytes w 0 0 bs.
Proof. intros. rewrite <- le_value_nil. symmetry. by apply (or_bytes_le_value w [] 0 bs). Qed.

(** A load at an index reads the word whose bytes are there. *)
Lemma load_u16_le_at pre bs rest :
  length bs = 2%nat → Forall is_u8 bs →
  load_u16_le (pre ++ bs ++ rest) (length pre) = Some (le_value bs).
Proof.
  intros Hlen Hbs. destruct bs as [|b0 [|b1 [|]]]; try done.
  unfold load_u16_le. rewrite !lookup_at. simpl.
  rewrite (or_bytes_word 16) by (done || (simpl; lia)). cbn [or_bytes]. reflexivity.
Qed.

Lemma load_u32_le_at pre bs rest :
  length bs = 4%nat → Forall is_u8 bs →
  load_u32_le (pre ++ bs ++ rest) (length pre) = Some (le_value bs).
Proof.
  intros Hlen Hbs. destruct bs as [|b0 [|b1 [|b2 [|b3 [|]]]]]; try done.
  unfold load_u32_le. rewrite !lookup_at. simpl.
  rewrite (or_bytes_word 32) by (done || (simpl; lia)). cbn [or_bytes]. reflexivity.
Qed.

Lemma load_u64_le_at pre bs rest :
  length bs = 8%nat → Forall is_u8 bs →
  load_u64_le (pre ++ bs ++ rest) (length pre) = Some (le_value bs).
Proof.
  intros Hlen Hbs.
  destruct bs as [|b0 [|b1 [|b2 [|b3 [|b4 [|b5 [|b6 [|b7 [|]]]]]]]]]; try done.
  unfold load_u64_le. rewrite !lookup_at. simpl.
  rewrite (or_bytes_word 64) by (done || (simpl; lia)). cbn [or_bytes]. reflexivity.
Qed.
