(* ===== verification/Wire.v ===== *)
(** * The wire format: what the codec promises

    An abstract description of a frame (the bytes of a header followed by
    little-endian 64-bit payload words), and the proof that every encoder
    writes it and every decoder reads it.  The interface [WireMessage] states
    the promise once; each message struct of [protocol.hpp] is an instance,
    and the round-trip theorems are proved against the interface. *)

From S2P Require Import Prelude Protocol Codec.

(** ** Specification *)

Definition header_bytes (h : MessageHeader.t) : list Z :=
  le_bytes 4 (MessageHeader.magic h) ++
  le_bytes 2 (MessageHeader.version h) ++
  le_bytes 2 (MessageType.to_u16 (MessageHeader.message_type h)) ++
  le_bytes 2 (MessageHeader.payload_length h) ++
  le_bytes 2 (MessageHeader.flags h) ++
  le_bytes 8 (MessageHeader.sequence_number h) ++
  le_bytes 8 (MessageHeader.session_id h) ++
  le_bytes 4 (MessageHeader.reserved h).

(** Consecutive 64-bit words. *)
Definition words (vs : list Z) : list Z := concat (le_bytes 8 <$> vs).

(** The header an encoder of message type [ty] writes for a given header. *)
Definition stamp (ty : MessageType.t) (h : MessageHeader.t) : MessageHeader.t :=
  MessageHeader.set_payload_length (Z.of_nat kPayloadSize)
    (MessageHeader.set_message_type ty h).

(** What [decode_header] answers for a complete header. *)
Definition header_status (h : MessageHeader.t) : DecodeStatus.t :=
  if decide (MessageHeader.magic h ≠ kMagic) then DecodeStatus.BadMagic
  else if decide (MessageHeader.version h ≠ kVersion) then DecodeStatus.BadVersion
  else DecodeStatus.Ok.

(** A message struct with its codec: its type tag, the payload words it
    sends, how received words are put into an object ([fill ws old] keeps the
    members of [old] that are not on the wire), and the range of its members. *)
Class WireMessage (M : Type) := {
  msg_type : MessageType.t;
  msg_encode : MessageHeader.t → M → list Z → option (nat * list Z);
  msg_decode : list Z → M → option (DecodeStatus.t * M);
  msg_words : M → list Z;
  msg_fill : list Z → M → M;
  msg_ok : M → Prop;
  msg_arity : nat
}.

(** The promise of a message's codec. *)
Class WireLaws (M : Type) `{!WireMessage M} : Prop := {
  msg_type_ok : MessageType.ok (msg_type (M:=M));
  msg_arity_le : (1 ≤ msg_arity (M:=M) ≤ 4)%nat;
  msg_words_length m : length (msg_words m) = msg_arity (M:=M);
  msg_words_ok m : msg_ok m → Forall is_u64 (msg_words m);
  msg_encode_spec h m out :
    (kHeaderSize + 8 * msg_arity (M:=M) ≤ length out)%nat →
    msg_encode h m out =
    Some (kFrameSize, header_bytes (stamp msg_type h) ++ words (msg_words m) ++
                      drop (kHeaderSize + 8 * msg_arity (M:=M)) out);
  msg_encode_undefined h m out :
    (length out < kHeaderSize + 8 * msg_arity (M:=M))%nat → msg_encode h m out = None;
  msg_decode_short inp m :
    (length inp < kFrameSize)%nat → msg_decode inp m = Some (DecodeStatus.NeedMoreData, m);
  msg_decode_spec hd ws rest m :
    length hd = kHeaderSize → length ws = msg_arity (M:=M) → Forall is_u64 ws →
    (kFrameSize ≤ length (hd ++ words ws ++ rest))%nat →
    msg_decode (hd ++ words ws ++ rest) m = Some (DecodeStatus.Ok, msg_fill ws m);
  msg_fill_words ws m :
    length ws = msg_arity (M:=M) → Forall is_u64 ws → msg_words (msg_fill ws m) = ws;
  msg_fill_ok ws m :
    length ws = msg_arity (M:=M) → Forall is_u64 ws → msg_ok m → msg_ok (msg_fill ws m)
}.

(** ** Word stores and loads over appended lists *)

Lemma length_words vs : length (words vs) = (8 * length vs)%nat.
Proof.
  induction vs as [|v vs IH]; [done|].
  unfold words in *. cbn [fmap list_fmap concat length].
  rewrite length_app, length_le_bytes, IH by lia. lia.
Qed.

Lemma length_header_bytes h : length (header_bytes h) = kHeaderSize.
Proof. unfold header_bytes. by rewrite !length_app, !length_le_bytes. Qed.

Lemma words_u8 vs : Forall is_u8 (words vs).
Proof.
  induction vs as [|v vs IH]; [done|].
  apply Forall_app. split; [by apply le_bytes_u8 | done].
Qed.

Lemma header_bytes_u8 h : Forall is_u8 (header_bytes h).
Proof. unfold header_bytes. rewrite !Forall_app. repeat split; by apply le_bytes_u8. Qed.

Lemma words_cons v vs : words (v :: vs) = le_bytes 8 v ++ words vs.
Proof. done. Qed.

Lemma words_nil : words [] = [].
Proof. done. Qed.

#[export] Hint Resolve words_u8 header_bytes_u8 length_header_bytes : lltg.

#[global] Opaque words.

(** A word stored where the untouched rest of a span begins. *)
Lemma put_word_app pre rest off n v :
  0 ≤ n → length pre = off → (Z.to_nat n ≤ length rest)%nat →
  put_all (pre ++ rest) off 0 (le_bytes n v) =
  Some ((pre ++ le_bytes n v) ++ drop (Z.to_nat n) rest).
Proof.
  intros Hn <- Hlen. destruct (split_at rest _ Hlen) as (mid & post & -> & Hmid & Hpost).
  rewrite <- Hpost, put_all_app; [by rewrite app_assoc|lia|].
  by rewrite length_le_bytes.
Qed.

Lemma store_u16_app pre rest off v :
  length pre = off → (2 ≤ length rest)%nat →
  store_u16_le (pre ++ rest) off v = Some ((pre ++ le_bytes 2 v) ++ drop 2 rest).
Proof. intros. rewrite store_u16_le_spec. by apply put_word_app. Qed.

Lemma store_u32_app pre rest off v :
  length pre = off → (4 ≤ length rest)%nat →
  store_u32_le (pre ++ rest) off v = Some ((pre ++ le_bytes 4 v) ++ drop 4 rest).
Proof. intros. rewrite store_u32_le_spec. by apply put_word_app. Qed.

Lemma store_u64_app pre rest off v :
  length pre = off → (8 ≤ length rest)%nat →
  store_u64_le (pre ++ rest) off v = Some ((pre ++ le_bytes 8 v) ++ drop 8 rest).
Proof. intros. rewrite store_u64_le_spec. by apply put_word_app. Qed.

(** A store that is defined stays in the span. *)
Lemma put_word_inv out off n v out' :
  0 < n → put_all out off 0 (le_bytes n v) = Some out' →
  (off + Z.to_nat n ≤ length out)%nat ∧ length out' = length out.
Proof.
  intros Hn Hput. split; [|by eapply put_all_length].
  destruct (decide (off + Z.to_nat n ≤ length out)%nat) as [|Hlt]; [done|].
  rewrite put_all_None in Hput; [done| |]; pose proof (length_le_bytes n v) as Hl.
  - lia.
  - intros Hnil. rewrite Hnil in Hl. simpl in Hl. lia.
Qed.

Lemma store_u16_inv out off v out' :
  store_u16_le out off v = Some out' → (off + 2 ≤ length out)%nat ∧ length out' = length out.
Proof. rewrite store_u16_le_spec. by apply put_word_inv. Qed.

Lemma store_u32_inv out off v out' :
  store_u32_le out off v = Some out' → (off + 4 ≤ length out)%nat ∧ length out' = length out.
Proof. rewrite store_u32_le_spec. by apply put_word_inv. Qed.

Lemma store_u64_inv out off v out' :
  store_u64_le out off v = Some out' → (off + 8 ≤ length out)%nat ∧ length out' = length out.
Proof. rewrite store_u64_le_spec. by apply put_word_inv. Qed.

(** A load reads the word at the front of a span. *)
Lemma load_u16_front v rest off :
  off = 0%nat → is_u16 v → load_u16_le (le_bytes 2 v ++ rest) off = Some v.
Proof.
  intros -> Hv. etrans; [apply (load_u16_le_at []); auto with lltg|].
  by rewrite le_value_bytes by auto with lltg.
Qed.

Lemma load_u32_front v rest off :
  off = 0%nat → is_u32 v → load_u32_le (le_bytes 4 v ++ rest) off = Some v.
Proof.
  intros -> Hv. etrans; [apply (load_u32_le_at []); auto with lltg|].
  by rewrite le_value_bytes by auto with lltg.
Qed.

Lemma load_u64_front v rest off :
  off = 0%nat → is_u64 v → load_u64_le (le_bytes 8 v ++ rest) off = Some v.
Proof.
  intros -> Hv. etrans; [apply (load_u64_le_at []); auto with lltg|].
  by rewrite le_value_bytes by auto with lltg.
Qed.

(** Skipping a prefix of a span. *)
Lemma load_u16_skip a l off :
  (length a ≤ off)%nat → load_u16_le (a ++ l) off = load_u16_le l (off - length a).
Proof.
  intros. replace off with (length a + (off - length a))%nat at 1 by lia.
  unfold load_u16_le. by rewrite <- !Nat.add_assoc, !lookup_at.
Qed.

Lemma load_u32_skip a l off :
  (length a ≤ off)%nat → load_u32_le (a ++ l) off = load_u32_le l (off - length a).
Proof.
  intros. replace off with (length a + (off - length a))%nat at 1 by lia.
  unfold load_u32_le. by rewrite <- !Nat.add_assoc, !lookup_at.
Qed.

Lemma load_u64_skip a l off :
  (length a ≤ off)%nat → load_u64_le (a ++ l) off = load_u64_le l (off - length a).
Proof.
  intros. replace off with (length a + (off - length a))%nat at 1 by lia.
  unfold load_u64_le. by rewrite <- !Nat.add_assoc, !lookup_at.
Qed.

Ltac unfold_offsets :=
  unfold MessageHeader.off_magic, MessageHeader.off_version, MessageHeader.off_message_type,
    MessageHeader.off_payload_length, MessageHeader.off_flags, MessageHeader.off_sequence_number,
    MessageHeader.off_session_id, MessageHeader.off_reserved,
    NewOrder.off_id, NewOrder.off_side, NewOrder.off_price, NewOrder.off_quantity,
    CancelOrder.off_id,
    ModifyOrder.off_id, ModifyOrder.off_new_price, ModifyOrder.off_new_quantity,
    Accepted.off_client_order_id, Accepted.off_order_handle, Accepted.off_reserved1,
    Accepted.off_reserved2,
    Rejected.off_client_order_id, Rejected.off_reason, Rejected.off_reserved1,
    Rejected.off_reserved2,
    Cancelled.off_client_order_id, Cancelled.off_order_handle, Cancelled.off_reserved1,
    Cancelled.off_reserved2,
    Modified.off_client_order_id, Modified.off_order_handle, Modified.off_reserved1,
    Modified.off_reserved2,
    Trade.off_client_order_id, Trade.off_order_handle, Trade.off_price, Trade.off_quantity,
    kHeaderSize, kPayloadSize, kFrameSize in *.

(** Solves equations and inequations on lengths of concrete layouts. *)
Ltac lens :=
  unfold_offsets;
  repeat first
    [ rewrite length_app | rewrite length_drop | rewrite length_le_bytes by lia
    | rewrite length_header_bytes | rewrite length_words ];
  unfold_offsets; simpl; lia.

(** One store of a chain, at the boundary of what is already written. *)
Ltac store_step :=
  first [ rewrite store_u16_app by lens | rewrite store_u32_app by lens
        | rewrite store_u64_app by lens ]; cbn [mbind option_bind].

(** One load of a chain: skip the words before it, then read it. *)
Ltac load_word :=
  lazymatch goal with
  | |- load_u16_le _ _ = _ =>
      repeat rewrite load_u16_skip by lens; apply load_u16_front
  | |- load_u32_le _ _ = _ =>
      repeat rewrite load_u32_skip by lens; apply load_u32_front
  | |- load_u64_le _ _ = _ =>
      repeat rewrite load_u64_skip by lens; apply load_u64_front
  end; [lens | eassumption].

Ltac load_step := eapply bind_step; [load_word | cbv beta].

Lemma encode_header_spec h out :
  (kHeaderSize ≤ length out)%nat →
  encode_header h out = Some (header_bytes h ++ drop kHeaderSize out).
Proof.
  intros Hlen. unfold encode_header. change out with ([] ++ out) at 1.
  repeat store_step. f_equal. unfold header_bytes.
  rewrite !drop_drop, <- !app_assoc. reflexivity.
Qed.

(** One store of a chain that may leave the span. *)
Ltac store_case :=
  match goal with
  | |- context [store_u16_le ?o ?i ?v] =>
      let E := fresh "E" in
      destruct (store_u16_le o i v) eqn:E; [apply store_u16_inv in E as [? ?]|done]
  | |- context [store_u32_le ?o ?i ?v] =>
      let E := fresh "E" in
      destruct (store_u32_le o i v) eqn:E; [apply store_u32_inv in E as [? ?]|done]
  | |- context [store_u64_le ?o ?i ?v] =>
      let E := fresh "E" in
      destruct (store_u64_le o i v) eqn:E; [apply store_u64_inv in E as [? ?]|done]
  end; cbn [mbind option_bind].

Lemma encode_header_undefined h out :
  (length out < kHeaderSize)%nat → encode_header h out = None.
Proof. intros. unfold encode_header. repeat store_case. unfold_offsets. lia. Qed.

Lemma decode_header_short inp h :
  (length inp < kHeaderSize)%nat → decode_header inp h = Some (DecodeStatus.NeedMoreData, h).
Proof. intros. unfold decode_header. by rewrite decide_True. Qed.

(** Projections of explicit headers. *)
Ltac header_fields :=
  cbn [MessageHeader.magic MessageHeader.version MessageHeader.message_type
       MessageHeader.payload_length MessageHeader.flags MessageHeader.sequence_number
       MessageHeader.session_id MessageHeader.reserved] in *.

Lemma decode_header_spec h rest h0 :
  MessageHeader.ok h →
  decode_header (header_bytes h ++ rest) h0 = Some (header_status h, h).
Proof.
  destruct h as [mg v ty len fl sn sid rsv]. intros (?&?&[? Hty]&?&?&?&?&?). header_fields.
  unfold decode_header. rewrite decide_False by lens.
  unfold header_bytes. rewrite <- !app_assoc. header_fields.
  do 8 load_step.
  rewrite Hty. unfold header_status. header_fields. by repeat case_decide.
Qed.

(** ** The message structs implement the interface *)

#[export] Instance NewOrder_wire : WireMessage NewOrder.t := {|
  msg_type := MessageType.NewOrder;
  msg_encode := encode_new_order;
  msg_decode := decode_new_order;
  msg_words m := [NewOrder.client_order_id m; Side.to_u64 (NewOrder.side m); NewOrder.price m; NewOrder.quantity m];
  msg_fill ws m := match ws with
                   | [a; b; c; d] => NewOrder.mk a (Side.of_u64 b) c d
                   | _ => m
                   end;
  msg_ok := NewOrder.ok;
  msg_arity := 4
|}.

#[export] Instance CancelOrder_wire : WireMessage CancelOrder.t := {|
  msg_type := MessageType.CancelOrder;
  msg_encode := encode_cancel_order;
  msg_decode := decode_cancel_order;
  msg_words m := [CancelOrder.client_order_id m];
  msg_fill ws m := match ws with
                   | [a] => CancelOrder.mk a (CancelOrder.reserved1 m) (CancelOrder.reserved2 m) (CancelOrder.reserved3 m)
                   | _ => m
                   end;
  msg_ok := CancelOrder.ok;
  msg_arity := 1
|}.

#[export] Instance ModifyOrder_wire : WireMessage ModifyOrder.t := {|
  msg_type := MessageType.ModifyOrder;
  msg_encode := encode_modify_order;
  msg_decode := decode_modify_order;
  msg_words m := [ModifyOrder.client_order_id m; ModifyOrder.new_price m; ModifyOrder.new_quantity m];
  msg_fill ws m := match ws with
                   | [a; b; c] => ModifyOrder.mk a b c (ModifyOrder.reserved m)
                   | _ => m
                   end;
  msg_ok := ModifyOrder.ok;
  msg_arity := 3
|}.

#[export] Instance Accepted_wire : WireMessage Accepted.t := {|
  msg_type := MessageType.Accepted;
  msg_encode := encode_accepted;
  msg_decode := decode_accepted;
  msg_words m := [Accepted.client_order_id m; Accepted.order_handle m; Accepted.reserved1 m; Accepted.reserved2 m];
  msg_fill ws m := match ws with
                   | [a; b; c; d] => Accepted.mk a b c d
                   | _ => m
                   end;
  msg_ok := Accepted.ok;
  msg_arity := 4
|}.

#[export] Instance Rejected_wire : WireMessage Rejected.t := {|
  msg_type := MessageType.Rejected;
  msg_encode := encode_rejected;
  msg_decode := decode_rejected;
  msg_words m := [Rejected.client_order_id m; RejectReason.to_u64 (Rejected.reason m); Rejected.reserved1 m; Rejected.reserved2 m];
  msg_fill ws m := match ws with
                   | [a; b; c; d] => Rejected.mk a (RejectReason.of_u64 b) c d
                   | _ => m
                   end;
  msg_ok := Rejected.ok;
  msg_arity := 4
|}.

#[export] Instance Cancelled_wire : WireMessage Cancelled.t := {|
  msg_type := MessageType.Cancelled;
  msg_encode := encode_cancelled;
  msg_decode := decode_cancelled;
  msg_words m := [Cancelled.client_order_id m; Cancelled.order_handle m; Cancelled.reserved1 m; Cancelled.reserved2 m];
  msg_fill ws m := match ws with
                   | [a; b; c; d] => Cancelled.mk a b c d
                   | _ => m
                   end;
  msg_ok := Cancelled.ok;
  msg_arity := 4
|}.

#[export] Instance Modified_wire : WireMessage Modified.t := {|
  msg_type := MessageType.Modified;
  msg_encode := encode_modified;
  msg_decode := decode_modified;
  msg_words m := [Modified.client_order_id m; Modified.order_handle m; Modified.reserved1 m; Modified.reserved2 m];
  msg_fill ws m := match ws with
                   | [a; b; c; d] => Modified.mk a b c d
                   | _ => m
                   end;
  msg_ok := Modified.ok;
  msg_arity := 4
|}.

#[export] Instance Trade_wire : WireMessage Trade.t := {|
  msg_type := MessageType.Trade;
  msg_encode := encode_trade;
  msg_decode := decode_trade;
  msg_words m := [Trade.client_order_id m; Trade.order_handle m; Trade.price m; Trade.quantity m];
  msg_fill ws m := match ws with
                   | [a; b; c; d] => Trade.mk a b c d
                   | _ => m
                   end;
  msg_ok := Trade.ok;
  msg_arity := 4
|}.

(** Projections of the instances. *)
Ltac wire_fields :=
  cbn [msg_arity msg_ok msg_words msg_fill msg_type msg_encode msg_decode
       NewOrder_wire CancelOrder_wire ModifyOrder_wire Accepted_wire Rejected_wire
       Cancelled_wire Modified_wire Trade_wire] in *.

(** An encoder, store by store. *)
Ltac wire_encode encode :=
  intros h m out Hlen; unfold encode; cbv zeta;
  unfold_offsets; rewrite encode_header_spec by lens;
  cbn [mbind option_bind]; repeat store_step;
  rewrite ?words_cons, ?words_nil, ?app_nil_r, ?drop_drop, <- ?app_assoc; reflexivity.

(** An encoder whose span is too short. *)
Ltac wire_undefined encode :=
  intros h m out Hlen; unfold encode; cbv zeta; unfold_offsets;
  destruct (decide (length out < 32)%nat);
  [ by rewrite encode_header_undefined
  | rewrite encode_header_spec by lens; cbn [mbind option_bind];
    match goal with
    | |- context [header_bytes ?h ++ ?r] =>
        let o := fresh "o" in let Ho := fresh "Ho" in
        assert (length (header_bytes h ++ r) = length out) as Ho by lens;
        set (header_bytes h ++ r) as o in *; clearbody o
    end;
    repeat store_case; lia ].

(** A decoder, load by load. *)
Ltac wire_decode decode :=
  intros hd ws rest m Hhd Hws Hok Hlen; unfold decode;
  unfold_offsets; rewrite decide_False by lia; cbv zeta;
  wire_fields;
  repeat (destruct ws as [|? ws]; cbn [length] in Hws; try lia);
  decompose_Forall; rewrite ?words_cons, ?words_nil, <- ?app_assoc;
  repeat load_step; reflexivity.

(** The laws of an instance with the given codec. *)
Ltac wire_laws encode decode :=
  split; wire_fields;
  [ by split
  | lia
  | done
  | intros [] Hm; red in Hm; unfold Side.ok, RejectReason.ok in Hm; simpl in Hm;
    rewrite !Forall_cons, Forall_nil; simpl; tauto
  | wire_encode encode
  | wire_undefined encode
  | intros inp m Hlen; unfold decode; by rewrite decide_True
  | wire_decode decode
  | intros ws m Hws Hok;
    repeat (destruct ws as [|? ws]; cbn [length] in Hws; try lia);
    simpl; autorewrite with lltg; reflexivity
  | intros ws m Hws Hok Hm; red in Hm |- *; destruct_and? Hm;
    repeat (destruct ws as [|? ws]; cbn [length] in Hws; try lia);
    decompose_Forall; split_and!; cbn;
    (done || by apply Side_of_ok || by apply RejectReason_of_ok) ].

#[export] Instance NewOrder_laws : WireLaws NewOrder.t.
Proof. wire_laws encode_new_order decode_new_order. Qed.

#[export] Instance CancelOrder_laws : WireLaws CancelOrder.t.
Proof. wire_laws encode_cancel_order decode_cancel_order. Qed.

#[export] Instance ModifyOrder_laws : WireLaws ModifyOrder.t.
Proof. wire_laws encode_modify_order decode_modify_order. Qed.

#[export] Instance Accepted_laws : WireLaws Accepted.t.
Proof. wire_laws encode_accepted decode_accepted. Qed.

#[export] Instance Rejected_laws : WireLaws Rejected.t.
Proof. wire_laws encode_rejected decode_rejected. Qed.

#[export] Instance Cancelled_laws : WireLaws Cancelled.t.
Proof. wire_laws encode_cancelled decode_cancelled. Qed.

#[export] Instance Modified_laws : WireLaws Modified.t.
Proof. wire_laws encode_modified decode_modified. Qed.

#[export] Instance Trade_laws : WireLaws Trade.t.
Proof. wire_laws encode_trade decode_trade. Qed.

(** ** Any bytes are a header and words *)

Lemma words_of_bytes n bs :
  Forall is_u8 bs → length bs = (8 * n)%nat →
  ∃ ws, length ws = n ∧ Forall is_u64 ws ∧ words ws = bs.
Proof.
  revert bs. induction n as [|n IH]; intros bs Hok Hlen.
  - exists []. destruct bs; [by rewrite words_nil|done].
  - destruct (split_at bs 8) as (b & bs' & -> & Hb & _); [lia|].
    apply Forall_app in Hok as [Hok Hok']. rewrite length_app in Hlen.
    destruct (IH bs' Hok') as (ws & Hws & Hwok & <-); [lia|].
    exists (le_value b :: ws). rewrite words_cons, le_bytes_value by (done || lia).
    split_and!; [simpl; lia| |done].
    constructor; [|done]. pose proof (le_value_bound b Hok) as Hv. by rewrite Hb in Hv.
Qed.

(** The first word of a byte string, and the bytes after it. *)
Lemma word_front n bs :
  Forall is_u8 bs → (n ≤ length bs)%nat →
  ∃ v rest, bs = le_bytes (Z.of_nat n) v ++ rest ∧ uint (Z.of_nat n * 8) v ∧
            Forall is_u8 rest ∧ length rest = (length bs - n)%nat.
Proof.
  intros Hok Hlen. destruct (split_at bs n Hlen) as (b & rest & -> & <- & _).
  apply Forall_app in Hok as [Hok Hok']. exists (le_value b), rest.
  rewrite le_bytes_value by done. split_and!; [done|by apply le_value_bound|done|].
  rewrite length_app. lia.
Qed.

Lemma header_of_bytes bs :
  Forall is_u8 bs → (kHeaderSize ≤ length bs)%nat →
  ∃ h rest, bs = header_bytes h ++ rest ∧ MessageHeader.ok h ∧ Forall is_u8 rest.
Proof.
  unfold_offsets. intros B0 L0.
  destruct (word_front 4 bs B0) as (mg & r1 & -> & ? & B1 & L1); [lia|].
  destruct (word_front 2 r1 B1) as (ve & r2 & -> & ? & B2 & L2); [lia|].
  destruct (word_front 2 r2 B2) as (ty & r3 & -> & ? & B3 & L3); [lia|].
  destruct (word_front 2 r3 B3) as (pl & r4 & -> & ? & B4 & L4); [lia|].
  destruct (word_front 2 r4 B4) as (fl & r5 & -> & ? & B5 & L5); [lia|].
  destruct (word_front 8 r5 B5) as (sn & r6 & -> & ? & B6 & L6); [lia|].
  destruct (word_front 8 r6 B6) as (si & r7 & -> & ? & B7 & L7); [lia|].
  destruct (word_front 4 r7 B7) as (rv & r8 & -> & ? & B8 & L8); [lia|].
  exists (MessageHeader.mk mg ve (MessageType.of_u16 ty) pl fl sn si rv), r8.
  split; [|split; [red; header_fields; eauto 10 with lltg|done]].
  unfold header_bytes. header_fields. rewrite MessageType_to_of, <- !app_assoc. done.
Qed.

Lemma stamp_ok ty h : MessageType.ok ty → MessageHeader.ok h → MessageHeader.ok (stamp ty h).
Proof. intros Hty (?&?&?&?&?&?&?&?). red. split_and!; try done. Qed.

#[export] Hint Resolve stamp_ok : lltg.

(** ** Theorems about the interface *)

Section wire.
Context {M : Type} `{!WireMessage M, !WireLaws M}.
Implicit Types (h : MessageHeader.t) (m : M).

Lemma wire_encode_length h m out n out' :
  msg_encode h m out = Some (n, out') → length out' = length out.
Proof.
  intros E. destruct (decide (kHeaderSize + 8 * msg_arity (M:=M) ≤ length out)%nat).
  - rewrite msg_encode_spec in E by done. simplify_eq.
    rewrite !length_app, length_drop, length_header_bytes, length_words, msg_words_length. lia.
  - rewrite msg_encode_undefined in E by lia. done.
Qed.

Lemma wire_encode_u8 h m out n out' :
  Forall is_u8 out → msg_encode h m out = Some (n, out') → Forall is_u8 out'.
Proof.
  intros Hout E. destruct (decide (kHeaderSize + 8 * msg_arity (M:=M) ≤ length out)%nat).
  - rewrite msg_encode_spec in E by done. simplify_eq.
    rewrite !Forall_app. auto using Forall_drop with lltg.
  - rewrite msg_encode_undefined in E by lia. done.
Qed.

(** Decoding what was encoded. *)
Lemma wire_decode_encoded h m out :
  MessageHeader.ok h → msg_ok m → (kFrameSize ≤ length out)%nat →
  ∃ out', msg_encode h m out = Some (kFrameSize, out') ∧ length out' = length out ∧
    (∀ h0, decode_header out' h0 = Some (header_status h, stamp msg_type h)) ∧
    (∀ m0, msg_decode out' m0 = Some (DecodeStatus.Ok, msg_fill (msg_words m) m0)).
Proof.
  intros Hh Hm Hout. pose proof (msg_arity_le (M:=M)) as Har.
  assert (kHeaderSize + 8 * msg_arity (M:=M) ≤ length out)%nat as Hlen by (unfold_offsets; lia).
  pose proof (msg_encode_spec h m out Hlen) as E. eexists. split; [exact E|].
  pose proof (wire_encode_length _ _ _ _ _ E) as Hl. split_and!; [done| |].
  - intros h0. rewrite decode_header_spec; [done|]. apply stamp_ok; [apply msg_type_ok|done].
  - intros m0. apply msg_decode_spec; auto using msg_words_length, msg_words_ok with lltg.
    by rewrite Hl.
Qed.

(** A decoder is defined on every span, and answers by the length alone. *)
Lemma wire_decode_total inp m0 :
  Forall is_u8 inp →
  if decide (length inp < kFrameSize)%nat
  then msg_decode inp m0 = Some (DecodeStatus.NeedMoreData, m0)
  else ∃ ws, length ws = msg_arity (M:=M) ∧ Forall is_u64 ws ∧
         take (8 * msg_arity (M:=M)) (drop kHeaderSize inp) = words ws ∧
         msg_decode inp m0 = Some (DecodeStatus.Ok, msg_fill ws m0).
Proof.
  intros Hok. case_decide as Hlen; [by apply msg_decode_short|].
  pose proof (msg_arity_le (M:=M)) as Har.
  destruct (split_at inp kHeaderSize) as (hd & inp' & -> & Hhd & _); [unfold_offsets; lia|].
  rewrite length_app, Hhd in Hlen. apply Forall_app in Hok as [_ Hok].
  destruct (split_at inp' (8 * msg_arity (M:=M))) as (b & rest & -> & Hb & _);
    [unfold_offsets; lia|].
  apply Forall_app in Hok as [Hok _].
  destruct (words_of_bytes _ _ Hok Hb) as (ws & Hws & Hwok & <-).
  exists ws. rewrite drop_app_length', take_app_length' by done. split_and!; [done..|].
  apply msg_decode_spec; [done..|]. rewrite length_app. unfold_offsets. lia.
Qed.

(** The bytes left by an encoder that fills its payload. *)
Lemma wire_encode_frame h m out :
  msg_arity (M:=M) = 4%nat →
  snd <$> msg_encode h m out =
  if decide (kFrameSize ≤ length out)%nat
  then Some ((header_bytes (stamp msg_type h) ++ words (msg_words m)) ++ drop kFrameSize out)
  else None.
Proof.
  intros Har. case_decide as Hlen.
  - rewrite msg_encode_spec by (rewrite Har; unfold_offsets; lia).
    cbn [fmap option_fmap option_map snd]. by rewrite Har, app_assoc.
  - by rewrite msg_encode_undefined by (rewrite Har; unfold_offsets; lia).
Qed.

(** A whole frame behind which more bytes may follow. *)
Lemma wire_decode_frame h ws rest m0 :
  msg_arity (M:=M) = 4%nat → length ws = 4%nat → Forall is_u64 ws →
  msg_decode (header_bytes h ++ words ws ++ rest) m0 = Some (DecodeStatus.Ok, msg_fill ws m0).
Proof.
  intros Har Hws Hok. apply msg_decode_spec; [by rewrite length_header_bytes|lia|done|].
  rewrite !length_app, length_header_bytes, length_words, Hws. unfold_offsets. lia.
Qed.

(** Re-encoding a decoded frame of a message that fills its payload gives
    the same bytes: the decoders lose nothing. *)
Lemma wire_reencode frame h0 h m0 m out :
  msg_arity (M:=M) = 4%nat →
  Forall is_u8 frame → length frame = kFrameSize → (kFrameSize ≤ length out)%nat →
  decode_header frame h0 = Some (DecodeStatus.Ok, h) →
  MessageHeader.message_type h = msg_type (M:=M) →
  MessageHeader.payload_length h = Z.of_nat kPayloadSize →
  msg_decode frame m0 = Some (DecodeStatus.Ok, m) →
  msg_encode h m out = Some (kFrameSize, frame ++ drop kFrameSize out).
Proof.
  intros Har Hok Hlen Hout Hdh Hty Hpl Hdm.
  pose proof (wire_decode_total frame m0 Hok) as Ht.
  rewrite decide_False in Ht by lia. destruct Ht as (ws & Hws & Hwok & Hpay & Hdm').
  rewrite Hdm in Hdm'. simplify_eq.
  destruct (header_of_bytes frame Hok) as (h' & rest & -> & Hh' & _); [unfold_offsets; lia|].
  rewrite decode_header_spec in Hdh by done. simplify_eq.
  rewrite length_app, length_header_bytes in Hlen. rewrite drop_app_length' in Hpay
    by by rewrite length_header_bytes.
  rewrite Har, take_ge in Hpay by (unfold_offsets; lia). subst rest.
  rewrite msg_encode_spec, Har by (rewrite Har; unfold_offsets; lia).
  rewrite msg_fill_words, <- app_assoc by done. do 3 f_equal.
  destruct h. unfold stamp. cbn in *. by subst.
Qed.

End wire.

(** ** Properties of the codec *)

(** Concrete values for the examples of this development. *)
Definition sample_header : MessageHeader.t :=
  MessageHeader.mk kMagic kVersion (MessageType.of_u16 0) 0 7 42 9 0.
Definition sample_order : NewOrder.t := NewOrder.mk 77 Side.Sell 10000 (2 ^ 64 - 1).
Definition sample_span : list Z := replicate kFrameSize 170.

Lemma sample_header_ok : MessageHeader.ok sample_header.
Proof. evaluate. Qed.

Lemma sample_order_ok : NewOrder.ok sample_order.
Proof. evaluate. Qed.

(** A header and a message in the ranges of their C++ types, encoded into a
    span of at least a frame, are read back: the header with the message type
    and payload length of the encoder, the message as [recover m0] where [m0]
    is the object the decoder fills. *)
Definition roundtrips {M} (ty : MessageType.t)
    (encode : MessageHeader.t → M → list Z → option (nat * list Z))
    (decode : list Z → M → option (DecodeStatus.t * M))
    (ok : M → Prop) (recover : M → M → M) : Prop :=
  ∀ h m out, MessageHeader.ok h → ok m → (kFrameSize ≤ length out)%nat →
  ∃ out', encode h m out = Some (kFrameSize, out') ∧ length out' = length out ∧
    (∀ h0, decode_header out' h0 = Some (header_status h, stamp ty h)) ∧
    (∀ m0, decode out' m0 = Some (DecodeStatus.Ok, recover m m0)).

(** A round trip of an instance whose words determine the object. *)
Lemma wire_roundtrips {M} `{!WireMessage M, !WireLaws M} (recover : M → M → M) :
  (∀ m m0, msg_ok m → msg_fill (msg_words m) m0 = recover m m0) →
  roundtrips (msg_type (M:=M)) msg_encode msg_decode msg_ok recover.
Proof.
  intros Hfill h m out Hh Hm Hout.
  destruct (wire_decode_encoded h m out Hh Hm Hout) as (out' & ? & ? & ? & Hd).
  exists out'. split_and!; [done..|]. intros m0. by rewrite <- Hfill.
Qed.

(** C24: Encode/decode round trips for all eight message structs: the header
    comes back stamped with the encoder's type and a payload length of 32, and
    every member that is on the wire comes back unchanged ([CancelOrder] and
    [ModifyOrder] do not send their reserved members). *)
Theorem codec_roundtrip :
  roundtrips MessageType.NewOrder encode_new_order decode_new_order NewOrder.ok (λ m _, m) ∧
  roundtrips MessageType.CancelOrder encode_cancel_order decode_cancel_order CancelOrder.ok
    (λ m m0, CancelOrder.mk (CancelOrder.client_order_id m) (CancelOrder.reserved1 m0)
               (CancelOrder.reserved2 m0) (CancelOrder.reserved3 m0)) ∧
  roundtrips MessageType.ModifyOrder encode_modify_order decode_modify_order ModifyOrder.ok
    (λ m m0, ModifyOrder.mk (ModifyOrder.client_order_id m) (ModifyOrder.new_price m)
               (ModifyOrder.new_quantity m) (ModifyOrder.reserved m0)) ∧
  roundtrips MessageType.Accepted encode_accepted decode_accepted Accepted.ok (λ m _, m) ∧
  roundtrips MessageType.Rejected encode_rejected decode_rejected Rejected.ok (λ m _, m) ∧
  roundtrips MessageType.Cancelled encode_cancelled decode_cancelled Cancelled.ok (λ m _, m) ∧
  roundtrips MessageType.Modified encode_modified decode_modified Modified.ok (λ m _, m) ∧
  roundtrips MessageType.Trade encode_trade decode_trade Trade.ok (λ m _, m).
Proof.
  split_and!.
  - refine (wire_roundtrips (M:=NewOrder.t) _ _). intros [] ? (?&[_ Hs]&?&?). simpl in *. by rewrite Hs.
  - by refine (wire_roundtrips (M:=CancelOrder.t) _ _).
  - by refine (wire_roundtrips (M:=ModifyOrder.t) _ _).
  - refine (wire_roundtrips (M:=Accepted.t) _ _). by intros [].
  - refine (wire_roundtrips (M:=Rejected.t) _ _). intros [] ? (?&[_ Hr]&?&?). simpl in *. by rewrite Hr.
  - refine (wire_roundtrips (M:=Cancelled.t) _ _). by intros [].
  - refine (wire_roundtrips (M:=Modified.t) _ _). by intros [].
  - refine (wire_roundtrips (M:=Trade.t) _ _). by intros [].
Qed.

Lemma codec_roundtrip_witness :
  ∃ out', encode_new_order sample_header sample_order sample_span = Some (kFrameSize, out') ∧
    (∀ m0, decode_new_order out' m0 = Some (DecodeStatus.Ok, sample_order)).
Proof.
  destruct (proj1 codec_roundtrip sample_header sample_order sample_span
    sample_header_ok sample_order_ok (le_n _)) as (out' & He & _ & _ & Hd).
  exists out'. exact (conj He Hd).
Defined.


(** Decoding then encoding reproduces a frame byte for byte. *)
Definition reencodes {M} (ty : MessageType.t)
    (encode : MessageHeader.t → M → list Z → option (nat * list Z))
    (decode : list Z → M → option (DecodeStatus.t * M)) : Prop :=
  ∀ frame h0 h m0 m out,
    Forall is_u8 frame → length frame = kFrameSize → (kFrameSize ≤ length out)%nat →
    decode_header frame h0 = Some (DecodeStatus.Ok, h) →
    MessageHeader.message_type h = ty →
    MessageHeader.payload_length h = Z.of_nat kPayloadSize →
    decode frame m0 = Some (DecodeStatus.Ok, m) →
    encode h m out = Some (kFrameSize, frame ++ drop kFrameSize out).

(** C25: Canonical frames: whatever 64 bytes a decoder accepts, encoding the
    decoded header and message gives those bytes back, for the six messages
    that fill their payload. *)
Theorem codec_reencode :
  reencodes MessageType.NewOrder encode_new_order decode_new_order ∧
  reencodes MessageType.Accepted encode_accepted decode_accepted ∧
  reencodes MessageType.Rejected encode_rejected decode_rejected ∧
  reencodes MessageType.Cancelled encode_cancelled decode_cancelled ∧
  reencodes MessageType.Modified encode_modified decode_modified ∧
  reencodes MessageType.Trade encode_trade decode_trade.
Proof.
  split_and!; intros frame h0 h m0 m out.
  - exact (wire_reencode (M:=NewOrder.t) frame h0 h m0 m out eq_refl).
  - exact (wire_reencode (M:=Accepted.t) frame h0 h m0 m out eq_refl).
  - exact (wire_reencode (M:=Rejected.t) frame h0 h m0 m out eq_refl).
  - exact (wire_reencode (M:=Cancelled.t) frame h0 h m0 m out eq_refl).
  - exact (wire_reencode (M:=Modified.t) frame h0 h m0 m out eq_refl).
  - exact (wire_reencode (M:=Trade.t) frame h0 h m0 m out eq_refl).
Qed.

(** The bytes of an encoded sample order. *)
Definition sample_frame : list Z :=
  match encode_new_order sample_header sample_order sample_span with
  | Some (_, out) => out
  | None => []
  end.

Lemma codec_reencode_witness :
  encode_new_order (stamp MessageType.NewOrder sample_header) sample_order sample_span =
  Some (kFrameSize, sample_frame ++ drop kFrameSize sample_span).
Proof.
  apply (proj1 codec_reencode sample_frame MessageHeader.default _ NewOrder.default);
    [evaluate | vm_compute; reflexivity ..].
Defined.


(** A codec as a function between types: a decoder is defined on every span of
    bytes, answers by its length, and leaves an object in the ranges of its
    members, the old one if the span is short; an encoder leaves bytes, and
    those behind the first frame as they were. *)
Definition well_typed {M} (encode : MessageHeader.t → M → list Z → option (nat * list Z))
    (decode : list Z → M → option (DecodeStatus.t * M)) (ok : M → Prop) : Prop :=
  (∀ inp m0, Forall is_u8 inp → ok m0 →
     ∃ m, decode inp m0 = Some (if decide (length inp < kFrameSize)%nat
                                then DecodeStatus.NeedMoreData else DecodeStatus.Ok, m) ∧
       ok m ∧ ((length inp < kFrameSize)%nat → m = m0)) ∧
  (∀ h m out n out', Forall is_u8 out → encode h m out = Some (n, out') →
     n = kFrameSize ∧ Forall is_u8 out' ∧ length out' = length out ∧
     drop kFrameSize out' = drop kFrameSize out).

Lemma wire_well_typed {M} `{!WireMessage M, !WireLaws M} :
  well_typed (M:=M) msg_encode msg_decode msg_ok.
Proof.
  pose proof (msg_arity_le (M:=M)) as Har. split.
  - intros inp m0 Hb Hm. pose proof (wire_decode_total inp m0 Hb) as Ht. case_decide.
    + by exists m0.
    + destruct Ht as (ws & Hl & Hok & _ & E). exists (msg_fill ws m0). split; [done|].
      split; [by apply msg_fill_ok|lia].
  - intros h m out n out' Hb E. pose proof (wire_encode_u8 _ _ _ _ _ Hb E) as Hu.
    pose proof (wire_encode_length _ _ _ _ _ E) as Hl.
    destruct (decide (kHeaderSize + 8 * msg_arity (M:=M) ≤ length out)%nat);
      [|by rewrite msg_encode_undefined in E by lia].
    rewrite msg_encode_spec in E by done. injection E as <- <-. split_and!; [done..|].
    assert (kFrameSize = kHeaderSize + 8 * msg_arity (M:=M) +
      (kFrameSize - (kHeaderSize + 8 * msg_arity (M:=M))))%nat as -> by (unfold_offsets; lia).
    rewrite <- drop_drop, app_assoc, drop_app_length', drop_drop; [done|].
    rewrite length_app, length_header_bytes, length_words, msg_words_length. lia.
Qed.

(** C29: The codec respects the types of the program: on every span of bytes
    each decoder is defined and leaves an object whose members are in the
    ranges of their C++ types, whatever enumeration values the bytes name; and
    each encoder leaves bytes and writes nothing behind the frame it reports. *)
Theorem codec_well_typed :
  well_typed encode_new_order decode_new_order NewOrder.ok ∧
  well_typed encode_cancel_order decode_cancel_order CancelOrder.ok ∧
  well_typed encode_modify_order decode_modify_order ModifyOrder.ok ∧
  well_typed encode_accepted decode_accepted Accepted.ok ∧
  well_typed encode_rejected decode_rejected Rejected.ok ∧
  well_typed encode_cancelled decode_cancelled Cancelled.ok ∧
  well_typed encode_modified decode_modified Modified.ok ∧
  well_typed encode_trade decode_trade Trade.ok.
Proof.
  split_and!.
  - exact (wire_well_typed (M:=NewOrder.t)).
  - exact (wire_well_typed (M:=CancelOrder.t)).
  - exact (wire_well_typed (M:=ModifyOrder.t)).
  - exact (wire_well_typed (M:=Accepted.t)).
  - exact (wire_well_typed (M:=Rejected.t)).
  - exact (wire_well_typed (M:=Cancelled.t)).
  - exact (wire_well_typed (M:=Modified.t)).
  - exact (wire_well_typed (M:=Trade.t)).
Qed.

(** A frame of 255s names a side that is neither [Buy] nor [Sell]. *)
Lemma codec_well_typed_witness :
  ∃ m, decode_new_order (replicate kFrameSize 255) NewOrder.default = Some (DecodeStatus.Ok, m) ∧
    NewOrder.ok m ∧ NewOrder.side m ≠ Side.Buy ∧ NewOrder.side m ≠ Side.Sell.
Proof.
  destruct (proj1 (proj1 codec_well_typed) (replicate kFrameSize 255) NewOrder.default)
    as (m & Hd & Hm & _); [evaluate..|].
  exists m. split; [exact Hd|]. split; [exact Hm|].
  assert (decode_new_order (replicate kFrameSize 255) NewOrder.default =
    Some (DecodeStatus.Ok, NewOrder.mk (2 ^ 64 - 1) (Side.of_u64 (2 ^ 64 - 1)) (2 ^ 64 - 1) (2 ^ 64 - 1)))
    as E by (vm_compute; reflexivity).
  rewrite Hd in E. injection E as ->. split; discriminate.
Defined.

(** The number of bytes of its span an encoder needs. *)
Definition needs_span {M} (encode : MessageHeader.t → M → list Z → option (nat * list Z))
    (n : nat) : Prop :=
  ∀ h m out, is_Some (encode h m out) ↔ (n ≤ length out)%nat.

Lemma wire_needs_span {M} `{!WireMessage M, !WireLaws M} n :
  (n = kHeaderSize + 8 * msg_arity (M:=M))%nat → needs_span (msg_encode (M:=M)) n.
Proof.
  intros -> h m out. destruct (decide (kHeaderSize + 8 * msg_arity (M:=M) ≤ length out)%nat).
  - rewrite msg_encode_spec by done. by split.
  - rewrite msg_encode_undefined by lia. split; [by intros []|lia].
Qed.

(** C28: Bounds: an encoder is free of undefined behaviour exactly when its
    span has room for what it writes.  [encode_cancel_order] and
    [encode_modify_order] write less than the 64 bytes they report. *)
Theorem codec_span_bounds :
  needs_span encode_new_order 64 ∧ needs_span encode_cancel_order 40 ∧
  needs_span encode_modify_order 56 ∧ needs_span encode_accepted 64 ∧
  needs_span encode_rejected 64 ∧ needs_span encode_cancelled 64 ∧
  needs_span encode_modified 64 ∧ needs_span encode_trade 64.
Proof.
  split_and!.
  - exact (wire_needs_span (M:=NewOrder.t) _ eq_refl).
  - exact (wire_needs_span (M:=CancelOrder.t) _ eq_refl).
  - exact (wire_needs_span (M:=ModifyOrder.t) _ eq_refl).
  - exact (wire_needs_span (M:=Accepted.t) _ eq_refl).
  - exact (wire_needs_span (M:=Rejected.t) _ eq_refl).
  - exact (wire_needs_span (M:=Cancelled.t) _ eq_refl).
  - exact (wire_needs_span (M:=Modified.t) _ eq_refl).
  - exact (wire_needs_span (M:=Trade.t) _ eq_refl).
Qed.

(** The bytes of a payload an encoder does not write keep their old
    value: the reserved part of a cancel or modify frame is not zero-filled. *)
Theorem codec_reserved_not_cleared h (c : CancelOrder.t) (m : ModifyOrder.t) out :
  (kFrameSize ≤ length out)%nat →
  (∃ out', encode_cancel_order h c out = Some (kFrameSize, out') ∧ drop 40 out' = drop 40 out) ∧
  (∃ out', encode_modify_order h m out = Some (kFrameSize, out') ∧ drop 56 out' = drop 56 out).
Proof.
  intros Hout. unfold_offsets. split.
  - pose proof (msg_encode_spec h c out) as E. wire_fields. rewrite E by lens.
    eexists. split; [done|]. rewrite app_assoc. by rewrite drop_app_length' by lens.
  - pose proof (msg_encode_spec h m out) as E. wire_fields. rewrite E by lens.
    eexists. split; [done|]. rewrite app_assoc. by rewrite drop_app_length' by lens.
Qed.

Lemma codec_reserved_not_cleared_witness :
  ∃ out', encode_cancel_order sample_header CancelOrder.default sample_span =
            Some (kFrameSize, out') ∧ drop 40 out' = replicate 24 170.
Proof.
  exact (proj1 (codec_reserved_not_cleared sample_header CancelOrder.default ModifyOrder.default
    sample_span (le_n _))).
Defined.


(** C26: [decode_header] is defined on every span of bytes; it looks at the magic
    before the version, and a short span leaves the header untouched. *)
Theorem decode_header_status inp h0 :
  Forall is_u8 inp →
  ∃ st h, decode_header inp h0 = Some (st, h) ∧
    st = (if decide (length inp < kHeaderSize)%nat then DecodeStatus.NeedMoreData
          else if decide (le_value (take 4 inp) ≠ kMagic) then DecodeStatus.BadMagic
          else if decide (le_value (take 2 (drop 4 inp)) ≠ kVersion) then DecodeStatus.BadVersion
          else DecodeStatus.Ok) ∧
    (if decide (length inp < kHeaderSize)%nat then h = h0
     else MessageHeader.ok h ∧ take kHeaderSize inp = header_bytes h).
Proof.
  intros Hok. case_decide as Hlen.
  { exists DecodeStatus.NeedMoreData, h0. by rewrite decode_header_short. }
  destruct (header_of_bytes inp Hok) as (h & rest & -> & Hh & _); [lia|].
  exists (header_status h), h. rewrite decode_header_spec by done.
  rewrite (take_app_length' _ _ kHeaderSize) by by rewrite length_header_bytes.
  split_and!; [done| |done|done].
  destruct Hh as (?&?&_). unfold header_status, header_bytes. rewrite <- !app_assoc.
  rewrite (take_app_length' _ _ 4), (drop_app_length' _ _ 4), take_app_length' by lens.
  by rewrite !le_value_bytes by auto with lltg.
Qed.

Lemma decode_header_status_witness :
  ∃ st h, decode_header [1; 2; 3] MessageHeader.default = Some (st, h) ∧
    st = DecodeStatus.NeedMoreData.
Proof.
  destruct (decode_header_status [1; 2; 3] MessageHeader.default) as (st & h & He & Hst & _);
    [evaluate|].
  exists st, h. exact (conj He Hst).
Defined.


(** The two request validators agree, and no header passes both the
    request and the response validator. *)
Theorem validate_header_equiv h :
  validate_header h = validate_request_header h ∧
  (validate_header h = DecodeStatus.Ok → validate_response_header h = DecodeStatus.UnknownMessageType) ∧
  (validate_response_header h = DecodeStatus.Ok → validate_header h = DecodeStatus.UnknownMessageType).
Proof.
  unfold validate_header, validate_request_header, validate_response_header,
    expected_payload_size.
  destruct (MessageHeader.message_type h); simpl; split_and!; intros; repeat case_decide; done.
Qed.




(** What a store of an [n]-byte word does to a span, and what the load of
    the same width then reads. *)
Definition word_access (n : nat) (store : list Z → nat → Z → option (list Z))
    (load : list Z → nat → option Z) : Prop :=
  ∀ out off v, Forall is_u8 out → uint (Z.of_nat n * 8) v →
  if decide (off + n ≤ length out)%nat
  then store out off v =
         Some (take off out ++ le_bytes (Z.of_nat n) v ++ drop (off + n) out) ∧
       load (take off out ++ le_bytes (Z.of_nat n) v ++ drop (off + n) out) off = Some v ∧
       load out off = Some (le_value (take n (drop off out)))
  else store out off v = None ∧ load out off = None.

(** The byte accesses of a word, at one position of a split span. *)
Lemma word_access_intro n store load :
  (0 < n)%nat →
  (∀ out off v, store out off v = put_all out off 0 (le_bytes (Z.of_nat n) v)) →
  (∀ pre bs rest, length bs = n → Forall is_u8 bs →
     load (pre ++ bs ++ rest) (length pre) = Some (le_value bs)) →
  (∀ out off, (length out < off + n)%nat → load out off = None) →
  word_access n store load.
Proof.
  intros Hn Hstore Hload Hnone out off v Hout Hv. case_decide as Hlen.
  - destruct (split_at out off) as (pre & r & -> & <- & _); [lia|].
    rewrite length_app in Hlen.
    destruct (split_at r n) as (bs & rest & -> & Hbs & _); [lia|].
    apply Forall_app in Hout as [_ Hout]. apply Forall_app in Hout as [Hout _].
    assert (drop (length pre + n) (pre ++ bs ++ rest) = rest) as ->.
    { rewrite app_assoc. apply drop_app_length'. rewrite length_app. lia. }
    rewrite take_app_length, drop_app_length, (take_app_length' bs rest) by done. split_and!.
    + rewrite Hstore. apply put_all_app; [lia|]. rewrite length_le_bytes; lia.
    + rewrite Hload; [by rewrite le_value_bytes by (done || lia)| |by apply le_bytes_u8; lia].
      rewrite length_le_bytes; lia.
    + by apply Hload.
  - split; [|apply Hnone; lia]. rewrite Hstore. pose proof (length_le_bytes (Z.of_nat n) v) as Hl.
    apply put_all_None; [lia|]. intros E. rewrite E in Hl. simpl in Hl. lia.
Qed.

(** A load that leaves the span: one of its reads has no byte. *)
Ltac load_undefined :=
  intros out off Hlen;
  repeat match goal with
  | |- context [out !! ?i] =>
      let E := fresh "E" in
      destruct (out !! i) eqn:E; [apply lookup_lt_Some in E|reflexivity]
  end; exfalso; lia.

(** C27: The unrolled little-endian helpers are the reference conversions at
    every offset, within bounds, and undefined outside. *)
Theorem codec_word_access :
  word_access 2 store_u16_le load_u16_le ∧
  word_access 4 store_u32_le load_u32_le ∧
  word_access 8 store_u64_le load_u64_le.
Proof.
  split_and!; apply word_access_intro; try lia.
  - apply store_u16_le_spec.
  - apply load_u16_le_at.
  - unfold load_u16_le. load_undefined.
  - apply store_u32_le_spec.
  - apply load_u32_le_at.
  - unfold load_u32_le. load_undefined.
  - apply store_u64_le_spec.
  - apply load_u64_le_at.
  - unfold load_u64_le. load_undefined.
Qed.

Lemma codec_word_access_witness :
  store_u64_le sample_span 12 72623859790382856 =
  Some (replicate 12 170 ++ [8; 7; 6; 5; 4; 3; 2; 1] ++ replicate 44 170).
Proof.
  destruct codec_word_access as (_ & _ & H8).
  specialize (H8 sample_span 12%nat 72623859790382856 ltac:(evaluate) ltac:(evaluate)).
  rewrite decide_True in H8 by (vm_compute; lia). destruct H8 as [-> _].
  vm_compute. reflexivity.
Defined.

