(* ===== verification/Ring.v ===== *)
(** * Power-of-two ring buffers

    Index arithmetic and views shared by the frame parser
    ([frame_parser.hpp]) and the queues ([spsc_ring_buffer.hpp]): masking by
    [Capacity - 1] is reduction modulo the capacity, wrapping a counter at 64
    bits does not change its slot, and the elements between two counters are a
    list. *)

From S2P Require Import Prelude.

(** ** Index arithmetic *)

Lemma mask_mod i k : 0 ≤ k → Z.land i (2 ^ k - 1) = i `mod` 2 ^ k.
Proof. intros. by rewrite <- Z.land_ones, Z.ones_equiv, Z.sub_1_r. Qed.

Lemma divide_pow2 i j : 0 ≤ i ≤ j → (2 ^ i | 2 ^ j).
Proof.
  intros. exists (2 ^ (j - i)). rewrite <- Z.pow_add_r by lia. f_equal. lia.
Qed.

(** A counter wrapped at 64 bits keeps its slot in a power-of-two ring. *)
Lemma wrap_slot a k : 0 ≤ k ≤ 64 → (wrap 64 a) `mod` 2 ^ k = a `mod` 2 ^ k.
Proof. intros. apply Z.mod_mod_divide. by apply divide_pow2. Qed.

Lemma mod_sub_cancel s i j c : ((s + i) `mod` c - (s + j) `mod` c) `mod` c = (i - j) `mod` c.
Proof. rewrite <- Zminus_mod. f_equal. lia. Qed.

(** The difference of two wrapped counters that are close enough. *)
Lemma wrap_sub_close a b w : 0 ≤ w → 0 ≤ a - b < 2 ^ w → wrap w (wrap w a - wrap w b) = a - b.
Proof.
  intros Hw Hab. unfold wrap. rewrite <- Zminus_mod. by apply Z.mod_small.
Qed.

(** ** The elements between two counters *)

Definition ring_view {A} (cap : Z) (buf : list A) (start n : Z) : list A :=
  take (Z.to_nat n) (rotate (Z.to_nat (start `mod` cap)) buf).

Section ring.
Context {A : Type} (cap : Z).
Context (Hcap : 0 < cap).
Implicit Types (buf bs : list A) (s n : Z).

Lemma ring_view_length buf s n :
  Z.of_nat (length buf) = cap → 0 ≤ n ≤ cap → length (ring_view cap buf s n) = Z.to_nat n.
Proof. intros. unfold ring_view. rewrite length_take, length_rotate. lia. Qed.

Lemma lookup_ring_view buf s n i :
  Z.of_nat (length buf) = cap → 0 ≤ n ≤ cap → Z.of_nat i < n →
  ring_view cap buf s n !! i = buf !! Z.to_nat ((s + Z.of_nat i) `mod` cap).
Proof.
  intros Hlen Hn Hi. unfold ring_view.
  rewrite lookup_take_lt, lookup_rotate_r by lia. unfold rotate_nat_add.
  pose proof (Z.mod_pos_bound s cap Hcap).
  rewrite Hlen, Z2Nat.id, Zplus_mod_idemp_l by lia. done.
Qed.

(** The view depends on the start only through its slot. *)
Lemma ring_view_slot buf s s' n :
  s `mod` cap = s' `mod` cap → ring_view cap buf s n = ring_view cap buf s' n.
Proof. intros E. unfold ring_view. by rewrite E. Qed.

Lemma ring_view_empty buf s n : n ≤ 0 → ring_view cap buf s n = [].
Proof. intros. unfold ring_view. by rewrite Z2Nat.nonpos by lia. Qed.

(** Two views with the same elements. *)
Lemma ring_view_eq buf s n l :
  Z.of_nat (length buf) = cap → 0 ≤ n ≤ cap → Z.of_nat (length l) = n →
  (∀ i, Z.of_nat i < n → l !! i = buf !! Z.to_nat ((s + Z.of_nat i) `mod` cap)) →
  ring_view cap buf s n = l.
Proof.
  intros Hbuf Hn Hl Hi. apply list_eq. intros i.
  destruct (decide (Z.of_nat i < n)).
  - by rewrite lookup_ring_view, Hi.
  - rewrite !lookup_ge_None_2; [done|lia|]. rewrite ring_view_length; lia.
Qed.

(** Writing after the view extends it: [buf'] has [bs] in the slots from
    [s + n] on and is [buf] elsewhere. *)
Definition ring_written buf buf' s bs : Prop :=
  Z.of_nat (length buf') = cap ∧
  ∀ c, 0 ≤ c < cap →
    buf' !! Z.to_nat c =
    (let d := (c - s) `mod` cap in
     if decide (d < Z.of_nat (length bs)) then bs !! Z.to_nat d else buf !! Z.to_nat c).

Lemma ring_view_write buf buf' s n bs :
  Z.of_nat (length buf) = cap → 0 ≤ n → n + Z.of_nat (length bs) ≤ cap →
  ring_written buf buf' (s + n) bs →
  ring_view cap buf' s (n + Z.of_nat (length bs)) = ring_view cap buf s n ++ bs.
Proof.
  intros Hbuf Hn Hfit [Hbuf' Hw].
  assert (length (ring_view cap buf s n) = Z.to_nat n) as Hv by (apply ring_view_length; lia).
  apply ring_view_eq; [done|lia|rewrite length_app; lia|]. intros i Hi.
  rewrite Hw by (by apply Z.mod_pos_bound). cbv zeta.
  rewrite <- (Zminus_mod_idemp_r _ (s + n)), mod_sub_cancel.
  destruct (decide (Z.of_nat i < n)) as [Hlt|Hge].
  - rewrite lookup_app_l, lookup_ring_view by lia. case_decide as Hd; [|done].
    rewrite <- (Z_mod_plus_full _ 1), Z.mod_small in Hd by lia. lia.
  - rewrite lookup_app_r by lia. rewrite Z.mod_small by lia.
    rewrite decide_True by lia. f_equal. lia.
Qed.

(** Reading from the front shortens it. *)
Lemma ring_view_drop buf s n k :
  Z.of_nat (length buf) = cap → 0 ≤ k ≤ n → n ≤ cap →
  ring_view cap buf (s + k) (n - k) = drop (Z.to_nat k) (ring_view cap buf s n).
Proof.
  intros Hbuf Hk Hn. apply ring_view_eq; [done|lia| |].
  - rewrite length_drop, ring_view_length by lia. lia.
  - intros i Hi. rewrite lookup_drop, lookup_ring_view by lia. do 3 f_equal. lia.
Qed.

(** A run of the view that does not cross the physical end is contiguous. *)
Lemma ring_view_contiguous buf s n k :
  Z.of_nat (length buf) = cap → 0 ≤ k ≤ n → n ≤ cap → s `mod` cap + k ≤ cap →
  take (Z.to_nat k) (drop (Z.to_nat (s `mod` cap)) buf) =
  take (Z.to_nat k) (ring_view cap buf s n).
Proof.
  intros Hbuf Hk Hn Hc. pose proof (Z.mod_pos_bound s cap Hcap) as Hs.
  apply list_eq. intros i. destruct (decide (Z.of_nat i < k)).
  - rewrite !lookup_take_lt, lookup_drop, lookup_ring_view by lia. f_equal.
    rewrite <- (Zplus_mod_idemp_l s), (Z.mod_small (s `mod` cap + _)) by lia. lia.
  - rewrite !lookup_take_ge by lia. done.
Qed.

End ring.

(** ** Physical writes that implement [ring_written] *)

(** A block written in one or two contiguous pieces. *)
Lemma ring_written_block {A} cap (buf bs : list A) w :
  0 ≤ w < cap → Z.of_nat (length buf) = cap → Z.of_nat (length bs) ≤ cap →
  let k := Z.to_nat (cap - w) in
  ring_written cap buf
    (list_inserts 0 (drop k bs) (list_inserts (Z.to_nat w) (take k bs) buf)) w bs.
Proof.
  intros Hw Hbuf Hbs k. split; [by rewrite !length_inserts|]. intros c Hc. cbv zeta.
  destruct (decide (w ≤ c)) as [Hge|Hlt].
  - rewrite Z.mod_small by lia.
    rewrite list_lookup_inserts_ge by (rewrite length_drop; lia).
    case_decide.
    + rewrite list_lookup_inserts by (rewrite ?length_take; lia).
      rewrite lookup_take_lt by lia. f_equal. lia.
    + rewrite list_lookup_inserts_ge by (rewrite length_take; lia). done.
  - rewrite <- (Z_mod_plus_full _ 1), Z.mod_small by lia. case_decide.
    + rewrite list_lookup_inserts by (rewrite ?length_inserts, ?length_drop; lia).
      rewrite lookup_drop. f_equal. lia.
    + rewrite list_lookup_inserts_ge by (rewrite length_drop; lia).
      by rewrite list_lookup_inserts_lt by lia.
Qed.
