(* ===== verification/FrameParser.v ===== *)
(** * The frame parser

    Models [core/order_entry/include/lltg/order_entry/frame_parser.hpp]: a
    single-threaded ring buffer of bytes from which 64-byte frames are
    decoded.  [read_pos_] and [write_pos_] are free-running 64-bit counters. *)

From S2P Require Import Prelude Protocol Codec Wire Ring.

Module DecodedMessage.

Record t : Set := mk {
  header : MessageHeader.t;
  type : MessageType.t;
  new_order : NewOrder.t;
  cancel_order : CancelOrder.t;
  modify_order : ModifyOrder.t
}.

(** [DecodedMessage msg;] *)
Definition default : t :=
  mk MessageHeader.default (MessageType.of_u16 0) NewOrder.default CancelOrder.default
     ModifyOrder.default.

Definition set_header (h : MessageHeader.t) (m : t) : t :=
  mk h (type m) (new_order m) (cancel_order m) (modify_order m).
Definition set_type (ty : MessageType.t) (m : t) : t :=
  mk (header m) ty (new_order m) (cancel_order m) (modify_order m).
Definition set_new_order (o : NewOrder.t) (m : t) : t :=
  mk (header m) (type m) o (cancel_order m) (modify_order m).
Definition set_cancel_order (o : CancelOrder.t) (m : t) : t :=
  mk (header m) (type m) (new_order m) o (modify_order m).
Definition set_modify_order (o : ModifyOrder.t) (m : t) : t :=
  mk (header m) (type m) (new_order m) (cancel_order m) o.

End DecodedMessage.

(** The static assertions on the template argument. *)
Class FrameCapacity (Capacity : Z) : Prop := {
  capacity_frames : Capacity `mod` Z.of_nat kFrameSize = 0;
  capacity_single_bit : ∃ k, 0 ≤ k < 64 ∧ Capacity = 2 ^ k
}.

Module FrameParser.

Module Status.

Inductive t : Set := MessageReady | NeedMoreData | ProtocolError | BufferFull.

#[global] Instance t_eq_dec : EqDecision t.
Proof. solve_decision. Defined.

End Status.

Record t : Set := mk { buffer_ : list Z; read_pos_ : Z; write_pos_ : Z }.

Section parser.
Context (Capacity : Z).

(** [FrameParser<Capacity>{}] *)
Definition empty : t := mk (replicate (Z.to_nat Capacity) 0) 0 0.

Definition size (p : t) : Z := write_pos_ p -₆₄ read_pos_ p.
Definition free_slots (p : t) : Z := Capacity -₆₄ size p.
Definition full (p : t) : bool := bool_decide (size p = Capacity).

Definition buffer_idx (index : Z) : Z := Z.land index (Capacity - 1).

(** The 64 bytes from [read_pos_] on; the span may not leave the array. *)
Definition readable_span (p : t) : option (list Z) :=
  let start := Z.to_nat (buffer_idx (read_pos_ p)) in
  if decide (start + kFrameSize ≤ length (buffer_ p))%nat
  then Some (take kFrameSize (drop start (buffer_ p))) else None.

Definition move_write_pos (step : Z) (p : t) : t :=
  mk (buffer_ p) (read_pos_ p) (write_pos_ p +₆₄ step).
Definition move_read_pos (step : Z) (p : t) : t :=
  mk (buffer_ p) (read_pos_ p +₆₄ step) (write_pos_ p).
Definition set_buffer (buf : list Z) (p : t) : t := mk buf (read_pos_ p) (write_pos_ p).

Definition append (p : t) (bytes : list Z) : option (bool * t) :=
  let bytes_size := Z.of_nat (length bytes) in
  if decide (bytes_size = 0) then Some (true, p)
  else if decide (free_slots p < bytes_size) then Some (false, p)
  else
    buffer ←
      (if decide (buffer_idx (write_pos_ p) +₆₄ bytes_size ≤ Capacity)
       then memcpy (buffer_ p) (Z.to_nat (buffer_idx (write_pos_ p))) bytes 0
              (Z.to_nat bytes_size)
       else
         let bytes_head := Capacity -₆₄ buffer_idx (write_pos_ p) in
         let bytes_tail := bytes_size -₆₄ bytes_head in
         buffer ← memcpy (buffer_ p) (Z.to_nat (buffer_idx (write_pos_ p))) bytes 0
                    (Z.to_nat bytes_head);
         memcpy buffer 0 bytes (Z.to_nat bytes_head) (Z.to_nat bytes_tail));
    Some (true, move_write_pos bytes_size (set_buffer buffer p)).

(** The switch over [header.message_type]: the status and the message with
    the payload decoded into it, or [None] for the early [ProtocolError]. *)
Definition decode_payload (ty : MessageType.t) (span : list Z) (out : DecodedMessage.t)
    : option (option (DecodeStatus.t * DecodedMessage.t)) :=
  match ty with
  | MessageType.NewOrder =>
      '(status, o) ← decode_new_order span (DecodedMessage.new_order out);
      Some (Some (status, DecodedMessage.set_new_order o out))
  | MessageType.CancelOrder =>
      '(status, o) ← decode_cancel_order span (DecodedMessage.cancel_order out);
      Some (Some (status, DecodedMessage.set_cancel_order o out))
  | MessageType.ModifyOrder =>
      '(status, o) ← decode_modify_order span (DecodedMessage.modify_order out);
      Some (Some (status, DecodedMessage.set_modify_order o out))
  | MessageType.Heartbeat | MessageType.Logout => Some (Some (DecodeStatus.Ok, out))
  | _ => Some None
  end.

Definition try_parse (p : t) (out : DecodedMessage.t)
    : option (Status.t * t * DecodedMessage.t) :=
  let available := size p in
  if decide (available < Z.of_nat kFrameSize) then Some (Status.NeedMoreData, p, out) else
  span ← readable_span p;
  '(status, header) ← decode_header (take kHeaderSize span) MessageHeader.default;
  if decide (status ≠ DecodeStatus.Ok) then Some (Status.ProtocolError, p, out) else
  let status := validate_header header in
  if decide (status ≠ DecodeStatus.Ok) then Some (Status.ProtocolError, p, out) else
  let out := DecodedMessage.set_header header out in
  let out := DecodedMessage.set_type (MessageHeader.message_type header) out in
  decoded ← decode_payload (MessageHeader.message_type header) span out;
  match decoded with
  | None => Some (Status.ProtocolError, p, out)
  | Some (status, out) =>
      if decide (status ≠ DecodeStatus.Ok) then Some (Status.ProtocolError, p, out) else
      Some (Status.MessageReady, move_read_pos (Z.of_nat kFrameSize) p, out)
  end.

End parser.

End FrameParser.

#[export] Instance capacity_4096 : FrameCapacity 4096.
Proof. split; [done|]. exists 12. done. Qed.

#[export] Instance capacity_128 : FrameCapacity 128.
Proof. split; [done|]. exists 7. done. Qed.

(** ** Specification: a bounded queue of bytes cut into frames *)

(** What one 64-byte frame decodes to: a message, or no valid request. *)
Definition parse_frame (frame : list Z) (out : DecodedMessage.t) : option DecodedMessage.t :=
  match decode_header frame MessageHeader.default with
  | Some (DecodeStatus.Ok, h) =>
      if decide (validate_header h = DecodeStatus.Ok) then
        let out := DecodedMessage.set_type (MessageHeader.message_type h)
                     (DecodedMessage.set_header h out) in
        match FrameParser.decode_payload (MessageHeader.message_type h) frame out with
        | Some (Some (DecodeStatus.Ok, out)) => Some out
        | _ => None
        end
      else None
  | _ => None
  end.

Definition spec_append (Capacity : Z) (q bytes : list Z) : bool * list Z :=
  if decide (Z.of_nat (length q) + Z.of_nat (length bytes) ≤ Capacity)
  then (true, q ++ bytes) else (false, q).

Definition spec_try_parse (q : list Z) (out : DecodedMessage.t)
    : FrameParser.Status.t * list Z * DecodedMessage.t :=
  if decide (length q < kFrameSize)%nat then (FrameParser.Status.NeedMoreData, q, out) else
  match parse_frame (take kFrameSize q) out with
  | None => (FrameParser.Status.ProtocolError, q, out)
  | Some out => (FrameParser.Status.MessageReady, drop kFrameSize q, out)
  end.

(** The bytes buffered by a parser, oldest first. *)
Definition contents (Capacity : Z) (p : FrameParser.t) : list Z :=
  ring_view Capacity (FrameParser.buffer_ p) (FrameParser.read_pos_ p) (FrameParser.size p).

(** The representation invariant: frames start at multiples of 64. *)
Definition parser_ok (Capacity : Z) (p : FrameParser.t) : Prop :=
  Z.of_nat (length (FrameParser.buffer_ p)) = Capacity ∧
  Forall is_u8 (FrameParser.buffer_ p) ∧
  is_u64 (FrameParser.read_pos_ p) ∧ is_u64 (FrameParser.write_pos_ p) ∧
  FrameParser.read_pos_ p `mod` Z.of_nat kFrameSize = 0 ∧
  FrameParser.size p ≤ Capacity.

#[global] Instance parser_ok_dec Capacity p : Decision (parser_ok Capacity p).
Proof. unfold parser_ok. apply _. Defined.

(** ** The parser implements the queue *)

Section parser_proofs.
Context {Capacity : Z} {HC : FrameCapacity Capacity}.
Implicit Types (p : FrameParser.t) (bytes : list Z).

Lemma capacity_pow : ∃ k, 6 ≤ k ≤ 63 ∧ Capacity = 2 ^ k.
Proof using HC.
  destruct HC as [Hf (k & Hk & ->)]. exists k. split; [|done]. split; [|lia].
  destruct (decide (6 ≤ k)); [done|]. unfold kFrameSize in Hf.
  assert (k = 0 ∨ k = 1 ∨ k = 2 ∨ k = 3 ∨ k = 4 ∨ k = 5) as Hcase by lia.
  destruct_or! Hcase; subst; done.
Qed.

Lemma capacity_bounds : 64 ≤ Capacity ≤ 2 ^ 63.
Proof using HC.
  destruct capacity_pow as (k & Hk & ->). split.
  - change 64 with (2 ^ 6). apply Z.pow_le_mono_r; lia.
  - apply Z.pow_le_mono_r; lia.
Qed.

Lemma buffer_idx_mod i : FrameParser.buffer_idx Capacity i = i `mod` Capacity.
Proof using HC.
  destruct capacity_pow as (k & Hk & ->). apply mask_mod. lia.
Qed.

Lemma slot_wrap i : wrap 64 i `mod` Capacity = i `mod` Capacity.
Proof using HC. destruct capacity_pow as (k & Hk & ->). apply wrap_slot. lia. Qed.

Lemma size_range p : is_u64 (FrameParser.size p).
Proof. by apply uint_wrap. Qed.

Lemma contents_length p :
  parser_ok Capacity p → Z.of_nat (length (contents Capacity p)) = FrameParser.size p.
Proof using HC.
  intros (Hl & _ & _ & _ & _ & Hs). pose proof (size_range p) as [? _].
  pose proof capacity_bounds. unfold contents. rewrite ring_view_length by lia. lia.
Qed.

(** The write position is [size] slots after the read position. *)
Lemma write_slot p :
  is_u64 (FrameParser.write_pos_ p) →
  FrameParser.write_pos_ p `mod` Capacity =
  (FrameParser.read_pos_ p + FrameParser.size p) `mod` Capacity.
Proof using HC.
  intros Hw. rewrite <- (slot_wrap (_ + _)). f_equal.
  unfold FrameParser.size. unfold wrap. rewrite Zplus_mod_idemp_r.
  rewrite Z.add_sub_assoc, Z.add_simpl_l. symmetry. by apply Z.mod_small.
Qed.

Lemma size_move_write p n buf :
  0 ≤ n → FrameParser.size p + n < 2 ^ 64 →
  FrameParser.size (FrameParser.move_write_pos n (FrameParser.set_buffer buf p)) =
  FrameParser.size p + n.
Proof.
  intros Hn Hfit. unfold FrameParser.size, FrameParser.move_write_pos in *. simpl.
  rewrite <- (wrap_uint 64 (wrap 64 _ + n)).
  - unfold wrap. rewrite Zminus_mod_idemp_l, Zplus_mod_idemp_l. f_equal. lia.
  - split; [|done]. pose proof (uint_wrap 64 (FrameParser.write_pos_ p - FrameParser.read_pos_ p)
      ltac:(lia)) as [? _]. lia.
Qed.

Lemma size_move_read p n :
  0 ≤ n ≤ FrameParser.size p →
  FrameParser.size (FrameParser.move_read_pos n p) = FrameParser.size p - n.
Proof.
  intros Hn. unfold FrameParser.size, FrameParser.move_read_pos in *. simpl.
  rewrite <- (wrap_uint 64 (wrap 64 _ - n)).
  - unfold wrap. rewrite Zminus_mod_idemp_r, Zminus_mod_idemp_l. f_equal. lia.
  - pose proof (uint_wrap 64 (FrameParser.write_pos_ p - FrameParser.read_pos_ p)
      ltac:(lia)) as [? ?]. split; lia.
Qed.

(** The copy of [append], in one or two pieces, is a ring write. *)
Lemma append_copies p bytes :
  parser_ok Capacity p →
  0 < Z.of_nat (length bytes) ≤ Capacity - FrameParser.size p →
  ∃ buffer,
    FrameParser.append Capacity p bytes =
      Some (true, FrameParser.move_write_pos (Z.of_nat (length bytes))
                    (FrameParser.set_buffer buffer p)) ∧
    ring_written Capacity (FrameParser.buffer_ p) buffer
      (FrameParser.read_pos_ p + FrameParser.size p) bytes ∧
    (Forall is_u8 bytes → Forall is_u8 buffer).
Proof using HC.
  intros (Hl & Hb & Hr & Hw & Ha & Hs) Hn. pose proof capacity_bounds as HCb.
  pose proof (size_range p) as [Hs0 _].
  unfold FrameParser.append. rewrite decide_False by lia.
  assert (FrameParser.free_slots Capacity p = Capacity - FrameParser.size p) as ->.
  { unfold FrameParser.free_slots. apply wrap_uint. split; [lia|]. mlia. }
  rewrite decide_False by lia.
  rewrite buffer_idx_mod, write_slot by done.
  set (w := (_ + _) `mod` Capacity).
  assert (0 ≤ w < Capacity) as Hwr by (apply Z.mod_pos_bound; lia).
  assert (ring_written Capacity (FrameParser.buffer_ p)
    (list_inserts 0 (drop (Z.to_nat (Capacity - w)) bytes)
       (list_inserts (Z.to_nat w) (take (Z.to_nat (Capacity - w)) bytes)
          (FrameParser.buffer_ p))) (FrameParser.read_pos_ p + FrameParser.size p) bytes) as Hring.
  { destruct (ring_written_block Capacity (FrameParser.buffer_ p) bytes w) as [H1 H2]; [done..|lia|].
    split; [done|]. intros c Hc. rewrite H2 by done. cbv zeta.
    unfold w. by rewrite Zminus_mod_idemp_r. }
  rewrite (wrap_uint 64 (w + _)) by (split; [lia|mlia]).
  case_decide as Hfit.
  - rewrite memcpy_Some by lia. cbn [mbind option_bind]. eexists. split; [done|].
    rewrite !drop_0, Nat2Z.id, firstn_all.
    rewrite drop_ge, take_ge in Hring by lia. split; [done|].
    intros. by apply Forall_inserts.
  - rewrite !(wrap_uint 64 (Capacity - w)), (wrap_uint 64 (_ - _)) by (split; [lia|mlia]).
    rewrite memcpy_Some by lia. cbn [mbind option_bind].
    rewrite memcpy_Some by (rewrite ?length_inserts; lia). cbn [mbind option_bind].
    eexists. split; [done|]. rewrite drop_0.
    rewrite (take_ge (drop _ bytes)) by (rewrite length_drop; lia). split; [done|].
    intros. auto using Forall_inserts, Forall_take, Forall_drop.
Qed.

Lemma append_refines p bytes :
  parser_ok Capacity p → Forall is_u8 bytes →
  ∃ b p', FrameParser.append Capacity p bytes = Some (b, p') ∧ parser_ok Capacity p' ∧
    (b, contents Capacity p') = spec_append Capacity (contents Capacity p) bytes ∧
    (b = false → p' = p).
Proof using HC.
  intros Hp Hbytes. pose proof capacity_bounds as HCb.
  pose proof (size_range p) as [Hs0 _]. unfold spec_append. rewrite contents_length by done.
  destruct (decide (bytes = [])) as [->|Hne].
  { exists true, p. unfold FrameParser.append. rewrite decide_True, app_nil_r by done.
    rewrite decide_True by (simpl; destruct Hp as (_&_&_&_&_&?); lia). done. }
  assert (0 < Z.of_nat (length bytes)) by (destruct bytes; simpl in *; [done|lia]).
  case_decide as Hfit.
  - destruct (append_copies p bytes Hp) as (buffer & -> & Hring & Hbuf); [lia|].
    destruct Hp as (Hl & Hb & Hr & Hw & Ha & Hs).
    eexists true, _. split_and!; [done| |f_equal|done].
    + split_and!; [apply Hring|auto|done|by apply uint_wrap|done|].
      rewrite size_move_write; mlia.
    + unfold contents. rewrite size_move_write by mlia. simpl.
      apply ring_view_write; [lia|done|done|lia|done].
  - exists false, p. split_and!; try done. unfold FrameParser.append.
    rewrite decide_False by lia. rewrite decide_True; [done|].
    unfold FrameParser.free_slots. destruct Hp as (_&_&_&_&_&?).
    rewrite wrap_uint; [lia|]. split; [lia|]. mlia.
Qed.

(** Frames are aligned, so the next 64 bytes are contiguous in the array. *)
Lemma readable_span_contents p :
  parser_ok Capacity p → Z.of_nat kFrameSize ≤ FrameParser.size p →
  FrameParser.readable_span Capacity p = Some (take kFrameSize (contents Capacity p)).
Proof using HC.
  intros (Hl & Hb & Hr & Hw & Ha & Hs) Hn. pose proof capacity_bounds as HCb.
  pose proof (Z.mod_pos_bound (FrameParser.read_pos_ p) Capacity ltac:(lia)) as Hm.
  assert (FrameParser.read_pos_ p `mod` Capacity + 64 ≤ Capacity) as Hroom.
  { destruct HC as [Hf _]. unfold kFrameSize in *. simpl in *.
    assert ((FrameParser.read_pos_ p `mod` Capacity) `mod` 64 = 0) as Hal.
    { rewrite Z.mod_mod_divide; [done|]. by apply Z.mod_divide. }
    clear -Hm Hal Hf. Z.div_mod_to_equations. lia. }
  unfold FrameParser.readable_span. rewrite buffer_idx_mod.
  rewrite decide_True by (unfold kFrameSize; lia). f_equal.
  apply (ring_view_contiguous Capacity ltac:(lia) _ _ _ 64); unfold kFrameSize in Hn; lia.
Qed.

Lemma contents_u8 p : parser_ok Capacity p → Forall is_u8 (contents Capacity p).
Proof.
  intros (_ & Hb & _). unfold contents, ring_view, rotate.
  apply Forall_take, Forall_app. auto using Forall_drop, Forall_take.
Qed.

Lemma move_read_ok p :
  parser_ok Capacity p → Z.of_nat kFrameSize ≤ FrameParser.size p →
  parser_ok Capacity (FrameParser.move_read_pos (Z.of_nat kFrameSize) p) ∧
  contents Capacity (FrameParser.move_read_pos (Z.of_nat kFrameSize) p) =
  drop kFrameSize (contents Capacity p).
Proof using HC.
  intros (Hl & Hb & Hr & Hw & Ha & Hs) Hn. pose proof capacity_bounds as HCb.
  assert (FrameParser.size (FrameParser.move_read_pos (Z.of_nat kFrameSize) p) =
          FrameParser.size p - Z.of_nat kFrameSize) as Hsz by (apply size_move_read; lia).
  split.
  - split_and!; [done|done|by apply uint_wrap|done| |lia].
    simpl. unfold kFrameSize in *. mlia.
  - unfold contents. rewrite Hsz. simpl.
    rewrite (ring_view_slot _ _ _ (FrameParser.read_pos_ p + Z.of_nat kFrameSize))
      by apply slot_wrap.
    rewrite ring_view_drop by lia. by rewrite Nat2Z.id.
Qed.

End parser_proofs.

(** ** One frame *)

Lemma decode_header_take frame h0 :
  Forall is_u8 frame → (kHeaderSize ≤ length frame)%nat →
  decode_header (take kHeaderSize frame) h0 = decode_header frame h0.
Proof.
  intros Hok Hlen. destruct (header_of_bytes frame Hok Hlen) as (h & rest & -> & Hh & _).
  rewrite take_app_length' by by rewrite length_header_bytes.
  rewrite <- (app_nil_r (header_bytes h)) at 1. by rewrite !decode_header_spec.
Qed.

(** The payload decoders cannot fail on a whole frame of a request type. *)
Lemma decode_payload_ok ty frame out :
  Forall is_u8 frame → length frame = kFrameSize → is_known_request_type ty = true →
  ∃ out', FrameParser.decode_payload ty frame out = Some (Some (DecodeStatus.Ok, out')).
Proof.
  intros Hok Hlen Hty.
  destruct ty; try done; unfold FrameParser.decode_payload; try by eexists.
  - pose proof (wire_decode_total frame (DecodedMessage.new_order out) Hok) as Ht.
    rewrite decide_False in Ht by lia. destruct Ht as (ws & _ & _ & _ & E).
    wire_fields. rewrite E. by eexists.
  - pose proof (wire_decode_total frame (DecodedMessage.cancel_order out) Hok) as Ht.
    rewrite decide_False in Ht by lia. destruct Ht as (ws & _ & _ & _ & E).
    wire_fields. rewrite E. by eexists.
  - pose proof (wire_decode_total frame (DecodedMessage.modify_order out) Hok) as Ht.
    rewrite decide_False in Ht by lia. destruct Ht as (ws & _ & _ & _ & E).
    wire_fields. rewrite E. by eexists.
Qed.

Lemma validate_header_known h :
  validate_header h = DecodeStatus.Ok →
  is_known_request_type (MessageHeader.message_type h) = true.
Proof. unfold validate_header. by destruct (is_known_request_type _). Qed.

(** Whether a frame is a valid request does not depend on the object it is
    decoded into. *)
Lemma parse_frame_None frame out out' :
  Forall is_u8 frame → length frame = kFrameSize →
  parse_frame frame out = None → parse_frame frame out' = None.
Proof.
  intros Hok Hlen. unfold parse_frame.
  destruct (decode_header frame _) as [[st h]|]; [|done]. destruct st; try done.
  case_decide as Hv; [|done]. apply validate_header_known in Hv.
  destruct (decode_payload_ok _ frame (DecodedMessage.set_type (MessageHeader.message_type h)
    (DecodedMessage.set_header h out)) Hok Hlen Hv) as [o ->]. done.
Qed.

Lemma try_parse_refines {Capacity} {HC : FrameCapacity Capacity} p out :
  parser_ok Capacity p →
  ∃ st p' out', FrameParser.try_parse Capacity p out = Some (st, p', out') ∧
    parser_ok Capacity p' ∧
    (st, contents Capacity p', out') = spec_try_parse (contents Capacity p) out ∧
    (st ≠ FrameParser.Status.MessageReady → p' = p).
Proof.
  intros Hp. pose proof (contents_length p Hp) as Hcl.
  unfold FrameParser.try_parse, spec_try_parse.
  case_decide as Hav.
  { rewrite decide_True by lia. eauto 10. }
  rewrite decide_False by lia. rewrite readable_span_contents by (done || lia).
  cbn [mbind option_bind]. set (frame := take kFrameSize _).
  assert (Forall is_u8 frame) as Hok by by apply Forall_take, contents_u8.
  assert (length frame = kFrameSize) as Hlen.
  { unfold frame. rewrite length_take. lia. }
  assert (kHeaderSize ≤ length frame)%nat as Hlen' by (unfold_offsets; lia).
  rewrite decode_header_take by done. unfold parse_frame.
  destruct (header_of_bytes frame Hok Hlen') as (h & rest & Hf & Hh & _).
  rewrite Hf, decode_header_spec by done. rewrite <- Hf.
  cbn [mbind option_bind].
  case_decide as Hst; [destruct (header_status h); [done|eauto 10..]|].
  rewrite Hst.
  case_decide as Hv.
  { rewrite decide_False by done. eauto 10. }
  rewrite decide_True by done.
  destruct (decode_payload_ok (MessageHeader.message_type h) frame
    (DecodedMessage.set_type (MessageHeader.message_type h) (DecodedMessage.set_header h out))
    Hok Hlen (validate_header_known h Hv)) as [out' ->].
  cbn [mbind option_bind]. rewrite decide_False by auto.
  destruct (move_read_ok p Hp) as [Hp' Hc]; [lia|]. rewrite <- Hc.
  eexists _, _, _. by split_and!.
Qed.
