(* ===== verification/Stream.v ===== *)
(** * TCP segmentation

    TCP delivers a byte stream in chunks of any size.  This file relates the
    calls a gateway makes on one parser (append a chunk, then parse until no
    complete frame is left) to the frames of the whole stream. *)

From S2P Require Import Prelude Protocol Codec Wire Ring FrameParser.

Import FrameParser.Status.

(** ** The calls a gateway makes *)

Section calls.
Context (Capacity : Z).

(** Parse until the parser returns something else than a message.  [None] is
    undefined behaviour or exhausted fuel. *)
Fixpoint drain (fuel : nat) (p : FrameParser.t)
    : option (list DecodedMessage.t * FrameParser.Status.t * FrameParser.t) :=
  match fuel with
  | O => None
  | S fuel =>
      '(st, p, msg) ← FrameParser.try_parse Capacity p DecodedMessage.default;
      if decide (st = MessageReady) then
        '(msgs, st, p) ← drain fuel p;
        Some (msg :: msgs, st, p)
      else Some ([], st, p)
  end.

(** The most frames a buffer holds, and one call more to see that none is left. *)
Definition drain_fuel : nat := S (Z.to_nat (Capacity / Z.of_nat kFrameSize)).

(** Append each chunk and drain; stop when a chunk does not fit or on a
    protocol error. *)
Fixpoint feed (p : FrameParser.t) (chunks : list (list Z))
    : option (list DecodedMessage.t * FrameParser.Status.t * FrameParser.t) :=
  match chunks with
  | [] => Some ([], NeedMoreData, p)
  | chunk :: chunks =>
      '(fits, p) ← FrameParser.append Capacity p chunk;
      if negb fits then Some ([], BufferFull, p) else
      '(msgs, st, p) ← drain drain_fuel p;
      if decide (st = NeedMoreData) then
        '(msgs', st, p) ← feed p chunks;
        Some (msgs ++ msgs', st, p)
      else Some (msgs, st, p)
  end.

End calls.

(** ** Specification: the frames of a stream *)

(** Cut a stream into frames and decode them up to the first invalid one:
    the messages, whether the stream ends within a frame or at an invalid
    frame, and the bytes from there on. *)
Fixpoint stream_frames (n : nat) (q : list Z)
    : list DecodedMessage.t * FrameParser.Status.t * list Z :=
  match n with
  | O => ([], NeedMoreData, q)
  | S n =>
      if decide (length q < kFrameSize)%nat then ([], NeedMoreData, q) else
      match parse_frame (take kFrameSize q) DecodedMessage.default with
      | None => ([], ProtocolError, q)
      | Some msg =>
          let '(msgs, st, rest) := stream_frames n (drop kFrameSize q) in
          (msg :: msgs, st, rest)
      end
  end.

Definition decode_stream (q : list Z) := stream_frames (length q) q.

Section stream.
Implicit Types q bs : list Z.

(** Enough fuel gives the same result. *)
Lemma stream_frames_fuel n m q :
  (length q ≤ 64 * n)%nat → (length q ≤ 64 * m)%nat →
  stream_frames n q = stream_frames m q.
Proof.
  revert m q. induction n as [|n IH]; intros m q Hn Hm.
  - destruct m; simpl; [done|]. by rewrite decide_True by (unfold kFrameSize; lia).
  - destruct m as [|m]; simpl.
    { by rewrite decide_True by (unfold kFrameSize; lia). }
    case_decide; [done|]. destruct (parse_frame _ _); [|done].
    rewrite (IH m); [done|..]; rewrite length_drop; unfold kFrameSize; lia.
Qed.

(** The equation of [decode_stream]. *)
Lemma decode_stream_unfold q :
  decode_stream q =
  if decide (length q < kFrameSize)%nat then ([], NeedMoreData, q) else
  match parse_frame (take kFrameSize q) DecodedMessage.default with
  | None => ([], ProtocolError, q)
  | Some msg =>
      let '(msgs, st, rest) := decode_stream (drop kFrameSize q) in
      (msg :: msgs, st, rest)
  end.
Proof.
  unfold decode_stream at 1. rewrite (stream_frames_fuel _ (S (length q))) by lia. simpl.
  case_decide; [done|]. destruct (parse_frame _ _); [|done]. unfold decode_stream.
  rewrite (stream_frames_fuel _ (length (drop kFrameSize q))); [done|..];
    rewrite length_drop; lia.
Qed.

(** Induction over the frames of a stream. *)
Lemma stream_ind (P : list Z → Prop) :
  (∀ q, (length q < kFrameSize)%nat → P q) →
  (∀ q, (kFrameSize ≤ length q)%nat → P (drop kFrameSize q) → P q) →
  ∀ q, P q.
Proof.
  intros Hshort Hlong q. induction q as [q IH] using (induction_ltof1 _ (@length Z)).
  destruct (decide (length q < kFrameSize)%nat); [auto|].
  apply Hlong; [lia|]. apply IH. unfold ltof. rewrite length_drop. unfold kFrameSize in *. lia.
Qed.

(** Bytes that arrive later are decoded where the earlier ones stopped. *)
Lemma decode_stream_app q bs msgs st rest :
  decode_stream q = (msgs, st, rest) →
  (st = NeedMoreData ∧ (length rest < kFrameSize)%nat ∧
   decode_stream (q ++ bs) =
     let '(msgs', st', rest') := decode_stream (rest ++ bs) in (msgs ++ msgs', st', rest')) ∨
  (st = ProtocolError ∧ decode_stream (q ++ bs) = (msgs, ProtocolError, rest ++ bs)).
Proof.
  revert msgs st rest. induction q as [q Hq|q Hq IH] using stream_ind; intros msgs st rest.
  - rewrite decode_stream_unfold, decide_True by done. intros [= <- <- <-]. left.
    split_and!; [done|done|]. by destruct (decode_stream (q ++ bs)) as [[??]?].
  - rewrite decode_stream_unfold, decide_False by lia.
    rewrite (decode_stream_unfold (q ++ bs)), decide_False by (rewrite length_app; lia).
    rewrite take_app_le, drop_app_le by done. destruct (parse_frame _ _) as [msg|].
    + destruct (decode_stream (drop kFrameSize q)) as [[ms s] r]. intros [= <- <- <-].
      destruct (IH _ _ _ eq_refl) as [(-> & Hr & ->)|[-> ->]]; [left|by right].
      split_and!; [done|done|]. by destruct (decode_stream (r ++ bs)) as [[??]?].
    + intros [= <- <- <-]. by right.
Qed.

Lemma decode_stream_status q msgs st rest :
  decode_stream q = (msgs, st, rest) → st = NeedMoreData ∨ st = ProtocolError.
Proof. intros E. destruct (decode_stream_app q [] _ _ _ E) as [(->&_)|[->_]]; auto. Qed.

(** The frames of the messages are bytes of the stream. *)
Lemma stream_frames_count q msgs st rest :
  decode_stream q = (msgs, st, rest) → (kFrameSize * length msgs ≤ length q)%nat.
Proof.
  revert msgs st rest. induction q as [q Hq|q Hq IH] using stream_ind; intros msgs st rest;
    rewrite decode_stream_unfold.
  - rewrite decide_True by done. intros [= <- <- <-]. simpl. lia.
  - rewrite decide_False by lia. destruct (parse_frame _ _) as [msg|].
    + destruct (decode_stream (drop kFrameSize q)) as [[ms s] r] eqn:E. intros [= <- <- <-].
      specialize (IH _ _ _ eq_refl). rewrite length_drop in IH. cbn [length]. lia.
    + intros [= <- <- <-]. simpl. lia.
Qed.

(** A stream has no more frames than bytes. *)
Lemma decode_stream_length q msgs st rest :
  decode_stream q = (msgs, st, rest) → (length msgs ≤ length q)%nat.
Proof. intros E%stream_frames_count. unfold kFrameSize in E. lia. Qed.

(** A stream of one message that leaves nothing is one frame. *)
Lemma decode_stream_one q msg :
  decode_stream q = ([msg], NeedMoreData, []) → drop kFrameSize q = [].
Proof.
  rewrite decode_stream_unfold. case_decide; [done|]. destruct (parse_frame _ _); [|done].
  rewrite (decode_stream_unfold (drop kFrameSize q)). case_decide; [by intros [= ->]|].
  destruct (parse_frame _ _); [by destruct (decode_stream _) as [[??]?]|done].
Qed.

End stream.

(** ** The calls compute the specification *)

Section refinement.
Context {Capacity : Z} {HC : FrameCapacity Capacity}.
Implicit Types (p : FrameParser.t).

Lemma drain_refines fuel p :
  parser_ok Capacity p → (length (contents Capacity p) < 64 * fuel)%nat →
  ∃ p', let '(msgs, st, rest) := decode_stream (contents Capacity p) in
        drain Capacity fuel p = Some (msgs, st, p') ∧ parser_ok Capacity p' ∧
        contents Capacity p' = rest.
Proof using HC.
  revert p. induction fuel as [|fuel IH]; intros p Hp Hfuel; [lia|].
  rewrite decode_stream_unfold. simpl.
  destruct (try_parse_refines p DecodedMessage.default Hp) as (st & p' & msg & -> & Hp' & Hspec & Hsame).
  unfold spec_try_parse in Hspec. cbn [mbind option_bind].
  case_decide as Hlen; [simplify_eq; rewrite Hsame by done; exists p; by rewrite decide_False by done|].
  destruct (parse_frame _ _) as [m|]; simplify_eq.
  - rewrite decide_True by done. match goal with H : contents _ p' = _ |- _ => rename H into Hc end.
    destruct (IH p' Hp') as [p'' Hrest].
    { rewrite Hc, length_drop. unfold kFrameSize in *. lia. }
    rewrite Hc in Hrest. destruct (decode_stream _) as [[ms s] r].
    destruct Hrest as (-> & ? & ?). by exists p''.
  - rewrite Hsame by done. exists p. by rewrite decide_False by done.
Qed.

Lemma drain_fuel_enough p :
  parser_ok Capacity p → (length (contents Capacity p) < 64 * drain_fuel Capacity)%nat.
Proof using HC.
  intros Hp. pose proof (contents_length p Hp). pose proof (capacity_bounds (Capacity:=Capacity)).
  destruct Hp as (_&_&_&_&_&?). unfold drain_fuel. change (Z.of_nat kFrameSize) with 64.
  pose proof (Z.mul_succ_div_gt Capacity 64). lia.
Qed.

(** Chunks that always fit behind an incomplete frame. *)
Definition small_chunk (chunk : list Z) : Prop :=
  Forall is_u8 chunk ∧ Z.of_nat (length chunk) ≤ Capacity - (Z.of_nat kFrameSize - 1).

Lemma feed_refines p chunks :
  parser_ok Capacity p → (length (contents Capacity p) < kFrameSize)%nat →
  Forall small_chunk chunks →
  ∃ p', let '(msgs, st, rest) := decode_stream (contents Capacity p ++ concat chunks) in
        feed Capacity p chunks = Some (msgs, st, p') ∧ parser_ok Capacity p' ∧
        (st = NeedMoreData → contents Capacity p' = rest).
Proof using HC.
  revert p. induction chunks as [|chunk chunks IH]; intros p Hp Hlen Hsmall.
  { simpl. rewrite app_nil_r, decode_stream_unfold, decide_True by done. by exists p. }
  apply Forall_cons in Hsmall as [[Hc Hfit] Hsmall]. cbn [feed concat]. rewrite app_assoc.
  destruct (append_refines p chunk Hp Hc) as (b & p1 & -> & Hp1 & Hspec & _).
  unfold spec_append in Hspec. rewrite decide_True in Hspec by lia. simplify_eq.
  match goal with H : contents _ p1 = _ |- _ => rename H into Hc1 end.
  cbn [mbind option_bind negb].
  destruct (drain_refines _ p1 Hp1 (drain_fuel_enough p1 Hp1)) as [p2 Hd].
  rewrite Hc1 in Hd.
  destruct (decode_stream (contents Capacity p ++ chunk)) as [[ms st] rest] eqn:E.
  destruct Hd as (-> & Hp2 & Hc2). cbn [mbind option_bind].
  destruct (decode_stream_app _ (concat chunks) _ _ _ E) as [(-> & Hr & ->)|[-> ->]].
  - rewrite decide_True by done.
    destruct (IH p2 Hp2) as [p3 Hrest]; [by rewrite Hc2|done|]. rewrite Hc2 in Hrest.
    destruct (decode_stream (rest ++ concat chunks)) as [[ms' st'] rest'].
    destruct Hrest as (-> & ? & ?). by exists p3.
  - rewrite decide_False by done. exists p2. by split_and!.
Qed.

End refinement.

(** ** Requests as a client encodes them *)

(** A request a client can send.  [codec.hpp] has no encoder for the control
    messages: a client writes their header only. *)
Inductive request : Set :=
| RNewOrder (h : MessageHeader.t) (o : NewOrder.t)
| RCancelOrder (h : MessageHeader.t) (c : CancelOrder.t)
| RModifyOrder (h : MessageHeader.t) (m : ModifyOrder.t)
| RHeartbeat (h : MessageHeader.t)
| RLogout (h : MessageHeader.t).

Definition request_header (r : request) : MessageHeader.t :=
  match r with
  | RNewOrder h _ | RCancelOrder h _ | RModifyOrder h _ | RHeartbeat h | RLogout h => h
  end.

Definition encode_request (r : request) (out : list Z) : option (list Z) :=
  match r with
  | RNewOrder h o => snd <$> encode_new_order h o out
  | RCancelOrder h c => snd <$> encode_cancel_order h c out
  | RModifyOrder h m => snd <$> encode_modify_order h m out
  | RHeartbeat h => encode_header (stamp MessageType.Heartbeat h) out
  | RLogout h => encode_header (stamp MessageType.Logout h) out
  end.

Definition request_ok (r : request) : Prop :=
  MessageHeader.ok (request_header r) ∧ header_status (request_header r) = DecodeStatus.Ok ∧
  match r with
  | RNewOrder _ o => NewOrder.ok o
  | RCancelOrder _ c => CancelOrder.ok c
  | RModifyOrder _ m => ModifyOrder.ok m
  | RHeartbeat _ | RLogout _ => True
  end.

(** The message the server should see. *)
Definition request_message (r : request) : DecodedMessage.t :=
  let message ty h := DecodedMessage.set_type ty (DecodedMessage.set_header (stamp ty h)
                        DecodedMessage.default) in
  match r with
  | RNewOrder h o => DecodedMessage.set_new_order o (message MessageType.NewOrder h)
  | RCancelOrder h c =>
      DecodedMessage.set_cancel_order (CancelOrder.mk (CancelOrder.client_order_id c) 0 0 0)
        (message MessageType.CancelOrder h)
  | RModifyOrder h m =>
      DecodedMessage.set_modify_order
        (ModifyOrder.mk (ModifyOrder.client_order_id m) (ModifyOrder.new_price m)
           (ModifyOrder.new_quantity m) 0)
        (message MessageType.ModifyOrder h)
  | RHeartbeat h => message MessageType.Heartbeat h
  | RLogout h => message MessageType.Logout h
  end.

(** A frame with a valid request header decodes as its payload does. *)
Lemma parse_frame_header ty h frame out :
  decode_header frame MessageHeader.default = Some (DecodeStatus.Ok, stamp ty h) →
  is_known_request_type ty = true →
  parse_frame frame out =
  match FrameParser.decode_payload ty frame
          (DecodedMessage.set_type ty (DecodedMessage.set_header (stamp ty h) out)) with
  | Some (Some (DecodeStatus.Ok, out)) => Some out
  | _ => None
  end.
Proof.
  intros Hd Hk. unfold parse_frame. rewrite Hd, decide_True; [done|].
  unfold validate_header, expected_payload_size. simpl. by destruct ty.
Qed.

Lemma parse_encoded_request r out frame :
  request_ok r → length out = kFrameSize → Forall is_u8 out →
  encode_request r out = Some frame →
  parse_frame frame DecodedMessage.default = Some (request_message r) ∧
  length frame = kFrameSize ∧ Forall is_u8 frame.
Proof.
  intros (Hh & Hst & Hm) Hout Hu8.
  assert (kFrameSize ≤ length out)%nat as Hge by lia.
  assert (kHeaderSize ≤ length out)%nat as Hge' by (unfold_offsets; lia).
  destruct r as [h o|h c|h m|h|h]; cbn [request_header encode_request] in *.
  - change (msg_ok o) in Hm. destruct (wire_decode_encoded h o out Hh Hm Hge) as (out' & E & Hl & Hdh & Hd).
    pose proof (wire_encode_u8 h o out _ _ Hu8 E) as Hb. wire_fields. rewrite E.
    intros [= <-]. rewrite (parse_frame_header MessageType.NewOrder h) by (by rewrite ?Hdh, ?Hst).
    simpl. rewrite Hd. destruct o as [? s ? ?], Hm as (_ & [_ Hs] & _). simpl in *. rewrite Hs.
    split_and!; [done|lia|done].
  - change (msg_ok c) in Hm. destruct (wire_decode_encoded h c out Hh Hm Hge) as (out' & E & Hl & Hdh & Hd).
    pose proof (wire_encode_u8 h c out _ _ Hu8 E) as Hb. wire_fields. rewrite E.
    intros [= <-]. rewrite (parse_frame_header MessageType.CancelOrder h) by (by rewrite ?Hdh, ?Hst).
    simpl. rewrite Hd. split_and!; [done|lia|done].
  - change (msg_ok m) in Hm. destruct (wire_decode_encoded h m out Hh Hm Hge) as (out' & E & Hl & Hdh & Hd).
    pose proof (wire_encode_u8 h m out _ _ Hu8 E) as Hb. wire_fields. rewrite E.
    intros [= <-]. rewrite (parse_frame_header MessageType.ModifyOrder h) by (by rewrite ?Hdh, ?Hst).
    simpl. rewrite Hd. split_and!; [done|lia|done].
  - rewrite encode_header_spec by done. intros [= <-].
    rewrite (parse_frame_header MessageType.Heartbeat h)
      by (by rewrite ?decode_header_spec, <- ?Hst by (apply stamp_ok; done)).
    split_and!; [done|rewrite length_app, length_header_bytes, length_drop; unfold_offsets; lia|].
    apply Forall_app. auto using Forall_drop with lltg.
  - rewrite encode_header_spec by done. intros [= <-].
    rewrite (parse_frame_header MessageType.Logout h)
      by (by rewrite ?decode_header_spec, <- ?Hst by (apply stamp_ok; done)).
    split_and!; [done|rewrite length_app, length_header_bytes, length_drop; unfold_offsets; lia|].
    apply Forall_app. auto using Forall_drop with lltg.
Qed.

(** The stream of a list of encoded requests decodes to their messages. *)
Lemma decode_stream_requests reqs frames rest :
  Forall2 (λ r f, request_ok r ∧ ∃ out, length out = kFrameSize ∧ Forall is_u8 out ∧
                  encode_request r out = Some f) reqs frames →
  decode_stream (concat frames ++ rest) =
  (let '(msgs, st, rest') := decode_stream rest in ((request_message <$> reqs) ++ msgs, st, rest')) ∧
  Forall is_u8 (concat frames).
Proof.
  induction 1 as [|r f reqs frames (Hr & out & Hout & Hu & E) _ [IH IHu]]; simpl.
  - split; [|done]. by destruct (decode_stream rest) as [[??]?].
  - destruct (parse_encoded_request r out f Hr Hout Hu E) as (Hparse & Hlen & Hf).
    split; [|by apply Forall_app].
    rewrite decode_stream_unfold, decide_False by (rewrite !length_app; lia).
    rewrite <- app_assoc, take_app_length', drop_app_length', Hparse, IH by done.
    by destruct (decode_stream rest) as [[??]?].
Qed.

Lemma parser_ok_empty {Capacity} {HC : FrameCapacity Capacity} :
  parser_ok Capacity (FrameParser.empty Capacity) ∧
  contents Capacity (FrameParser.empty Capacity) = [].
Proof.
  pose proof (capacity_bounds (Capacity:=Capacity)) as Hc. unfold FrameParser.empty.
  split; [|by apply ring_view_empty].
  split_and!; simpl; [rewrite length_replicate; lia|by apply Forall_replicate|done..|].
  unfold FrameParser.size. simpl. change (wrap 64 (0 - 0)) with 0. lia.
Qed.

(** The parser delivers what clients encode. *)
Lemma feed_encoded {Capacity} {HC : FrameCapacity Capacity} reqs frames chunks :
  Forall2 (λ r f, request_ok r ∧ ∃ out, length out = kFrameSize ∧ Forall is_u8 out ∧
                  encode_request r out = Some f) reqs frames →
  concat chunks = concat frames →
  Forall (λ c, Z.of_nat (length c) ≤ Capacity - (Z.of_nat kFrameSize - 1)) chunks →
  ∃ p, feed Capacity (FrameParser.empty Capacity) chunks =
         Some (request_message <$> reqs, NeedMoreData, p) ∧
       contents Capacity p = [].
Proof.
  intros Hreqs Hcat Hfit. destruct (parser_ok_empty (Capacity:=Capacity)) as [Hp Hc].
  destruct (decode_stream_requests reqs frames [] Hreqs) as [Hd Hu].
  rewrite app_nil_r, <- Hcat, decode_stream_unfold in Hd.
  rewrite <- Hcat in Hu. rewrite Forall_concat in Hu.
  destruct (feed_refines (FrameParser.empty Capacity) chunks Hp) as [p1 H1].
  - rewrite Hc. unfold kFrameSize. simpl. lia.
  - apply Forall_and. done.
  - rewrite Hc in H1. simpl app in H1. rewrite decode_stream_unfold, Hd in H1.
    rewrite decode_stream_unfold, decide_True in H1 by (unfold kFrameSize; simpl; lia).
    destruct H1 as (Hf & _ & Hrest). exists p1. rewrite app_nil_r in Hf. auto.
Qed.

(** ** Properties of the parser *)

(** A parser whose counters are about to wrap, with 100 bytes in its ring. *)
Definition sample_parser : FrameParser.t :=
  FrameParser.mk (replicate 128 5) (2 ^ 64 - 64) 36.

(** The frame of the sample order, cut in two, with a log-out behind it. *)
Definition sample_logout : list Z :=
  match encode_header (stamp MessageType.Logout sample_header) sample_span with
  | Some out => out
  | None => []
  end.

Definition sample_chunks : list (list Z) :=
  [take 10 sample_frame; drop 10 sample_frame ++ take 5 sample_logout; drop 5 sample_logout].

(** C22: The parser is a bounded byte queue cut into frames: in every state that
    satisfies the invariant both operations are free of undefined behaviour,
    keep the invariant, and return and store what the specification says;
    a refused append and every result other than a message leave the parser
    as it is. *)
Theorem parser_refines_queue Capacity (HC : FrameCapacity Capacity) p bytes out :
  parser_ok Capacity p → Forall is_u8 bytes →
  (∃ b p', FrameParser.append Capacity p bytes = Some (b, p') ∧ parser_ok Capacity p' ∧
     (b, contents Capacity p') = spec_append Capacity (contents Capacity p) bytes ∧
     (b = false → p' = p)) ∧
  (∃ st p' out', FrameParser.try_parse Capacity p out = Some (st, p', out') ∧
     parser_ok Capacity p' ∧
     (st, contents Capacity p', out') = spec_try_parse (contents Capacity p) out ∧
     (st ≠ MessageReady → p' = p)).
Proof. intros Hp Hb. split; [by apply append_refines|by apply try_parse_refines]. Qed.

Lemma parser_refines_queue_witness :
  ∃ p', FrameParser.append 128 sample_parser (replicate 28 6) = Some (true, p') ∧
        contents 128 p' = replicate 100 5 ++ replicate 28 6.
Proof.
  destruct (parser_refines_queue 128 capacity_128 sample_parser (replicate 28 6)
    DecodedMessage.default ltac:(evaluate) ltac:(evaluate)) as [(b & p' & He & _ & Hs & _) _].
  assert (spec_append 128 (contents 128 sample_parser) (replicate 28 6) =
          (true, replicate 100 5 ++ replicate 28 6)) as E by (vm_compute; reflexivity).
  rewrite E in Hs. injection Hs as -> Hc. exists p'. exact (conj He Hc).
Defined.


(** How the stream is cut into chunks does not matter: any two ways of
    delivering the same bytes give the same messages and the same outcome. *)
Theorem segmentation_irrelevant Capacity (HC : FrameCapacity Capacity) chunks chunks' :
  Forall (small_chunk (Capacity:=Capacity)) chunks →
  Forall (small_chunk (Capacity:=Capacity)) chunks' →
  concat chunks = concat chunks' →
  ∃ msgs st p p',
    feed Capacity (FrameParser.empty Capacity) chunks = Some (msgs, st, p) ∧
    feed Capacity (FrameParser.empty Capacity) chunks' = Some (msgs, st, p') ∧
    st ≠ BufferFull ∧
    (msgs, st) = fst (decode_stream (concat chunks)).
Proof.
  intros Hs Hs' Heq. destruct (parser_ok_empty (Capacity:=Capacity)) as [Hp Hc].
  assert (length (contents Capacity (FrameParser.empty Capacity)) < kFrameSize)%nat as Hlen.
  { rewrite Hc. unfold kFrameSize. simpl. lia. }
  destruct (feed_refines _ _ Hp Hlen Hs) as [p1 H1].
  destruct (feed_refines _ _ Hp Hlen Hs') as [p2 H2].
  rewrite Hc in H1, H2. rewrite <- Heq in H2. simpl in *.
  destruct (decode_stream (concat chunks)) as [[ms st] rest] eqn:E.
  destruct H1 as [-> _], H2 as [-> _]. exists ms, st, p1, p2.
  split_and!; [done..| |done]. by destruct (decode_stream_status _ _ _ _ E) as [->| ->].
Qed.

Lemma segmentation_irrelevant_witness :
  ∃ st p p',
    feed 4096 (FrameParser.empty 4096) sample_chunks =
      Some ([request_message (RNewOrder sample_header sample_order);
             request_message (RLogout sample_header)], st, p) ∧
    feed 4096 (FrameParser.empty 4096) [concat sample_chunks] =
      Some ([request_message (RNewOrder sample_header sample_order);
             request_message (RLogout sample_header)], st, p').
Proof.
  destruct (segmentation_irrelevant 4096 capacity_4096 sample_chunks [concat sample_chunks])
    as (msgs & st & p & p' & H1 & H2 & _ & Hd).
  - unfold small_chunk. evaluate.
  - unfold small_chunk. evaluate.
  - vm_compute. reflexivity.
  - assert (fst (decode_stream (concat sample_chunks)) =
      ([request_message (RNewOrder sample_header sample_order);
        request_message (RLogout sample_header)], NeedMoreData)) as E
      by (vm_compute; reflexivity).
    rewrite E in Hd. injection Hd as -> _. exists st, p, p'. exact (conj H1 H2).
Defined.


(** C23: Requests arrive as they were sent: whatever valid requests a client
    encodes into 64-byte buffers, and however TCP cuts the bytes, the parser
    delivers exactly those requests, in order, and ends with an empty buffer. *)
Theorem requests_delivered Capacity (HC : FrameCapacity Capacity) reqs frames chunks :
  Forall2 (λ r f, request_ok r ∧ ∃ out, length out = kFrameSize ∧ Forall is_u8 out ∧
                  encode_request r out = Some f) reqs frames →
  concat chunks = concat frames →
  Forall (λ c, Z.of_nat (length c) ≤ Capacity - (Z.of_nat kFrameSize - 1)) chunks →
  ∃ p, feed Capacity (FrameParser.empty Capacity) chunks =
         Some (request_message <$> reqs, NeedMoreData, p) ∧
       contents Capacity p = [].
Proof. by apply feed_encoded. Qed.

Lemma requests_delivered_witness :
  ∃ p, feed 128 (FrameParser.empty 128) sample_chunks =
         Some ([request_message (RNewOrder sample_header sample_order);
                request_message (RLogout sample_header)], NeedMoreData, p) ∧
       contents 128 p = [].
Proof.
  apply (requests_delivered 128 capacity_128
    [RNewOrder sample_header sample_order; RLogout sample_header]
    [sample_frame; sample_logout] sample_chunks).
  - repeat constructor; try evaluate;
      (exists sample_span; split; [vm_compute; reflexivity|split; [evaluate|vm_compute; reflexivity]]).
  - vm_compute. reflexivity.
  - evaluate.
Defined.


(** An invalid frame is never consumed: from then on the parser answers
    [ProtocolError] whatever else is appended, until it is full. *)
Theorem protocol_error_sticks Capacity (HC : FrameCapacity Capacity) p out out1 p1 more p2 b :
  parser_ok Capacity p → Forall is_u8 more →
  FrameParser.try_parse Capacity p out = Some (ProtocolError, p1, out1) →
  FrameParser.append Capacity p1 more = Some (b, p2) →
  ∀ out2, FrameParser.try_parse Capacity p2 out2 = Some (ProtocolError, p2, out2).
Proof.
  intros Hp Hm Ht Ha out2.
  destruct (try_parse_refines p out Hp) as (? & ? & ? & E & Hp1 & Hs1 & Hsame).
  rewrite Ht in E. injection E as <- <- <-. rewrite Hsame in * by done.
  destruct (append_refines p more Hp Hm) as (? & ? & E & Hp2 & Hs2 & _).
  rewrite Ha in E. injection E as <- <-.
  unfold spec_try_parse in Hs1. case_decide as Hlen; [done|].
  destruct (parse_frame _ _) eqn:Hbad; [done|]. clear Hs1.
  assert (kFrameSize ≤ length (contents Capacity p))%nat as Hge by lia.
  assert (take kFrameSize (contents Capacity p2) = take kFrameSize (contents Capacity p) ∧
          (kFrameSize ≤ length (contents Capacity p2))%nat) as [Htake Hlen2].
  { unfold spec_append in Hs2. case_decide; simplify_eq.
    - match goal with H : contents _ p2 = _ |- _ => rewrite H end.
      rewrite take_app_le, length_app by done. split; [done|lia].
    - match goal with H : contents _ p2 = _ |- _ => by rewrite H end. }
  destruct (try_parse_refines p2 out2 Hp2) as (st & p3 & out3 & -> & _ & Hs3 & Hsame3).
  unfold spec_try_parse in Hs3. rewrite decide_False, Htake in Hs3 by lia.
  rewrite (parse_frame_None _ out out2) in Hs3; simplify_eq; try done.
  - by rewrite Hsame3.
  - by apply Forall_take, contents_u8.
  - rewrite length_take. lia.
Qed.

Lemma protocol_error_sticks_witness :
  ∃ p2, FrameParser.append 128 sample_parser [1; 2; 3] = Some (true, p2) ∧
    FrameParser.try_parse 128 p2 DecodedMessage.default =
      Some (ProtocolError, p2, DecodedMessage.default).
Proof.
  eexists. split; [vm_compute; reflexivity|].
  apply (protocol_error_sticks 128 capacity_128 sample_parser DecodedMessage.default
    DecodedMessage.default sample_parser [1; 2; 3] _ true); [evaluate|evaluate|..];
    vm_compute; reflexivity.
Defined.

