(* ===== verification/Session.v ===== *)
(** * The order-entry session

    Models [core/order_entry/include/lltg/order_entry/session.hpp]: sequence
    and order-id validation of decoded requests, with one binary response per
    request.  The [std::unordered_map] of active orders is a finite map. *)

From S2P Require Import Prelude Protocol Codec Wire FrameParser Stream.

Module OrderEntrySession.

Record t : Set := mk {
  session_id_ : Z;
  expected_sequence_number_ : Z;
  next_order_handle_ : Z;
  orders_ : gmap Z Z
}.

(** [OrderEntrySession(session_id)] *)
Definition make (session_id : Z) : t := mk session_id 1 1 ∅.

Definition expected_sequence_number (s : t) : Z := expected_sequence_number_ s.
Definition active_order_count (s : t) : Z := u64 (Z.of_nat (size (orders_ s))).

Definition set_expected_sequence_number (n : Z) (s : t) : t :=
  mk (session_id_ s) n (next_order_handle_ s) (orders_ s).
Definition set_next_order_handle (n : Z) (s : t) : t :=
  mk (session_id_ s) (expected_sequence_number_ s) n (orders_ s).
Definition set_orders (o : gmap Z Z) (s : t) : t :=
  mk (session_id_ s) (expected_sequence_number_ s) (next_order_handle_ s) o.

(** The header of a response: the request's, with the session's own id when
    it has one. *)
Definition response_header (s : t) (request_header : MessageHeader.t) : MessageHeader.t :=
  MessageHeader.set_session_id
    (if decide (session_id_ s = 0) then MessageHeader.session_id request_header
     else session_id_ s) request_header.

Definition encode_reject (s : t) (request_header : MessageHeader.t) (client_order_id : Z)
    (reason : RejectReason.t) (response_out : list Z) : option (list Z) :=
  let response := Rejected.mk client_order_id reason (Rejected.reserved1 Rejected.default)
                    (Rejected.reserved2 Rejected.default) in
  snd <$> encode_rejected (response_header s request_header) response response_out.

Definition encode_accept (s : t) (request_header : MessageHeader.t) (client_order_id : Z)
    (order_handle : Z) (response_out : list Z) : option (list Z) :=
  let response := Accepted.mk client_order_id order_handle (Accepted.reserved1 Accepted.default)
                    (Accepted.reserved2 Accepted.default) in
  snd <$> encode_accepted (response_header s request_header) response response_out.

Definition encode_cancel (s : t) (request_header : MessageHeader.t) (client_order_id : Z)
    (order_handle : Z) (response_out : list Z) : option (list Z) :=
  let response := Cancelled.mk client_order_id order_handle (Cancelled.reserved1 Cancelled.default)
                    (Cancelled.reserved2 Cancelled.default) in
  snd <$> encode_cancelled (response_header s request_header) response response_out.

Definition encode_modify (s : t) (request_header : MessageHeader.t) (client_order_id : Z)
    (order_handle : Z) (response_out : list Z) : option (list Z) :=
  let response := Modified.mk client_order_id order_handle (Modified.reserved1 Modified.default)
                    (Modified.reserved2 Modified.default) in
  snd <$> encode_modified (response_header s request_header) response response_out.

(** Whether the sequence number is the expected one, the session and the
    response span afterwards. *)
Definition check_sequence_or_reject (s : t) (msg : DecodedMessage.t) (client_order_id : Z)
    (response_out : list Z) : option (bool * t * list Z) :=
  if decide (MessageHeader.sequence_number (DecodedMessage.header msg)
             ≠ expected_sequence_number_ s) then
    out ← encode_reject s (DecodedMessage.header msg) client_order_id RejectReason.BadSequence
            response_out;
    Some (false, s, out)
  else
    Some (true, set_expected_sequence_number (expected_sequence_number_ s +₆₄ 1) s, response_out).

Definition handle_message (s : t) (msg : DecodedMessage.t) (response_out : list Z)
    : option (bool * t * list Z) :=
  let header := DecodedMessage.header msg in
  match DecodedMessage.type msg with
  | MessageType.NewOrder =>
      let order := DecodedMessage.new_order msg in
      let client_order_id := NewOrder.client_order_id order in
      '(ok, s, out) ← check_sequence_or_reject s msg client_order_id response_out;
      if negb ok then Some (true, s, out)
      else if decide (NewOrder.price order = 0) then
        out ← encode_reject s header client_order_id RejectReason.InvalidPrice out;
        Some (true, s, out)
      else if decide (NewOrder.quantity order = 0) then
        out ← encode_reject s header client_order_id RejectReason.InvalidQuantity out;
        Some (true, s, out)
      else match orders_ s !! client_order_id with
      | Some _ =>
          out ← encode_reject s header client_order_id RejectReason.DuplicateClientOrderId out;
          Some (true, s, out)
      | None =>
          let order_handle := next_order_handle_ s in
          let s := set_next_order_handle (next_order_handle_ s +₆₄ 1) s in
          let s := set_orders (<[client_order_id := order_handle]> (orders_ s)) s in
          out ← encode_accept s header client_order_id order_handle out;
          Some (true, s, out)
      end
  | MessageType.CancelOrder =>
      let client_order_id := CancelOrder.client_order_id (DecodedMessage.cancel_order msg) in
      '(ok, s, out) ← check_sequence_or_reject s msg client_order_id response_out;
      if negb ok then Some (true, s, out)
      else match orders_ s !! client_order_id with
      | None =>
          out ← encode_reject s header client_order_id RejectReason.UnknownClientOrderId out;
          Some (true, s, out)
      | Some order_handle =>
          let s := set_orders (delete client_order_id (orders_ s)) s in
          out ← encode_cancel s header client_order_id order_handle out;
          Some (true, s, out)
      end
  | MessageType.ModifyOrder =>
      let order := DecodedMessage.modify_order msg in
      let client_order_id := ModifyOrder.client_order_id order in
      '(ok, s, out) ← check_sequence_or_reject s msg client_order_id response_out;
      if negb ok then Some (true, s, out)
      else match orders_ s !! client_order_id with
      | None =>
          out ← encode_reject s header client_order_id RejectReason.UnknownClientOrderId out;
          Some (true, s, out)
      | Some order_handle =>
          if decide (ModifyOrder.new_price order = 0) then
            out ← encode_reject s header client_order_id RejectReason.InvalidPrice out;
            Some (true, s, out)
          else if decide (ModifyOrder.new_quantity order = 0) then
            out ← encode_reject s header client_order_id RejectReason.InvalidQuantity out;
            Some (true, s, out)
          else
            out ← encode_modify s header client_order_id order_handle out;
            Some (true, s, out)
      end
  | MessageType.Heartbeat =>
      '(ok, s, out) ← check_sequence_or_reject s msg 0 response_out;
      if negb ok then Some (true, s, out)
      else
        out ← encode_accept s header 0 0 out;
        Some (true, s, out)
  | MessageType.Logout =>
      '(ok, s, out) ← check_sequence_or_reject s msg 0 response_out;
      if negb ok then Some (true, s, out)
      else
        out ← encode_accept s header 0 0 out;
        Some (false, s, out)
  | _ =>
      out ← encode_reject s header 0 RejectReason.UnsupportedMessageType response_out;
      Some (true, s, out)
  end.

End OrderEntrySession.

Import OrderEntrySession.

(** ** Specification: a sequence counter and an order book of ids

    The abstract session separates what the code interleaves: whether the
    sequence number is the next one, the verdict of the book on an in-order
    request, and the change a verdict makes to the book. *)

Inductive reply : Set :=
| Reject (client_order_id : Z) (reason : RejectReason.t)
| Accept (client_order_id order_handle : Z)
| CancelAck (client_order_id order_handle : Z)
| ModifyAck (client_order_id order_handle : Z).

#[global] Instance reply_eq_dec : EqDecision reply.
Proof. solve_decision. Defined.

(** The order a request is about (0 for control messages). *)
Definition subject (msg : DecodedMessage.t) : Z :=
  match DecodedMessage.type msg with
  | MessageType.NewOrder => NewOrder.client_order_id (DecodedMessage.new_order msg)
  | MessageType.CancelOrder => CancelOrder.client_order_id (DecodedMessage.cancel_order msg)
  | MessageType.ModifyOrder => ModifyOrder.client_order_id (DecodedMessage.modify_order msg)
  | _ => 0
  end.

(** Price and quantity of the requests that have them. *)
Definition terms (msg : DecodedMessage.t) : option (Z * Z) :=
  match DecodedMessage.type msg with
  | MessageType.NewOrder => Some (NewOrder.price (DecodedMessage.new_order msg),
                                  NewOrder.quantity (DecodedMessage.new_order msg))
  | MessageType.ModifyOrder => Some (ModifyOrder.new_price (DecodedMessage.modify_order msg),
                                     ModifyOrder.new_quantity (DecodedMessage.modify_order msg))
  | _ => None
  end.

(** The reason to refuse terms, price first. *)
Definition bad_terms (msg : DecodedMessage.t) : option RejectReason.t :=
  match terms msg with
  | Some (price, quantity) =>
      if decide (price = 0) then Some RejectReason.InvalidPrice
      else if decide (quantity = 0) then Some RejectReason.InvalidQuantity else None
  | None => None
  end.

(** The answer to an in-order request; [fresh] is the next order handle.  A
    new order is checked for its terms before the book, a modification after. *)
Definition verdict (book : gmap Z Z) (fresh : Z) (msg : DecodedMessage.t) : reply :=
  let id := subject msg in
  match DecodedMessage.type msg with
  | MessageType.NewOrder =>
      match bad_terms msg, book !! id with
      | Some reason, _ => Reject id reason
      | None, Some _ => Reject id RejectReason.DuplicateClientOrderId
      | None, None => Accept id fresh
      end
  | MessageType.CancelOrder =>
      match book !! id with
      | None => Reject id RejectReason.UnknownClientOrderId
      | Some handle => CancelAck id handle
      end
  | MessageType.ModifyOrder =>
      match book !! id, bad_terms msg with
      | None, _ => Reject id RejectReason.UnknownClientOrderId
      | Some _, Some reason => Reject id reason
      | Some handle, None => ModifyAck id handle
      end
  | _ => Accept 0 0
  end.

(** The session after an in-order request was answered with [r]. *)
Definition settle (s : t) (msg : DecodedMessage.t) (r : reply) : t :=
  let s := set_expected_sequence_number (expected_sequence_number_ s +₆₄ 1) s in
  match DecodedMessage.type msg, r with
  | MessageType.NewOrder, Accept id handle =>
      set_orders (<[id := handle]> (orders_ s)) (set_next_order_handle (handle +₆₄ 1) s)
  | MessageType.CancelOrder, CancelAck id _ => set_orders (delete id (orders_ s)) s
  | _, _ => s
  end.

(** The reply, the session afterwards and whether it stays open. *)
Definition spec_handle (s : t) (msg : DecodedMessage.t) : reply * t * bool :=
  if negb (is_known_request_type (DecodedMessage.type msg)) then
    (Reject 0 RejectReason.UnsupportedMessageType, s, true)
  else if decide (MessageHeader.sequence_number (DecodedMessage.header msg)
                  = expected_sequence_number_ s) then
    let r := verdict (orders_ s) (next_order_handle_ s) msg in
    (r, settle s msg r, negb (bool_decide (DecodedMessage.type msg = MessageType.Logout)))
  else (Reject (subject msg) RejectReason.BadSequence, s, true).

(** The frame of a reply to a request with header [h]. *)
Definition reply_type (r : reply) : MessageType.t :=
  match r with
  | Reject _ _ => MessageType.Rejected
  | Accept _ _ => MessageType.Accepted
  | CancelAck _ _ => MessageType.Cancelled
  | ModifyAck _ _ => MessageType.Modified
  end.

Definition reply_words (r : reply) : list Z :=
  match r with
  | Reject id reason => [id; RejectReason.to_u64 reason; 0; 0]
  | Accept id handle | CancelAck id handle | ModifyAck id handle => [id; handle; 0; 0]
  end.

Definition reply_frame (s : t) (h : MessageHeader.t) (r : reply) : list Z :=
  header_bytes (stamp (reply_type r) (response_header s h)) ++ words (reply_words r).

(** ** The code computes the specification *)

(** The encoder of a reply. *)
Definition encode_reply (s : t) (h : MessageHeader.t) (r : reply) (out : list Z) : option (list Z) :=
  match r with
  | Reject id reason => encode_reject s h id reason out
  | Accept id handle => encode_accept s h id handle out
  | CancelAck id handle => encode_cancel s h id handle out
  | ModifyAck id handle => encode_modify s h id handle out
  end.

Lemma encode_reply_spec s h r out :
  encode_reply s h r out =
  if decide (kFrameSize ≤ length out)%nat
  then Some (reply_frame s h r ++ drop kFrameSize out) else None.
Proof.
  destruct r as [id reason|id handle|id handle|id handle].
  - exact (wire_encode_frame (M:=Rejected.t) _ _ _ eq_refl).
  - exact (wire_encode_frame (M:=Accepted.t) _ _ _ eq_refl).
  - exact (wire_encode_frame (M:=Cancelled.t) _ _ _ eq_refl).
  - exact (wire_encode_frame (M:=Modified.t) _ _ _ eq_refl).
Qed.

(** The code encodes one reply, with the state the specification says; the
    response header depends on the session only through its id. *)
Lemma handle_message_reply s msg out :
  handle_message s msg out =
  (let '(r, s', open) := spec_handle s msg in
   out ← encode_reply s (DecodedMessage.header msg) r out;
   Some (open, s', out)).
Proof.
  unfold handle_message, spec_handle, verdict, settle, bad_terms, terms, subject,
    check_sequence_or_reject.
  destruct (DecodedMessage.type msg); cbn [is_known_request_type negb]; try done.
  all: destruct (decide (MessageHeader.sequence_number (DecodedMessage.header msg) =
                         expected_sequence_number_ s)) as [He|Hne];
    [rewrite decide_False by auto | rewrite decide_True by done];
    cbn [mbind option_bind negb encode_reply];
    [|match goal with |- context [encode_reject ?a ?b ?c ?d ?e] =>
        by destruct (encode_reject a b c d e) end].
  all: cbn [orders_ set_expected_sequence_number next_order_handle_].
  - do 2 (case_decide; [done|]). by destruct (orders_ s !! _).
  - by destruct (orders_ s !! _).
  - destruct (orders_ s !! _); [|done]. do 2 (case_decide; [done|]). done.
  - done.
  - done.
Qed.

(** ** What a client reads *)

(** A client's reading of a response frame. *)
Definition decode_reply (inp : list Z) : option reply :=
  '(st, h) ← decode_header inp MessageHeader.default;
  if decide (st = DecodeStatus.Ok ∧ validate_response_header h = DecodeStatus.Ok) then
    match MessageHeader.message_type h with
    | MessageType.Rejected =>
        '(_, r) ← decode_rejected inp Rejected.default;
        Some (Reject (Rejected.client_order_id r) (Rejected.reason r))
    | MessageType.Accepted =>
        '(_, r) ← decode_accepted inp Accepted.default;
        Some (Accept (Accepted.client_order_id r) (Accepted.order_handle r))
    | MessageType.Cancelled =>
        '(_, r) ← decode_cancelled inp Cancelled.default;
        Some (CancelAck (Cancelled.client_order_id r) (Cancelled.order_handle r))
    | MessageType.Modified =>
        '(_, r) ← decode_modified inp Modified.default;
        Some (ModifyAck (Modified.client_order_id r) (Modified.order_handle r))
    | _ => None
    end
  else None.

Definition reply_ok (r : reply) : Prop :=
  match r with
  | Reject id reason => is_u64 id ∧ RejectReason.ok reason
  | Accept id handle | CancelAck id handle | ModifyAck id handle => is_u64 id ∧ is_u64 handle
  end.

(** A decoded request whose members are in the ranges of their types and
    whose header passed [decode_header]. *)
Definition message_ok (msg : DecodedMessage.t) : Prop :=
  MessageHeader.ok (DecodedMessage.header msg) ∧
  header_status (DecodedMessage.header msg) = DecodeStatus.Ok ∧ is_u64 (subject msg).

#[global] Instance message_ok_dec msg : Decision (message_ok msg).
Proof. unfold message_ok. apply _. Defined.

Lemma response_header_ok s h :
  is_u64 (session_id_ s) → MessageHeader.ok h → MessageHeader.ok (response_header s h).
Proof.
  intros Hs (?&?&?&?&?&?&?&?). unfold response_header. by case_decide.
Qed.

Lemma decode_reply_frame s h r rest :
  is_u64 (session_id_ s) → MessageHeader.ok h → header_status h = DecodeStatus.Ok → reply_ok r →
  decode_reply (reply_frame s h r ++ rest) = Some r.
Proof.
  intros Hs Hh Hst Hr. pose proof (response_header_ok s h Hs Hh) as Hrh.
  assert (MessageHeader.ok (stamp (reply_type r) (response_header s h))) as Hsh.
  { apply stamp_ok; [by destruct r|done]. }
  assert (is_u64 0) as H0 by evaluate.
  unfold decode_reply, reply_frame. rewrite <- app_assoc, decode_header_spec by done.
  change (header_status (stamp _ _)) with (header_status h). rewrite Hst.
  cbn [mbind option_bind]. rewrite decide_True by by destruct r.
  assert (∀ id w, is_u64 id → is_u64 w → Forall is_u64 [id; w; 0; 0]) as Hw.
  { intros. repeat (apply Forall_cons; split; [done|]). done. }
  destruct r as [id reason|id handle|id handle|id handle];
    cbn [stamp reply_type reply_words reply_ok MessageHeader.message_type
         MessageHeader.set_payload_length MessageHeader.set_message_type] in *;
    destruct Hr as [Hid Hv].
  - destruct Hv as [Hv Hv'].
    pose proof (wire_decode_frame (M:=Rejected.t) (stamp MessageType.Rejected (response_header s h))
      [id; RejectReason.to_u64 reason; 0; 0] rest Rejected.default eq_refl eq_refl (Hw _ _ Hid Hv)) as E.
    wire_fields. rewrite E. simpl. by rewrite Hv'.
  - pose proof (wire_decode_frame (M:=Accepted.t) (stamp MessageType.Accepted (response_header s h))
      [id; handle; 0; 0] rest Accepted.default eq_refl eq_refl (Hw _ _ Hid Hv)) as E.
    wire_fields. by rewrite E.
  - pose proof (wire_decode_frame (M:=Cancelled.t) (stamp MessageType.Cancelled (response_header s h))
      [id; handle; 0; 0] rest Cancelled.default eq_refl eq_refl (Hw _ _ Hid Hv)) as E.
    wire_fields. by rewrite E.
  - pose proof (wire_decode_frame (M:=Modified.t) (stamp MessageType.Modified (response_header s h))
      [id; handle; 0; 0] rest Modified.default eq_refl eq_refl (Hw _ _ Hid Hv)) as E.
    wire_fields. by rewrite E.
Qed.

(** ** Invariant *)

(** Every order has a handle that was handed out, no two orders share one, and
    no more handles than sequence numbers were used. *)
Definition session_ok (s : t) : Prop :=
  is_u64 (session_id_ s) ∧ is_u64 (expected_sequence_number_ s) ∧
  1 ≤ next_order_handle_ s ≤ expected_sequence_number_ s ∧
  map_Forall (λ _ handle, 1 ≤ handle < next_order_handle_ s) (orders_ s) ∧
  (∀ id id' handle, orders_ s !! id = Some handle → orders_ s !! id' = Some handle → id = id').

Lemma session_ok_make sid : is_u64 sid → session_ok (make sid).
Proof.
  intros Hsid. refine (conj Hsid (conj _ (conj _ (conj (map_Forall_empty _) _)))).
  - evaluate.
  - simpl. lia.
  - intros id id' handle Hid. simpl in Hid. by rewrite lookup_empty in Hid.
Qed.

(** The verdict of a sound book is in range. *)
Lemma verdict_ok s msg :
  session_ok s → is_u64 (subject msg) →
  reply_ok (verdict (orders_ s) (next_order_handle_ s) msg).
Proof.
  intros (Hsid & Hseq & Hnext & Hbook & _) Hsub.
  assert (∀ id handle, orders_ s !! id = Some handle → is_u64 handle) as Hh.
  { intros id handle Hid. apply Hbook in Hid. simpl in Hid. split; [lia|].
    destruct Hseq. lia. }
  assert (is_u64 (next_order_handle_ s)) by (split; [lia|destruct Hseq; lia]).
  unfold verdict, bad_terms.
  destruct (DecodedMessage.type msg), (orders_ s !! subject msg) eqn:E;
    repeat case_match; simplify_eq/=; split; eauto; evaluate.
Qed.

Lemma session_ok_advance s :
  session_ok s → expected_sequence_number_ s + 1 < 2 ^ 64 →
  session_ok (set_expected_sequence_number (expected_sequence_number_ s +₆₄ 1) s).
Proof.
  intros (Hsid & [Hlo Hhi] & Hnext & Hbook & Hinj) Hroom.
  rewrite wrap_uint by (split; lia).
  refine (conj Hsid (conj _ (conj _ (conj Hbook Hinj)))); simpl; [split; lia|lia].
Qed.

Lemma session_ok_insert s id :
  session_ok s → orders_ s !! id = None → next_order_handle_ s < expected_sequence_number_ s →
  session_ok (set_orders (<[id := next_order_handle_ s]> (orders_ s))
                (set_next_order_handle (next_order_handle_ s +₆₄ 1) s)).
Proof.
  intros (Hsid & Hseq & Hnext & Hbook & Hinj) Hid Hlt. pose proof Hseq as [_ Hhi].
  rewrite wrap_uint by (split; lia).
  refine (conj Hsid (conj Hseq (conj _ (conj _ _)))); simpl; [lia| |].
  - apply map_Forall_insert_2; [lia|]. eapply map_Forall_impl; [exact Hbook|]. simpl. lia.
  - intros i j h Hi Hj. rewrite lookup_insert in Hi, Hj.
    repeat case_decide; simplify_eq; try done; try by eapply Hinj.
    + apply Hbook in Hi. simpl in Hi. lia.
    + apply Hbook in Hj. simpl in Hj. lia.
Qed.

Lemma session_ok_delete s id :
  session_ok s → session_ok (set_orders (delete id (orders_ s)) s).
Proof.
  intros (Hsid & Hseq & Hnext & Hbook & Hinj).
  refine (conj Hsid (conj Hseq (conj Hnext (conj _ _)))); simpl.
  - by apply map_Forall_delete.
  - intros i j h Hi Hj. apply lookup_delete_Some in Hi as [_ Hi].
    apply lookup_delete_Some in Hj as [_ Hj]. by eapply Hinj.
Qed.

(** The verdict of a new order that is accepted. *)
Lemma verdict_new_order s msg id handle :
  DecodedMessage.type msg = MessageType.NewOrder →
  verdict (orders_ s) (next_order_handle_ s) msg = Accept id handle →
  id = subject msg ∧ handle = next_order_handle_ s ∧ orders_ s !! id = None.
Proof.
  intros Hty. unfold verdict. rewrite Hty.
  destruct (bad_terms msg), (orders_ s !! subject msg) eqn:E; intros; by simplify_eq.
Qed.

Lemma settle_ok s msg :
  session_ok s → expected_sequence_number_ s + 1 < 2 ^ 64 →
  session_ok (settle s msg (verdict (orders_ s) (next_order_handle_ s) msg)) ∧
  expected_sequence_number_ (settle s msg (verdict (orders_ s) (next_order_handle_ s) msg)) =
  expected_sequence_number_ s + 1.
Proof.
  intros Hs Hroom. pose proof (session_ok_advance s Hs Hroom) as Ha.
  assert (expected_sequence_number_ s +₆₄ 1 = expected_sequence_number_ s + 1) as Hn.
  { apply wrap_uint. destruct Hs as (_ & [? _] & _). split; lia. }
  unfold settle. destruct (verdict _ _ _) eqn:Hv; destruct (DecodedMessage.type msg) eqn:Hty;
    try (split; [exact Ha|exact Hn]).
  - apply verdict_new_order in Hv as (-> & -> & Hid); [|done].
    split; [|exact Hn]. apply (session_ok_insert _ _ Ha Hid). simpl. rewrite Hn.
    destruct Hs as (_ & _ & ? & _). lia.
  - split; [|exact Hn]. apply (session_ok_delete _ _ Ha).
Qed.

Lemma spec_handle_ok s msg :
  session_ok s → is_u64 (subject msg) → expected_sequence_number_ s + 1 < 2 ^ 64 →
  let '(r, s', open) := spec_handle s msg in
  session_ok s' ∧ reply_ok r ∧ session_id_ s' = session_id_ s ∧
  expected_sequence_number_ s' ≤ expected_sequence_number_ s + 1.
Proof.
  intros Hs Hsub Hroom. unfold spec_handle.
  assert (∀ id reason, is_u64 id → RejectReason.ok reason → reply_ok (Reject id reason)) as Hrej
    by (intros; by split).
  destruct (is_known_request_type _); cbn [negb];
    [case_decide|]; (split; [|split; [|split]]); try done; try lia.
  - by apply settle_ok.
  - by apply verdict_ok.
  - unfold settle. by repeat case_match.
  - rewrite (proj2 (settle_ok s msg Hs Hroom)). lia.
Qed.

(** ** A session serving a list of requests *)

(** Each request is answered into a fresh frame until the session closes. *)
Fixpoint serve (s : t) (msgs : list DecodedMessage.t) : option (list (list Z) * t) :=
  match msgs with
  | [] => Some ([], s)
  | msg :: msgs =>
      '(open, s, frame) ← handle_message s msg (replicate kFrameSize 0);
      if open : bool then
        '(frames, s) ← serve s msgs;
        Some (frame :: frames, s)
      else Some ([frame], s)
  end.

(** The replies of that session. *)
Fixpoint spec_serve (s : t) (msgs : list DecodedMessage.t) : list reply * t :=
  match msgs with
  | [] => ([], s)
  | msg :: msgs =>
      let '(r, s, open) := spec_handle s msg in
      if open : bool then let '(rs, s) := spec_serve s msgs in (r :: rs, s) else ([r], s)
  end.

(** The book a client can keep from the replies it reads; handle 0 is the
    answer to control messages. *)
Definition book_step (book : gmap Z Z) (r : reply) : gmap Z Z :=
  match r with
  | Accept id handle => if decide (handle = 0) then book else <[id := handle]> book
  | CancelAck id _ => delete id book
  | Reject _ _ | ModifyAck _ _ => book
  end.

Definition replay (rs : list reply) : gmap Z Z := foldl book_step ∅ rs.

(** An acknowledgement names the handle the book has for the order, and a new
    order's handle is not in it. *)
Definition consistent (book : gmap Z Z) (r : reply) : Prop :=
  match r with
  | Accept id handle => handle = 0 ∨ book !! id = None ∧ map_Forall (λ _ h, h ≠ handle) book
  | CancelAck id handle | ModifyAck id handle => book !! id = Some handle
  | Reject _ _ => True
  end.

Fixpoint all_consistent (book : gmap Z Z) (rs : list reply) : Prop :=
  match rs with
  | [] => True
  | r :: rs => consistent book r ∧ all_consistent (book_step book r) rs
  end.

Lemma spec_handle_book s msg :
  session_ok s → let '(r, s', _) := spec_handle s msg in
  orders_ s' = book_step (orders_ s) r ∧ consistent (orders_ s) r.
Proof.
  intros Hs. unfold spec_handle.
  destruct (is_known_request_type _) eqn:Hk; cbn [negb]; [|done].
  case_decide; [|done].
  assert (map_Forall (λ _ h, h ≠ next_order_handle_ s) (orders_ s)) as Hfresh.
  { eapply map_Forall_impl; [apply Hs|]. simpl. lia. }
  unfold settle, verdict. destruct (DecodedMessage.type msg); try done.
  - destruct (bad_terms msg), (orders_ s !! subject msg) eqn:E; try done. simpl.
    rewrite decide_False by (destruct Hs as (_ & _ & ? & _); lia). auto.
  - by destruct (orders_ s !! subject msg) eqn:E.
  - by destruct (orders_ s !! subject msg) eqn:E, (bad_terms msg).
  - simpl. auto.
  - simpl. auto.
Qed.

(** ** Serving *)

Lemma handle_message_frame s msg out r s' open :
  spec_handle s msg = (r, s', open) → (kFrameSize ≤ length out)%nat →
  handle_message s msg out =
  Some (open, s', reply_frame s (DecodedMessage.header msg) r ++ drop kFrameSize out).
Proof.
  intros E Hlen. by rewrite handle_message_reply, E, encode_reply_spec, decide_True by done.
Qed.

Lemma serve_spec s msgs :
  session_ok s → Forall message_ok msgs →
  expected_sequence_number_ s + Z.of_nat (length msgs) < 2 ^ 64 →
  let '(rs, s') := spec_serve s msgs in
  session_ok s' ∧
  ∃ frames, serve s msgs = Some (frames, s') ∧ mapM decode_reply frames = Some rs.
Proof.
  revert s. induction msgs as [|msg msgs IH]; intros s Hs Hm Hroom.
  { split; [done|]. by exists []. }
  apply Forall_cons in Hm as [(Hh & Hst & Hsub) Hm]. simpl length in Hroom.
  pose proof (spec_handle_ok s msg Hs Hsub ltac:(lia)) as Hok. cbn [spec_serve serve].
  destruct (spec_handle s msg) as [[r s1] open] eqn:E. destruct Hok as (Hs1 & Hr & _ & Hseq).
  pose proof (decode_reply_frame s (DecodedMessage.header msg) r [] (proj1 Hs) Hh Hst Hr) as Hd.
  rewrite (handle_message_frame _ _ _ _ _ _ E) by (by rewrite length_replicate).
  rewrite (drop_ge (replicate _ _)) by (by rewrite length_replicate). cbn [mbind option_bind].
  destruct open.
  - specialize (IH s1 Hs1 Hm ltac:(lia)). destruct (spec_serve s1 msgs) as [rs s2].
    destruct IH as (Hs2 & frames & -> & Hrs). split; [done|]. eexists. split; [done|].
    cbn [mapM mbind option_bind]. rewrite Hd. cbn [mbind option_bind]. by rewrite Hrs.
  - split; [done|]. eexists. split; [done|]. cbn [mapM mbind option_bind]. by rewrite Hd.
Qed.

Lemma spec_serve_book s msgs :
  session_ok s → Forall message_ok msgs →
  expected_sequence_number_ s + Z.of_nat (length msgs) < 2 ^ 64 →
  let '(rs, s') := spec_serve s msgs in
  orders_ s' = foldl book_step (orders_ s) rs ∧ all_consistent (orders_ s) rs.
Proof.
  revert s. induction msgs as [|msg msgs IH]; intros s Hs Hm Hroom; [done|].
  apply Forall_cons in Hm as [(_ & _ & Hsub) Hm]. simpl length in Hroom.
  pose proof (spec_handle_ok s msg Hs Hsub ltac:(lia)) as Hok.
  pose proof (spec_handle_book s msg Hs) as Hbook. cbn [spec_serve].
  destruct (spec_handle s msg) as [[r s1] [|]]; destruct Hbook as [Hbook Hcons]; [|by split].
  destruct Hok as (Hs1 & _ & _ & Hseq). specialize (IH s1 Hs1 Hm ltac:(lia)).
  destruct (spec_serve s1 msgs) as [rs s2]. rewrite Hbook in IH. by destruct IH.
Qed.

(** Requests numbered consecutively from [n] on. *)
Fixpoint numbered (n : Z) (msgs : list DecodedMessage.t) : Prop :=
  match msgs with
  | [] => True
  | msg :: msgs =>
      MessageHeader.sequence_number (DecodedMessage.header msg) = n ∧ numbered (n + 1) msgs
  end.

Definition is_reason (reason : RejectReason.t) (r : reply) : Prop :=
  match r with Reject _ reason' => reason' = reason | _ => False end.

Lemma verdict_not_sequence book fresh msg :
  ¬ is_reason RejectReason.BadSequence (verdict book fresh msg) ∧
  ¬ is_reason RejectReason.UnsupportedMessageType (verdict book fresh msg).
Proof. unfold verdict, bad_terms. split; intros Hr; repeat case_match; simplify_eq/=; done. Qed.

Lemma spec_serve_in_order s msgs :
  Forall (λ m, is_known_request_type (DecodedMessage.type m) = true) msgs →
  0 ≤ expected_sequence_number_ s →
  expected_sequence_number_ s + Z.of_nat (length msgs) < 2 ^ 64 →
  numbered (expected_sequence_number_ s) msgs →
  Forall (λ r, ¬ is_reason RejectReason.BadSequence r ∧
               ¬ is_reason RejectReason.UnsupportedMessageType r) (spec_serve s msgs).1.
Proof.
  revert s. induction msgs as [|msg msgs IH]; intros s Hk Hpos Hroom Hnum; [constructor|].
  apply Forall_cons in Hk as [Hk Hks]. simpl length in Hroom. destruct Hnum as [Hn Hnum].
  cbn [spec_serve]. unfold spec_handle. rewrite Hk, decide_True by done. cbn [negb].
  set (r := verdict _ _ _). pose proof (verdict_not_sequence (orders_ s) (next_order_handle_ s) msg) as Hv.
  destruct (negb _); [|by constructor].
  assert (expected_sequence_number_ (settle s msg r) = expected_sequence_number_ s + 1) as Hadv.
  { rewrite <- (wrap_uint 64 (_ + 1)) by (split; lia). unfold settle. by repeat case_match. }
  specialize (IH (settle s msg r) Hks). rewrite Hadv in IH.
  specialize (IH ltac:(lia) ltac:(lia) Hnum).
  destruct (spec_serve (settle s msg r) msgs) as [rs s2]. by constructor.
Qed.

(** Frames the parser accepts are requests a session understands. *)
Lemma parse_frame_message_ok frame msg :
  Forall is_u8 frame → length frame = kFrameSize →
  parse_frame frame DecodedMessage.default = Some msg →
  message_ok msg ∧ is_known_request_type (DecodedMessage.type msg) = true ∧
  DecodedMessage.type msg = MessageHeader.message_type (DecodedMessage.header msg).
Proof.
  intros Hu Hlen. unfold parse_frame.
  destruct (header_of_bytes frame Hu) as (h & rest & -> & Hh & _); [unfold_offsets; lia|].
  rewrite decode_header_spec by done. destruct (header_status h) eqn:Hst; try done.
  case_decide as Hv; [|done]. apply validate_header_known in Hv.
  set (out := DecodedMessage.set_type _ _).
  set (frame := header_bytes h ++ rest) in *.
  assert (kFrameSize ≤ length frame)%nat as Hge by lia.
  destruct (MessageHeader.message_type h) eqn:Hty; try done;
    cbn [FrameParser.decode_payload].
  - pose proof (wire_decode_total frame (DecodedMessage.new_order out) Hu) as Ht.
    rewrite decide_False in Ht by lia. destruct Ht as (ws & Hws & Hok & _ & E).
    wire_fields. rewrite E. cbn [mbind option_bind]. intros [= <-].
    do 5 (destruct ws as [|? ws]; try done). apply Forall_cons in Hok as [Hid _].
    by split; [split|].
  - pose proof (wire_decode_total frame (DecodedMessage.cancel_order out) Hu) as Ht.
    rewrite decide_False in Ht by lia. destruct Ht as (ws & Hws & Hok & _ & E).
    wire_fields. rewrite E. cbn [mbind option_bind]. intros [= <-].
    do 2 (destruct ws as [|? ws]; try done). apply Forall_cons in Hok as [Hid _].
    by split; [split|].
  - pose proof (wire_decode_total frame (DecodedMessage.modify_order out) Hu) as Ht.
    rewrite decide_False in Ht by lia. destruct Ht as (ws & Hws & Hok & _ & E).
    wire_fields. rewrite E. cbn [mbind option_bind]. intros [= <-].
    do 4 (destruct ws as [|? ws]; try done). apply Forall_cons in Hok as [Hid _].
    by split; [split|].
  - intros [= <-]. split; [|by split]. split; [done|split; [done|evaluate]].
  - intros [= <-]. split; [|by split]. split; [done|split; [done|evaluate]].
Qed.


(** ** Messages that come from the parser *)

(** A message the session understands. *)
Definition request_understood (msg : DecodedMessage.t) : Prop :=
  message_ok msg ∧ is_known_request_type (DecodedMessage.type msg) = true.

Lemma decode_stream_understood q msgs st rest :
  Forall is_u8 q → decode_stream q = (msgs, st, rest) → Forall request_understood msgs.
Proof.
  revert msgs st rest. induction q as [q Hq|q Hq IH] using stream_ind; intros msgs st rest Hu;
    rewrite decode_stream_unfold.
  - rewrite decide_True by done. intros [= <- <- <-]. constructor.
  - rewrite decide_False by lia. destruct (parse_frame _ _) as [msg|] eqn:Hp.
    + destruct (decode_stream (drop kFrameSize q)) as [[ms s] r] eqn:E. intros [= <- <- <-].
      apply parse_frame_message_ok in Hp as (? & ? & _);
        [|by apply Forall_take|rewrite length_take; lia].
      constructor; [by split|]. eapply IH; [by apply Forall_drop|done].
    + intros [= <- <- <-]. constructor.
Qed.

Lemma request_message_understood r : request_ok r → request_understood (request_message r).
Proof.
  intros (Hh & Hst & Hm).
  assert (∀ ty, MessageType.ok ty → MessageHeader.ok (stamp ty (request_header r)) ∧
    header_status (stamp ty (request_header r)) = DecodeStatus.Ok) as Hstamp.
  { intros ty Hty. split; [by apply stamp_ok|done]. }
  assert (is_u64 0) as H0 by evaluate.
  assert (∀ ty msg, MessageType.ok ty → DecodedMessage.header msg = stamp ty (request_header r) →
    is_u64 (subject msg) → message_ok msg) as Hmsg.
  { intros ty msg Hty E Hsub. destruct (Hstamp ty Hty). unfold message_ok. by rewrite E. }
  destruct r; cbn [request_header] in *; (split; [|done]);
    (eapply Hmsg; [|reflexivity|]; [by split|]); cbn; first [exact H0|apply Hm].
Qed.

(** An understood message is never refused for its type. *)
Lemma spec_serve_supported s msgs :
  Forall request_understood msgs →
  Forall (λ r, ¬ is_reason RejectReason.UnsupportedMessageType r) (spec_serve s msgs).1.
Proof.
  revert s. induction msgs as [|msg msgs IH]; intros s Hu; [constructor|].
  apply Forall_cons in Hu as [[_ Hk] Hu]. cbn [spec_serve].
  assert (¬ is_reason RejectReason.UnsupportedMessageType (spec_handle s msg).1.1) as Hr.
  { unfold spec_handle. rewrite Hk. cbn [negb]. case_decide; [|done].
    apply verdict_not_sequence. }
  destruct (spec_handle s msg) as [[r s1] [|]]; [|by repeat constructor].
  specialize (IH s1 Hu). destruct (spec_serve s1 msgs). by constructor.
Qed.

Lemma book_step_size book r : (size (book_step book r) ≤ S (size book))%nat.
Proof.
  destruct r as [| id handle | id handle |]; simpl; try lia.
  - case_decide; [lia|]. rewrite map_size_insert. case_match; simpl; lia.
  - rewrite map_size_delete. case_match; simpl; lia.
Qed.

Lemma replay_size book rs : (size (foldl book_step book rs) ≤ size book + length rs)%nat.
Proof.
  revert book. induction rs as [|r rs IH]; intros book; simpl; [lia|].
  pose proof (IH (book_step book r)). pose proof (book_step_size book r). lia.
Qed.

Lemma spec_serve_length s msgs : (length (spec_serve s msgs).1 ≤ length msgs)%nat.
Proof.
  revert s. induction msgs as [|msg msgs IH]; intros s; simpl; [lia|].
  destruct (spec_handle s msg) as [[r s1] [|]]; simpl; [|lia].
  specialize (IH s1). destruct (spec_serve s1 msgs). simpl in *. lia.
Qed.

(** The handles that the replies give to new orders. *)
Definition handed_out (rs : list reply) : list Z :=
  omap (λ r, match r with Accept _ handle => if decide (handle = 0) then None else Some handle
                        | _ => None end) rs.

Lemma spec_handle_handles s msg :
  session_ok s → expected_sequence_number_ s + 1 < 2 ^ 64 →
  let '(r, s', _) := spec_handle s msg in
  handed_out [r] = seqZ (next_order_handle_ s) (next_order_handle_ s' - next_order_handle_ s) ∧
  next_order_handle_ s ≤ next_order_handle_ s'.
Proof.
  intros (_ & [_ Hhi] & Hnext & _) Hroom.
  assert (seqZ (next_order_handle_ s) (next_order_handle_ s - next_order_handle_ s) = []) as Hnone
    by by rewrite Z.sub_diag.
  unfold spec_handle. destruct (is_known_request_type _); cbn [negb]; [case_decide|]; simpl; try by rewrite Hnone.
  unfold settle, verdict. destruct (DecodedMessage.type msg); simpl; try by rewrite Hnone.
  - destruct (bad_terms msg), (orders_ s !! subject msg); simpl; try by rewrite Hnone.
    rewrite decide_False, wrap_uint by (try split; lia).
    replace (next_order_handle_ s + 1 - next_order_handle_ s) with 1 by lia. split; [done|lia].
  - destruct (orders_ s !! subject msg); simpl; by rewrite Hnone.
  - destruct (orders_ s !! subject msg), (bad_terms msg); simpl; by rewrite Hnone.
Qed.

(** Handles are handed out one after the other. *)
Lemma spec_serve_handles s msgs :
  session_ok s → Forall message_ok msgs →
  expected_sequence_number_ s + Z.of_nat (length msgs) < 2 ^ 64 →
  let '(rs, s') := spec_serve s msgs in
  handed_out rs = seqZ (next_order_handle_ s) (next_order_handle_ s' - next_order_handle_ s) ∧
  next_order_handle_ s ≤ next_order_handle_ s'.
Proof.
  revert s. induction msgs as [|msg msgs IH]; intros s Hs Hm Hroom; [cbn [spec_serve]; by rewrite Z.sub_diag|].
  apply Forall_cons in Hm as [(_ & _ & Hsub) Hm]. simpl length in Hroom.
  pose proof (spec_handle_ok s msg Hs Hsub ltac:(lia)) as Hok.
  pose proof (spec_handle_handles s msg Hs ltac:(lia)) as Hh. cbn [spec_serve].
  destruct (spec_handle s msg) as [[r s1] [|]]; destruct Hh as [Hh Hle]; [|by split].
  destruct Hok as (Hs1 & _ & _ & Hseq). specialize (IH s1 Hs1 Hm ltac:(lia)).
  destruct (spec_serve s1 msgs) as [rs s2]. destruct IH as [IH Hle'].
  change (handed_out (r :: rs)) with (handed_out ([r] ++ rs)).
  unfold handed_out in *. rewrite omap_app, Hh, IH. split; [|lia].
  replace (next_order_handle_ s2 - next_order_handle_ s) with
    ((next_order_handle_ s1 - next_order_handle_ s) + (next_order_handle_ s2 - next_order_handle_ s1)) by lia.
  rewrite seqZ_app by lia. do 2 f_equal. lia.
Qed.

(** A reply of the request's kind, for its order. *)
Definition answers (msg : DecodedMessage.t) (r : reply) : Prop :=
  match r with
  | Reject id _ => id = subject msg
  | Accept id _ => id = subject msg ∧
      DecodedMessage.type msg ∈ [MessageType.NewOrder; MessageType.Heartbeat; MessageType.Logout]
  | CancelAck id _ => id = subject msg ∧ DecodedMessage.type msg = MessageType.CancelOrder
  | ModifyAck id _ => id = subject msg ∧ DecodedMessage.type msg = MessageType.ModifyOrder
  end.

(** Every message is answered, up to a log-out that was accepted. *)
Definition all_answered (msgs : list DecodedMessage.t) (rs : list reply) : Prop :=
  ∃ served left, msgs = served ++ left ∧ Forall2 answers served rs ∧
    (left = [] ∨ ∃ msg, last served = Some msg ∧ DecodedMessage.type msg = MessageType.Logout ∧
       last rs = Some (Accept 0 0)).

Lemma spec_handle_answers s msg :
  is_known_request_type (DecodedMessage.type msg) = true →
  let '(r, _, open) := spec_handle s msg in
  answers msg r ∧ (open = false → DecodedMessage.type msg = MessageType.Logout ∧ r = Accept 0 0).
Proof.
  unfold spec_handle, verdict, bad_terms, answers, subject. intros Hk. rewrite Hk. cbn [negb].
  case_decide; [|done]. destruct (DecodedMessage.type msg); try done; repeat case_match; simplify_eq; simpl;
    rewrite ?elem_of_cons; naive_solver.
Qed.

Lemma spec_serve_answers s msgs :
  Forall request_understood msgs → all_answered msgs (spec_serve s msgs).1.
Proof.
  revert s. induction msgs as [|msg msgs IH]; intros s Hu; [by exists [], []; auto|].
  apply Forall_cons in Hu as [[_ Hk] Hu]. pose proof (spec_handle_answers s msg Hk) as Ha. cbn [spec_serve].
  destruct (spec_handle s msg) as [[r s1] [|]]; destruct Ha as [Ha Hlast].
  - destruct (IH s1 Hu) as (served & left & -> & Hall & Hend). destruct (spec_serve s1 _) as [rs s2].
    exists (msg :: served), left. split; [done|]. split; [by constructor|].
    destruct Hend as [?|(m & Hm & Hty & Hr)]; [by left|right]. exists m. cbn [fst] in Hr |- *.
    by rewrite !last_cons, Hm, Hr.
  - destruct (Hlast eq_refl) as [Hty ->]. exists [msg], msgs. split; [done|]. split; [by constructor|].
    right. by exists msg.
Qed.

(** ** Properties of the session *)

Definition sample_new (id price quantity seq : Z) : DecodedMessage.t :=
  request_message (RNewOrder (MessageHeader.set_sequence_number seq sample_header)
                     (NewOrder.mk id Side.Buy price quantity)).
Definition sample_cancel (id seq : Z) : DecodedMessage.t :=
  request_message (RCancelOrder (MessageHeader.set_sequence_number seq sample_header)
                     (CancelOrder.mk id 0 0 0)).
Definition sample_modify (id price quantity seq : Z) : DecodedMessage.t :=
  request_message (RModifyOrder (MessageHeader.set_sequence_number seq sample_header)
                     (ModifyOrder.mk id price quantity 0)).

Definition sample_day : list DecodedMessage.t :=
  [sample_new 7 100 5 1; sample_new 8 0 5 2; sample_new 7 100 5 3; sample_new 9 10 1 9;
   sample_new 9 10 1 4; sample_modify 9 11 0 5; sample_cancel 7 6; sample_cancel 7 7].

Definition sample_day_replies : list reply :=
  [Accept 7 1; Reject 8 RejectReason.InvalidPrice; Reject 7 RejectReason.DuplicateClientOrderId;
   Reject 9 RejectReason.BadSequence; Accept 9 2; Reject 9 RejectReason.InvalidQuantity;
   CancelAck 7 1; Reject 7 RejectReason.UnknownClientOrderId].

(** C19: [handle_message] refines the abstract session on every message type and
    every branch: it is defined exactly when the response span holds a frame,
    writes the frame of the specified reply into its first 64 bytes, leaves
    the bytes behind them alone, and returns the specified state. *)
Theorem handle_message_refines s msg out :
  handle_message s msg out =
  (let '(r, s', open) := spec_handle s msg in
   if decide (kFrameSize ≤ length out)%nat
   then Some (open, s', reply_frame s (DecodedMessage.header msg) r ++ drop kFrameSize out)
   else None).
Proof.
  rewrite handle_message_reply. destruct (spec_handle s msg) as [[r s'] open].
  rewrite encode_reply_spec. by case_decide.
Qed.

(** C20: What a client can know: from the response frames alone it rebuilds the
    server's book, every acknowledgement names the handle the book has for
    the order, new orders get the handles 1, 2, 3, ..., none of them twice, also
    after cancels, and the count the session reports is the size of that
    book. *)
Theorem session_book_visible sid msgs :
  is_u64 sid → Forall message_ok msgs → Z.of_nat (length msgs) < 2 ^ 64 - 1 →
  ∃ frames s rs,
    serve (make sid) msgs = Some (frames, s) ∧ mapM decode_reply frames = Some rs ∧
    orders_ s = replay rs ∧ all_consistent ∅ rs ∧ session_ok s ∧
    active_order_count s = Z.of_nat (size (replay rs)) ∧
    handed_out rs = seqZ 1 (next_order_handle_ s - 1) ∧ NoDup (handed_out rs).
Proof.
  intros Hsid Hm Hlen. pose proof (session_ok_make sid Hsid) as Hs.
  assert (expected_sequence_number_ (make sid) + Z.of_nat (length msgs) < 2 ^ 64) as Hroom
    by (simpl; lia).
  pose proof (serve_spec _ _ Hs Hm Hroom) as H1.
  pose proof (spec_serve_book _ _ Hs Hm Hroom) as H2.
  pose proof (spec_serve_length (make sid) msgs) as H3.
  pose proof (spec_serve_handles _ _ Hs Hm Hroom) as H4.
  destruct (spec_serve (make sid) msgs) as [rs s]. destruct H1 as (Hok & frames & He & Hd), H2 as [Hb Hc], H4 as [Hh _].
  change (next_order_handle_ (make sid)) with 1 in Hh.
  exists frames, s, rs. do 3 (split; [done|]). split; [exact Hc|]. split; [done|].
  split; [|split; [exact Hh|rewrite Hh; apply NoDup_seqZ]].
  unfold active_order_count. rewrite Hb. pose proof (replay_size ∅ rs) as Hsz.
  rewrite map_size_empty in Hsz. apply wrap_uint. simpl in *. split; [lia|]. unfold replay. lia.
Qed.

Lemma session_book_visible_witness :
  ∃ frames s, serve (make 5) sample_day = Some (frames, s) ∧
    mapM decode_reply frames = Some sample_day_replies ∧
    map_to_list (orders_ s) = [(9, 2)] ∧ active_order_count s = 1.
Proof.
  destruct (session_book_visible 5 sample_day ltac:(evaluate) ltac:(evaluate) ltac:(evaluate))
    as (frames & s & rs & He & Hd & Hb & _ & _ & Hc & _).
  assert (mapM decode_reply (from_option fst [] (serve (make 5) sample_day)) =
          Some sample_day_replies) as E by (vm_compute; reflexivity).
  rewrite He in E. cbn [from_option fst] in E. rewrite Hd in E. injection E as ->.
  exists frames, s. refine (conj He (conj Hd (conj _ _))); rewrite ?Hb, ?Hc; vm_compute; reflexivity.
Defined.

(** Replay protection: once a session has processed an in-order request, the
    same request, or any request with a number that is not newer, is refused
    with [BadSequence] and changes nothing. *)
Theorem stale_request_rejected s msg out open s1 out1 again out' :
  session_ok s → expected_sequence_number_ s + 1 < 2 ^ 64 →
  is_known_request_type (DecodedMessage.type msg) = true → is_u64 (subject msg) →
  MessageHeader.sequence_number (DecodedMessage.header msg) = expected_sequence_number_ s →
  handle_message s msg out = Some (open, s1, out1) →
  is_known_request_type (DecodedMessage.type again) = true → message_ok again →
  MessageHeader.sequence_number (DecodedMessage.header again) ≤
    MessageHeader.sequence_number (DecodedMessage.header msg) →
  (kFrameSize ≤ length out')%nat →
  ∃ out2, handle_message s1 again out' = Some (true, s1, out2) ∧
    decode_reply out2 = Some (Reject (subject again) RejectReason.BadSequence).
Proof.
  intros Hs Hroom Hk Hsub Hseq He Hk' (Hh & Hst & Hsub') Hle Hout.
  rewrite handle_message_reply in He.
  pose proof (spec_handle_ok s msg Hs Hsub Hroom) as Hok.
  assert (expected_sequence_number_ (spec_handle s msg).1.2 = expected_sequence_number_ s + 1) as Hadv.
  { unfold spec_handle. rewrite Hk, decide_True by done. by apply settle_ok. }
  destruct (spec_handle s msg) as [[r s2] o]. destruct Hok as (Hs2 & _).
  destruct (encode_reply _ _ _ _); [|done]. injection He as <- <- <-.
  assert (spec_handle s2 again = (Reject (subject again) RejectReason.BadSequence, s2, true)) as E.
  { unfold spec_handle. rewrite Hk', decide_False; [done|]. simpl in Hadv. lia. }
  eexists. split; [by apply handle_message_frame|].
  apply decode_reply_frame; [by destruct Hs2|done|done|]. split; [done|by split].
Qed.

Lemma stale_request_rejected_witness :
  let first := handle_message (make 5) (sample_new 7 100 5 1) sample_span in
  ∃ s1 out1 out2, first = Some (true, s1, out1) ∧
    handle_message s1 (sample_new 7 100 5 1) out1 = Some (true, s1, out2) ∧
    decode_reply out2 = Some (Reject 7 RejectReason.BadSequence).
Proof.
  intros first.
  assert (∃ s1 out1, first = Some (true, s1, out1) ∧ length out1 = 64%nat)
    as (s1 & out1 & E & Hl).
  { unfold first. rewrite handle_message_refines. vm_compute.
    eexists _, _. split; reflexivity. }
  exists s1, out1. destruct (stale_request_rejected (make 5) (sample_new 7 100 5 1) sample_span
    true s1 out1 (sample_new 7 100 5 1) out1) as (out2 & H1 & H2).
  - apply session_ok_make. evaluate.
  - evaluate.
  - reflexivity.
  - evaluate.
  - reflexivity.
  - exact E.
  - reflexivity.
  - evaluate.
  - vm_compute. discriminate.
  - rewrite Hl. exact (le_n 64).
  - exists out2. exact (conj E (conj H1 H2)).
Defined.



(** C21: A client that numbers its requests 1, 2, 3, ... is never told its
    sequence number is bad or its type unsupported, however TCP cuts its
    bytes: the responses it reads are exactly the verdicts of the book. *)
Theorem numbered_client_in_sequence Capacity (HC : FrameCapacity Capacity) reqs frames chunks sid :
  Forall2 (λ r f, request_ok r ∧ ∃ out, length out = kFrameSize ∧ Forall is_u8 out ∧
                  encode_request r out = Some f) reqs frames →
  concat chunks = concat frames →
  Forall (λ c, Z.of_nat (length c) ≤ Capacity - (Z.of_nat kFrameSize - 1)) chunks →
  is_u64 sid → Z.of_nat (length reqs) < 2 ^ 64 - 1 →
  numbered 1 (request_message <$> reqs) →
  ∃ p responses s rs,
    feed Capacity (FrameParser.empty Capacity) chunks =
      Some (request_message <$> reqs, FrameParser.Status.NeedMoreData, p) ∧
    serve (make sid) (request_message <$> reqs) = Some (responses, s) ∧
    mapM decode_reply responses = Some rs ∧
    Forall (λ r, ¬ is_reason RejectReason.BadSequence r ∧
                 ¬ is_reason RejectReason.UnsupportedMessageType r) rs.
Proof.
  intros Hreqs Hcat Hfit Hsid Hlen Hnum.
  destruct (feed_encoded reqs frames chunks Hreqs Hcat Hfit) as (p & Hf & _).
  assert (Forall request_understood (request_message <$> reqs)) as Hund.
  { apply Forall_fmap. eapply Forall2_Forall_l; [exact Hreqs|].
    apply Forall_forall. intros f _ r [Hr _]. by apply request_message_understood. }
  assert (Forall message_ok (request_message <$> reqs)) as Hm
    by (eapply Forall_impl; [exact Hund|]; by intros m []).
  assert (expected_sequence_number_ (make sid) +
          Z.of_nat (length (request_message <$> reqs)) < 2 ^ 64) as Hroom
    by (rewrite length_fmap; simpl; lia).
  pose proof (serve_spec _ _ (session_ok_make sid Hsid) Hm Hroom) as H1.
  pose proof (spec_serve_in_order (make sid) (request_message <$> reqs)) as H2.
  destruct (spec_serve (make sid) _) as [rs s]. destruct H1 as (_ & responses & He & Hd).
  exists p, responses, s, rs. do 3 (split; [done|]). apply H2; [|done|done|done].
  eapply Forall_impl; [exact Hund|]. by intros m [].
Qed.

Lemma numbered_client_in_sequence_witness :
  let reqs := [RNewOrder (MessageHeader.set_sequence_number 1 sample_header) sample_order;
               RLogout (MessageHeader.set_sequence_number 2 sample_header)] in
  let frames := (λ r, default [] (encode_request r sample_span)) <$> reqs in
  ∃ p responses s rs,
    feed 128 (FrameParser.empty 128) frames =
      Some (request_message <$> reqs, FrameParser.Status.NeedMoreData, p) ∧
    serve (make 5) (request_message <$> reqs) = Some (responses, s) ∧
    mapM decode_reply responses = Some rs.
Proof.
  intros reqs frames.
  destruct (numbered_client_in_sequence 128 capacity_128 reqs frames frames 5)
    as (p & responses & s & rs & Hf & Hs & Hd & _).
  - repeat constructor; try evaluate;
      (exists sample_span; split; [vm_compute; reflexivity|split; [evaluate|vm_compute; reflexivity]]).
  - reflexivity.
  - evaluate.
  - evaluate.
  - evaluate.
  - vm_compute. auto.
  - exists p, responses, s, rs. exact (conj Hf (conj Hs Hd)).
Defined.
