(* ===== verification/Queue.v ===== *)
(** * What a queue between two threads promises

    The interface by which the gateway and the matching thread know their
    queues: one thread pushes, the other pops.  A queue can refuse although
    there is room, or an item, when the caller has not seen the latest
    operations of the other thread; the interface says how far behind it can
    be.  [SpscSequential] gives the interface its single-threaded
    implementation, [SpscQueue] the one under weak memory. *)

From S2P Require Import Prelude.

(** [None] is undefined behaviour. *)
Class BoundedQueue (Q T : Type) := {
  q_empty : Q;
  q_push : T → Q → option (bool * Q);
  q_pop : T → Q → option (bool * T * Q);
  (** How recent the stores are that the next loads from the other thread
      return; no entry is the latest one. *)
  q_look : list nat → Q → Q;
  (** The pushing thread signals the popping one outside the queue, and the
      popping one takes the signal: what happened before the signal happens
      before what follows. *)
  q_signal : Q → Q;
  q_sync : Q → Q;
  q_items : Q → list T;     (** pushed and not popped, oldest first *)
  q_synced : Q → nat;       (** how many items the popping thread must see *)
  q_signalled : Q → nat;    (** how many were pushed before the last signal *)
  q_lag : Q → nat;          (** how many pops the pushing thread may not see *)
  q_ok : Q → Prop;
  q_limit : Z
}.

Section results.
Context {Q T : Type} `{!BoundedQueue Q T}.
Implicit Types (q : Q).

(** Nothing pushed or popped, and nobody knows less. *)
Record kept q q' : Prop := {
  kept_ok : q_ok q';
  kept_items : q_items q' = q_items q;
  kept_synced : (q_synced q ≤ q_synced q')%nat;
  kept_signalled : (q_signalled q ≤ q_signalled q')%nat;
  kept_lag : (q_lag q' ≤ q_lag q)%nat
}.

(** A push: refused only when the items and the pops it may have missed fill
    the queue. *)
Record push_result (x : T) (b : bool) q q' : Prop := {
  push_ok : q_ok q';
  push_items : q_items q' = q_items q ++ if b then [x] else [];
  push_synced : (q_synced q ≤ q_synced q')%nat;
  push_signalled : (q_signalled q ≤ q_signalled q')%nat;
  push_lag : (q_lag q' ≤ q_lag q)%nat;
  push_refused : b = false → q_limit ≤ Z.of_nat (length (q_items q) + q_lag q)
}.

(** A pop: refused only when there is no item the thread must see. *)
Record pop_result (out : T) (b : bool) (y : T) q q' : Prop := {
  pop_ok : q_ok q';
  pop_items : q_items q = (if b then [y] else []) ++ q_items q';
  pop_synced : (q_synced q ≤ Nat.b2n b + q_synced q')%nat;
  pop_signalled : (q_signalled q ≤ Nat.b2n b + q_signalled q')%nat;
  pop_lag : (q_lag q' ≤ Nat.b2n b + q_lag q)%nat;
  pop_refused : b = false → y = out ∧ q_synced q = O
}.

End results.

Class BoundedQueueLaws (Q T : Type) `{!BoundedQueue Q T} : Prop := {
  q_empty_ok : q_ok q_empty;
  q_empty_items : q_items q_empty = [];
  q_empty_lag : q_lag q_empty = O;
  q_limit_pos : 0 < q_limit;
  q_items_bound q : q_ok q → Z.of_nat (length (q_items q)) ≤ q_limit;
  q_push_spec q x : q_ok q → ∃ b q', q_push x q = Some (b, q') ∧ push_result x b q q';
  q_pop_spec q out : q_ok q → ∃ b y q', q_pop out q = Some (b, y, q') ∧ pop_result out b y q q';
  (** With the latest stores in view there are no false refusals. *)
  q_push_latest q x : q_ok q → Z.of_nat (length (q_items q)) < q_limit →
    ∃ q', q_push x (q_look [] q) = Some (true, q');
  q_pop_latest q out : q_ok q → q_items q ≠ [] →
    ∃ y q', q_pop out (q_look [] q) = Some (true, y, q');
  q_look_spec ns q : q_ok q → kept q (q_look ns q);
  q_signal_spec q : q_ok q →
    kept q (q_signal q) ∧ (length (q_items q) ≤ q_signalled (q_signal q))%nat;
  q_sync_spec q : q_ok q →
    kept q (q_sync q) ∧ (q_signalled q ≤ q_synced (q_sync q))%nat
}.

(** ** Several pushes *)

Section pushes.
Context {Q T : Type} `{!BoundedQueue Q T, !BoundedQueueLaws Q T}.
Implicit Types (q : Q) (xs new : list T).

(** Pushing [xs] in turn adds [new], all of [xs] when there is room. *)
Record pushes_result xs new q q' : Prop := {
  pushes_ok : q_ok q';
  pushes_items : q_items q' = q_items q ++ new;
  pushes_new : new `sublist_of` xs;
  pushes_lag : (q_lag q' ≤ q_lag q)%nat;
  pushes_room : Z.of_nat (length (q_items q) + q_lag q + length xs) ≤ q_limit → new = xs
}.

Lemma pushes_nil q : q_ok q → pushes_result [] [] q q.
Proof. intros Hq. split; [done|by rewrite app_nil_r|done|done|done]. Qed.

Lemma pushes_cons x b xs new q q1 q' :
  push_result x b q q1 → pushes_result xs new q1 q' →
  pushes_result (x :: xs) ((if b then [x] else []) ++ new) q q'.
Proof.
  intros [H1 H2 _ _ H3 H4] [H5 H6 H7 H8 H9]. split.
  - done.
  - by rewrite H6, H2, <- app_assoc.
  - destruct b; simpl; [by apply sublist_skip|by apply sublist_cons].
  - lia.
  - simpl. intros Hroom. destruct b.
    + simpl. f_equal. apply H9. rewrite H2, length_app. simpl. lia.
    + specialize (H4 eq_refl). lia.
Qed.

Lemma pushes_one x b q q' :
  push_result x b q q' → pushes_result [x] (if b then [x] else []) q q'.
Proof.
  intros H. pose proof (push_ok _ _ _ _ H) as Hq.
  pose proof (pushes_cons x b [] [] q q' q' H (pushes_nil q' Hq)) as Hp. by rewrite app_nil_r in Hp.
Qed.

Lemma q_empty_push x : ∃ q', q_push x q_empty = Some (true, q') ∧ q_ok q' ∧ q_items q' = [x].
Proof.
  destruct (q_push_spec (q_empty (Q:=Q)) x q_empty_ok) as (b & q' & E & [Hq Hi _ _ _ Hr]).
  rewrite q_empty_items in Hi, Hr. rewrite q_empty_lag in Hr. pose proof (q_limit_pos (Q:=Q) (T:=T)).
  exists q'. destruct b; [done|]. specialize (Hr eq_refl). simpl in Hr. lia.
Qed.

(** A queue takes as many items as its limit says, and no more. *)
Lemma q_fill x n :
  Z.of_nat n ≤ q_limit (Q:=Q) (T:=T) → ∃ q : Q, q_ok q ∧ q_items q = replicate n x.
Proof.
  induction n as [|n IH]; intros Hn; [exists q_empty; split; [apply q_empty_ok|apply q_empty_items]|].
  destruct (IH ltac:(lia)) as (q & Hq & Hi).
  destruct (q_look_spec [] q Hq) as [Hq' Hi' _ _ _].
  destruct (q_push_latest q x Hq) as [q' E]; [rewrite Hi, length_replicate; lia|].
  destruct (q_push_spec _ x Hq') as (b & q1 & E1 & [Hq1 Hi1 _ _ _ _]). rewrite E in E1. injection E1 as <- <-.
  exists q'. split; [done|]. by rewrite Hi1, Hi', Hi, <- replicate_cons_app, replicate_S.
Qed.

Lemma full_takes_nothing xs new q q' :
  Z.of_nat (length (q_items q)) = q_limit (Q:=Q) (T:=T) → pushes_result xs new q q' → new = [].
Proof.
  intros Hl [Hq Hi _ _ _]. pose proof (q_items_bound _ Hq) as Hb. rewrite Hi, length_app in Hb.
  apply length_zero_iff_nil. lia.
Qed.

End pushes.
