(* ===== verification/Spsc.v ===== *)
(** * Single-producer single-consumer ring buffers: the code

    Models [core/SPSC/spsc_ring_buffer.hpp].  An operation is a program over
    the memory accesses it makes: atomic loads and stores with their memory
    order, plain accesses to the members a thread owns, accesses to the cells
    of [buffer_], and the mutex.  The programs are written once; this file
    gives them their single-threaded meaning ([run]), [SpscMachine] the
    meaning under weak memory with two threads. *)

From S2P Require Import Prelude.

Inductive memory_order : Set := relaxed | acquire | release | seq_cst.

(** The atomic members [head_] and [tail_]. *)
Inductive atomic : Set := Head | Tail.

(** The plain [std::size_t] members: the indices of the mutex variant, the
    caches of V3 and the local counters of V4. *)
Inductive var : Set :=
| HeadIndex | TailIndex
| ProducerTailCache | ConsumerHeadCache
| ProducerHead | ProducerTail | ConsumerHead | ConsumerTail.

#[global] Instance atomic_eq_dec : EqDecision atomic.
Proof. solve_decision. Defined.
#[global] Instance var_eq_dec : EqDecision var.
Proof. solve_decision. Defined.

Inductive prog (T A : Type) : Type :=
| Ret (a : A)
| Load (o : memory_order) (l : atomic) (k : Z → prog T A)
| Store (o : memory_order) (l : atomic) (v : Z) (k : prog T A)
| Get (x : var) (k : Z → prog T A)
| Put (x : var) (v : Z) (k : prog T A)
| ReadCell (i : Z) (k : T → prog T A)
| WriteCell (i : Z) (v : T) (k : prog T A)
| Lock (k : prog T A)
| Unlock (k : prog T A).

Arguments Ret {T A} _.
Arguments Load {T A} _ _ _.
Arguments Store {T A} _ _ _ _.
Arguments Get {T A} _ _.
Arguments Put {T A} _ _ _.
Arguments ReadCell {T A} _ _.
Arguments WriteCell {T A} _ _ _.
Arguments Lock {T A} _.
Arguments Unlock {T A} _.

Fixpoint prog_bind {T A B} (f : A → prog T B) (p : prog T A) : prog T B :=
  match p with
  | Ret a => f a
  | Load o l k => Load o l (λ v, prog_bind f (k v))
  | Store o l v k => Store o l v (prog_bind f k)
  | Get x k => Get x (λ v, prog_bind f (k v))
  | Put x v k => Put x v (prog_bind f k)
  | ReadCell i k => ReadCell i (λ v, prog_bind f (k v))
  | WriteCell i v k => WriteCell i v (prog_bind f k)
  | Lock k => Lock (prog_bind f k)
  | Unlock k => Unlock (prog_bind f k)
  end.

#[global] Instance prog_mbind T : MBind (prog T) := @prog_bind T.
#[global] Instance prog_mret T : MRet (prog T) := λ A, Ret.

Definition load {T} (o : memory_order) (l : atomic) : prog T Z := Load o l Ret.
Definition store {T} (o : memory_order) (l : atomic) (v : Z) : prog T unit := Store o l v (Ret tt).
Definition get {T} (x : var) : prog T Z := Get x Ret.
Definition set {T} (x : var) (v : Z) : prog T unit := Put x v (Ret tt).
Definition read_cell {T} (i : Z) : prog T T := ReadCell i Ret.
Definition write_cell {T} (i : Z) (v : T) : prog T unit := WriteCell i v (Ret tt).

(** [std::lock_guard] around a body: locked first, unlocked at every return. *)
Definition locked {T A} (body : prog T A) : prog T A :=
  Lock (r ← body; Unlock (Ret r)).

Definition is_power_of_two (value : Z) : bool :=
  negb (value =? 0) && (Z.land value (value -₆₄ 1) =? 0).

(** The static assertions on the template argument, a [std::size_t]. *)
Class QueueCapacity (Capacity : Z) : Prop := {
  queue_capacity_u64 : is_u64 Capacity;
  queue_capacity_two : 2 ≤ Capacity;
  queue_capacity_pow2 : is_power_of_two Capacity = true
}.

(** [increment] of the variants with modulo indices. *)
Definition increment (Capacity index : Z) : Z := Z.land (index +₆₄ 1) (Capacity - 1).

Module SpscRingBufferMutex.

Section code.
Context {T : Type} (Capacity : Z).

Definition push (value : T) : prog T bool :=
  locked
    (head ← get HeadIndex;
     let next := increment Capacity head in
     tail ← get TailIndex;
     if decide (next = tail) then mret false
     else
       head ← get HeadIndex;
       write_cell head value;;
       set HeadIndex next;;
       mret true).

Definition pop (out : T) : prog T (bool * T) :=
  locked
    (tail ← get TailIndex;
     head ← get HeadIndex;
     if decide (tail = head) then mret (false, out)
     else
       tail ← get TailIndex;
       out ← read_cell tail;
       tail ← get TailIndex;
       set TailIndex (increment Capacity tail);;
       mret (true, out)).

End code.

End SpscRingBufferMutex.

Module SpscRingBufferAtomicV1.

Section code.
Context {T : Type} (Capacity : Z).

Definition push (value : T) : prog T bool :=
  head ← load seq_cst Head;
  let next := increment Capacity head in
  tail ← load seq_cst Tail;
  if decide (next = tail) then mret false
  else
    write_cell head value;;
    store seq_cst Head next;;
    mret true.

Definition pop (out : T) : prog T (bool * T) :=
  tail ← load seq_cst Tail;
  head ← load seq_cst Head;
  if decide (tail = head) then mret (false, out)
  else
    out ← read_cell tail;
    store seq_cst Tail (increment Capacity tail);;
    mret (true, out).

End code.

End SpscRingBufferAtomicV1.

Module SpscRingBufferAtomicV2.

Section code.
Context {T : Type} (Capacity : Z).

Definition push (value : T) : prog T bool :=
  head ← load relaxed Head;
  let next := increment Capacity head in
  tail ← load acquire Tail;
  if decide (next = tail) then mret false
  else
    write_cell head value;;
    store release Head next;;
    mret true.

Definition pop (out : T) : prog T (bool * T) :=
  tail ← load relaxed Tail;
  head ← load acquire Head;
  if decide (tail = head) then mret (false, out)
  else
    out ← read_cell tail;
    store release Tail (increment Capacity tail);;
    mret (true, out).

End code.

End SpscRingBufferAtomicV2.

Module SpscRingBufferAtomicV3.

Section code.
Context {T : Type} (Capacity : Z).

(** The nested conditionals over the cached opponent index: whether the
    operation returns [false]. *)
Definition refresh (cache : var) (opponent : atomic) (index : Z) : prog T bool :=
  cached ← get cache;
  if decide (index = cached) then
    fresh ← load acquire opponent;
    set cache fresh;;
    cached ← get cache;
    mret (bool_decide (index = cached))
  else mret false.

Definition push (value : T) : prog T bool :=
  head ← load relaxed Head;
  let next := increment Capacity head in
  full ← refresh ProducerTailCache Tail next;
  if full : bool then mret false
  else
    write_cell head value;;
    store release Head next;;
    mret true.

(** [construct args] is [T(std::forward<Args>(args)...)]. *)
Definition emplace {Args} (construct : Args → T) (args : Args) : prog T bool :=
  head ← load relaxed Head;
  let next := increment Capacity head in
  full ← refresh ProducerTailCache Tail next;
  if full : bool then mret false
  else
    write_cell head (construct args);;
    store release Head next;;
    mret true.

Definition pop (out : T) : prog T (bool * T) :=
  tail ← load relaxed Tail;
  empty ← refresh ConsumerHeadCache Head tail;
  if empty : bool then mret (false, out)
  else
    out ← read_cell tail;
    store release Tail (increment Capacity tail);;
    mret (true, out).

End code.

End SpscRingBufferAtomicV3.

Module SpscRingBufferAtomicV4.

Section code.
Context {T : Type} (Capacity : Z).

Definition idx_of (counter : Z) : Z := Z.land counter (Capacity - 1).

(** The condition of [push]: no free cell among those known to be free. *)
Definition no_room : prog T bool :=
  head ← get ProducerHead;
  tail ← get ProducerTail;
  mret (bool_decide (head -₆₄ tail = Capacity)).

Definition push (value : T) : prog T bool :=
  full ← no_room;
  full ← (if full : bool then
            tail ← load acquire Tail;
            set ProducerTail tail;;
            no_room
          else mret false);
  if full : bool then mret false
  else
    head ← get ProducerHead;
    write_cell (idx_of head) value;;
    head ← get ProducerHead;
    set ProducerHead (head +₆₄ 1);;
    head ← get ProducerHead;
    store release Head head;;
    mret true.

(** The condition of [pop]: no item among those known to be published. *)
Definition no_item : prog T bool :=
  head ← get ConsumerHead;
  tail ← get ConsumerTail;
  mret (bool_decide (head = tail)).

Definition pop (out : T) : prog T (bool * T) :=
  empty ← no_item;
  empty ← (if empty : bool then
             head ← load acquire Head;
             set ConsumerHead head;;
             no_item
           else mret false);
  if empty : bool then mret (false, out)
  else
    tail ← get ConsumerTail;
    out ← read_cell (idx_of tail);
    tail ← get ConsumerTail;
    set ConsumerTail (tail +₆₄ 1);;
    tail ← get ConsumerTail;
    store release Tail tail;;
    mret (true, out).

End code.

End SpscRingBufferAtomicV4.

(** ** The variants as one family *)

Inductive variant : Set := Mutex | V1 | V2 | V3 | V4.

#[global] Instance variant_eq_dec : EqDecision variant.
Proof. solve_decision. Defined.

Definition push {T} (v : variant) (Capacity : Z) : T → prog T bool :=
  match v with
  | Mutex => SpscRingBufferMutex.push Capacity
  | V1 => SpscRingBufferAtomicV1.push Capacity
  | V2 => SpscRingBufferAtomicV2.push Capacity
  | V3 => SpscRingBufferAtomicV3.push Capacity
  | V4 => SpscRingBufferAtomicV4.push Capacity
  end.

Definition pop {T} (v : variant) (Capacity : Z) : T → prog T (bool * T) :=
  match v with
  | Mutex => SpscRingBufferMutex.pop Capacity
  | V1 => SpscRingBufferAtomicV1.pop Capacity
  | V2 => SpscRingBufferAtomicV2.pop Capacity
  | V3 => SpscRingBufferAtomicV3.pop Capacity
  | V4 => SpscRingBufferAtomicV4.pop Capacity
  end.

(** Modulo indices cannot tell a full ring from an empty one, so those
    variants leave one cell free. *)
Definition usable (v : variant) (Capacity : Z) : Z :=
  match v with V4 => Capacity | _ => Capacity - 1 end.

(** ** Single-threaded meaning *)

Record queue (T : Type) : Type := mkqueue {
  atomics : atomic → Z;
  vars : var → Z;
  buffer_ : list T;
  mutex_ : bool
}.

Arguments mkqueue {T} _ _ _ _.
Arguments atomics {T} _ _.
Arguments vars {T} _ _.
Arguments buffer_ {T} _.
Arguments mutex_ {T} _.

(** The members' initialisers; [buffer_{}] value-initialises the cells. *)
Definition empty_queue {T} `{!Inhabited T} (Capacity : Z) : queue T :=
  mkqueue (λ _, 0) (λ _, 0) (replicate (Z.to_nat Capacity) inhabitant) false.

Definition set_atomic {T} (l : atomic) (v : Z) (q : queue T) : queue T :=
  mkqueue (λ l', if decide (l' = l) then v else atomics q l') (vars q) (buffer_ q) (mutex_ q).
Definition set_var {T} (x : var) (v : Z) (q : queue T) : queue T :=
  mkqueue (atomics q) (λ y, if decide (y = x) then v else vars q y) (buffer_ q) (mutex_ q).
Definition set_buffer {T} (b : list T) (q : queue T) : queue T :=
  mkqueue (atomics q) (vars q) b (mutex_ q).
Definition set_mutex {T} (m : bool) (q : queue T) : queue T :=
  mkqueue (atomics q) (vars q) (buffer_ q) m.

(** A program run alone.  [None]: an access outside the array, or locking a
    held or unlocking a free mutex. *)
Fixpoint run {T A} (p : prog T A) (q : queue T) : option (A * queue T) :=
  match p with
  | Ret a => Some (a, q)
  | Load _ l k => run (k (atomics q l)) q
  | Store _ l v k => run k (set_atomic l v q)
  | Get x k => run (k (vars q x)) q
  | Put x v k => run k (set_var x v q)
  | ReadCell i k => if decide (0 ≤ i) then x ← buffer_ q !! Z.to_nat i; run (k x) q else None
  | WriteCell i x k =>
      if decide (0 ≤ i) then b ← put (buffer_ q) (Z.to_nat i) x; run k (set_buffer b q) else None
  | Lock k => if mutex_ q then None else run k (set_mutex true q)
  | Unlock k => if mutex_ q then run k (set_mutex false q) else None
  end.
