(* ===== verification/SpscMachine.v ===== *)
(** * Two threads on weak memory

    The meaning of the ring-buffer programs of [Spsc] when a producer and a
    consumer run them concurrently under the C++ memory model, restricted to
    what the programs use: atomic locations with relaxed, acquire/release and
    sequentially consistent accesses, plain locations whose races are
    undefined behaviour, and a mutex.

    An atomic location is its modification order: a list of messages, each
    with the view its store released.  A view says, per atomic location, the
    latest message that must be seen (coherence) and, per thread, how many of
    its actions happened before (a vector clock).  A load may return any
    message that is not older than the view; a load that acquires joins the
    message's view.  Sequentially consistent accesses are given the meaning
    of acquire and release, which allows more executions than the standard.
    A plain access races when a conflicting access of the other thread is
    not in the view. *)

From S2P Require Import Prelude Spsc.

Inductive thread : Set := Producer | Consumer.

#[global] Instance thread_eq_dec : EqDecision thread.
Proof. solve_decision. Defined.

Definition other (t : thread) : thread :=
  match t with Producer => Consumer | Consumer => Producer end.

(** Plain locations: a cell of the array or a member. *)
Inductive place : Set := Cell (i : Z) | Member (x : var).

#[global] Instance place_eq_dec : EqDecision place.
Proof. solve_decision. Defined.

Record view : Type := mkview { seen : atomic → nat; clock : thread → nat }.

Definition no_view : view := mkview (λ _, O) (λ _, O).

Definition join (v w : view) : view :=
  mkview (λ l, seen v l `max` seen w l)%nat (λ t, clock v t `max` clock w t)%nat.

Definition observe (l : atomic) (n : nat) (v : view) : view :=
  mkview (λ l', if decide (l' = l) then seen v l' `max` n else seen v l')%nat (clock v).

(** One more action of [t]. *)
Definition tick (t : thread) (v : view) : view :=
  mkview (seen v) (λ u, if decide (u = t) then S (clock v u) else clock v u).

Record message : Type := mkmessage { value : Z; released : view }.

Record memory (T : Type) : Type := mkmemory {
  history : atomic → list message;
  cells : list T;
  members : var → Z;
  wrote : place → thread → nat;   (** the clock of a thread's last write, 0 if none *)
  read : place → thread → nat;    (** and of its last read *)
  holder : option thread;         (** of the mutex *)
  unlocked : view                 (** released by the last unlock *)
}.

Arguments mkmemory {T} _ _ _ _ _ _ _.
Arguments history {T} _ _.
Arguments cells {T} _.
Arguments members {T} _ _.
Arguments wrote {T} _ _ _.
Arguments read {T} _ _ _.
Arguments holder {T} _.
Arguments unlocked {T} _.

Definition acquires (o : memory_order) : bool :=
  match o with acquire | seq_cst => true | _ => false end.
Definition releases (o : memory_order) : bool :=
  match o with release | seq_cst => true | _ => false end.

Section machine.
Context {T : Type}.
Implicit Types (m : memory T) (v : view).

(** The constructor's writes happen before both threads start. *)
Definition initial_memory `{!Inhabited T} (Capacity : Z) : memory T :=
  mkmemory (λ _, [mkmessage 0 no_view]) (replicate (Z.to_nat Capacity) inhabitant) (λ _, 0)
    (λ _ _, O) (λ _ _, O) None no_view.

Definition update2 (f : place → thread → nat) (p : place) (t : thread) (n : nat)
    : place → thread → nat :=
  λ p' t', if decide (p' = p ∧ t' = t) then n else f p' t'.

Definition append_message (l : atomic) (msg : message) m : memory T :=
  mkmemory (λ l', if decide (l' = l) then history m l' ++ [msg] else history m l')
    (cells m) (members m) (wrote m) (read m) (holder m) (unlocked m).
Definition log_read (p : place) (t : thread) v m : memory T :=
  mkmemory (history m) (cells m) (members m) (wrote m) (update2 (read m) p t (clock v t))
    (holder m) (unlocked m).
Definition log_write (p : place) (t : thread) v m : memory T :=
  mkmemory (history m) (cells m) (members m) (update2 (wrote m) p t (clock v t)) (read m)
    (holder m) (unlocked m).
Definition set_cells (b : list T) m : memory T :=
  mkmemory (history m) b (members m) (wrote m) (read m) (holder m) (unlocked m).
Definition set_member (x : var) (n : Z) m : memory T :=
  mkmemory (history m) (cells m) (λ y, if decide (y = x) then n else members m y)
    (wrote m) (read m) (holder m) (unlocked m).
Definition set_holder (h : option thread) v m : memory T :=
  mkmemory (history m) (cells m) (members m) (wrote m) (read m) h v.

(** No conflicting access of the other thread is unordered with this one. *)
Definition may_read (t : thread) v (p : place) m : bool :=
  bool_decide (wrote m p (other t) ≤ clock v (other t))%nat.
Definition may_write (t : thread) v (p : place) m : bool :=
  may_read t v p m && bool_decide (read m p (other t) ≤ clock v (other t))%nat.

Inductive outcome (A : Type) : Type :=
| Next (p : prog T A) (v : view) (m : memory T)
| Blocked
| Fault.

Arguments Next {A} _ _ _.
Arguments Blocked {A}.
Arguments Fault {A}.

(** One step of thread [t]; a load reads message [choice].  A store must
    follow the latest message: with one writer per location no other
    modification order exists. *)
Definition exec {A} (t : thread) (choice : nat) (p : prog T A) v m : outcome A :=
  let v := tick t v in
  match p with
  | Ret _ => Blocked
  | Load o l k =>
      if decide (choice < seen v l)%nat then Blocked
      else match history m l !! choice with
      | None => Blocked
      | Some msg =>
          Next (k (value msg))
            (observe l choice (if acquires o then join v (released msg) else v)) m
      end
  | Store o l x k =>
      if decide (S (seen v l) = length (history m l)) then
        let v := observe l (length (history m l)) v in
        let rel := if releases o then v else observe l (length (history m l)) no_view in
        Next k v (append_message l (mkmessage x rel) m)
      else Fault
  | Get x k =>
      if may_read t v (Member x) m then Next (k (members m x)) v (log_read (Member x) t v m)
      else Fault
  | Put x n k =>
      if may_write t v (Member x) m
      then Next k v (set_member x n (log_write (Member x) t v m)) else Fault
  | ReadCell i k =>
      if decide (0 ≤ i) then
        match cells m !! Z.to_nat i with
        | None => Fault
        | Some x =>
            if may_read t v (Cell i) m then Next (k x) v (log_read (Cell i) t v m) else Fault
        end
      else Fault
  | WriteCell i x k =>
      if decide (0 ≤ i) then
        match put (cells m) (Z.to_nat i) x with
        | None => Fault
        | Some b =>
            if may_write t v (Cell i) m then Next k v (set_cells b (log_write (Cell i) t v m))
            else Fault
        end
      else Fault
  | Lock k =>
      match holder m with
      | None => Next k (join v (unlocked m)) (set_holder (Some t) (unlocked m) m)
      | Some u => if decide (u = t) then Fault else Blocked
      end
  | Unlock k =>
      if decide (holder m = Some t) then Next k v (set_holder None v m) else Fault
  end.

(** ** The two threads

    The producer calls [push] and the consumer [pop] any number of times, with
    any arguments; both run one step at a time in any order. *)

Record config : Type := mkconfig {
  mem : memory T;
  views : thread → view;
  pushing : option (T * prog T bool);     (** the call in flight, with its argument *)
  popping : option (prog T (bool * T));
  pushed : list T;                        (** the arguments of calls that returned true *)
  popped : list T                         (** the results of calls that returned true *)
}.

Definition set_view (t : thread) (v : view) (vs : thread → view) : thread → view :=
  λ u, if decide (u = t) then v else vs u.

Inductive schedule : Type :=
| CallPush (x : T)
| CallPop (out : T)
| Step (t : thread) (choice : nat).

Inductive result : Type := Config (c : config) | NotEnabled | Undefined.

Section threads.
Context (push : T → prog T bool) (pop : T → prog T (bool * T)).

Definition step (s : schedule) (c : config) : result :=
  match s with
  | CallPush x =>
      match pushing c with
      | None => Config (mkconfig (mem c) (views c) (Some (x, push x)) (popping c) (pushed c) (popped c))
      | Some _ => NotEnabled
      end
  | CallPop out =>
      match popping c with
      | None => Config (mkconfig (mem c) (views c) (pushing c) (Some (pop out)) (pushed c) (popped c))
      | Some _ => NotEnabled
      end
  | Step Producer choice =>
      match pushing c with
      | None => NotEnabled
      | Some (x, Ret b) =>
          Config (mkconfig (mem c) (views c) None (popping c)
                    (if b : bool then pushed c ++ [x] else pushed c) (popped c))
      | Some (x, p) =>
          match exec Producer choice p (views c Producer) (mem c) with
          | Next p v m =>
              Config (mkconfig m (set_view Producer v (views c)) (Some (x, p)) (popping c)
                        (pushed c) (popped c))
          | Blocked => NotEnabled
          | Fault => Undefined
          end
      end
  | Step Consumer choice =>
      match popping c with
      | None => NotEnabled
      | Some (Ret (b, y)) =>
          Config (mkconfig (mem c) (views c) (pushing c) None (pushed c)
                    (if b : bool then popped c ++ [y] else popped c))
      | Some p =>
          match exec Consumer choice p (views c Consumer) (mem c) with
          | Next p v m =>
              Config (mkconfig m (set_view Consumer v (views c)) (pushing c) (Some p)
                        (pushed c) (popped c))
          | Blocked => NotEnabled
          | Fault => Undefined
          end
      end
  end.

Definition steps_to (c c' : config) : Prop := ∃ s, step s c = Config c'.

(** A whole schedule; [None] when a step is not enabled or undefined. *)
Fixpoint run_schedule (ss : list schedule) (c : config) : option config :=
  match ss with
  | [] => Some c
  | s :: ss => match step s c with Config c => run_schedule ss c | _ => None end
  end.

Lemma run_schedule_reaches ss c c' : run_schedule ss c = Some c' → rtc steps_to c c'.
Proof.
  revert c. induction ss as [|s ss IH]; intros c; simpl; [by intros [= ->]|].
  destruct (step s c) as [c1| |] eqn:E; [|done..]. intros H.
  eapply rtc_l; [by exists s|]. by apply IH.
Qed.

End threads.

Definition initial `{!Inhabited T} (Capacity : Z) : config :=
  mkconfig (initial_memory Capacity) (λ _, no_view) None None [] [].

End machine.

Arguments outcome : clear implicits.
Arguments config : clear implicits.
Arguments schedule : clear implicits.
Arguments result : clear implicits.
Arguments Next {T A} _ _ _.
Arguments Blocked {T A}.
Arguments Fault {T A}.
Arguments Config {T} _.
Arguments NotEnabled {T}.
Arguments Undefined {T}.
Arguments CallPush {T} _.
Arguments CallPop {T} _.
Arguments Step {T} _ _.
