(* ===== verification/SpscLogic.v ===== *)
(** * A logic for the lock-free ring buffers

    Each thread counts the items it has passed on ([mine]) and the opponent's
    items it knows of ([theirs]).  [safe] says of a program that, under the
    protocol of the ring, every access it makes is within its thread's rights
    whatever the opponent does, and that it ends with a given postcondition.
    Two soundness theorems turn this into facts about the meanings of the
    programs: [run_safe] for one thread alone, and the invariant of
    [SpscConcurrent] for two threads on weak memory. *)

From S2P Require Import Prelude Ring Spsc SpscMachine.

(** The location a thread publishes its count in. *)
Definition own (t : thread) : atomic := match t with Producer => Head | Consumer => Tail end.

(** The thread a plain member belongs to. *)
Definition owner (x : var) : option thread :=
  match x with
  | ProducerTailCache | ProducerHead | ProducerTail => Some Producer
  | ConsumerHeadCache | ConsumerHead | ConsumerTail => Some Consumer
  | HeadIndex | TailIndex => None
  end.

Section logic.
Context {T : Type} (Capacity lim : Z) (enc : nat → Z).

(** What one thread knows. *)
Record local : Type := mklocal {
  mine : nat;            (** items passed on: [head_] or [tail_] stores made *)
  theirs : nat;          (** the opponent's count, as last acquired *)
  fresh : bool;          (** whether it was acquired during this operation *)
  hold : option T;       (** an item written or read, and not passed on yet *)
  passed : list T;       (** the items passed on *)
  members_of : var → Z   (** the thread's plain members *)
}.

Definition slot (k : nat) : Z := Z.of_nat k `mod` Capacity.

(** The cells a thread may use: free ones for the producer, items for the
    consumer. *)
Definition room (t : thread) (s : local) : Z :=
  match t with
  | Producer => Z.of_nat (theirs s) + lim - Z.of_nat (mine s)
  | Consumer => Z.of_nat (theirs s) - Z.of_nat (mine s)
  end.

Definition begin (s : local) : local :=
  mklocal (mine s) (theirs s) false None (passed s) (members_of s).
Definition know (r : nat) (s : local) : local :=
  mklocal (mine s) r true (hold s) (passed s) (members_of s).
Definition take_hold (x : T) (s : local) : local :=
  mklocal (mine s) (theirs s) (fresh s) (Some x) (passed s) (members_of s).
Definition pass (x : T) (s : local) : local :=
  mklocal (S (mine s)) (theirs s) (fresh s) None (passed s ++ [x]) (members_of s).
Definition assign (x : var) (n : Z) (s : local) : local :=
  mklocal (mine s) (theirs s) (fresh s) (hold s) (passed s)
    (λ y, if decide (y = x) then n else members_of s y).

Lemma assign_same x n s : members_of (assign x n s) x = n.
Proof. simpl. by rewrite decide_True. Qed.

Lemma assign_other x y n s : y ≠ x → members_of (assign x n s) y = members_of s y.
Proof. intros. simpl. by rewrite decide_False. Qed.

Fixpoint safe {A} (t : thread) (Q : local → A → Prop) (p : prog T A) (s : local) : Prop :=
  match p with
  | Ret a => Q s a
  | Load o l k =>
      if decide (l = own t) then safe t Q (k (enc (mine s))) s
      else acquires o = true ∧
           ∀ r, (theirs s ≤ r)%nat → 0 ≤ room t (know r s) ≤ lim →
                safe t Q (k (enc r)) (know r s)
  | Store o l v k =>
      l = own t ∧ releases o = true ∧ v = enc (S (mine s)) ∧
      ∃ x, hold s = Some x ∧ safe t Q k (pass x s)
  | Get x k => owner x = Some t ∧ safe t Q (k (members_of s x)) s
  | Put x n k => owner x = Some t ∧ safe t Q k (assign x n s)
  | ReadCell i k =>
      t = Consumer ∧ i = slot (mine s) ∧ 0 < room t s ∧ ∀ x, safe t Q (k x) (take_hold x s)
  | WriteCell i x k =>
      t = Producer ∧ i = slot (mine s) ∧ 0 < room t s ∧ safe t Q k (take_hold x s)
  | Lock _ | Unlock _ => False
  end.

(** Facts that every step of a safe program keeps. *)
Definition local_ok (t : thread) (s : local) : Prop :=
  0 ≤ room t s ≤ lim ∧ (hold s ≠ None → 0 < room t s) ∧ length (passed s) = mine s.

Lemma safe_mono {A} t (Q Q' : local → A → Prop) (p : prog T A) s :
  (∀ s a, Q s a → Q' s a) → safe t Q p s → safe t Q' p s.
Proof.
  intros HQ. revert s. induction p as [a|o l k IH|o l v k IH|x k IH|x v k IH|i k IH|i v k IH|k IH|k IH];
    intros s; simpl; try done; eauto.
  - case_decide; [eauto|]. intros [? Hk]. split; [done|]. intros. eauto.
  - intros (? & ? & ? & x & ? & ?). eauto 10.
  - intros []. eauto.
  - intros []. eauto.
  - intros (? & ? & ? & ?). eauto 10.
  - intros (? & ? & ? & ?). eauto 10.
Qed.

(** A safe program can reach its end, and what it has passed on stays so. *)
Lemma safe_ends {A} `{!Inhabited T} t (Q : local → A → Prop) (p : prog T A) s :
  local_ok t s → safe t Q p s →
  ∃ a s', Q s' a ∧ passed s `prefix_of` passed s' ∧ (mine s ≤ mine s')%nat.
Proof.
  revert s. induction p as [a|o l k IH|o l v k IH|x k IH|x v k IH|i k IH|i v k IH|k IH|k IH];
    intros s (Hroom & Hhold & Hlen); simpl; try done; eauto.
  - case_decide.
    + intros Hs. by eapply IH.
    + intros [_ Hk]. assert (room t (know (theirs s) s) = room t s) as E by by destruct t.
      destruct (IH (enc (theirs s)) (know (theirs s) s)) as (a & s' & ? & ? & ?).
      * unfold local_ok. by rewrite E.
      * apply Hk; [done|by rewrite E].
      * by exists a, s'.
  - intros (_ & _ & _ & x & Hx & H). destruct (IH (pass x s)) as (a & s' & ? & Hpre & ?); [|assumption|].
    + assert (0 < room t s) by (apply Hhold; by rewrite Hx).
      split; [destruct t; simpl in *; lia|]. split; [done|].
      simpl. rewrite length_app. simpl. lia.
    + exists a, s'. split_and!; [done|etrans; [|exact Hpre]; by apply prefix_app_r|simpl in *; lia].
  - intros [_ H]. by eapply IH.
  - intros [_ H]. destruct (IH (assign x v s)) as (a & s' & ? & ? & ?); [by split|done|]. by exists a, s'.
  - intros (_ & _ & Hr & H). destruct (IH inhabitant (take_hold inhabitant s)) as (a & s' & ? & ? & ?).
    + split; [done|]. by split.
    + apply H.
    + by exists a, s'.
  - intros (_ & _ & Hr & H). destruct (IH (take_hold v s)) as (a & s' & ? & ? & ?); [split; [done|by split]|done|].
    by exists a, s'.
Qed.

End logic.


