(* ===== verification/SpscVariants.v ===== *)
(** * The lock-free variants follow the protocol

    For V1 to V4 of [spsc_ring_buffer.hpp]: how counts are represented in
    [head_] and [tail_], what the cached members hold between operations, and
    the proof that [push] and [pop] are [safe] and end with the item passed on
    or, after a fresh look at the opponent, with a full or empty ring. *)

From S2P Require Import Prelude Ring Spsc SpscMachine SpscLogic.

(** ** Powers of two *)

Lemma is_power_of_two_iff value :
  is_u64 value → is_power_of_two value = true ↔ ∃ k, 0 ≤ k < 64 ∧ value = 2 ^ k.
Proof.
  intros [H0 Hhi]. unfold is_power_of_two. rewrite andb_true_iff, negb_true_iff, Z.eqb_neq, Z.eqb_eq.
  split.
  - intros [Hne Hland]. rewrite wrap_uint in Hland by (split; lia).
    exists (Z.log2 value). pose proof (Z.log2_spec value ltac:(lia)) as [Hlo Hup].
    assert (Z.log2 value < 64) by (apply Z.log2_lt_pow2; lia).
    split; [split; [apply Z.log2_nonneg|done]|].
    destruct (decide (2 ^ Z.log2 value = value)) as [|Hneq]; [done|].
    assert (1 ≤ 2 ^ Z.log2 value) by (apply (Z.pow_le_mono_r 2 0); [lia|apply Z.log2_nonneg]).
    assert (Z.log2 (value - 1) = Z.log2 value) as Hlog
      by (apply Z.log2_unique; [apply Z.log2_nonneg|lia]).
    assert (Z.testbit (Z.land value (value - 1)) (Z.log2 value) = true) as Hbit.
    { rewrite Z.land_spec, Z.bit_log2 by lia. rewrite <- Hlog, Z.bit_log2 by lia. done. }
    by rewrite Hland, Z.bits_0 in Hbit.
  - intros (k & Hk & ->). pose proof (Z.pow_pos_nonneg 2 k).
    split; [lia|]. rewrite wrap_uint by (split; lia). rewrite mask_mod by lia.
    apply Z.mod_same. lia.
Qed.

(** A condition stored as a [bool] before it is tested. *)
Lemma if_bool_decide {A} (P : Prop) `{!Decision P} (x y : A) :
  (if bool_decide P then x else y) = (if decide P then x else y).
Proof. by case_bool_decide; case_decide. Qed.

(** Runs the logic up to the first condition of a program. *)
Ltac open_code :=
  unfold SpscRingBufferAtomicV3.refresh, SpscRingBufferAtomicV4.no_room,
    SpscRingBufferAtomicV4.no_item, load, get, set, store, write_cell, read_cell,
    mbind, prog_mbind, mret, prog_mret;
  cbn [prog_bind safe].

Section variants.
Context {T : Type} (v : variant) (Capacity : Z) {HC : QueueCapacity Capacity}.

Lemma queue_capacity_pow : ∃ k, 1 ≤ k < 64 ∧ Capacity = 2 ^ k.
Proof using HC.
  destruct HC as [Hu H2 Hp]. apply is_power_of_two_iff in Hp as (k & Hk & ->); [|done].
  exists k. split; [|done]. destruct (decide (k = 0)) as [->|]; [done|lia].
Qed.

Lemma queue_capacity_bounds : 2 ≤ Capacity ≤ 2 ^ 63.
Proof using HC.
  split; [apply HC|]. destruct queue_capacity_pow as (k & Hk & ->). apply Z.pow_le_mono_r; lia.
Qed.

(** ** Counts in [head_] and [tail_] *)

Definition encode (k : nat) : Z :=
  match v with V4 => wrap 64 (Z.of_nat k) | _ => Z.of_nat k `mod` Capacity end.

Lemma encode_0 : encode 0 = 0.
Proof using HC. pose proof queue_capacity_bounds. unfold encode. by destruct v. Qed.

Lemma mask_slot i : Z.land i (Capacity - 1) = i `mod` Capacity.
Proof using HC. destruct queue_capacity_pow as (k & Hk & ->). apply mask_mod. lia. Qed.

Lemma wrap_slot_capacity i : wrap 64 i `mod` Capacity = i `mod` Capacity.
Proof using HC. destruct queue_capacity_pow as (k & Hk & ->). apply wrap_slot. lia. Qed.

Lemma increment_slot k : increment Capacity (slot Capacity k) = slot Capacity (S k).
Proof using HC.
  unfold increment, slot. rewrite mask_slot, wrap_slot_capacity, Zplus_mod_idemp_l.
  f_equal. lia.
Qed.

Lemma slot_range k : 0 ≤ slot Capacity k < Capacity.
Proof using HC. pose proof queue_capacity_bounds. apply Z.mod_pos_bound. lia. Qed.

(** Slots of counts less than a lap apart differ. *)
Lemma slot_inj i j :
  slot Capacity i = slot Capacity j → - Capacity < Z.of_nat i - Z.of_nat j < Capacity → i = j.
Proof using HC.
  pose proof queue_capacity_bounds. unfold slot. intros E Hd.
  assert ((Z.of_nat i - Z.of_nat j) `mod` Capacity = 0) as Hm
    by by rewrite Zminus_mod, E, Z.sub_diag.
  apply Z.mod_divide in Hm as [q Hq]; [|lia]. assert (q = 0) by nia. lia.
Qed.

Lemma slot_lap k r :
  Z.of_nat k - Z.of_nat r = Capacity → slot Capacity k = slot Capacity r.
Proof using HC.
  intros E. unfold slot. replace (Z.of_nat k) with (Z.of_nat r + 1 * Capacity) by lia.
  apply Z_mod_plus_full.
Qed.

(** ** Between operations *)

Definition members_ok (t : thread) (s : local (T:=T)) : Prop :=
  match v, t with
  | V3, Producer => members_of s ProducerTailCache = encode (theirs s)
  | V3, Consumer => members_of s ConsumerHeadCache = encode (theirs s)
  | V4, Producer =>
      members_of s ProducerHead = encode (mine s) ∧ members_of s ProducerTail = encode (theirs s)
  | V4, Consumer =>
      members_of s ConsumerTail = encode (mine s) ∧ members_of s ConsumerHead = encode (theirs s)
  | _, _ => True
  end.

Definition idle (t : thread) (s : local (T:=T)) : Prop :=
  local_ok (usable v Capacity) t s ∧ hold s = None ∧ members_ok t s.

(** What an operation that started in [s0] has done: passed an item on, or
    found no room after looking at the opponent again. *)
Definition op_done (t : thread) (s0 : local) (r : option T) (s : local) : Prop :=
  idle t s ∧ (theirs s0 ≤ theirs s)%nat ∧
  match r with
  | Some x => mine s = S (mine s0) ∧ passed s = passed s0 ++ [x]
  | None => mine s = mine s0 ∧ passed s = passed s0 ∧ fresh s = true ∧
            room (usable v Capacity) t s = 0
  end.

End variants.

(** ** [push] and [pop] *)

Section safety.
Context {T : Type} (Capacity : Z) {HC : QueueCapacity Capacity}.
Implicit Types (s : local (T:=T)).

(** The modulo comparison of [push] finds the ring full. *)
Lemma next_is_tail s r :
  0 ≤ room (Capacity - 1) Producer (know r s) →
  room (Capacity - 1) Producer (know r s) ≤ Capacity - 1 →
  slot Capacity (S (mine s)) = slot Capacity r ↔ room (Capacity - 1) Producer (know r s) = 0.
Proof using HC.
  simpl. intros Hlo Hhi. split; intros E.
  - destruct (decide (Z.of_nat (S (mine s)) - Z.of_nat r = Capacity)) as [|Hne]; [lia|].
    pose proof (queue_capacity_bounds Capacity). apply (slot_inj Capacity) in E; lia.
  - apply (slot_lap Capacity). lia.
Qed.

(** The modulo comparison of [pop] finds it empty. *)
Lemma tail_is_head s r :
  0 ≤ room (Capacity - 1) Consumer (know r s) ≤ Capacity - 1 →
  slot Capacity (mine s) = slot Capacity r ↔ room (Capacity - 1) Consumer (know r s) = 0.
Proof using HC.
  simpl. intros Hr. split; intros E.
  - pose proof (queue_capacity_bounds Capacity). apply (slot_inj Capacity) in E; lia.
  - by replace r with (mine s) by lia.
Qed.

(** In the middle of an operation that started in [s], with nothing held. *)
Definition during v (t : thread) (s s1 : local (T:=T)) : Prop :=
  mine s1 = mine s ∧ passed s1 = passed s ∧ hold s1 = None ∧ (theirs s ≤ theirs s1)%nat ∧
  0 ≤ room (usable v Capacity) t s1 ≤ usable v Capacity ∧ length (passed s) = mine s.

Lemma during_begin v t s : idle v Capacity t s → during v t s (begin s).
Proof. intros ((Hr & _ & Hl) & Hh & _). by destruct t. Qed.

Lemma during_know v t s s1 r :
  during v t s s1 → (theirs s1 ≤ r)%nat →
  0 ≤ room (usable v Capacity) t (know r s1) ≤ usable v Capacity → during v t s (know r s1).
Proof. intros (? & ? & ? & ? & ? & ?) ? ?. split_and!; simpl; try done; lia. Qed.

Lemma during_assign v t s s1 y n : during v t s s1 → during v t s (assign y n s1).
Proof. by destruct t. Qed.

(** The two ends of an operation. *)
Lemma op_passed v t s s1 x s' :
  during v t s s1 → 0 < room (usable v Capacity) t s1 →
  mine s' = S (mine s) → theirs s' = theirs s1 → hold s' = None → passed s' = passed s ++ [x] →
  members_ok v Capacity t s' → op_done v Capacity t s (Some x) s'.
Proof.
  intros (Hm & Hp & Hh & Hth & Hr & Hl) Hroom Hm' Hth' Hh' Hp' Hmem.
  assert (local_ok (usable v Capacity) t s') as Hok.
  { split; [|split; [by rewrite Hh'|rewrite Hp', Hm', length_app; simpl; lia]].
    destruct t; simpl in *; lia. }
  split; [by split|]. rewrite Hth'. by split.
Qed.

Lemma op_refused v t s s1 :
  during v t s s1 → room (usable v Capacity) t s1 = 0 → fresh s1 = true →
  members_ok v Capacity t s1 → op_done v Capacity t s None s1.
Proof.
  intros (Hm & Hp & Hh & Hth & Hr & Hl) Hroom Hf Hmem.
  assert (local_ok (usable v Capacity) t s1) as Hok.
  { split; [done|]. split; [by rewrite Hh|]. by rewrite Hp, Hm. }
  split; [by split|]. by split_and!.
Qed.

Definition push_post v s (x : T) (s' : local) (b : bool) : Prop :=
  op_done v Capacity Producer s (if b then Some x else None) s'.

Definition pop_post v s (out : T) (s' : local) (r : bool * T) : Prop :=
  op_done v Capacity Consumer s (if r.1 then Some r.2 else None) s' ∧ (r.1 = false → r.2 = out).

(** The accesses that end a successful operation of V1 to V3. *)
Lemma safe_push_end v s s1 x o :
  v ≠ V4 → during v Producer s s1 → 0 < room (usable v Capacity) Producer s1 →
  releases o = true → members_ok v Capacity Producer s1 →
  safe Capacity (usable v Capacity) (encode v Capacity) Producer
    (push_post v s x)
    (WriteCell (slot Capacity (mine s)) x
       (Store o Head (increment Capacity (slot Capacity (mine s))) (Ret true))) s1.
Proof using HC.
  intros Hv Hd Hroom Ho Hmem. pose proof Hd as (Hm & Hp & _). cbn [safe].
  rewrite Hm, increment_slot by done. split_and!; [done|done|done|done|done| |].
  { simpl. rewrite Hm. by destruct v. }
  exists x. split; [done|]. eapply op_passed; [done|done|..]; simpl; rewrite ?Hm, ?Hp; try done.
  by destruct v.
Qed.

Lemma safe_pop_end v s s1 o out :
  v ≠ V4 → during v Consumer s s1 → 0 < room (usable v Capacity) Consumer s1 →
  releases o = true → members_ok v Capacity Consumer s1 →
  safe Capacity (usable v Capacity) (encode v Capacity) Consumer
    (pop_post v s out)
    (ReadCell (slot Capacity (mine s)) (λ y,
       Store o Tail (increment Capacity (slot Capacity (mine s))) (Ret (true, y)))) s1.
Proof using HC.
  intros Hv Hd Hroom Ho Hmem. pose proof Hd as (Hm & Hp & _). cbn [safe].
  rewrite Hm, increment_slot by done. split_and!; [done|done|done|]. intros y.
  split_and!; [done|done| |].
  { simpl. rewrite Hm. by destruct v. }
  exists y. split; [done|]. split; [|done]. eapply op_passed; [done|done|..]; simpl; rewrite ?Hm, ?Hp; try done.
  by destruct v.
Qed.

(** A modulo index compared with the opponent's, just acquired. *)
Lemma safe_push_compare v s s1 x o :
  v ≠ V4 → during v Producer s s1 → fresh s1 = true → releases o = true →
  members_ok v Capacity Producer s1 →
  safe Capacity (usable v Capacity) (encode v Capacity) Producer (push_post v s x)
    (if decide (increment Capacity (slot Capacity (mine s)) = slot Capacity (theirs s1))
     then Ret false
     else WriteCell (slot Capacity (mine s)) x
            (Store o Head (increment Capacity (slot Capacity (mine s))) (Ret true))) s1.
Proof using HC.
  intros Hv Hd Hf Ho Hmem. pose proof Hd as (Hm & _ & _ & _ & Hr & _).
  assert (usable v Capacity = Capacity - 1) as Hu by by destruct v.
  assert (slot Capacity (S (mine s1)) = slot Capacity (theirs s1) ↔
          room (usable v Capacity) Producer s1 = 0) as Hiff.
  { rewrite Hu in *. destruct Hr as [Hr0 Hr1]. exact (next_is_tail s1 (theirs s1) Hr0 Hr1). }
  rewrite increment_slot, <- Hm by done. case_decide as Hcmp; rewrite Hiff in Hcmp.
  - by apply op_refused.
  - rewrite <- increment_slot, Hm by done. apply safe_push_end; try done. lia.
Qed.

Lemma safe_pop_compare v s s1 o out :
  v ≠ V4 → during v Consumer s s1 → fresh s1 = true → releases o = true →
  members_ok v Capacity Consumer s1 →
  safe Capacity (usable v Capacity) (encode v Capacity) Consumer (pop_post v s out)
    (if decide (slot Capacity (mine s) = slot Capacity (theirs s1)) then Ret (false, out)
     else ReadCell (slot Capacity (mine s)) (λ y,
            Store o Tail (increment Capacity (slot Capacity (mine s))) (Ret (true, y)))) s1.
Proof using HC.
  intros Hv Hd Hf Ho Hmem. pose proof Hd as (Hm & _ & _ & _ & Hr & _).
  assert (usable v Capacity = Capacity - 1) as Hu by by destruct v.
  assert (slot Capacity (mine s1) = slot Capacity (theirs s1) ↔
          room (usable v Capacity) Consumer s1 = 0) as Hiff.
  { rewrite Hu in *. exact (tail_is_head s1 (theirs s1) Hr). }
  case_decide as Hcmp; rewrite <- Hm, Hiff in Hcmp.
  - split; [|done]. by apply op_refused.
  - apply safe_pop_end; try done. lia.
Qed.

Lemma push_V1_safe s x :
  idle V1 Capacity Producer s →
  safe Capacity (usable V1 Capacity) (encode V1 Capacity) Producer (push_post V1 s x)
    (push V1 Capacity x) (begin s).
Proof using HC.
  intros Hi%during_begin. split; [done|]. intros r Hr Hroom.
  by apply (safe_push_compare V1 s (know r (begin s)) x seq_cst); try apply during_know.
Qed.

Lemma pop_V1_safe s out :
  idle V1 Capacity Consumer s →
  safe Capacity (usable V1 Capacity) (encode V1 Capacity) Consumer (pop_post V1 s out)
    (pop V1 Capacity out) (begin s).
Proof using HC.
  intros Hi%during_begin. split; [done|]. intros r Hr Hroom.
  by apply (safe_pop_compare V1 s (know r (begin s)) seq_cst); try apply during_know.
Qed.

Lemma push_V2_safe s x :
  idle V2 Capacity Producer s →
  safe Capacity (usable V2 Capacity) (encode V2 Capacity) Producer (push_post V2 s x)
    (push V2 Capacity x) (begin s).
Proof using HC.
  intros Hi%during_begin. split; [done|]. intros r Hr Hroom.
  by apply (safe_push_compare V2 s (know r (begin s)) x release); try apply during_know.
Qed.

Lemma pop_V2_safe s out :
  idle V2 Capacity Consumer s →
  safe Capacity (usable V2 Capacity) (encode V2 Capacity) Consumer (pop_post V2 s out)
    (pop V2 Capacity out) (begin s).
Proof using HC.
  intros Hi%during_begin. split; [done|]. intros r Hr Hroom.
  by apply (safe_pop_compare V2 s (know r (begin s)) release); try apply during_know.
Qed.

(** The modulo comparison with a cached count that is not the full ring's. *)
Lemma push_V3_safe s x :
  idle V3 Capacity Producer s →
  safe Capacity (usable V3 Capacity) (encode V3 Capacity) Producer (push_post V3 s x)
    (push V3 Capacity x) (begin s).
Proof using HC.
  intros Hi. pose proof Hi as ((Hroom & _) & _ & Hcache). apply during_begin in Hi.
  unfold push, SpscRingBufferAtomicV3.push. open_code.
  split; [done|]. change (members_of (begin s)) with (members_of s). rewrite Hcache.
  case_decide as Hcmp; open_code.
  - split; [done|]. intros r Hr Hroom'. open_code. split; [done|]. split; [done|].
    rewrite if_bool_decide.
    apply (safe_push_compare V3 s (assign ProducerTailCache (encode V3 Capacity r) (know r (begin s))) x release);
      try done. by apply during_assign, during_know.
  - apply (safe_push_end V3 s (begin s) x release); try done.
    change (room _ _ (begin s)) with (room (usable V3 Capacity) Producer s).
    change (encode V3 Capacity) with (slot Capacity) in Hcmp. rewrite increment_slot in Hcmp by done.
    rewrite (next_is_tail s (theirs s)) in Hcmp by apply Hroom.
    change (room _ _ (know _ _)) with (room (usable V3 Capacity) Producer s) in Hcmp. lia.
Qed.

Lemma pop_V3_safe s out :
  idle V3 Capacity Consumer s →
  safe Capacity (usable V3 Capacity) (encode V3 Capacity) Consumer (pop_post V3 s out)
    (pop V3 Capacity out) (begin s).
Proof using HC.
  intros Hi. pose proof Hi as ((Hroom & _) & _ & Hcache). apply during_begin in Hi.
  unfold pop, SpscRingBufferAtomicV3.pop. open_code.
  split; [done|]. change (members_of (begin s)) with (members_of s). rewrite Hcache.
  case_decide as Hcmp; open_code.
  - split; [done|]. intros r Hr Hroom'. open_code. split; [done|]. split; [done|].
    rewrite if_bool_decide.
    apply (safe_pop_compare V3 s (assign ConsumerHeadCache (encode V3 Capacity r) (know r (begin s))) release);
      try done. by apply during_assign, during_know.
  - apply (safe_pop_end V3 s (begin s) release); try done.
    change (room _ _ (begin s)) with (room (usable V3 Capacity) Consumer s).
    change (encode V3 Capacity) with (slot Capacity) in Hcmp.
    rewrite (tail_is_head s (theirs s)) in Hcmp by apply Hroom.
    change (room _ _ (know _ _)) with (room (usable V3 Capacity) Consumer s) in Hcmp. lia.
Qed.

(** The free-running counters of V4. *)
Lemma encode_V4_sub a b :
  0 ≤ Z.of_nat a - Z.of_nat b ≤ Capacity →
  encode V4 Capacity a -₆₄ encode V4 Capacity b = Z.of_nat a - Z.of_nat b.
Proof using HC.
  intros Hd. pose proof (queue_capacity_bounds Capacity). unfold encode.
  apply wrap_sub_close; [done|]. lia.
Qed.

Lemma encode_V4_inj a b :
  0 ≤ Z.of_nat a - Z.of_nat b ≤ Capacity → encode V4 Capacity a = encode V4 Capacity b → a = b.
Proof using HC.
  intros Hd E. pose proof (encode_V4_sub a b Hd) as Hs. rewrite E, Z.sub_diag in Hs.
  change (wrap 64 0) with 0 in Hs. lia.
Qed.

Lemma encode_V4_succ a : encode V4 Capacity a +₆₄ 1 = encode V4 Capacity (S a).
Proof. unfold encode, wrap. rewrite Zplus_mod_idemp_l. f_equal. lia. Qed.

Lemma idx_of_encode a : SpscRingBufferAtomicV4.idx_of Capacity (encode V4 Capacity a) = slot Capacity a.
Proof using HC.
  unfold SpscRingBufferAtomicV4.idx_of. rewrite mask_slot by done. unfold encode.
  by rewrite wrap_slot_capacity.
Qed.

(** The rest of [push] and [pop] once there is room. *)
Lemma safe_push_V4_end s s1 x :
  during V4 Producer s s1 → 0 < room Capacity Producer s1 → members_ok V4 Capacity Producer s1 →
  safe Capacity Capacity (encode V4 Capacity) Producer (push_post V4 s x)
    (Get ProducerHead (λ h, WriteCell (SpscRingBufferAtomicV4.idx_of Capacity h) x
       (Get ProducerHead (λ h, Put ProducerHead (h +₆₄ 1)
          (Get ProducerHead (λ h, Store release Head h (Ret true))))))) s1.
Proof using HC.
  intros Hd Hroom [Hh Ht]. pose proof Hd as (Hm & Hp & _). cbn [safe].
  rewrite Hh, idx_of_encode. rewrite assign_same. cbn [members_of take_hold].
  rewrite Hh, encode_V4_succ. repeat (split; [done|]).
  exists x. split; [done|]. eapply (op_passed V4 Producer s s1); try done; simpl; rewrite ?Hm, ?Hp; try done.
Qed.

Lemma safe_pop_V4_end s s1 out :
  during V4 Consumer s s1 → 0 < room Capacity Consumer s1 → members_ok V4 Capacity Consumer s1 →
  safe Capacity Capacity (encode V4 Capacity) Consumer (pop_post V4 s out)
    (Get ConsumerTail (λ t, ReadCell (SpscRingBufferAtomicV4.idx_of Capacity t) (λ y,
       Get ConsumerTail (λ t, Put ConsumerTail (t +₆₄ 1)
          (Get ConsumerTail (λ t, Store release Tail t (Ret (true, y)))))))) s1.
Proof using HC.
  intros Hd Hroom [Ht Hh]. pose proof Hd as (Hm & Hp & _). cbn [safe].
  rewrite Ht, idx_of_encode. do 4 (split; [done|]). intros y. rewrite assign_same. cbn [members_of take_hold].
  rewrite Ht, encode_V4_succ. repeat (split; [done|]).
  exists y. split; [done|]. split; [|done].
  eapply (op_passed V4 Consumer s s1); try done; simpl; rewrite ?Hm, ?Hp; try done.
Qed.

Lemma no_room_iff s1 :
  0 ≤ room Capacity Producer s1 ≤ Capacity →
  encode V4 Capacity (mine s1) -₆₄ encode V4 Capacity (theirs s1) = Capacity ↔
  room Capacity Producer s1 = 0.
Proof using HC. cbn [room]. intros Hr. rewrite encode_V4_sub by lia. lia. Qed.

Lemma no_item_iff s1 :
  0 ≤ room Capacity Consumer s1 ≤ Capacity →
  encode V4 Capacity (theirs s1) = encode V4 Capacity (mine s1) ↔ room Capacity Consumer s1 = 0.
Proof using HC.
  cbn [room]. intros Hr. split; intros E; [apply encode_V4_inj in E; lia|]. f_equal. lia.
Qed.

Lemma push_V4_safe s x :
  idle V4 Capacity Producer s →
  safe Capacity (usable V4 Capacity) (encode V4 Capacity) Producer (push_post V4 s x)
    (push V4 Capacity x) (begin s).
Proof using HC.
  intros Hi. pose proof Hi as ((Hroom & _) & _ & Hh & Ht). apply during_begin in Hi.
  unfold push, SpscRingBufferAtomicV4.push. open_code.
  split; [done|]. split; [done|]. rewrite if_bool_decide.
  change (members_of (begin s)) with (members_of s). rewrite Hh, Ht.
  case_decide as Hcmp; rewrite (no_room_iff s Hroom) in Hcmp; open_code.
  - split; [done|]. intros r Hr Hroom'. open_code. do 3 (split; [done|]).
    rewrite if_bool_decide, assign_other, assign_same by done.
    change (members_of (know r (begin s))) with (members_of s). rewrite Hh.
    set (s1 := assign _ _ _). assert (during V4 Producer s s1) as Hd by by apply during_assign, during_know.
    change (mine s) with (mine s1). change r with (theirs s1).
    case_decide as Hcmp'; rewrite (no_room_iff s1 Hroom') in Hcmp'.
    + apply (op_refused V4 Producer s s1); try done.
    + apply (safe_push_V4_end s s1); [done|simpl in *; lia|done].
  - apply (safe_push_V4_end s (begin s)); [done|simpl in *; lia|done].
Qed.

Lemma pop_V4_safe s out :
  idle V4 Capacity Consumer s →
  safe Capacity (usable V4 Capacity) (encode V4 Capacity) Consumer (pop_post V4 s out)
    (pop V4 Capacity out) (begin s).
Proof using HC.
  intros Hi. pose proof Hi as ((Hroom & _) & _ & Ht & Hh). apply during_begin in Hi.
  unfold pop, SpscRingBufferAtomicV4.pop. open_code.
  split; [done|]. split; [done|]. rewrite if_bool_decide.
  change (members_of (begin s)) with (members_of s). rewrite Hh, Ht.
  case_decide as Hcmp; rewrite (no_item_iff s Hroom) in Hcmp; open_code.
  - split; [done|]. intros r Hr Hroom'. open_code. do 3 (split; [done|]).
    rewrite if_bool_decide, assign_same, assign_other by done.
    change (members_of (know r (begin s))) with (members_of s). rewrite Ht.
    set (s1 := assign _ _ _). assert (during V4 Consumer s s1) as Hd by by apply during_assign, during_know.
    change (mine s) with (mine s1). change r with (theirs s1).
    case_decide as Hcmp'; rewrite (no_item_iff s1 Hroom') in Hcmp'.
    + split; [|done]. apply (op_refused V4 Consumer s s1); try done.
    + apply (safe_pop_V4_end s s1); [done|simpl in *; lia|done].
  - apply (safe_pop_V4_end s (begin s)); [done|simpl in *; lia|done].
Qed.

(** ** All lock-free variants *)

Lemma push_safe v s x :
  v ≠ Mutex → idle v Capacity Producer s →
  safe Capacity (usable v Capacity) (encode v Capacity) Producer (push_post v s x)
    (push v Capacity x) (begin s).
Proof using HC.
  destruct v; intros Hv; [done|apply push_V1_safe|apply push_V2_safe|apply push_V3_safe|apply push_V4_safe].
Qed.

Lemma pop_safe v s out :
  v ≠ Mutex → idle v Capacity Consumer s →
  safe Capacity (usable v Capacity) (encode v Capacity) Consumer (pop_post v s out)
    (pop v Capacity out) (begin s).
Proof using HC.
  destruct v; intros Hv; [done|apply pop_V1_safe|apply pop_V2_safe|apply pop_V3_safe|apply pop_V4_safe].
Qed.

(** [emplace] constructs in place what [push] would copy. *)
Lemma emplace_push {Args} (construct : Args → T) args :
  SpscRingBufferAtomicV3.emplace Capacity construct args = push V3 Capacity (construct args).
Proof. done. Qed.

End safety.
