(* ===== verification/SpscSequential.v ===== *)
(** * The ring buffers, one operation at a time

    When operations do not overlap, every variant of [spsc_ring_buffer.hpp] is
    a bounded FIFO queue that never refuses without reason; so all five
    discharge the interface of [Queue] for clients that call one operation at
    a time. *)

From S2P Require Import Prelude Queue Ring Spsc SpscMachine SpscLogic SpscVariants.

(** ** Specification *)

Definition spec_push {T} (limit : Z) (x : T) (items : list T) : bool * list T :=
  if decide (Z.of_nat (length items) < limit) then (true, items ++ [x]) else (false, items).

Definition spec_pop {T} (out : T) (items : list T) : bool * T * list T :=
  match items with [] => (false, out, []) | x :: items => (true, x, items) end.

(** ** The items of a ring buffer *)

Section view.
Context {T : Type} (v : variant) (Capacity : Z).

Definition head_of (q : queue T) : Z :=
  match v with Mutex => vars q HeadIndex | _ => atomics q Head end.
Definition tail_of (q : queue T) : Z :=
  match v with Mutex => vars q TailIndex | _ => atomics q Tail end.

Definition set_head (n : Z) (q : queue T) : queue T :=
  match v with Mutex => set_var HeadIndex n q | _ => set_atomic Head n q end.
Definition set_tail (n : Z) (q : queue T) : queue T :=
  match v with Mutex => set_var TailIndex n q | _ => set_atomic Tail n q end.

Definition queue_count (q : queue T) : Z :=
  match v with
  | V4 => head_of q -₆₄ tail_of q
  | _ => (head_of q - tail_of q) `mod` Capacity
  end.

(** Oldest first. *)
Definition queue_items (q : queue T) : list T :=
  ring_view Capacity (buffer_ q) (tail_of q) (queue_count q).

(** A queue in memory represents what the two sides have counted. *)
Record rep (q : queue T) (p c : local (T:=T)) : Prop := {
  rep_head : head_of q = encode v Capacity (mine p);
  rep_tail : tail_of q = encode v Capacity (mine c);
  rep_vars_p x : owner x = Some Producer → vars q x = members_of p x;
  rep_vars_c x : owner x = Some Consumer → vars q x = members_of c x;
  rep_length : Z.of_nat (length (buffer_ q)) = Capacity;
  rep_count : 0 ≤ Z.of_nat (mine p) - Z.of_nat (mine c) ≤ usable v Capacity;
  rep_known_p : (theirs p ≤ mine c)%nat;
  rep_known_c : (theirs c ≤ mine p)%nat;
  rep_passed : length (passed p) = mine p;
  rep_taken : passed c = take (mine c) (passed p);
  rep_items k : (mine c ≤ k < mine p)%nat →
    buffer_ q !! Z.to_nat (slot Capacity k) = passed p !! k;
  rep_hold_p x : hold p = Some x → buffer_ q !! Z.to_nat (slot Capacity (mine p)) = Some x;
  rep_hold_c x : hold c = Some x → passed p !! mine c = Some x
}.

Definition queue_ok (q : queue T) : Prop :=
  mutex_ q = false ∧
  ∃ p c, rep q p c ∧ hold p = None ∧ hold c = None ∧
    (v ≠ Mutex → idle v Capacity Producer p ∧ idle v Capacity Consumer c).

End view.

Section rep.
Context {T : Type} (v : variant) (Capacity : Z) {HC : QueueCapacity Capacity}.
Implicit Types (q : queue T) (p c s : local (T:=T)).

Lemma usable_bounds : 0 < usable v Capacity ≤ Capacity.
Proof using HC. pose proof (queue_capacity_bounds Capacity). destruct v; simpl; lia. Qed.

Lemma rep_queue_items q p c :
  rep v Capacity q p c → queue_items v Capacity q = drop (mine c) (passed p).
Proof using HC.
  intros Hq. pose proof (queue_capacity_bounds Capacity) as HCb.
  pose proof (rep_count _ _ _ _ _ Hq) as Hc. pose proof usable_bounds as Hu.
  assert (queue_count v Capacity q = Z.of_nat (mine p) - Z.of_nat (mine c)) as Hn.
  { unfold queue_count. rewrite (rep_head _ _ _ _ _ Hq), (rep_tail _ _ _ _ _ Hq).
    destruct v; simpl in *; try (rewrite <- Zminus_mod; apply Z.mod_small; lia).
    exact (encode_V4_sub Capacity _ _ Hc). }
  unfold queue_items. rewrite Hn. apply ring_view_eq; [lia|apply Hq|lia| |].
  - rewrite length_drop, (rep_passed _ _ _ _ _ Hq). lia.
  - intros i Hi. rewrite lookup_drop, <- (rep_items _ _ _ _ _ Hq) by lia.
    rewrite (rep_tail _ _ _ _ _ Hq). do 2 f_equal. unfold slot.
    rewrite <- Zplus_mod_idemp_l, Nat2Z.inj_add, <- (Zplus_mod_idemp_l (Z.of_nat (mine c))).
    do 2 f_equal. unfold encode. destruct v; rewrite ?Zmod_mod; try done.
    by rewrite wrap_slot_capacity.
Qed.

Lemma rep_ext q q' p c :
  rep v Capacity q p c → (∀ l, atomics q l = atomics q' l) → (∀ x, vars q x = vars q' x) →
  buffer_ q = buffer_ q' → rep v Capacity q' p c.
Proof.
  intros Hq Ha Hv Hb. destruct Hq. split; rewrite <- ?Hb; try done.
  - rewrite <- rep_head0. unfold head_of. destruct v; by rewrite ?Ha, ?Hv.
  - rewrite <- rep_tail0. unfold tail_of. destruct v; by rewrite ?Ha, ?Hv.
  - intros y Hy. rewrite <- Hv. auto.
  - intros y Hy. rewrite <- Hv. auto.
Qed.

(** ** What single accesses do to it *)

Lemma head_of_set_head n q : head_of v (set_head v n q) = n.
Proof. by destruct v. Qed.
Lemma head_of_set_tail n q : head_of v (set_tail v n q) = head_of v q.
Proof. by destruct v. Qed.
Lemma tail_of_set_head n q : tail_of v (set_head v n q) = tail_of v q.
Proof. by destruct v. Qed.
Lemma tail_of_set_tail n q : tail_of v (set_tail v n q) = n.
Proof. by destruct v. Qed.
Lemma buffer_set_head n q : buffer_ (set_head v n q) = buffer_ q.
Proof. by destruct v. Qed.
Lemma buffer_set_tail n q : buffer_ (set_tail v n q) = buffer_ q.
Proof. by destruct v. Qed.
Lemma set_head_atomic n q : v ≠ Mutex → set_head v n q = set_atomic Head n q.
Proof. by destruct v. Qed.
Lemma set_tail_atomic n q : v ≠ Mutex → set_tail v n q = set_atomic Tail n q.
Proof. by destruct v. Qed.
Lemma vars_set_head n q x t : owner x = Some t → vars (set_head v n q) x = vars q x.
Proof. destruct v; try done. by destruct x. Qed.
Lemma vars_set_tail n q x t : owner x = Some t → vars (set_tail v n q) x = vars q x.
Proof. destruct v; try done. by destruct x. Qed.

Lemma rep_slot_lt q p c k :
  rep v Capacity q p c → (Z.to_nat (slot Capacity k) < length (buffer_ q))%nat.
Proof using HC.
  intros Hq. pose proof (rep_length _ _ _ _ _ Hq). pose proof (slot_range Capacity k). lia.
Qed.

Lemma rep_write q p c x :
  rep v Capacity q p c → Z.of_nat (mine p) - Z.of_nat (mine c) < usable v Capacity →
  rep v Capacity (set_buffer (<[Z.to_nat (slot Capacity (mine p)) := x]> (buffer_ q)) q)
    (take_hold x p) c.
Proof using HC.
  intros Hq Hroom. pose proof usable_bounds as Hu. pose proof (rep_slot_lt q p c (mine p) Hq) as Hlt.
  destruct Hq. split; simpl; try done.
  - by rewrite length_insert.
  - intros k Hk. rewrite list_lookup_insert_ne; [auto|]. intros E.
    apply Z2Nat.inj in E; [|apply slot_range; done..].
    apply (slot_inj Capacity) in E; lia.
  - intros y [= ->]. by apply list_lookup_insert_eq.
Qed.

Lemma rep_publish q p c x :
  rep v Capacity q p c → hold p = Some x →
  Z.of_nat (mine p) - Z.of_nat (mine c) < usable v Capacity →
  rep v Capacity (set_head v (encode v Capacity (S (mine p))) q) (pass x p) c.
Proof.
  intros Hq Hx Hroom. destruct Hq.
  split; rewrite ?head_of_set_head, ?tail_of_set_head, ?buffer_set_head; simpl; try done.
  - intros y Hy. by erewrite vars_set_head; [apply rep_vars_p0|].
  - intros y Hy. by erewrite vars_set_head; [apply rep_vars_c0|].
  - lia.
  - lia.
  - rewrite length_app. simpl. lia.
  - rewrite take_app_le; [done|lia].
  - intros k Hk. destruct (decide (k = mine p)) as [->|].
    + rewrite (rep_hold_p0 x) by done. rewrite lookup_app_r by lia.
      by replace (mine p - length (passed p))%nat with O by lia.
    + rewrite lookup_app_l by lia. apply rep_items0. lia.
  - intros y Hy. rewrite lookup_app_l; [by auto|]. apply rep_hold_c0, lookup_lt_Some in Hy. lia.
Qed.

Lemma rep_read q p c :
  rep v Capacity q p c → (mine c < mine p)%nat →
  ∃ x, buffer_ q !! Z.to_nat (slot Capacity (mine c)) = Some x ∧ rep v Capacity q p (take_hold x c).
Proof.
  intros Hq Hlt. pose proof (rep_passed _ _ _ _ _ Hq) as Hp.
  destruct (lookup_lt_is_Some_2 (passed p) (mine c)) as [x Hx]; [lia|].
  exists x. split; [by rewrite (rep_items _ _ _ _ _ Hq) by lia|].
  destruct Hq. split; simpl; try done. by intros y [= ->].
Qed.

Lemma rep_consume q p c x :
  rep v Capacity q p c → hold c = Some x →
  rep v Capacity (set_tail v (encode v Capacity (S (mine c))) q) p (pass x c).
Proof.
  intros Hq Hx. pose proof (rep_hold_c _ _ _ _ _ Hq x Hx) as Hp.
  pose proof (lookup_lt_Some _ _ _ Hp) as Hlt. destruct Hq.
  split; rewrite ?head_of_set_tail, ?tail_of_set_tail, ?buffer_set_tail; simpl; try done.
  - intros y Hy. by erewrite vars_set_tail; [apply rep_vars_p0|].
  - intros y Hy. by erewrite vars_set_tail; [apply rep_vars_c0|].
  - lia.
  - lia.
  - by rewrite (take_S_r _ _ x), rep_taken0.
  - intros k Hk. apply rep_items0. lia.
Qed.

Lemma rep_assign_p q p c x n :
  rep v Capacity q p c → owner x = Some Producer → rep v Capacity (set_var x n q) (assign x n p) c.
Proof.
  intros Hq Hx. destruct Hq. split; simpl; try done.
  - destruct v; simpl; try done. by rewrite decide_False by by intros <-.
  - destruct v; simpl; try done. by rewrite decide_False by by intros <-.
  - intros y Hy. case_decide; auto.
  - intros y Hy. rewrite decide_False; [auto|]. intros ->. by simplify_eq.
Qed.

Lemma rep_assign_c q p c x n :
  rep v Capacity q p c → owner x = Some Consumer → rep v Capacity (set_var x n q) p (assign x n c).
Proof.
  intros Hq Hx. destruct Hq. split; simpl; try done.
  - destruct v; simpl; try done. by rewrite decide_False by by intros <-.
  - destruct v; simpl; try done. by rewrite decide_False by by intros <-.
  - intros y Hy. rewrite decide_False; [auto|]. intros ->. by simplify_eq.
  - intros y Hy. case_decide; auto.
Qed.

(** ** Safe programs run alone *)

Lemma run_safe_push {A} (Q : local → A → Prop) (pr : prog T A) q p c :
  v ≠ Mutex →
  safe Capacity (usable v Capacity) (encode v Capacity) Producer Q pr p →
  rep v Capacity q p c → local_ok (usable v Capacity) Producer p →
  (fresh p = true → theirs p = mine c) →
  ∃ a q' p', run pr q = Some (a, q') ∧ Q p' a ∧ rep v Capacity q' p' c ∧ mutex_ q' = mutex_ q ∧
             (fresh p' = true → theirs p' = mine c).
Proof using HC.
  intros Hv. revert q p.
  induction pr as [a|o l k IH|o l n k IH|x k IH|x n k IH|i k IH|i n k IH|k IH|k IH];
    intros q p Hs Hq Hok Hf; cbn [safe run] in *; try done.
  - by exists a, q, p.
  - case_decide as Hl.
    + subst l. replace (atomics q (own Producer)) with (encode v Capacity (mine p)); [by eapply IH|].
      rewrite <- (rep_head _ _ _ _ _ Hq). by destruct v.
    + destruct Hs as [_ Hs]. destruct l; [done|].
      pose proof (rep_count _ _ _ _ _ Hq) as Hc. pose proof (rep_known_p _ _ _ _ _ Hq) as Hk.
      replace (atomics q Tail) with (encode v Capacity (mine c)).
      2:{ rewrite <- (rep_tail _ _ _ _ _ Hq). by destruct v. }
      eapply IH; [apply Hs; [done|simpl; lia]| | |done].
      * destruct Hq. by split.
      * destruct Hok as (_ & Hh & Hlen). split; [simpl; lia|]. split; [|done].
        simpl in *. intros Hne. specialize (Hh Hne). lia.
  - destruct Hs as (-> & _ & -> & x & Hx & Hs).
    assert (0 < room (usable v Capacity) Producer p) as Hroom by (apply Hok; by rewrite Hx).
    pose proof (rep_known_p _ _ _ _ _ Hq) as Hk.
    destruct (IH (set_head v (encode v Capacity (S (mine p))) q) (pass x p)) as (a & q' & p' & Hrun & ?).
    + done.
    + apply rep_publish; [done|done|]. simpl in Hroom. lia.
    + destruct Hok as (? & _ & ?). split; [simpl in *; lia|]. split; [done|].
      simpl. rewrite length_app. simpl. lia.
    + done.
    + exists a, q', p'. by destruct v.
  - destruct Hs as [Hx Hs]. rewrite (rep_vars_p _ _ _ _ _ Hq) by done. by eapply IH.
  - destruct Hs as [Hx Hs]. destruct (IH (set_var x n q) (assign x n p)) as (a & q' & p' & ?); try done.
    + by apply rep_assign_p.
    + by exists a, q', p'.
  - by destruct Hs.
  - destruct Hs as (_ & -> & Hroom & Hs). pose proof (rep_known_p _ _ _ _ _ Hq) as Hk.
    rewrite decide_True by (apply slot_range; done).
    rewrite put_Some by (by eapply rep_slot_lt). cbn [mbind option_bind].
    destruct (IH (set_buffer (<[Z.to_nat (slot Capacity (mine p)):=n]> (buffer_ q)) q) (take_hold n p))
      as (a & q' & p' & ?); [done| | |done|].
    + apply rep_write; [done|]. simpl in Hroom. lia.
    + destruct Hok as (? & _ & ?). by split.
    + by exists a, q', p'.
Qed.

Lemma run_safe_pop {A} (Q : local → A → Prop) (pr : prog T A) q p c :
  v ≠ Mutex →
  safe Capacity (usable v Capacity) (encode v Capacity) Consumer Q pr c →
  rep v Capacity q p c → local_ok (usable v Capacity) Consumer c →
  (fresh c = true → theirs c = mine p) →
  ∃ a q' c', run pr q = Some (a, q') ∧ Q c' a ∧ rep v Capacity q' p c' ∧ mutex_ q' = mutex_ q ∧
             (fresh c' = true → theirs c' = mine p).
Proof using HC.
  intros Hv. revert q c.
  induction pr as [a|o l k IH|o l n k IH|x k IH|x n k IH|i k IH|i n k IH|k IH|k IH];
    intros q c Hs Hq Hok Hf; cbn [safe run] in *; try done.
  - by exists a, q, c.
  - case_decide as Hl.
    + subst l. replace (atomics q (own Consumer)) with (encode v Capacity (mine c)); [by eapply IH|].
      rewrite <- (rep_tail _ _ _ _ _ Hq). by destruct v.
    + destruct Hs as [_ Hs]. destruct l; [|done].
      pose proof (rep_count _ _ _ _ _ Hq) as Hc. pose proof (rep_known_c _ _ _ _ _ Hq) as Hk.
      replace (atomics q Head) with (encode v Capacity (mine p)).
      2:{ rewrite <- (rep_head _ _ _ _ _ Hq). by destruct v. }
      eapply IH; [apply Hs; [done|simpl; lia]| | |done].
      * destruct Hq. by split.
      * destruct Hok as (_ & Hh & Hlen). split; [simpl; lia|]. split; [|done].
        simpl in *. intros Hne. specialize (Hh Hne). lia.
  - destruct Hs as (-> & _ & -> & x & Hx & Hs).
    assert (0 < room (usable v Capacity) Consumer c) as Hroom by (apply Hok; by rewrite Hx).
    destruct (IH (set_tail v (encode v Capacity (S (mine c))) q) (pass x c)) as (a & q' & c' & Hrun & ?).
    + done.
    + by apply rep_consume.
    + destruct Hok as (? & _ & ?). split; [simpl in *; lia|]. split; [done|].
      simpl. rewrite length_app. simpl. lia.
    + done.
    + exists a, q', c'. by destruct v.
  - destruct Hs as [Hx Hs]. rewrite (rep_vars_c _ _ _ _ _ Hq) by done. by eapply IH.
  - destruct Hs as [Hx Hs]. destruct (IH (set_var x n q) (assign x n c)) as (a & q' & c' & ?); try done.
    + by apply rep_assign_c.
    + by exists a, q', c'.
  - destruct Hs as (_ & -> & Hroom & Hs). pose proof (rep_known_c _ _ _ _ _ Hq) as Hk.
    rewrite decide_True by (apply slot_range; done).
    destruct (rep_read q p c Hq) as (x & Hx & Hq'); [simpl in Hroom; lia|].
    rewrite Hx. cbn [mbind option_bind].
    destruct (IH x q (take_hold x c)) as (a & q' & c' & ?); [done|done| |done|].
    + destruct Hok as (? & _ & ?). by split.
    + by exists a, q', c'.
  - by destruct Hs.
Qed.

Lemma rep_begin_p q p c : rep v Capacity q p c → hold p = None → rep v Capacity q (begin p) c.
Proof. intros Hq Hh. destruct Hq. by split. Qed.

Lemma rep_begin_c q p c : rep v Capacity q p c → hold c = None → rep v Capacity q p (begin c).
Proof. intros Hq Hh. destruct Hq. by split. Qed.

Lemma rep_set_mutex q p c b : rep v Capacity q p c → rep v Capacity (set_mutex b q) p c.
Proof. intros Hq. destruct Hq. by split. Qed.

Lemma begin_ok t s : idle v Capacity t s → local_ok (usable v Capacity) t (begin s).
Proof. intros ((? & ? & ?) & ? & ?). destruct t; by split. Qed.

(** What a push and a pop do to the represented items. *)
Lemma rep_items_pushed q q' p p' c x :
  rep v Capacity q p c → rep v Capacity q' p' c →
  mine p' = S (mine p) → passed p' = passed p ++ [x] →
  (true, queue_items v Capacity q') = spec_push (usable v Capacity) x (queue_items v Capacity q).
Proof using HC.
  intros Hq Hq' Hm Hp. rewrite (rep_queue_items _ _ _ Hq), (rep_queue_items _ _ _ Hq'), Hp.
  pose proof (rep_count _ _ _ _ _ Hq') as Hc. pose proof (rep_count _ _ _ _ _ Hq) as Hc'.
  pose proof (rep_passed _ _ _ _ _ Hq) as Hl.
  unfold spec_push. rewrite length_drop, decide_True by lia. by rewrite drop_app_le by lia.
Qed.

Lemma rep_items_full q q' p p' c x :
  rep v Capacity q p c → rep v Capacity q' p' c → passed p' = passed p →
  Z.of_nat (mine p) - Z.of_nat (mine c) = usable v Capacity →
  (false, queue_items v Capacity q') = spec_push (usable v Capacity) x (queue_items v Capacity q).
Proof using HC.
  intros Hq Hq' Hp Hfull. rewrite (rep_queue_items _ _ _ Hq), (rep_queue_items _ _ _ Hq'), Hp.
  pose proof (rep_passed _ _ _ _ _ Hq) as Hl. pose proof usable_bounds.
  unfold spec_push. rewrite length_drop, decide_False by lia. done.
Qed.

Lemma rep_items_popped q q' p c c' y out :
  rep v Capacity q p c → rep v Capacity q' p c' →
  mine c' = S (mine c) → passed c' = passed c ++ [y] →
  (true, y, queue_items v Capacity q') = spec_pop out (queue_items v Capacity q).
Proof using HC.
  intros Hq Hq' Hm Hp. rewrite (rep_queue_items _ _ _ Hq), (rep_queue_items _ _ _ Hq').
  pose proof (rep_taken _ _ _ _ _ Hq) as Ht. pose proof (rep_taken _ _ _ _ _ Hq') as Ht'.
  pose proof (rep_count _ _ _ _ _ Hq') as Hc. pose proof (rep_passed _ _ _ _ _ Hq) as Hl.
  destruct (lookup_lt_is_Some_2 (passed p) (mine c)) as [z Hz]; [lia|].
  rewrite Hm, Hp, Ht, (take_S_r _ _ z) in Ht' by done. simplify_list_eq.
  rewrite Hm. by rewrite (drop_S _ _ _ Hz).
Qed.

Lemma rep_items_empty q q' p c c' out :
  rep v Capacity q p c → rep v Capacity q' p c' → mine c' = mine c → mine p = mine c →
  (false, out, queue_items v Capacity q') = spec_pop out (queue_items v Capacity q).
Proof using HC.
  intros Hq Hq' Hm He. rewrite (rep_queue_items _ _ _ Hq), (rep_queue_items _ _ _ Hq').
  pose proof (rep_passed _ _ _ _ _ Hq) as Hl. by rewrite Hm, drop_ge by lia.
Qed.

End rep.

(** ** Every variant is a bounded FIFO *)

Section fifo.
Context {T : Type} `{!Inhabited T} (v : variant) (Capacity : Z) {HC : QueueCapacity Capacity}.
Implicit Types (q : queue T).

(** The two sides of a new queue. *)
Definition start : local (T:=T) := mklocal 0 0 false None [] (λ _, 0).

Lemma start_idle t : idle v Capacity t start.
Proof using HC.
  pose proof (usable_bounds v Capacity). pose proof (encode_0 v Capacity) as E.
  split; [split; [destruct t; simpl; lia|done]|]. split; [done|].
  destruct v, t; simpl; try split; by rewrite ?E.
Qed.

Lemma empty_rep : rep v Capacity (empty_queue Capacity) start start.
Proof using HC.
  pose proof (usable_bounds v Capacity).
  split; try done; try (by destruct v); try (simpl; lia).
  simpl. rewrite length_replicate. lia.
Qed.

Lemma empty_queue_ok : queue_ok v Capacity (empty_queue (T:=T) Capacity).
Proof using HC.
  split; [done|]. exists start, start. split_and!; try done; [apply empty_rep|].
  intros _. split; apply start_idle.
Qed.

Lemma empty_queue_items : queue_items v Capacity (empty_queue (T:=T) Capacity) = [].
Proof using HC. by rewrite (rep_queue_items v Capacity _ _ _ empty_rep). Qed.

(** The mutex variant, run to its end. *)
Lemma run_mutex_push q p c x :
  rep Mutex Capacity q p c → mutex_ q = false → hold p = None →
  ∃ b q' p', run (push Mutex Capacity x) q = Some (b, q') ∧ mutex_ q' = false ∧
    rep Mutex Capacity q' p' c ∧ hold p' = None ∧
    if b : bool then mine p' = S (mine p) ∧ passed p' = passed p ++ [x]
    else passed p' = passed p ∧ Z.of_nat (mine p) - Z.of_nat (mine c) = usable Mutex Capacity.
Proof using HC.
  intros Hq Hm Hh. pose proof (rep_count _ _ _ _ _ Hq) as Hc.
  pose proof (rep_head _ _ _ _ _ Hq) as Hhead. pose proof (rep_tail _ _ _ _ _ Hq) as Htail.
  cbn [head_of tail_of encode usable] in *.
  unfold push, SpscRingBufferMutex.push, locked. open_code. cbn [run]. rewrite Hm.
  cbn [vars set_mutex]. rewrite Hhead, Htail.
  change (Z.of_nat ?a `mod` Capacity) with (slot Capacity a).
  rewrite increment_slot by done. case_decide as Hcmp; open_code; cbn [run mutex_ set_mutex].
  - eexists _, _, p. split; [done|]. split; [done|].
    split; [by do 2 apply rep_set_mutex|]. split; [done|]. split; [done|]. simpl.
    destruct (decide (Z.of_nat (S (mine p)) - Z.of_nat (mine c) = Capacity)); [lia|].
    apply (slot_inj Capacity) in Hcmp; lia.
  - cbn [vars set_mutex]. rewrite Hhead. change (Z.of_nat ?a `mod` Capacity) with (slot Capacity a).
    rewrite decide_True by (apply slot_range; done).
    rewrite put_Some by exact (rep_slot_lt Mutex Capacity q p c (mine p) Hq). cbn [mbind option_bind run set_buffer set_var mutex_].
    assert (Z.of_nat (mine p) - Z.of_nat (mine c) < usable Mutex Capacity) as Hroom.
    { simpl. destruct (decide (Z.of_nat (mine p) - Z.of_nat (mine c) = Capacity - 1)); [|lia].
      exfalso. apply Hcmp. apply (slot_lap Capacity). lia. }
    eexists _, _, (pass x (take_hold x p)). split; [done|]. split; [done|]. split; [|done].
    apply rep_set_mutex.
    pose proof (rep_write Mutex Capacity _ p c x (rep_set_mutex Mutex Capacity q p c true Hq) Hroom) as Hw.
    by apply (rep_publish Mutex Capacity _ _ _ x Hw).
Qed.

Lemma run_mutex_pop q p c out :
  rep Mutex Capacity q p c → mutex_ q = false → hold c = None →
  ∃ b y q' c', run (pop Mutex Capacity out) q = Some ((b, y), q') ∧ mutex_ q' = false ∧
    rep Mutex Capacity q' p c' ∧ hold c' = None ∧
    if b : bool then mine c' = S (mine c) ∧ passed c' = passed c ++ [y]
    else y = out ∧ mine c' = mine c ∧ mine p = mine c.
Proof using HC.
  intros Hq Hm Hh. pose proof (rep_count _ _ _ _ _ Hq) as Hc.
  pose proof (rep_head _ _ _ _ _ Hq) as Hhead. pose proof (rep_tail _ _ _ _ _ Hq) as Htail.
  cbn [head_of tail_of encode usable] in *.
  unfold pop, SpscRingBufferMutex.pop, locked. open_code. cbn [run]. rewrite Hm.
  cbn [vars set_mutex]. rewrite Hhead, Htail.
  change (Z.of_nat ?a `mod` Capacity) with (slot Capacity a).
  case_decide as Hcmp; open_code; cbn [run mutex_ set_mutex].
  - eexists _, _, _, c. split; [done|]. split; [done|].
    split; [by do 2 apply rep_set_mutex|]. split; [done|]. split; [done|]. split; [done|].
    apply (slot_inj Capacity) in Hcmp; lia.
  - cbn [vars set_mutex]. rewrite Htail.
    change (Z.of_nat ?a `mod` Capacity) with (slot Capacity a).
    rewrite decide_True by (apply slot_range; done).
    assert (mine c < mine p)%nat as Hlt.
    { destruct (decide (mine c = mine p)) as [E|]; [by rewrite E in Hcmp|lia]. }
    destruct (rep_read Mutex Capacity q p c Hq Hlt) as (x & Hx & Hr).
    cbn [buffer_ set_mutex]. rewrite Hx. cbn [mbind option_bind run vars set_mutex set_var mutex_].
    rewrite increment_slot by done.
    eexists _, _, _, (pass x (take_hold x c)). split; [done|]. split; [done|]. split; [|done].
    apply rep_set_mutex.
    by apply (rep_consume Mutex Capacity _ p (take_hold x c) x (rep_set_mutex Mutex Capacity _ _ _ true Hr)).
Qed.

Lemma push_fifo q x :
  queue_ok v Capacity q →
  ∃ b q', run (push v Capacity x) q = Some (b, q') ∧ queue_ok v Capacity q' ∧
    (b, queue_items v Capacity q') = spec_push (usable v Capacity) x (queue_items v Capacity q).
Proof using HC.
  intros (Hm & p & c & Hq & Hp & Hc & Hidle). destruct (decide (v = Mutex)) as [->|Hv].
  - destruct (run_mutex_push q p c x Hq Hm Hp) as (b & q' & p' & Hrun & Hm' & Hq' & Hp' & Hb).
    exists b, q'. split; [done|]. split; [split; [done|by exists p', c]|].
    destruct b; destruct Hb as [Hb1 Hb2].
    + by eapply rep_items_pushed.
    + by eapply rep_items_full.
  - destruct (Hidle Hv) as [Hip Hic].
    destruct (run_safe_push v Capacity (push_post Capacity v p x) (push v Capacity x) q (begin p) c)
      as (b & q' & p' & Hrun & (Hip' & _ & Hb) & Hq' & Hm' & Hf); try done.
    { by apply push_safe. }
    { by apply rep_begin_p. }
    { by apply begin_ok. }
    exists b, q'. split; [done|]. split.
    { split; [by rewrite Hm'|]. exists p', c. split_and!; [done|apply Hip'|done|by intros]. }
    destruct b.
    + destruct Hb as [Hb1 Hb2]. by eapply rep_items_pushed.
    + destruct Hb as (Hb1 & Hb2 & Hb3 & Hb4). eapply rep_items_full; [done..|].
      specialize (Hf Hb3). cbn [room] in Hb4. lia.
Qed.

Lemma pop_fifo q out :
  queue_ok v Capacity q →
  ∃ b y q', run (pop v Capacity out) q = Some ((b, y), q') ∧ queue_ok v Capacity q' ∧
    (b, y, queue_items v Capacity q') = spec_pop out (queue_items v Capacity q).
Proof using HC.
  intros (Hm & p & c & Hq & Hp & Hc & Hidle). destruct (decide (v = Mutex)) as [->|Hv].
  - destruct (run_mutex_pop q p c out Hq Hm Hc) as (b & y & q' & c' & Hrun & Hm' & Hq' & Hc' & Hb).
    exists b, y, q'. split; [done|]. split; [split; [done|by exists p, c']|].
    destruct b.
    + destruct Hb. by eapply rep_items_popped.
    + destruct Hb as (-> & ? & ?). by eapply rep_items_empty.
  - destruct (Hidle Hv) as [Hip Hic].
    destruct (run_safe_pop v Capacity (pop_post Capacity v c out) (pop v Capacity out) q p (begin c))
      as ([b y] & q' & c' & Hrun & ((Hic' & _ & Hb) & Hout) & Hq' & Hm' & Hf); try done.
    { by apply pop_safe. }
    { by apply rep_begin_c. }
    { by apply begin_ok. }
    exists b, y, q'. split; [done|]. split.
    { split; [by rewrite Hm'|]. exists p, c'. split_and!; [done|done|apply Hic'|by intros]. }
    simpl in Hb, Hout. destruct b.
    + destruct Hb as [Hb1 Hb2]. by eapply rep_items_popped.
    + destruct Hb as (Hb1 & Hb2 & Hb3 & Hb4). rewrite Hout by done.
      eapply rep_items_empty; [done..|]. specialize (Hf Hb3). cbn [room] in Hb4. lia.
Qed.

Lemma queue_items_bound q :
  queue_ok v Capacity q → Z.of_nat (length (queue_items v Capacity q)) ≤ usable v Capacity.
Proof using HC.
  intros (_ & p & c & Hq & _). rewrite (rep_queue_items _ _ _ _ _ Hq), length_drop.
  pose proof (rep_count _ _ _ _ _ Hq). pose proof (rep_passed _ _ _ _ _ Hq). lia.
Qed.

End fifo.

(** ** The interface *)

(** A queue of a given variant and capacity. *)
Definition ring (v : variant) (Capacity : Z) (T : Type) : Type := queue T.

#[export] Instance ring_queue v Capacity T `{!Inhabited T} : BoundedQueue (ring v Capacity T) T := {|
  q_empty := empty_queue Capacity;
  q_push x q := run (push v Capacity x) q;
  q_pop out q := '(b, y, q) ← run (pop v Capacity out) q; Some (b, y, q);
  q_look _ q := q;
  q_signal q := q;
  q_sync q := q;
  q_items q := queue_items v Capacity q;
  q_synced q := length (queue_items v Capacity q);
  q_signalled q := length (queue_items v Capacity q);
  q_lag _ := O;
  q_ok q := queue_ok v Capacity q;
  q_limit := usable v Capacity
|}.

#[export] Instance ring_laws v Capacity T `{!Inhabited T} {HC : QueueCapacity Capacity} :
  BoundedQueueLaws (ring v Capacity T) T.
Proof.
  split; simpl; try done.
  - by apply empty_queue_ok.
  - by apply empty_queue_items.
  - apply (usable_bounds v Capacity).
  - intros. by apply queue_items_bound.
  - intros q x Hq. destruct (push_fifo v Capacity q x Hq) as (b & q' & -> & Hq' & Hs).
    exists b, q'. split; [done|]. unfold spec_push in Hs.
    case_decide; injection Hs as -> Hs; (split; simpl; rewrite ?Hs, ?app_nil_r, ?length_app; try done; lia).
  - intros q out Hq. destruct (pop_fifo v Capacity q out Hq) as (b & y & q' & -> & Hq' & Hs).
    exists b, y, q'. split; [done|]. unfold spec_pop in Hs.
    destruct (queue_items v Capacity q) eqn:E; injection Hs as -> -> Hs;
      (split; simpl; rewrite ?E, ?Hs; simpl; try done; lia).
  - intros q x Hq Hroom. destruct (push_fifo v Capacity q x Hq) as (b & q' & -> & _ & Hs).
    unfold spec_push in Hs. rewrite decide_True in Hs by done. injection Hs as -> _. by exists q'.
  - intros q out Hq Hne. destruct (pop_fifo v Capacity q out Hq) as (b & y & q' & -> & _ & Hs).
    destruct (queue_items v Capacity q); [done|]. injection Hs as -> -> _. by eexists _, _.
Qed.

#[export] Instance queue_capacity_4 : QueueCapacity 4.
Proof. split; [evaluate|lia|done]. Qed.

#[export] Instance queue_capacity_4096 : QueueCapacity 4096.
Proof. split; [evaluate|lia|done]. Qed.

(** ** Properties *)

(** C13: Run one after the other, the operations of every variant implement a
    bounded FIFO queue: in every state that satisfies the invariant [push]
    and [pop] are free of undefined behaviour and of deadlock, keep the
    invariant, refuse exactly when the queue is full (one cell less than the
    capacity for the modulo variants, the whole capacity for V4, whose 64-bit
    counters may wrap) or empty, and pass items on in order. *)
Theorem ring_buffer_fifo {T} (HT : Inhabited T) v Capacity (HC : QueueCapacity Capacity)
    (q : queue T) x :
  queue_ok v Capacity q →
  (∃ b q', run (push v Capacity x) q = Some (b, q') ∧ queue_ok v Capacity q' ∧
     (b, queue_items v Capacity q') = spec_push (usable v Capacity) x (queue_items v Capacity q)) ∧
  (∃ b y q', run (pop v Capacity x) q = Some ((b, y), q') ∧ queue_ok v Capacity q' ∧
     (b, y, queue_items v Capacity q') = spec_pop x (queue_items v Capacity q)) ∧
  queue_ok v Capacity (empty_queue (T:=T) Capacity) ∧
  queue_items v Capacity (empty_queue (T:=T) Capacity) = [].
Proof.
  intros Hq. split; [by apply push_fifo|]. split; [by apply pop_fifo|].
  split; [by apply empty_queue_ok|by apply empty_queue_items].
Qed.

(** The fourth of four pushes into four cells, by variant. *)
Example fourth_push :
  (λ v, fst <$> run (push v 4 10;; push v 4 20;; push v 4 30;; push v 4 40) (empty_queue (T:=Z) 4)) <$>
    [Mutex; V1; V2; V3; V4] =
  [Some false; Some false; Some false; Some false; Some true].
Proof. vm_compute. reflexivity. Qed.

Lemma ring_buffer_fifo_witness :
  ∃ q', run (push V4 4 7) (empty_queue 4) = Some (true, q') ∧ queue_items V4 4 q' = [7].
Proof.
  destruct (ring_buffer_fifo (T:=Z) (populate 0) V4 4 queue_capacity_4 (empty_queue 4) 7
    (empty_queue_ok V4 4)) as ((b & q' & Hrun & _ & Hs) & _).
  assert (spec_push (usable V4 4) 7 (queue_items V4 4 (empty_queue (T:=Z) 4)) = (true, [7])) as E
    by (vm_compute; reflexivity).
  rewrite E in Hs. injection Hs as -> Hi. exists q'. exact (conj Hrun Hi).
Defined.
