(* ===== verification/SpscConcurrent.v ===== *)
(** * The lock-free ring buffers under weak memory

    Soundness of the logic of [SpscLogic] for two threads: an invariant of all
    reachable configurations of [SpscMachine].  Its data part is the relation
    [rep] of the sequential proof; the rest says which message of [head_] and
    [tail_] publishes which accesses. *)

From S2P Require Import Prelude Ring Spsc SpscMachine SpscLogic SpscVariants SpscSequential.

Lemma own_other t l : l ≠ own t ↔ l = own (other t).
Proof. by destruct t, l. Qed.

Lemma other_other t : other (other t) = t.
Proof. by destruct t. Qed.

Lemma other_ne t : other t ≠ t.
Proof. by destruct t. Qed.

Section concurrent.
Context {T : Type} (v : variant) (Capacity : Z) {HC : QueueCapacity Capacity}.
Implicit Types (m : memory T) (vs : thread → view) (L : thread → local (T:=T)).

Definition set_local (t : thread) (s : local) L : thread → local :=
  λ u, if decide (u = t) then s else L u.

Lemma set_local_same t s L : set_local t s L t = s.
Proof. unfold set_local. by rewrite decide_True. Qed.
Lemma set_local_other t s L : set_local t s L (other t) = L (other t).
Proof. unfold set_local. by rewrite decide_False by apply other_ne. Qed.
Lemma set_view_same t w vs : set_view t w vs t = w.
Proof. unfold set_view. by rewrite decide_True. Qed.
Lemma set_view_other t w vs : set_view t w vs (other t) = vs (other t).
Proof. unfold set_view. by rewrite decide_False by apply other_ne. Qed.

(** Whether a thread has accessed the cell of its next item. *)
Definition held (s : local (T:=T)) : nat := match hold s with Some _ => 1 | None => 0 end.

(** The clock of a thread's last access to a place. *)
Definition accessed m (p : place) (t : thread) : nat := wrote m p t `max` read m p t.

(** The queue that the memory and the counts describe. *)
Definition abstract_queue m (p c : local (T:=T)) : queue T :=
  mkqueue (λ l, match l with
                | Head => encode v Capacity (mine p)
                | Tail => encode v Capacity (mine c)
                end) (members m) (cells m) false.

Definition data_ok m L : Prop :=
  rep v Capacity (abstract_queue m (L Producer) (L Consumer)) (L Producer) (L Consumer).

Record inv m vs L : Prop := {
  inv_data : data_ok m L;
  inv_local t : local_ok (usable v Capacity) t (L t);
  inv_history t : length (history m (own t)) = S (mine (L t));
  inv_message t j msg : history m (own t) !! j = Some msg →
    value msg = encode v Capacity j ∧ seen (released msg) (own t) = j ∧
    (seen (released msg) (own (other t)) ≤ theirs (L t))%nat;
  (** A message releases the accesses to every cell that no later item uses. *)
  inv_released t j msg i : history m (own t) !! j = Some msg →
    (∀ k, (j ≤ k < mine (L t) + held (L t))%nat → slot Capacity k ≠ i) →
    (accessed m (Cell i) t ≤ clock (released msg) t)%nat;
  inv_clock t p : (accessed m p t ≤ clock (vs t) t)%nat;
  inv_seen_own t : seen (vs t) (own t) = mine (L t);
  inv_seen t : seen (vs t) (own (other t)) = theirs (L t);
  inv_acquired t msg : history m (own (other t)) !! theirs (L t) = Some msg →
    (clock (released msg) (other t) ≤ clock (vs t) (other t))%nat;
  inv_members t x : owner x = Some t → accessed m (Member x) (other t) = O
}.

Lemma known_le m vs L t : inv m vs L → (theirs (L t) ≤ mine (L (other t)))%nat.
Proof.
  intros [Hd _ _ _ _ _ _ _ _ _]. destruct t; [apply (rep_known_p _ _ _ _ _ Hd)|apply (rep_known_c _ _ _ _ _ Hd)].
Qed.

(** The members of a thread are what its local state says. *)
Lemma member_value m vs L t x :
  inv m vs L → owner x = Some t → members m x = members_of (L t) x.
Proof.
  intros [Hd _ _ _ _ _ _ _ _ _] Hx. destruct t; [apply (rep_vars_p _ _ _ _ _ Hd)|apply (rep_vars_c _ _ _ _ _ Hd)]; done.
Qed.

(** The opponent's accesses that a thread does not know of are to other cells
    than the one it may use. *)
Lemma slots_apart m vs L t k :
  inv m vs L → 0 < room (usable v Capacity) t (L t) →
  (theirs (L t) ≤ k < mine (L (other t)) + held (L (other t)))%nat →
  slot Capacity k ≠ slot Capacity (mine (L t)).
Proof using HC.
  intros Hi Hroom Hk E. pose proof (usable_bounds v Capacity) as Hu.
  pose proof (known_le _ _ _ (other t) Hi) as Hkn. rewrite other_other in Hkn.
  pose proof (rep_count _ _ _ _ _ (inv_data _ _ _ Hi)) as Hc.
  assert (held (L (other t)) = 0 ∨ held (L (other t)) = 1 ∧ (0 < room (usable v Capacity) (other t) (L (other t)))%Z)%nat as Hheld.
  { unfold held. destruct (hold (L (other t))) eqn:Eh; [right|by left]. split; [done|].
    apply (inv_local _ _ _ Hi (other t)). by rewrite Eh. }
  apply (slot_inj Capacity) in E; destruct t; simpl in *; lia.
Qed.

(** Hence an access to that cell does not race. *)
Lemma no_race m vs L t :
  inv m vs L → 0 < room (usable v Capacity) t (L t) →
  (accessed m (Cell (slot Capacity (mine (L t)))) (other t) ≤ clock (vs t) (other t))%nat.
Proof using HC.
  intros Hi Hroom. pose proof (known_le _ _ _ t Hi) as Hk.
  pose proof (inv_history _ _ _ Hi (other t)) as Hl.
  destruct (lookup_lt_is_Some_2 (history m (own (other t))) (theirs (L t))) as [msg Hmsg]; [lia|].
  etrans; [|by apply (inv_acquired _ _ _ Hi)].
  apply (inv_released _ _ _ Hi _ _ _ _ Hmsg). intros k Hkk. by eapply slots_apart.
Qed.

Lemma thread_cases (t u : thread) : u = t ∨ u = other t.
Proof. destruct t, u; auto. Qed.

(** Splits a goal about thread [u] into the one about the stepping thread [t]
    and the one about its opponent. *)
Ltac by_thread t u :=
  destruct (thread_cases t u) as [->| ->];
  rewrite ?set_local_same, ?set_local_other, ?set_view_same, ?set_view_other.

Lemma abstract_queue_mine m p p' c c' :
  mine p = mine p' → mine c = mine c' → abstract_queue m p c = abstract_queue m p' c'.
Proof. unfold abstract_queue. by intros -> ->. Qed.

Lemma data_look m L t s :
  data_ok m L → mine s = mine (L t) → hold s = hold (L t) → passed s = passed (L t) →
  members_of s = members_of (L t) → (theirs s ≤ mine (L (other t)))%nat →
  data_ok m (set_local t s L).
Proof.
  intros Hd Hm Hh Hp Hv Hk. destruct Hd. destruct t.
  - change (rep v Capacity (abstract_queue m s (L Consumer)) s (L Consumer)).
    rewrite (abstract_queue_mine m s (L Producer) (L Consumer) (L Consumer)) by done.
    split; rewrite ?Hm, ?Hp, ?Hh, ?Hv; done.
  - change (rep v Capacity (abstract_queue m (L Producer) s) (L Producer) s).
    rewrite (abstract_queue_mine m (L Producer) (L Producer) s (L Consumer)) by done.
    split; rewrite ?Hm, ?Hp, ?Hh, ?Hv; done.
Qed.

(** A step that only changes what [t] has seen. *)
Lemma inv_look m vs L t w s :
  inv m vs L → local_ok (usable v Capacity) t s →
  mine s = mine (L t) → hold s = hold (L t) → passed s = passed (L t) →
  members_of s = members_of (L t) → (theirs (L t) ≤ theirs s ≤ mine (L (other t)))%nat →
  (∀ u, (clock (vs t) u ≤ clock w u)%nat) → seen w (own t) = mine (L t) →
  seen w (own (other t)) = theirs s →
  (∀ msg, history m (own (other t)) !! theirs s = Some msg →
     (clock (released msg) (other t) ≤ clock w (other t))%nat) →
  inv m (set_view t w vs) (set_local t s L).
Proof.
  intros Hi Hok Hm Hh Hp Hv [Hth Hk] Hclk Hso Hs Hacq.
  assert (held s = held (L t)) as Hheld by (unfold held; by rewrite Hh).
  split.
  - apply data_look; try done. apply Hi.
  - intros u. by_thread t u; [done|apply Hi].
  - intros u. by_thread t u; rewrite ?Hm; apply Hi.
  - intros u j msg Hj. by_thread t u; destruct (inv_message _ _ _ Hi _ _ _ Hj) as (? & ? & ?);
      split_and!; try done; lia.
  - intros u j msg i Hj. by_thread t u; rewrite ?Hm, ?Hheld; by apply (inv_released _ _ _ Hi).
  - intros u q. by_thread t u; [|apply Hi]. etrans; [apply Hi|apply Hclk].
  - intros u. by_thread t u; rewrite ?Hm; [done|apply Hi].
  - intros u. by_thread t u; [done|]. apply Hi.
  - intros u msg. by_thread t u; [apply Hacq|]. apply Hi.
  - intros u x Hx. apply (inv_members _ _ _ Hi u x Hx).
Qed.

(** A plain access of [t] that does not race. *)
Lemma inv_access m vs L t m' s p :
  inv m vs L → local_ok (usable v Capacity) t s →
  data_ok m' (set_local t s L) →
  history m' = history m → mine s = mine (L t) → theirs s = theirs (L t) →
  (held (L t) ≤ held s)%nat →
  (accessed m' p t ≤ clock (tick t (vs t)) t)%nat →
  (∀ p' u, p' ≠ p ∨ u ≠ t → accessed m' p' u = accessed m p' u) →
  (p = Cell (slot Capacity (mine (L t))) ∧ held s = 1%nat ∨ ∃ x, p = Member x ∧ owner x = Some t) →
  inv m' (set_view t (tick t (vs t)) vs) (set_local t s L).
Proof.
  intros Hi Hok Hrep Hhist Hm Hth Hheld Hacc Hsame Hp.
  assert (∀ u, clock (tick t (vs t)) u = if decide (u = t) then S (clock (vs t) u) else clock (vs t) u)
    as Hclk by done.
  split.
  - done.
  - intros u. by_thread t u; [done|apply Hi].
  - intros u. rewrite Hhist. by_thread t u; rewrite ?Hm; apply Hi.
  - intros u j msg. rewrite Hhist. intros Hj.
    by_thread t u; destruct (inv_message _ _ _ Hi _ _ _ Hj) as (? & ? & ?);
      split_and!; try done; lia.
  - intros u j msg i. rewrite Hhist. intros Hj Hi'.
    pose proof (lookup_lt_Some _ _ _ Hj) as Hlt. rewrite (inv_history _ _ _ Hi) in Hlt.
    rewrite Hsame.
    + apply (inv_released _ _ _ Hi _ _ _ _ Hj). intros k Hk. apply Hi'. revert Hk.
      by_thread t u; rewrite ?Hm; lia.
    + destruct (decide (u = t)) as [->|]; [left|by right].
      destruct Hp as [[-> Hone]|(x & -> & _)]; [|done]. intros [= ->].
      apply (Hi' (mine (L t))); [|done]. rewrite set_local_same, Hm, Hone. lia.
  - intros u q. by_thread t u.
    + destruct (decide (q = p)) as [->|]; [done|]. rewrite Hsame by auto.
      rewrite Hclk, decide_True by done. pose proof (inv_clock _ _ _ Hi t q). lia.
    + rewrite Hsame by (right; apply other_ne). apply Hi.
  - intros u. by_thread t u; [rewrite Hm|]; apply Hi.
  - intros u. by_thread t u; [rewrite Hth; apply Hi|]. apply Hi.
  - intros u msg. rewrite Hhist. by_thread t u.
    + rewrite Hth, Hclk, decide_False by apply other_ne. apply Hi.
    + apply Hi.
  - intros u x Hx. rewrite Hsame; [by apply (inv_members _ _ _ Hi)|].
    destruct (decide (other u = t)) as [<-|]; [left|by right].
    destruct Hp as [[-> _]|(y & -> & Hy)]; [done|]. intros [= <-]. rewrite Hx in Hy. by destruct u.
Qed.

Lemma history_append l msg m l' :
  history (append_message l msg m) l' = if decide (l' = l) then history m l' ++ [msg] else history m l'.
Proof. done. Qed.

(** Looking up a message in a history that grew. *)
Lemma lookup_append l msg m l' j msg' :
  history (append_message l msg m) l' !! j = Some msg' →
  history m l' !! j = Some msg' ∨ (l' = l ∧ j = length (history m l) ∧ msg' = msg).
Proof.
  rewrite history_append. case_decide as Hl; [subst l'|by left].
  intros [?|[Hj E]]%lookup_app_Some; [by left|right].
  apply list_lookup_singleton_Some in E as [? <-]. split_and!; [done|lia|done].
Qed.

(** A release store that passes on the item held. *)
Lemma inv_pass m vs L t x :
  inv m vs L → hold (L t) = Some x →
  let w := observe (own t) (length (history m (own t))) (tick t (vs t)) in
  let m' := append_message (own t) (mkmessage (encode v Capacity (S (mine (L t)))) w) m in
  local_ok (usable v Capacity) t (pass x (L t)) → data_ok m' (set_local t (pass x (L t)) L) →
  inv m' (set_view t w vs) (set_local t (pass x (L t)) L).
Proof.
  intros Hi Hx w m' Hok Hdata.
  pose proof (inv_history _ _ _ Hi t) as Hlen.
  assert (own (other t) ≠ own t) as Hown by by destruct t.
  assert (seen w (own t) = S (mine (L t))) as Hwo.
  { unfold w. simpl. rewrite decide_True, (inv_seen_own _ _ _ Hi) by done. lia. }
  assert (seen w (own (other t)) = theirs (L t)) as Hws.
  { unfold w. simpl. rewrite decide_False by done. apply Hi. }
  assert (∀ u, (clock (vs t) u ≤ clock w u)%nat) as Hclk by (intros u; simpl; case_decide; lia).
  assert (held (L t) = 1%nat) as Hheld by (unfold held; by rewrite Hx).
  split.
  - done.
  - intros u. by_thread t u; [done|apply Hi].
  - intros u. unfold m'. rewrite history_append. by_thread t u.
    + rewrite decide_True, length_app, Hlen by done. simpl. lia.
    + rewrite decide_False by done. apply Hi.
  - intros u j msg [Hj|(Hl & -> & ->)]%lookup_append.
    + destruct (inv_message _ _ _ Hi _ _ _ Hj) as (? & ? & ?). by_thread t u; by split_and!.
    + assert (u = t) as -> by by destruct u, t. rewrite set_local_same, Hlen. split_and!; [done|done|].
      change (released _) with w. simpl theirs. lia.
  - intros u j msg i Hj Hne.
    change (accessed m' (Cell i) u) with (accessed m (Cell i) u).
    apply lookup_append in Hj as [Hj|(Hl & -> & ->)].
    + apply (inv_released _ _ _ Hi _ _ _ _ Hj). intros k Hk. apply Hne. revert Hk.
      by_thread t u; [|lia]. rewrite Hheld. simpl. lia.
    + assert (u = t) as -> by by destruct u, t. etrans; [apply Hi|apply Hclk].
  - intros u q. change (accessed m' q u) with (accessed m q u). by_thread t u; [|apply Hi].
    etrans; [apply Hi|apply Hclk].
  - intros u. by_thread t u; [done|apply Hi].
  - intros u. by_thread t u; [done|apply Hi].
  - intros u msg Hj. apply lookup_append in Hj as [Hj|(Hl & Hth & _)].
    + revert Hj. by_thread t u; intros Hj; [|by apply (inv_acquired _ _ _ Hi)].
      etrans; [by apply (inv_acquired _ _ _ Hi)|apply Hclk].
    + assert (u = other t) as -> by by destruct u, t. rewrite set_local_other in Hth.
      pose proof (known_le _ _ _ (other t) Hi) as Hk. rewrite other_other in Hk. lia.
  - intros u y Hy. by apply (inv_members _ _ _ Hi u y Hy).
Qed.

(** ** One step of a safe program *)

(** What a thread knows of the opponent changes only when it reads the
    opponent's count. *)
Definition looked {A} (t : thread) (p : prog T A) (choice : nat) (s0 s : local (T:=T)) : Prop :=
  match p with
  | Load _ l _ => if decide (l = own t) then s = s0 else theirs s = choice
  | _ => theirs s = theirs s0 ∧ fresh s = fresh s0
  end.

Definition step_ok {A} (t : thread) (Q : local (T:=T) → A → Prop) m vs L choice (p : prog T A) : Prop :=
  match exec t choice p (vs t) m with
  | Next p' w m' => ∃ s, safe Capacity (usable v Capacity) (encode v Capacity) t Q p' s ∧
      inv m' (set_view t w vs) (set_local t s L) ∧ passed (L t) `prefix_of` passed s ∧
      looked t p choice (L t) s
  | Blocked => True
  | Fault => False
  end.

(** The two sides of the data in one statement. *)
Lemma data_write m L x :
  data_ok m L → 0 < room (usable v Capacity) Producer (L Producer) →
  data_ok (set_cells (<[Z.to_nat (slot Capacity (mine (L Producer))) := x]> (cells m)) m)
    (set_local Producer (take_hold x (L Producer)) L).
Proof using HC.
  intros Hd Hroom. pose proof (rep_known_p _ _ _ _ _ Hd) as Hk.
  eapply rep_ext; [apply (rep_write v Capacity _ _ _ x Hd)|..]; try done.
  simpl in Hroom. lia.
Qed.

Lemma data_read m L :
  data_ok m L → 0 < room (usable v Capacity) Consumer (L Consumer) →
  ∃ x, cells m !! Z.to_nat (slot Capacity (mine (L Consumer))) = Some x ∧
       data_ok m (set_local Consumer (take_hold x (L Consumer)) L).
Proof.
  intros Hd Hroom. pose proof (rep_known_c _ _ _ _ _ Hd) as Hk.
  destruct (rep_read v Capacity _ _ _ Hd) as (x & Hx & Hr); [simpl in Hroom; lia|].
  by exists x.
Qed.

Lemma data_pass m L t x msg :
  v ≠ Mutex → data_ok m L → local_ok (usable v Capacity) t (L t) → hold (L t) = Some x →
  data_ok (append_message (own t) msg m) (set_local t (pass x (L t)) L).
Proof.
  intros Hv Hd Hok Hx. destruct t.
  - assert (0 < room (usable v Capacity) Producer (L Producer)) as Hroom by (apply Hok; by rewrite Hx).
    pose proof (rep_known_p _ _ _ _ _ Hd) as Hk.
    eapply rep_ext; [apply (rep_publish v Capacity _ _ _ x Hd Hx); simpl in Hroom; lia|..];
      rewrite set_head_atomic by done; [by intros []|done..].
  - eapply rep_ext; [apply (rep_consume v Capacity _ _ _ x Hd Hx)|..];
      rewrite set_tail_atomic by done; [by intros []|done..].
Qed.

Lemma data_assign m L t x n :
  data_ok m L → owner x = Some t → data_ok (set_member x n m) (set_local t (assign x n (L t)) L).
Proof.
  intros Hd Hx. destruct t.
  - eapply rep_ext; [apply (rep_assign_p v Capacity _ _ _ x n Hd Hx)|..]; done.
  - eapply rep_ext; [apply (rep_assign_c v Capacity _ _ _ x n Hd Hx)|..]; done.
Qed.

Lemma pass_ok t (s : local (T:=T)) x :
  local_ok (usable v Capacity) t s → hold s = Some x →
  local_ok (usable v Capacity) t (pass x s).
Proof.
  intros (Hr & Hh & Hl) Hx. assert (0 < room (usable v Capacity) t s) by (apply Hh; by rewrite Hx).
  split; [destruct t; simpl in *; lia|]. split; [done|]. simpl. rewrite length_app. simpl. lia.
Qed.

Lemma know_ok m vs L t r :
  inv m vs L → (theirs (L t) ≤ r ≤ mine (L (other t)))%nat →
  0 ≤ room (usable v Capacity) t (know r (L t)) ≤ usable v Capacity ∧
  local_ok (usable v Capacity) t (know r (L t)).
Proof.
  intros Hi Hr. pose proof (rep_count _ _ _ _ _ (inv_data _ _ _ Hi)) as Hc.
  destruct (inv_local _ _ _ Hi t) as (Hroom & Hh & Hl).
  assert (0 ≤ room (usable v Capacity) t (know r (L t)) ≤ usable v Capacity) as Hk
    by (destruct t; simpl in *; lia).
  split; [done|]. split; [done|]. split; [|done]. intros Hne. specialize (Hh Hne).
  destruct t; simpl in *; lia.
Qed.

(** A load of the thread's own location. *)
Lemma load_own {A} m vs L t (Q : local (T:=T) → A → Prop) choice o k :
  inv m vs L → safe Capacity (usable v Capacity) (encode v Capacity) t Q (k (encode v Capacity (mine (L t)))) (L t) →
  step_ok t Q m vs L choice (Load o (own t) k).
Proof.
  intros Hi Hs. unfold step_ok, exec. case_decide as Hch; [done|].
  destruct (history m (own t) !! choice) as [msg|] eqn:Hmsg; [|done].
  pose proof (lookup_lt_Some _ _ _ Hmsg) as Hlt. rewrite (inv_history _ _ _ Hi) in Hlt.
  simpl in Hch. rewrite (inv_seen_own _ _ _ Hi) in Hch. assert (choice = mine (L t)) as -> by lia.
  destruct (inv_message _ _ _ Hi _ _ _ Hmsg) as (-> & Hso & Hs').
  assert (own (other t) ≠ own t) as Hown by by destruct t.
  pose proof (inv_seen_own _ _ _ Hi t) as Hvo. pose proof (inv_seen _ _ _ Hi t) as Hvs.
  exists (L t). split; [done|]. split; [|split; [done|unfold looked; by case_decide]].
  apply inv_look; try done; [apply Hi| | | | |].
  - split; [done|]. by eapply known_le.
  - intros u. destruct (acquires o); simpl; case_decide; lia.
  - simpl. rewrite decide_True by done. destruct (acquires o); simpl; lia.
  - simpl. rewrite decide_False by done. destruct (acquires o); simpl; lia.
  - intros msg' Hj. etrans; [by apply (inv_acquired _ _ _ Hi)|].
    destruct (acquires o); simpl; rewrite decide_False by apply other_ne; lia.
Qed.

(** An acquire load of the opponent's location. *)
Lemma load_other {A} m vs L t (Q : local (T:=T) → A → Prop) choice o k :
  inv m vs L → acquires o = true →
  (∀ r, (theirs (L t) ≤ r)%nat → 0 ≤ room (usable v Capacity) t (know r (L t)) ≤ usable v Capacity →
     safe Capacity (usable v Capacity) (encode v Capacity) t Q (k (encode v Capacity r)) (know r (L t))) →
  step_ok t Q m vs L choice (Load o (own (other t)) k).
Proof.
  intros Hi Ho Hs. unfold step_ok, exec. case_decide as Hch; [done|].
  destruct (history m (own (other t)) !! choice) as [msg|] eqn:Hmsg; [|done].
  pose proof (lookup_lt_Some _ _ _ Hmsg) as Hlt. rewrite (inv_history _ _ _ Hi) in Hlt.
  simpl in Hch. rewrite (inv_seen _ _ _ Hi) in Hch.
  destruct (inv_message _ _ _ Hi _ _ _ Hmsg) as (-> & Hso & Hs'). rewrite other_other in Hs'.
  pose proof (known_le _ _ _ (other t) Hi) as Hk. rewrite other_other in Hk.
  assert (own t ≠ own (other t)) as Hown by by destruct t.
  pose proof (inv_seen_own _ _ _ Hi t) as Hvo. pose proof (inv_seen _ _ _ Hi t) as Hvs.
  destruct (know_ok m vs L t choice Hi) as [Hroom Hok]; [lia|].
  rewrite Ho. exists (know choice (L t)). split; [apply Hs; [lia|done]|]. split; [|split; [done|unfold looked; by case_decide]].
  apply inv_look; try done; [simpl; lia| | | |].
  - intros u. simpl. case_decide; lia.
  - simpl. rewrite decide_False by done. lia.
  - simpl. rewrite decide_True by done. lia.
  - intros msg' Hj. simpl in Hj. rewrite Hmsg in Hj. injection Hj as <-. simpl. lia.
Qed.

(** A plain access that is allowed, as [inv_access] wants it. *)
Lemma logged_read m p t w :
  (accessed m p t ≤ clock w t)%nat → accessed (log_read p t w m) p t = clock w t.
Proof. unfold accessed, log_read, update2. simpl. rewrite decide_True by done. lia. Qed.

Lemma logged_write m p t w :
  (accessed m p t ≤ clock w t)%nat → accessed (log_write p t w m) p t = clock w t.
Proof. unfold accessed, log_write, update2. simpl. rewrite decide_True by done. lia. Qed.

Lemma logged_other m p t w p' u :
  p' ≠ p ∨ u ≠ t →
  accessed (log_read p t w m) p' u = accessed m p' u ∧
  accessed (log_write p t w m) p' u = accessed m p' u.
Proof.
  intros Hne. unfold accessed, log_read, log_write, update2. simpl.
  by rewrite !decide_False by (intros [-> ->]; by destruct Hne).
Qed.

Lemma may_access m t w p :
  (accessed m p (other t) ≤ clock w (other t))%nat →
  may_read t w p m = true ∧ may_write t w p m = true.
Proof.
  unfold accessed. intros Hle. unfold may_write, may_read.
  rewrite !bool_decide_eq_true_2 by lia. done.
Qed.

Lemma tick_clock m vs L t p :
  inv m vs L → (accessed m p t ≤ clock (tick t (vs t)) t)%nat.
Proof. intros Hi. pose proof (inv_clock _ _ _ Hi t p). simpl. rewrite decide_True by done. lia. Qed.

Lemma other_clock t w : clock (tick t w) (other t) = clock w (other t).
Proof. simpl. by rewrite decide_False by apply other_ne. Qed.

(** Accesses to a member of the thread's own. *)
Lemma get_member {A} m vs L t (Q : local (T:=T) → A → Prop) choice x k :
  inv m vs L → owner x = Some t →
  safe Capacity (usable v Capacity) (encode v Capacity) t Q (k (members_of (L t) x)) (L t) →
  step_ok t Q m vs L choice (Get x k).
Proof.
  intros Hi Hx Hs. unfold step_ok, exec.
  destruct (may_access m t (tick t (vs t)) (Member x)) as [-> _].
  { rewrite (inv_members _ _ _ Hi t x Hx). lia. }
  pose proof (tick_clock m vs L t (Member x) Hi) as Hc.
  exists (L t). split; [by rewrite (member_value _ _ _ _ _ Hi Hx)|]. split; [|split; [done|done]].
  apply (inv_access m vs L t _ _ (Member x)); try done.
  - apply Hi.
  - apply data_look; try done; [apply Hi|]. by eapply known_le.
  - by rewrite logged_read.
  - intros p' u Hne. by apply logged_other.
  - right. by exists x.
Qed.

Lemma put_member {A} m vs L t (Q : local (T:=T) → A → Prop) choice x n k :
  inv m vs L → owner x = Some t →
  safe Capacity (usable v Capacity) (encode v Capacity) t Q k (assign x n (L t)) →
  step_ok t Q m vs L choice (Put x n k).
Proof.
  intros Hi Hx Hs. unfold step_ok, exec.
  destruct (may_access m t (tick t (vs t)) (Member x)) as [_ ->].
  { rewrite (inv_members _ _ _ Hi t x Hx). lia. }
  pose proof (tick_clock m vs L t (Member x) Hi) as Hc.
  exists (assign x n (L t)). split; [done|]. split; [|split; [done|done]].
  apply (inv_access m vs L t _ _ (Member x)); try done.
  - apply (inv_local _ _ _ Hi t).
  - by apply (data_assign (log_write (Member x) t (tick t (vs t)) m)); [apply Hi|].
  - change (accessed (log_write (Member x) t (tick t (vs t)) m) (Member x) t ≤ clock (tick t (vs t)) t)%nat.
    by rewrite logged_write.
  - intros p' u Hne. by apply (logged_other m (Member x) t (tick t (vs t)) p' u).
  - right. by exists x.
Qed.

(** Accesses to the cell of the thread's next item. *)
Lemma get_cell {A} m vs L (Q : local (T:=T) → A → Prop) choice k :
  inv m vs L → 0 < room (usable v Capacity) Consumer (L Consumer) →
  (∀ x, safe Capacity (usable v Capacity) (encode v Capacity) Consumer Q (k x) (take_hold x (L Consumer))) →
  step_ok Consumer Q m vs L choice (ReadCell (slot Capacity (mine (L Consumer))) k).
Proof using HC.
  intros Hi Hroom Hs. unfold step_ok, exec. rewrite decide_True by (apply slot_range; done).
  destruct (data_read m L (inv_data _ _ _ Hi) Hroom) as (x & -> & Hdata).
  set (p := Cell _). destruct (may_access m Consumer (tick Consumer (vs Consumer)) p) as [-> _].
  { rewrite other_clock. by apply (no_race m vs L Consumer). }
  pose proof (tick_clock m vs L Consumer p Hi) as Hc.
  exists (take_hold x (L Consumer)). split; [done|]. split; [|split; [done|done]].
  apply (inv_access m vs L Consumer _ _ p); try done.
  - destruct (inv_local _ _ _ Hi Consumer) as (? & _ & ?). by split.
  - unfold held. destruct (hold _); simpl; lia.
  - by rewrite logged_read.
  - intros p' u Hne. by apply logged_other.
  - by left.
Qed.

Lemma put_cell {A} m vs L (Q : local (T:=T) → A → Prop) choice x k :
  inv m vs L → 0 < room (usable v Capacity) Producer (L Producer) →
  safe Capacity (usable v Capacity) (encode v Capacity) Producer Q k (take_hold x (L Producer)) →
  step_ok Producer Q m vs L choice (WriteCell (slot Capacity (mine (L Producer))) x k).
Proof using HC.
  intros Hi Hroom Hs. unfold step_ok, exec. rewrite decide_True by (apply slot_range; done).
  rewrite put_Some by exact (rep_slot_lt v Capacity _ _ _ (mine (L Producer)) (inv_data _ _ _ Hi)).
  set (p := Cell _). destruct (may_access m Producer (tick Producer (vs Producer)) p) as [_ ->].
  { rewrite other_clock. by apply (no_race m vs L Producer). }
  pose proof (tick_clock m vs L Producer p Hi) as Hc.
  exists (take_hold x (L Producer)). split; [done|]. split; [|split; [done|done]].
  apply (inv_access m vs L Producer _ _ p); try done.
  - destruct (inv_local _ _ _ Hi Producer) as (? & _ & ?). by split.
  - by apply (data_write (log_write p Producer (tick Producer (vs Producer)) m)); [apply Hi|].
  - unfold held. destruct (hold _); simpl; lia.
  - change (accessed (log_write p Producer (tick Producer (vs Producer)) m) p Producer ≤
            clock (tick Producer (vs Producer)) Producer)%nat. by rewrite logged_write.
  - intros p' u Hne. by apply (logged_other m p Producer (tick Producer (vs Producer)) p' u).
  - by left.
Qed.

(** No step of a safe program is undefined, and every step keeps the
    invariant. *)
Lemma exec_safe {A} m vs L t (Q : local (T:=T) → A → Prop) choice (p : prog T A) :
  v ≠ Mutex → inv m vs L →
  safe Capacity (usable v Capacity) (encode v Capacity) t Q p (L t) →
  step_ok t Q m vs L choice p.
Proof using HC.
  intros Hv Hi. destruct p as [a|o l k|o l n k|x k|x n k|i k|i n k|k|k]; cbn [safe]; try done.
  - case_decide as Hl; [subst l; by apply load_own|]. intros [Ho Hs].
    apply own_other in Hl as ->. by apply load_other.
  - intros (-> & Ho & -> & x & Hx & Hs).
    pose proof (pass_ok t (L t) x (inv_local _ _ _ Hi t) Hx) as Hok.
    unfold step_ok, exec. rewrite decide_True, Ho by by rewrite (inv_history _ _ _ Hi); simpl; rewrite (inv_seen_own _ _ _ Hi).
    exists (pass x (L t)). split; [done|]. split; [|split; [by apply prefix_app_r|done]].
    apply inv_pass; try done. apply data_pass; try done; apply Hi.
  - intros [Hx Hs]. by apply get_member.
  - intros [Hx Hs]. by apply put_member.
  - intros (-> & -> & Hroom & Hs). by apply get_cell.
  - intros (-> & -> & Hroom & Hs). by apply put_cell.
Qed.

(** Reading the message last seen is always possible. *)
Lemma exec_enabled {A} m vs L t (Q : local (T:=T) → A → Prop) (p : prog T A) :
  inv m vs L → safe Capacity (usable v Capacity) (encode v Capacity) t Q p (L t) →
  ∃ choice, exec t choice p (vs t) m = Blocked → ∃ a, p = Ret a.
Proof.
  intros Hi Hs.
  assert (∀ l, is_Some (history m l !! seen (vs t) l)) as Hl.
  { intros l. apply lookup_lt_is_Some_2. destruct (decide (l = own t)) as [->|Hl].
    - rewrite (inv_seen_own _ _ _ Hi), (inv_history _ _ _ Hi). lia.
    - apply own_other in Hl as ->. pose proof (known_le _ _ _ t Hi).
      rewrite (inv_seen _ _ _ Hi), (inv_history _ _ _ Hi). lia. }
  destruct p as [a|o l k|o l n k|x k|x n k|i k|i n k|k|k]; cbn [safe] in Hs; try done;
    try (exists O; unfold exec; repeat case_match; by eauto).
  exists (seen (vs t) l). unfold exec. change (seen (tick t (vs t)) l) with (seen (vs t) l).
  rewrite decide_False by lia. by destruct (Hl l) as [msg ->].
Qed.

(** ** Configurations *)

(** A thread between calls, or in a call that began in [s0]. *)
Definition calling {X A} (t : thread) (done_ : list T) (L : thread → local)
    (post : X → local → local → A → Prop) (call : option (X * prog T A)) : Prop :=
  match call with
  | None => idle v Capacity t (L t) ∧ passed (L t) = done_
  | Some (x, p) =>
      ∃ s0, idle v Capacity t s0 ∧ passed s0 = done_ ∧ passed s0 `prefix_of` passed (L t) ∧
        safe Capacity (usable v Capacity) (encode v Capacity) t (post x s0) p (L t)
  end.

Definition pop_post_any (_ : unit) (s0 s : local) (r : bool * T) : Prop :=
  ∃ out, pop_post Capacity v s0 out s r.

Definition config_ok (c : config T) : Prop :=
  ∃ L, inv (mem c) (views c) L ∧
    calling Producer (pushed c) L (λ x s0, push_post Capacity v s0 x) (pushing c) ∧
    calling Consumer (popped c) L pop_post_any (pair () <$> popping c).

Lemma inv_views m vs vs' L : (∀ u, vs u = vs' u) → inv m vs L → inv m vs' L.
Proof.
  intros E Hi. split; try apply Hi.
  - intros u q. rewrite <- E. apply Hi.
  - intros u. rewrite <- E. apply Hi.
  - intros u. rewrite <- E. apply Hi.
  - intros u msg. rewrite <- E. apply Hi.
Qed.

Lemma inv_begin m vs L t :
  inv m vs L → idle v Capacity t (L t) → inv m vs (set_local t (begin (L t)) L).
Proof.
  intros Hi Hidle. pose proof (inv_seen_own _ _ _ Hi t) as Hso. pose proof (inv_seen _ _ _ Hi t) as Hs.
  assert (inv m (set_view t (vs t) vs) (set_local t (begin (L t)) L)) as Hi'.
  { apply inv_look; try done.
    - by apply begin_ok.
    - symmetry. apply Hidle.
    - split; [done|]. by eapply known_le.
    - apply (inv_acquired _ _ _ Hi). }
  eapply inv_views; [|exact Hi']. intros u. unfold set_view. by case_decide; subst.
Qed.

(** What the opponent does leaves a call where it is. *)
Lemma calling_other {X A} t done_ L s (post : X → local → local → A → Prop) call :
  calling (other t) done_ L post call → calling (other t) done_ (set_local t s L) post call.
Proof. unfold calling. by rewrite !set_local_other. Qed.

(** A call begins. *)
Lemma calling_start {X A} t done_ L (post : X → local → local → A → Prop) x p :
  calling t done_ L post None →
  safe Capacity (usable v Capacity) (encode v Capacity) t (post x (L t)) p (begin (L t)) →
  calling t done_ (set_local t (begin (L t)) L) post (Some (x, p)).
Proof.
  intros [Hidle Hd] Hs. exists (L t). rewrite set_local_same. by split_and!.
Qed.

(** A call makes a step. *)
Lemma calling_step {X A} t done_ m vs L (post : X → local → local → A → Prop) x p choice :
  v ≠ Mutex → inv m vs L → calling t done_ L post (Some (x, p)) →
  match exec t choice p (vs t) m with
  | Next p' w m' => ∃ s, inv m' (set_view t w vs) (set_local t s L) ∧
                    calling t done_ (set_local t s L) post (Some (x, p')) ∧ looked t p choice (L t) s
  | Blocked => True
  | Fault => False
  end.
Proof using HC.
  intros Hv Hi (s0 & Hidle & Hd & Hpre & Hs).
  pose proof (exec_safe m vs L t (post x s0) choice p Hv Hi Hs) as Hstep.
  unfold step_ok in Hstep. destruct (exec t choice p (vs t) m) as [p' w m'| |]; try done.
  destruct Hstep as (s & Hs' & Hi' & Hpre' & Hlook). exists s. split; [done|]. split; [|done].
  exists s0. rewrite set_local_same. split_and!; try done. by etrans.
Qed.

Lemma step_push_ok c choice :
  v ≠ Mutex → config_ok c →
  match step (push v Capacity) (pop v Capacity) (Step Producer choice) c with
  | Config c' => config_ok c'
  | NotEnabled => True
  | Undefined => False
  end.
Proof using HC.
  intros Hv (L & Hi & Hp & Hc). cbn [step].
  destruct (pushing c) as [[x p]|] eqn:Ep; [|done].
  pose proof (calling_step Producer _ _ _ _ _ _ _ choice Hv Hi Hp) as Hstep.
  destruct p as [b|? ? ?|? ? ? ?|? ?|? ? ?|? ?|? ? ?|?|?].
  { clear Hstep. destruct Hp as (s0 & Hidle & Hd & Hpre & (Hidle' & _ & Hb)).
    exists L. split; [done|]. split; [split; [done|]|done]. cbn [pushed].
    destruct b; [|by destruct Hb as (_ & -> & _)]. by destruct Hb as [_ ->]; rewrite Hd. }
  all: match goal with
  | |- context [exec ?t ?ch ?p ?w ?m] => destruct (exec t ch p w m) as [p' w' m'| |]; try done
  end.
  all: destruct Hstep as (s & Hi' & Hp' & _); exists (set_local Producer s L); split; [done|];
    split; [done|]; by apply (calling_other Producer).
Qed.

Lemma step_pop_ok c choice :
  v ≠ Mutex → config_ok c →
  match step (push v Capacity) (pop v Capacity) (Step Consumer choice) c with
  | Config c' => config_ok c'
  | NotEnabled => True
  | Undefined => False
  end.
Proof using HC.
  intros Hv (L & Hi & Hp & Hc). cbn [step].
  destruct (popping c) as [p|] eqn:Ep; [|done]. cbn [fmap option_fmap option_map] in Hc.
  pose proof (calling_step Consumer _ _ _ _ _ _ _ choice Hv Hi Hc) as Hstep.
  destruct p as [[b y]|? ? ?|? ? ? ?|? ?|? ? ?|? ?|? ? ?|?|?].
  { clear Hstep. destruct Hc as (s0 & Hidle & Hd & Hpre & out & ((Hidle' & _ & Hb) & _)).
    exists L. split; [done|]. split; [done|split; [done|]]. cbn [popped]. cbn [fst snd] in Hb.
    destruct b; [|by destruct Hb as (_ & -> & _)]. by destruct Hb as [_ ->]; rewrite Hd. }
  all: match goal with
  | |- context [exec ?t ?ch ?p ?w ?m] => destruct (exec t ch p w m) as [p' w' m'| |]; try done
  end.
  all: destruct Hstep as (s & Hi' & Hp' & _); exists (set_local Consumer s L); split; [done|];
    split; [by apply (calling_other Consumer)|done].
Qed.

Lemma step_config_ok c s :
  v ≠ Mutex → config_ok c →
  match step (push v Capacity) (pop v Capacity) s c with
  | Config c' => config_ok c'
  | NotEnabled => True
  | Undefined => False
  end.
Proof using HC.
  intros Hv Hok. destruct s as [x|out|[] choice]; [| |by apply step_push_ok|by apply step_pop_ok].
  - destruct Hok as (L & Hi & Hp & Hc). cbn [step]. destruct (pushing c) eqn:Ep; [done|].
    exists (set_local Producer (begin (L Producer)) L). pose proof Hp as [Hidle Hd].
    split; [by apply inv_begin|]. split; [|by apply (calling_other Producer)].
    apply calling_start; [done|]. by apply push_safe.
  - destruct Hok as (L & Hi & Hp & Hc). cbn [step]. destruct (popping c) eqn:Ep; [done|].
    exists (set_local Consumer (begin (L Consumer)) L). pose proof Hc as [Hidle Hd].
    split; [by apply inv_begin|]. split; [by apply (calling_other Consumer)|].
    apply calling_start; [done|]. eapply safe_mono; [|by apply (pop_safe _ v _ out)].
    intros s' r Hr. by exists out.
Qed.

Lemma initial_ok `{!Inhabited T} : config_ok (initial Capacity).
Proof using HC.
  pose proof (encode_0 v Capacity) as E0. exists (λ _, start). split; [|split].
  - split; try done; try (intros; apply Nat.le_0_l).
    + eapply rep_ext; [apply (empty_rep v Capacity)|..]; try done. intros []; symmetry; exact E0.
    + intros t. exact (proj1 (start_idle v Capacity t)).
    + intros t j msg Hj. apply list_lookup_singleton_Some in Hj as [-> <-]. by rewrite E0.
    + intros t msg Hj. by apply list_lookup_singleton_Some in Hj as [_ <-].
  - split; [exact (start_idle v Capacity Producer)|done].
  - split; [exact (start_idle v Capacity Consumer)|done].
Qed.

Lemma reachable_ok `{!Inhabited T} c :
  v ≠ Mutex → rtc (steps_to (push v Capacity) (pop v Capacity)) (initial Capacity) c → config_ok c.
Proof using HC.
  intros Hv. pose proof initial_ok as H0. intros Hr. revert H0.
  induction Hr as [|c1 c2 c3 [s Hs] _ IH]; [done|]. intros H1. apply IH.
  pose proof (step_config_ok c1 s Hv H1) as H2. by rewrite Hs in H2.
Qed.

(** ** What the invariant says about results *)

(** What a call in flight can still add to the items passed on. *)
Lemma calling_passed {X A} `{!Inhabited T} t done_ m vs L (post : X → local → local → A → Prop)
    (R : X → option T → Prop) call :
  inv m vs L → calling t done_ L post call →
  (∀ x s0 s a, post x s0 s a → ∃ r, op_done v Capacity t s0 r s ∧ R x r) →
  ∃ r, match call with None => r = None | Some (x, _) => R x r end ∧
       done_ `prefix_of` passed (L t) ∧ passed (L t) `prefix_of` done_ ++ option_list r.
Proof.
  intros Hi Hc Hpost. destruct call as [[x p]|].
  - destruct Hc as (s0 & Hidle & Hd & Hpre & Hs).
    destruct (safe_ends _ _ _ t _ p (L t) (inv_local _ _ _ Hi t) Hs) as (a & s' & Ha & Hpre' & _).
    destruct (Hpost _ _ _ _ Ha) as (r & (_ & _ & Hr) & HR). rewrite <- Hd.
    exists r. split_and!; [done|done|].
    destruct r as [y|]; simpl.
    + destruct Hr as [_ <-]. done.
    + destruct Hr as (_ & <- & _). by rewrite app_nil_r.
  - destruct Hc as [_ <-]. exists None. by rewrite app_nil_r.
Qed.

Lemma taken_prefix m vs L :
  inv m vs L → passed (L Consumer) `prefix_of` passed (L Producer) ∧
  Z.of_nat (length (passed (L Producer))) ≤ Z.of_nat (length (passed (L Consumer))) + usable v Capacity.
Proof.
  intros Hi. pose proof (inv_data _ _ _ Hi) as Hd. pose proof (rep_count _ _ _ _ _ Hd) as Hc.
  pose proof (rep_passed _ _ _ _ _ Hd) as Hp. rewrite (rep_taken _ _ _ _ _ Hd). split.
  - apply prefix_take.
  - rewrite length_take. lia.
Qed.

End concurrent.
