(* ===== verification/SpscMutex.v ===== *)
(** * The mutex variant under weak memory

    [SpscRingBufferMutex] with two threads.  Between [Lock] and [Unlock] a
    thread has the queue to itself, so what remains of its program can be
    [run] alone; the invariant carries the result of that run. *)

From S2P Require Import Prelude Ring Spsc SpscMachine SpscLogic SpscVariants SpscSequential.
From S2P Require Import SpscConcurrent.

Section mutex.
Context {T : Type} (Capacity : Z) {HC : QueueCapacity Capacity}.
Implicit Types (m : memory T) (vs : thread → view).

(** The queue in memory, for a thread alone. *)
Definition alone m : queue T :=
  mkqueue (λ _, 0) (members m) (cells m) (bool_decide (holder m ≠ None)).

(** Programs that use plain accesses and end by unlocking. *)
Fixpoint critical {A} (p : prog T A) : Prop :=
  match p with
  | Ret _ => False
  | Load _ _ _ | Store _ _ _ _ | Lock _ => False
  | Get _ k => ∀ v, critical (k v)
  | Put _ _ k => critical k
  | ReadCell _ k => ∀ x, critical (k x)
  | WriteCell _ _ k => critical k
  | Unlock k => match k with Ret _ => True | _ => False end
  end.

Record locked_ok m vs : Prop := {
  locked_clock t p : (accessed m p t ≤ clock (vs t) t)%nat;
  locked_free : holder m = None → ∀ p u, (accessed m p u ≤ clock (unlocked m) u)%nat;
  locked_held t : holder m = Some t →
    ∀ p, (accessed m p (other t) ≤ clock (vs t) (other t))%nat
}.

(** A plain access inside the critical section. *)
Lemma locked_access m vs t m' p :
  locked_ok m vs → holder m = Some t → holder m' = Some t →
  (accessed m' p t ≤ clock (tick t (vs t)) t)%nat →
  (∀ p' u, p' ≠ p ∨ u ≠ t → accessed m' p' u = accessed m p' u) →
  locked_ok m' (set_view t (tick t (vs t)) vs).
Proof.
  intros Hl Ht Ht' Hacc Hsame. split.
  - intros u q. destruct (thread_cases t u) as [->| ->].
    + rewrite set_view_same. destruct (decide (q = p)) as [->|]; [done|]. rewrite Hsame by auto.
      pose proof (locked_clock _ _ Hl t q). simpl. rewrite decide_True by done. lia.
    + rewrite set_view_other, Hsame by (right; apply other_ne). apply Hl.
  - by rewrite Ht'.
  - intros u Hu q. rewrite Ht' in Hu. injection Hu as <-.
    rewrite set_view_same, other_clock, Hsame by (right; apply other_ne). by apply Hl.
Qed.

Lemma locked_may_access m vs t p :
  locked_ok m vs → holder m = Some t →
  may_read t (tick t (vs t)) p m = true ∧ may_write t (tick t (vs t)) p m = true ∧
  (accessed m p t ≤ clock (tick t (vs t)) t)%nat.
Proof.
  intros Hl Ht.
  assert (may_read t (tick t (vs t)) p m = true ∧ may_write t (tick t (vs t)) p m = true) as [? ?].
  { apply may_access. rewrite other_clock. by apply (locked_held _ _ Hl). }
  pose proof (locked_clock _ _ Hl t p). split_and!; [done|done|].
  simpl. rewrite decide_True by done. lia.
Qed.

(** One step inside the critical section follows the run alone. *)
Lemma exec_critical {A} m vs t choice (p : prog T A) a q' :
  locked_ok m vs → holder m = Some t → critical p → run p (alone m) = Some (a, q') →
  match exec t choice p (vs t) m with
  | Next p' w m' =>
      locked_ok m' (set_view t w vs) ∧
      ((holder m' = Some t ∧ critical p' ∧ run p' (alone m') = Some (a, q')) ∨
       (holder m' = None ∧ p' = Ret a ∧ alone m' = q'))
  | Blocked | Fault => False
  end.
Proof.
  intros Hl Ht Hp Hrun.
  assert (alone m = mkqueue (λ _, 0) (members m) (cells m) true) as Ha.
  { unfold alone. by rewrite bool_decide_eq_true_2 by (by rewrite Ht). }
  rewrite Ha in Hrun.
  destruct p as [b|o l k|o l n k|x k|x n k|i k|i n k|k|k]; cbn [critical run] in *; try done; unfold exec.
  - destruct (locked_may_access m vs t (Member x) Hl Ht) as (-> & _ & Hc). split.
    + apply (locked_access m vs t _ (Member x)); try done; [by rewrite logged_read|].
      intros p' u Hne. by apply logged_other.
    + left. split_and!; [done|done|]. by rewrite <- Ha in Hrun.
  - destruct (locked_may_access m vs t (Member x) Hl Ht) as (_ & -> & Hc). split.
    + apply (locked_access m vs t _ (Member x)); try done.
      * change (accessed (log_write (Member x) t (tick t (vs t)) m) (Member x) t ≤ clock (tick t (vs t)) t)%nat.
        by rewrite logged_write.
      * intros p' u Hne. by apply (logged_other m (Member x) t (tick t (vs t)) p' u).
    + left. split_and!; [done|done|]. by rewrite <- Hrun; unfold alone; simpl; rewrite Ht.
  - case_decide as Hi; [|done]. cbn [buffer_] in Hrun. destruct (cells m !! Z.to_nat i) as [y|]; [|done].
    cbn [mbind option_bind] in Hrun.
    destruct (locked_may_access m vs t (Cell i) Hl Ht) as (-> & _ & Hc). split.
    + apply (locked_access m vs t _ (Cell i)); try done; [by rewrite logged_read|].
      intros p' u Hne. by apply logged_other.
    + left. split_and!; [done|done|]. by rewrite <- Ha in Hrun.
  - case_decide as Hi; [|done]. cbn [buffer_] in Hrun. destruct (put (cells m) (Z.to_nat i) n) as [b|]; [|done].
    cbn [mbind option_bind] in Hrun.
    destruct (locked_may_access m vs t (Cell i) Hl Ht) as (_ & -> & Hc). split.
    + apply (locked_access m vs t _ (Cell i)); try done.
      * change (accessed (log_write (Cell i) t (tick t (vs t)) m) (Cell i) t ≤ clock (tick t (vs t)) t)%nat.
        by rewrite logged_write.
      * intros p' u Hne. by apply (logged_other m (Cell i) t (tick t (vs t)) p' u).
    + left. split_and!; [done|done|]. by rewrite <- Hrun; unfold alone; simpl; rewrite Ht.
  - destruct k as [b| | | | | | | |]; try done. cbn [run mutex_] in Hrun. injection Hrun as -> <-.
    rewrite decide_True by done. split; [|by right]. split.
    + intros u q. pose proof (locked_clock _ _ Hl u q) as Hu.
      change (accessed (set_holder None (tick t (vs t)) m) q u) with (accessed m q u).
      destruct (thread_cases t u) as [->| ->]; rewrite ?set_view_same, ?set_view_other; [|done].
      simpl. rewrite decide_True by done. lia.
    + intros _ q u. change (accessed (set_holder None (tick t (vs t)) m) q u) with (accessed m q u).
      change (unlocked _) with (tick t (vs t)).
      destruct (thread_cases t u) as [->| ->]; [|rewrite other_clock; by apply (locked_held _ _ Hl)].
      pose proof (locked_clock _ _ Hl t q). simpl. rewrite decide_True by done. lia.
    + done.
Qed.

(** Locking: the thread then knows of every access. *)
Lemma lock_free m vs t :
  locked_ok m vs → holder m = None →
  locked_ok (set_holder (Some t) (unlocked m) m) (set_view t (join (tick t (vs t)) (unlocked m)) vs).
Proof.
  intros Hl Hn. split.
  - intros u q. pose proof (locked_clock _ _ Hl u q) as Hu.
    change (accessed (set_holder _ _ m) q u) with (accessed m q u).
    destruct (thread_cases t u) as [->| ->]; rewrite ?set_view_same, ?set_view_other; [|done].
    simpl. rewrite decide_True by done. lia.
  - done.
  - intros u [= <-] q. change (accessed (set_holder _ _ m) q (other t)) with (accessed m q (other t)).
    rewrite set_view_same. pose proof (locked_free _ _ Hl Hn q (other t)). simpl. lia.
Qed.

Lemma push_critical x : ∃ k, push Mutex Capacity x = Lock k ∧ critical k.
Proof.
  eexists. unfold push, SpscRingBufferMutex.push, locked. open_code. split; [reflexivity|].
  cbn [critical]. intros h t. case_decide; open_code; [done|]. by intros h'.
Qed.

Lemma pop_critical (out : T) : ∃ k, pop Mutex Capacity out = Lock k ∧ critical k.
Proof.
  eexists. unfold pop, SpscRingBufferMutex.pop, locked. open_code. split; [reflexivity|].
  cbn [critical]. intros t h. case_decide; open_code; [done|]. by intros t' x t''.
Qed.

(** ** Configurations *)

(** Where a thread is in its call: not yet in the critical section, inside
    it, or past it. *)
Definition phase {X A} (t : thread) m (entry : X → prog T A → Prop) (before : Prop)
    (inside : X → A → queue T → Prop) (after : X → A → Prop) (call : option (X * prog T A)) : Prop :=
  match call with
  | None => holder m ≠ Some t ∧ before
  | Some (x, p) =>
      (entry x p ∧ holder m ≠ Some t ∧ before) ∨
      (holder m = Some t ∧ critical p ∧ before ∧
       ∃ a q', run p (alone m) = Some (a, q') ∧ inside x a q') ∨
      (∃ a, p = Ret a ∧ holder m ≠ Some t ∧ after x a)
  end.

Abbreviation items_of q := (queue_items Mutex Capacity q).
Abbreviation limit := (usable Mutex Capacity).

Definition push_phase m (pushed got items : list T) : option (T * prog T bool) → Prop :=
  phase Producer m (λ x p, p = push Mutex Capacity x) (pushed = got ++ items)
    (λ x b q', queue_ok Mutex Capacity q' ∧ (b, items_of q') = spec_push limit x items)
    (λ x b, got ++ items = pushed ++ (if b : bool then [x] else [])).

Definition pop_phase m (popped got items : list T) : option (T * prog T (bool * T)) → Prop :=
  phase Consumer m (λ out p, p = pop Mutex Capacity out) (popped = got)
    (λ out r q', queue_ok Mutex Capacity q' ∧ (r, items_of q') = spec_pop out items)
    (λ _ r, got = popped ++ (if r.1 then [r.2] else [])).

(** The operations that took effect popped [got] and left [items]; [out] is
    the argument of the pop in flight. *)
Definition mutex_state (got items : list T) (out : T) (c : config T) : Prop :=
  locked_ok (mem c) (views c) ∧
  (holder (mem c) = None → queue_ok Mutex Capacity (alone (mem c)) ∧ items_of (alone (mem c)) = items) ∧
  Z.of_nat (length items) ≤ limit ∧
  push_phase (mem c) (pushed c) got items (pushing c) ∧
  pop_phase (mem c) (popped c) got items (pair out <$> popping c).

Definition mutex_config_ok (c : config T) : Prop := ∃ got items out, mutex_state got items out c.

(** A step that keeps the mutex with the opponent. *)
Lemma phase_ext {X A} t m m' entry (before before' : Prop) inside inside' (after after' : X → A → Prop)
    (call : option (X * prog T A)) :
  holder m ≠ Some t → holder m' ≠ Some t → (before → before') → (∀ x a, after x a → after' x a) →
  phase t m entry before inside after call → phase t m' entry before' inside' after' call.
Proof.
  intros Hne Hne' Hb Ha. destruct call as [[x p]|]; simpl; [|by intros []; auto].
  intros [(? & ? & ?)|[(? & _)|(a & ? & ? & ?)]]; [left; auto|done|right; right; exists a; auto].
Qed.

Lemma run_lock {A} (k : prog T A) m t :
  holder m = None →
  run (Lock k) (alone m) = run k (alone (set_holder (Some t) (unlocked m) m)).
Proof. intros Hn. unfold alone. simpl. by rewrite Hn. Qed.

(** What a thread's step does: enter, move inside or leave. *)
Lemma phase_step {X A} t m vs (entry : X → prog T A → Prop) before inside after x p choice :
  locked_ok m vs → (∀ x p, entry x p → ∃ k, p = Lock k ∧ critical k) →
  phase t m entry before inside after (Some (x, p)) →
  (∀ k, p = Lock k → holder m = None → ∃ a q', run p (alone m) = Some (a, q') ∧ inside x a q') →
  match exec t choice p (vs t) m with
  | Next p' w m' =>
      locked_ok m' (set_view t w vs) ∧
      ((holder m' = Some t ∧ (holder m = None ∨ holder m = Some t) ∧
        phase t m' entry before inside after (Some (x, p'))) ∨
       (holder m = Some t ∧ holder m' = None ∧ before ∧ ∃ a, p' = Ret a ∧ inside x a (alone m')))
  | Blocked => True
  | Fault => False
  end.
Proof.
  intros Hl Hentry [(He & Hne & Hb)|[(Ht & Hp & Hb & a & q' & Hrun & Hin)|(a & -> & Hne & Haft)]] Hinside.
  - destruct (Hentry _ _ He) as (k & -> & Hk). unfold exec.
    destruct (holder m) as [u|] eqn:Hu; [rewrite decide_False by congruence; done|].
    destruct (Hinside k eq_refl eq_refl) as (a & q' & Hrun & Hin).
    split; [by apply lock_free|]. left. split; [done|]. split; [by left|]. right. left.
    split_and!; try done. exists a, q'. split; [|done]. by rewrite <- Hrun, (run_lock _ _ t).
  - pose proof (exec_critical m vs t choice p a q' Hl Ht Hp Hrun) as Hstep.
    destruct (exec t choice p (vs t) m) as [p' w m'| |]; try done.
    destruct Hstep as (Hl' & [(Ht' & Hp' & Hrun')|(Ht' & -> & <-)]); (split; [done|]).
    + left. split; [done|]. split; [by right|]. right. left. split_and!; try done. by exists a, q'.
    + right. split_and!; try done. by exists a.
  - done.
Qed.

(** A thread inside the critical section has not returned. *)
Lemma phase_inside {X A} t m (entry : X → prog T A → Prop) before inside after x p :
  holder m = Some t → phase t m entry before inside after (Some (x, p)) → ∀ a, p ≠ Ret a.
Proof.
  intros Ht [(_ & Hne & _)|[(_ & Hp & _)|(a & _ & Hne & _)]]; [congruence| |congruence].
  by intros a ->.
Qed.

(** The opponent is outside the critical section when this thread is inside
    or the mutex is free. *)
Lemma holder_other m t : (holder m = None ∨ holder m = Some t) → holder m ≠ Some (other t).
Proof. intros [->| ->]; [done|]. intros [= E]. by destruct t. Qed.

Lemma push_phase_step m vs pushed got items x p choice :
  locked_ok m vs → (holder m = None → queue_ok Mutex Capacity (alone m) ∧ items_of (alone m) = items) →
  push_phase m pushed got items (Some (x, p)) →
  match exec Producer choice p (vs Producer) m with
  | Next p' w m' =>
      holder m ≠ Some Consumer ∧ holder m' ≠ Some Consumer ∧
      locked_ok m' (set_view Producer w vs) ∧ ∃ items',
      (holder m' = None → queue_ok Mutex Capacity (alone m') ∧ items_of (alone m') = items') ∧
      ((∀ b, p' ≠ Ret b) ∧ items' = items ∨
       ∃ b, p' = Ret b ∧ pushed = got ++ items ∧ (b, items') = spec_push limit x items) ∧
      push_phase m' pushed got items' (Some (x, p'))
  | Blocked => True
  | Fault => False
  end.
Proof using HC.
  intros Hl Hfree Hp.
  assert (∀ x (p : prog T bool), p = push Mutex Capacity x → ∃ k, p = Lock k ∧ critical k) as Hentry
    by (intros ? ? ->; apply push_critical).
  assert (∀ k, p = Lock k → holder m = None → ∃ a q', run p (alone m) = Some (a, q') ∧
    queue_ok Mutex Capacity q' ∧ (a, items_of q') = spec_push limit x items) as Hin.
  { intros k Hk Hn. destruct Hp as [(-> & _)|[(Ht & _)|(? & -> & _)]]; [|congruence|done].
    destruct (Hfree Hn) as [Hok Hitems].
    destruct (push_fifo Mutex Capacity (alone m) x Hok) as (b & q' & ? & ? & Hs).
    rewrite Hitems in Hs. by exists b, q'. }
  pose proof (phase_step Producer m vs _ _ _ _ x p choice Hl Hentry Hp Hin) as Hstep.
  destruct (exec Producer choice p (vs Producer) m) as [p' w m'| |]; try done.
  destruct Hstep as (Hl' & Hcase).
  destruct Hcase as [(Ht' & Ht & Hp')|(Ht & Ht' & Hb & b & -> & Hok & Hs)].
  - split; [by apply (holder_other m Producer)|]. split; [by rewrite Ht'|]. split; [done|].
    exists items. split_and!; [by rewrite Ht'| |done]. left. split; [|done]. exact (phase_inside _ _ _ _ _ _ _ _ Ht' Hp').
  - split; [by rewrite Ht|]. split; [by rewrite Ht'|]. split; [done|].
    exists (items_of (alone m')). split; [done|]. split; [right; by exists b|]. unfold spec_push in Hs.
    case_decide; injection Hs as -> Hi; rewrite Hi; right; right;
      eexists; (split; [done|]); (split; [by rewrite Ht'|]); rewrite Hb, ?app_nil_r, ?app_assoc; done.
Qed.

Lemma pop_phase_step m vs popped got items out p choice :
  locked_ok m vs → (holder m = None → queue_ok Mutex Capacity (alone m) ∧ items_of (alone m) = items) →
  pop_phase m popped got items (Some (out, p)) →
  match exec Consumer choice p (vs Consumer) m with
  | Next p' w m' =>
      holder m ≠ Some Producer ∧ holder m' ≠ Some Producer ∧
      locked_ok m' (set_view Consumer w vs) ∧ ∃ got' items',
      (holder m' = None → queue_ok Mutex Capacity (alone m') ∧ items_of (alone m') = items') ∧
      ((∀ r, p' ≠ Ret r) ∧ got' = got ∧ items' = items ∨
       ∃ r, p' = Ret r ∧ got' = got ++ (if r.1 then [r.2] else []) ∧ (r, items') = spec_pop out items) ∧
      got' ++ items' = got ++ items ∧ (length items' ≤ length items)%nat ∧
      pop_phase m' popped got' items' (Some (out, p'))
  | Blocked => True
  | Fault => False
  end.
Proof using HC.
  intros Hl Hfree Hp.
  assert (∀ k, p = Lock k → holder m = None → ∃ a q', run p (alone m) = Some (a, q') ∧
    queue_ok Mutex Capacity q' ∧ (a, items_of q') = spec_pop out items) as Hin.
  { intros k Hk Hn. destruct Hp as [(-> & _)|[(Ht & _)|(? & -> & _)]]; [|congruence|done].
    destruct (Hfree Hn) as [Hok Hitems].
    destruct (pop_fifo Mutex Capacity (alone m) out Hok) as (b & y & q' & ? & ? & Hs).
    rewrite Hitems in Hs. exists (b, y), q'. eauto. }
  assert (∀ (out : T) (p : prog T (bool * T)), p = pop Mutex Capacity out →
    ∃ k, p = Lock k ∧ critical k) as Hentry by (intros ? ? ->; apply pop_critical).
  pose proof (phase_step Consumer m vs _ _ _ _ out p choice Hl Hentry Hp Hin) as Hstep.
  destruct (exec Consumer choice p (vs Consumer) m) as [p' w m'| |]; try done.
  destruct Hstep as (Hl' & [(Ht' & Ht & Hp')|(Ht & Ht' & Hb & [b y] & -> & Hok & Hs)]).
  - split; [by apply (holder_other m Consumer)|]. split; [by rewrite Ht'|]. split; [done|].
    exists got, items. split; [by rewrite Ht'|]. split; [|done]. left.
    split; [exact (phase_inside _ _ _ _ _ _ _ _ Ht' Hp')|done].
  - split; [by rewrite Ht|]. split; [by rewrite Ht'|]. split; [done|].
    destruct items as [|z items]; injection Hs as -> -> Hi.
    + exists got, []. split_and!; [by rewrite Hi| |done|done|].
      { right. exists (false, out). by rewrite app_nil_r. }
      right. right. exists (false, out). rewrite Hb, app_nil_r. by rewrite Ht'.
    + exists (got ++ [z]), items. split_and!; [by rewrite Hi| |by rewrite <- app_assoc|simpl; lia|].
      { right. by exists (true, z). }
      right. right. exists (true, z). rewrite Hb. by rewrite Ht'.
Qed.

Lemma push_limit (x : T) (items items' : list T) (p' : prog T bool) (P : Prop) :
  Z.of_nat (length items) ≤ limit →
  ((∀ b, p' ≠ Ret b) ∧ items' = items ∨
   ∃ b, p' = Ret b ∧ P ∧ (b, items') = spec_push limit x items) →
  Z.of_nat (length items') ≤ limit.
Proof.
  intros Hl [[_ ->]|(b & _ & _ & Hs)]; [done|]. unfold spec_push in Hs.
  case_decide; injection Hs as -> ->; [rewrite length_app; simpl length; lia|done].
Qed.

(** What a step does to a call: it goes on, takes effect with a result, or
    returns. *)
Inductive call_move {X A} : option (X * prog T A) → option (X * prog T A) → option (X * A) → Prop :=
| call_goes x p p' :
    (∀ a, p ≠ Ret a) → (∀ a, p' ≠ Ret a) → call_move (Some (x, p)) (Some (x, p')) None
| call_ends x p a : (∀ a, p ≠ Ret a) → call_move (Some (x, p)) (Some (x, Ret a)) (Some (x, a))
| call_returns x a : call_move (Some (x, Ret a)) None None.

Lemma step_push_mutex got items out (c : config T) choice :
  mutex_state got items out c →
  match step (push Mutex Capacity) (pop Mutex Capacity) (Step Producer choice) c with
  | Config c' => ∃ items' r, mutex_state got items' out c' ∧ call_move (pushing c) (pushing c') r ∧
      popping c' = popping c ∧
      match r with None => items' = items | Some (x, b) => (b, items') = spec_push limit x items end
  | NotEnabled => True
  | Undefined => False
  end.
Proof using HC.
  intros (Hl & Hfree & Hlim & Hpush & Hpop). cbn [step].
  destruct (pushing c) as [[x p]|] eqn:Ep; [|done].
  pose proof (push_phase_step _ _ _ _ _ _ _ choice Hl Hfree Hpush) as Hstep.
  destruct p as [b|? ? ?|? ? ? ?|? ?|? ? ?|? ?|? ? ?|?|?].
  { clear Hstep. exists items, None. split; [|by split; [constructor|]]. do 3 (split; [done|]). split; [|done].
    destruct Hpush as [(E & _)|[(_ & [] & _)|(b' & [= <-] & Hne & Haft)]]; [by destruct (push_critical x) as (? & ? & _); congruence|].
    split; [done|]. cbn [pushed]. rewrite Haft. destruct b; by rewrite ?app_nil_r. }
  all: match goal with
  | |- context [exec ?t ?ch ?p ?w ?m] => destruct (exec t ch p w m) as [p' w' m'| |]; try done
  end.
  all: destruct Hstep as (Hne & Hne' & Hl' & items' & Hfree' & Hitems & Hp').
  all: assert (mutex_state got items' out (mkconfig m' (set_view Producer w' (views c)) (Some (x, p'))
    (popping c) (pushed c) (popped c))) as Hok
    by (split; [done|]; split; [done|]; split; [by eapply push_limit|]; split; [done|];
        eapply phase_ext; [exact Hne|exact Hne'|..|exact Hpop]; done).
  all: exists items'; destruct Hitems as [[? ?]|(b & -> & _ & Hs)];
    [exists None|exists (Some (x, b))]; split_and!; try done; by constructor.
Qed.

Lemma step_pop_mutex got items out (c : config T) choice :
  mutex_state got items out c →
  match step (push Mutex Capacity) (pop Mutex Capacity) (Step Consumer choice) c with
  | Config c' => ∃ got' items' (r : option (T * (bool * T))), mutex_state got' items' out c' ∧
      call_move (pair out <$> popping c) (pair out <$> popping c') r ∧ pushing c' = pushing c ∧
      match r with
      | None => got' = got ∧ items' = items
      | Some (_, r) => got' = got ++ (if r.1 then [r.2] else []) ∧ (r, items') = spec_pop out items
      end
  | NotEnabled => True
  | Undefined => False
  end.
Proof using HC.
  intros (Hl & Hfree & Hlim & Hpush & Hpop). cbn [step].
  destruct (popping c) as [p|] eqn:Ep; [|done]. cbn [fmap option_fmap option_map] in *.
  pose proof (pop_phase_step _ _ _ _ _ _ _ choice Hl Hfree Hpop) as Hstep.
  destruct p as [[b y]|? ? ?|? ? ? ?|? ?|? ? ?|? ?|? ? ?|?|?].
  { clear Hstep. exists got, items, None. split; [|by split; [constructor|]]. do 4 (split; [done|]).
    destruct Hpop as [(E & _)|[(_ & [] & _)|(r & [= <-] & Hne & Haft)]];
      [by destruct (pop_critical out) as (? & ? & _); congruence|].
    split; [done|]. cbn [popped]. cbn [fst snd] in Haft. rewrite Haft. destruct b; by rewrite ?app_nil_r. }
  all: match goal with
  | |- context [exec ?t ?ch ?p ?w ?m] => destruct (exec t ch p w m) as [p' w' m'| |]; try done
  end.
  all: destruct Hstep as (Hne & Hne' & Hl' & got' & items' & Hfree' & Hitems & Hcat & Hlen & Hp').
  all: assert (mutex_state got' items' out (mkconfig m' (set_view Consumer w' (views c)) (pushing c)
    (Some p') (pushed c) (popped c))) as Hok
    by (split; [done|]; split; [done|]; split; [lia|]; split; [|done];
        eapply phase_ext; [exact Hne|exact Hne'|..|exact Hpush]; cbv beta; by rewrite Hcat).
  all: exists got', items'; destruct Hitems as [(? & ? & ?)|(r & -> & ? & Hs)];
    [exists None|exists (Some (out, r))]; split_and!; try done; by constructor.
Qed.

Lemma call_push_mutex got items out (c c' : config T) x :
  mutex_state got items out c →
  step (push Mutex Capacity) (pop Mutex Capacity) (CallPush x) c = Config c' →
  mutex_state got items out c' ∧ pushing c = None ∧ pushing c' = Some (x, push Mutex Capacity x) ∧
  popping c' = popping c.
Proof.
  intros (Hl & Hfree & Hlim & Hpush & Hpop). cbn [step]. destruct (pushing c) eqn:Ep; [done|].
  intros [= <-]. split; [|done]. do 3 (split; [done|]). split; [|done]. left. by destruct Hpush.
Qed.

Lemma call_pop_mutex got items out (c c' : config T) out' :
  mutex_state got items out c →
  step (push Mutex Capacity) (pop Mutex Capacity) (CallPop out') c = Config c' →
  mutex_state got items out' c' ∧ popping c = None ∧ popping c' = Some (pop Mutex Capacity out') ∧
  pushing c' = pushing c.
Proof.
  intros (Hl & Hfree & Hlim & Hpush & Hpop). cbn [step]. destruct (popping c) eqn:Ep; [done|].
  intros [= <-]. split; [|done]. do 4 (split; [done|]). left. split; [done|]. by destruct Hpop.
Qed.

Lemma step_mutex_ok (c : config T) s :
  mutex_config_ok c →
  match step (push Mutex Capacity) (pop Mutex Capacity) s c with
  | Config c' => mutex_config_ok c'
  | NotEnabled => True
  | Undefined => False
  end.
Proof using HC.
  intros (got & items & out & Hok). destruct s as [x|out'|[] choice].
  - pose proof (call_push_mutex got items out c) as H. cbn [step] in *. destruct (pushing c); [done|].
    exists got, items, out. by eapply H.
  - pose proof (call_pop_mutex got items out c) as H. cbn [step] in *. destruct (popping c); [done|].
    exists got, items, out'. by eapply H.
  - pose proof (step_push_mutex got items out c choice Hok) as H.
    destruct (step _ _ _ c) as [c'| |]; try done. destruct H as (items' & r & H & _). by exists got, items', out.
  - pose proof (step_pop_mutex got items out c choice Hok) as H.
    destruct (step _ _ _ c) as [c'| |]; try done. destruct H as (got' & items' & r & H & _). by exists got', items', out.
Qed.

Lemma initial_mutex_ok `{!Inhabited T} : mutex_config_ok (initial Capacity).
Proof using HC.
  exists [], [], inhabitant. pose proof (usable_bounds Mutex Capacity). split.
  - split; [by intros [] []|by intros _ ? []|done].
  - split; [|split; [simpl; lia|by split]]. intros _. split.
    + apply (empty_queue_ok Mutex Capacity).
    + apply (empty_queue_items Mutex Capacity).
Qed.

Lemma reachable_mutex_ok `{!Inhabited T} c :
  rtc (steps_to (push Mutex Capacity) (pop Mutex Capacity)) (initial Capacity) c →
  mutex_config_ok c.
Proof using HC.
  pose proof initial_mutex_ok as H0. intros Hr. revert H0.
  induction Hr as [|c1 c2 c3 [s Hs] _ IH]; [done|]. intros H1. apply IH.
  pose proof (step_mutex_ok c1 s H1) as H2. by rewrite Hs in H2.
Qed.

End mutex.
