(* ===== verification/SpscProperties.v ===== *)
(** * Properties of the ring buffers with two threads

    The theorems about [spsc_ring_buffer.hpp] as its users see it: one thread
    that pushes and one that pops, under every interleaving and every
    outcome the memory orders allow. *)

From S2P Require Import Prelude Ring Spsc SpscMachine SpscLogic SpscVariants SpscSequential.
From S2P Require Import SpscConcurrent SpscMutex.

(** The argument of the push in flight, and the number of pops in flight. *)
Definition in_flight {T} (c : config T) : list T :=
  match pushing c with Some (x, _) => [x] | None => [] end.
Definition taking {T} (c : config T) : Z := match popping c with Some _ => 1 | None => 0 end.

Definition reachable {T} `{!Inhabited T} (v : variant) (Capacity : Z) (c : config T) : Prop :=
  rtc (steps_to (push v Capacity) (pop v Capacity)) (initial Capacity) c.

Section properties.
Context {T : Type} `{!Inhabited T} (v : variant) (Capacity : Z) {HC : QueueCapacity Capacity}.
Implicit Types (c : config T).

Lemma lock_free_fifo c :
  config_ok v Capacity c →
  popped c `prefix_of` pushed c ++ in_flight c ∧
  Z.of_nat (length (pushed c)) ≤ Z.of_nat (length (popped c)) + taking c + usable v Capacity.
Proof using HC Inhabited0.
  intros (L & Hi & Hp & Hc).
  destruct (calling_passed v Capacity Producer _ _ _ _ _ (λ x r, option_list r `prefix_of` [x]) _ Hi Hp)
    as (rp & Hrp & Hpp & Hpp').
  { intros x s0 s b Hs. exists (if b then Some x else None). split; [exact Hs|]. destruct b; simpl; [done|apply prefix_nil]. }
  destruct (calling_passed v Capacity Consumer _ _ _ _ _ (λ _ _, True) _ Hi Hc) as (rc & Hrc & Hcp & Hcp').
  { intros x s0 s a (out & Hs & _). exists (if a.1 then Some a.2 else None). split; [exact Hs|done]. }
  destruct (taken_prefix _ _ _ _ _ Hi) as [Htake Hbound]. split.
  - etrans; [exact Hcp|]. etrans; [exact Htake|]. etrans; [exact Hpp'|].
    apply prefix_app. unfold in_flight. destruct (pushing c) as [[x p]|]; [done|]. by subst.
  - apply prefix_length in Hpp, Hcp'. rewrite length_app in Hcp'.
    assert (Z.of_nat (length (option_list rc)) ≤ taking c).
    { unfold taking. destruct (popping c); simpl in Hrc; [destruct rc; simpl; lia|by subst]. }
    lia.
Qed.

Lemma mutex_fifo c :
  mutex_config_ok Capacity c →
  popped c `prefix_of` pushed c ++ in_flight c ∧
  Z.of_nat (length (pushed c)) ≤ Z.of_nat (length (popped c)) + taking c + usable Mutex Capacity.
Proof.
  intros (got & items & out & Hl & Hfree & Hlim & Hpush & Hpop).
  assert (got ++ items `prefix_of` pushed c ++ in_flight c ∧ pushed c `prefix_of` got ++ items) as [Hp1 Hp2].
  { unfold in_flight. destruct (pushing c) as [[x p]|]; simpl in Hpush.
    - destruct Hpush as [(_ & _ & ->)|[(_ & _ & -> & _)|(b & _ & _ & ->)]].
      + split; [by apply prefix_app_r|done].
      + split; [by apply prefix_app_r|done].
      + split; [|by apply prefix_app_r]. apply prefix_app. destruct b; [done|apply prefix_nil].
    - destruct Hpush as [_ ->]. by rewrite app_nil_r. }
  assert (popped c `prefix_of` got ∧ Z.of_nat (length got) ≤ Z.of_nat (length (popped c)) + taking c) as [Hc1 Hc2].
  { unfold taking. destruct (popping c) as [p|]; simpl in Hpop.
    - destruct Hpop as [(_ & _ & ->)|[(_ & _ & -> & _)|([b y] & _ & _ & ->)]].
      + split; [done|lia].
      + split; [done|lia].
      + split; [by apply prefix_app_r|]. rewrite length_app. destruct b; simpl; lia.
    - destruct Hpop as [_ ->]. split; [done|lia]. }
  split.
  - etrans; [exact Hc1|]. etrans; [|exact Hp1]. by apply prefix_app_r.
  - apply prefix_length in Hp2. rewrite length_app in Hp2. lia.
Qed.

(** What a queue guarantees its two callers. *)
Lemma ring_prefix c :
  reachable v Capacity c →
  popped c `prefix_of` pushed c ++ in_flight c ∧
  Z.of_nat (length (pushed c)) ≤ Z.of_nat (length (popped c)) + taking c + usable v Capacity.
Proof using HC Inhabited0.
  intros Hr. destruct (decide (v = Mutex)) as [E|Hv].
  - unfold reachable in Hr. rewrite E in *. by apply mutex_fifo, (reachable_mutex_ok Capacity).
  - by apply lock_free_fifo, (reachable_ok v Capacity).
Qed.

Lemma queue_never_undefined c s :
  reachable v Capacity c → step (push v Capacity) (pop v Capacity) s c ≠ Undefined.
Proof using HC Inhabited0.
  intros Hr Hs. destruct (decide (v = Mutex)) as [E|Hv].
  - unfold reachable in Hr. rewrite E in *.
    pose proof (step_mutex_ok Capacity c s (reachable_mutex_ok Capacity c Hr)) as H. by rewrite Hs in H.
  - pose proof (step_config_ok v Capacity c s Hv (reachable_ok v Capacity c Hv Hr)) as H.
    by rewrite Hs in H.
Qed.

End properties.

(** ** Safety *)

(** A schedule of V3 in which the consumer's loads lag behind: the first
    [pop] reads the initial [head_] although an item is published, the second
    reads the new one; a second push is in flight. *)
Definition sample_schedule : list (schedule Z) :=
  CallPush 7 :: replicate 5 (Step Producer 0) ++
  CallPop 0 :: (Step Consumer <$> [0; 0; 0; 0; 0; 0]%nat) ++
  CallPop 0 :: (Step Consumer <$> [0; 0; 1; 0; 0; 0; 0; 0]%nat) ++ [CallPush 8].

Definition sample_config : config Z :=
  default (initial 4) (run_schedule (push V3 4) (pop V3 4) sample_schedule (initial 4)).

(** A computation that returns, without normalising what it returns. *)
Example sample_config_logs :
  pushed sample_config = [7] ∧ popped sample_config = [7] ∧ in_flight sample_config = [8].
Proof. split_and!; vm_compute; reflexivity. Qed.

Lemma sample_reachable : reachable V3 4 sample_config.
Proof.
  apply (run_schedule_reaches _ _ sample_schedule). apply some_default. vm_compute. reflexivity.
Qed.

(** C1: For all five variants, under every interleaving and every value the
    memory orders let a load return: no execution reaches a data race, an
    access outside the array, a lost store or a misuse of the mutex; the
    items popped are those pushed, in order, without loss or duplication
    (the last one may be popped before its [push] has returned); and no
    more than the usable capacity is ever in the queue. *)
Theorem ring_buffers_concurrent {T} (HT : Inhabited T) v Capacity (HC : QueueCapacity Capacity)
    (c : config T) :
  reachable v Capacity c →
  (∀ s, step (push v Capacity) (pop v Capacity) s c ≠ Undefined) ∧
  popped c `prefix_of` pushed c ++ in_flight c ∧
  Z.of_nat (length (pushed c)) ≤ Z.of_nat (length (popped c)) + taking c + usable v Capacity.
Proof.
  intros Hr. split; [intros s; by apply queue_never_undefined|by apply ring_prefix].
Qed.

Lemma ring_buffers_concurrent_witness :
  popped sample_config = [7] ∧ popped sample_config `prefix_of` pushed sample_config ++ [8] ∧
  ∀ s, step (push V3 4) (pop V3 4) s sample_config ≠ Undefined.
Proof.
  destruct (ring_buffers_concurrent (T:=Z) _ V3 4 queue_capacity_4 sample_config sample_reachable)
    as (H1 & H2 & _).
  exact (conj (proj1 (proj2 sample_config_logs)) (conj H2 H1)).
Defined.

(** ** Refusals *)

(** The lock-free variants refuse honestly: when a [push] is about to return
    false, the consumer's progress its thread has seen leaves no room, and
    when a [pop] is about to return false, everything its thread has seen
    published is popped.  So an item whose publication happens before the call
    is never missed. *)
Theorem refusals_are_honest {T} (HT : Inhabited T) v Capacity (HC : QueueCapacity Capacity)
    (c : config T) :
  v ≠ Mutex → reachable v Capacity c →
  (∀ x, pushing c = Some (x, Ret false) →
     Z.of_nat (length (pushed c)) =
     Z.of_nat (seen (views c Producer) Tail) + usable v Capacity) ∧
  (∀ y, popping c = Some (Ret (false, y)) →
     length (popped c) = seen (views c Consumer) Head).
Proof.
  intros Hv Hr. destruct (reachable_ok v Capacity c Hv Hr) as (L & Hi & Hp & Hc). split.
  - intros x E. rewrite E in Hp. destruct Hp as (s0 & _ & <- & _ & (Hidle & _ & Hm & Hpass & _ & Hroom)).
    pose proof (inv_seen _ _ _ _ _ Hi Producer) as Hs. simpl in Hs, Hroom. rewrite Hs, <- Hpass.
    destruct Hidle as ((_ & _ & ->) & _). lia.
  - intros y E. rewrite E in Hc.
    destruct Hc as (s0 & _ & <- & _ & out & (Hidle & _ & Hm & Hpass & _ & Hroom) & _).
    pose proof (inv_seen _ _ _ _ _ Hi Consumer) as Hs. simpl in Hs, Hroom. rewrite Hs, <- Hpass.
    destruct Hidle as ((_ & _ & ->) & _). lia.
Qed.

(** The end of the first [pop] above, which missed the item. *)
Definition sample_refusal : config Z :=
  default (initial 4) (run_schedule (push V3 4) (pop V3 4) (take 12 sample_schedule) (initial 4)).

Lemma refusals_are_honest_witness :
  popping sample_refusal = Some (Ret (false, 0)) ∧ pushed sample_refusal = [7] ∧
  length (popped sample_refusal) = seen (views sample_refusal Consumer) Head.
Proof.
  assert (reachable V3 4 sample_refusal) as Hr.
  { apply (run_schedule_reaches _ _ (take 12 sample_schedule)). apply some_default. vm_compute. reflexivity. }
  assert (popping sample_refusal = Some (Ret (false, 0))) as E by (vm_compute; reflexivity).
  destruct (refusals_are_honest (T:=Z) _ V3 4 queue_capacity_4 sample_refusal
    ltac:(discriminate) Hr) as [_ H].
  exact (conj E (conj eq_refl (H 0 E))).
Defined.

(** ** Progress *)

(** A program makes at most [n] accesses, whatever it reads. *)
Inductive within {T A} : nat → prog T A → Prop :=
| within_ret n a : within n (Ret a)
| within_load n o l k : (∀ v, within n (k v)) → within (S n) (Load o l k)
| within_store n o l v k : within n k → within (S n) (Store o l v k)
| within_get n x k : (∀ v, within n (k v)) → within (S n) (Get x k)
| within_put n x v k : within n k → within (S n) (Put x v k)
| within_read n i k : (∀ x, within n (k x)) → within (S n) (ReadCell i k)
| within_write n i x k : within n k → within (S n) (WriteCell i x k)
| within_lock n k : within n k → within (S n) (Lock k)
| within_unlock n k : within n k → within (S n) (Unlock k).

(** Steps through a program, case by case. *)
Ltac count_accesses :=
  lazymatch goal with
  | |- ∀ _, _ => intros ?; count_accesses
  | |- within _ (Ret _) => apply within_ret
  | |- within _ (if bool_decide ?P then _ else _) => case_bool_decide; count_accesses
  | |- within _ (if decide ?P then _ else _) => destruct (decide P); count_accesses
  | |- within _ (prog_bind _ (if bool_decide ?P then _ else _)) => case_bool_decide; count_accesses
  | |- within _ (prog_bind _ (if decide ?P then _ else _)) => destruct (decide P); count_accesses
  | |- within _ (Lock _) => apply within_lock; count_accesses
  | |- within _ (Unlock _) => apply within_unlock; count_accesses
  | |- within _ (Load _ _ _) => apply within_load; count_accesses
  | |- within _ (Store _ _ _ _) => apply within_store; count_accesses
  | |- within _ (Get _ _) => apply within_get; count_accesses
  | |- within _ (Put _ _ _) => apply within_put; count_accesses
  | |- within _ (ReadCell _ _) => apply within_read; count_accesses
  | |- within _ (WriteCell _ _ _) => apply within_write; count_accesses
  | |- within _ _ => progress open_code; count_accesses
  end.

Lemma calls_within {T} v Capacity (x : T) :
  within 12 (push v Capacity x) ∧ within 12 (pop v Capacity x).
Proof.
  destruct v; cbn [push pop];
    unfold SpscRingBufferMutex.push, SpscRingBufferMutex.pop, locked, SpscRingBufferAtomicV1.push, SpscRingBufferAtomicV1.pop,
      SpscRingBufferAtomicV2.push, SpscRingBufferAtomicV2.pop,
      SpscRingBufferAtomicV3.push, SpscRingBufferAtomicV3.pop,
      SpscRingBufferAtomicV4.push, SpscRingBufferAtomicV4.pop;
    split; count_accesses.
Qed.

(** Every step uses up one access. *)
Lemma exec_within {T A} t choice (p : prog T A) w m p' w' m' n :
  exec t choice p w m = Next p' w' m' → within (S n) p → within n p'.
Proof.
  unfold exec. intros E Hp. destruct p; simplify_eq/=; inversion Hp; subst;
    repeat case_match; simplify_eq; auto.
Qed.

(** A call in flight has an enabled step. *)
Lemma call_enabled {T X A} (v : variant) Capacity {HC : QueueCapacity Capacity} (t : thread) done_ m vs L
    (post : X → local (T:=T) → local → A → Prop) x p :
  v ≠ Mutex → inv v Capacity m vs L → calling v Capacity t done_ L post (Some (x, p)) →
  (∃ a, p = Ret a) ∨ ∃ choice p' w m', exec t choice p (vs t) m = Next p' w m'.
Proof.
  intros Hv Hi Hc. pose proof Hc as (s0 & _ & _ & _ & Hs).
  destruct (exec_enabled v Capacity m vs L t _ p Hi Hs) as [choice Hch].
  pose proof (calling_step v Capacity t done_ m vs L post x p choice Hv Hi Hc) as Hstep.
  destruct (exec t choice p (vs t) m) as [p' w m'| |] eqn:E; [right; by eauto|by left; apply Hch|done].
Qed.

(** C10: Wait-freedom: a [push] or [pop] of a lock-free variant makes at most
    twelve accesses, one per step, however the other thread interferes (there
    is no loop), and in every reachable configuration the thread of a call in
    flight has an enabled step: nothing ever blocks it. *)
Theorem lock_free_wait_free {T} (HT : Inhabited T) v Capacity (HC : QueueCapacity Capacity)
    (c : config T) :
  v ≠ Mutex → reachable v Capacity c →
  (∀ x : T, within 12 (push v Capacity x) ∧ within 12 (pop v Capacity x)) ∧
  (∀ A t choice (p : prog T A) w m p' w' m' n,
     exec t choice p w m = Next p' w' m' → within (S n) p → within n p') ∧
  (pushing c ≠ None → ∃ choice c', step (push v Capacity) (pop v Capacity) (Step Producer choice) c = Config c') ∧
  (popping c ≠ None → ∃ choice c', step (push v Capacity) (pop v Capacity) (Step Consumer choice) c = Config c').
Proof.
  intros Hv Hr. destruct (reachable_ok v Capacity c Hv Hr) as (L & Hi & Hp & Hc).
  split; [intros x; by apply calls_within|]. split; [intros *; apply exec_within|].
  split; intros Hne.
  - destruct (pushing c) as [[x p]|] eqn:Ep; [|done].
    destruct (call_enabled v Capacity Producer _ _ _ _ _ x p Hv Hi Hp) as [[b ->]|(choice & p' & w & m' & E)].
    + exists O. cbn [step]. rewrite Ep. by eexists.
    + exists choice. cbn [step]. rewrite Ep. destruct p; [done|rewrite E; by eexists..].
  - destruct (popping c) as [p|] eqn:Ep; [|done].
    destruct (call_enabled v Capacity Consumer _ _ _ _ _ tt p Hv Hi Hc) as [[[b y] ->]|(choice & p' & w & m' & E)].
    + exists O. cbn [step]. rewrite Ep. by eexists.
    + exists choice. cbn [step]. rewrite Ep. destruct p; [done|rewrite E; by eexists..].
Qed.

Lemma lock_free_wait_free_witness :
  ∃ choice c', step (push V3 4) (pop V3 4) (Step Producer choice) sample_config = Config c'.
Proof.
  apply (lock_free_wait_free (T:=Z) _ V3 4 queue_capacity_4 sample_config
    ltac:(discriminate) sample_reachable).
  intros E. destruct sample_config_logs as (_ & _ & F). unfold in_flight in F. by rewrite E in F.
Defined.
