(* ===== verification/SpscProgress.v ===== *)
(** * Progress of the lock-free ring buffers

    A thread that runs alone finishes its call: [run_thread] computes the run,
    given which stores of the other thread its loads see.  If they see the
    latest ones the call succeeds whenever there is room or an item, so a
    caller that retries, as the throughput test does, gets on as soon as the
    stores of the other thread become visible to it. *)

From S2P Require Import Prelude Ring Spsc SpscMachine SpscLogic SpscVariants SpscSequential.
From S2P Require Import SpscConcurrent SpscMutex SpscProperties.

(** ** A thread that runs alone *)

Section run_thread.
Context {T : Type}.
Implicit Types (m : memory T) (vs : thread → view).

Definition newest m (l : atomic) : nat := length (history m l) - 1.

(** The message that the next access of [t] reads, for a thread that must see
    the first [floor] stores of the other one.  [looks] asks for the messages
    of the coming loads from the other thread, and is answered by the nearest
    one that may be read; without an entry a load returns the newest message. *)
Definition next_choice {A} (t : thread) (floor : nat) (looks : list nat) (p : prog T A) (w : view) m
    : nat * list nat :=
  match p with
  | Load _ l _ =>
      if decide (l = own t) then (newest m l, looks)
      else match looks with
      | [] => (newest m l, [])
      | n :: looks => ((seen w l `max` floor) `max` (n `min` newest m l), looks)%nat
      end
  | _ => (O, looks)
  end.

Fixpoint run_thread {A} (fuel : nat) (t : thread) (floor : nat) (looks : list nat) (p : prog T A) vs m
    : option (A * (thread → view) * memory T) :=
  match p with
  | Ret a => Some (a, vs, m)
  | _ =>
      match fuel with
      | O => None
      | S fuel =>
          let '(choice, looks) := next_choice t floor looks p (vs t) m in
          match exec t choice p (vs t) m with
          | Next p w m => run_thread fuel t floor looks p (set_view t w vs) m
          | _ => None
          end
      end
  end.

(** What a thread has seen it does not forget. *)
Lemma exec_seen {A} t choice (p : prog T A) w m p' w' m' l :
  exec t choice p w m = Next p' w' m' → (seen w l ≤ seen w' l)%nat.
Proof.
  unfold exec. intros E. destruct p; simplify_eq/=; repeat case_match; simplify_eq/=;
    repeat case_decide; lia.
Qed.

End run_thread.

Section alone.
Context {T : Type} `{!Inhabited T} (v : variant) (Capacity : Z) {HC : QueueCapacity Capacity}.
Context (Hv : v ≠ Mutex).
Implicit Types (m : memory T) (vs : thread → view) (L : thread → local (T:=T)) (c : config T).

(** A fresh look at the opponent saw its first [n] stores. *)
Definition informed (n : nat) L (t : thread) : Prop :=
  fresh (L t) = true → (n ≤ theirs (L t))%nat.

(** What a thread is sure to see when it looks. *)
Definition visible (n floor : nat) (looks : list nat) L (t : thread) : Prop :=
  (floor ≤ mine (L (other t)))%nat ∧ (n ≤ floor ∨ n ≤ mine (L (other t)) ∧ looks = [])%nat.

Lemma newest_mine m vs L t : inv v Capacity m vs L → newest m (own t) = mine (L t).
Proof. intros Hi. unfold newest. rewrite (inv_history _ _ _ _ _ Hi). lia. Qed.

(** The chosen message can be read, and a load of it keeps its thread informed. *)
Lemma exec_chosen {A} m vs L t (Q : local (T:=T) → A → Prop) (p : prog T A) n floor looks :
  inv v Capacity m vs L →
  safe Capacity (usable v Capacity) (encode v Capacity) t Q p (L t) →
  visible n floor looks L t →
  let '(choice, rest) := next_choice t floor looks p (vs t) m in
  (exec t choice p (vs t) m = Blocked → ∃ a, p = Ret a) ∧ (looks = [] → rest = []) ∧
  ∀ s, looked t p choice (L t) s → informed n L t → informed n (set_local t s L) t.
Proof.
  intros Hi Hs [Hfl Hn].
  assert (∀ s, theirs s = theirs (L t) ∧ fresh s = fresh (L t) →
    informed n L t → informed n (set_local t s L) t) as Hsame.
  { intros s [E1 E2] H. unfold informed. by rewrite set_local_same, E1, E2. }
  destruct p as [a|o l k|o l x k|x k|x i k|i k|i x k|k|k]; cbn [safe] in Hs; try done; cbn [next_choice];
    try (split_and!; [unfold exec; repeat case_match; by eauto|done|by apply Hsame]).
  assert (∀ j, (seen (vs t) l ≤ j < length (history m l))%nat →
    exec t j (Load o l k) (vs t) m = Blocked → ∃ a, Load o l k = Ret a) as Hread.
  { intros j [Hlo Hhi]. unfold exec. change (seen (tick t (vs t)) l) with (seen (vs t) l).
    rewrite decide_False by lia. destruct (lookup_lt_is_Some_2 (history m l) j Hhi) as [msg ->]. done. }
  destruct (decide (l = own t)) as [->|Hl].
  - split_and!; [|done|].
    + apply Hread. rewrite (newest_mine m vs L t Hi), (inv_seen_own _ _ _ _ _ Hi), (inv_history _ _ _ _ _ Hi). lia.
    + intros s. cbn [looked]. rewrite decide_True by done. intros ->. by apply Hsame.
  - apply own_other in Hl as ->.
    pose proof (known_le _ _ _ _ _ t Hi). pose proof (newest_mine m vs L (other t) Hi) as Hnew.
    rewrite (inv_history _ _ _ _ _ Hi) in Hread. rewrite (inv_seen _ _ _ _ _ Hi) in Hread.
    rewrite Hnew, (inv_seen _ _ _ _ _ Hi).
    destruct looks as [|j looks]; (split_and!; [apply Hread; lia|done|]); intros s; cbn [looked];
      rewrite decide_False by (by destruct t); intros Hth _ _; rewrite set_local_same, Hth;
      destruct Hn as [|[? ?]]; try done; lia.
Qed.

(** One step of [t] in a call. *)
Definition advances {A} (t : thread) (x y : prog T A * (thread → view) * memory T) : Prop :=
  ∃ choice w, exec t choice x.1.1 (x.1.2 t) x.2 = Next y.1.1 w y.2 ∧ y.1.2 = set_view t w x.1.2.

Lemma run_alone {X A} i t done_ m vs L (post : X → local → local → A → Prop) x p n floor looks :
  within i p → inv v Capacity m vs L → calling v Capacity t done_ L post (Some (x, p)) →
  visible n floor looks L t →
  ∃ a m' vs' L', run_thread i t floor looks p vs m = Some (a, vs', m') ∧
    rtc (advances t) (p, vs, m) (Ret a, vs', m') ∧ inv v Capacity m' vs' L' ∧
    calling v Capacity t done_ L' post (Some (x, Ret a)) ∧ L' (other t) = L (other t) ∧
    vs' (other t) = vs (other t) ∧ (∀ l, seen (vs t) l ≤ seen (vs' t) l)%nat ∧
    (informed n L t → informed n L' t).
Proof using HC Hv.
  revert p m vs L looks. induction i as [|i IH]; intros p m vs L looks Hn Hi Hc Hvis.
  { inversion Hn; subst. exists a, m, vs, L. split; [done|]. split; [apply rtc_refl|done]. }
  pose proof Hc as (s0 & _ & _ & _ & Hs).
  pose proof (exec_chosen m vs L t _ p n floor looks Hi Hs Hvis) as Hch.
  destruct (next_choice t floor looks p (vs t) m) as [choice rest] eqn:Ech.
  destruct Hch as (Hblock & Hrest & Hlook).
  pose proof (calling_step v Capacity t done_ m vs L post x p choice Hv Hi Hc) as Hstep.
  destruct (exec t choice p (vs t) m) as [p' w m'| |] eqn:E; [|destruct (Hblock eq_refl) as [a ->]|done].
  - destruct Hstep as (s & Hi' & Hc' & Hl).
    destruct (IH p' m' (set_view t w vs) (set_local t s L) rest)
      as (a & m1 & vs1 & L1 & Hrun & Hr & Hi1 & Hc1 & Ho & Hov & Hseen & Hinf1);
      [by eapply exec_within|done..| |].
    { unfold visible in *. rewrite set_local_other. destruct Hvis as [? [?|[? ?]]]; auto. }
    rewrite set_local_other in Ho. rewrite set_view_other in Hov.
    exists a, m1, vs1, L1. split_and!; try done; [| | |by auto].
    + destruct p; [done|cbn [run_thread]; by rewrite Ech, E..].
    + eapply rtc_l; [|exact Hr]. by exists choice, w.
    + intros l. etrans; [by eapply exec_seen|]. specialize (Hseen l). by rewrite set_view_same in Hseen.
  - exists a, m, vs, L. split; [done|]. split; [apply rtc_refl|done].
Qed.

(** ** Configurations *)

(** Only [t] moves. *)
Definition moves_alone (t : thread) c c' : Prop :=
  ∃ choice, step (push v Capacity) (pop v Capacity) (Step t choice) c = Config c'.

Lemma moves_alone_reaches t c c' :
  rtc (moves_alone t) c c' → rtc (steps_to (push v Capacity) (pop v Capacity)) c c'.
Proof. apply rtc_subrel. intros c1 c2 [choice H]. by exists (Step t choice). Qed.

Lemma producer_advances x q ps po y z :
  rtc (advances Producer) y z →
  rtc (moves_alone Producer) (mkconfig y.2 y.1.2 (Some (x, y.1.1)) q ps po)
    (mkconfig z.2 z.1.2 (Some (x, z.1.1)) q ps po).
Proof.
  induction 1 as [y|y y' z (choice & w & E & Hw) _ IH]; [apply rtc_refl|].
  eapply rtc_l; [|exact IH]. exists choice. destruct y as [[p vs] m]. cbn in *. subst.
  destruct p; [done|rewrite E; by rewrite Hw..].
Qed.

Lemma consumer_advances pu ps po y z :
  rtc (advances Consumer) y z →
  rtc (moves_alone Consumer) (mkconfig y.2 y.1.2 pu (Some y.1.1) ps po)
    (mkconfig z.2 z.1.2 pu (Some z.1.1) ps po).
Proof.
  induction 1 as [y|y y' z (choice & w & E & Hw) _ IH]; [apply rtc_refl|].
  eapply rtc_l; [|exact IH]. exists choice. destruct y as [[p vs] m]. cbn in *. subst.
  destruct p as [[b x]| | | | | | | |]; [done|rewrite E; by rewrite Hw..].
Qed.

(** The location that the call of a thread loads next. *)
Definition loads (t : thread) c : option atomic :=
  match t with
  | Producer => match pushing c with Some (_, Load _ l _) => Some l | _ => None end
  | Consumer => match popping c with Some (Load _ l _) => Some l | _ => None end
  end.

(** Only [t] moves, and its loads return the newest messages. *)
Definition moves_latest (t : thread) c c' : Prop :=
  ∃ choice, (∀ l, loads t c = Some l → choice = newest (mem c) l) ∧
    step (push v Capacity) (pop v Capacity) (Step t choice) c = Config c'.

Lemma latest_alone t c c' : rtc (moves_latest t) c c' → rtc (moves_alone t) c c'.
Proof. apply rtc_subrel. intros c1 c2 (choice & _ & H). by exists choice. Qed.

(** Only loads have a choice. *)
Lemma moves_latest_det t c c1 c2 : moves_latest t c c1 → moves_latest t c c2 → c1 = c2.
Proof.
  intros (ch1 & H1 & E1) (ch2 & H2 & E2). unfold loads in *. cbn [step] in *.
  destruct t; [destruct (pushing c) as [[x p]|]|destruct (popping c) as [p|]]; try done;
    destruct p;
    try (specialize (H1 _ eq_refl); specialize (H2 _ eq_refl); subst ch1 ch2);
    by injection (eq_trans (eq_sym E1) E2).
Qed.

Definition advances_latest {A} (t : thread) (x y : prog T A * (thread → view) * memory T) : Prop :=
  ∃ choice w, (∀ o l k, x.1.1 = Load o l k → choice = newest x.2 l) ∧
    exec t choice x.1.1 (x.1.2 t) x.2 = Next y.1.1 w y.2 ∧ y.1.2 = set_view t w x.1.2.

(** Without further looks every load returns the newest message. *)
Lemma run_thread_latest {A} fuel t floor (p : prog T A) vs m a vs' m' :
  run_thread fuel t floor [] p vs m = Some (a, vs', m') →
  rtc (advances_latest t) (p, vs, m) (Ret a, vs', m').
Proof.
  revert p vs m. induction fuel as [|fuel IH]; intros p vs m; [by destruct p; intros [= <- <- <-]|].
  assert (∃ choice, next_choice t floor [] p (vs t) m = (choice, []) ∧
    ∀ o l k, p = Load o l k → choice = newest m l) as (choice & Ech & Hch).
  { destruct p as [|o l k| | | | | | |]; try by exists O. exists (newest m l). cbn [next_choice].
    case_decide; (split; [done|]); by intros ??? [= _ <- _]. }
  destruct p as [b| | | | | | | |]; [by intros [= <- <- <-]|..]; cbn [run_thread]; rewrite Ech;
    (destruct (exec t choice _ (vs t) m) as [p' w m1| |] eqn:E; [|done..]); intros Hrun%IH;
    (eapply rtc_l; [|exact Hrun]); by exists choice, w.
Qed.

Lemma producer_latest x q ps po y z :
  rtc (advances_latest Producer) y z →
  rtc (moves_latest Producer) (mkconfig y.2 y.1.2 (Some (x, y.1.1)) q ps po)
    (mkconfig z.2 z.1.2 (Some (x, z.1.1)) q ps po).
Proof.
  induction 1 as [y|y y' z (choice & w & Hl & E & Hw) _ IH]; [apply rtc_refl|].
  eapply rtc_l; [|exact IH]. exists choice. destruct y as [[p vs] m]. cbn in *. subst.
  split; [intros l; destruct p; intros [= <-]; by eapply Hl|]. destruct p; [done|rewrite E; by rewrite Hw..].
Qed.

Lemma consumer_latest pu ps po y z :
  rtc (advances_latest Consumer) y z →
  rtc (moves_latest Consumer) (mkconfig y.2 y.1.2 pu (Some y.1.1) ps po)
    (mkconfig z.2 z.1.2 pu (Some z.1.1) ps po).
Proof.
  induction 1 as [y|y y' z (choice & w & Hl & E & Hw) _ IH]; [apply rtc_refl|].
  eapply rtc_l; [|exact IH]. exists choice. destruct y as [[p vs] m]. cbn in *. subst.
  split; [intros l; destruct p; intros [= <-]; by eapply Hl|].
  destruct p as [[b x]| | | | | | | |]; [done|rewrite E; by rewrite Hw..].
Qed.

Lemma passed_count {X A} m vs L t done_ (post : X → local → local → A → Prop) call :
  inv v Capacity m vs L → calling v Capacity t done_ L post call →
  (length done_ ≤ mine (L t))%nat.
Proof.
  intros Hi Hc. destruct (inv_local _ _ _ _ _ Hi t) as (_ & _ & <-). apply prefix_length.
  destruct call as [[x p]|]; [by destruct Hc as (s0 & _ & <- & Hpre & _)|by destruct Hc as [_ ->]].
Qed.

(** Runs the call in flight of one thread to its end. *)
Definition finish_push (floor : nat) (looks : list nat) c : option (bool * config T) :=
  '(x, p) ← pushing c;
  '(b, vs, m) ← run_thread 12 Producer floor looks p (views c) (mem c);
  Some (b, mkconfig m vs None (popping c) (if b : bool then pushed c ++ [x] else pushed c) (popped c)).

Definition finish_pop (floor : nat) (looks : list nat) c : option (bool * T * config T) :=
  p ← popping c;
  '(b, y, vs, m) ← run_thread 12 Consumer floor looks p (views c) (mem c);
  Some (b, y, mkconfig m vs (pushing c) None (pushed c) (if b : bool then popped c ++ [y] else popped c)).

Lemma finish_push_eq floor looks c x p b vs m :
  pushing c = Some (x, p) →
  run_thread 12 Producer floor looks p (views c) (mem c) = Some (b, vs, m) →
  finish_push floor looks c =
    Some (b, mkconfig m vs None (popping c) (if b : bool then pushed c ++ [x] else pushed c) (popped c)).
Proof. unfold finish_push. generalize (run_thread (T:=T) (A:=bool) 12). intros run -> E. simpl. by rewrite E. Qed.

Lemma finish_pop_eq floor looks c p b y vs m :
  popping c = Some p →
  run_thread 12 Consumer floor looks p (views c) (mem c) = Some (b, y, vs, m) →
  finish_pop floor looks c =
    Some (b, y, mkconfig m vs (pushing c) None (pushed c) (if b : bool then popped c ++ [y] else popped c)).
Proof. unfold finish_pop. generalize (run_thread (T:=T) (A:=bool*T) 12). intros run -> E. simpl. by rewrite E. Qed.

Lemma finish_push_latest floor c b c' :
  finish_push floor [] c = Some (b, c') → rtc (moves_latest Producer) c c'.
Proof.
  intros ([x p] & E & ([[b' vs] m] & Hrun & [= <- <-])%bind_Some)%bind_Some.
  apply run_thread_latest, (producer_latest x (popping c) (pushed c) (popped c)) in Hrun. cbn [fst snd] in Hrun.
  rewrite <- E in Hrun. eapply rtc_r; [destruct c; exact Hrun|]. exists O. split; [done|reflexivity].
Qed.

Lemma finish_pop_latest floor c b y c' :
  finish_pop floor [] c = Some (b, y, c') → rtc (moves_latest Consumer) c c'.
Proof.
  intros (p & E & ([[[b' y'] vs] m] & Hrun & [= <- <- <-])%bind_Some)%bind_Some.
  apply run_thread_latest, (consumer_latest (pushing c) (pushed c) (popped c)) in Hrun. cbn [fst snd] in Hrun.
  rewrite <- E in Hrun. eapply rtc_r; [destruct c; exact Hrun|]. exists O. split; [done|reflexivity].
Qed.

Lemma push_returns c m vs x b :
  rtc (moves_alone Producer) c (mkconfig m vs (Some (x, Ret b)) (popping c) (pushed c) (popped c)) →
  rtc (moves_alone Producer) c
    (mkconfig m vs None (popping c) (if b : bool then pushed c ++ [x] else pushed c) (popped c)).
Proof. intros H. eapply rtc_r; [exact H|]. by exists O. Qed.

Lemma pop_returns c m vs b y :
  rtc (moves_alone Consumer) c (mkconfig m vs (pushing c) (Some (Ret (b, y))) (pushed c) (popped c)) →
  rtc (moves_alone Consumer) c
    (mkconfig m vs (pushing c) None (pushed c) (if b : bool then popped c ++ [y] else popped c)).
Proof. intros H. eapply rtc_r; [exact H|]. by exists O. Qed.

(** How a [push] in flight ends. *)
Record push_ended (x : T) (b : bool) c c' : Prop := {
  pushed_alone : rtc (moves_alone Producer) c c';
  pushed_idle : pushing c' = None;
  pushed_popping : popping c' = popping c;
  pushed_items : pushed c' = if b then pushed c ++ [x] else pushed c;
  pushed_popped : popped c' = popped c;
  pushed_other : views c' Consumer = views c Consumer;
  pushed_seen : (seen (views c Producer) Tail ≤ seen (views c' Producer) Tail)%nat;
  pushed_refused : b = false →
    Z.of_nat (length (pushed c)) = Z.of_nat (seen (views c' Producer) Tail) + usable v Capacity
}.

(** And a [pop]. *)
Record pop_ended (b : bool) (y : T) c c' : Prop := {
  popped_alone : rtc (moves_alone Consumer) c c';
  popped_idle : popping c' = None;
  popped_pushing : pushing c' = pushing c;
  popped_items : popped c' = if b then popped c ++ [y] else popped c;
  popped_pushed : pushed c' = pushed c;
  popped_other : views c' Producer = views c Producer;
  popped_refused : b = false → length (popped c) = seen (views c' Consumer) Head
}.

Lemma push_ends c L x p n floor looks :
  inv v Capacity (mem c) (views c) L →
  calling v Capacity Producer (pushed c) L (λ x s0, push_post Capacity v s0 x) (Some (x, p)) →
  pushing c = Some (x, p) → within 12 p → visible n floor looks L Producer → informed n L Producer →
  ∃ b c', finish_push floor looks c = Some (b, c') ∧ push_ended x b c c' ∧
    (b = false → (n ≤ seen (views c' Producer) Tail)%nat).
Proof using HC Hv.
  intros Hi Hp Epush Hn Hvis Hinf0.
  destruct (run_alone _ Producer _ _ _ _ _ _ _ n floor looks Hn Hi Hp Hvis)
    as (b & m' & vs' & L' & Hrun & Hr & Hi' & Hp' & Ho & Hov & Hseen & Hinf).
  apply (producer_advances x (popping c) (pushed c) (popped c)) in Hr. cbn [fst snd] in Hr.
  exists b. eexists. split; [by apply (finish_push_eq _ _ _ _ _ _ _ _ Epush Hrun)|].
  destruct Hp' as (s0 & _ & Hd & _ & (((_ & _ & Hlen) & _) & _ & Hpost)).
  pose proof (inv_seen _ _ _ _ _ Hi' Producer) as Hs. cbn [other own] in Hs.
  assert (c = mkconfig (mem c) (views c) (Some (x, p)) (popping c) (pushed c) (popped c)) as Ec
    by (destruct c; simpl in Epush; by rewrite Epush).
  rewrite <- Ec in Hr. apply push_returns in Hr.
  split; [split; cbn [views pushed popped pushing popping]; auto|cbn [views]].
  all: intros ->; destruct Hpost as (Hm & Hpass & Hfresh & Hfull); cbn [room] in Hfull; rewrite Hs.
  - rewrite <- Hd, <- Hpass, Hlen. lia.
  - by apply Hinf.
Qed.

Lemma pop_ends c L p n floor looks (post : unit → local → local → bool * T → Prop) :
  (∀ s0 s r, post () s0 s r → pop_post_any v Capacity () s0 s r) →
  inv v Capacity (mem c) (views c) L →
  calling v Capacity Consumer (popped c) L post (Some ((), p)) →
  popping c = Some p → within 12 p → visible n floor looks L Consumer → informed n L Consumer →
  ∃ b y c', finish_pop floor looks c = Some (b, y, c') ∧ pop_ended b y c c' ∧
    (b = false → (n ≤ seen (views c' Consumer) Head)%nat) ∧ ∃ s0 s, post () s0 s (b, y).
Proof using HC Hv.
  intros Hpost0 Hi Hc Epop Hn Hvis Hinf0.
  destruct (run_alone _ Consumer _ _ _ _ _ _ _ n floor looks Hn Hi Hc Hvis)
    as ([b y] & m' & vs' & L' & Hrun & Hr & Hi' & Hc' & Ho & Hov & _ & Hinf).
  apply (consumer_advances (pushing c) (pushed c) (popped c)) in Hr. cbn [fst snd] in Hr.
  exists b, y. eexists. split; [by apply (finish_pop_eq _ _ _ _ _ _ _ _ Epop Hrun)|].
  destruct Hc' as (s0 & _ & Hd & _ & Hc'). cbn [safe] in Hc'.
  destruct (Hpost0 _ _ _ Hc') as (out & (((_ & _ & Hlen) & _) & _ & Hpost) & _). cbn [fst snd] in Hpost.
  pose proof (inv_seen _ _ _ _ _ Hi' Consumer) as Hs. cbn [other own] in Hs.
  assert (c = mkconfig (mem c) (views c) (pushing c) (Some p) (pushed c) (popped c)) as Ec
    by (destruct c; simpl in Epop; by rewrite Epop).
  rewrite <- Ec in Hr. apply pop_returns in Hr.
  split; [split; cbn [views pushed popped pushing popping]; auto|split; [cbn [views]|by eexists _, _]].
  all: intros ->; destruct Hpost as (Hm & Hpass & Hfresh & Hempty); cbn [room] in Hempty; rewrite Hs.
  - rewrite <- Hd, <- Hpass, Hlen. lia.
  - by apply Hinf.
Qed.

End alone.

(** ** Calls of reachable configurations *)

Lemma within_S {T A} n (p : prog T A) : within n p → within (S n) p.
Proof. induction 1; by constructor. Qed.

Section reachable.
Context {T : Type} `{!Inhabited T} (v : variant) (Capacity : Z) {HC : QueueCapacity Capacity}.
Implicit Types (c : config T).

Definition short_calls c : Prop :=
  (∀ x p, pushing c = Some (x, p) → within 12 p) ∧ (∀ p, popping c = Some p → within 12 p).

Lemma exec_short {A} t choice (p : prog T A) w m p' w' m' :
  exec t choice p w m = Next p' w' m' → within 12 p → within 12 p'.
Proof. intros E Hp. apply within_S. by eapply exec_within. Qed.

Lemma step_short s c c' :
  step (push v Capacity) (pop v Capacity) s c = Config c' → short_calls c → short_calls c'.
Proof using Type.
  intros E [Hp Hc]. destruct s as [x|out|[] choice]; cbn [step] in E.
  - destruct (pushing c); [done|]. injection E as <-. split; [|done].
    intros y p [= <- <-]. by apply calls_within.
  - destruct (popping c); [done|]. injection E as <-. split; [done|].
    intros p [= <-]. by apply (calls_within v Capacity out).
  - destruct (pushing c) as [[x p]|] eqn:Ep; [|done]. specialize (Hp x p eq_refl).
    destruct p; try (destruct (exec _ _ _ _ _) eqn:Ee; [|done..]); injection E as <-;
      (split; [|done]); intros y q; [done|intros [= <- <-]; by eapply exec_short..].
  - destruct (popping c) as [p|] eqn:Ep; [|done]. specialize (Hc p eq_refl).
    destruct p as [[b y]| | | | | | | |]; try (destruct (exec _ _ _ _ _) eqn:Ee; [|done..]); injection E as <-;
      (split; [done|]); intros q; [done|intros [= <-]; by eapply exec_short..].
Qed.

Lemma reachable_short c : reachable v Capacity c → short_calls c.
Proof using Type.
  intros Hr. apply (rtc_ind_r (R:=steps_to (push v Capacity) (pop v Capacity)) short_calls (initial Capacity));
    [by split| |exact Hr].
  intros c1 c2 _ [s Hs]. by eapply step_short.
Qed.

Context (Hv : v ≠ Mutex).

(** A call in flight ends when its thread runs alone. *)
Lemma push_finishes c x p :
  reachable v Capacity c → pushing c = Some (x, p) → ∃ b c', push_ended v Capacity x b c c'.
Proof using HC Hv.
  intros Hr E. destruct (reachable_ok v Capacity c Hv Hr) as (L & Hi & Hp & Hc).
  destruct (reachable_short c Hr) as [Hn _]. rewrite E in Hp.
  destruct (push_ends v Capacity Hv c L x p 0 0 [] Hi Hp E (Hn x p E)) as (b & c' & _ & ? & _);
    [split; lia|intros _; lia|by exists b, c'].
Qed.

Lemma pop_finishes c p :
  reachable v Capacity c → popping c = Some p → ∃ b y c', pop_ended v Capacity b y c c'.
Proof using HC Hv.
  intros Hr E. destruct (reachable_ok v Capacity c Hv Hr) as (L & Hi & Hp & Hc).
  destruct (reachable_short c Hr) as [_ Hn]. rewrite E in Hc.
  destruct (pop_ends v Capacity Hv c L p 0 0 [] (pop_post_any v Capacity) (λ _ _ _ H, H) Hi Hc E (Hn p E)) as (b & y & c' & _ & ? & _);
    [split; lia|intros _; lia|by exists b, y, c'].
Qed.

(** A new call, by its definition and as steps of the machine. *)
Definition call_push (x : T) c : config T :=
  mkconfig (mem c) (views c) (Some (x, push v Capacity x)) (popping c) (pushed c) (popped c).
Definition call_pop (out : T) c : config T :=
  mkconfig (mem c) (views c) (pushing c) (Some (pop v Capacity out)) (pushed c) (popped c).

Lemma push_call c x n floor looks :
  reachable v Capacity c → pushing c = None → (floor ≤ length (popped c))%nat →
  (n ≤ floor ∨ n ≤ length (popped c) ∧ looks = [])%nat →
  step (push v Capacity) (pop v Capacity) (CallPush x) c = Config (call_push x c) ∧
  ∃ b c', finish_push floor looks (call_push x c) = Some (b, c') ∧
    push_ended v Capacity x b (call_push x c) c' ∧
    (b = false → (n ≤ seen (views c' Producer) Tail)%nat).
Proof using HC Hv.
  intros Hr E Hfl Hn. destruct (reachable_ok v Capacity c Hv Hr) as (L & Hi & Hp & Hc).
  split; [cbn [step]; by rewrite E|].
  rewrite E in Hp. pose proof (proj1 Hp) as Hidle.
  pose proof (passed_count v Capacity _ _ _ _ _ _ _ Hi Hc) as Hcount.
  apply (push_ends v Capacity Hv (call_push x c) (set_local Producer (begin (L Producer)) L) x
    (push v Capacity x)).
  - by apply inv_begin.
  - apply calling_start; [exact Hp|]. by apply push_safe.
  - done.
  - by apply calls_within.
  - split; rewrite set_local_other; cbn [other]; lia || (destruct Hn as [?|[? ?]]; auto; right; split; [lia|done]).
  - unfold informed. by rewrite set_local_same.
Qed.

Lemma pop_call c out n floor looks :
  reachable v Capacity c → popping c = None → (floor ≤ length (pushed c))%nat →
  (n ≤ floor ∨ n ≤ length (pushed c) ∧ looks = [])%nat →
  step (push v Capacity) (pop v Capacity) (CallPop out) c = Config (call_pop out c) ∧
  ∃ b y c', finish_pop floor looks (call_pop out c) = Some (b, y, c') ∧
    pop_ended v Capacity b y (call_pop out c) c' ∧
    (b = false → (n ≤ seen (views c' Consumer) Head)%nat ∧ y = out).
Proof using HC Hv.
  intros Hr E Hfl Hn. destruct (reachable_ok v Capacity c Hv Hr) as (L & Hi & Hp & Hc).
  split; [cbn [step]; by rewrite E|].
  rewrite E in Hc. pose proof (proj1 Hc) as Hidle.
  pose proof (passed_count v Capacity _ _ _ _ _ _ _ Hi Hp) as Hcount.
  destruct (pop_ends v Capacity Hv (call_pop out c) (set_local Consumer (begin (L Consumer)) L)
    (pop v Capacity out) n floor looks (λ _ s0, pop_post Capacity v s0 out))
    as (b & y & c' & Erun & Hend & Hb & s0 & s & Hpost).
  - intros s0 s r Hpost. by exists out.
  - by apply inv_begin.
  - apply (calling_start v Capacity Consumer _ _ (λ _ s0, pop_post Capacity v s0 out)); [exact Hc|].
    by apply pop_safe.
  - done.
  - by apply (calls_within v Capacity out).
  - split; rewrite set_local_other; cbn [other]; lia || (destruct Hn as [?|[? ?]]; auto; right; split; [lia|done]).
  - unfold informed. by rewrite set_local_same.
  - exists b, y, c'. split; [done|]. split; [done|]. intros ->. split; [by apply Hb|]. by apply Hpost.
Qed.

(** A pop takes the item behind the ones popped. *)
Lemma pop_takes c out y c' :
  reachable v Capacity c → popping c = None → rtc (moves_alone v Capacity Consumer) (call_pop out c) c' →
  popped c' = popped c ++ [y] → pushed c' = pushed c →
  (length (popped c) < length (pushed c))%nat → pushed c !! length (popped c) = Some y.
Proof using HC.
  intros Hr E Halone Hpp Hps Hlt.
  assert (reachable v Capacity c') as Hr'.
  { unfold reachable in *; etrans; [exact Hr|]. eapply rtc_l; [exists (CallPop out); cbn [step]; by rewrite E|].
    by eapply moves_alone_reaches. }
  destruct (ring_prefix v Capacity c' Hr') as [Hpre _]. rewrite Hpp, Hps in Hpre.
  cbn [popped pushed call_pop] in *.
  assert ((popped c ++ [y]) !! length (popped c) = Some y) as Hy.
  { by rewrite lookup_app_r, Nat.sub_diag by lia. }
  apply (prefix_lookup_Some _ _ _ _ Hy) in Hpre as Hy'.
  by rewrite lookup_app_l in Hy' by lia.
Qed.

(** With the newest stores in view a new call succeeds. *)
Lemma push_succeeds c x :
  reachable v Capacity c → pushing c = None →
  Z.of_nat (length (pushed c)) < Z.of_nat (length (popped c)) + usable v Capacity →
  step (push v Capacity) (pop v Capacity) (CallPush x) c = Config (call_push x c) ∧
  ∃ c', push_ended v Capacity x true (call_push x c) c' ∧
    rtc (moves_latest v Capacity Producer) (call_push x c) c'.
Proof using HC Hv.
  intros Hr E Hroom.
  destruct (push_call c x (length (popped c)) 0 [] Hr E) as (E1 & b & c' & Hrun & Hend & Hn); [lia|by right|].
  split; [done|]. exists c'. destruct b; [split; [done|by eapply finish_push_latest]|].
  pose proof (pushed_refused _ _ _ _ _ _ Hend eq_refl) as Hfull. specialize (Hn eq_refl). simpl in Hfull. lia.
Qed.

Lemma pop_succeeds c out :
  reachable v Capacity c → popping c = None → (length (popped c) < length (pushed c))%nat →
  step (push v Capacity) (pop v Capacity) (CallPop out) c = Config (call_pop out c) ∧
  ∃ y c', pop_ended v Capacity true y (call_pop out c) c' ∧
    rtc (moves_latest v Capacity Consumer) (call_pop out c) c'.
Proof using HC Hv.
  intros Hr E Hlt.
  destruct (pop_call c out (length (pushed c)) 0 [] Hr E) as (E1 & b & y & c' & Hrun & Hend & Hn); [lia|by right|].
  split; [done|]. exists y, c'. destruct b; [split; [done|by eapply finish_pop_latest]|].
  pose proof (popped_refused _ _ _ _ _ _ Hend eq_refl) as He. destruct (Hn eq_refl). simpl in He. lia.
Qed.

End reachable.
