(* ===== verification/SpscAlone.v ===== *)
(** * Calls whose thread runs alone, for all variants

    [SpscProgress] has the lock-free variants.  A thread of the mutex variant
    gets on unless the other one holds the mutex; that one then gets on, and
    releases it. *)

From S2P Require Import Prelude Ring Spsc SpscMachine SpscLogic SpscVariants SpscSequential.
From S2P Require Import SpscConcurrent SpscMutex SpscProperties SpscProgress.

(** ** The mutex variant *)

Section mutex.
Context {T : Type} (Capacity : Z) {HC : QueueCapacity Capacity}.
Implicit Types (m : memory T) (vs : thread → view) (c : config T).
Abbreviation limit := (usable Mutex Capacity).
Abbreviation mstep s c := (step (push Mutex Capacity) (pop Mutex Capacity) s c).

(** A step takes the mutex for its own thread at most. *)
Lemma exec_holder {A} t choice (p : prog T A) w m p' w' m' :
  exec t choice p w m = Next p' w' m' → holder m ≠ Some (other t) → holder m' ≠ Some (other t).
Proof.
  unfold exec. intros E Hne. destruct p; simplify_eq/=; repeat case_match; simplify_eq/=; try done.
  intros [= Ht]. by apply (other_ne t).
Qed.

Lemma phase_enabled {X A} t m vs (entry : X → prog T A → Prop) before inside after x p :
  locked_ok m vs → (∀ x p, entry x p → ∃ k, p = Lock k ∧ critical k) →
  phase t m entry before inside after (Some (x, p)) → holder m ≠ Some (other t) →
  (∀ a, p ≠ Ret a) → exec t 0 p (vs t) m ≠ Blocked.
Proof.
  intros Hl Hentry Hp Hother Hret. destruct Hp as [(He & Hne & _)|[(Ht & Hp & _ & a & q' & Hrun & _)|(a & E & _)]].
  - destruct (Hentry _ _ He) as (k & -> & _). unfold exec.
    destruct (holder m) as [u|]; [|done].
    exfalso. by destruct (thread_cases t u) as [->| ->].
  - pose proof (exec_critical m vs t 0 p a q' Hl Ht Hp Hrun) as H. by destruct (exec _ _ _ _ _).
  - by destruct (Hret a).
Qed.

(** A call of the mutex variant has no load. *)
Lemma phase_loads {X A} t m (entry : X → prog T A → Prop) before inside after x o l k :
  (∀ x p, entry x p → ∃ k, p = Lock k ∧ critical k) →
  ¬ phase t m entry before inside after (Some (x, Load o l k)).
Proof. intros Hentry [(He & _)|[(_ & [] & _)|(a & [=] & _)]]. by destruct (Hentry _ _ He) as (? & [=] & _). Qed.

Lemma mutex_loads t got items out c : mutex_state Capacity got items out c → loads t c = None.
Proof.
  intros (_ & _ & _ & Hpush & Hpop). unfold loads.
  destruct t; [destruct (pushing c) as [[x p]|]|destruct (popping c) as [p|]]; try done; destruct p; try done; exfalso.
  - eapply phase_loads in Hpush; [done|]. intros ?? ->. apply push_critical.
  - eapply (phase_loads Consumer (mem c) _ _ _ _ out) in Hpop; [done|]. intros ?? ->. apply pop_critical.
Qed.

Lemma mutex_latest t got items out c c' choice :
  mutex_state Capacity got items out c → mstep (Step t choice) c = Config c' →
  moves_latest Mutex Capacity t c c'.
Proof. intros Hok E. exists choice. split; [|done]. by rewrite (mutex_loads t _ _ _ _ Hok). Qed.

(** One step of a push that has not returned. *)
Lemma push_advances c x p c' choice :
  pushing c = Some (x, p) → (∀ b, p ≠ Ret b) → mstep (Step Producer choice) c = Config c' →
  ∃ p' w, exec Producer choice p (views c Producer) (mem c) = Next p' w (mem c') ∧
    pushing c' = Some (x, p') ∧ popping c' = popping c ∧ pushed c' = pushed c ∧ popped c' = popped c.
Proof.
  intros E Hret. cbn [step]. rewrite E. destruct p; [by destruct (Hret a)|..];
    (destruct (exec _ _ _ _ _) as [p' w m'| |] eqn:Ee; [|done..]); intros [= <-]; by exists p', w.
Qed.

Lemma pop_advances c p c' choice :
  popping c = Some p → (∀ r, p ≠ Ret r) → mstep (Step Consumer choice) c = Config c' →
  ∃ p' w, exec Consumer choice p (views c Consumer) (mem c) = Next p' w (mem c') ∧
    pushing c' = pushing c ∧ popping c' = Some p' ∧ pushed c' = pushed c ∧ popped c' = popped c.
Proof.
  intros E Hret. cbn [step]. rewrite E. destruct p as [[b y]| | | | | | | |]; [by destruct (Hret (b, y))|..];
    (destruct (exec _ _ _ _ _) as [p' w m'| |] eqn:Ee; [|done..]); intros [= <-]; by exists p', w.
Qed.

Lemma call_returned {X A} (x : X) (a : A) r : call_move (T:=T) (Some (x, Ret a)) None r → r = None.
Proof. by inversion 1. Qed.

(** How a push ends, for the specification: [items] before and after. *)
Definition push_effect (x : T) (p : prog T bool) (b : bool) (items items' : list T) : Prop :=
  match p with Ret b' => b = b' ∧ items' = items | _ => (b, items') = spec_push limit x items end.

Lemma push_effect_step x (p p' : prog T bool) b (items items1 items' : list T) r :
  (∀ b, p ≠ Ret b) → call_move (Some (x, p)) (Some (x, p')) r →
  match r with None => items1 = items | Some (x, b) => (b, items1) = spec_push limit x items end →
  push_effect x p' b items1 items' → push_effect x p b items items'.
Proof.
  intros Hret Hmove Hr He.
  assert (push_effect x p b items items' = ((b, items') = spec_push limit x items)) as ->
    by (destruct p; [by destruct (Hret a)|done..]).
  remember (Some (x, p)) as call eqn:E. remember (Some (x, p')) as call' eqn:E'.
  destruct Hmove as [x1 p1 p1' H1 H1'|x1 p1 a H1|x1 a]; simplify_eq.
  - destruct p'; [by destruct (H1' a)|exact He..].
  - destruct He as [-> ->]. done.
Qed.

Lemma push_runs i got items out c x p :
  within i p → mutex_state Capacity got items out c → pushing c = Some (x, p) →
  holder (mem c) ≠ Some Consumer →
  ∃ b items' c', rtc (moves_latest Mutex Capacity Producer) c c' ∧ mutex_state Capacity got items' out c' ∧
    pushing c' = None ∧ popping c' = popping c ∧ popped c' = popped c ∧ holder (mem c') ≠ Some Consumer ∧
    pushed c' = (if b : bool then pushed c ++ [x] else pushed c) ∧ push_effect x p b items items'.
Proof using HC.
  revert items c p. induction i as [|i IH]; intros items c p Hn Hok E Hfree;
    (assert ((∃ b, p = Ret b) ∨ ∀ b, p ≠ Ret b) as [[b ->]|Hret]
      by (destruct p; [left; by eexists|by right..])).
  1, 3: pose proof (step_push_mutex Capacity got items out c 0 Hok) as H; cbn [step] in H; rewrite E in H;
    destruct H as (items' & r & Hok' & Hmove & _ & Hr);
    apply call_returned in Hmove as ->; subst items';
    exists b, items; eexists; (split; [apply rtc_once, (mutex_latest _ _ _ _ _ _ 0 Hok); cbn [step]; rewrite E; reflexivity|]);
    by split_and!.
  - inversion Hn; subst. by destruct (Hret a).
  - pose proof (step_push_mutex Capacity got items out c 0 Hok) as H.
    destruct (mstep (Step Producer 0) c) as [c1| |] eqn:Es; [|exfalso|done].
    + destruct (push_advances c x p c1 0 E Hret Es) as (p' & w & Ee & E1 & Epo & Eps & Epp).
      destruct H as (items1 & r & Hok1 & Hmove & _ & Hr). rewrite E, E1 in Hmove.
      destruct (IH items1 c1 p') as (b & items' & c' & Hruns & Hok' & H1 & H2 & H3 & H4 & H5 & H6);
        [by eapply exec_within|done|done|by eapply (exec_holder Producer)|].
      exists b, items', c'. split; [by eapply rtc_l; [eapply mutex_latest|]|].
      split_and!; [done|done|congruence|congruence|done|by rewrite H5, Eps|by eapply push_effect_step].
    + destruct Hok as (Hl & _ & _ & Hpush & _). unfold push_phase in Hpush. rewrite E in Hpush.
      eapply (phase_enabled Producer _ (views c)) in Hpush; [|done|by intros ?? ->; apply push_critical|done|done].
      cbn [step] in Es. rewrite E in Es. destruct p; [by destruct (Hret a)|..];
        (destruct (exec (T:=T) _ _ _ _ _); try done; by apply Hpush).
Qed.

Definition pop_effect (out : T) (p : prog T (bool * T)) (r : bool * T) (got items got' items' : list T) : Prop :=
  match p with
  | Ret r' => r = r' ∧ got' = got ∧ items' = items
  | _ => got' = got ++ (if r.1 then [r.2] else []) ∧ (r, items') = spec_pop out items
  end.

Lemma pop_effect_step out (p p' : prog T (bool * T)) r (got items got1 items1 got' items' : list T)
    (move : option (T * (bool * T))) :
  (∀ r, p ≠ Ret r) → call_move (Some (out, p)) (Some (out, p')) move →
  match move with
  | None => got1 = got ∧ items1 = items
  | Some (_, r) => got1 = got ++ (if r.1 then [r.2] else []) ∧ (r, items1) = spec_pop out items
  end →
  pop_effect out p' r got1 items1 got' items' → pop_effect out p r got items got' items'.
Proof.
  intros Hret Hmove Hr He.
  assert (pop_effect out p r got items got' items' =
    (got' = got ++ (if r.1 then [r.2] else []) ∧ (r, items') = spec_pop out items)) as ->
    by (destruct p; [by destruct (Hret a)|done..]).
  remember (Some (out, p)) as call eqn:E. remember (Some (out, p')) as call' eqn:E'.
  destruct Hmove as [x1 p1 p1' H1 H1'|x1 p1 a H1|x1 a]; simplify_eq.
  - destruct Hr as [-> ->]. destruct p'; [by destruct (H1' a)|exact He..].
  - destruct He as (-> & -> & ->). done.
Qed.

Lemma pop_runs i got items out c p :
  within i p → mutex_state Capacity got items out c → popping c = Some p →
  holder (mem c) ≠ Some Producer →
  ∃ r got' items' c', rtc (moves_latest Mutex Capacity Consumer) c c' ∧ mutex_state Capacity got' items' out c' ∧
    popping c' = None ∧ pushing c' = pushing c ∧ pushed c' = pushed c ∧ holder (mem c') ≠ Some Producer ∧
    popped c' = (if r.1 : bool then popped c ++ [r.2] else popped c) ∧ pop_effect out p r got items got' items'.
Proof using HC.
  revert got items c p. induction i as [|i IH]; intros got items c p Hn Hok E Hfree;
    (assert ((∃ (b : bool) (y : T), p = Ret (b, y)) ∨ ∀ r, p ≠ Ret r) as [(b & y & ->)|Hret]
      by (destruct p as [[b y]| | | | | | | |]; [left; by eexists _, _|by right..])).
  1, 3: pose proof (step_pop_mutex Capacity got items out c 0 Hok) as H; cbn [step] in H; rewrite E in H;
    destruct H as (got' & items' & r & Hok' & Hmove & _ & Hr);
    apply call_returned in Hmove as ->; destruct Hr as [-> ->];
    exists (b, y), got, items; eexists; (split; [apply rtc_once, (mutex_latest _ _ _ _ _ _ 0 Hok); cbn [step]; rewrite E; reflexivity|]);
    by split_and!.
  - inversion Hn; subst. by destruct (Hret a).
  - pose proof (step_pop_mutex Capacity got items out c 0 Hok) as H.
    destruct (mstep (Step Consumer 0) c) as [c1| |] eqn:Es; [|exfalso|done].
    + destruct (pop_advances c p c1 0 E Hret Es) as (p' & w & Ee & Epu & E1 & Eps & Epp).
      destruct H as (got1 & items1 & move & Hok1 & Hmove & _ & Hr). rewrite E, E1 in Hmove.
      cbn [fmap option_fmap option_map] in Hmove.
      destruct (IH got1 items1 c1 p') as (r & got' & items' & c' & Hruns & Hok' & H1 & H2 & H3 & H4 & H5 & H6);
        [by eapply exec_within|done|done|by eapply (exec_holder Consumer)|].
      exists r, got', items', c'. split; [by eapply rtc_l; [eapply mutex_latest|]|].
      split_and!; [done|done|congruence|congruence|done|by rewrite H5, Epp|].
      eapply pop_effect_step; [exact Hret|exact Hmove| |exact H6].
      destruct move as [[o r']|]; [|done]. by remember (Some (out, p)); remember (Some (out, p')); destruct Hmove; simplify_eq.
    + destruct Hok as (Hl & _ & _ & _ & Hpop). unfold pop_phase in Hpop. rewrite E in Hpop.
      cbn [fmap option_fmap option_map] in Hpop.
      eapply (phase_enabled Consumer _ (views c)) in Hpop; [|done|by intros ?? ->; apply pop_critical|done|done].
      cbn [step] in Es. rewrite E in Es. destruct p as [[b y]| | | | | | | |]; [by destruct (Hret (b, y))|..];
        (destruct (exec (T:=T) _ _ _ _ _); try done; by apply Hpop).
Qed.

End mutex.

(** ** All variants *)

Section variants.
Context {T : Type} `{!Inhabited T} (v : variant) (Capacity : Z) {HC : QueueCapacity Capacity}.
Implicit Types (c : config T).

(** The other thread does not hold the mutex. *)
Definition unhindered (t : thread) c : Prop := v = Mutex → holder (mem c) ≠ Some (other t).

(** How a call of either kind ends, alone. *)
Record push_completed (x : T) (b : bool) c c' : Prop := {
  pushc_alone : rtc (moves_alone v Capacity Producer) c c';
  pushc_idle : pushing c' = None;
  pushc_popping : popping c' = popping c;
  pushc_items : pushed c' = if b then pushed c ++ [x] else pushed c;
  pushc_popped : popped c' = popped c
}.

Record pop_completed (b : bool) (y : T) c c' : Prop := {
  popc_alone : rtc (moves_alone v Capacity Consumer) c c';
  popc_idle : popping c' = None;
  popc_pushing : pushing c' = pushing c;
  popc_items : popped c' = if b then popped c ++ [y] else popped c;
  popc_pushed : pushed c' = pushed c
}.

(** A thread without a call in flight hinders nobody. *)
Lemma idle_unhindered c : reachable v Capacity c →
  (pushing c = None → unhindered Consumer c) ∧ (popping c = None → unhindered Producer c).
Proof using HC.
  intros Hr. split; intros E Hv; unfold reachable in Hr; rewrite Hv in Hr;
    apply (reachable_mutex_ok Capacity) in Hr as (got & items & out & _ & _ & _ & Hpush & Hpop);
    [rewrite E in Hpush; by destruct Hpush|rewrite E in Hpop; by destruct Hpop].
Qed.

(** One of the threads is unhindered. *)
Lemma some_unhindered c : unhindered Producer c ∨ unhindered Consumer c.
Proof.
  unfold unhindered. destruct (holder (mem c)) as [[]|]; [left|right|left]; by intros _ [=].
Qed.

Lemma push_completes c x p :
  reachable v Capacity c → unhindered Producer c → pushing c = Some (x, p) →
  ∃ b c', push_completed x b c c'.
Proof using HC.
  intros Hr Hfree E. destruct (decide (v = Mutex)) as [Hv|Hv].
  - specialize (Hfree Hv). destruct (reachable_short v Capacity c Hr) as [Hn _]. specialize (Hn x p E).
    unfold reachable in Hr. rewrite Hv in Hr. apply (reachable_mutex_ok Capacity) in Hr as (got & items & out & Hok).
    destruct (push_runs Capacity 12 got items out c x p Hn Hok E Hfree)
      as (b & items' & c' & H1 & _ & H2 & H3 & H4 & _ & H5 & _).
    exists b, c'. split; [rewrite Hv; by apply latest_alone|done..].
  - destruct (push_finishes v Capacity Hv c x p Hr E) as (b & c' & []). exists b, c'. by split.
Qed.

Lemma pop_completes c p :
  reachable v Capacity c → unhindered Consumer c → popping c = Some p →
  ∃ b y c', pop_completed b y c c'.
Proof using HC.
  intros Hr Hfree E. destruct (decide (v = Mutex)) as [Hv|Hv].
  - specialize (Hfree Hv). destruct (reachable_short v Capacity c Hr) as [_ Hn]. specialize (Hn p E).
    unfold reachable in Hr. rewrite Hv in Hr. apply (reachable_mutex_ok Capacity) in Hr as (got & items & out & Hok).
    destruct (pop_runs Capacity 12 got items out c p Hn Hok E Hfree)
      as ([b y] & got' & items' & c' & H1 & _ & H2 & H3 & H4 & _ & H5 & _).
    exists b, y, c'. split; [rewrite Hv; by apply latest_alone|done..].
  - destruct (pop_finishes v Capacity Hv c p Hr E) as (b & y & c' & []). exists b, y, c'. by split.
Qed.

(** New calls. *)
Lemma push_gets_in c x :
  reachable v Capacity c → unhindered Producer c → pushing c = None →
  Z.of_nat (length (pushed c)) < Z.of_nat (length (popped c)) + usable v Capacity →
  step (push v Capacity) (pop v Capacity) (CallPush x) c = Config (call_push v Capacity x c) ∧
  ∃ c', push_completed x true (call_push v Capacity x c) c' ∧
    rtc (moves_latest v Capacity Producer) (call_push v Capacity x c) c'.
Proof using HC.
  intros Hr Hfree E Hroom. destruct (decide (v = Mutex)) as [Hv|Hv].
  2: { destruct (push_succeeds v Capacity Hv c x Hr E Hroom) as (E1 & c' & [] & Hl).
       split; [done|]. exists c'. by repeat split. }
  split; [cbn [step]; by rewrite E|]. specialize (Hfree Hv). unfold reachable in Hr. rewrite Hv in Hr, Hroom.
  apply (reachable_mutex_ok Capacity) in Hr as (got & items & out & Hok).
  destruct (call_push_mutex Capacity got items out c (call_push Mutex Capacity x c) x Hok) as (Hok1 & _ & E1 & _);
    [cbn [step]; by rewrite E|].
  destruct (push_runs Capacity 12 got items out _ x _ (proj1 (calls_within Mutex Capacity x)) Hok1 E1 Hfree)
    as (b & items' & c' & H1 & _ & H2 & H3 & H4 & _ & H5 & H6).
  destruct (push_critical Capacity x) as (k & Ek & _). rewrite Ek in H6. cbn [push_effect] in H6.
  assert (b = true) as ->.
  { destruct Hok as (_ & _ & _ & Hpush & Hpop). rewrite E in Hpush. destruct Hpush as [_ Hps].
    assert (length got ≥ length (popped c))%nat as Hgot.
    { destruct (popping c) as [p|]; cbn in Hpop.
      - destruct Hpop as [(_ & _ & ->)|[(_ & _ & -> & _)|(r & _ & _ & ->)]]; rewrite ?length_app; lia.
      - destruct Hpop as [_ ->]. lia. }
    unfold spec_push in H6. rewrite decide_True in H6; [by injection H6|].
    rewrite Hps, length_app in Hroom. lia. }
  exists c'. split; [|by rewrite Hv]. split; try done. rewrite Hv. by apply latest_alone.
Qed.

Lemma pop_gets c out :
  reachable v Capacity c → unhindered Consumer c → popping c = None →
  (length (popped c) < length (pushed c))%nat →
  step (push v Capacity) (pop v Capacity) (CallPop out) c = Config (call_pop v Capacity out c) ∧
  ∃ y c', pop_completed true y (call_pop v Capacity out c) c' ∧
    rtc (moves_latest v Capacity Consumer) (call_pop v Capacity out c) c'.
Proof using HC.
  intros Hr Hfree E Hlt. destruct (decide (v = Mutex)) as [Hv|Hv].
  2: { destruct (pop_succeeds v Capacity Hv c out Hr E Hlt) as (E1 & y & c' & [] & Hl).
       split; [done|]. exists y, c'. by repeat split. }
  split; [cbn [step]; by rewrite E|]. specialize (Hfree Hv). unfold reachable in Hr. rewrite Hv in Hr.
  apply (reachable_mutex_ok Capacity) in Hr as (got & items & out0 & Hok).
  destruct (call_pop_mutex Capacity got items out0 c (call_pop Mutex Capacity out c) out Hok) as (Hok1 & _ & E1 & _);
    [cbn [step]; by rewrite E|].
  destruct (pop_runs Capacity 12 got items out _ _ (proj2 (calls_within Mutex Capacity out)) Hok1 E1 Hfree)
    as ([b y] & got' & items' & c' & H1 & _ & H2 & H3 & H4 & _ & H5 & H6).
  destruct (pop_critical Capacity out) as (k & Ek & _). rewrite Ek in H6. cbn [pop_effect fst snd] in H6.
  assert (b = true) as ->.
  { destruct Hok as (_ & _ & _ & Hpush & Hpop). rewrite E in Hpop. destruct Hpop as [_ Hpp].
    assert (length (pushed c) ≤ length (got ++ items))%nat as Hitems.
    { destruct (pushing c) as [[x p]|]; cbn in Hpush.
      - destruct Hpush as [(_ & _ & ->)|[(_ & _ & -> & _)|(r & _ & _ & Hps)]]; [done..|]. rewrite Hps, length_app. lia.
      - by destruct Hpush as [_ ->]. }
    rewrite length_app in Hitems. destruct items as [|z items]; [rewrite Hpp in Hlt; simpl in Hitems; lia|].
    destruct H6 as [_ H6]. by injection H6. }
  exists y, c'. split; [|by rewrite Hv]. split; try done. rewrite Hv. by apply latest_alone.
Qed.

(** ** Every run of a call alone *)

(** A thread alone stays out of the other one's way. *)
Lemma alone_unhindered t c c' : moves_alone v Capacity t c c' → unhindered t c → unhindered t c'.
Proof using Type.
  intros [choice Hs] Hfree Hm. specialize (Hfree Hm). cbn [step] in Hs.
  destruct t; [destruct (pushing c) as [[x p]|]|destruct (popping c) as [p|]]; try done; destruct p as [a| | | | | | | |];
    try destruct a; try (destruct (exec _ _ _ _ _) eqn:E; [|done..]); injection Hs as <-;
    first [done|by eapply exec_holder].
Qed.

Lemma alone_reachable t c c' : moves_alone v Capacity t c c' → reachable v Capacity c → reachable v Capacity c'.
Proof using Type. intros [choice Hs] Hr. eapply rtc_r; [exact Hr|]. by exists (Step t choice). Qed.

(** The accesses left bound the moves. *)
Lemma producer_bounded n c c' x p i :
  pushing c = Some (x, p) → within i p → nsteps (moves_alone v Capacity Producer) n c c' → (n ≤ S i)%nat.
Proof using Type.
  revert c p i. induction n as [|n IH]; intros c p i E Hn Hrun; [lia|].
  inversion Hrun as [|? ? c1 ? [choice Hs] Hrest]; subst. cbn [step] in Hs. rewrite E in Hs.
  destruct p as [a| | | | | | | |].
  { destruct n; [lia|]. injection Hs as <-. inversion Hrest as [|? ? c2 ? [ch Hs2] _]; subst. done. }
  all: destruct i as [|i]; [by inversion Hn|]; destruct (exec _ _ _ _ _) as [p' w m'| |] eqn:Ee; [|done..];
    eapply exec_within in Hn; [|exact Ee]; injection Hs as <-; eapply IH in Hrest; [|reflexivity|exact Hn]; lia.
Qed.

Lemma consumer_bounded n c c' p i :
  popping c = Some p → within i p → nsteps (moves_alone v Capacity Consumer) n c c' → (n ≤ S i)%nat.
Proof using Type.
  revert c p i. induction n as [|n IH]; intros c p i E Hn Hrun; [lia|].
  inversion Hrun as [|? ? c1 ? [choice Hs] Hrest]; subst. cbn [step] in Hs. rewrite E in Hs.
  destruct p as [[b y]| | | | | | | |].
  { destruct n; [lia|]. injection Hs as <-. inversion Hrest as [|? ? c2 ? [ch Hs2] _]; subst. done. }
  all: destruct i as [|i]; [by inversion Hn|]; destruct (exec _ _ _ _ _) as [p' w m'| |] eqn:Ee; [|done..];
    eapply exec_within in Hn; [|exact Ee]; injection Hs as <-; eapply IH in Hrest; [|reflexivity|exact Hn]; lia.
Qed.

(** Every run of the steps [R] is short and stops only when it is done. *)
Definition ends (R : config T → config T → Prop) (done_ : config T → Prop) c : Prop :=
  ∀ n c', nsteps R n c c' → (n ≤ 13)%nat ∧ (done_ c' ∨ ∃ c'', R c' c'').

(** A deterministic run is the one that is known. *)
Lemma deterministic_ends R (done_ : config T → Prop) c c' :
  (∀ c c1 c2, R c c1 → R c c2 → c1 = c2) → (∀ n c', nsteps R n c c' → (n ≤ 13)%nat) →
  rtc R c c' → done_ c' → (∀ c'', ¬ R c' c'') → ends R done_ c.
Proof using Type.
  intros Hdet Hshort Hrun Hdone Hstop n c1 Hn. split; [by eapply Hshort|]. clear Hshort.
  apply rtc_nsteps_2 in Hn. induction Hrun as [c|c c2 c3 Hstep Hrest IH].
  - left. inversion Hn as [|? c2 ? Hbad]; subst; [done|]. by destruct (Hstop c2).
  - inversion Hn as [|? c4 ? Hstep' Hrest']; subst; [right; by exists c2|].
    rewrite (Hdet _ _ _ Hstep' Hstep) in Hrest'. by apply IH.
Qed.

Lemma latest_nsteps t n c c' : nsteps (moves_latest v Capacity t) n c c' → nsteps (moves_alone v Capacity t) n c c'.
Proof using Type.
  induction 1 as [|n c1 c2 c3 (choice & _ & Hs) _ IH]; [constructor|]. econstructor; [by exists choice|exact IH].
Qed.

Lemma push_ends_alone c x p :
  reachable v Capacity c → unhindered Producer c → pushing c = Some (x, p) →
  ends (moves_alone v Capacity Producer) (λ c', pushing c' = None) c.
Proof using HC.
  intros Hr Hfree E n c' Hn. split.
  { eapply (producer_bounded n c c' x p 12); [done| |done]. by eapply (proj1 (reachable_short v Capacity c Hr)). }
  clear E x p. apply rtc_nsteps_2 in Hn. induction Hn as [c|c c1 c2 Hstep _ IH].
  - destruct (pushing c) as [[x p]|] eqn:E; [right|by left].
    destruct (push_completes c x p Hr Hfree E) as (b & c' & [Hrun Hidle _ _ _]).
    inversion Hrun as [|? c1 ? Hstep]; subst; [congruence|by exists c1].
  - apply IH; [by eapply alone_reachable|by eapply alone_unhindered].
Qed.

Lemma pop_ends_alone c p :
  reachable v Capacity c → unhindered Consumer c → popping c = Some p →
  ends (moves_alone v Capacity Consumer) (λ c', popping c' = None) c.
Proof using HC.
  intros Hr Hfree E n c' Hn. split.
  { eapply (consumer_bounded n c c' p 12); [done| |done]. by eapply (proj2 (reachable_short v Capacity c Hr)). }
  clear E p. apply rtc_nsteps_2 in Hn. induction Hn as [c|c c1 c2 Hstep _ IH].
  - destruct (popping c) as [p|] eqn:E; [right|by left].
    destruct (pop_completes c p Hr Hfree E) as (b & y & c' & [Hrun Hidle _ _ _]).
    inversion Hrun as [|? c1 ? Hstep]; subst; [congruence|by exists c1].
  - apply IH; [by eapply alone_reachable|by eapply alone_unhindered].
Qed.

Lemma push_latest_ends c x :
  reachable v Capacity c → unhindered Producer c → pushing c = None →
  Z.of_nat (length (pushed c)) < Z.of_nat (length (popped c)) + usable v Capacity →
  ends (moves_latest v Capacity Producer) (λ c', pushing c' = None ∧ pushed c' = pushed c ++ [x])
    (call_push v Capacity x c).
Proof using HC.
  intros Hr Hf E Hroom. destruct (push_gets_in c x Hr Hf E Hroom) as (_ & c' & [_ Hidle _ Hps _] & Hrun).
  apply (deterministic_ends _ _ _ c').
  - apply moves_latest_det.
  - intros n c1 Hn%latest_nsteps. eapply (producer_bounded n (call_push v Capacity x c) c1 x (push v Capacity x) 12); [reflexivity|apply (proj1 (calls_within v Capacity x))|exact Hn].
  - done.
  - done.
  - intros c1 (choice & _ & Hs). cbn [step] in Hs. by rewrite Hidle in Hs.
Qed.

Lemma pop_latest_ends c out :
  reachable v Capacity c → unhindered Consumer c → popping c = None →
  (length (popped c) < length (pushed c))%nat →
  ∃ y, pushed c !! length (popped c) = Some y ∧
    ends (moves_latest v Capacity Consumer) (λ c', popping c' = None ∧ popped c' = popped c ++ [y])
      (call_pop v Capacity out c).
Proof using HC.
  intros Hr Hf E Hlt. destruct (pop_gets c out Hr Hf E Hlt) as (_ & y & c' & [Halone Hidle _ Hpp Hps] & Hrun).
  exists y. split; [exact (pop_takes v Capacity c out y c' Hr E Halone Hpp Hps Hlt)|].
  apply (deterministic_ends _ _ _ c').
  - apply moves_latest_det.
  - intros n c1 Hn%latest_nsteps. eapply (consumer_bounded n (call_pop v Capacity out c) c1 (pop v Capacity out) 12); [reflexivity|apply (proj2 (calls_within v Capacity out))|exact Hn].
  - done.
  - done.
  - intros c1 (choice & _ & Hs). cbn [step] in Hs. by rewrite Hidle in Hs.
Qed.

End variants.

(** ** Property *)

(** C12: Progress of all variants.  In every reachable configuration every run
    of a call in flight whose thread moves alone, whatever its loads see, has
    at most thirteen moves, twelve accesses and the return, and stops only
    when the call has returned, unless the other thread is inside the critical
    section of the mutex variant; one of the two threads is never kept out,
    and a thread without a call keeps out none.  If the loads return the
    newest stores, every such run of a new [push] ends with its item in the
    queue when fewer items than the usable capacity were pushed and not
    popped, and every such run of a new [pop] with the next item when one was
    pushed and not popped.  A call of a lock-free variant whose loads are
    stale may refuse instead. *)
Theorem calls_alone_succeed {T} (HT : Inhabited T) v Capacity (HC : QueueCapacity Capacity) (c : config T) :
  reachable v Capacity c →
  ((unhindered v Producer c ∨ unhindered v Consumer c) ∧
   (pushing c = None → unhindered v Consumer c) ∧ (popping c = None → unhindered v Producer c)) ∧
  (pushing c ≠ None → unhindered v Producer c →
     ends (moves_alone v Capacity Producer) (λ c', pushing c' = None) c) ∧
  (popping c ≠ None → unhindered v Consumer c →
     ends (moves_alone v Capacity Consumer) (λ c', popping c' = None) c) ∧
  (∀ x, pushing c = None → unhindered v Producer c →
     Z.of_nat (length (pushed c)) < Z.of_nat (length (popped c)) + usable v Capacity →
     ∃ c1, step (push v Capacity) (pop v Capacity) (CallPush x) c = Config c1 ∧
       ends (moves_latest v Capacity Producer) (λ c', pushing c' = None ∧ pushed c' = pushed c ++ [x]) c1) ∧
  (∀ out, popping c = None → unhindered v Consumer c → (length (popped c) < length (pushed c))%nat →
     ∃ y c1, step (push v Capacity) (pop v Capacity) (CallPop out) c = Config c1 ∧
       pushed c !! length (popped c) = Some y ∧
       ends (moves_latest v Capacity Consumer) (λ c', popping c' = None ∧ popped c' = popped c ++ [y]) c1).
Proof.
  intros Hr. split_and!.
  - apply some_unhindered.
  - apply (idle_unhindered v Capacity c Hr).
  - apply (idle_unhindered v Capacity c Hr).
  - destruct (pushing c) as [[x p]|] eqn:E; [|done]. intros _ Hf. by eapply push_ends_alone.
  - destruct (popping c) as [p|] eqn:E; [|done]. intros _ Hf. by eapply pop_ends_alone.
  - intros x E Hf Hroom. exists (call_push v Capacity x c). split; [cbn [step]; by rewrite E|].
    by apply push_latest_ends.
  - intros out E Hf Hlt. destruct (pop_latest_ends v Capacity c out Hr Hf E Hlt) as (y & Hy & Hends).
    exists y, (call_pop v Capacity out c). split; [cbn [step]; by rewrite E|done].
Qed.

(** A push has locked the mutex when a pop is called. *)
Definition locked_config : config Z :=
  default (initial 4) (run_schedule (push Mutex 4) (pop Mutex 4) [CallPush 7; Step Producer 0; CallPop 0] (initial 4)).

Lemma calls_alone_succeed_witness :
  step (push Mutex 4) (pop Mutex 4) (Step Consumer 0) locked_config = NotEnabled ∧
  ends (moves_alone Mutex 4 Producer) (λ c', pushing c' = None) locked_config.
Proof.
  assert (reachable Mutex 4 locked_config) as Hr.
  { apply (run_schedule_reaches _ _ [CallPush 7; Step Producer 0; CallPop 0]).
    apply some_default. vm_compute. reflexivity. }
  split; [vm_compute; reflexivity|].
  destruct (calls_alone_succeed (T:=Z) _ Mutex 4 queue_capacity_4 locked_config Hr) as (_ & Hpush & _).
  assert (bool_decide (is_Some (pushing locked_config)) = true) as Hcall by (vm_compute; reflexivity).
  apply Hpush.
  - intros E. rewrite E in Hcall. discriminate Hcall.
  - intros _. vm_compute. discriminate.
Defined.
