(* ===== verification/SpscQueue.v ===== *)
(** * The ring buffers as queues between two threads

    The interface of [Queue] discharged by the lock-free variants under the
    memory model of [SpscMachine]: an operation is the run of its program by
    one thread while the other is between operations, and its loads may
    return old stores.  [SpscLinear] shows that operations which overlap look
    the same to their callers. *)

From S2P Require Import Prelude Queue Ring Spsc SpscMachine SpscLogic SpscVariants SpscSequential.
From S2P Require Import SpscConcurrent SpscMutex SpscProperties SpscProgress.

(** The memory, how recent the next loads are, and the stores to [head_] at
    the last signal of the producer and at the last one the consumer took. *)
Record weak_ring (v : variant) (Capacity : Z) (T : Type) : Type := mkring {
  machine : config T;
  looks : list nat;
  signal_at : nat;
  sync_at : nat
}.

Arguments mkring {v Capacity T} _ _ _ _.
Arguments machine {v Capacity T} _.
Arguments looks {v Capacity T} _.
Arguments signal_at {v Capacity T} _.
Arguments sync_at {v Capacity T} _.

Section weak_ring.
Context (v : variant) (Capacity : Z) {T : Type} `{!Inhabited T}.
Implicit Types (q : weak_ring v Capacity T).

Definition set_machine (c : config T) q : weak_ring v Capacity T :=
  mkring c (looks q) (signal_at q) (sync_at q).

Definition ring_push (x : T) q : option (bool * weak_ring v Capacity T) :=
  '(b, c) ← finish_push 0 (looks q) (call_push v Capacity x (machine q));
  Some (b, set_machine c q).

Definition ring_pop (out : T) q : option (bool * T * weak_ring v Capacity T) :=
  '(b, y, c) ← finish_pop (sync_at q) (looks q) (call_pop v Capacity out (machine q));
  Some (b, y, set_machine c q).

Record ring_ok q : Prop := {
  ring_reachable : reachable v Capacity (machine q);
  ring_not_pushing : pushing (machine q) = None;
  ring_not_popping : popping (machine q) = None;
  ring_signal : (signal_at q ≤ length (pushed (machine q)))%nat;
  ring_sync : (sync_at q ≤ length (pushed (machine q)))%nat
}.

#[export] Instance weak_queue : BoundedQueue (weak_ring v Capacity T) T := {|
  q_empty := mkring (initial Capacity) [] 0 0;
  q_push := ring_push;
  q_pop := ring_pop;
  q_look ns q := mkring (machine q) ns (signal_at q) (sync_at q);
  q_signal q := mkring (machine q) (looks q) (length (pushed (machine q))) (sync_at q);
  q_sync q := mkring (machine q) (looks q) (signal_at q) (sync_at q `max` signal_at q)%nat;
  q_items q := drop (length (popped (machine q))) (pushed (machine q));
  q_synced q := (sync_at q - length (popped (machine q)))%nat;
  q_signalled q := (signal_at q - length (popped (machine q)))%nat;
  q_lag q := (length (popped (machine q)) - seen (views (machine q) Producer) Tail)%nat;
  q_ok := ring_ok;
  q_limit := usable v Capacity
|}.

Context {HC : QueueCapacity Capacity} (Hv : v ≠ Mutex).

(** What was pushed is what was popped and what is left. *)
Lemma ring_split q :
  ring_ok q → pushed (machine q) = popped (machine q) ++ q_items q ∧
    Z.of_nat (length (q_items q)) ≤ usable v Capacity.
Proof using HC.
  intros [Hr Hpu Hpo _ _]. destruct (ring_prefix v Capacity _ Hr) as [[l E] Hl].
  unfold in_flight, taking in *. rewrite Hpu, Hpo in *. rewrite app_nil_r in E. simpl.
  rewrite E, length_app in Hl. rewrite E, drop_app_length. split; [done|lia].
Qed.

Lemma ring_seen q :
  ring_ok q → (seen (views (machine q) Producer) Tail ≤ length (popped (machine q)))%nat.
Proof using HC Hv.
  intros [Hr _ Hpo _ _]. destruct (reachable_ok v Capacity _ Hv Hr) as (L & Hi & _ & Hc).
  rewrite Hpo in Hc. destruct Hc as [((_ & _ & Hlen) & _) Hd].
  rewrite <- Hd, Hlen. change Tail with (own (other Producer)).
  rewrite (inv_seen _ _ _ _ _ Hi Producer). apply (known_le _ _ _ _ _ Producer Hi).
Qed.

Lemma ring_push_spec q x n :
  ring_ok q → (n ≤ 0 ∨ n ≤ length (popped (machine q)) ∧ looks q = [])%nat →
  ∃ b q', ring_push x q = Some (b, q') ∧ push_result x b q q' ∧
    (b = false → Z.of_nat n + usable v Capacity ≤ Z.of_nat (length (pushed (machine q)))).
Proof using HC Hv.
  intros Hq Hn. destruct (ring_split q Hq) as [Hsplit _]. pose proof (ring_seen q Hq) as Hseen0.
  pose proof Hq as [Hr Hpu Hpo Hsi Hsy].
  destruct (push_call v Capacity Hv (machine q) x n 0 (looks q) Hr Hpu) as (E1 & b & c & E & [H1 H2 H3 H4 H5 H6 H7 H8] & Hb);
    [lia|done|].
  assert (ring_ok (set_machine c q)) as Hq'.
  { split; simpl; [|done|by rewrite H3| |].
    - unfold reachable in *. etrans; [exact Hr|]. eapply rtc_l; [by exists (CallPush x)|]. by eapply moves_alone_reaches.
    - rewrite H4. destruct b; simpl; rewrite ?length_app; lia.
    - rewrite H4. destruct b; simpl; rewrite ?length_app; lia. }
  exists b, (set_machine c q). split; [unfold ring_push; by rewrite E|].
  cbn [pushed popped views call_push] in *.
  split; [split; simpl; rewrite ?H5; try done; try lia|].
  - rewrite H4. destruct b; [|by rewrite app_nil_r]. rewrite drop_app_le; [done|].
    rewrite Hsplit, length_app. lia.
  - intros ->. specialize (H8 eq_refl). rewrite Hsplit, length_app in H8. simpl in *. lia.
  - intros ->. specialize (H8 eq_refl). specialize (Hb eq_refl). lia.
Qed.

Lemma ring_pop_spec q out n :
  ring_ok q → (n ≤ sync_at q ∨ n ≤ length (pushed (machine q)) ∧ looks q = [])%nat →
  ∃ b y q', ring_pop out q = Some (b, y, q') ∧ pop_result out b y q q' ∧
    (b = false → (n ≤ length (popped (machine q)))%nat).
Proof using HC Hv.
  intros Hq Hn. destruct (ring_split q Hq) as [Hsplit _].
  pose proof Hq as [Hr Hpu Hpo Hsi Hsy].
  assert ((n `max` sync_at q) ≤ sync_at q ∨ (n `max` sync_at q) ≤ length (pushed (machine q)) ∧ looks q = [])%nat as Hn'
    by (destruct Hn as [?|[? ?]]; [left; lia|right; split; [lia|done]]).
  destruct (pop_call v Capacity Hv (machine q) out (n `max` sync_at q) (sync_at q) (looks q) Hr Hpo)
    as (E1 & b & y & c & E & Hend & Hb); [lia|done|].
  destruct Hend as [H1 H2 H3 H4 H5 H6 H7].
  assert (reachable v Capacity c) as Hrc.
  { unfold reachable in *. etrans; [exact Hr|]. eapply rtc_l; [by exists (CallPop out)|]. by eapply moves_alone_reaches. }
  assert (ring_ok (set_machine c q)) as Hq'.
  { split; simpl; rewrite ?H5; try done. by rewrite H3. }
  destruct (ring_split _ Hq') as [Hsplit' _].
  exists b, y, (set_machine c q). split; [unfold ring_pop; by rewrite E|].
  cbn [pushed popped views call_pop machine set_machine] in *.
  assert (q_items q = (if b then [y] else []) ++ q_items (set_machine c q)) as Hitems.
  { rewrite H5, H4, Hsplit in Hsplit'. destruct b; rewrite <- ?(assoc_L (++)) in Hsplit'; by simplify_list_eq. }
  split; [split|].
  - done.
  - done.
  - simpl. rewrite H4. destruct b; rewrite ?length_app; simpl; lia.
  - simpl. rewrite H4. destruct b; rewrite ?length_app; simpl; lia.
  - simpl. rewrite H4, H6. destruct b; rewrite ?length_app; simpl; lia.
  - intros ->. destruct (Hb eq_refl) as [Hb' ->]. specialize (H7 eq_refl). split; [done|]. simpl. lia.
  - intros ->. destruct (Hb eq_refl) as [Hb' _]. specialize (H7 eq_refl). lia.
Qed.

Lemma weak_queue_laws : BoundedQueueLaws (weak_ring v Capacity T) T.
Proof using HC Hv.
  split.
  - split; simpl; try done. apply rtc_refl.
  - done.
  - done.
  - apply (usable_bounds v Capacity).
  - intros q Hq. by apply ring_split.
  - intros q x Hq. destruct (ring_push_spec q x 0 Hq) as (b & q' & ? & ? & _); [by left|by exists b, q'].
  - intros q out Hq. destruct (ring_pop_spec q out 0 Hq) as (b & y & q' & ? & ? & _); [left; lia|by exists b, y, q'].
  - intros q x Hq Hroom. destruct (ring_split q Hq) as [Hsplit _].
    assert (ring_ok (q_look [] q)) as Hq' by (destruct Hq; by split).
    destruct (ring_push_spec _ x (length (popped (machine q))) Hq') as (b & q' & E & _ & Hb); [by right|].
    exists q'. destruct b; [done|]. specialize (Hb eq_refl). simpl in Hb, Hroom.
    rewrite Hsplit, length_app in Hb. simpl in Hb. lia.
  - intros q out Hq Hne. destruct (ring_split q Hq) as [Hsplit _].
    assert (ring_ok (q_look [] q)) as Hq' by (destruct Hq; by split).
    destruct (ring_pop_spec _ out (length (pushed (machine q))) Hq') as (b & y & q' & E & _ & Hb); [by right|].
    exists y, q'. destruct b; [done|]. specialize (Hb eq_refl). simpl in Hb.
    rewrite Hsplit, length_app in Hb. destruct (q_items q); [done|]. simpl in Hb. lia.
  - intros ns q [H1 H2 H3 H4 H5]. split; done.
  - intros q [H1 H2 H3 H4 H5]. split; [split; simpl; try done; lia|]. simpl. rewrite length_drop. lia.
  - intros q [H1 H2 H3 H4 H5]. split; [|simpl; lia]. split; simpl; try done; [|lia]. split; simpl; try done. lia.
Qed.

End weak_ring.
