(* ===== verification/SpscLinear.v ===== *)
(** * Calls that overlap

    Every history of calls and returns that two threads can produce with a
    ring buffer is one of a bounded FIFO whose operations take effect at once,
    between their call and their return.  With the mutex variant that FIFO is
    exact; with the lock-free variants an operation goes by what its thread
    has seen of the other one, which may lag behind. *)

From S2P Require Import Prelude Ring Spsc SpscMachine SpscLogic SpscVariants SpscSequential.
From S2P Require Import SpscConcurrent SpscMutex SpscProperties SpscProgress.

(** ** Specification *)

(** What the callers of a queue observe. *)
Inductive event (T : Type) : Type :=
| PushCalled (x : T)
| PushReturned (b : bool)
| PopCalled (out : T)
| PopReturned (b : bool) (y : T).

Arguments PushCalled {T} _.
Arguments PushReturned {T} _.
Arguments PopCalled {T} _.
Arguments PopReturned {T} _ _.

(** A thread between calls, in a call that has not taken effect, or in one
    that has, with its result. *)
Inductive status (X A : Type) : Type := Idle | Invoked (x : X) | Responded (a : A).

Arguments Idle {X A}.
Arguments Invoked {X A} _.
Arguments Responded {X A} _.

Record fifo (T : Type) : Type := mkfifo {
  enqueued : list T;
  dequeued : list T;
  pops_seen : nat;       (** by the producer *)
  pushes_seen : nat;     (** by the consumer *)
  push_status : status T bool;
  pop_status : status T (bool * T)
}.

Arguments mkfifo {T} _ _ _ _ _ _.
Arguments enqueued {T} _.
Arguments dequeued {T} _.
Arguments pops_seen {T} _.
Arguments pushes_seen {T} _.
Arguments push_status {T} _.
Arguments pop_status {T} _.

Definition empty_fifo {T} : fifo T := mkfifo [] [] 0 0 Idle Idle.

(** A look at a count that is [actual], after one that was [old]. *)
Definition looks_at (exact : bool) (old new actual : nat) : Prop :=
  (old ≤ new ≤ actual)%nat ∧ (exact = true → new = actual).

Inductive fifo_step {T} (exact : bool) (limit : Z) : fifo T → option (event T) → fifo T → Prop :=
| push_call en de ps cs c x :
    fifo_step exact limit (mkfifo en de ps cs Idle c) (Some (PushCalled x))
      (mkfifo en de ps cs (Invoked x) c)
| push_done en de ps cs c x n :
    looks_at exact ps n (length de) → Z.of_nat (length en) < Z.of_nat n + limit →
    fifo_step exact limit (mkfifo en de ps cs (Invoked x) c) None
      (mkfifo (en ++ [x]) de n cs (Responded true) c)
| push_full en de ps cs c x n :
    looks_at exact ps n (length de) → Z.of_nat (length en) = Z.of_nat n + limit →
    fifo_step exact limit (mkfifo en de ps cs (Invoked x) c) None
      (mkfifo en de n cs (Responded false) c)
| push_return en de ps cs c b :
    fifo_step exact limit (mkfifo en de ps cs (Responded b) c) (Some (PushReturned b))
      (mkfifo en de ps cs Idle c)
| pop_call en de ps cs p out :
    fifo_step exact limit (mkfifo en de ps cs p Idle) (Some (PopCalled out))
      (mkfifo en de ps cs p (Invoked out))
| pop_done en de ps cs p out n y :
    looks_at exact cs n (length en) → (length de < n)%nat → en !! length de = Some y →
    fifo_step exact limit (mkfifo en de ps cs p (Invoked out)) None
      (mkfifo en (de ++ [y]) ps n p (Responded (true, y)))
| pop_none en de ps cs p out n :
    looks_at exact cs n (length en) → length de = n →
    fifo_step exact limit (mkfifo en de ps cs p (Invoked out)) None
      (mkfifo en de ps n p (Responded (false, out)))
| pop_return en de ps cs p b y :
    fifo_step exact limit (mkfifo en de ps cs p (Responded (b, y))) (Some (PopReturned b y))
      (mkfifo en de ps cs p Idle).

(** Runs with their observations. *)
Inductive fifo_run {T} (exact : bool) (limit : Z) : fifo T → list (event T) → fifo T → Prop :=
| run_nil a : fifo_run exact limit a [] a
| run_step a e a1 h a2 :
    fifo_step exact limit a e a1 → fifo_run exact limit a1 h a2 →
    fifo_run exact limit a (option_list e ++ h) a2.

Lemma fifo_run_app {T} exact limit (a a1 a2 : fifo T) h h' :
  fifo_run exact limit a h a1 → fifo_run exact limit a1 h' a2 → fifo_run exact limit a (h ++ h') a2.
Proof. induction 1 as [|a e a3 h a4 Hs _ IH]; [done|]. intros H. rewrite <- (assoc_L (++)). econstructor; eauto. Qed.

Lemma fifo_run_one {T} exact limit (a a1 : fifo T) e :
  fifo_step exact limit a e a1 → fifo_run exact limit a (option_list e) a1.
Proof. intros H. rewrite <- (app_nil_r (option_list e)). econstructor; [exact H|constructor]. Qed.

(** ** Histories of the machine *)

(** What a step of the machine lets the callers observe. *)
Definition observed {T} (s : schedule T) (c : config T) : option (event T) :=
  match s with
  | CallPush x => Some (PushCalled x)
  | CallPop out => Some (PopCalled out)
  | Step Producer _ =>
      match pushing c with Some (_, Ret b) => Some (PushReturned b) | _ => None end
  | Step Consumer _ =>
      match popping c with Some (Ret (b, y)) => Some (PopReturned b y) | _ => None end
  end.

Fixpoint run_history {T} (push : T → prog T bool) (pop : T → prog T (bool * T)) (ss : list (schedule T))
    (c : config T) : option (list (event T) * config T) :=
  match ss with
  | [] => Some ([], c)
  | s :: ss =>
      match step push pop s c with
      | Config c' => '(h, c'') ← run_history push pop ss c'; Some (option_list (observed s c) ++ h, c'')
      | _ => None
      end
  end.

(** A relation kept by every step, with the same observations, carries over
    to runs. *)
Lemma simulation {T} exact limit (push : T → prog T bool) (pop : T → prog T (bool * T))
    (R : config T → fifo T → Prop) :
  (∀ s c a c', R c a → step push pop s c = Config c' →
     ∃ a', fifo_run exact limit a (option_list (observed s c)) a' ∧ R c' a') →
  ∀ ss c a h c', R c a → run_history push pop ss c = Some (h, c') →
    ∃ a', fifo_run exact limit a h a' ∧ R c' a'.
Proof.
  intros Hsim ss. induction ss as [|s ss IH]; intros c a h c' HR; cbn [run_history].
  { intros [= <- <-]. exists a. split; [constructor|done]. }
  destruct (step push pop s c) as [c1| |] eqn:Es; [|done..].
  destruct (run_history push pop ss c1) as [[h1 c2]|] eqn:Er; [|done]. intros [= <- <-].
  destruct (Hsim s c a c1 HR Es) as (a1 & Hr1 & HR1).
  destruct (IH c1 a1 h1 c2 HR1 Er) as (a2 & Hr2 & HR2). exists a2. split; [|done].
  by eapply fifo_run_app.
Qed.

(** ** The lock-free variants *)

Section lock_free.
Context {T : Type} `{!Inhabited T} (v : variant) (Capacity : Z) {HC : QueueCapacity Capacity}.
Context (Hv : v ≠ Mutex).
Implicit Types (m : memory T) (vs : thread → view) (L : thread → local (T:=T)).
Implicit Types (c : config T) (a : fifo T).

(** A call has taken effect when its item is passed on; a refusal takes effect
    on return. *)
Definition status_of {X A} (success : T → A) (done_ : list T) (s : local (T:=T))
    (call : option (X * prog T A)) (st : status X A) : Prop :=
  match call with
  | None => st = Idle ∧ passed s = done_
  | Some (x, _) =>
      (st = Invoked x ∧ passed s = done_) ∨ ∃ y, st = Responded (success y) ∧ passed s = done_ ++ [y]
  end.

(** A call makes a step: it passes on at most one item, a possible result. *)
Lemma call_effect {X A} t done_ m vs L (post : X → local → local → A → Prop) (ok : X → T → Prop)
    x p choice p' w m' :
  (∀ x s0 s r, post x s0 s r → ∃ o, op_done v Capacity t s0 o s ∧ ∀ y, o = Some y → ok x y) →
  inv v Capacity m vs L → calling v Capacity t done_ L post (Some (x, p)) →
  exec t choice p (vs t) m = Next p' w m' →
  ∃ s, inv v Capacity m' (set_view t w vs) (set_local t s L) ∧
    calling v Capacity t done_ (set_local t s L) post (Some (x, p')) ∧
    (theirs (L t) ≤ theirs s)%nat ∧
    (passed s = passed (L t) ∨ ∃ y, passed (L t) = done_ ∧ passed s = done_ ++ [y] ∧ ok x y).
Proof using HC Hv Inhabited0.
  intros Hpost Hi Hc E. pose proof Hc as (s0 & Hidle & Hd & Hpre & Hs).
  pose proof (exec_safe v Capacity m vs L t (post x s0) choice p Hv Hi Hs) as Hstep.
  unfold step_ok in Hstep. rewrite E in Hstep. destruct Hstep as (s & Hs' & Hi' & Hpre' & _).
  assert (calling v Capacity t done_ (set_local t s L) post (Some (x, p'))) as Hc'.
  { exists s0. rewrite set_local_same. split_and!; try done. by etrans. }
  exists s. split; [done|]. split; [done|]. split.
  - pose proof (inv_seen _ _ _ _ _ Hi t) as H1. pose proof (inv_seen _ _ _ _ _ Hi' t) as H2.
    rewrite set_local_same, set_view_same in H2. rewrite <- H1, <- H2. by eapply exec_seen.
  - destruct (calling_passed v Capacity t _ _ _ _ post (λ x o, ∀ y, o = Some y → ok x y) _ Hi' Hc' Hpost)
      as (o & Ho & _ & Hend). rewrite set_local_same in Hend. rewrite <- Hd in *.
    destruct Hpre as [l1 E1]. destruct Hpre' as [l2 E2]. rewrite E2, E1, <- (assoc_L (++)) in Hend.
    apply prefix_app_inv in Hend. destruct o as [y|]; simpl in Hend.
    + destruct l1 as [|z l1].
      * rewrite app_nil_r in E1. rewrite E1 in E2. destruct l2 as [|z l2]; [left; by rewrite E2, E1, app_nil_r|right].
        simpl in Hend. apply prefix_cons_inv_1 in Hend as Hz. apply prefix_cons_inv_2 in Hend.
        apply prefix_nil_inv in Hend as ->. exists y. subst. split_and!; auto.
      * simpl in Hend. apply prefix_cons_inv_2 in Hend. apply prefix_nil_inv, app_eq_nil in Hend as [-> ->].
        left. by rewrite E2, app_nil_r.
    + apply prefix_nil_inv, app_eq_nil in Hend as [-> ->]. left. by rewrite E2, app_nil_r.
Qed.

Lemma push_post_done (x : T) s0 s b :
  push_post Capacity v s0 x s b → ∃ o, op_done v Capacity Producer s0 o s ∧ ∀ y, o = Some y → y = x.
Proof. intros H. eexists. split; [exact H|]. destruct b; [by intros ? [= ->]|done]. Qed.

Lemma pop_post_done (out : T) s0 s r :
  pop_post Capacity v s0 out s r → ∃ o, op_done v Capacity Consumer s0 o s ∧ ∀ y : T, o = Some y → True.
Proof. intros [H _]. by eexists. Qed.

Definition weak_sim c a : Prop :=
  ∃ L out, inv v Capacity (mem c) (views c) L ∧
    calling v Capacity Producer (pushed c) L (λ x s0, push_post Capacity v s0 x) (pushing c) ∧
    calling v Capacity Consumer (popped c) L (λ out s0, pop_post Capacity v s0 out) (pair out <$> popping c) ∧
    status_of (λ _, true) (pushed c) (L Producer) (pushing c) (push_status a) ∧
    status_of (pair true) (popped c) (L Consumer) (pair out <$> popping c) (pop_status a) ∧
    enqueued a = passed (L Producer) ∧ dequeued a = passed (L Consumer) ∧
    (pops_seen a ≤ theirs (L Producer))%nat ∧ (pushes_seen a ≤ theirs (L Consumer))%nat.

Abbreviation steps a e a' := (fifo_run false (usable v Capacity) a (option_list e) a').

Local Ltac sim_fields :=
  cbn [mem views pushing popping pushed popped enqueued dequeued pops_seen pushes_seen push_status
    pop_status fmap option_fmap option_map];
  repeat match goal with
  | |- context [set_local Producer ?s ?L Consumer] => change (set_local Producer s L Consumer) with (L Consumer)
  | |- context [set_local Consumer ?s ?L Producer] => change (set_local Consumer s L Producer) with (L Producer)
  end;
  rewrite ?set_local_same.

Lemma push_access_sim c a x p choice p' w m' :
  weak_sim c a → pushing c = Some (x, p) → exec Producer choice p (views c Producer) (mem c) = Next p' w m' →
  ∃ a', steps a None a' ∧ weak_sim (mkconfig m' (set_view Producer w (views c)) (Some (x, p')) (popping c) (pushed c) (popped c)) a'.
Proof using HC Hv Inhabited0.
  intros (L & out & Hi & Hp & Hc & Sp & Sc & En & De & Ks & Kc) Ep E. destruct a as [en de ps cs pst cst].
  cbn [enqueued dequeued pops_seen pushes_seen push_status pop_status] in *.
  rewrite Ep in Hp, Sp.
  pose proof (known_le _ _ _ _ _ Producer Hi) as Hknown.
  pose proof (proj2 (proj2 (inv_local _ _ _ _ _ Hi Consumer))) as HlenC.
  destruct (call_effect Producer _ _ _ _ _ (λ x y, y = x) x p choice p' w m'
    push_post_done Hi Hp E)
    as (s & Hi' & Hp' & Hth & Hcase).
  assert (calling v Capacity Consumer (popped c) (set_local Producer s L) (λ out s0, pop_post Capacity v s0 out)
    (pair out <$> popping c)) as Hc' by by apply (calling_other v Capacity Producer).
  destruct Hcase as [Hsame|(y & Hold & Hnew & ->)].
  - exists (mkfifo en de ps cs pst cst). split; [constructor|].
    exists (set_local Producer s L), out. sim_fields. rewrite Hsame. split_and!; try done; [|lia].
    unfold status_of in *. by rewrite Hsame.
  - destruct Sp as [[-> _]|(y & _ & E')];
      [|rewrite Hold in E'; apply (f_equal length) in E'; rewrite length_app in E'; simpl in E'; lia].
    destruct (inv_local _ _ _ _ _ Hi' Producer) as (Hroom & _ & Hlen).
    rewrite set_local_same in Hroom, Hlen. rewrite Hnew, length_app in Hlen. simpl in Hroom, Hlen.
    pose proof (known_le _ _ _ _ _ Producer Hi') as Hknown'. rewrite set_local_same in Hknown'.
    change (set_local Producer s L (other Producer)) with (L Consumer) in Hknown'.
    exists (mkfifo (en ++ [x]) de (theirs s) cs (Responded true) cst). split.
    + apply (fifo_run_one _ _ _ _ None), push_done.
      * split; [|done]. rewrite De, HlenC. simpl in *. lia.
      * rewrite En, Hold. lia.
    + exists (set_local Producer s L), out. sim_fields. rewrite Hnew. split_and!; try done.
      * right. by exists x.
      * by rewrite En, Hold.
Qed.

Lemma push_step_sim c a choice c' :
  weak_sim c a → step (push v Capacity) (pop v Capacity) (Step Producer choice) c = Config c' →
  ∃ a', steps a (observed (Step Producer choice) c) a' ∧ weak_sim c' a'.
Proof using HC Hv Inhabited0.
  intros Hsim Hstep. pose proof Hsim as (L & out & Hi & Hp & Hc & Sp & Sc & En & De & Ks & Kc). destruct a as [en de ps cs pst cst].
  cbn [step observed enqueued dequeued pops_seen pushes_seen push_status pop_status] in *.
  destruct (pushing c) as [[x p]|] eqn:Ep; [|done].
  pose proof (known_le _ _ _ _ _ Producer Hi) as Hknown.
  pose proof (proj2 (proj2 (inv_local _ _ _ _ _ Hi Consumer))) as HlenC.
  destruct p as [b|? ? ?|? ? ? ?|? ?|? ? ?|? ?|? ? ?|?|?].
  2-9: match type of Hstep with context [exec ?t ?ch ?p ?w ?m] =>
    destruct (exec t ch p w m) as [p' w' m'| |] eqn:E; [|done..] end;
    injection Hstep as <-; by eapply (push_access_sim c).
  injection Hstep as <-. destruct Hp as (s0 & Hidle & Hd & Hpre & (Hidle' & _ & Hb)).
  destruct b.
  - destruct Hb as [Hm Hb]. destruct Sp as [[_ E]|(y & -> & E)]; rewrite Hb, Hd in E.
    { apply (f_equal length) in E. rewrite length_app in E. simpl in E. lia. }
    exists (mkfifo en de ps cs Idle cst). split; [apply (fifo_run_one _ _ _ _ (Some _)), push_return|].
    exists L, out. sim_fields. rewrite <- Hd, <- Hb. split_and!; try done; by split.
  - destruct Hb as (Hm & Hb & Hf & Hroom). destruct Sp as [[-> E]|(y & _ & E)].
    2: { rewrite Hb, Hd in E. apply (f_equal length) in E. rewrite length_app in E. simpl in E. lia. }
    pose proof Hidle' as ((_ & _ & Hlen) & _). simpl in Hroom.
    exists (mkfifo en de (theirs (L Producer)) cs Idle cst). split.
    + eapply (fifo_run_app _ _ _ _ _ [] [_]);
        [apply (fifo_run_one _ _ _ _ None), push_full|apply (fifo_run_one _ _ _ _ (Some _)), push_return].
      * split; [|done]. rewrite De, HlenC. simpl in *. lia.
      * rewrite En. lia.
    + exists L, out. sim_fields. rewrite <- Hd, <- Hb. split_and!; try done; by split.
Qed.

Lemma pop_access_sim c a p choice p' w m' :
  weak_sim c a → popping c = Some p → exec Consumer choice p (views c Consumer) (mem c) = Next p' w m' →
  ∃ a', steps a None a' ∧ weak_sim (mkconfig m' (set_view Consumer w (views c)) (pushing c) (Some p') (pushed c) (popped c)) a'.
Proof using HC Hv Inhabited0.
  intros (L & out & Hi & Hp & Hc & Sp & Sc & En & De & Ks & Kc) Ep E. destruct a as [en de ps cs pst cst].
  cbn [enqueued dequeued pops_seen pushes_seen push_status pop_status] in *.
  rewrite Ep in Hc, Sc. cbn [fmap option_fmap option_map] in Hc, Sc.
  pose proof (proj2 (proj2 (inv_local _ _ _ _ _ Hi Producer))) as HlenP.
  pose proof (proj2 (proj2 (inv_local _ _ _ _ _ Hi Consumer))) as HlenC.
  destruct (call_effect Consumer _ _ _ _ _ (λ _ _, True) out p choice p' w m' pop_post_done Hi Hc E)
    as (s & Hi' & Hc' & Hth & Hcase).
  assert (calling v Capacity Producer (pushed c) (set_local Consumer s L) (λ x s0, push_post Capacity v s0 x)
    (pushing c)) as Hp' by by apply (calling_other v Capacity Consumer).
  destruct Hcase as [Hsame|(y & Hold & Hnew & _)].
  - exists (mkfifo en de ps cs pst cst). split; [constructor|].
    exists (set_local Consumer s L), out. sim_fields. rewrite Hsame. split_and!; try done; [|lia].
    unfold status_of in *. by rewrite Hsame.
  - destruct Sc as [[-> _]|(y' & _ & E')];
      [|rewrite Hold in E'; apply (f_equal length) in E'; rewrite length_app in E'; simpl in E'; lia].
    destruct (inv_local _ _ _ _ _ Hi' Consumer) as (Hroom & _ & Hlen).
    rewrite set_local_same in Hroom, Hlen. rewrite Hnew, length_app in Hlen. simpl in Hroom, Hlen.
    pose proof (known_le _ _ _ _ _ Consumer Hi') as Hknown'. rewrite set_local_same in Hknown'.
    change (set_local Consumer s L (other Consumer)) with (L Producer) in Hknown'.
    destruct (taken_prefix _ _ _ _ _ Hi') as [Htake _]. rewrite set_local_same, Hnew in Htake.
    change (set_local Consumer s L Producer) with (L Producer) in Htake.
    exists (mkfifo en (de ++ [y]) ps (theirs s) pst (Responded (true, y))). split.
    + apply (fifo_run_one _ _ _ _ None), pop_done.
      * split; [|done]. rewrite En, HlenP. lia.
      * rewrite De, Hold. lia.
      * rewrite En, De, Hold. eapply prefix_lookup_Some; [|exact Htake].
        by rewrite lookup_app_r, Nat.sub_diag by lia.
    + exists (set_local Consumer s L), out. sim_fields. rewrite Hnew. split_and!; try done.
      * right. by exists y.
      * by rewrite De, Hold.
Qed.

Lemma pop_step_sim c a choice c' :
  weak_sim c a → step (push v Capacity) (pop v Capacity) (Step Consumer choice) c = Config c' →
  ∃ a', steps a (observed (Step Consumer choice) c) a' ∧ weak_sim c' a'.
Proof using HC Hv Inhabited0.
  intros Hsim Hstep. pose proof Hsim as (L & out & Hi & Hp & Hc & Sp & Sc & En & De & Ks & Kc). destruct a as [en de ps cs pst cst].
  cbn [step observed enqueued dequeued pops_seen pushes_seen push_status pop_status] in *.
  destruct (popping c) as [p|] eqn:Ep; [|done]. cbn [fmap option_fmap option_map] in Hc, Sc.
  pose proof (proj2 (proj2 (inv_local _ _ _ _ _ Hi Producer))) as HlenP.
  pose proof (proj2 (proj2 (inv_local _ _ _ _ _ Hi Consumer))) as HlenC.
  destruct p as [[b y]|? ? ?|? ? ? ?|? ?|? ? ?|? ?|? ? ?|?|?].
  2-9: match type of Hstep with context [exec ?t ?ch ?p ?w ?m] =>
    destruct (exec t ch p w m) as [p' w' m'| |] eqn:E; [|done..] end;
    injection Hstep as <-; by eapply (pop_access_sim c).
  injection Hstep as <-. destruct Hc as (s0 & Hidle & Hd & Hpre & ((Hidle' & _ & Hb) & Hout)). cbn [fst snd] in Hb, Hout.
  destruct b.
  - destruct Hb as [Hm Hb]. destruct Sc as [[_ E]|(y' & -> & E)]; rewrite Hb, Hd in E.
    { apply (f_equal length) in E. rewrite length_app in E. simpl in E. lia. }
    apply app_inv_head in E as [= ->].
    exists (mkfifo en de ps cs pst Idle). split; [apply (fifo_run_one _ _ _ _ (Some _)), pop_return|].
    exists L, out. sim_fields. rewrite <- Hd, <- Hb. split_and!; try done; by split.
  - destruct Hb as (Hm & Hb & Hf & Hroom). destruct Sc as [[-> E]|(y' & _ & E)].
    2: { rewrite Hb, Hd in E. apply (f_equal length) in E. rewrite length_app in E. simpl in E. lia. }
    rewrite Hout by done. pose proof Hidle' as ((_ & _ & Hlen) & _). simpl in Hroom.
    pose proof (known_le _ _ _ _ _ Consumer Hi) as Hknown. simpl in Hknown.
    exists (mkfifo en de ps (theirs (L Consumer)) pst Idle). split.
    + eapply (fifo_run_app _ _ _ _ _ [] [_]);
        [apply (fifo_run_one _ _ _ _ None), pop_none|apply (fifo_run_one _ _ _ _ (Some _)), pop_return].
      * split; [|done]. rewrite En, HlenP. lia.
      * rewrite De. lia.
    + exists L, out. sim_fields. rewrite <- Hd, <- Hb. split_and!; try done; by split.
Qed.

Lemma call_step_sim s c a c' :
  (∀ t choice, s ≠ Step t choice) →
  weak_sim c a → step (push v Capacity) (pop v Capacity) s c = Config c' →
  ∃ a', steps a (observed s c) a' ∧ weak_sim c' a'.
Proof using HC Hv Inhabited0.
  intros Hs (L & out & Hi & Hp & Hc & Sp & Sc & En & De & Ks & Kc) Hstep. destruct a as [en de ps cs pst cst].
  destruct s as [x|out'|t choice]; [..|by destruct (Hs t choice)];
    cbn [step observed enqueued dequeued pops_seen pushes_seen push_status pop_status] in *.
  - destruct (pushing c) eqn:Ep; [done|]. injection Hstep as <-. destruct Sp as [-> Sp]. pose proof (proj1 Hp) as Hidle.
    exists (mkfifo en de ps cs (Invoked x) cst). split; [apply (fifo_run_one _ _ _ _ (Some _)), push_call|].
    exists (set_local Producer (begin (L Producer)) L), out. sim_fields. split_and!; try done.
    + by apply inv_begin.
    + apply (calling_start v Capacity Producer _ _ (λ x s0, push_post Capacity v s0 x)); [exact Hp|]. by apply push_safe.
    + by left.
  - destruct (popping c) eqn:Ep; [done|]. injection Hstep as <-. destruct Sc as [-> Sc]. pose proof (proj1 Hc) as Hidle.
    exists (mkfifo en de ps cs pst (Invoked out')). split; [apply (fifo_run_one _ _ _ _ (Some _)), pop_call|].
    exists (set_local Consumer (begin (L Consumer)) L), out'. sim_fields. split_and!; try done.
    + by apply inv_begin.
    + apply (calling_start v Capacity Consumer _ _ (λ out s0, pop_post Capacity v s0 out)); [exact Hc|]. by apply pop_safe.
    + by left.
Qed.

Lemma initial_sim (out : T) : weak_sim (initial Capacity) empty_fifo.
Proof using HC.
  destruct (initial_ok (T:=T) v Capacity) as (L & Hi & Hp & Hc). exists L, out. simpl in *.
  destruct Hp as [Hp1 Hp2], Hc as [Hc1 Hc2]. split_and!; try done; try lia; by split.
Qed.

End lock_free.

(** ** The mutex variant *)

Section mutex.
Context {T : Type} `{!Inhabited T} (Capacity : Z) {HC : QueueCapacity Capacity}.
Implicit Types (c : config T) (a : fifo T).
Abbreviation limit := (usable Mutex Capacity).
Abbreviation steps a e a' := (fifo_run true limit a (option_list e) a').

(** A call takes effect when it unlocks the mutex. *)
Definition mutex_status {X A} (call : option (X * prog T A)) (st : status X A) : Prop :=
  match call with
  | None => st = Idle
  | Some (_, Ret r) => st = Responded r
  | Some (x, _) => st = Invoked x
  end.

Lemma mutex_status_invoked {X A} (x : X) (p : prog T A) st :
  (∀ r, p ≠ Ret r) → mutex_status (Some (x, p)) st ↔ st = Invoked x.
Proof. intros Hp. destruct p; try done. by destruct (Hp a). Qed.

Lemma not_ret {A B} (p : prog T A) (f : A → B) (d : B) :
  (∀ r, p ≠ Ret r) → match p with Ret r => f r | _ => d end = d.
Proof. intros Hp. destruct p; try done. by destruct (Hp a). Qed.

Definition mutex_sim c a : Prop :=
  ∃ got items out, mutex_state Capacity got items out c ∧
    mutex_status (pushing c) (push_status a) ∧ mutex_status (pair out <$> popping c) (pop_status a) ∧
    enqueued a = got ++ items ∧ dequeued a = got ∧
    (pops_seen a ≤ length got)%nat ∧ (pushes_seen a ≤ length (got ++ items))%nat.

Lemma mutex_push_sim c a choice c' :
  mutex_sim c a → step (push Mutex Capacity) (pop Mutex Capacity) (Step Producer choice) c = Config c' →
  ∃ a', steps a (observed (Step Producer choice) c) a' ∧ mutex_sim c' a'.
Proof using HC.
  intros (got & items & out & Hok & Sp & Sc & En & De & Ks & Kc) Hstep.
  destruct a as [en de ps cs pst cst]. cbn [enqueued dequeued pops_seen pushes_seen push_status pop_status] in *. subst en de.
  pose proof (step_push_mutex Capacity got items out c choice Hok) as H. rewrite Hstep in H.
  destruct H as (items' & r & Hok' & Hmove & Hpop & Hr). cbn [observed].
  remember (pushing c) as call eqn:Ecall. remember (pushing c') as call' eqn:Ecall'.
  assert (∀ a', mutex_sim c' a' ↔ ∃ got items out, mutex_state Capacity got items out c' ∧
    mutex_status call' (push_status a') ∧ mutex_status (pair out <$> popping c) (pop_status a') ∧
    enqueued a' = got ++ items ∧ dequeued a' = got ∧
    (pops_seen a' ≤ length got)%nat ∧ (pushes_seen a' ≤ length (got ++ items))%nat) as Hsim
    by (intros a'; unfold mutex_sim; by rewrite <- Ecall', Hpop).
  clear Ecall Ecall'. setoid_rewrite Hsim.
  destruct Hmove as [x p p' Hp Hp'|x p b Hp|x b].
  - exists (mkfifo (got ++ items) got ps cs pst cst).
    apply (mutex_status_invoked x p _ Hp) in Sp as ->. split.
    + rewrite (not_ret p (λ b, Some (PushReturned b)) None Hp). constructor.
    + exists got, items, out. subst items'. split_and!; try done.
      by apply mutex_status_invoked.
  - apply (mutex_status_invoked x p _ Hp) in Sp as ->.
    rewrite (not_ret p (λ b, Some (PushReturned b)) None Hp).
    assert (fifo_step true limit (mkfifo (got ++ items) got ps cs (Invoked x) cst) None
      (mkfifo (got ++ items') got (length got) cs (Responded b) cst)) as Hs.
    { unfold spec_push in Hr. destruct Hok as (_ & _ & Hlim & _).
      case_decide as Hroom; injection Hr as -> ->.
      - rewrite (assoc_L (++)). apply push_done; [done|]. rewrite length_app. lia.
      - apply push_full; [done|]. rewrite length_app. lia. }
    eexists. split; [exact (fifo_run_one _ _ _ _ _ Hs)|].
    exists got, items', out. cbn. split_and!; try done.
    unfold spec_push in Hr. rewrite length_app in *. case_decide; injection Hr as _ ->; [rewrite length_app|]; lia.
  - simpl in Sp. subst pst items'. exists (mkfifo (got ++ items) got ps cs Idle cst).
    split; [apply (fifo_run_one _ _ _ _ (Some _)), push_return|].
    by exists got, items, out.
Qed.

Lemma mutex_pop_sim c a choice c' :
  mutex_sim c a → step (push Mutex Capacity) (pop Mutex Capacity) (Step Consumer choice) c = Config c' →
  ∃ a', steps a (observed (Step Consumer choice) c) a' ∧ mutex_sim c' a'.
Proof using HC.
  intros (got & items & out & Hok & Sp & Sc & En & De & Ks & Kc) Hstep.
  destruct a as [en de ps cs pst cst]. cbn [enqueued dequeued pops_seen pushes_seen push_status pop_status] in *. subst en de.
  pose proof (step_pop_mutex Capacity got items out c choice Hok) as H. rewrite Hstep in H.
  destruct H as (got' & items' & r & Hok' & Hmove & Hpush & Hr).
  assert (observed (Step Consumer choice) c =
    match pair out <$> popping c with Some (_, Ret (b, y)) => Some (PopReturned b y) | _ => None end) as ->
    by (cbn; by destruct (popping c)).
  remember (pair out <$> popping c) as call eqn:Ecall. remember (pair out <$> popping c') as call' eqn:Ecall'.
  assert (∀ a', (∃ got items, mutex_state Capacity got items out c' ∧
    mutex_status (pushing c) (push_status a') ∧ mutex_status call' (pop_status a') ∧
    enqueued a' = got ++ items ∧ dequeued a' = got ∧
    (pops_seen a' ≤ length got)%nat ∧ (pushes_seen a' ≤ length (got ++ items))%nat) → mutex_sim c' a') as Hsim.
  { intros a' (g & i & H). exists g, i, out. by rewrite <- Ecall', Hpush. }
  assert (∀ x p, call = Some (x, p) → x = out) as Hout
    by (rewrite Ecall; intros ??; destruct (popping c); by intros [= ->]).
  clear Ecall Ecall'. destruct Hmove as [x p p' Hp Hp'|x p r Hp|x r].
  - destruct Hr as [-> ->]. exists (mkfifo (got ++ items) got ps cs pst cst).
    apply (mutex_status_invoked x p _ Hp) in Sc as ->. split.
    + rewrite (not_ret p (λ '(b, y), Some (PopReturned b y)) None Hp). constructor.
    + apply Hsim. exists got, items. split_and!; try done. by apply mutex_status_invoked.
  - apply (mutex_status_invoked x p _ Hp) in Sc as ->. destruct Hr as [-> Hr].
    rewrite (not_ret p (λ '(b, y), Some (PopReturned b y)) None Hp).
    rewrite (Hout x p eq_refl). destruct items as [|y items]; injection Hr as -> ->.
    + exists (mkfifo (got ++ []) got ps (length got) pst (Responded (false, out))). split.
      * apply (fifo_run_one _ _ _ _ None), pop_none; [|done].
        split; [rewrite app_nil_r in *; split; [lia|done]|by rewrite app_nil_r].
      * apply Hsim. exists (got ++ []), []. cbn in *. rewrite !app_nil_r in *. by split_and!.
    + exists (mkfifo (got ++ y :: items) (got ++ [y]) ps (length (got ++ y :: items)) pst (Responded (true, y))). split.
      * apply (fifo_run_one _ _ _ _ None), pop_done; [done|rewrite length_app; simpl; lia|].
        by rewrite lookup_app_r, Nat.sub_diag by done.
      * apply Hsim. exists (got ++ [y]), items. cbn. rewrite <- (assoc_L (++)). split_and!; try done.
        rewrite length_app. lia.
  - destruct Hr as [-> ->]. destruct r as [b y]. simpl in Sc. subst cst.
    exists (mkfifo (got ++ items) got ps cs pst Idle).
    split; [apply (fifo_run_one _ _ _ _ (Some _)), pop_return|]. apply Hsim. by exists got, items.
Qed.

Lemma mutex_call_sim s c a c' :
  (∀ t choice, s ≠ Step t choice) →
  mutex_sim c a → step (push Mutex Capacity) (pop Mutex Capacity) s c = Config c' →
  ∃ a', steps a (observed s c) a' ∧ mutex_sim c' a'.
Proof.
  intros Hs (got & items & out & Hok & Sp & Sc & En & De & Ks & Kc) Hstep. destruct a as [en de ps cs pst cst].
  destruct s as [x|out'|t choice]; [..|by destruct (Hs t choice)];
    cbn [observed enqueued dequeued pops_seen pushes_seen push_status pop_status] in *.
  - destruct (call_push_mutex Capacity got items out c c' x Hok Hstep) as (Hok' & E & E' & Epop).
    rewrite E in Sp. simpl in Sp. subst pst.
    exists (mkfifo en de ps cs (Invoked x) cst). split; [apply (fifo_run_one _ _ _ _ (Some _)), push_call|].
    exists got, items, out. rewrite E', Epop. split_and!; done.
  - destruct (call_pop_mutex Capacity got items out c c' out' Hok Hstep) as (Hok' & E & E' & Epush).
    rewrite E in Sc. simpl in Sc. subst cst.
    exists (mkfifo en de ps cs pst (Invoked out')). split; [apply (fifo_run_one _ _ _ _ (Some _)), pop_call|].
    exists got, items, out'. rewrite E', Epush. split_and!; done.
Qed.

Lemma mutex_initial_sim : mutex_sim (initial Capacity) empty_fifo.
Proof using HC Inhabited0.
  destruct (initial_mutex_ok (T:=T) Capacity) as (got & items & out & Hok).
  pose proof Hok as (_ & _ & _ & [_ Hp] & [_ Hc]). cbn in Hp, Hc. subst got. simpl in Hp. subst items.
  by exists [], [], out.
Qed.

End mutex.

(** ** Properties *)

(** What every state of the specification satisfies. *)
Lemma fifo_step_bounds {T} exact limit (a a' : fifo T) e :
  fifo_step exact limit a e a' →
  dequeued a `prefix_of` enqueued a ∧ Z.of_nat (length (enqueued a)) ≤ Z.of_nat (length (dequeued a)) + limit →
  dequeued a' `prefix_of` enqueued a' ∧ Z.of_nat (length (enqueued a')) ≤ Z.of_nat (length (dequeued a')) + limit.
Proof.
  destruct 1; simpl; intros [Hp Hl]; try done.
  - split; [by apply prefix_app_r|]. rewrite length_app. simpl. destruct H as [[??] _]. lia.
  - split; [|rewrite length_app; simpl; lia]. destruct Hp as [l ->].
    rewrite lookup_app_r, Nat.sub_diag in H1 by done. destruct l as [|z l]; [done|]. injection H1 as ->.
    exists l. by rewrite <- (assoc_L (++)).
Qed.

Lemma fifo_run_bounds {T} exact limit (a a' : fifo T) h :
  fifo_run exact limit a h a' →
  dequeued a `prefix_of` enqueued a ∧ Z.of_nat (length (enqueued a)) ≤ Z.of_nat (length (dequeued a)) + limit →
  dequeued a' `prefix_of` enqueued a' ∧ Z.of_nat (length (enqueued a')) ≤ Z.of_nat (length (dequeued a')) + limit.
Proof. induction 1 as [|a e a1 h a2 Hs _ IH]; [done|]. intros H. apply IH. by eapply fifo_step_bounds. Qed.

(** C11: Overlapping calls are linearisable: whatever two threads call, in every
    interleaving and with every value the memory orders let a load return,
    what the callers observe is a history of a bounded FIFO whose operations
    take effect at one moment between call and return.  With the mutex
    variant the FIFO is exact.  With the lock-free variants an operation
    knows at least as much of the other thread as the last one of its thread
    did: it never takes a wrong item or overfills the ring, and it is
    refused exactly when the ring is full, or empty, by what it knows. *)
Theorem ring_buffers_linearisable {T} (HT : Inhabited T) v Capacity (HC : QueueCapacity Capacity) ss h
    (c : config T) :
  run_history (push v Capacity) (pop v Capacity) ss (initial Capacity) = Some (h, c) →
  ∃ a, fifo_run (bool_decide (v = Mutex)) (usable v Capacity) empty_fifo h a ∧
    dequeued a `prefix_of` enqueued a ∧
    Z.of_nat (length (enqueued a)) ≤ Z.of_nat (length (dequeued a)) + usable v Capacity.
Proof.
  intros Hrun.
  assert (∃ a, fifo_run (bool_decide (v = Mutex)) (usable v Capacity) empty_fifo h a) as [a Ha].
  { destruct (decide (v = Mutex)) as [->|Hv]; [rewrite bool_decide_eq_true_2 by done|rewrite bool_decide_eq_false_2 by done].
    - destruct (simulation (T:=T) true (usable Mutex Capacity) (push Mutex Capacity) (pop Mutex Capacity)
        (mutex_sim Capacity)) with (ss:=ss) (c:=initial (T:=T) Capacity) (a:=empty_fifo (T:=T)) (h:=h) (c':=c)
        as (a & Ha & _); [|by apply mutex_initial_sim|done|by exists a].
      intros [x|out|[] choice] c1 a c2; [by apply mutex_call_sim..|by apply mutex_push_sim|by apply mutex_pop_sim].
    - destruct (simulation (T:=T) false (usable v Capacity) (push v Capacity) (pop v Capacity)
        (weak_sim v Capacity)) with (ss:=ss) (c:=initial (T:=T) Capacity) (a:=empty_fifo (T:=T)) (h:=h) (c':=c)
        as (a & Ha & _); [|by apply (initial_sim v Capacity inhabitant)|done|by exists a].
      intros [x|out|[] choice] c1 a c2; [by apply call_step_sim..|by apply push_step_sim|by apply pop_step_sim]. }
  exists a. split; [done|]. apply (fifo_run_bounds _ _ _ _ _ Ha). simpl. pose proof (usable_bounds v Capacity).
  split; [done|lia].
Qed.

(** The run of [sample_schedule], in which the first pop misses an item. *)
Definition sample_run : list (event Z) * config Z :=
  default ([], initial 4) (run_history (push V3 4) (pop V3 4) sample_schedule (initial 4)).

Lemma ring_buffers_linearisable_witness :
  sample_run.1 = [PushCalled 7; PushReturned true; PopCalled 0; PopReturned false 0;
                  PopCalled 0; PopReturned true 7; PushCalled 8] ∧
  ∃ a, fifo_run false 3 empty_fifo sample_run.1 a.
Proof.
  assert (run_history (push V3 4) (pop V3 4) sample_schedule (initial 4) = Some (sample_run.1, sample_run.2))
    as Hrun.
  { rewrite <- surjective_pairing. apply some_default. vm_compute. reflexivity. }
  split; [vm_compute; reflexivity|].
  destruct (ring_buffers_linearisable (T:=Z) _ V3 4 queue_capacity_4 _ _ _ Hrun) as (a & Ha & _).
  exact (ex_intro _ a Ha).
Defined.
