(* ===== verification/Throughput.v ===== *)
(** * The throughput test of the ring buffers

    Models [core/SPSC/test.cpp]: a producer that pushes 1, 2, ..., [total] and
    a consumer that adds up what it pops, over the weak-memory machine of
    [SpscMachine].  Console output is left out; [Rates] has the rates. *)

From stdpp Require Import strings.
From S2P Require Import Prelude Ring Spsc SpscMachine SpscLogic SpscVariants SpscSequential.
From S2P Require Import SpscConcurrent SpscMutex SpscProperties SpscProgress SpscAlone.

#[local] Open Scope Z_scope.

Definition k_capacity : Z := 1024.

#[export] Instance queue_capacity_1024 : QueueCapacity k_capacity.
Proof. split; [evaluate|done|done]. Qed.

(** The sum the consumer should see, in [std::uint64_t] arithmetic. *)
Definition expected (total : Z) : Z := u64 (total * (total +₆₄ 1)) / 2.

(** ** The two threads of [run_benchmark] *)

Record bench : Type := mkbench {
  queue : config Z;
  started : bool;       (** [start] *)
  next_value : Z;       (** [value], the producer's loop variable *)
  count : Z;            (** the consumer's *)
  checksum : Z
}.

Inductive bench_move : Type :=
| Go                                   (** [start.store(true)] *)
| Produce                              (** the producer calls [push] *)
| Consume                              (** the consumer calls [pop] *)
| Run (t : thread) (choice : nat).     (** a step of a call, or its return *)

Section run_benchmark.
Context (v : variant) (total : Z).

Definition bench_start : bench := mkbench (initial k_capacity) false 1 0 0.

(** One step of the queue. *)
Definition queue_step (s : schedule Z) (c : config Z) : option (config Z) :=
  match step (push v k_capacity) (pop v k_capacity) s c with Config c => Some c | _ => None end.

(** The loops; a thread that waits for [start] or for room makes no move.
    [None]: the move is not enabled. *)
Definition bench_step (mv : bench_move) (b : bench) : option bench :=
  let c := queue b in
  match mv with
  | Go => Some (mkbench c true (next_value b) (count b) (checksum b))
  | Produce =>
      if started b && bool_decide (next_value b ≤ total) then
        c ← queue_step (CallPush (next_value b)) c;
        Some (mkbench c (started b) (next_value b) (count b) (checksum b))
      else None
  | Consume =>
      if started b && bool_decide (count b < total) then
        c ← queue_step (CallPop 0) c;
        Some (mkbench c (started b) (next_value b) (count b) (checksum b))
      else None
  | Run Producer choice =>
      c' ← queue_step (Step Producer choice) c;
      let returned := match pushing c with Some (_, Ret true) => true | _ => false end in
      Some (mkbench c' (started b)
              (if returned then next_value b +₆₄ 1 else next_value b) (count b) (checksum b))
  | Run Consumer choice =>
      c' ← queue_step (Step Consumer choice) c;
      match popping c with
      | Some (Ret (true, value)) =>
          Some (mkbench c' (started b) (next_value b) (count b +₆₄ 1) (checksum b +₆₄ value))
      | _ => Some (mkbench c' (started b) (next_value b) (count b) (checksum b))
      end
  end.

Definition bench_steps (b b' : bench) : Prop := ∃ mv, bench_step mv b = Some b'.

Definition bench_reachable : bench → Prop := rtc bench_steps bench_start.

(** What is printed at the end: ["ok"] or ["bad"]. *)
Definition verdict (b : bench) : bool := bool_decide (checksum b = expected total).

End run_benchmark.

(** The runs [main] makes for a mode: the names and the queues. *)
Definition selected (mode : string) : list (string * variant) :=
  let on name := bool_decide (mode = name ∨ mode = "all") in
  (if on "mutex" then [("mutex", Mutex)] else []) ++
  (if on "atomicv1" then [("atomic_v1", V1)] else []) ++
  (if on "atomicv2" then [("atomic_v2", V2)] else []) ++
  (if on "atomicv3" then [("atomic_v3", V3)] else []) ++
  (if on "atomicv4" then [("atomic_v4", V4)] else []).

(** [argc >= 2 ? argv[1] : "all"] *)
Definition mode_of (argv : list string) : string := default "all" (argv !! 1%nat).

Section main.
Context (strtoull : string → Z).

(** [argc >= 3 ? std::strtoull(argv[2], nullptr, 10) : 20'000'000ULL] *)
Definition total_of (argv : list string) : Z :=
  match argv !! 2%nat with Some digits => u64 (strtoull digits) | None => 20000000 end.

(** The runs of [main], in order. *)
Definition runs (argv : list string) : list (string * variant * Z) :=
  (λ '(name, v), (name, v, total_of argv)) <$> selected (mode_of argv).

Lemma total_of_bounds argv : 0 ≤ total_of argv < 2 ^ 64.
Proof. unfold total_of. destruct (argv !! 2%nat); [by apply (uint_wrap 64)|lia]. Qed.

Lemma runs_total name v total argv :
  (name, v, total) ∈ runs argv → total = total_of argv.
Proof. unfold runs. rewrite list_elem_of_fmap. by intros ([name' v'] & [= -> -> ->] & _). Qed.

End main.

(** ** The invariant *)

Definition sum (values : list Z) : Z := foldl (λ acc x, acc +₆₄ x) 0 values.

Lemma sum_snoc values x : sum (values ++ [x]) = sum values +₆₄ x.
Proof. unfold sum. by rewrite foldl_snoc. Qed.

Lemma sum_seqZ n : 0 ≤ n → sum (seqZ 1 n) = u64 (n * (n + 1) / 2).
Proof.
  intros Hn. rewrite <- (Z2Nat.id n) by done. generalize (Z.to_nat n) as k. clear n Hn. intros k.
  induction k as [|k IH]; [done|].
  rewrite Nat2Z.inj_succ, <- Z.add_1_r, seqZ_snoc by lia. rewrite sum_snoc, IH. unfold wrap. rewrite Zplus_mod_idemp_l. f_equal.
  replace ((Z.of_nat k + 1) * (Z.of_nat k + 1 + 1)) with
    (Z.of_nat k * (Z.of_nat k + 1) + (1 + Z.of_nat k) * 2) by lia.
  by rewrite Z.div_add by lia.
Qed.

Section invariant.
Context (v : variant) (total : Z) (Htotal : 0 ≤ total < 2 ^ 64 - 1).
Implicit Types (b : bench).

Record bench_ok b : Prop := {
  bench_queue : reachable v k_capacity (queue b);
  bench_pushed : pushed (queue b) = seqZ 1 (next_value b - 1);
  bench_pushing x p : pushing (queue b) = Some (x, p) → x = next_value b ∧ next_value b ≤ total;
  bench_next : 1 ≤ next_value b ≤ total + 1;
  bench_count : Z.of_nat (length (popped (queue b))) = count b;
  bench_bound : count b ≤ total ∧ (popping (queue b) ≠ None → count b < total);
  bench_checksum : checksum b = sum (popped (queue b))
}.

Lemma queue_step_reaches s c c' :
  queue_step v s c = Some c' → reachable v k_capacity c → reachable v k_capacity c'.
Proof.
  unfold queue_step. destruct (step _ _ s c) as [c1| |] eqn:E; [|done..]. intros [= <-] Hr.
  eapply rtc_r; [exact Hr|]. by exists s.
Qed.

(** What a step changes besides the memory. *)
Lemma queue_step_push x c c' :
  queue_step v (CallPush x) c = Some c' →
  pushing c = None ∧ pushing c' = Some (x, push v k_capacity x) ∧ popping c' = popping c ∧
  pushed c' = pushed c ∧ popped c' = popped c.
Proof. unfold queue_step. simpl. by destruct (pushing c); intros [= <-]. Qed.

Lemma queue_step_pop out c c' :
  queue_step v (CallPop out) c = Some c' →
  popping c = None ∧ pushing c' = pushing c ∧ popping c' = Some (pop v k_capacity out) ∧
  pushed c' = pushed c ∧ popped c' = popped c.
Proof. unfold queue_step. simpl. by destruct (popping c); intros [= <-]. Qed.

Lemma queue_step_producer choice c c' :
  queue_step v (Step Producer choice) c = Some c' →
  popping c' = popping c ∧ popped c' = popped c ∧
  ∃ x p, pushing c = Some (x, p) ∧
    match p with
    | Ret r => pushing c' = None ∧ pushed c' = if r : bool then pushed c ++ [x] else pushed c
    | _ => (∃ p', pushing c' = Some (x, p')) ∧ pushed c' = pushed c
    end.
Proof.
  unfold queue_step, step. destruct (pushing c) as [[x p]|]; [|done].
  destruct p; try (destruct (exec _ _ _ _ _) as [p' w m| |]; [|done..]); intros [= <-];
    (split; [done|]; split; [done|]; eexists x, _; split; [done|]; split; [by eauto|done]).
Qed.

Lemma queue_step_consumer choice c c' :
  queue_step v (Step Consumer choice) c = Some c' →
  pushing c' = pushing c ∧ pushed c' = pushed c ∧
  ∃ p, popping c = Some p ∧
    match p with
    | Ret (r, y) => popping c' = None ∧ popped c' = if r : bool then popped c ++ [y] else popped c
    | _ => (∃ p', popping c' = Some p') ∧ popped c' = popped c
    end.
Proof.
  unfold queue_step, step. destruct (popping c) as [p|]; [|done].
  destruct p as [[r y]| | | | | | | |];
    try (destruct (exec _ _ _ _ _) as [p' w m| |]; [|done..]); intros [= <-];
    (split; [done|]; split; [done|]; eexists _; split; [done|]; split; [by eauto|done]).
Qed.

Lemma bench_step_ok mv b b' : bench_ok b → bench_step v total mv b = Some b' → bench_ok b'.
Proof using Htotal.
  intros [H1 H2 H3 H4 H5 [H6 H6'] H7]. unfold bench_step. cbv zeta.
  destruct mv as [| | |[|] choice].
  - intros [= <-]. by split.
  - case_match eqn:Hgo; [|done]. apply andb_true_iff in Hgo as [_ Hle%bool_decide_eq_true].
    destruct (queue_step v _ _) as [c'|] eqn:E; [|done]. intros [= <-].
    destruct (queue_step_push _ _ _ E) as (_ & Hp & Hq & Hpd & Hpp).
    split; simpl; rewrite ?Hp, ?Hq, ?Hpd, ?Hpp; try done.
    + by eapply queue_step_reaches.
    + by intros x p [= <- <-].
  - case_match eqn:Hgo; [|done]. apply andb_true_iff in Hgo as [_ Hlt%bool_decide_eq_true].
    destruct (queue_step v _ _) as [c'|] eqn:E; [|done]. intros [= <-].
    destruct (queue_step_pop _ _ _ E) as (_ & Hp & Hq & Hpd & Hpp).
    split; simpl; rewrite ?Hp, ?Hq, ?Hpd, ?Hpp; try done.
    by eapply queue_step_reaches.
  - destruct (queue_step v _ _) as [c'|] eqn:E; [|done]. intros [= <-].
    destruct (queue_step_producer _ _ _ E) as (Hq & Hpp & x & p & Hx & Hcase).
    destruct (H3 x p Hx) as [-> Hle]. rewrite Hx.
    assert (reachable v k_capacity c') as Hr by by eapply queue_step_reaches.
    destruct p as [[|]| | | | | | | |]; destruct Hcase as [Hp Hpd];
      split; simpl. all: rewrite ?Hp, ?Hq, ?Hpp, ?Hpd, ?H2, ?wrap_uint by (split; lia); try done; try lia.
    1: { replace (next_value b + 1 - 1) with (next_value b - 1 + 1) by lia.
         rewrite seqZ_snoc by lia. by replace (1 + (next_value b - 1)) with (next_value b) by lia. }
    all: destruct Hp as [p' ->]; by intros ? ? [= <- <-].
  - destruct (queue_step v _ _) as [c'|] eqn:E; [|done].
    destruct (queue_step_consumer _ _ _ E) as (Hq & Hpd & p & Hx & Hcase). rewrite Hx in *.
    assert (reachable v k_capacity c') as Hr by by eapply queue_step_reaches.
    specialize (H6' ltac:(done)).
    destruct p as [[[|] y]| | | | | | | |]; destruct Hcase as [Hp Hpp]; intros [= <-];
      split; simpl; rewrite ?Hp, ?Hq, ?Hpp, ?Hpd, ?sum_snoc, ?length_app, ?H7, ?H2; try done.
    + simpl. rewrite wrap_uint; [lia|split; lia].
    + rewrite wrap_uint; [|split; lia]. split; [lia|done].
Qed.

Lemma bench_runs_ok b b' : bench_ok b → rtc (bench_steps v total) b b' → bench_ok b'.
Proof using Htotal.
  intros Hb Hr. revert Hb. induction Hr as [b|b b1 b2 [mv Hstep] _ IH]; [done|].
  intros Hb. apply IH. by eapply bench_step_ok.
Qed.

Lemma bench_reachable_ok b : bench_reachable v total b → bench_ok b.
Proof using Htotal.
  apply bench_runs_ok. split; try done; simpl; [by apply rtc_refl|lia|split; [lia|done]].
Qed.

(** The consumer pops 1, 2, 3, ... *)
Lemma bench_popped b : bench_ok b → popped (queue b) = seqZ 1 (count b).
Proof using Htotal.
  intros Hb. destruct (ring_prefix v k_capacity (queue b) (bench_queue _ Hb)) as [Hpre _].
  assert (pushed (queue b) ++ in_flight (queue b) `prefix_of` seqZ 1 (next_value b)) as Hall.
  { rewrite (bench_pushed _ Hb). unfold in_flight. pose proof (bench_next _ Hb).
    replace (next_value b) with (next_value b - 1 + 1) at 2 by lia. rewrite seqZ_snoc by lia.
    apply prefix_app. replace (1 + (next_value b - 1)) with (next_value b) by lia.
    destruct (pushing (queue b)) as [[x p]|] eqn:E; [|by apply prefix_nil].
    by destruct (bench_pushing _ Hb x p E) as [-> _]. }
  pose proof (transitivity Hpre Hall) as Hp. rewrite <- (bench_count _ Hb).
  apply list_eq. intros i. destruct (decide (i < length (popped (queue b)))%nat) as [Hi|Hi].
  - destruct (lookup_lt_is_Some_2 _ _ Hi) as [x Hx]. rewrite Hx, lookup_seqZ_lt by lia.
    pose proof (prefix_lookup_Some _ _ _ _ Hx Hp) as Hx'. apply lookup_seqZ in Hx' as [-> _]. done.
  - by rewrite lookup_seqZ_ge, lookup_ge_None_2 by lia.
Qed.

Lemma finished_checksum b :
  bench_ok b → count b = total → checksum b = u64 (total * (total + 1) / 2).
Proof using Htotal.
  intros Hb Hc. by rewrite (bench_checksum _ Hb), (bench_popped b Hb), Hc, sum_seqZ by lia.
Qed.

Lemma finished_verdict b :
  bench_ok b → count b = total → total < 2 ^ 32 → verdict total b = true.
Proof using Htotal.
  intros Hb Hc Hlt. apply bool_decide_eq_true_2. rewrite (finished_checksum b Hb Hc). unfold expected.
  rewrite (wrap_uint 64 (total + 1)) by (split; lia).
  assert (0 ≤ total * (total + 1) < 2 ^ 64) by (change (2 ^ 64) with (2 ^ 32 * 2 ^ 32); nia).
  rewrite !wrap_uint; [done|done|]. split; [apply Z.div_pos; lia|].
  apply Z.div_lt_upper_bound; lia.
Qed.

(** When everything is popped and no push is in flight, everything was pushed. *)
Lemma bench_all_pushed b :
  bench_ok b → count b = total → pushing (queue b) = None → next_value b = total + 1.
Proof using Htotal.
  intros Hb Hc Hp. destruct (ring_prefix v k_capacity (queue b) (bench_queue _ Hb)) as [Hpre _].
  unfold in_flight in Hpre. rewrite Hp, app_nil_r in Hpre. apply prefix_length in Hpre.
  pose proof (bench_count _ Hb). pose proof (bench_next _ Hb).
  rewrite (bench_pushed _ Hb), length_seqZ in Hpre. lia.
Qed.

End invariant.

(** ** Completion *)

Section completion.
Context (v : variant) (total : Z) (Htotal : 0 ≤ total < 2 ^ 64 - 1).
Abbreviation runs := (rtc (bench_steps v total)).

Lemma run_step t choice b c :
  step (push v k_capacity) (pop v k_capacity) (Step t choice) (queue b) = Config c →
  ∃ b', bench_steps v total b b' ∧ queue b' = c ∧ started b' = started b.
Proof.
  intros E. assert (queue_step v (Step t choice) (queue b) = Some c) as Hq by (unfold queue_step; by rewrite E).
  assert (∃ b', bench_step v total (Run t choice) b = Some b' ∧ queue b' = c ∧ started b' = started b)
    as (b' & Hb & Hrest).
  { destruct t; cbn [bench_step]; rewrite Hq; cbn [mbind option_bind]; [by eexists|].
    repeat case_match; by eexists. }
  exists b'. split; [by exists (Run t choice)|done].
Qed.

(** A thread of the test can do what its call can do. *)
Lemma run_steps t b c c' :
  rtc (moves_alone v k_capacity t) c c' → queue b = c →
  ∃ b', runs b b' ∧ queue b' = c' ∧ started b' = started b.
Proof.
  intros Hr. revert b. induction Hr as [c|c c1 c' [choice Hs] _ IH]; intros b Hb.
  { exists b. split; [apply rtc_refl|done]. }
  rewrite <- Hb in Hs. destruct (run_step t choice b c1 Hs) as (b1 & Hb1 & Hq & Hst).
  destruct (IH b1 Hq) as (b' & Hr' & Hq' & Hst'). exists b'. split_and!; [|done|congruence].
  by eapply rtc_l.
Qed.

(** Both threads between two calls. *)
Definition resting (b : bench) : Prop :=
  started b = true ∧ pushing (queue b) = None ∧ popping (queue b) = None.

(** The call in flight of an unhindered thread is finished. *)
Lemma finish_push b :
  bench_ok v total b → unhindered v Producer (queue b) →
  ∃ b', runs b b' ∧ started b' = started b ∧ pushing (queue b') = None ∧
    popping (queue b') = popping (queue b).
Proof using Htotal.
  intros Hb Hf. destruct (pushing (queue b)) as [[x p]|] eqn:E; [|exists b; split; [apply rtc_refl|done]].
  destruct (push_completes v k_capacity _ x p (bench_queue _ _ _ Hb) Hf E) as (r & c & [Hc Hp Hpo _ _]).
  destruct (run_steps _ b _ _ Hc eq_refl) as (b' & Hr & Hq & Hs). exists b'. by rewrite Hq.
Qed.

Lemma finish_pop b :
  bench_ok v total b → unhindered v Consumer (queue b) →
  ∃ b', runs b b' ∧ started b' = started b ∧ popping (queue b') = None ∧
    pushing (queue b') = pushing (queue b).
Proof using Htotal.
  intros Hb Hf. destruct (popping (queue b)) as [p|] eqn:E; [|exists b; split; [apply rtc_refl|done]].
  destruct (pop_completes v k_capacity _ p (bench_queue _ _ _ Hb) Hf E) as (r & y & c & [Hc Hp Hpu _ _]).
  destruct (run_steps _ b _ _ Hc eq_refl) as (b' & Hr & Hq & Hs). exists b'. by rewrite Hq.
Qed.

Lemma come_to_rest b : bench_ok v total b → ∃ b', runs b b' ∧ resting b'.
Proof using Htotal.
  intros Hb. set (b0 := mkbench (queue b) true (next_value b) (count b) (checksum b)).
  assert (bench_steps v total b b0) as H0 by by exists Go.
  pose proof (bench_step_ok v total Htotal Go b b0 Hb eq_refl) as Hb0.
  assert (∃ b', runs b0 b' ∧ resting b') as (b' & Hr & Hrest); [|exists b'; split; [by eapply rtc_l|done]].
  destruct (some_unhindered v (queue b0)) as [Hf|Hf].
  - destruct (finish_push b0 Hb0 Hf) as (b1 & H1 & Hs1 & Hp1 & _).
    pose proof (bench_runs_ok v total Htotal b0 b1 Hb0 H1) as Hb1.
    destruct (finish_pop b1 Hb1) as (b2 & H2 & Hs2 & Hp2 & Hq2).
    { by apply (idle_unhindered v k_capacity _ (bench_queue _ _ _ Hb1)). }
    exists b2. split; [by etrans|]. unfold resting. by rewrite Hs2, Hs1, Hq2, Hp1, Hp2.
  - destruct (finish_pop b0 Hb0 Hf) as (b1 & H1 & Hs1 & Hp1 & _).
    pose proof (bench_runs_ok v total Htotal b0 b1 Hb0 H1) as Hb1.
    destruct (finish_push b1 Hb1) as (b2 & H2 & Hs2 & Hp2 & Hq2).
    { by apply (idle_unhindered v k_capacity _ (bench_queue _ _ _ Hb1)). }
    exists b2. split; [by etrans|]. unfold resting. by rewrite Hs2, Hs1, Hq2, Hp1, Hp2.
Qed.

(** One more value produced or consumed. *)
Lemma rest_step b :
  bench_ok v total b → resting b → count b < total →
  ∃ b', runs b b' ∧ resting b' ∧ next_value b + count b < next_value b' + count b'.
Proof using Htotal.
  intros Hb (Hs & Hpu & Hpo) Hlt.
  destruct (idle_unhindered v k_capacity _ (bench_queue _ _ _ Hb)) as [Hfc Hfp].
  specialize (Hfc Hpu). specialize (Hfp Hpo). pose proof (bench_count _ _ _ Hb) as Hcount.
  pose proof (bench_next _ _ _ Hb) as Hnext.
  assert (Z.of_nat (length (pushed (queue b))) = next_value b - 1) as Hpushed
    by (rewrite (bench_pushed _ _ _ Hb), length_seqZ; lia).
  assert (∀ b', runs b b' → (length (pushed (queue b)) + length (popped (queue b)) <
     length (pushed (queue b')) + length (popped (queue b')))%nat →
     next_value b + count b < next_value b' + count b') as Hmore.
  { intros b' Hr Hl. pose proof (bench_runs_ok v total Htotal b b' Hb Hr) as Hb'.
    pose proof (bench_count _ _ _ Hb'). pose proof (bench_next _ _ _ Hb').
    rewrite (bench_pushed _ _ _ Hb'), length_seqZ in Hl. lia. }
  destruct (decide (length (popped (queue b)) < length (pushed (queue b)))%nat) as [Hitem|Hnone].
  - destruct (pop_gets v k_capacity _ 0 (bench_queue _ _ _ Hb) Hfc Hpo Hitem)
      as (E1 & y & c & [Hc Hpo' Hpu' Hpp Hps] & _).
    cbn [call_pop pushing pushed popped] in Hpu', Hpp, Hps.
    set (b1 := mkbench (call_pop v k_capacity 0 (queue b)) true (next_value b) (count b) (checksum b)).
    assert (bench_steps v total b b1) as H1.
    { exists Consume. cbn [bench_step]. rewrite Hs, bool_decide_eq_true_2 by done. cbv zeta. cbn [andb].
      unfold queue_step. rewrite E1. reflexivity. }
    destruct (run_steps _ b1 _ _ Hc eq_refl) as (b2 & H2 & Hq & Hs2). exists b2.
    change (started b1) with true in Hs2.
    assert (runs b b2) as Hr by by eapply rtc_l. split; [done|]. split.
    + unfold resting. rewrite Hq. split_and!; congruence.
    + apply Hmore; [done|]. rewrite Hq, Hpp, Hps, length_app. simpl. lia.
  - destruct (push_gets_in v k_capacity _ (next_value b) (bench_queue _ _ _ Hb) Hfp Hpu)
      as (E1 & c & [Hc Hpu' Hpo' Hps Hpp] & _).
    { assert (0 < usable v k_capacity) by (by destruct v). lia. }
    cbn [call_push popping pushed popped] in Hpo', Hps, Hpp.
    set (b1 := mkbench (call_push v k_capacity (next_value b) (queue b)) true (next_value b) (count b) (checksum b)).
    assert (bench_steps v total b b1) as H1.
    { exists Produce. cbn [bench_step]. rewrite Hs, bool_decide_eq_true_2 by lia. cbv zeta. cbn [andb].
      unfold queue_step. rewrite E1. reflexivity. }
    destruct (run_steps _ b1 _ _ Hc eq_refl) as (b2 & H2 & Hq & Hs2). exists b2.
    change (started b1) with true in Hs2.
    assert (runs b b2) as Hr by by eapply rtc_l. split; [done|]. split.
    + unfold resting. rewrite Hq. split_and!; congruence.
    + apply Hmore; [done|]. rewrite Hq, Hpp, Hps, length_app. simpl. lia.
Qed.

Lemma rest_finish n b :
  bench_ok v total b → resting b → (Z.to_nat (2 * total + 1 - next_value b - count b) ≤ n)%nat →
  ∃ b', runs b b' ∧ resting b' ∧ count b' = total.
Proof using Htotal.
  revert b. induction n as [|n IH]; intros b Hb Hrest Hn;
    pose proof (bench_next _ _ _ Hb); pose proof (proj1 (bench_bound _ _ _ Hb));
    (destruct (decide (count b = total)) as [|Hne]; [exists b; split; [apply rtc_refl|done]|]);
    destruct (rest_step b Hb Hrest ltac:(lia)) as (b1 & Hto & Hrest1 & Hmore);
    pose proof (bench_runs_ok v total Htotal b b1 Hb Hto) as Hb1;
    pose proof (bench_next _ _ _ Hb1); pose proof (proj1 (bench_bound _ _ _ Hb1)); [lia|].
  destruct (IH b1 Hb1 Hrest1 ltac:(lia)) as (b' & Hto' & ?). exists b'. split; [by etrans|done].
Qed.

End completion.

(** ** Properties *)

(** C31: The throughput test: in every run its command line asks for, but one of
    2^64 - 1 messages, which never ends, whatever the variant and the
    execution, the queue is used without undefined behaviour, the consumer pops 1, 2, 3, ... in order, and a finished run has
    the checksum [total * (total + 1) / 2] modulo 2^64.  The printed verdict
    is then "ok" for every total below 2^32, the default among them; at 2^32
    the expected value itself overflows and a correct queue is reported as
    bad. *)
Theorem throughput_checksum strtoull argv name v total b :
  (name, v, total) ∈ runs strtoull argv → total ≠ 2 ^ 64 - 1 → bench_reachable v total b →
  (∀ s, step (push v k_capacity) (pop v k_capacity) s (queue b) ≠ Undefined) ∧
  popped (queue b) = seqZ 1 (count b) ∧
  (count b = total → checksum b = u64 (total * (total + 1) / 2) ∧
     (total < 2 ^ 32 ∨ (length argv < 3)%nat → verdict total b = true)) ∧
  expected (2 ^ 32) ≠ u64 (2 ^ 32 * (2 ^ 32 + 1) / 2).
Proof.
  intros Htot Hmax Hr. apply runs_total in Htot. pose proof (total_of_bounds strtoull argv) as Hbound.
  assert (0 ≤ total < 2 ^ 64 - 1) as Ht by lia. pose proof (bench_reachable_ok v total Ht b Hr) as Hb.
  pose proof (bench_popped v total Ht b Hb) as Hp. split; [|split; [done|split]].
  - intros s. by apply queue_never_undefined; [apply _|apply Hb].
  - intros Hc. split; [by eapply finished_checksum|]. intros Hlt. eapply finished_verdict; [done..|].
    destruct Hlt as [?|Hargs]; [done|]. subst total. unfold total_of. by rewrite lookup_ge_None_2 by lia.
  - vm_compute. discriminate.
Qed.

(** The producer's loop variable wraps around. *)
Lemma bench_next_u64 v total b : bench_reachable v total b → is_u64 (next_value b).
Proof.
  apply (rtc_ind_r (R:=bench_steps v total) (λ b, is_u64 (next_value b))); [done|].
  intros b1 b2 _ [mv Hstep] Hb. destruct mv as [| | |[|] choice]; cbn [bench_step] in Hstep; cbv zeta in Hstep;
    repeat case_match; repeat (apply bind_Some in Hstep as (? & _ & Hstep));
    repeat case_match; simplify_eq/=; try done; by apply (uint_wrap 64).
Qed.

(** C32: The throughput test can end, but for one total: over every variant and
    for every total below 2^64 - 1, each execution can be continued to a
    finished one, in which the producer has pushed all values and the consumer
    popped them, and which prints "ok" for every total below 2^32.  With the
    total 2^64 - 1, which [strtoull] gives for "-1" or on overflow, the
    condition [value <= total] of the producer's loop holds in every state, so
    that no execution ends. *)
Theorem throughput_can_finish v total b :
  0 ≤ total < 2 ^ 64 → bench_reachable v total b →
  (total < 2 ^ 64 - 1 →
   ∃ b', rtc (bench_steps v total) b b' ∧ next_value b' = total + 1 ∧ count b' = total ∧
     pushing (queue b') = None ∧ popping (queue b') = None ∧
     (total < 2 ^ 32 → verdict total b' = true)) ∧
  (total = 2 ^ 64 - 1 → ∀ b', rtc (bench_steps v total) b b' → next_value b' ≤ total).
Proof.
  intros Ht Hr. split.
  2: { intros -> b' Hb'. assert (bench_reachable v (2 ^ 64 - 1) b') as Hr' by (unfold bench_reachable in *; by etrans).
       apply bench_next_u64 in Hr' as [_ ?]. lia. }
  intros Hmax. assert (0 ≤ total < 2 ^ 64 - 1) as Ht' by lia. pose proof (bench_reachable_ok v total Ht' b Hr) as Hb.
  destruct (come_to_rest v total Ht' b Hb) as (b1 & H1 & Hrest1).
  pose proof (bench_runs_ok v total Ht' b b1 Hb H1) as Hb1.
  destruct (rest_finish v total Ht' _ b1 Hb1 Hrest1 (le_n _)) as (b2 & H2 & (_ & Hpu & Hpo) & Hc).
  pose proof (bench_runs_ok v total Ht' b1 b2 Hb1 H2) as Hb2. exists b2.
  split; [by etrans|]. split; [by eapply bench_all_pushed|]. split_and!; [done..|].
  intros Hlt. by eapply finished_verdict.
Qed.

(** One value through V3. *)
Definition sample_moves : list bench_move :=
  Go :: Produce :: replicate 5 (Run Producer 0) ++
  Consume :: (Run Consumer <$> [0; 0; 1; 0; 0; 0; 0; 0]%nat).

Fixpoint run_bench (v : variant) (total : Z) (mvs : list bench_move) (b : bench) : option bench :=
  match mvs with
  | [] => Some b
  | mv :: mvs => b ← bench_step v total mv b; run_bench v total mvs b
  end.

Lemma run_bench_reaches v total mvs b b' :
  run_bench v total mvs b = Some b' → rtc (bench_steps v total) b b'.
Proof.
  revert b. induction mvs as [|mv mvs IH]; intros b; cbn [run_bench]; [by intros [= <-]|].
  destruct (bench_step v total mv b) as [b1|] eqn:E; [|done]. intros Hrun.
  eapply rtc_l; [by exists mv|]. by apply IH.
Qed.

Definition sample_bench : bench := default bench_start (run_bench V3 1 sample_moves bench_start).

Lemma throughput_checksum_witness :
  count sample_bench = 1 ∧ popped (queue sample_bench) = [1] ∧ verdict 1 sample_bench = true.
Proof.
  assert (count sample_bench = 1) as Hc by (vm_compute; reflexivity).
  destruct (throughput_checksum (λ _, 1) ["test"; "atomicv3"; "1"]%string "atomic_v3" V3 1 sample_bench)
    as (_ & Hp & Hsum & _).
  - left.
  - discriminate.
  - apply (run_bench_reaches V3 1 sample_moves). apply some_default. vm_compute. reflexivity.
  - split; [exact Hc|]. rewrite Hc in Hp. split; [exact Hp|]. apply Hsum; [exact Hc|]. left. reflexivity.
Defined.

Lemma throughput_can_finish_witness :
  (∃ b', rtc (bench_steps Mutex 1000) bench_start b' ∧ count b' = 1000 ∧ verdict 1000 b' = true) ∧
  ∀ b', bench_reachable V3 (2 ^ 64 - 1) b' → next_value b' ≤ 2 ^ 64 - 1.
Proof.
  split.
  - destruct (throughput_can_finish Mutex 1000 bench_start) as [H _].
    + lia.
    + apply rtc_refl.
    + destruct H as (b' & Hr & _ & Hc & _ & _ & Hv); [lia|].
      exists b'. split; [exact Hr|]. split; [exact Hc|]. apply Hv. reflexivity.
  - destruct (throughput_can_finish V3 (2 ^ 64 - 1) bench_start) as [_ H].
    + lia.
    + apply rtc_refl.
    + exact (H eq_refl).
Defined.
