(* ===== verification/Rates.v ===== *)
(** * The rates the throughput test prints

    Models the arithmetic of [run_benchmark] in [core/SPSC/test.cpp] on the
    time between the two readings of [steady_clock], in IEEE-754 binary64.
    The readings are parameters; the clock counts nanoseconds. *)

From Stdlib Require Import SpecFloat QArith Lqa Qpower.
From S2P Require Import Prelude Doubles Throughput.

#[local] Open Scope Z_scope.

(** [std::chrono::duration<double>(end - begin).count()] *)
Definition seconds (nanoseconds : Z) : spec_float :=
  double_div (double_of nanoseconds) (double_of 1000000000).

Definition ns_per_message (seconds : spec_float) (total : Z) : spec_float :=
  double_div (double_mul seconds (double_of 1000000000)) (double_of total).

Definition million_messages_per_second (seconds : spec_float) (total : Z) : spec_float :=
  double_div (double_div (double_of total) seconds) (double_of 1000000).

(** 2^-49 *)
Definition tolerance : Q := 1 # 562949953421312.

(** Bounds between constants. *)
Ltac q_bounds := unfold tolerance, ulp; lra.

Lemma inject_pos n : 0 < n → (0 < inject_Z n)%Q.
Proof. intros. change 0%Q with (inject_Z 0). by rewrite <- Zlt_Qlt. Qed.

Lemma quotient_pos (x y : Q) : (0 < x → 0 < y → 0 < x / y)%Q.
Proof. intros Hx Hy. apply Qlt_shift_div_l; [done|lra]. Qed.

Section rates.
Context (nanoseconds : Z) (Hns : 0 < nanoseconds < 2 ^ 53).

Lemma seconds_near :
  ∃ m e, normal (seconds nanoseconds) m e ∧ -105 ≤ e ≤ 1 ∧
    near ulp (value (seconds nanoseconds)) (inject_Z nanoseconds / inject_Z 1000000000).
Proof using Hns.
  destruct (double_of_near nanoseconds Hns) as (mx & ex & Hx & Hex & Vx).
  destruct (double_of_near 1000000000) as (my & ey & Hy & Hey & Vy); [done|].
  destruct (div_near _ _ _ _ _ _ Hx Hy ltac:(lia)) as (m & e & Hm & He & Hnear).
  exists m, e. split; [done|]. split; [lia|]. unfold seconds. by rewrite Vx, Vy in Hnear.
Qed.

Lemma ns_per_message_near total :
  0 < total < 2 ^ 53 →
  near tolerance (value (ns_per_message (seconds nanoseconds) total)) (inject_Z nanoseconds / inject_Z total).
Proof using Hns.
  intros Ht. destruct seconds_near as (ms & es & Hs & Hes & Ns).
  destruct (double_of_near 1000000000) as (mg & eg & Hg & Heg & Vg); [done|].
  destruct (double_of_near total Ht) as (mt & et & Ht' & Het & Vt).
  destruct (mul_near _ _ _ _ _ _ Hs Hg ltac:(lia)) as (mp & ep & Hp & Hep & Np).
  destruct (div_near _ _ _ _ _ _ Hp Ht' ltac:(lia)) as (m & e & _ & _ & Nv).
  fold (ns_per_message (seconds nanoseconds) total) in Nv. rewrite Vg in Np. rewrite Vt in Nv.
  pose proof (inject_pos total ltac:(lia)) as Hpt. pose proof (inject_pos nanoseconds ltac:(lia)) as Hpn.
  apply (near_scale _ _ _ (inject_Z 1000000000)) in Ns; [|done].
  assert (inject_Z nanoseconds / inject_Z 1000000000 * inject_Z 1000000000 == inject_Z nanoseconds)%Q as E by field.
  rewrite E in Ns.
  pose proof (near_trans ulp ulp _ _ _ ltac:(q_bounds) ltac:(q_bounds) Hpn Np Ns) as N1.
  apply (near_scale _ _ _ (/ inject_Z total)) in N1; [|by apply Qlt_le_weak, Qinv_lt_0_compat].
  pose proof (near_trans ulp (ulp + ulp + ulp * ulp) _ _ _ ltac:(q_bounds) ltac:(q_bounds) (quotient_pos _ _ Hpn Hpt) Nv N1) as N2.
  refine (near_weaken _ _ _ _ _ _ N2); [q_bounds|]. by apply Qlt_le_weak, quotient_pos.
Qed.

Lemma million_messages_near total :
  0 < total < 2 ^ 53 →
  near tolerance (value (million_messages_per_second (seconds nanoseconds) total))
    (inject_Z total * 1000 / inject_Z nanoseconds).
Proof using Hns.
  intros Ht. destruct seconds_near as (ms & es & Hs & Hes & Ns).
  destruct (double_of_near 1000000) as (mg & eg & Hg & Heg & Vg); [done|].
  destruct (double_of_near total Ht) as (mt & et & Ht' & Het & Vt).
  destruct (div_near _ _ _ _ _ _ Ht' Hs ltac:(lia)) as (mp & ep & Hp & Hep & Np).
  destruct (div_near _ _ _ _ _ _ Hp Hg ltac:(lia)) as (m & e & _ & _ & Nv).
  fold (million_messages_per_second (seconds nanoseconds) total) in Nv. rewrite Vg in Nv. rewrite Vt in Np.
  pose proof (inject_pos total ltac:(lia)) as Hpt. pose proof (inject_pos nanoseconds ltac:(lia)) as Hpn.
  assert (0 < inject_Z nanoseconds / inject_Z 1000000000)%Q as Hps by (by apply quotient_pos).
  apply (near_div _ (inject_Z total)) in Ns; [|q_bounds|by apply Qlt_le_weak|by eapply value_pos|done].
  pose proof (near_trans ulp (2 * ulp) _ _ _ ltac:(q_bounds) ltac:(q_bounds) (quotient_pos _ _ Hpt Hps) Np Ns) as N1.
  apply (near_scale _ _ _ (/ inject_Z 1000000)) in N1; [|done].
  assert (inject_Z total / (inject_Z nanoseconds / inject_Z 1000000000) * / inject_Z 1000000 ==
    inject_Z total * 1000 / inject_Z nanoseconds)%Q as E.
  { field. intros E. rewrite E in Hpn. by apply Qlt_irrefl in Hpn. }
  rewrite E in N1.
  assert (0 < inject_Z total * 1000 / inject_Z nanoseconds)%Q as Hpos by (apply quotient_pos; [lra|done]).
  pose proof (near_trans ulp (ulp + 2 * ulp + ulp * (2 * ulp)) _ _ _ ltac:(q_bounds) ltac:(q_bounds) Hpos Nv N1) as N2.
  refine (near_weaken _ _ _ _ _ _ N2); [q_bounds|]. by apply Qlt_le_weak.
Qed.

End rates.

(** C33: The rates: for a positive time and number of messages below 2^53 both are
    right up to a relative error of 2^-49.  Nothing is undefined for
    other inputs either: no message gives an infinite time per message and
    the rate zero, no time the other way round, and neither of them NaN. *)
Theorem rates_printed nanoseconds total :
  0 < nanoseconds < 2 ^ 53 → 0 < total < 2 ^ 53 →
  near tolerance (value (ns_per_message (seconds nanoseconds) total)) (inject_Z nanoseconds / inject_Z total) ∧
  near tolerance (value (million_messages_per_second (seconds nanoseconds) total))
    (inject_Z total * 1000 / inject_Z nanoseconds) ∧
  ns_per_message (seconds nanoseconds) 0 = S754_infinity false ∧
  million_messages_per_second (seconds nanoseconds) 0 = S754_zero false ∧
  ns_per_message (seconds 0) total = S754_zero false ∧
  million_messages_per_second (seconds 0) total = S754_infinity false ∧
  ns_per_message (seconds 0) 0 = S754_nan ∧ million_messages_per_second (seconds 0) 0 = S754_nan.
Proof.
  intros Hns Ht. split; [by apply ns_per_message_near|]. split; [by apply million_messages_near|].
  destruct (seconds_near nanoseconds Hns) as (m & e & Hs & He & _). pose proof Hs as [Es _].
  destruct (double_of_near 1000000000) as (mg & eg & Hg & Heg & _); [done|].
  destruct (mul_near _ _ _ _ _ _ Hs Hg ltac:(lia)) as (mp & ep & [Ep _] & _).
  destruct (double_of_near total Ht) as (mt & et & [Et _] & _).
  unfold ns_per_message, million_messages_per_second. rewrite Ep, Es, Et. split_and!; reflexivity.
Qed.

(** A second for 20 million messages: 50 ns each, 20 million per second. *)
Lemma rates_printed_witness :
  near tolerance (value (ns_per_message (seconds 1000000000) 20000000)) 50 ∧
  near tolerance (value (million_messages_per_second (seconds 1000000000) 20000000)) 20.
Proof.
  destruct (rates_printed 1000000000 20000000) as (H1 & H2 & _).
  - split; reflexivity.
  - split; reflexivity.
  - split.
    + rewrite <- (eq_refl : (inject_Z 1000000000 / inject_Z 20000000 == 50)%Q). exact H1.
    + rewrite <- (eq_refl : (inject_Z 20000000 * 1000 / inject_Z 1000000000 == 20)%Q). exact H2.
Defined.
