(* ===== verification/EngineMessages.v ===== *)
(** * Messages between the gateway and the matching engine

    Models [core/order_entry/include/lltg/order_entry/engine_messages.hpp].
    The enumerations are never read from the wire, so they have their
    enumerators only. *)

From S2P Require Import Prelude Protocol.

Module SessionToken.

Record t : Set := mk { slot : Z; generation : Z }.

Definition default : t := mk 0 0.

#[global] Instance t_eq_dec : EqDecision t.
Proof. solve_decision. Defined.

Definition ok (tok : t) : Prop := is_u32 (slot tok) ∧ is_u32 (generation tok).

End SessionToken.

Module EngineCommandType.

Inductive t : Set := NewLimit | Cancel | Modify | SessionClosed | Shutdown.

#[global] Instance t_eq_dec : EqDecision t.
Proof. solve_decision. Defined.

End EngineCommandType.

Module EngineCommand.

Record t : Set := mk {
  request_sequence : Z;
  client_order_id : Z;
  price : Z;
  quantity : Z;
  side : Side.t;
  session : SessionToken.t;
  type : EngineCommandType.t
}.

(** [EngineCommand cmd{};] *)
Definition default : t :=
  mk 0 0 0 0 Side.Buy SessionToken.default EngineCommandType.NewLimit.

#[global] Instance t_eq_dec : EqDecision t.
Proof. solve_decision. Defined.

#[global] Instance t_inhabited : Inhabited t := populate default.

End EngineCommand.

Module EngineResponseType.

Inductive t : Set := Accepted | Rejected | Cancelled | Modified | Trade.

#[global] Instance t_eq_dec : EqDecision t.
Proof. solve_decision. Defined.

End EngineResponseType.

Module EngineResponse.

Record t : Set := mk {
  client_order_id : Z;
  price : Z;
  quantity : Z;
  reject_reason : RejectReason.t;
  session : SessionToken.t;
  type : EngineResponseType.t
}.

(** [EngineResponse rsp{};] *)
Definition default : t :=
  mk 0 0 0 RejectReason.None SessionToken.default EngineResponseType.Rejected.

#[global] Instance t_eq_dec : EqDecision t.
Proof. solve_decision. Defined.

#[global] Instance t_inhabited : Inhabited t := populate default.

End EngineResponse.
