(* ===== verification/Matching.v ===== *)
(** * The matching thread

    Models [matching_thread] and [encode_response] of
    [core/order_entry/examples/epoll_server.cpp]: the engine behind the
    gateway, which acknowledges every order command, and the frames its
    responses become.  The queues are known by their interface only. *)

From S2P Require Import Prelude Protocol Codec Wire EngineMessages Queue.

(** The response to a command; [None] where the switch continues. *)
Definition respond (cmd : EngineCommand.t) : option EngineResponse.t :=
  let rsp ty := EngineResponse.mk (EngineCommand.client_order_id cmd)
                  (EngineResponse.price EngineResponse.default)
                  (EngineResponse.quantity EngineResponse.default)
                  (EngineResponse.reject_reason EngineResponse.default)
                  (EngineCommand.session cmd) ty in
  match EngineCommand.type cmd with
  | EngineCommandType.NewLimit => Some (rsp EngineResponseType.Accepted)
  | EngineCommandType.Cancel => Some (rsp EngineResponseType.Cancelled)
  | EngineCommandType.Modify => Some (rsp EngineResponseType.Modified)
  | EngineCommandType.SessionClosed => None
  | EngineCommandType.Shutdown => None
  end.

(** The kernel's eventfd, of which the code uses that a write makes it
    readable until the next read. *)
Class EventFd (E : Type) := {
  ev_init : E;            (** [eventfd(0, EFD_NONBLOCK)] *)
  ev_signal : E → E;      (** [write(fd, &one, 8)] *)
  ev_clear : E → E;       (** [read(fd, &val, 8)] *)
  ev_ready : E → bool     (** whether [epoll_wait] reports it *)
}.

Class EventFdLaws (E : Type) `{!EventFd E} : Prop := {
  ev_ready_signal e : ev_ready (ev_signal e) = true;
  ev_ready_clear e : ev_ready (ev_clear e) = false
}.

(** The documented counter: a non-blocking write that would overflow fails
    and leaves it. *)
#[export] Instance counter_eventfd : EventFd N := {|
  ev_init := 0%N;
  ev_signal n := if decide (n < 2 ^ 64 - 2)%N then (n + 1)%N else n;
  ev_clear _ := 0%N;
  ev_ready n := bool_decide (n ≠ 0)%N
|}.

#[export] Instance counter_eventfd_laws : EventFdLaws N.
Proof.
  split; intros n; simpl; [|done]. apply bool_decide_eq_true_2. case_decide as Hn; [lia|].
  intros ->. apply Hn. done.
Qed.

Section thread.
Context {CQ RQ E : Type}.
Context `{!BoundedQueue CQ EngineCommand.t, !BoundedQueue RQ EngineResponse.t, !EventFd E}.

(** Where the thread is: before the loop's condition, with a response to
    push, or about to write the eventfd. *)
Inductive engine_pc : Type := Polling | Pushing (rsp : EngineResponse.t) | Notifying | Stopped.

(** One step, each with at most one access to shared state.  The result of
    [rsp_q.push] is ignored, as in the code.  The write to the eventfd is a
    signal to the thread that reads it: what the queue holds by then was
    pushed before. *)
Definition engine_step (running : bool) (pc : engine_pc) (cmd_q : CQ) (rsp_q : RQ) (notify : E)
    : option (engine_pc * CQ * RQ * E) :=
  match pc with
  | Polling =>
      if negb running then Some (Stopped, cmd_q, rsp_q, notify)
      else
        '(popped, cmd, cmd_q) ← q_pop EngineCommand.default cmd_q;
        if negb popped then Some (Polling, cmd_q, rsp_q, notify)
        else if decide (EngineCommand.type cmd = EngineCommandType.Shutdown)
        then Some (Stopped, cmd_q, rsp_q, notify)
        else match respond cmd with
        | None => Some (Polling, cmd_q, rsp_q, notify)
        | Some rsp => Some (Pushing rsp, cmd_q, rsp_q, notify)
        end
  | Pushing rsp =>
      '(_, rsp_q) ← q_push rsp rsp_q;
      Some (Notifying, cmd_q, rsp_q, notify)
  | Notifying => Some (Polling, cmd_q, q_signal rsp_q, ev_signal notify)
  | Stopped => Some (Stopped, cmd_q, rsp_q, notify)
  end.

End thread.

(** ** Response frames *)

Definition encode_response (rsp : EngineResponse.t) (out : list Z) : option (list Z) :=
  let h := MessageHeader.set_payload_length (Z.of_nat kPayloadSize) MessageHeader.default in
  let id := EngineResponse.client_order_id rsp in
  match EngineResponse.type rsp with
  | EngineResponseType.Accepted =>
      snd <$> encode_accepted h (Accepted.mk id 0 0 0) out
  | EngineResponseType.Rejected =>
      snd <$> encode_rejected h (Rejected.mk id (EngineResponse.reject_reason rsp) 0 0) out
  | EngineResponseType.Cancelled =>
      snd <$> encode_cancelled h (Cancelled.mk id 0 0 0) out
  | EngineResponseType.Modified =>
      snd <$> encode_modified h (Modified.mk id 0 0 0) out
  | EngineResponseType.Trade =>
      snd <$> encode_trade h
        (Trade.mk id (Trade.order_handle Trade.default) (EngineResponse.price rsp)
           (EngineResponse.quantity rsp)) out
  end.

Definition response_type (ty : EngineResponseType.t) : MessageType.t :=
  match ty with
  | EngineResponseType.Accepted => MessageType.Accepted
  | EngineResponseType.Rejected => MessageType.Rejected
  | EngineResponseType.Cancelled => MessageType.Cancelled
  | EngineResponseType.Modified => MessageType.Modified
  | EngineResponseType.Trade => MessageType.Trade
  end.

(** The payload of a response. *)
Definition response_words (rsp : EngineResponse.t) : list Z :=
  let id := EngineResponse.client_order_id rsp in
  match EngineResponse.type rsp with
  | EngineResponseType.Rejected =>
      [id; RejectReason.to_u64 (EngineResponse.reject_reason rsp); 0; 0]
  | EngineResponseType.Trade => [id; 0; EngineResponse.price rsp; EngineResponse.quantity rsp]
  | _ => [id; 0; 0; 0]
  end.

Definition response_frame (rsp : EngineResponse.t) : list Z :=
  header_bytes (stamp (response_type (EngineResponse.type rsp)) MessageHeader.default) ++
  words (response_words rsp).

Lemma encode_response_spec rsp out :
  encode_response rsp out =
  if decide (kFrameSize ≤ length out)%nat
  then Some (response_frame rsp ++ drop kFrameSize out) else None.
Proof.
  unfold encode_response, response_frame, response_words.
  destruct (EngineResponse.type rsp).
  - exact (wire_encode_frame (M:=Accepted.t) _ _ _ eq_refl).
  - exact (wire_encode_frame (M:=Rejected.t) _ _ _ eq_refl).
  - exact (wire_encode_frame (M:=Cancelled.t) _ _ _ eq_refl).
  - exact (wire_encode_frame (M:=Modified.t) _ _ _ eq_refl).
  - exact (wire_encode_frame (M:=Trade.t) _ _ _ eq_refl).
Qed.

Lemma length_response_frame rsp : length (response_frame rsp) = kFrameSize.
Proof.
  unfold response_frame. rewrite length_app, length_header_bytes, length_words.
  unfold response_words. by destruct (EngineResponse.type rsp).
Qed.
