(* ===== verification/Gateway.v ===== *)
(** * The gateway thread

    Models the connection handling of
    [core/order_entry/examples/epoll_server.cpp]: the lambda [close_conn] and
    the bodies of the loops in [main].  The thread's state is the connection
    table, the slot table and the two queues; every system call is appended
    to a trace and answered by a kernel, a parameter that may answer by the
    whole trace.  Console output is left out. *)

From S2P Require Import Prelude Protocol Codec Wire Ring FrameParser Stream Session.
From S2P Require Import EngineMessages Queue Matching.

Definition parser_capacity : Z := 4096.
Definition kQueueCapacity : Z := 4096.
Definition kMaxSlots : Z := 1024.
Definition read_buf_size : Z := 1024.

Module Connection.

Record t : Type := mk {
  parser : FrameParser.t;
  token : SessionToken.t;
  expected_sequence : Z;
  fd : Z
}.

(** [Connection(fd, tok)] *)
Definition make (fd : Z) (tok : SessionToken.t) : t :=
  mk (FrameParser.empty parser_capacity) tok 1 fd.

Definition set_parser (p : FrameParser.t) (c : t) : t :=
  mk p (token c) (expected_sequence c) (fd c).
Definition set_expected_sequence (n : Z) (c : t) : t :=
  mk (parser c) (token c) n (fd c).

End Connection.

Module SessionSlot.

Record t : Set := mk { fd : Z; generation : Z }.

Definition default : t := mk (-1) 0.

End SessionSlot.

(** ** System calls *)

Inductive recv_result : Type :=
| RecvData (bytes : list Z)   (** at least one byte *)
| RecvEof
| RecvAgain
| RecvError.

Inductive syscall : Type :=
| Send (fd : Z) (bytes : list Z) (result : Z)
| Recv (fd : Z) (result : recv_result)
| Accept (result : Z)
| SetNonblocking (fd : Z)
| SetTcpNodelay (fd : Z)
| EpollAdd (fd : Z)
| EpollRemove (fd : Z)
| Close (fd : Z).

Record Kernel : Type := {
  k_send : list syscall → Z → list Z → Z;
  k_recv : list syscall → Z → recv_result;
  k_accept : list syscall → Z
}.

(** ** State and its monad *)

Section gateway.
Context {CQ RQ : Type}.
Context `{!BoundedQueue CQ EngineCommand.t, !BoundedQueue RQ EngineResponse.t}.
Context (os : Kernel).

Record world : Type := mkworld {
  connections : gmap Z Connection.t;
  slots : list SessionSlot.t;
  next_slot : Z;
  cmd_queue : CQ;
  rsp_queue : RQ;
  trace : list syscall
}.

Definition set_connections (c : gmap Z Connection.t) (w : world) : world :=
  mkworld c (slots w) (next_slot w) (cmd_queue w) (rsp_queue w) (trace w).
Definition set_slots (s : list SessionSlot.t) (w : world) : world :=
  mkworld (connections w) s (next_slot w) (cmd_queue w) (rsp_queue w) (trace w).
Definition set_next_slot (n : Z) (w : world) : world :=
  mkworld (connections w) (slots w) n (cmd_queue w) (rsp_queue w) (trace w).
Definition set_cmd_queue (q : CQ) (w : world) : world :=
  mkworld (connections w) (slots w) (next_slot w) q (rsp_queue w) (trace w).
Definition set_rsp_queue (q : RQ) (w : world) : world :=
  mkworld (connections w) (slots w) (next_slot w) (cmd_queue w) q (trace w).
Definition emit (s : syscall) (w : world) : world :=
  mkworld (connections w) (slots w) (next_slot w) (cmd_queue w) (rsp_queue w) (trace w ++ [s]).

(** Choosing what the next loads of the queues return. *)
Definition look (ns : list nat * list nat) (w : world) : world :=
  set_rsp_queue (q_look ns.2 (rsp_queue w)) (set_cmd_queue (q_look ns.1 (cmd_queue w)) w).

(** [connections], [slots{}], [next_slot] and the queues when the loop starts. *)
Definition initial_world : world :=
  mkworld ∅ (replicate (Z.to_nat kMaxSlots) SessionSlot.default) 0 q_empty q_empty [].

(** [None] is undefined behaviour. *)
Definition gw (A : Type) : Type := world → option (A * world).

#[global] Instance gw_ret : MRet gw := λ A a w, Some (a, w).
#[global] Instance gw_bind : MBind gw := λ A B f m w, '(a, w) ← m w; f a w.

Definition gets {A} (f : world → A) : gw A := λ w, Some (f w, w).
Definition modify (f : world → world) : gw unit := λ w, Some (tt, f w).
Definition undefined {A} : gw A := λ _, None.
Definition lift {A} (m : option A) : gw A := λ w, a ← m; Some (a, w).

Definition send (fd : Z) (bytes : list Z) : gw Z := λ w,
  let r := k_send os (trace w) fd bytes in Some (r, emit (Send fd bytes r) w).
Definition recv (fd : Z) : gw recv_result := λ w,
  let r := k_recv os (trace w) fd in Some (r, emit (Recv fd r) w).
Definition accept : gw Z := λ w,
  let r := k_accept os (trace w) in Some (r, emit (Accept r) w).

Definition push_command (cmd : EngineCommand.t) : gw bool := λ w,
  '(ok, q) ← q_push cmd (cmd_queue w); Some (ok, set_cmd_queue q w).
Definition pop_response (out : EngineResponse.t) : gw (bool * EngineResponse.t) := λ w,
  '(ok, rsp, q) ← q_pop out (rsp_queue w); Some ((ok, rsp), set_rsp_queue q w).

(** [slots[i]], undefined outside the array. *)
Definition get_slot (i : Z) : gw SessionSlot.t :=
  ss ← gets slots; if decide (0 ≤ i) then lift (ss !! Z.to_nat i) else undefined.
Definition put_slot (i : Z) (s : SessionSlot.t) : gw unit :=
  ss ← gets slots;
  if decide (0 ≤ i) then ss ← lift (put ss (Z.to_nat i) s); modify (set_slots ss) else undefined.

(** A reference to the value of a key, undefined once it is erased. *)
Definition get_connection (fd : Z) : gw Connection.t :=
  conns ← gets connections; lift (conns !! fd).
Definition put_connection (fd : Z) (c : Connection.t) : gw unit :=
  conns ← gets connections; modify (set_connections (<[fd := c]> conns)).

(** ** [close_conn] *)

Definition set_tcp_nodelay (fd : Z) : gw unit := modify (emit (SetTcpNodelay fd)).
Definition epoll_remove (fd : Z) : gw unit := modify (emit (EpollRemove fd)).

Definition close_conn (fd : Z) : gw unit :=
  conns ← gets connections;
  (match conns !! fd with
   | Some conn =>
       let tok := Connection.token conn in
       slot ← get_slot (SessionToken.slot tok);
       put_slot (SessionToken.slot tok) (SessionSlot.mk (-1) (SessionSlot.generation slot));;
       push_command (EngineCommand.mk 0 0 0 0 Side.Buy tok EngineCommandType.SessionClosed);;
       modify (set_connections (delete fd conns))
   | None => mret tt
   end);;
  epoll_remove fd;;
  modify (emit (Close fd)).

(** ** 5a. Responses from the matching engine

    The body of [while (rsp_queue.pop(rsp))]; true when the loop goes on. *)

Definition drain_body : gw bool :=
  '(popped, rsp) ← pop_response EngineResponse.default;
  if negb popped then mret false
  else
    slot ← get_slot (SessionToken.slot (EngineResponse.session rsp));
    if decide (SessionSlot.generation slot ≠ SessionToken.generation (EngineResponse.session rsp) ∨
               SessionSlot.fd slot < 0)
    then mret true
    else
      frame ← lift (encode_response rsp (replicate kFrameSize 0));
      sent ← send (SessionSlot.fd slot) frame;
      (if decide (sent ≠ Z.of_nat (length frame)) then close_conn (SessionSlot.fd slot) else mret tt);;
      mret true.

(** ** 5b. New connections

    The body of the accept loop; true when it goes on. *)

Definition accept_body : gw bool :=
  client_fd ← accept;
  if decide (client_fd < 0) then mret false
  else
    modify (emit (SetNonblocking client_fd));;
    set_tcp_nodelay client_fd;;
    modify (emit (EpollAdd client_fd));;
    next ← gets next_slot;
    let s := next `mod` kMaxSlots in
    modify (set_next_slot (next +₃₂ 1));;
    slot ← get_slot s;
    put_slot s (SessionSlot.mk (SessionSlot.fd slot) (SessionSlot.generation slot +₃₂ 1));;
    slot ← get_slot s;
    put_slot s (SessionSlot.mk client_fd (SessionSlot.generation slot));;
    slot ← get_slot s;
    let tok := SessionToken.mk s (SessionSlot.generation slot) in
    conns ← gets connections;
    (match conns !! client_fd with
     | None => put_connection client_fd (Connection.make client_fd tok)
     | Some _ => mret tt   (* [emplace] keeps the value of an existing key *)
     end);;
    mret true.

(** ** 5c. Client data

    From the test of [EPOLLIN] to the parse loop; true when it is entered. *)

Definition receive (fd : Z) (readable : bool) : gw bool :=
  if negb readable then mret false
  else
    conns ← gets connections;
    match conns !! fd with
    | None => mret false
    | Some _ =>
        r ← recv fd;
        match r with
        | RecvEof => close_conn fd;; mret false
        | RecvAgain => mret false
        | RecvError => close_conn fd;; mret false
        | RecvData bytes =>
            conn ← get_connection fd;
            '(fits, p) ← lift (FrameParser.append parser_capacity (Connection.parser conn) bytes);
            put_connection fd (Connection.set_parser p conn);;
            if negb fits then close_conn fd;; mret false else mret true
        end
    end.

(** The command for an order message. *)
Definition command_of (tok : SessionToken.t) (msg : DecodedMessage.t) : EngineCommand.t :=
  let seq := MessageHeader.sequence_number (DecodedMessage.header msg) in
  match DecodedMessage.type msg with
  | MessageType.NewOrder =>
      let o := DecodedMessage.new_order msg in
      EngineCommand.mk seq (NewOrder.client_order_id o) (NewOrder.price o) (NewOrder.quantity o)
        (NewOrder.side o) tok EngineCommandType.NewLimit
  | MessageType.CancelOrder =>
      EngineCommand.mk seq (CancelOrder.client_order_id (DecodedMessage.cancel_order msg)) 0 0
        Side.Buy tok EngineCommandType.Cancel
  | MessageType.ModifyOrder =>
      let o := DecodedMessage.modify_order msg in
      EngineCommand.mk seq (ModifyOrder.client_order_id o) (ModifyOrder.new_price o)
        (ModifyOrder.new_quantity o) Side.Buy tok EngineCommandType.Modify
  | _ => EngineCommand.mk seq 0 0 0 Side.Buy tok EngineCommandType.NewLimit
  end.

(** The frame of an accepted control message. *)
Definition send_accepted (fd : Z) (rh : MessageHeader.t) : gw unit :=
  frame ← lift (snd <$> encode_accepted rh Accepted.default (replicate kFrameSize 0));
  send fd frame;;
  mret tt.

(** The body of the parse loop with the flag [should_close] of the iteration
    before; the flag afterwards and whether the loop goes on. *)
Definition parse_body (fd : Z) (should_close : bool) : gw (bool * bool) :=
  conn ← get_connection fd;
  '(status, p, msg) ← lift (FrameParser.try_parse parser_capacity (Connection.parser conn)
                              DecodedMessage.default);
  put_connection fd (Connection.set_parser p conn);;
  if decide (status = FrameParser.Status.NeedMoreData) then mret (should_close, false)
  else if decide (status = FrameParser.Status.ProtocolError) then mret (true, false)
  else
    conn ← get_connection fd;
    let header := DecodedMessage.header msg in
    if decide (MessageHeader.sequence_number header ≠ Connection.expected_sequence conn) then
      let rh := MessageHeader.set_session_id (SessionToken.slot (Connection.token conn)) header in
      let rej := Rejected.mk (Rejected.client_order_id Rejected.default) RejectReason.BadSequence
                   (Rejected.reserved1 Rejected.default) (Rejected.reserved2 Rejected.default) in
      frame ← lift (snd <$> encode_rejected rh rej (replicate kFrameSize 0));
      send fd frame;;
      mret (should_close, true)
    else
      put_connection fd
        (Connection.set_expected_sequence (Connection.expected_sequence conn +₆₄ 1) conn);;
      if decide (DecodedMessage.type msg = MessageType.Logout) then
        send_accepted fd header;;
        mret (true, false)
      else if decide (DecodedMessage.type msg = MessageType.Heartbeat) then
        send_accepted fd header;;
        mret (should_close, true)
      else
        push_command (command_of (Connection.token conn) msg);;
        (if should_close : bool then close_conn fd else mret tt);;
        mret (should_close, true).

(** The loops, with fuel; [None] also when it runs out. *)
Fixpoint parse_loop (fuel : nat) (fd : Z) (should_close : bool) : gw bool :=
  match fuel with
  | O => undefined
  | S fuel =>
      '(should_close, go) ← parse_body fd should_close;
      if go : bool then parse_loop fuel fd should_close else mret should_close
  end.

(** The event of one readable client. *)
Definition client_event (fd : Z) (readable : bool) : gw unit :=
  go ← receive fd readable;
  if go : bool then parse_loop (drain_fuel parser_capacity) fd false;; mret tt else mret tt.

(** ** Shutdown *)

(** [for (auto& [fd, _] : connections) ::close(fd);]: the keys of the table
    in an order of the table's own. *)
Definition close_all : gw unit :=
  conns ← gets connections;
  foldr (λ fd rest, modify (emit (Close fd));; rest) (mret tt) (map_to_list conns).*1.

End gateway.
