(* ===== verification/GatewayInvariant.v ===== *)
(** * The gateway's invariant

    Every body of [Gateway] is free of undefined behaviour and keeps the
    tables consistent: a slot with a live descriptor belongs to the connection
    that holds its token.  Each lemma says that a body is defined on every
    state that satisfies the invariant, what it does there, and that the
    invariant holds again. *)

From S2P Require Import Prelude Protocol Codec Wire Ring FrameParser Stream Session.
From S2P Require Import EngineMessages Queue Matching Gateway.

#[export] Instance parser_capacity_ok : FrameCapacity parser_capacity := capacity_4096.

(** Descriptors accepted and not closed. *)
Definition open_step (fds : gset Z) (s : syscall) : gset Z :=
  match s with
  | Accept r => if decide (r < 0) then fds else {[r]} ∪ fds
  | Close fd => fds ∖ {[fd]}
  | _ => fds
  end.

Definition open_fds (tr : list syscall) : gset Z := foldl open_step ∅ tr.

(** The descriptors returned by [accept], in order. *)
Definition accepted_fds (tr : list syscall) : list Z :=
  omap (λ s, match s with Accept r => if decide (r < 0) then None else Some r | _ => None end) tr.

(** The token of the [k]-th accepted connection, counted from 0: slots go
    round robin, and the generation of a slot counts its uses. *)
Definition token_of (k : Z) : SessionToken.t :=
  SessionToken.mk (k `mod` kMaxSlots) (u32 (k / kMaxSlots + 1)).

(** How often slot [s] was used by the first [n] connections. *)
Definition slot_uses (n s : Z) : Z := (n + (kMaxSlots - 1 - s)) / kMaxSlots.

Definition last_accept (tr : list syscall) (fd : Z) (k : nat) : Prop :=
  accepted_fds tr !! k = Some fd ∧ ∀ k', (k < k')%nat → accepted_fds tr !! k' ≠ Some fd.

(** What the code relies on: [accept] returns a descriptor that is not in use,
    and [recv] returns bytes, at least one and at most the buffer's size. *)
Record kernel_ok (os : Kernel) : Prop := {
  accept_fresh tr : k_accept os tr < 0 ∨ k_accept os tr ∉ open_fds tr;
  recv_bounded tr fd bytes : k_recv os tr fd = RecvData bytes →
    Forall is_u8 bytes ∧ 0 < Z.of_nat (length bytes) ≤ read_buf_size
}.

(** A token's slot is in the array. *)
Definition token_ok (tok : SessionToken.t) : Prop :=
  0 ≤ SessionToken.slot tok < kMaxSlots.

Section invariant.
Context {CQ RQ : Type}.
Context `{!BoundedQueue CQ EngineCommand.t, !BoundedQueue RQ EngineResponse.t}.
Context `{!BoundedQueueLaws CQ EngineCommand.t, !BoundedQueueLaws RQ EngineResponse.t}.
Context (os : Kernel) (Hos : kernel_ok os).
Abbreviation world := (world (CQ:=CQ) (RQ:=RQ)).
Abbreviation gw := (gw (CQ:=CQ) (RQ:=RQ)).
Implicit Types (w : world).

Definition connection_ok (fd : Z) (conn : Connection.t) : Prop :=
  0 ≤ fd ∧ Connection.fd conn = fd ∧ token_ok (Connection.token conn) ∧
  parser_ok parser_capacity (Connection.parser conn) ∧ is_u64 (Connection.expected_sequence conn).

(** A live slot belongs to the connection with its token. *)
Definition slot_ok (conns : gmap Z Connection.t) (s : nat) (slot : SessionSlot.t) : Prop :=
  is_u32 (SessionSlot.generation slot) ∧
  (0 ≤ SessionSlot.fd slot → ∃ conn, conns !! SessionSlot.fd slot = Some conn ∧
     Connection.token conn = SessionToken.mk (Z.of_nat s) (SessionSlot.generation slot)).

Record gw_ok (w : world) : Prop := {
  ok_slots_length : Z.of_nat (length (slots w)) = kMaxSlots;
  ok_next_slot : next_slot w = u32 (Z.of_nat (length (accepted_fds (trace w))));
  ok_slots s slot : slots w !! s = Some slot → slot_ok (connections w) s slot;
  ok_connections : map_Forall connection_ok (connections w);
  ok_open : dom (connections w) = open_fds (trace w);
  ok_cmd_queue : q_ok (cmd_queue w);
  ok_rsp_queue : q_ok (rsp_queue w);
  ok_cmd_tokens : Forall (λ cmd, token_ok (EngineCommand.session cmd)) (q_items (cmd_queue w));
  ok_rsp_tokens : Forall (λ rsp, token_ok (EngineResponse.session rsp)) (q_items (rsp_queue w));
  ok_generations s slot : slots w !! s = Some slot →
    SessionSlot.generation slot =
    u32 (slot_uses (Z.of_nat (length (accepted_fds (trace w)))) (Z.of_nat s));
  ok_tokens fd conn : connections w !! fd = Some conn →
    ∃ k, last_accept (trace w) fd k ∧ Connection.token conn = token_of (Z.of_nat k);
  ok_first_uses fd conn : connections w !! fd = Some conn →
    Z.of_nat (length (accepted_fds (trace w))) ≤ kMaxSlots →
    slots w !! Z.to_nat (SessionToken.slot (Connection.token conn)) =
    Some (SessionSlot.mk fd (SessionToken.generation (Connection.token conn)))
}.

(** A step of a run. *)
Lemma bind_eq {A B} (m : gw A) (f : A → gw B) w a w' r :
  m w = Some (a, w') → f a w' = r → (m ≫= f) w = r.
Proof. intros E H. unfold mbind, gw_bind. rewrite E. exact H. Qed.

(** ** Slots *)

Lemma slot_lookup w s :
  gw_ok w → 0 ≤ s < kMaxSlots → ∃ slot, slots w !! Z.to_nat s = Some slot ∧ get_slot s w = Some (slot, w).
Proof.
  intros Hw Hs. pose proof (ok_slots_length _ Hw) as Hl.
  destruct (lookup_lt_is_Some_2 (slots w) (Z.to_nat s)) as [slot E]; [lia|].
  exists slot. split; [done|]. unfold get_slot, gets, mbind, gw_bind. cbn [mbind option_bind].
  rewrite decide_True by lia. unfold lift. by rewrite E.
Qed.

Lemma slot_update w s slot :
  Z.of_nat (length (slots w)) = kMaxSlots → 0 ≤ s < kMaxSlots →
  put_slot s slot w = Some (tt, set_slots (<[Z.to_nat s := slot]> (slots w)) w).
Proof.
  intros Hl Hs. unfold put_slot, gets, mbind, gw_bind. cbn [mbind option_bind].
  rewrite decide_True by lia. unfold lift. rewrite put_Some by lia. done.
Qed.

(** ** Queue operations *)

Lemma push_result_Forall {Q T} `{!BoundedQueue Q T} (P : T → Prop) x b (q q' : Q) :
  push_result x b q q' → P x → Forall P (q_items q) → Forall P (q_items q').
Proof. intros [_ -> _ _ _ _] Hx Hf. apply Forall_app. split; [done|]. destruct b; auto. Qed.

Lemma push_command_ok w cmd :
  gw_ok w → token_ok (EngineCommand.session cmd) →
  ∃ b q, push_command cmd w = Some (b, set_cmd_queue q w) ∧ gw_ok (set_cmd_queue q w) ∧
    push_result cmd b (cmd_queue w) q.
Proof.
  intros Hw Ht. destruct (q_push_spec (cmd_queue w) cmd (ok_cmd_queue _ Hw)) as (b & q & E & Hq).
  exists b, q. unfold push_command. rewrite E. split; [done|]. split; [|done].
  pose proof (push_result_Forall (λ cmd, token_ok (EngineCommand.session cmd)) _ _ _ _ Hq Ht (ok_cmd_tokens _ Hw)).
  apply push_ok in Hq. destruct Hw. by split.
Qed.

Lemma pop_response_ok w out :
  gw_ok w →
  ∃ b rsp q, pop_response out w = Some ((b, rsp), set_rsp_queue q w) ∧ gw_ok (set_rsp_queue q w) ∧
    pop_result out b rsp (rsp_queue w) q ∧ (b = true → token_ok (EngineResponse.session rsp)) ∧
    q_pop out (rsp_queue w) = Some (b, rsp, q).
Proof.
  intros Hw. destruct (q_pop_spec (rsp_queue w) out (ok_rsp_queue _ Hw)) as (b & rsp & q & E & Hq).
  exists b, rsp, q. unfold pop_response. rewrite E. split; [done|].
  pose proof (ok_rsp_tokens _ Hw) as Hf. rewrite (pop_items _ _ _ _ _ Hq) in Hf. apply Forall_app in Hf as [Hrsp Hf].
  pose proof (pop_ok _ _ _ _ _ Hq).
  split; [destruct Hw; by split|]. split_and!; [done| |done]. intros ->. exact (Forall_inv Hrsp).
Qed.

Lemma look_ok ns w : gw_ok w → gw_ok (look ns w).
Proof.
  intros Hw. pose proof (q_look_spec ns.1 _ (ok_cmd_queue _ Hw)) as [Hc Hci _ _ _].
  pose proof (q_look_spec ns.2 _ (ok_rsp_queue _ Hw)) as [Hr Hri _ _ _].
  destruct Hw. split; try done; simpl; by rewrite ?Hci, ?Hri.
Qed.

(** A system call that is no successful [accept]. *)
Definition no_accept (sc : syscall) : Prop := accepted_fds [sc] = [].

Lemma accepted_fds_snoc tr sc : no_accept sc → accepted_fds (tr ++ [sc]) = accepted_fds tr.
Proof. unfold no_accept, accepted_fds. intros E. by rewrite omap_app, E, app_nil_r. Qed.

Lemma emit_ok w sc :
  gw_ok w → open_step (open_fds (trace w)) sc = open_fds (trace w) → no_accept sc →
  gw_ok (emit sc w).
Proof.
  intros Hw E Ha. destruct Hw. split; try done; simpl.
  - by rewrite accepted_fds_snoc.
  - unfold open_fds. rewrite foldl_snoc. fold (open_fds (trace w)). by rewrite E.
  - by rewrite accepted_fds_snoc.
  - unfold last_accept. by rewrite accepted_fds_snoc.
  - by rewrite accepted_fds_snoc.
Qed.

Lemma list_alter_insert {A} (f : A → A) (l : list A) (i : nat) x :
  l !! i = Some x → alter f i l = <[i := f x]> l.
Proof.
  intros Hx. pose proof (lookup_lt_Some _ _ _ Hx). apply list_eq. intros j.
  destruct (decide (j = i)) as [->|Hne].
  - by rewrite list_lookup_alter_eq, list_lookup_insert_eq, Hx.
  - by rewrite list_lookup_alter_ne, list_lookup_insert_ne by done.
Qed.

(** ** [close_conn] *)

(** What the matching engine is told. *)
Definition session_closed (tok : SessionToken.t) : EngineCommand.t :=
  EngineCommand.mk 0 0 0 0 Side.Buy tok EngineCommandType.SessionClosed.

(** The commands and the slots when the connection of [fd] closes. *)
Definition closing (w : world) (fd : Z) : list EngineCommand.t :=
  match connections w !! fd with
  | Some conn => [session_closed (Connection.token conn)]
  | None => []
  end.

(** [cmds] were pushed, and found room if there was any. *)
Definition submits (cmds : list EngineCommand.t) (w w' : world) : Prop :=
  ∃ new, pushes_result cmds new (cmd_queue w) (cmd_queue w').

Lemma submits_nothing w w' : gw_ok w → cmd_queue w' = cmd_queue w → submits [] w w'.
Proof. intros Hw E. exists []. rewrite E. apply pushes_nil, Hw. Qed.

Definition closed_slots (w : world) (fd : Z) : list SessionSlot.t :=
  match connections w !! fd with
  | Some conn =>
      alter (λ slot, SessionSlot.mk (-1) (SessionSlot.generation slot))
        (Z.to_nat (SessionToken.slot (Connection.token conn))) (slots w)
  | None => slots w
  end.

(** The state after the descriptor left the kernel and the table. *)
Definition erased (w : world) (fd : Z) : world :=
  emit (Close fd) (emit (EpollRemove fd) (set_connections (delete fd (connections w)) w)).

(** Two connections on the same slot have different indices. *)
Lemma same_slot w fd fd' conn conn' :
  gw_ok w → connections w !! fd = Some conn → connections w !! fd' = Some conn' →
  Z.of_nat (length (accepted_fds (trace w))) ≤ kMaxSlots →
  SessionToken.slot (Connection.token conn) = SessionToken.slot (Connection.token conn') → fd = fd'.
Proof.
  intros Hw Hc Hc' Hl. destruct (ok_tokens _ Hw _ _ Hc) as (k & [Hk _] & ->).
  destruct (ok_tokens _ Hw _ _ Hc') as (k' & [Hk' _] & ->). simpl.
  pose proof (lookup_lt_Some _ _ _ Hk). pose proof (lookup_lt_Some _ _ _ Hk').
  rewrite !Z.mod_small by lia. intros ->%(inj Z.of_nat). congruence.
Qed.

Lemma erase_ok w fd :
  gw_ok w → gw_ok (erased (set_slots (closed_slots w fd) w) fd).
Proof.
  intros Hw. pose proof Hw as [H1 H2 H3 H4 H5 H6 H7 H8 H9 H10 H11 H12].
  assert (∀ s sl, closed_slots w fd !! s = Some sl → ∃ sl', slots w !! s = Some sl' ∧
    SessionSlot.generation sl = SessionSlot.generation sl' ∧
    (0 ≤ SessionSlot.fd sl → sl = sl' ∧ (∀ conn, connections w !! fd = Some conn →
       Z.to_nat (SessionToken.slot (Connection.token conn)) ≠ s))) as Hslots.
  { intros s sl. unfold closed_slots. destruct (connections w !! fd) as [conn|]; [|eauto 10].
    destruct (decide (s = Z.to_nat (SessionToken.slot (Connection.token conn)))) as [->|Hne].
    - rewrite list_lookup_alter_eq. intros (sl' & -> & ->)%fmap_Some. exists sl'. simpl.
      split_and!; [done|done|lia].
    - rewrite list_lookup_alter_ne by done. intros Hs. exists sl. split_and!; [done|done|].
      intros _. split; [done|]. intros c [= <-] E. by rewrite <- E in Hne. }
  split; try done; simpl; rewrite ?accepted_fds_snoc by done; try done.
  - rewrite <- H1. f_equal. unfold closed_slots. destruct (connections w !! fd); [|done].
    by rewrite length_alter.
  - intros s sl Hs. destruct (Hslots s sl Hs) as (sl' & Hs' & Hg & Heq).
    destruct (H3 s sl' Hs') as [Hgen Hc]. split; [by rewrite Hg|]. intros Hf.
    destruct (Heq Hf) as [-> Hne]. destruct (Hc Hf) as (c & Hlook & Hctok). exists c. split; [|done].
    rewrite lookup_delete_ne; [done|]. intros E. rewrite <- E in Hlook.
    apply (Hne c Hlook). rewrite Hctok. apply Nat2Z.id.
  - by apply map_Forall_delete.
  - unfold open_fds in *. rewrite !foldl_snoc. simpl. by rewrite <- H5, dom_delete_L.
  - intros s sl Hs. destruct (Hslots s sl Hs) as (sl' & Hs' & -> & _). by apply H10.
  - intros fd' conn [_ Hc]%lookup_delete_Some. unfold last_accept.
    rewrite !accepted_fds_snoc by done. by apply H11.
  - intros fd' conn [Hne Hc]%lookup_delete_Some Hl. specialize (H12 fd' conn Hc Hl).
    unfold closed_slots. destruct (connections w !! fd) as [conn0|] eqn:Hc0; [|done].
    rewrite list_lookup_alter_ne; [done|]. intros E. apply Hne.
    apply (same_slot w fd fd' conn0 conn); try done.
    destruct (H4 fd conn0 Hc0) as (_ & _ & Ht0 & _). destruct (H4 fd' conn Hc) as (_ & _ & Ht & _).
    unfold token_ok in *. lia.
Qed.

Lemma close_conn_ok w fd :
  gw_ok w → ∃ w', close_conn fd w = Some (tt, w') ∧ gw_ok w' ∧
    connections w' = delete fd (connections w) ∧ rsp_queue w' = rsp_queue w ∧
    trace w' = trace w ++ [EpollRemove fd; Close fd] ∧
    submits (closing w fd) w w' ∧ slots w' = closed_slots w fd.
Proof.
  intros Hw. pose proof (erase_ok w fd Hw) as Herased.
  unfold close_conn, closing, closed_slots in *.
  destruct (connections w !! fd) as [conn|] eqn:Hfd.
  - destruct (ok_connections _ Hw fd conn Hfd) as (_ & _ & Htok & _).
    set (tok := Connection.token conn) in *.
    destruct (slot_lookup w (SessionToken.slot tok) Hw Htok) as (slot & Hslot & Hget).
    destruct (push_command_ok w (session_closed tok) Hw Htok) as (b & q & Hpush & Hw2 & Hitems).
    pose proof (erase_ok (set_cmd_queue q w) fd Hw2) as Hw3. unfold closed_slots in Hw3.
    cbn [connections slots set_cmd_queue] in Hw3. rewrite Hfd in Hw3. fold tok in Hw3.
    rewrite (list_alter_insert _ _ _ slot Hslot) in *.
    eexists. split; [|split; [exact Hw3|split; [done|split; [done|split; [|split]]]]].
    + apply (bind_eq _ _ _ _ _ _ eq_refl). cbv beta. rewrite Hfd. fold tok.
      eapply bind_eq; [eapply bind_eq; [exact Hget|]|done].
      eapply bind_eq; [apply slot_update; [apply Hw|done]|].
      unfold push_command in Hpush. cbn [mbind option_bind] in Hpush.
      destruct (q_push (session_closed tok) (cmd_queue w)) as [[b' q']|] eqn:E; [|done].
      injection Hpush as -> ->. eapply bind_eq; [|reflexivity].
      unfold push_command. cbn [cmd_queue set_slots]. fold (session_closed tok). by rewrite E.
    + simpl. by rewrite <- app_assoc.
    + eexists. by apply pushes_one.
    + done.
  - exists (erased w fd). split_and!; try done; [| |by apply submits_nothing].
    + apply (bind_eq _ _ _ _ _ _ eq_refl). cbv beta. rewrite Hfd. unfold erased.
      rewrite delete_id by done. by destruct w.
    + simpl. by rewrite <- app_assoc.
Qed.

(** ** Responses *)

Lemma emit_send_ok w fd bytes r : gw_ok w → gw_ok (emit (Send fd bytes r) w).
Proof. intros Hw. by apply emit_ok. Qed.

(** What one turn of the response loop does with the oldest response. *)
Definition drained (w w' : world) (rsp : EngineResponse.t) : Prop :=
  let tok := EngineResponse.session rsp in
  (∃ slot, slots w !! Z.to_nat (SessionToken.slot tok) = Some slot ∧
     (SessionSlot.generation slot ≠ SessionToken.generation tok ∨ SessionSlot.fd slot < 0) ∧
     connections w' = connections w ∧ trace w' = trace w ∧ submits [] w w') ∨
  (∃ fd conn r, r = k_send os (trace w) fd (response_frame rsp) ∧
     connections w !! fd = Some conn ∧ Connection.token conn = tok ∧
     if decide (r = Z.of_nat kFrameSize)
     then connections w' = connections w ∧ trace w' = trace w ++ [Send fd (response_frame rsp) r] ∧
          submits [] w w'
     else connections w' = delete fd (connections w) ∧
          trace w' = trace w ++ [Send fd (response_frame rsp) r; EpollRemove fd; Close fd] ∧
          submits (closing w fd) w w').

(** The turn takes a response unless the pop is refused. *)
Lemma drain_body_ok w :
  gw_ok w → ∃ b rsp w', drain_body os w = Some (b, w') ∧ gw_ok w' ∧
    pop_result EngineResponse.default b rsp (rsp_queue w) (rsp_queue w') ∧
    q_pop EngineResponse.default (rsp_queue w) = Some (b, rsp, rsp_queue w') ∧
    if b then drained w w' rsp
    else connections w' = connections w ∧ trace w' = trace w ∧ cmd_queue w' = cmd_queue w.
Proof.
  intros Hw. unfold drain_body.
  destruct (pop_response_ok w EngineResponse.default Hw) as (b & x & q & Hpop & Hw1 & Hres & Htok & Eq).
  destruct b.
  2: { exists false, x, (set_rsp_queue q w). split; [by eapply bind_eq|]. by split_and!. }
  specialize (Htok eq_refl). set (w1 := set_rsp_queue q w) in *.
  destruct (slot_lookup w1 _ Hw1 Htok) as (slot & Hslot & Hget).
  destruct (decide (SessionSlot.generation slot ≠ SessionToken.generation (EngineResponse.session x) ∨
                    SessionSlot.fd slot < 0)) as [Hdead|Hlive] eqn:Hd.
  { exists true, x, w1. split; [|split; [done|]].
    - eapply bind_eq; [exact Hpop|]. cbn [negb]. eapply bind_eq; [exact Hget|]. by rewrite Hd.
    - split_and!; [done|done|]. left. exists slot. split_and!; try done. by apply submits_nothing. }
  assert (SessionSlot.generation slot = SessionToken.generation (EngineResponse.session x) ∧
          0 ≤ SessionSlot.fd slot) as [Hgen Hfd]
    by (split; [destruct (decide (SessionSlot.generation slot =
      SessionToken.generation (EngineResponse.session x))); [done|by destruct Hlive; left]|lia]).
  destruct (ok_slots _ Hw1 _ _ Hslot) as [_ Hconn]. destruct (Hconn Hfd) as (conn & Hc & Hct).
  set (r := k_send os (trace w1) (SessionSlot.fd slot) (response_frame x)).
  set (w2 := emit (Send (SessionSlot.fd slot) (response_frame x) r) w1).
  assert (gw_ok w2) as Hw2 by by apply emit_send_ok.
  assert (Connection.token conn = EngineResponse.session x) as Htc.
  { rewrite Hct, Hgen, Z2Nat.id by apply Htok. by destruct (EngineResponse.session x). }
  assert (∀ res, (sent ← send os (SessionSlot.fd slot) (response_frame x);
      (if decide (sent ≠ Z.of_nat (length (response_frame x))) then close_conn (SessionSlot.fd slot)
       else mret tt);; mret true) w1 = res → drain_body os w = res) as Hrun.
  { intros res Hres'. eapply bind_eq; [exact Hpop|]. cbn [negb]. eapply bind_eq; [exact Hget|].
    rewrite Hd. eapply bind_eq; [|exact Hres']. unfold lift. rewrite encode_response_spec.
    rewrite decide_True by (by rewrite length_replicate).
    rewrite drop_ge by (by rewrite length_replicate). by rewrite app_nil_r. }
  rewrite length_response_frame in Hrun.
  destruct (decide (r = Z.of_nat kFrameSize)) as [Hr|Hr].
  - exists true, x, w2. split; [|split; [done|split_and!; [done|done|right]]].
    + apply Hrun. eapply bind_eq; [reflexivity|]. fold r. by rewrite decide_False by auto.
    + exists (SessionSlot.fd slot), conn, r. rewrite decide_True by done.
      split_and!; try done. by apply submits_nothing.
  - destruct (close_conn_ok w2 (SessionSlot.fd slot) Hw2) as (w' & Hclose & Hw' & Hcs & Hrq & Htr & Hcmd & _).
    exists true, x, w'. split; [|split; [done|rewrite Hrq; split_and!; [done|done|right]]].
    + apply Hrun. eapply bind_eq; [reflexivity|]. fold r. rewrite decide_True by done.
      by eapply bind_eq.
    + exists (SessionSlot.fd slot), conn, r. rewrite decide_False by done. split_and!; try done.
      rewrite Htr. simpl. by rewrite <- app_assoc.
Qed.

(** ** New connections *)

(** The token of the next connection. *)
Definition next_token (w : world) : SessionToken.t :=
  let s := next_slot w `mod` kMaxSlots in
  SessionToken.mk s
    (default 0 (SessionSlot.generation <$> slots w !! Z.to_nat s) +₃₂ 1).

(** The state after a connection got descriptor [fd]. *)
Definition accepted (w : world) (fd : Z) : world :=
  let tok := next_token w in
  mkworld (<[fd := Connection.make fd tok]> (connections w))
    (<[Z.to_nat (SessionToken.slot tok) := SessionSlot.mk fd (SessionToken.generation tok)]> (slots w))
    (next_slot w +₃₂ 1) (cmd_queue w) (rsp_queue w)
    (trace w ++ [Accept fd; SetNonblocking fd; SetTcpNodelay fd; EpollAdd fd]).

Lemma connection_ok_make fd tok : 0 ≤ fd → token_ok tok → connection_ok fd (Connection.make fd tok).
Proof. intros Hfd Htok. do 3 (split; [done|]). split; [|done].
  apply (parser_ok_empty (Capacity:=parser_capacity)). Qed.

Lemma next_token_ok w : gw_ok w → token_ok (next_token w).
Proof. intros _. by apply Z.mod_pos_bound. Qed.

Lemma accepted_fds_app tr tr' : accepted_fds (tr ++ tr') = accepted_fds tr ++ accepted_fds tr'.
Proof. apply omap_app. Qed.

(** Using a slot once more. *)
Lemma slot_uses_step n s :
  0 ≤ n → 0 ≤ s < kMaxSlots →
  slot_uses (n + 1) s = if decide (n `mod` kMaxSlots = s) then slot_uses n s + 1 else slot_uses n s.
Proof.
  intros Hn Hs. unfold slot_uses, kMaxSlots in *. case_decide; Z.div_mod_to_equations; lia.
Qed.

Lemma next_slot_index w :
  gw_ok w → next_slot w `mod` kMaxSlots = Z.of_nat (length (accepted_fds (trace w))) `mod` kMaxSlots.
Proof.
  intros Hw. rewrite (ok_next_slot _ Hw). unfold wrap. apply Z.mod_mod_divide. by exists (2 ^ 22).
Qed.

(** The next token is the one of the next connection. *)
Lemma next_token_eq w :
  gw_ok w → next_token w = token_of (Z.of_nat (length (accepted_fds (trace w)))).
Proof.
  intros Hw. unfold next_token, token_of. rewrite (next_slot_index w Hw). f_equal.
  set (n := Z.of_nat _). pose proof (Z.mod_pos_bound n kMaxSlots eq_refl) as Hs.
  pose proof (ok_slots_length _ Hw).
  destruct (lookup_lt_is_Some_2 (slots w) (Z.to_nat (n `mod` kMaxSlots))) as [slot Hslot]; [lia|].
  rewrite Hslot. simpl. rewrite (ok_generations _ Hw _ _ Hslot). fold n.
  rewrite Z2Nat.id by lia. unfold wrap. rewrite Zplus_mod_idemp_l. f_equal. f_equal.
  unfold slot_uses, kMaxSlots in *. Z.div_mod_to_equations; lia.
Qed.

Lemma accepted_ok w fd :
  gw_ok w → 0 ≤ fd → connections w !! fd = None → gw_ok (accepted w fd).
Proof.
  intros Hw Hfd Hnew. pose proof (next_token_ok w Hw) as Htok. pose proof (next_token_eq w Hw) as Heq.
  set (n := length (accepted_fds (trace w))) in *.
  assert (accepted_fds (trace (accepted w fd)) = accepted_fds (trace w) ++ [fd]) as Hacc.
  { simpl. rewrite accepted_fds_app. simpl. by rewrite decide_False by lia. }
  assert (Z.of_nat (length (accepted_fds (trace (accepted w fd)))) = Z.of_nat n + 1) as Hlen.
  { rewrite Hacc, length_app. simpl. fold n. lia. }
  pose proof Hw as [H1 H2 H3 H4 H5 H6 H7 H8 H9 H10 H11 H12]. split; try done.
  - simpl. by rewrite length_insert.
  - rewrite Hlen. simpl. rewrite H2. fold n. unfold wrap. by rewrite Zplus_mod_idemp_l.
  - intros s sl [(<- & <- & _)|[_ Hs]]%list_lookup_insert_Some.
    + split; [by apply uint_wrap|]. intros _. exists (Connection.make fd (next_token w)).
      split; [apply lookup_insert_eq|]. cbn. rewrite Z2Nat.id by apply Htok. reflexivity.
    + destruct (H3 s sl Hs) as [Hg Hc]. split; [done|]. intros Hf.
      destruct (Hc Hf) as (c & Hlook & Ht). exists c. split; [|done]. simpl.
      rewrite lookup_insert_ne; [done|]. intros E. by rewrite E, Hlook in Hnew.
  - apply map_Forall_insert_2; [|done]. by apply connection_ok_make.
  - simpl. unfold open_fds in *. rewrite foldl_app. simpl. rewrite decide_False by lia.
    by rewrite dom_insert_L, H5.
  - rewrite Hlen. intros s sl Hs. pose proof (lookup_lt_Some _ _ _ Hs) as Hlt. simpl in Hlt.
    rewrite length_insert in Hlt. rewrite slot_uses_step by lia.
    apply list_lookup_insert_Some in Hs as [(<- & <- & _)|[Hne Hs]]; cbn [SessionSlot.generation].
    + rewrite Z2Nat.id by apply Htok. rewrite Heq. cbn [token_of SessionToken.slot SessionToken.generation].
      rewrite decide_True by done. do 2 f_equal.
      unfold slot_uses, kMaxSlots. Z.div_mod_to_equations; lia.
    + rewrite decide_False; [by apply H10|]. intros E. apply Hne. rewrite Heq.
      cbn [token_of SessionToken.slot]. rewrite E. lia.
  - unfold last_accept. rewrite Hacc. intros fd' conn. simpl. intros [[<- <-]|[Hne Hc]]%lookup_insert_Some.
    + exists n. split; [|by rewrite Heq]. split.
      * rewrite lookup_app_r by done. by rewrite Nat.sub_diag.
      * intros k' Hk. rewrite lookup_ge_None_2; [done|]. rewrite length_app. simpl. fold n. lia.
    + destruct (H11 fd' conn Hc) as (k & [Hk Hlast] & Ht). exists k. split; [|done].
      split; [by apply lookup_app_l_Some|]. intros k' Hk'.
      destruct (decide (k' < n)%nat); [rewrite lookup_app_l by done; auto|].
      rewrite lookup_app_r by (unfold n in *; lia). fold n.
      destruct (k' - n)%nat; simpl; [congruence|by rewrite lookup_nil].
  - rewrite Hlen. cbn [accepted connections slots]. cbv zeta. intros fd' conn [[<- <-]|[Hne Hc]]%lookup_insert_Some Hl; cbn [Connection.token Connection.make].
    + rewrite list_lookup_insert_eq; [done|]. destruct Htok. lia.
    + rewrite list_lookup_insert_ne; [apply H12; [done|lia]|].
      destruct (H11 fd' conn Hc) as (k & [Hk _] & ->). apply lookup_lt_Some in Hk.
      rewrite Heq. cbn [token_of SessionToken.slot]. rewrite !Z.mod_small by lia. lia.
Qed.

Lemma accept_body_ok w :
  gw_ok w → ∃ b w', accept_body os w = Some (b, w') ∧ gw_ok w' ∧
    if decide (k_accept os (trace w) < 0)
    then b = false ∧ w' = emit (Accept (k_accept os (trace w))) w
    else b = true ∧ w' = accepted w (k_accept os (trace w)).
Proof using Hos.
  intros Hw. unfold accept_body. set (fd := k_accept os (trace w)).
  destruct (decide (fd < 0)) as [Hneg|Hpos] eqn:Hd.
  { exists false, (emit (Accept fd) w). split_and!; [| |done|done].
    - eapply bind_eq; [reflexivity|]. fold fd. by rewrite Hd.
    - apply emit_ok; [done|..]; [|unfold no_accept]; simpl; by rewrite decide_True. }
  assert (connections w !! fd = None) as Hnew.
  { apply not_elem_of_dom. rewrite (ok_open _ Hw).
    destruct (accept_fresh _ Hos (trace w)) as [?|?]; [lia|done]. }
  exists true, (accepted w fd). split_and!; [|apply accepted_ok; [done|lia|done]|done|done].
  eapply bind_eq; [reflexivity|]. fold fd. rewrite Hd. cbv zeta.
  do 3 (eapply bind_eq; [reflexivity|]).
  eapply bind_eq; [reflexivity|]. eapply bind_eq; [reflexivity|]. cbn [next_slot emit].
  set (s := next_slot w `mod` kMaxSlots).
  set (w0 := set_next_slot _ _).
  assert (0 ≤ s < kMaxSlots) as Hs by by apply Z.mod_pos_bound.
  pose proof (ok_slots_length _ Hw) as Hl.
  destruct (lookup_lt_is_Some_2 (slots w) (Z.to_nat s)) as [slot Hslot]; [lia|].
  assert (∀ w' sl, slots w' !! Z.to_nat s = Some sl → get_slot s w' = Some (sl, w')) as Hget.
  { intros w' sl E. unfold get_slot, gets, mbind, gw_bind. cbn [mbind option_bind].
    rewrite decide_True by lia. unfold lift. by rewrite E. }
  eapply bind_eq; [apply Hget; exact Hslot|].
  eapply bind_eq; [by apply slot_update|].
  eapply bind_eq; [apply Hget; simpl; apply list_lookup_insert_eq; lia|].
  eapply bind_eq; [apply slot_update; [simpl; by rewrite length_insert|done]|].
  eapply bind_eq; [apply Hget; simpl; apply list_lookup_insert_eq; rewrite length_insert; lia|].
  eapply bind_eq; [reflexivity|]. cbn [connections set_slots set_next_slot emit].
  replace (connections w0) with (connections w) by done. rewrite Hnew.
  eapply bind_eq; [reflexivity|]. unfold mret, gw_ret. do 2 f_equal.
  unfold accepted, next_token. fold s. rewrite Hslot. simpl.
  rewrite list_insert_insert_eq. unfold set_connections, set_slots, w0. simpl. by rewrite <- !app_assoc.
Qed.

(** ** Start and end *)

Lemma initial_world_ok : gw_ok initial_world.
Proof using BoundedQueueLaws0 BoundedQueueLaws1.
  split; try done.
  - intros s slot [-> Hs]%lookup_replicate_1. split; [done|]. simpl. lia.
  - apply q_empty_ok.
  - apply q_empty_ok.
  - simpl. by rewrite q_empty_items.
  - simpl. by rewrite q_empty_items.
  - intros s slot [-> Hs]%lookup_replicate_1. simpl. unfold slot_uses.
    rewrite Z.div_small; [done|]. unfold kMaxSlots in *. lia.
Qed.

Lemma close_all_run (fds : list Z) w :
  foldr (λ fd (rest : gw unit), modify (emit (Close fd));; rest) (mret tt) fds w =
  Some (tt, mkworld (connections w) (slots w) (next_slot w) (cmd_queue w) (rsp_queue w)
                    (trace w ++ (Close <$> fds))).
Proof.
  revert w. induction fds as [|fd fds IH]; intros w; simpl.
  - rewrite app_nil_r. by destruct w.
  - eapply bind_eq; [reflexivity|]. rewrite IH. simpl. by rewrite <- app_assoc.
Qed.

Lemma foldl_close fds (fs : gset Z) :
  foldl open_step fs (Close <$> fds) = fs ∖ list_to_set fds.
Proof.
  revert fs. induction fds as [|fd fds IH]; intros fs; simpl; [by rewrite difference_empty_L|].
  by rewrite IH, difference_difference_l_L.
Qed.

Lemma close_all_ok w :
  gw_ok w → ∃ w', close_all w = Some (tt, w') ∧ open_fds (trace w') = ∅ ∧
    ∃ fds, NoDup fds ∧ list_to_set fds = open_fds (trace w) ∧
      trace w' = trace w ++ (Close <$> fds).
Proof.
  intros Hw. eexists. split; [|split].
  - eapply bind_eq; [reflexivity|]. apply close_all_run.
  - simpl. unfold open_fds. rewrite foldl_app, foldl_close.
    rewrite <- (ok_open _ Hw : dom _ = foldl _ _ _).
    apply leibniz_equiv. rewrite dom_alt. by rewrite difference_diag.
  - eexists. split; [|split; [|done]]; [apply NoDup_fst_map_to_list|].
    rewrite <- (ok_open _ Hw). apply leibniz_equiv. by rewrite dom_alt.
Qed.

End invariant.
