(* ===== verification/GatewayRequests.v ===== *)
(** * Client requests at the gateway

    What [Gateway.parse_loop] and [Gateway.client_event] do with the bytes of
    a client: a specification over the messages of the byte stream, and the
    proof that the loops compute it within their fuel. *)

From S2P Require Import Prelude Protocol Codec Wire Ring FrameParser Stream Session.
From S2P Require Import EngineMessages Queue Matching Gateway GatewayInvariant.

(** ** Specification *)

Inductive action : Type :=
| Reply (frame : list Z)              (** sent to the client at once *)
| Submit (cmd : EngineCommand.t).     (** pushed to the matching engine *)

Definition control_frame (h : MessageHeader.t) : list Z :=
  header_bytes (stamp MessageType.Accepted h) ++ words [0; 0; 0; 0].

Definition bad_sequence_frame (tok : SessionToken.t) (h : MessageHeader.t) : list Z :=
  header_bytes (stamp MessageType.Rejected
    (MessageHeader.set_session_id (SessionToken.slot tok) h)) ++
  words [0; RejectReason.to_u64 RejectReason.BadSequence; 0; 0].

(** The action for one message, the next sequence number and whether the
    message ends the loop. *)
Definition answer (tok : SessionToken.t) (n : Z) (msg : DecodedMessage.t) : action * Z * bool :=
  let h := DecodedMessage.header msg in
  if decide (MessageHeader.sequence_number h = n) then
    match DecodedMessage.type msg with
    | MessageType.Logout => (Reply (control_frame h), n +₆₄ 1, true)
    | MessageType.Heartbeat => (Reply (control_frame h), n +₆₄ 1, false)
    | _ => (Submit (command_of tok msg), n +₆₄ 1, false)
    end
  else (Reply (bad_sequence_frame tok h), n, false).

(** The actions for a run of messages, the next sequence number, how many
    messages were taken and whether the last one was a logout. *)
Fixpoint serve_requests (tok : SessionToken.t) (n : Z) (msgs : list DecodedMessage.t)
    : list action * Z * nat * bool :=
  match msgs with
  | [] => ([], n, 0%nat, false)
  | msg :: msgs =>
      let '(a, n, logout) := answer tok n msg in
      if logout : bool then ([a], n, 1%nat, true) else
      let '(actions, n, k, logout) := serve_requests tok n msgs in
      (a :: actions, n, S k, logout)
  end.

(** A command that does not find room is dropped. *)
Section perform.
Context {CQ RQ : Type}.
Context `{!BoundedQueue CQ EngineCommand.t, !BoundedQueue RQ EngineResponse.t}.
Context (os : Kernel).
Abbreviation world := (world (CQ:=CQ) (RQ:=RQ)).

Definition perform (fd : Z) (w : world) (a : action) : world :=
  match a with
  | Reply frame => emit (Send fd frame (k_send os (trace w) fd frame)) w
  | Submit cmd =>
      match q_push cmd (cmd_queue w) with
      | Some (_, q) => set_cmd_queue q w
      | None => w
      end
  end.

Definition replies (actions : list action) : list (list Z) :=
  omap (λ a, match a with Reply f => Some f | Submit _ => None end) actions.
Definition commands (actions : list action) : list EngineCommand.t :=
  omap (λ a, match a with Submit c => Some c | Reply _ => None end) actions.

End perform.

(** ** Frames *)

(** Encoding into a fresh frame. *)
Lemma wire_encode_fresh {M} `{!WireMessage M, !WireLaws M} h (m : M) :
  msg_arity (M:=M) = 4%nat →
  snd <$> msg_encode h m (replicate kFrameSize 0) =
  Some (header_bytes (stamp (msg_type (M:=M)) h) ++ words (msg_words m)).
Proof.
  intros Har. rewrite wire_encode_frame by done.
  rewrite decide_True by (by rewrite length_replicate).
  by rewrite drop_ge, app_nil_r by (by rewrite length_replicate).
Qed.

Lemma encode_control_frame h :
  snd <$> encode_accepted h Accepted.default (replicate kFrameSize 0) = Some (control_frame h).
Proof. exact (wire_encode_fresh (M:=Accepted.t) _ _ eq_refl). Qed.

Lemma encode_bad_sequence_frame tok h :
  snd <$> encode_rejected (MessageHeader.set_session_id (SessionToken.slot tok) h)
    (Rejected.mk (Rejected.client_order_id Rejected.default) RejectReason.BadSequence
       (Rejected.reserved1 Rejected.default) (Rejected.reserved2 Rejected.default))
    (replicate kFrameSize 0) = Some (bad_sequence_frame tok h).
Proof. exact (wire_encode_fresh (M:=Rejected.t) _ _ eq_refl). Qed.

(** ** The parse loop *)

Section requests.
Context {CQ RQ : Type}.
Context `{!BoundedQueue CQ EngineCommand.t, !BoundedQueue RQ EngineResponse.t}.
Context `{!BoundedQueueLaws CQ EngineCommand.t, !BoundedQueueLaws RQ EngineResponse.t}.
Context (os : Kernel).
Abbreviation world := (world (CQ:=CQ) (RQ:=RQ)).
Implicit Types (w : world).

Lemma perform_set_connections fd a conns w :
  perform os fd (set_connections conns w) a = set_connections conns (perform os fd w a).
Proof. destruct a as [f|cmd]; [done|]. simpl. by destruct (q_push cmd (cmd_queue w)) as [[b q]|]. Qed.

Lemma performs_set_connections fd actions conns w :
  foldl (perform os fd) (set_connections conns w) actions =
  set_connections conns (foldl (perform os fd) w actions).
Proof.
  revert w. induction actions as [|a actions IH]; intros w; [done|]. simpl.
  by rewrite perform_set_connections, IH.
Qed.

Lemma set_connections_id w : set_connections (connections w) w = w.
Proof. by destruct w. Qed.

Lemma connections_perform fd a w : connections (perform os fd w a) = connections w.
Proof. destruct a as [f|cmd]; [done|]. simpl. by destruct (q_push cmd (cmd_queue w)) as [[b q]|]. Qed.

Lemma perform_cmd_ok fd a w : q_ok (cmd_queue w) → q_ok (cmd_queue (perform os fd w a)).
Proof using BoundedQueueLaws0.
  intros Hq. destruct a as [f|cmd]; [done|]. simpl.
  destruct (q_push_spec (cmd_queue w) cmd Hq) as (b & q & -> & Hres). by apply push_ok in Hres.
Qed.

Lemma put_connection_eq fd c w :
  put_connection fd c w = Some (tt, set_connections (<[fd := c]> (connections w)) w).
Proof. done. Qed.

Lemma get_connection_eq fd c w :
  connections w !! fd = Some c → get_connection fd w = Some (c, w).
Proof. intros E. unfold get_connection, gets, mbind, gw_bind, lift. cbn [mbind option_bind]. by rewrite E. Qed.

(** One turn of the loop with no message to take. *)
Lemma parse_body_done fd w conn st sc :
  connections w !! fd = Some conn →
  FrameParser.try_parse parser_capacity (Connection.parser conn) DecodedMessage.default =
    Some st →
  st.1.1 ≠ FrameParser.Status.MessageReady → st.1.1 ≠ FrameParser.Status.BufferFull →
  st.1.2 = Connection.parser conn →
  parse_body os fd sc w =
  Some (((if decide (st.1.1 = FrameParser.Status.ProtocolError) then true else sc), false), w).
Proof.
  intros Hc Hp Hst Hst' Heq. destruct st as [[st p] msg]. simpl in *. subst p. unfold parse_body.
  eapply bind_eq; [by apply get_connection_eq|].
  eapply bind_eq; [unfold lift; by rewrite Hp|]. cbv beta iota.
  assert (Connection.set_parser (Connection.parser conn) conn = conn) as -> by by destruct conn.
  eapply bind_eq; [apply put_connection_eq|]. rewrite insert_id, set_connections_id by done.
  by destruct st.
Qed.

(** One turn with a message. *)
Lemma parse_body_message fd w conn p msg :
  connections w !! fd = Some conn → q_ok (cmd_queue w) →
  FrameParser.try_parse parser_capacity (Connection.parser conn) DecodedMessage.default =
    Some (FrameParser.Status.MessageReady, p, msg) →
  parse_body os fd false w =
  (let '(a, n, logout) := answer (Connection.token conn) (Connection.expected_sequence conn) msg in
   Some ((logout, negb logout), set_connections
     (<[fd := Connection.mk p (Connection.token conn) n (Connection.fd conn)]> (connections w))
     (perform os fd w a))).
Proof using BoundedQueueLaws0.
  intros Hc Hq Hp. unfold parse_body, answer.
  eapply bind_eq; [by apply get_connection_eq|].
  eapply bind_eq; [unfold lift; by rewrite Hp|]. cbv beta iota.
  eapply bind_eq; [apply put_connection_eq|]. rewrite !decide_False by done.
  eapply bind_eq; [apply get_connection_eq, lookup_insert_eq|]. cbv zeta.
  change (Connection.expected_sequence (Connection.set_parser p conn)) with
    (Connection.expected_sequence conn).
  change (Connection.token (Connection.set_parser p conn)) with (Connection.token conn).
  destruct (decide (MessageHeader.sequence_number (DecodedMessage.header msg) =
                    Connection.expected_sequence conn)) as [Hs|Hs].
  2: { rewrite decide_True by done.
       eapply bind_eq; [unfold lift; by rewrite encode_bad_sequence_frame|].
       eapply bind_eq; [reflexivity|]. done. }
  rewrite decide_False by auto.
  eapply bind_eq; [apply put_connection_eq|]. cbn [connections set_connections].
  rewrite insert_insert_eq.
  assert (∀ b, (send_accepted os fd (DecodedMessage.header msg);; mret b)
    (set_connections (<[fd := Connection.set_expected_sequence (Connection.expected_sequence conn +₆₄ 1)
       (Connection.set_parser p conn)]> (connections w)) w) =
    Some (b : bool * bool, set_connections (<[fd := Connection.set_expected_sequence
      (Connection.expected_sequence conn +₆₄ 1) (Connection.set_parser p conn)]> (connections w))
      (perform os fd w (Reply (control_frame (DecodedMessage.header msg)))))) as Hsend.
  { intros b. eapply bind_eq; [|reflexivity]. unfold send_accepted.
    eapply bind_eq; [unfold lift; by rewrite encode_control_frame|].
    by eapply bind_eq. }
  destruct (q_push_spec (cmd_queue w) (command_of (Connection.token conn) msg) Hq)
    as (b & q & Hpush & _).
  assert (∀ (r : bool * bool) (w' : gmap Z Connection.t), (push_command (command_of (Connection.token conn) msg);; mret tt;; mret r)
    (set_connections w' w) = Some (r, set_connections w'
      (perform os fd w (Submit (command_of (Connection.token conn) msg))))) as Hcmd.
  { intros r w'. eapply bind_eq; [unfold push_command; cbn [cmd_queue set_connections];
      rewrite Hpush; reflexivity|]. simpl. rewrite Hpush. done. }
  destruct (DecodedMessage.type msg) eqn:Ht; first
    [ rewrite decide_True by done; apply Hsend
    | rewrite decide_False by done; rewrite decide_True by done; apply Hsend
    | rewrite !decide_False by done; apply Hcmd ].
Qed.

(** The loop takes the messages of the buffered bytes up to the first logout,
    and performs their actions in order. *)
Lemma parse_loop_spec fuel fd w conn msgs st rest :
  connections w !! fd = Some conn → q_ok (cmd_queue w) →
  parser_ok parser_capacity (Connection.parser conn) →
  decode_stream (contents parser_capacity (Connection.parser conn)) = (msgs, st, rest) →
  (length msgs < fuel)%nat →
  let '(actions, n, k, logout) :=
    serve_requests (Connection.token conn) (Connection.expected_sequence conn) msgs in
  ∃ p, parse_loop os fuel fd false w =
      Some (logout || bool_decide (st = FrameParser.Status.ProtocolError),
        set_connections
          (<[fd := Connection.mk p (Connection.token conn) n (Connection.fd conn)]> (connections w))
          (foldl (perform os fd) w actions)) ∧
    parser_ok parser_capacity p ∧
    contents parser_capacity p =
      drop (k * kFrameSize) (contents parser_capacity (Connection.parser conn)).
Proof using BoundedQueueLaws0.
  revert fuel w conn. induction msgs as [|msg msgs IH]; intros fuel w conn Hc Hq Hp Hd Hfuel;
    (destruct fuel as [|fuel]; [simpl in Hfuel; lia|]); cbn [serve_requests].
  all: destruct (try_parse_refines (Connection.parser conn) DecodedMessage.default Hp)
    as (st' & p & out & Htry & Hp' & Hspec & Hsame).
  all: rewrite decode_stream_unfold in Hd; unfold spec_try_parse in Hspec.
  - exists (Connection.parser conn). split; [|done].
    assert (Connection.mk (Connection.parser conn) (Connection.token conn)
      (Connection.expected_sequence conn) (Connection.fd conn) = conn) as -> by by destruct conn.
    rewrite insert_id, set_connections_id by done. cbn [parse_loop foldl].
    assert (st' = st ∧ st' ≠ FrameParser.Status.MessageReady ∧
            st' ≠ FrameParser.Status.BufferFull) as (<- & Hst & Hst').
    { case_decide; [by simplify_eq|]. destruct (parse_frame _ _); [|by simplify_eq].
      by destruct (decode_stream (drop _ _)) as [[??]?]. }
    eapply bind_eq.
    { eapply (parse_body_done fd w conn _ false Hc Htry); simpl; auto. }
    by destruct st'.
  - case_decide as Hlen; [done|].
    destruct (parse_frame _ _) as [msg'|]; [|done].
    destruct (decode_stream (drop kFrameSize _)) as [[msgs' st''] rest'] eqn:Hd'.
    injection Hd as -> -> -> ->. injection Hspec as -> Hcp ->.
    pose proof (parse_body_message fd w conn p msg Hc Hq Htry) as Hbody.
    destruct (answer _ _ msg) as [[a n] logout]. destruct logout.
    { exists p. rewrite Nat.mul_1_l. split_and!; [|done|done]. cbn [parse_loop].
      eapply bind_eq; [exact Hbody|done]. }
    set (conn' := Connection.mk p (Connection.token conn) n (Connection.fd conn)) in *.
    set (w' := set_connections _ _) in Hbody.
    assert (connections w' !! fd = Some conn') as Hc' by apply lookup_insert_eq.
    specialize (IH fuel w' conn' Hc' (perform_cmd_ok _ _ _ Hq) Hp').
    unfold conn' in IH. cbn [Connection.parser Connection.token Connection.expected_sequence
      Connection.fd] in IH.
    rewrite Hcp, Hd' in IH. specialize (IH eq_refl ltac:(simpl in Hfuel; lia)).
    destruct (serve_requests _ n msgs) as [[[actions n'] k] logout].
    destruct IH as (p' & Hrun & Hp'' & Hcp'). exists p'. split_and!; [|done|].
    + cbn [parse_loop]. eapply bind_eq; [exact Hbody|]. cbn [negb]. rewrite Hrun.
      unfold w'. rewrite performs_set_connections. cbn [foldl connections set_connections].
      by rewrite insert_insert_eq.
    + rewrite Hcp', drop_drop. f_equal; lia.
Qed.

(** ** Effects of the actions *)

Lemma performs_trace fd actions w :
  q_ok (cmd_queue w) →
  ∃ rs, length rs = length (replies actions) ∧
    trace (foldl (perform os fd) w actions) = trace w ++ zip_with (Send fd) (replies actions) rs.
Proof using BoundedQueueLaws0.
  revert w. induction actions as [|a actions IH]; intros w Hq.
  { exists []. split; [done|]. by rewrite app_nil_r. }
  cbn [foldl]. destruct (IH (perform os fd w a) (perform_cmd_ok _ _ _ Hq)) as (rs & Hl & ->).
  destruct a as [f|cmd].
  - exists (k_send os (trace w) fd f :: rs). simpl. split; [by rewrite Hl|].
    by rewrite <- app_assoc.
  - exists rs. split; [done|]. simpl. by destruct (q_push cmd (cmd_queue w)) as [[b q]|].
Qed.

Lemma performs_commands fd actions w :
  q_ok (cmd_queue w) → submits (commands actions) w (foldl (perform os fd) w actions).
Proof using BoundedQueueLaws0.
  revert w. induction actions as [|a actions IH]; intros w Hq; cbn [foldl].
  { exists []. by apply pushes_nil. }
  destruct (IH (perform os fd w a) (perform_cmd_ok _ _ _ Hq)) as [new Hnew].
  destruct a as [f|cmd]; [by exists new|]. simpl in *.
  destruct (q_push_spec (cmd_queue w) cmd Hq) as (b & q & Epush & Hres). rewrite Epush in *.
  eexists. by eapply pushes_cons.
Qed.

Lemma performs_rest fd actions w :
  slots (foldl (perform os fd) w actions) = slots w ∧
  rsp_queue (foldl (perform os fd) w actions) = rsp_queue w.
Proof.
  revert w. induction actions as [|a actions IH]; intros w; [done|]. cbn [foldl].
  destruct (IH (perform os fd w a)) as [-> ->].
  destruct a as [f|cmd]; [done|]. simpl. by destruct (q_push cmd (cmd_queue w)) as [[b q]|].
Qed.

(** ** The invariant *)

(** The command for a message is the connection's and no shutdown. *)
Lemma answer_commands tok n msg :
  Forall (λ cmd, EngineCommand.session cmd = tok ∧
    EngineCommand.type cmd ≠ EngineCommandType.Shutdown) (commands [(answer tok n msg).1.1]).
Proof.
  unfold answer. case_decide; [|done]. simpl. unfold command_of.
  destruct (DecodedMessage.type msg); simpl; auto.
Qed.

Lemma serve_requests_commands tok n msgs :
  Forall (λ cmd, EngineCommand.session cmd = tok) (commands (serve_requests tok n msgs).1.1.1).
Proof.
  revert n. induction msgs as [|msg msgs IH]; intros n; [done|]. simpl.
  pose proof (answer_commands tok n msg) as Ha.
  destruct (answer tok n msg) as [[a n'] logout]. specialize (IH n').
  assert (Forall (λ cmd, EngineCommand.session cmd = tok) (commands [a])) as Hc
    by (eapply Forall_impl; [exact Ha|]; by intros ? []).
  destruct logout; [done|]. destruct (serve_requests tok n' msgs) as [[[actions m] k] l].
  destruct a; simpl in *; [done|]. apply Forall_cons in Hc as [? _]. auto.
Qed.

Lemma performs_ok fd tok actions w :
  gw_ok w → token_ok tok →
  Forall (λ cmd, EngineCommand.session cmd = tok) (commands actions) →
  gw_ok (foldl (perform os fd) w actions).
Proof using BoundedQueueLaws0.
  revert w. induction actions as [|a actions IH]; intros w Hw Ht Hf; [done|]. cbn [foldl].
  destruct a as [f|cmd]; [apply IH; [by apply emit_send_ok|done|done]|].
  simpl in Hf. apply Forall_cons in Hf as [Hc Hf]. apply IH; [|done|done].
  destruct (push_command_ok w cmd Hw) as (b & q & Hpush & Hw' & _); [by rewrite Hc|].
  simpl. unfold push_command in Hpush. cbn [mbind option_bind] in Hpush.
  destruct (q_push cmd (cmd_queue w)) as [[b' q']|]; [|done].
  by injection Hpush as -> ->.
Qed.

(** Any update of a connection that keeps its token. *)
Lemma put_connection_ok fd conn conn' w :
  gw_ok w → connections w !! fd = Some conn →
  Connection.token conn' = Connection.token conn → connection_ok fd conn' →
  gw_ok (set_connections (<[fd := conn']> (connections w)) w).
Proof.
  intros [H1 H2 H3 H4 H5 H6 H7 H8 H9 H10 H11 H12] Hc Ht Hok. split; try done; simpl.
  - intros s sl Hs. destruct (H3 s sl Hs) as [Hg Hl]. split; [done|]. intros Hf.
    destruct (Hl Hf) as (c & Hlook & Htok). destruct (decide (SessionSlot.fd sl = fd)) as [E|E].
    + exists conn'. rewrite E in *. simplify_eq. split; [apply lookup_insert_eq|congruence].
    + exists c. by rewrite lookup_insert_ne by done.
  - by apply map_Forall_insert_2.
  - by rewrite dom_insert_lookup_L.
  - intros fd' c [[<- <-]|[_ ?]]%lookup_insert_Some; [rewrite Ht|]; auto.
  - intros fd' c [[<- <-]|[_ ?]]%lookup_insert_Some; [rewrite Ht|]; auto.
Qed.

Lemma serve_requests_sequence tok n msgs :
  is_u64 n → is_u64 (serve_requests tok n msgs).1.1.2.
Proof.
  revert n. induction msgs as [|msg msgs IH]; intros n Hn; [done|]. simpl.
  assert (is_u64 (answer tok n msg).1.2) as Ha.
  { unfold answer. case_decide; [|done].
    destruct (DecodedMessage.type msg); by apply uint_wrap. }
  destruct (answer tok n msg) as [[a n'] logout]. destruct logout; [done|].
  specialize (IH n' Ha). by destruct (serve_requests tok n' msgs) as [[[??]?]?].
Qed.

(** ** A readable client *)

(** The bytes fitted and were served. *)
Definition served (w w' : world) (fd : Z) (conn : Connection.t) (bytes : list Z) : Prop :=
  let q := contents parser_capacity (Connection.parser conn) ++ bytes in
  let '(msgs, st, _) := decode_stream q in
  let '(actions, n, k, _) :=
    serve_requests (Connection.token conn) (Connection.expected_sequence conn) msgs in
  ∃ p rs,
    connections w' = <[fd := Connection.mk p (Connection.token conn) n fd]> (connections w) ∧
    contents parser_capacity p = drop (k * kFrameSize) q ∧
    length rs = length (replies actions) ∧
    trace w' = trace w ++ Recv fd (RecvData bytes) :: zip_with (Send fd) (replies actions) rs ∧
    submits (commands actions) w w' ∧
    slots w' = slots w ∧ rsp_queue w' = rsp_queue w.

Definition closed (w w' : world) (fd : Z) (r : recv_result) : Prop :=
  connections w' = delete fd (connections w) ∧
  trace w' = trace w ++ [Recv fd r; EpollRemove fd; Close fd] ∧
  submits (closing w fd) w w' ∧ slots w' = closed_slots w fd ∧
  rsp_queue w' = rsp_queue w.

(** What the event of a readable client does. *)
Definition client_served (w w' : world) (fd : Z) : Prop :=
  match connections w !! fd with
  | None => w' = w
  | Some conn =>
      let r := k_recv os (trace w) fd in
      match r with
      | RecvAgain => w' = emit (Recv fd r) w
      | RecvEof | RecvError => closed w w' fd r
      | RecvData bytes =>
          if decide (Z.of_nat (length (contents parser_capacity (Connection.parser conn))) +
                     Z.of_nat (length bytes) ≤ parser_capacity)
          then served w w' fd conn bytes else closed w w' fd r
      end
  end.

Context (Hos : kernel_ok os).

Lemma emit_recv_ok w fd r : gw_ok w → gw_ok (emit (Recv fd r) w).
Proof. intros Hw. by apply emit_ok. Qed.

(** The state with the bytes appended to the parser of [fd]. *)
Definition received (w : world) (fd : Z) (r : recv_result) (conn : Connection.t)
    (p : FrameParser.t) : world :=
  set_connections (<[fd := Connection.set_parser p conn]> (connections w)) (emit (Recv fd r) w).

(** Closing after the [recv], in any state that differs from the one before
    it in the connection's parser only. *)
Lemma close_received fd w r conn w2 :
  connections w !! fd = Some conn → gw_ok w2 → trace w2 = trace (emit (Recv fd r) w) →
  cmd_queue w2 = cmd_queue w → slots w2 = slots w → rsp_queue w2 = rsp_queue w →
  Connection.token <$> connections w2 !! fd = Some (Connection.token conn) →
  delete fd (connections w2) = delete fd (connections w) →
  ∃ w', (close_conn fd;; mret false) w2 = Some (false, w') ∧ gw_ok w' ∧ closed w w' fd r.
Proof using BoundedQueueLaws0.
  intros Hc Hw2 Ht Hq Hs Hrq Hct Hd.
  destruct (close_conn_ok w2 fd Hw2) as (w' & E & Hw' & Hcs & Hrq' & Htr & Hcmd & Hsl).
  exists w'. split_and!; [by eapply bind_eq|done|]. split_and!.
  - by rewrite Hcs.
  - rewrite Htr, Ht. simpl. by rewrite <- app_assoc.
  - unfold submits, closing in *. rewrite Hq in Hcmd. rewrite Hc.
    destruct (connections w2 !! fd); [|done]. injection Hct as Hct. by rewrite Hct in Hcmd.
  - rewrite Hsl. unfold closed_slots. rewrite Hs, Hc.
    destruct (connections w2 !! fd); [|done]. simpl in Hct. by injection Hct as ->.
  - congruence.
Qed.

Lemma receive_ok fd w :
  gw_ok w → ∃ b w', receive os fd true w = Some (b, w') ∧ gw_ok w' ∧
    match connections w !! fd with
    | None => b = false ∧ w' = w
    | Some conn =>
        let r := k_recv os (trace w) fd in
        let q := contents parser_capacity (Connection.parser conn) in
        match r with
        | RecvAgain => b = false ∧ w' = emit (Recv fd r) w
        | RecvEof | RecvError => b = false ∧ closed w w' fd r
        | RecvData bytes =>
            if decide (Z.of_nat (length q) + Z.of_nat (length bytes) ≤ parser_capacity)
            then b = true ∧ ∃ p, parser_ok parser_capacity p ∧
              contents parser_capacity p = q ++ bytes ∧ w' = received w fd r conn p
            else b = false ∧ closed w w' fd r
        end
    end.
Proof using BoundedQueueLaws0 Hos.
  intros Hw. unfold receive. cbn [negb].
  destruct (connections w !! fd) as [conn|] eqn:Hc.
  2: { exists false, w. split_and!; [|done..]. eapply bind_eq; [reflexivity|]. by rewrite Hc. }
  cbv zeta. set (r := k_recv os (trace w) fd). set (w1 := emit (Recv fd r) w).
  pose proof (emit_recv_ok w fd r Hw : gw_ok w1) as Hw1.
  assert (∀ f res, f r w1 = res →
    (conns ← gets connections; match conns !! fd with
       | None => mret false | Some _ => r ← recv os fd; f r end) w = res) as Hrun.
  { intros f res E. eapply bind_eq; [reflexivity|]. rewrite Hc. by eapply bind_eq. }
  pose proof (λ w2, close_received fd w r conn w2 Hc) as Hclose.
  destruct r as [bytes| | |] eqn:Hr.
  - destruct (recv_bounded _ Hos _ _ _ Hr) as [Hb Hlen].
    destruct (ok_connections _ Hw fd conn Hc) as (Hfd & Hcfd & Htok & Hp & Hn).
    destruct (append_refines (Capacity:=parser_capacity) (Connection.parser conn) bytes Hp Hb)
      as (b & p & Happ & Hp' & Hspec & _).
    set (w2 := received w fd (RecvData bytes) conn p).
    assert (gw_ok w2) as Hw2 by exact (put_connection_ok fd conn (Connection.set_parser p conn) w1 Hw1
      Hc eq_refl (conj Hfd (conj Hcfd (conj Htok (conj Hp' Hn))))).
    assert (∀ res, (if negb b then close_conn fd;; mret false else mret true) w2 = res →
      (conn ← get_connection fd;
       '(fits, p) ← lift (FrameParser.append parser_capacity (Connection.parser conn) bytes);
       put_connection fd (Connection.set_parser p conn);;
       if negb fits : bool then close_conn fd;; mret false else mret true) w1 = res) as Hrest.
    { intros res E. eapply bind_eq; [by apply get_connection_eq|].
      eapply bind_eq; [unfold lift; by rewrite Happ|]. cbv beta iota.
      by eapply bind_eq. }
    unfold spec_append in Hspec. case_decide as Hfit; injection Hspec as -> Hcont.
    + exists true, w2. split_and!; [|done|done|by exists p].
      apply Hrun. by apply Hrest.
    + destruct (Hclose w2) as (w' & E & Hw' & Hcl); try done.
      * simpl. by rewrite lookup_insert_eq.
      * simpl. by rewrite delete_insert_eq.
      * exists false, w'. split_and!; [|done|done|done]. apply Hrun. by apply Hrest.
  - destruct (Hclose w1) as (w' & E & Hw' & Hcl); try done; [exact (f_equal (fmap Connection.token) Hc)|].
    exists false, w'. split_and!; try done. by apply Hrun.
  - exists false, w1. split_and!; try done. by apply Hrun.
  - destruct (Hclose w1) as (w' & E & Hw' & Hcl); try done; [exact (f_equal (fmap Connection.token) Hc)|].
    exists false, w'. split_and!; try done. by apply Hrun.
Qed.

(** The whole event terminates, without undefined behaviour. *)
Lemma client_event_spec fd w :
  gw_ok w → ∃ w', client_event os fd true w = Some (tt, w') ∧ gw_ok w' ∧ client_served w w' fd.
Proof using BoundedQueueLaws0 Hos.
  intros Hw. destruct (receive_ok fd w Hw) as (b & w1 & Hrec & Hw1 & Hcase). unfold client_served.
  destruct (connections w !! fd) as [conn|] eqn:Hc.
  2: { destruct Hcase as [-> ->]. exists w. split; [by eapply bind_eq|done]. }
  cbv zeta in *. destruct (k_recv os (trace w) fd) as [bytes| | |] eqn:Hr.
  2-4: destruct Hcase as [-> ?]; exists w1; split; [by eapply bind_eq|done].
  case_decide as Hfit; destruct Hcase as [-> Hcase].
  2: exists w1; split; [by eapply bind_eq|done].
  destruct Hcase as (p & Hp & Hcont & ->). set (w1 := received _ _ _ _ _) in *.
  assert (connections w1 !! fd = Some (Connection.set_parser p conn)) as Hc1 by apply lookup_insert_eq.
  destruct (decode_stream (contents parser_capacity p)) as [[msgs st] rest] eqn:Hd.
  pose proof (parse_loop_spec (drain_fuel parser_capacity) fd w1 _ msgs st rest Hc1
    (ok_cmd_queue _ Hw1) Hp Hd) as Hloop.
  pose proof (stream_frames_count _ _ _ _ Hd) as Hcount.
  pose proof (drain_fuel_enough (Capacity:=parser_capacity) p Hp) as Hfuel.
  specialize (Hloop ltac:(unfold kFrameSize in Hcount; lia)). cbn [Connection.token Connection.expected_sequence Connection.fd
    Connection.parser Connection.set_parser] in Hloop. unfold served. rewrite <- Hcont, Hd.
  pose proof (serve_requests_commands (Connection.token conn) (Connection.expected_sequence conn) msgs)
    as Hcmds.
  destruct (ok_connections _ Hw fd conn Hc) as (Hfd & Hcfd & Htok & _ & Hn).
  pose proof (serve_requests_sequence (Connection.token conn) _ msgs Hn) as Hn'.
  destruct (serve_requests _ _ msgs) as [[[actions n] k] logout].
  destruct Hloop as (p' & Hrun & Hp' & Hcont'). simpl in Hcmds, Hn'.
  set (w' := set_connections _ _) in Hrun. exists w'. split; [|split].
  - eapply bind_eq; [exact Hrec|]. eapply bind_eq; [exact Hrun|]. done.
  - unfold w'. pose proof (performs_ok fd _ actions w1 Hw1 Htok Hcmds) as Hw2.
    assert (connections (foldl (perform os fd) w1 actions) = connections w1) as <-.
    { rewrite <- (set_connections_id w1) at 1. by rewrite performs_set_connections. }
    assert (connections (foldl (perform os fd) w1 actions) !! fd = Some (Connection.set_parser p conn)) as Hc2.
    { rewrite <- (set_connections_id w1) at 1. by rewrite performs_set_connections. }
    by apply (put_connection_ok fd _ _ _ Hw2 Hc2).
  - destruct (performs_trace fd actions w1 (ok_cmd_queue _ Hw1)) as (rs & Hrs & Htr).
    pose proof (performs_commands fd actions w1 (ok_cmd_queue _ Hw1)) as Hq.
    exists p', rs. split_and!; [|done|done| |exact Hq| |].
    + simpl. by rewrite insert_insert_eq, Hcfd.
    + simpl. rewrite Htr. simpl. by rewrite <- app_assoc.
    + exact (proj1 (performs_rest fd actions w1)).
    + exact (proj2 (performs_rest fd actions w1)).
Qed.

End requests.
