(* ===== verification/BenchClient.v ===== *)
(** * The round-trip benchmark client

    Models [core/order_entry/examples/epoll_bench_client.cpp]: the options,
    the order it sends and its send/receive loop over one reused frame, and
    what the gateway makes of the bytes.  The connected socket and the clock
    are parameters; [BenchProgram] has the rest of [main]. *)

From stdpp Require Import strings.
From S2P Require Import Prelude Protocol Codec Wire Ring FrameParser Stream Session.
From S2P Require Import EngineMessages Queue Matching Gateway GatewayInvariant.
From S2P Require Import GatewayRequests.

#[local] Open Scope Z_scope.

(** ** Options *)

Module Options.

Record t : Set := mk { host : string; port : Z; messages : Z; warmup : Z }.

Definition default : t := mk "127.0.0.1" 9000 100000 1000.

Definition set_host (h : string) (o : t) : t := mk h (port o) (messages o) (warmup o).
Definition set_port (n : Z) (o : t) : t := mk (host o) n (messages o) (warmup o).
Definition set_messages (n : Z) (o : t) : t := mk (host o) (port o) n (warmup o).
Definition set_warmup (n : Z) (o : t) : t := mk (host o) (port o) (messages o) n.

End Options.

Section options.
(** [std::atoi]; [None] where its behaviour is undefined. *)
Context (atoi : string → option Z).

(** The loop over [argv[1..]], two at a time; a last argument without a value
    is not looked at. *)
Fixpoint parse_pairs (args : list string) (opts : Options.t) : option Options.t :=
  match args with
  | name :: value :: args =>
      opts ←
        (if decide (name = "--host") then Some (Options.set_host value opts)
         else if decide (name = "--port") then n ← atoi value; Some (Options.set_port n opts)
         else if decide (name = "--messages") then n ← atoi value; Some (Options.set_messages n opts)
         else if decide (name = "--warmup") then n ← atoi value; Some (Options.set_warmup n opts)
         else Some opts);
      parse_pairs args opts
  | _ => Some opts
  end.

Definition parse_options (argv : list string) : option Options.t :=
  parse_pairs (tail argv) Options.default.

(** Specification: the value of the last pair with a name. *)
Fixpoint last_value (name : string) (args : list string) : option string :=
  match args with
  | name' :: value :: args =>
      match last_value name args with
      | Some v => Some v
      | None => if decide (name' = name) then Some value else None
      end
  | _ => None
  end.

Definition number (fallback : Z) (v : option string) : option Z :=
  match v with None => Some fallback | Some s => atoi s end.

Lemma parse_pairs_spec n args opts opts' :
  (length args ≤ n)%nat → parse_pairs args opts = Some opts' →
  Options.host opts' = default (Options.host opts) (last_value "--host" args) ∧
  number (Options.port opts) (last_value "--port" args) = Some (Options.port opts') ∧
  number (Options.messages opts) (last_value "--messages" args) = Some (Options.messages opts') ∧
  number (Options.warmup opts) (last_value "--warmup" args) = Some (Options.warmup opts').
Proof.
  revert args opts. induction n as [|n IH]; intros args opts Hn.
  { apply Nat.le_0_r, nil_length_inv in Hn as ->. by intros [= <-]. }
  destruct args as [|name [|value args]]; [by intros [= <-]..|]. simpl in Hn. cbn [parse_pairs].
  intros (opts1 & Hset & Hrest)%bind_Some.
  destruct (IH args opts1 ltac:(lia) Hrest) as (H1 & H2 & H3 & H4). cbn [last_value].
  destruct (decide (name = "--host")) as [->|Hh]; [|destruct (decide (name = "--port")) as [->|Hp];
    [|destruct (decide (name = "--messages")) as [->|Hm];
      [|destruct (decide (name = "--warmup")) as [->|Hw]]]].
  2-4: apply bind_Some in Hset as (v & Hv & [= <-]).
  1: injection Hset as <-.
  5: injection Hset as <-.
  all: cbn [Options.host Options.port Options.messages Options.warmup Options.set_host
    Options.set_port Options.set_messages Options.set_warmup] in *;
    revert H1 H2 H3 H4; repeat rewrite decide_True by done; repeat rewrite decide_False by done;
    repeat match goal with |- context [last_value ?x ?l] => destruct (last_value x l) end;
    intros; split_and!; cbn in *; congruence.
Qed.

End options.

(** ** Orders and the network *)

Definition encode_order (frame : list Z) (seq : Z) : option (list Z) :=
  let h := MessageHeader.set_session_id 1
             (MessageHeader.set_sequence_number seq MessageHeader.default) in
  snd <$> encode_new_order h (NewOrder.mk seq Side.Buy 10000 1) frame.

(** What the client does at its socket; [recv] reports the bytes it wrote,
    none when it fails. *)
Inductive call : Type :=
| Sent (bytes : list Z) (result : Z)
| Received (bytes : list Z).

Record Network : Type := {
  n_send : list call → list Z → Z;
  n_recv : list call → list Z;
  n_elapsed : list call → Z   (** [t1 - t0] of the round that ends with this trace *)
}.

Section client.
Context (net : Network).

(** Neither result is looked at: a short answer leaves the frame's tail. *)
Definition send_recv (frame : list Z) (tr : list call) : list Z * list call :=
  let tr := tr ++ [Sent frame (n_send net tr frame)] in
  let got := n_recv net tr in
  (got ++ drop (length got) frame, tr ++ [Received got]).

Record state : Type := mkstate { frame : list Z; seq : Z; calls : list call }.

Definition start : state := mkstate (replicate kFrameSize 0) 1 [].

(** [encode_order(frame, seq++); send_recv(fd, frame);] *)
Definition round (s : state) : option state :=
  out ← encode_order (frame s) (seq s);
  let '(frame, tr) := send_recv out (calls s) in
  Some (mkstate frame (seq s +₆₄ 1) tr).

Fixpoint warm_up (n : nat) (s : state) : option state :=
  match n with O => Some s | S n => s ← round s; warm_up n s end.

Fixpoint measure (n i : nat) (rtts : list Z) (s : state) : option (list Z * state) :=
  match n with
  | O => Some (rtts, s)
  | S n =>
      s ← round s;
      rtts ← put rtts i (n_elapsed net (calls s));
      measure n (S i) rtts s
  end.

Inductive outcome : Type :=
| LengthError (s : state)                       (** thrown by [rtts(opts.messages)] *)
| Measured (rtts : list Z) (s : state).

(** [main] between [connect] and [close].  A negative [messages] is a huge
    size once converted. *)
Definition exchange (opts : Options.t) : option outcome :=
  s ← warm_up (Z.to_nat (Options.warmup opts)) start;
  if decide (Options.messages opts < 0) then Some (LengthError s)
  else
    let n := Z.to_nat (Options.messages opts) in
    '(rtts, s) ← measure n 0 (replicate n 0) s;
    Some (Measured rtts s).

(** The bytes the network took from the client. *)
Definition wire (tr : list call) : list Z :=
  concat ((λ c, match c with Sent bytes r => take (Z.to_nat r) bytes | Received _ => [] end) <$> tr).

(** A blocking socket without errors: a send takes the whole frame and a
    receive writes at most a frame of bytes. *)
Record network_ok : Prop := {
  send_whole tr bytes : n_send net tr bytes = Z.of_nat (length bytes);
  recv_bytes tr : (length (n_recv net tr) ≤ kFrameSize)%nat ∧ Forall is_u8 (n_recv net tr)
}.

End client.

(** ** What the client sends *)

Definition order (seq : Z) : request :=
  RNewOrder (MessageHeader.set_session_id 1
               (MessageHeader.set_sequence_number seq MessageHeader.default))
    (NewOrder.mk seq Side.Buy 10000 1).

Definition orders (n : nat) : list request := order <$> seqZ 1 (Z.of_nat n).

Section rounds.
Context (net : Network) (Hnet : network_ok net).

(** After [k] rounds: the frames on the wire encode the first [k] orders. *)
Record sent_orders (k : nat) (s : state) : Prop := {
  sent_seq : seq s = Z.of_nat k + 1;
  sent_calls : length (calls s) = (2 * k)%nat;
  sent_frame : length (frame s) = kFrameSize ∧ Forall is_u8 (frame s);
  sent_wire : ∃ frames, wire (calls s) = concat frames ∧
    Forall2 (λ r f, request_ok r ∧ ∃ out, length out = kFrameSize ∧ Forall is_u8 out ∧
                    encode_request r out = Some f) (orders k) frames
}.

Lemma order_ok n : is_u64 n → request_ok (order n).
Proof.
  intros Hn. split_and!; [|reflexivity|].
  - unfold MessageHeader.ok. simpl. split_and!; try done; try (split; lia). 
  - unfold NewOrder.ok. simpl. split_and!; try done; split; lia.
Qed.

Lemma wire_app tr tr' : wire (tr ++ tr') = wire tr ++ wire tr'.
Proof. unfold wire. by rewrite fmap_app, concat_app. Qed.

Lemma orders_S k : orders (S k) = orders k ++ [order (Z.of_nat k + 1)].
Proof.
  unfold orders. rewrite Nat2Z.inj_succ, <- Z.add_1_r, seqZ_app, fmap_app by lia.
  by rewrite Z.add_comm.
Qed.

Lemma round_sends k s :
  Z.of_nat k < 2 ^ 64 - 2 → sent_orders k s →
  ∃ s', round net s = Some s' ∧ sent_orders (S k) s' ∧ calls s `prefix_of` calls s'.
Proof using Hnet.
  intros Hk [Hseq Hcalls [Hlen Hu] (frames & Hw & Hf)].
  assert (is_u64 (seq s)) as Hs by (rewrite Hseq; split; lia).
  pose proof (order_ok (seq s) Hs) as Hok.
  assert (msg_ok (NewOrder.mk (seq s) Side.Buy 10000 1)) as Hm by apply Hok.
  destruct (wire_decode_encoded (M:=NewOrder.t) (request_header (order (seq s)))
              (NewOrder.mk (seq s) Side.Buy 10000 1) (frame s) (proj1 Hok) Hm ltac:(lia))
    as (out & E & Hl & _).
  assert (encode_order (frame s) (seq s) = Some out) as Henc.
  { wire_fields. apply (f_equal (fmap snd)) in E. exact E. }
  destruct (parse_encoded_request (order (seq s)) (frame s) out Hok Hlen Hu) as (_ & Hlo & Huo).
  { exact Henc. }
  unfold round. rewrite Henc. simpl. eexists. split; [done|].
  set (got := n_recv net _). destruct (recv_bytes _ Hnet (calls s ++ [Sent out (n_send net (calls s) out)]))
    as [Hg Hgu]. fold got in Hg, Hgu.
  split; [|simpl; by do 2 eapply prefix_app_r].
  split; simpl.
  - rewrite wrap_uint by (split; lia). lia.
  - rewrite !length_app. simpl. lia.
  - split; [rewrite length_app, length_drop; lia|]. apply Forall_app. auto using Forall_drop.
  - exists (frames ++ [out]). rewrite !wire_app, Hw, concat_app. split.
    + unfold wire. simpl. by rewrite (send_whole _ Hnet), Nat2Z.id, firstn_all, !app_nil_r.
    + rewrite orders_S. apply Forall2_app; [done|]. constructor; [|done].
      rewrite <- Hseq. split; [done|]. by exists (frame s).
Qed.

Lemma start_sent : sent_orders 0 start.
Proof. split; [done..|split; [done|evaluate]|]. exists []. split; [done|]. constructor. Qed.

Lemma warm_up_sends n k s :
  Z.of_nat (n + k) < 2 ^ 64 - 1 → sent_orders k s →
  ∃ s', warm_up net n s = Some s' ∧ sent_orders (n + k) s'.
Proof using Hnet.
  revert k s. induction n as [|n IH]; intros k s Hn Hs; [by exists s|]. simpl.
  destruct (round_sends k s ltac:(lia) Hs) as (s1 & -> & Hs1 & _). simpl.
  destruct (IH (S k) s1 ltac:(lia) Hs1) as (s2 & -> & Hs2). exists s2. split; [done|].
  by replace (S (n + k)) with (n + S k)%nat by lia.
Qed.

(** Entry [i + j] of the vector is the time of the [k + j]-th round. *)
Lemma measure_sends n i rtts k s :
  Z.of_nat (n + k) < 2 ^ 64 - 1 → (n + i = length rtts)%nat → sent_orders k s →
  ∃ rtts' s', measure net n i rtts s = Some (rtts', s') ∧ sent_orders (n + k) s' ∧
    calls s `prefix_of` calls s' ∧ length rtts' = length rtts ∧
    (∀ j, (j < i)%nat → rtts' !! j = rtts !! j) ∧
    (∀ j, (j < n)%nat →
       rtts' !! (i + j)%nat = Some (n_elapsed net (take (2 * (k + j + 1)) (calls s')))).
Proof using Hnet.
  revert i rtts k s. induction n as [|n IH]; intros i rtts k s Hn Hi Hs.
  { exists rtts, s. split_and!; try done. lia. }
  simpl. destruct (round_sends k s ltac:(lia) Hs) as (s1 & -> & Hs1 & Hp1). simpl.
  rewrite put_Some by lia. simpl.
  destruct (IH (S i) (<[i:=n_elapsed net (calls s1)]> rtts) (S k) s1)
    as (r & s2 & -> & Hs2 & Hp2 & Hl & Hlow & Hnew); [lia|rewrite length_insert; lia|done|].
  rewrite length_insert in Hl. replace (n + S k)%nat with (S n + k)%nat in Hs2 by lia.
  exists r, s2. split_and!; [done|done|by transitivity (calls s1)|done| |].
  - intros j Hj. rewrite Hlow, list_lookup_insert_ne by lia. done.
  - intros [|j] Hj.
    + rewrite Nat.add_0_r, Hlow, list_lookup_insert_eq by lia. do 2 f_equal.
      destruct Hp2 as [tr ->]. pose proof (sent_calls _ _ Hs1).
      rewrite take_app_le, firstn_all2 by lia. done.
    + replace (i + S j)%nat with (S i + j)%nat by lia. rewrite Hnew by lia. do 3 f_equal. lia.
Qed.

End rounds.

(** ** What the gateway makes of it *)

Definition order_command (tok : SessionToken.t) (n : Z) : EngineCommand.t :=
  EngineCommand.mk n n 10000 1 Side.Buy tok EngineCommandType.NewLimit.

Lemma serve_orders tok k m :
  0 ≤ m → m + Z.of_nat k < 2 ^ 64 →
  serve_requests tok m (request_message <$> (order <$> seqZ m (Z.of_nat k))) =
  (Submit <$> (order_command tok <$> seqZ m (Z.of_nat k)), m + Z.of_nat k, k, false).
Proof.
  revert m. induction k as [|k IH]; intros m Hm Hk; [by rewrite Z.add_0_r|].
  rewrite Nat2Z.inj_succ, seqZ_cons, Z.pred_succ by lia. cbn [fmap list_fmap].
  cbn [serve_requests]. unfold answer at 1. rewrite decide_True by done. cbn -[wrap].
  rewrite wrap_uint by (split; lia). rewrite Z.add_1_r, IH by lia.
  do 3 f_equal. lia.
Qed.

(** ** Properties *)

Lemma parse_pairs_defined atoi n args opts :
  (length args ≤ n)%nat → Forall (λ s, is_Some (atoi s)) args → is_Some (parse_pairs atoi args opts).
Proof.
  revert args opts. induction n as [|n IH]; intros args opts Hn.
  { apply Nat.le_0_r, nil_length_inv in Hn as ->. by eexists. }
  destruct args as [|name [|value args]]; [by eexists..|]. simpl in Hn.
  intros (_ & [v Hv] & Hargs)%Forall_cons_1%(λ H, conj (proj1 H) (Forall_cons_1 _ _ _ (proj2 H))).
  cbn [parse_pairs]. rewrite Hv. repeat case_decide; simpl; apply IH; auto with lia.
Qed.

(** The options: whatever the command line, each option has the value of the
    last pair that names it, converted for the numeric ones, or its default;
    names that are unknown and a last argument without a value are ignored. *)
Theorem parse_options_spec atoi program args :
  Forall (λ s, is_Some (atoi s)) args →
  ∃ opts, parse_options atoi (program :: args) = Some opts ∧
    Options.host opts = default "127.0.0.1"%string (last_value "--host" args) ∧
    number atoi 9000 (last_value "--port" args) = Some (Options.port opts) ∧
    number atoi 100000 (last_value "--messages" args) = Some (Options.messages opts) ∧
    number atoi 1000 (last_value "--warmup" args) = Some (Options.warmup opts).
Proof.
  intros Ha. destruct (parse_pairs_defined atoi _ args Options.default (le_n _) Ha) as [opts Hopts].
  exists opts. split; [exact Hopts|]. exact (parse_pairs_spec atoi _ _ _ _ (le_n _) Hopts).
Qed.

(** Decimal digits only. *)
Definition sample_atoi (s : string) : option Z :=
  Some (foldl (λ n c, 10 * n + Z.of_nat (Ascii.nat_of_ascii c) - 48) 0 (String.list_ascii_of_string s)).

Lemma parse_options_spec_witness :
  let args := ["--port"; "9001"; "--depth"; "7"; "--port"; "9002"; "--warmup"]%string in
  ∃ opts, parse_options sample_atoi ("client"%string :: args) = Some opts ∧
    Some 9002 = Some (Options.port opts) ∧ Some 1000 = Some (Options.warmup opts).
Proof.
  intros args. destruct (parse_options_spec sample_atoi "client" args) as (opts & Ho & _ & Hp & _ & Hw).
  - apply Forall_forall. intros s _. by eexists.
  - exists opts. split; [exact Ho|]. split; [exact Hp|exact Hw].
Defined.

(** What the gateway makes of the calls: the orders 1, 2, ... [n], each
    submitted in sequence. *)
Definition in_sequence (tok : SessionToken.t) (n : nat) (tr : list call) : Prop :=
  decode_stream (wire tr) = (request_message <$> orders n, FrameParser.Status.NeedMoreData, []) ∧
  serve_requests tok 1 (request_message <$> orders n) =
    (Submit <$> (order_command tok <$> seqZ 1 (Z.of_nat n)), Z.of_nat n + 1, n, false).

Lemma sent_in_sequence tok n s :
  Z.of_nat n < 2 ^ 64 - 1 → sent_orders n s → in_sequence tok n (calls s).
Proof.
  intros Hn Hs. destruct (sent_wire _ _ Hs) as (frames & Hw & Hf). split.
  - rewrite Hw. destruct (decode_stream_requests _ frames [] Hf) as [Hd _]. rewrite app_nil_r in Hd.
    rewrite Hd, decode_stream_unfold, decide_True by (unfold kFrameSize; simpl; lia).
    by rewrite app_nil_r.
  - unfold orders. rewrite serve_orders by lia. do 3 f_equal. lia.
Qed.

Lemma exchange_sends net opts tok :
  network_ok net → Options.warmup opts < 2 ^ 31 → Options.messages opts < 2 ^ 31 →
  let w := Z.to_nat (Options.warmup opts) in
  let m := Z.to_nat (Options.messages opts) in
  ∃ s, exchange net opts =
      (if decide (Options.messages opts < 0) then Some (LengthError s) else
       Some (Measured ((λ i, n_elapsed net (take (2 * (w + i + 1)) (calls s))) <$> List.seq 0 m) s)) ∧
    in_sequence tok (w + m) (calls s).
Proof.
  intros Hnet Hw Hm w m.
  destruct (warm_up_sends net Hnet w 0 start) as (s1 & Hs1 & Hsent1); [lia|apply start_sent|].
  rewrite Nat.add_0_r in Hsent1.
  unfold exchange. fold w m. rewrite Hs1. cbn [mbind option_bind].
  destruct (decide (Options.messages opts < 0)) as [Hneg|Hpos].
  { exists s1. split; [done|]. apply sent_in_sequence; [lia|].
    by replace (w + m)%nat with w by (unfold m; lia). }
  destruct (measure_sends net Hnet m 0 (replicate m 0) w s1)
    as (rtts & s2 & -> & Hs2 & _ & Hl & _ & Hr); [lia|rewrite length_replicate; lia|done|].
  rewrite length_replicate in Hl. exists s2. split.
  - cbn [mbind option_bind]. do 2 f_equal. apply list_eq. intros i.
    rewrite list_lookup_fmap. destruct (decide (i < m)%nat) as [Hi|Hi].
    + rewrite lookup_seq_lt by done. apply (Hr i Hi).
    + rewrite lookup_seq_ge, lookup_ge_None_2 by lia. done.
  - apply sent_in_sequence; [lia|]. by rewrite Nat.add_comm.
Qed.

(** The benchmark client and the gateway agree: over a blocking socket, the
    client sends the orders 1, 2, 3, ... as whole frames, whatever it reads
    back into the frame it encodes the next order in.  The gateway's parser
    finds exactly these orders in the bytes, and a fresh session submits each
    of them to the matching engine: none is refused as out of sequence.  The
    vector has the time of every measured round, in order; a negative message
    count throws after the warm-up. *)
Theorem bench_client_served net opts tok :
  network_ok net → Options.warmup opts < 2 ^ 31 → Options.messages opts < 2 ^ 31 →
  let w := Z.to_nat (Options.warmup opts) in
  let m := Z.to_nat (Options.messages opts) in
  ∃ s, exchange net opts =
      (if decide (Options.messages opts < 0) then Some (LengthError s) else
       Some (Measured ((λ i, n_elapsed net (take (2 * (w + i + 1)) (calls s))) <$> List.seq 0 m) s)) ∧
    in_sequence tok (w + m) (calls s).
Proof. by apply exchange_sends. Qed.

(** A network that answers every order with 64 bytes 255. *)
Definition sample_network : Network := {|
  n_send _ bytes := Z.of_nat (length bytes);
  n_recv _ := replicate kFrameSize 255;
  n_elapsed tr := Z.of_nat (length tr) `mod` 1000
|}.

Lemma sample_network_ok : network_ok sample_network.
Proof. split; [done|]. intros tr. split; [done|]. by apply Forall_replicate. Qed.

Lemma bench_client_served_witness :
  ∃ s, exchange sample_network (Options.mk "localhost" 9000 2 1) = Some (Measured [4; 6] s) ∧
    decode_stream (wire (calls s)) =
      (request_message <$> orders 3, FrameParser.Status.NeedMoreData, []).
Proof.
  destruct (bench_client_served sample_network (Options.mk "localhost" 9000 2 1) (SessionToken.mk 0 1)
              sample_network_ok) as (s & He & Hd & _); [done|done|].
  assert (∃ s', exchange sample_network (Options.mk "localhost" 9000 2 1) = Some (Measured [4; 6] s'))
    as [s' Hs'] by (eexists; vm_compute; reflexivity).
  exists s. split; [|exact Hd].
  rewrite Hs' in He |- *. rewrite decide_False in He by (simpl; lia).
  revert He. generalize (List.seq 0 (Z.to_nat 2)). generalize [4; 6]. intros l l' He.
  by injection He as _ ->.
Defined.
