(* ===== verification/BenchStats.v ===== *)
(** * The statistics of the round-trip benchmark client

    Models the part of [main] of
    [core/order_entry/examples/epoll_bench_client.cpp] behind [close]: the
    sorted round-trip times, their percentiles and their mean.  [double] is
    the Standard Library's specification of IEEE-754 binary64. *)

From stdpp Require Import sorting strings.
From Stdlib Require Import SpecFloat.
From S2P Require Import Prelude Doubles Protocol BenchClient.

(** ** Percentiles *)

(** [print_percentile]: the value printed. *)
Definition percentile (sorted : list Z) (p : spec_float) : option Z :=
  let size := Z.of_nat (length sorted) in
  idx ← size_of (double_mul (double_of (size -₆₄ 1)) p);
  sorted !! Z.to_nat idx.

(** 0.0, 0.50, 0.90, 0.95, 0.99, 0.999 and 1.0 *)
Definition percentages : list spec_float :=
  [S754_zero false; S754_finite false 4503599627370496 (-53);
   S754_finite false 8106479329266893 (-53); S754_finite false 8556839292003942 (-53);
   S754_finite false 8917127262193582 (-53); S754_finite false 8998192055486251 (-53);
   S754_finite false 4503599627370496 (-52)].

(** [std::int64_t] addition; overflow is undefined. *)
Definition add_i64 (x y : Z) : option Z :=
  if decide (- 2 ^ 63 ≤ x + y < 2 ^ 63) then Some (x + y) else None.

Fixpoint sum_i64 (sum : Z) (rtts : list Z) : option Z :=
  match rtts with [] => Some sum | v :: rtts => sum ← add_i64 sum v; sum_i64 sum rtts end.

(** From [std::sort] on: the percentiles and the mean. *)
Definition report (opts : Options.t) (rtts : list Z) : option (list Z * Z) :=
  let rtts := merge_sort Z.le rtts in
  sum ← sum_i64 0 rtts;
  printed ← mapM (percentile rtts) percentages;
  if decide (Options.messages opts = 0) then None
  else Some (printed, sum ÷ Options.messages opts).

(** ** Ranks *)

(** A percentage in units of 2^-53. *)
Definition share (p : spec_float) : Z :=
  match p with S754_finite false m e => Z.pos m * 2 ^ (e + 53) | _ => 0 end.

(** Index [i] is the share [p] of [n], rounded down; it may be one more when
    the share is within [2^-20] of the next integer. *)
Definition rank (n : Z) (p : spec_float) (i : nat) : Prop :=
  n * share p / 2 ^ 53 ≤ Z.of_nat i ∧
  2 ^ 20 * (Z.of_nat i * 2 ^ 53) ≤ 2 ^ 20 * (n * share p) + 2 ^ 53.

Lemma rank_bound n p i : 0 ≤ n → share p ≤ 2 ^ 53 → rank n p i → Z.of_nat i ≤ n.
Proof.
  intros Hn Hp [_ Hi]. assert (n * share p ≤ n * 2 ^ 53) by (by apply Z.mul_le_mono_nonneg_l). lia.
Qed.

Lemma rank_mono n p q i j :
  0 ≤ n → share p + 2 ^ 34 ≤ share q → rank n p i → rank n q j → (i ≤ j)%nat.
Proof.
  intros Hn Hpq [_ Hi] [Hj _]. destruct (decide (n = 0)) as [->|]; [lia|].
  assert (n * share p + n * 2 ^ 34 ≤ n * share q).
  { rewrite <- Z.mul_add_distr_l. by apply Z.mul_le_mono_nonneg_l. }
  pose proof (Z.mul_succ_div_gt (n * share q) (2 ^ 53)). lia.
Qed.

Lemma product_rank n m e :
  0 < n < 2 ^ 31 → 2 ^ 52 ≤ Z.pos m < 2 ^ 53 → -53 ≤ e ≤ -52 → Z.pos m ≤ 2 ^ (- e) →
  ∃ i, size_of (double_mul (double_of n) (S754_finite false m e)) = Some i ∧
    n * Z.pos m / 2 ^ (- e) ≤ i ∧ 2 ^ 20 * (i * 2 ^ (- e)) ≤ 2 ^ 20 * (n * Z.pos m) + 2 ^ (- e).
Proof.
  intros Hn Hm He Hle. destruct (double_of_exact n ltac:(lia)) as (mn & t & Hd & Ht & Hmn & Hb).
  assert (0 < 2 ^ (- e)) as Hpe by (apply Z.pow_pos_nonneg; lia).
  assert (0 < 2 ^ t) as Hpt by (apply Z.pow_pos_nonneg; lia).
  assert (2 ^ (- (- t + e)) = 2 ^ (- e) * 2 ^ t) as HE by (rewrite <- Z.pow_add_r by lia; f_equal; lia).
  set (M := Z.pos (mn * m)). assert (M = n * Z.pos m * 2 ^ t) as HM by lia.
  assert (n * Z.pos m ≤ n * 2 ^ (- e)) as Hnm by (apply Z.mul_le_mono_nonneg_l; lia).
  assert (excess M + 20 ≤ t - e) as Hx.
  { destruct (decide (excess M = 0)) as [|Hne]; [lia|].
    destruct (excess_scale M ltac:(lia) Hne) as [Hl _].
    cut (52 + excess M < 31 + - e + t); [lia|]. apply (Z.pow_lt_mono_r_iff 2); [lia..|].
    eapply Z.le_lt_trans; [exact Hl|]. rewrite HM, !Z.pow_add_r by lia.
    apply Z.mul_lt_mono_pos_r; [done|]. eapply Z.le_lt_trans; [exact Hnm|].
    apply Z.mul_lt_mono_pos_r; lia. }
  destruct (binary_round_bounds M (- t + e)) as (m' & e' & Hround & He' & Hlo & Hhi); [lia..|].
  set (i := Z.pos m' / 2 ^ (- e')) in *.
  assert (n * Z.pos m / 2 ^ (- e) ≤ i) as Hlow.
  { rewrite HE, HM, Z.div_mul_cancel_r in Hlo by lia. done. }
  assert (2 ^ 20 * (i * 2 ^ (- e)) ≤ 2 ^ 20 * (n * Z.pos m) + 2 ^ (- e)) as Hhigh.
  { apply (Z.mul_le_mono_pos_r _ _ (2 ^ t)); [done|].
    assert (2 ^ 20 * 2 ^ excess M ≤ 2 ^ (- e) * 2 ^ t).
    { rewrite <- !Z.pow_add_r by (unfold excess; lia). apply Z.pow_le_mono_r; lia. }
    rewrite HE in Hhi. revert Hhi H. generalize (2 ^ excess M). intros X. rewrite HM. lia. }
  exists i. split; [|done]. rewrite Hd. unfold double_mul, SFmul, xorb. fold M. rewrite Hround.
  unfold size_of.
  assert ((if decide (0 ≤ e') then Z.pos m' * 2 ^ e' else Z.pos m' / 2 ^ (- e')) = i) as ->.
  { case_decide; [|done]. assert (e' = 0) as -> by lia. unfold i. simpl. rewrite Z.div_1_r. lia. }
  rewrite decide_True; [done|]. assert (i ≤ n); [|lia]. apply Z.lt_succ_r.
  apply (Z.mul_lt_mono_pos_r (2 ^ (- e))); [done|]. lia.
Qed.

Lemma percentile_rank sorted p :
  0 < Z.of_nat (length sorted) < 2 ^ 31 → p ∈ percentages →
  ∃ i v, percentile sorted p = Some v ∧ sorted !! i = Some v ∧
    rank (Z.of_nat (length sorted) - 1) p i.
Proof.
  intros Hlen Hp. set (n := Z.of_nat (length sorted) - 1).
  assert (0 ≤ share p ≤ 2 ^ 53) as Hshare.
  { assert (Forall (λ p, 0 ≤ share p ≤ 2 ^ 53) percentages) as H by evaluate.
    rewrite Forall_forall in H. by apply H. }
  assert (∃ i, size_of (double_mul (double_of n) p) = Some (Z.of_nat i) ∧ rank n p i) as (i & Hi & Hr).
  { destruct (decide (n = 0)) as [Hn|Hn].
    - exists 0%nat. rewrite Hn. unfold rank. rewrite Z.mul_0_l. split; [|done].
      assert (Forall (λ p, size_of (double_mul (double_of 0) p) = Some 0) percentages) as H by evaluate.
      rewrite Forall_forall in H. by apply H.
    - assert (p = S754_zero false ∨ ∃ m e, p = S754_finite false m e ∧
        (2 ^ 52 ≤ Z.pos m < 2 ^ 53 ∧ -53 ≤ e ≤ -52 ∧ Z.pos m ≤ 2 ^ (- e))) as [->|(m & e & -> & Hm & He & Hle)].
      { unfold percentages in Hp. rewrite elem_of_cons in Hp. destruct Hp as [->|Hp]; [by left|right].
        revert Hp. rewrite !elem_of_cons, elem_of_nil. intros Hp.
        destruct_or!; try done; subst; (eexists _, _; split; [done|evaluate]). }
      + exists 0%nat. destruct (double_of_exact n) as (m & t & -> & _); [lia|]. split; [done|].
        unfold rank. simpl. rewrite Z.mul_0_r. split; [done|lia].
      + destruct (product_rank n m e) as (i & Hi & Hlo & Hhi); [lia|done..|].
        assert (0 < 2 ^ (- e)) by (apply Z.pow_pos_nonneg; lia).
        assert (0 ≤ i) as Hi0. { etransitivity; [|exact Hlo]. apply Z.div_pos; lia. }
        exists (Z.to_nat i). rewrite Z2Nat.id by done. split; [done|]. unfold rank, share.
        rewrite Z2Nat.id by done.
        assert (2 ^ 53 = 2 ^ (- e) * 2 ^ (e + 53)) as ->
          by (rewrite <- Z.pow_add_r by lia; apply f_equal; lia).
        assert (0 < 2 ^ (e + 53)) as Hpos by (apply Z.pow_pos_nonneg; lia).
        rewrite Z.mul_assoc, Z.div_mul_cancel_r by lia. split; [done|].
        apply (Z.mul_le_mono_pos_r _ _ _ Hpos) in Hhi. lia. }
  pose proof (rank_bound n p i ltac:(lia) ltac:(lia) Hr).
  destruct (lookup_lt_is_Some_2 sorted i) as [v Hv]; [lia|].
  exists i, v. split; [|done]. unfold percentile. rewrite wrap_uint by (split; lia). fold n.
  rewrite Hi. simpl. by rewrite Nat2Z.id.
Qed.

(** ** Sums and sorted lists *)

Lemma sum_i64_bounds lo hi acc rtts :
  0 ≤ lo → hi < 2 ^ 32 → Forall (λ x, lo ≤ x ≤ hi) rtts →
  0 ≤ acc ≤ 2 ^ 63 - 1 - Z.of_nat (length rtts) * 2 ^ 32 →
  ∃ s, sum_i64 acc rtts = Some s ∧
    acc + Z.of_nat (length rtts) * lo ≤ s ≤ acc + Z.of_nat (length rtts) * hi.
Proof.
  intros Hlo Hhi Hall. revert acc.
  induction Hall as [|x rtts [Hxl Hxh] _ IH]; intros acc Hacc; [exists acc; simpl; split; [done|lia]|].
  cbn [sum_i64 length] in *. rewrite Nat2Z.inj_succ in Hacc |- *. unfold add_i64.
  rewrite decide_True by lia. destruct (IH (acc + x)) as (s & Hs & Hb); [lia|].
  exists s. split; [exact Hs|lia].
Qed.

Lemma mapM_Forall2 {A B} (f : A → option B) (R : B → A → Prop) l :
  Forall (λ x, ∃ y, f x = Some y ∧ R y x) l → ∃ k, mapM f l = Some k ∧ Forall2 R k l.
Proof.
  induction 1 as [|x l (y & Hy & HR) _ (k & Hk & HF)]; [by exists []|].
  exists (y :: k). split; [|by constructor]. simpl. by rewrite Hy, Hk.
Qed.

Lemma sorted_lookup_le (l : list Z) i j x y :
  StronglySorted Z.le l → (i ≤ j)%nat → l !! i = Some x → l !! j = Some y → x ≤ y.
Proof.
  intros Hs. revert i j. induction Hs as [|z l _ IH Hz]; intros i j Hij Hx Hy; [done|].
  destruct i as [|i], j as [|j]; simplify_eq/=; [lia| |lia|].
  - rewrite Forall_forall in Hz. apply Hz. by eapply list_elem_of_lookup_2.
  - by eapply (IH i j); [lia|..].
Qed.

(** Percentages far enough apart. *)
Definition apart (p q : spec_float) : Prop := share p + 2 ^ 34 ≤ share q.

Lemma ranks_sorted (sorted vs : list Z) ps n :
  0 ≤ n → StronglySorted Z.le sorted → StronglySorted apart ps →
  Forall2 (λ v p, ∃ i, sorted !! i = Some v ∧ rank n p i) vs ps → StronglySorted Z.le vs.
Proof.
  intros Hn Hs Hps HF. induction HF as [|v p vs ps (i & Hv & Hi) HF IH]; [constructor|].
  apply StronglySorted_inv in Hps as [Hps Hp]. constructor; [by apply IH|].
  clear IH Hps. induction HF as [|v' q vs ps (j & Hv' & Hj) HF IH]; [done|].
  apply Forall_cons in Hp as [Hpq Hp]. constructor; [|by apply IH].
  eapply (sorted_lookup_le sorted i j); [exact Hs| |exact Hv|exact Hv'].
  by eapply rank_mono.
Qed.

Lemma percentages_apart : StronglySorted apart percentages.
Proof. repeat (constructor; [|unfold apart; evaluate]). constructor. Qed.

(** The first and the last value printed. *)
Lemma printed_extremes sorted printed n :
  0 < Z.of_nat (length sorted) → n = Z.of_nat (length sorted) - 1 →
  StronglySorted Z.le sorted →
  Forall2 (λ v p, ∃ i, sorted !! i = Some v ∧ rank n p i) printed percentages →
  ∃ least greatest, head printed = Some least ∧ last printed = Some greatest ∧
    least ∈ sorted ∧ greatest ∈ sorted ∧ Forall (λ x, least ≤ x ≤ greatest) sorted.
Proof.
  intros Hlen -> Hs HF.
  destruct (Forall2_lookup_r _ _ _ 0 (S754_zero false) HF) as (least & H0 & i & Hi & _ & Hi'); [done|].
  destruct (Forall2_lookup_r _ _ _ 6 (S754_finite false 4503599627370496 (-52)) HF)
    as (greatest & H6 & j & Hj & Hj' & _); [done|].
  pose proof (Forall2_length _ _ _ HF) as Hl.
  exists least, greatest. split; [by destruct printed|]. split.
  { rewrite last_lookup, Hl. exact H6. }
  split; [by eapply list_elem_of_lookup_2|]. split; [by eapply list_elem_of_lookup_2|].
  apply Forall_lookup. intros k x Hx. pose proof (lookup_lt_Some _ _ _ Hx).
  assert (Z.of_nat i ≤ 0) by (cbn [share] in Hi'; lia).
  assert (Z.of_nat (length sorted) - 1 ≤ Z.of_nat j).
  { cbn [share] in Hj'. change (4503599627370496 * 2 ^ (-52 + 53)) with (2 ^ 53) in Hj'.
    by rewrite Z.div_mul in Hj' by lia. }
  split; [apply (sorted_lookup_le sorted i k)|apply (sorted_lookup_le sorted k j)]; by auto with lia.
Qed.

(** What the printed lines say of the measurements: values at the ranks the
    percentages ask for, from the least to the greatest, and a mean between
    these. *)
Definition summarises (rtts printed : list Z) (mean : Z) : Prop :=
  ∃ least greatest,
    Forall2 (λ v p, ∃ i, merge_sort Z.le rtts !! i = Some v ∧
                         rank (Z.of_nat (length rtts) - 1) p i) printed percentages ∧
    StronglySorted Z.le printed ∧
    head printed = Some least ∧ last printed = Some greatest ∧
    least ∈ rtts ∧ greatest ∈ rtts ∧ Forall (λ x, least ≤ x ≤ greatest) rtts ∧
    least ≤ mean ≤ greatest.

Lemma report_summary opts rtts :
  rtts ≠ [] → Options.messages opts = Z.of_nat (length rtts) → Options.messages opts < 2 ^ 31 →
  Forall (λ x, 0 ≤ x < 2 ^ 32) rtts →
  ∃ printed mean, report opts rtts = Some (printed, mean) ∧ summarises rtts printed mean.
Proof.
  intros Hne Hmsg Hlt Hr. set (sorted := merge_sort Z.le rtts).
  assert (sorted ≡ₚ rtts) as Hperm by apply merge_sort_Permutation.
  assert (StronglySorted Z.le sorted) as Hsorted by (apply StronglySorted_merge_sort; apply _).
  pose proof (Permutation_length Hperm) as Hlen.
  assert (length rtts ≠ 0%nat) as Hlen0 by (by destruct rtts).
  destruct (mapM_Forall2 (percentile sorted)
    (λ v p, ∃ i, sorted !! i = Some v ∧ rank (Z.of_nat (length rtts) - 1) p i) percentages)
    as (printed & Hp & HF).
  { apply Forall_forall. intros p Hp.
    destruct (percentile_rank sorted p ltac:(lia) Hp) as (i & v & Hv & Hi & Hrk).
    exists v. split; [done|]. exists i. split; [done|]. by rewrite <- Hlen. }
  pose proof (ranks_sorted sorted printed percentages (Z.of_nat (length rtts) - 1) ltac:(lia)
                Hsorted percentages_apart HF) as Hps.
  destruct (printed_extremes sorted printed (Z.of_nat (length rtts) - 1) ltac:(lia) ltac:(lia) Hsorted HF)
    as (least & greatest & Hhd & Hlast & Hin & Hin' & Hall).
  rewrite Hperm in Hin, Hin'. rewrite Forall_forall in Hr.
  destruct (sum_i64_bounds least greatest 0 sorted) as (s & Hs & Hb); [by apply Hr|by apply Hr|done|lia|].
  exists printed, (s ÷ Options.messages opts). unfold report. fold sorted. rewrite Hs. cbn [mbind option_bind]. rewrite Hp. cbn [mbind option_bind].
  rewrite decide_False by lia. split; [done|]. exists least, greatest. split_and!; try done.
  - by rewrite <- Hperm.
  - pose proof (Hr _ Hin). rewrite Z.quot_div_nonneg by lia. apply Z.div_le_lower_bound; lia.
  - pose proof (Hr _ Hin). rewrite Z.quot_div_nonneg by lia. apply Z.div_le_upper_bound; lia.
Qed.

(** The first percentile of no measurements is outside the vector. *)
Lemma report_nothing opts : report opts [] = None.
Proof. reflexivity. Qed.

(** C34: The statistics: for at least one and fewer than 2^31 measurements below
    2^32 ns nothing is undefined.  The lines print measured values, each at
    the rank its percentage asks for, in ascending order from the least to
    the greatest measurement, and the mean lies between these.  With
    [--messages 0] the first percentile reads outside the empty vector. *)
Theorem report_percentiles opts rtts :
  rtts ≠ [] → Options.messages opts = Z.of_nat (length rtts) → Options.messages opts < 2 ^ 31 →
  Forall (λ x, 0 ≤ x < 2 ^ 32) rtts →
  ∃ printed mean, report opts rtts = Some (printed, mean) ∧ summarises rtts printed mean ∧
    report (Options.set_messages 0 opts) [] = None.
Proof.
  intros Hne Hmsg Hlt Hr. destruct (report_summary opts rtts Hne Hmsg Hlt Hr) as (printed & mean & ? & ?).
  by exists printed, mean.
Qed.

Definition sample_rtts : list Z := [310; 120; 95; 400; 95; 180; 2000; 101].
Definition sample_options : Options.t := Options.mk "127.0.0.1" 9000 8 0.

Lemma report_percentiles_witness :
  ∃ mean, report sample_options sample_rtts = Some ([95; 120; 400; 400; 400; 400; 2000], mean) ∧
    95 ≤ mean ≤ 2000.
Proof.
  destruct (report_percentiles sample_options sample_rtts)
    as (printed & mean & Hrep & (least & greatest & _ & _ & Hhd & Hlast & _ & _ & _ & Hmean) & _).
  - discriminate.
  - reflexivity.
  - reflexivity.
  - evaluate.
  - assert (report sample_options sample_rtts = Some ([95; 120; 400; 400; 400; 400; 2000], 412)) as He
      by (vm_compute; reflexivity).
    rewrite He in Hrep. injection Hrep as <- <-. injection Hhd as <-. injection Hlast as <-.
    exists 412. split; [exact He|exact Hmean].
Defined.
