(* ===== verification/Calls.v ===== *)
(** * Programs over system calls

    The straight-line parts of the two programs, before and after their
    loops, as programs over calls of a type [R] that an arbitrary environment
    answers; a run leaves the history of its calls with their answers.  The
    socket addresses both programs pass to such calls. *)

From S2P Require Import Prelude.

Abbreviation history R := (list (R * Z)).

Definition sys (R A : Type) : Type := history R → A * history R.

#[export] Instance sys_ret {R} : MRet (sys R) := λ A a tr, (a, tr).
#[export] Instance sys_bind {R} : MBind (sys R) := λ A B f m tr, let '(a, tr) := m tr in f a tr.

Definition call {R} (env : history R → R → Z) (r : R) : sys R Z :=
  λ tr, (env tr r, tr ++ [(r, env tr r)]).

(** ** Socket addresses *)

(** The port and the address as the bytes in memory, in network byte order. *)
Record sockaddr_in : Set := mksockaddr {
  sin_family : Z;
  sin_port : list Z;
  sin_addr : list Z
}.

#[export] Instance sockaddr_in_eq_dec : EqDecision sockaddr_in.
Proof. solve_decision. Defined.

Definition AF_INET : Z := 2.
Definition htons (n : Z) : list Z := reverse (le_bytes 2 n).
Definition htonl (n : Z) : list Z := reverse (le_bytes 4 n).

(** ** Histories *)

(** What a history shows of a call. *)
Definition failed {R} (tr : history R) (r : R) : Prop := ∃ n, n < 0 ∧ (r, n) ∈ tr.
Definition succeeded {R} (tr : history R) (r : R) : Prop := ∃ n, 0 ≤ n ∧ (r, n) ∈ tr.

Section runs.
Context {R : Type} (env : history R → R → Z).
Implicit Types (tr : history R) (r : R).

Lemma call_bind {B} r (f : Z → sys R B) tr :
  (call env r ≫= f) tr = f (env tr r) (tr ++ [(r, env tr r)]).
Proof. done. Qed.

Lemma bind_assoc {A B C} (m : sys R A) (f : A → sys R B) (g : B → sys R C) tr :
  ((m ≫= f) ≫= g) tr = (m ≫= (λ a, f a ≫= g)) tr.
Proof. unfold mbind, sys_bind. by destruct (m tr). Qed.

Lemma ret_bind {A B} (a : A) (f : A → sys R B) tr : (mret a ≫= f) tr = f a tr.
Proof. done. Qed.

Lemma bind_run {A B} (m : sys R A) (f : A → sys R B) tr a tr' :
  m tr = (a, tr') → (m ≫= f) tr = f a tr'.
Proof. unfold mbind, sys_bind. by intros ->. Qed.

Lemma failed_app tr l r : failed tr r → failed (tr ++ l) r.
Proof. intros (n & Hn & Hin). exists n. split; [done|]. apply elem_of_app. by left. Qed.

Lemma succeeded_app tr l r : succeeded tr r → succeeded (tr ++ l) r.
Proof. intros (n & Hn & Hin). exists n. split; [done|]. apply elem_of_app. by left. Qed.

End runs.

#[export] Hint Resolve failed_app succeeded_app : lltg.

(** Runs a program up to its next test, naming the answer of each call. *)
Ltac next_call a :=
  repeat first [rewrite bind_assoc | rewrite ret_bind]; rewrite call_bind;
  match goal with |- context [(?r, ?k ?tr ?r)] => generalize (k tr r); intros a end; cbv beta.

(** A call that is written out is in the history. *)
Ltac in_history :=
  match goal with
  | |- _ ∈ _ ++ _ => apply elem_of_app; first [right; in_history | left; in_history]
  | |- _ ∈ _ :: _ => apply elem_of_cons; first [left; reflexivity | right; in_history]
  | |- _ => assumption
  end.
