(* ===== verification/Startup.v ===== *)
(** * Start-up and exit of the gateway

    Models [create_listen_socket] and the parts of [main] of
    [core/order_entry/examples/epoll_server.cpp] before and after its event
    loop, as programs over system calls that an arbitrary kernel answers.
    Console output is left out. *)

From S2P Require Import Prelude Calls.

Definition kPort : Z := 9000.
Definition INADDR_LOOPBACK : Z := 0x7f000001.
Definition O_NONBLOCK : Z := 2048.
Definition EPOLLIN : Z := 1.

Inductive request : Set :=
| Socket | EventFd | EpollCreate
| SetReuseaddr (fd : Z)
| GetFlags (fd : Z)
| SetFlags (fd flags : Z)
| Bind (fd : Z) (addr : sockaddr_in)
| Listen (fd backlog : Z)
| EpollCtlAdd (epoll_fd fd events : Z)
| StartThread (event_fd : Z)     (** negative when the constructor throws *)
| CloseFd (fd : Z).

#[export] Instance request_eq_dec : EqDecision request.
Proof. solve_decision. Defined.

(** ** Programs *)

#[local] Abbreviation sys := (sys request).
#[local] Abbreviation history := (history request).

Section startup.
Context (kernel : history → request → Z).

Abbreviation call := (call kernel).

Definition set_reuseaddr (fd : Z) : sys unit := call (SetReuseaddr fd);; mret tt.

Definition set_nonblocking (fd : Z) : sys unit :=
  flags ← call (GetFlags fd);
  call (SetFlags fd (Z.lor flags O_NONBLOCK));;
  mret tt.

(** [addr] *)
Definition listen_addr : sockaddr_in := mksockaddr AF_INET (htons kPort) (htonl INADDR_LOOPBACK).

Definition create_listen_socket : sys Z :=
  fd ← call Socket;
  if decide (fd < 0) then mret (-1)
  else
    set_reuseaddr fd;;
    set_nonblocking fd;;
    bound ← call (Bind fd listen_addr);
    if decide (bound < 0) then call (CloseFd fd);; mret (-1)
    else
      listening ← call (Listen fd 128);
      if decide (listening < 0) then call (CloseFd fd);; mret (-1)
      else mret fd.

Definition epoll_add (epoll_fd fd events : Z) : sys unit :=
  call (EpollCtlAdd epoll_fd fd events);; mret tt.

Inductive started : Set :=
| Running (listen_fd event_fd epoll_fd : Z)
| ReturnOne                       (** [return 1] *)
| Terminated.                     (** [std::terminate] *)

(** Sections 1 to 3 of [main].  An exception of the thread's constructor is
    not caught, and leaving [main] destroys a thread that is joinable. *)
Definition start_up : sys started :=
  listen_fd ← create_listen_socket;
  if decide (listen_fd < 0) then mret ReturnOne
  else
    event_fd ← call EventFd;
    if decide (event_fd < 0) then call (CloseFd listen_fd);; mret ReturnOne
    else
      thread ← call (StartThread event_fd);
      if decide (thread < 0) then mret Terminated
      else
        epoll_fd ← call EpollCreate;
        if decide (epoll_fd < 0) then call (CloseFd listen_fd);; mret Terminated
        else
          epoll_add epoll_fd listen_fd EPOLLIN;;
          epoll_add epoll_fd event_fd EPOLLIN;;
          mret (Running listen_fd event_fd epoll_fd).

(** The closes at the end of [main], behind those of the clients. *)
Definition finish (listen_fd event_fd epoll_fd : Z) : sys Z :=
  call (CloseFd epoll_fd);; call (CloseFd event_fd);; call (CloseFd listen_fd);; mret 0.

End startup.

(** ** Descriptors *)

(** The effect of one call on the open descriptors. *)
Definition opened (open : list Z) (c : request * Z) : list Z :=
  match c with
  | (Socket, r) | (EventFd, r) | (EpollCreate, r) => if decide (0 ≤ r) then open ++ [r] else open
  | (CloseFd fd, _) => filter (λ fd', fd' ≠ fd) open
  | _ => open
  end.

Definition open_descriptors (tr : history) : list Z := foldl opened [] tr.

(** The threads that were started, by their eventfd. *)
Definition threads (tr : history) : list Z :=
  omap (λ c, match c with (StartThread e, r) => if decide (0 ≤ r) then Some e else None | _ => None end) tr.

(** A kernel gives out descriptors that are not open. *)
Definition fresh_descriptors (kernel : history → request → Z) : Prop :=
  ∀ tr r, r ∈ [Socket; EventFd; EpollCreate] → kernel tr r ∉ open_descriptors tr.


Lemma open_snoc tr c : open_descriptors (tr ++ [c]) = opened (open_descriptors tr) c.
Proof. unfold open_descriptors. by rewrite foldl_app. Qed.

Lemma threads_snoc tr c : threads (tr ++ [c]) = threads tr ++ threads [c].
Proof. apply omap_app. Qed.

(** What one call adds to the history's effects. *)
Ltac effects :=
  repeat first [rewrite open_snoc | rewrite threads_snoc];
  try change (open_descriptors []) with (@nil Z);
  cbn [opened threads omap list_omap app];
  repeat first [rewrite decide_True by lia | rewrite decide_False by lia].

Section listen_socket.
Context (kernel : history → request → Z).

Lemma create_listen_socket_spec :
  ∃ fd tr, create_listen_socket kernel [] = (fd, tr) ∧ threads tr = [] ∧
    (fd < 0 ∧ open_descriptors tr = [] ∧
       (failed tr Socket ∨
        ∃ fd, failed tr (Bind fd listen_addr) ∨ failed tr (Listen fd 128)) ∨
     0 ≤ fd ∧ open_descriptors tr = [fd] ∧
       succeeded tr (Bind fd listen_addr) ∧ succeeded tr (Listen fd 128) ∧
       ∃ flags r, (GetFlags fd, flags) ∈ tr ∧ (SetFlags fd (Z.lor flags O_NONBLOCK), r) ∈ tr).
Proof.
  unfold create_listen_socket, set_reuseaddr, set_nonblocking.
  next_call fd. case_decide.
  { eexists _, _. split; [done|]. effects. split; [done|]. left. split_and!; [lia|done|left].
    exists fd. split; [done|]. in_history. }
  next_call a. next_call b. next_call c. next_call bound. case_decide.
  { next_call d. eexists _, _. split; [done|].
    effects. rewrite filter_cons_False by auto. split; [done|]. left. split_and!; [lia|done|right].
    exists fd. left. exists bound. split; [done|]. in_history. }
  next_call listening. case_decide.
  { next_call d. eexists _, _. split; [done|].
    effects. rewrite filter_cons_False by auto. split; [done|]. left. split_and!; [lia|done|right].
    exists fd. right. exists listening. split; [done|]. in_history. }
  eexists _, _. split; [done|]. effects. split; [done|]. right. split_and!; [lia|done|..].
  - exists bound. split; [lia|]. in_history.
  - exists listening. split; [lia|]. in_history.
  - exists b, c. split; in_history.
Qed.

End listen_socket.

Lemma finish_closes kernel l e p tr :
  open_descriptors tr = [l; e; p] → open_descriptors (finish kernel l e p tr).2 = [].
Proof.
  intros Ho. unfold finish. next_call r1. next_call r2. next_call r3. cbv beta iota delta [mret sys_ret snd].
  effects. rewrite Ho. apply elem_of_nil_inv. intros x. rewrite !list_elem_of_filter.
  intros (Hl & He & Hp & Hin). rewrite !elem_of_cons in Hin. destruct_or!; try done. by inversion Hin.
Qed.

(** Sections 1 to 3 of [main]. *)
Lemma start_up_spec kernel :
  fresh_descriptors kernel →
  let '(out, tr) := start_up kernel [] in
  match out with
  | Running l e p =>
      open_descriptors tr = [l; e; p] ∧ NoDup [l; e; p] ∧ threads tr = [e] ∧
      succeeded tr (Bind l listen_addr) ∧ succeeded tr (Listen l 128) ∧
      (∃ flags r, (GetFlags l, flags) ∈ tr ∧ (SetFlags l (Z.lor flags O_NONBLOCK), r) ∈ tr) ∧
      (∃ r r', (EpollCtlAdd p l EPOLLIN, r) ∈ tr ∧ (EpollCtlAdd p e EPOLLIN, r') ∈ tr)
  | ReturnOne =>
      open_descriptors tr = [] ∧ threads tr = [] ∧
      (failed tr Socket ∨ failed tr EventFd ∨
       ∃ fd, failed tr (Bind fd listen_addr) ∨ failed tr (Listen fd 128))
  | Terminated => ∃ e, e ∈ open_descriptors tr ∧ (failed tr (StartThread e) ∨
                       (failed tr EpollCreate ∧ threads tr = [e]))
  end.
Proof.
  intros Hfresh. destruct (create_listen_socket_spec kernel) as (l & tr & E & Ht & Hcases).
  unfold start_up. rewrite (bind_run _ _ _ _ _ E). destruct Hcases as [(Hl & Ho & Hwhy)|(Hl & Ho & Hb & Hls & Hfl)].
  { rewrite decide_True by done. cbv beta iota delta [mret sys_ret]. tauto. }
  rewrite decide_False by lia.
  pose proof (Hfresh tr EventFd ltac:(by right; left)) as He. revert He. next_call e. intros He.
  rewrite Ho, list_elem_of_singleton in He.
  case_decide.
  { next_call r. cbv beta iota delta [mret sys_ret]. effects. rewrite Ho, Ht, filter_cons_False by auto.
    split_and!; [done..|]. right. left. exists e. split; [done|]. in_history. }
  next_call th. case_decide.
  { cbv beta iota delta [mret sys_ret]. exists e. effects. rewrite Ho. split; [by right; left|].
    left. exists th. split; [done|]. in_history. }
  pose proof (Hfresh (tr ++ [(EventFd, e)] ++ [(StartThread e, th)]) EpollCreate ltac:(by right; right; left)) as Hp.
  rewrite app_assoc in Hp. revert Hp. next_call p. effects. rewrite Ho. intros Hp. case_decide.
  { next_call r. cbv beta iota delta [mret sys_ret]. exists e. effects. rewrite Ho, Ht. cbn [app].
    rewrite filter_cons_False, filter_cons_True by (rewrite ?list_elem_of_singleton in He; auto).
    split; [by left|]. right. split; [|done]. exists p. split; [done|]. in_history. }
  unfold epoll_add. next_call r1. next_call r2. repeat rewrite ret_bind.
  cbv beta iota delta [mret sys_ret]. split_and!.
  - effects. by rewrite Ho.
  - cbn [app] in Hp. rewrite !not_elem_of_cons in Hp. destruct Hp as (Hpl & Hpe & _).
    rewrite !NoDup_cons, !not_elem_of_cons. split_and!; auto using not_elem_of_nil, NoDup_nil_2.
  - effects. by rewrite Ht.
  - eauto 10 with lltg.
  - eauto 10 with lltg.
  - destruct Hfl as (flags & r & ? & ?). exists flags, r. split; in_history.
  - exists r1, r2. split; in_history.
Qed.

(** ** Properties *)

(** C30: Start-up, on every branch: once the event loop is reached the three
    descriptors are distinct and the only ones open, the socket is bound to
    127.0.0.1:9000, non-blocking and listening, and one matching thread runs
    on the eventfd, which is registered with the socket at the epoll
    instance; the calls at the end of [main] then close all three.  If
    [socket], [bind], [listen] or [eventfd] fails, [main] returns 1 with
    nothing left open and no thread.  It is terminated instead only when
    the thread cannot be started or [epoll_create1] fails. *)
Theorem start_up_outcome kernel :
  fresh_descriptors kernel →
  let '(out, tr) := start_up kernel [] in
  match out with
  | Running l e p =>
      open_descriptors tr = [l; e; p] ∧ NoDup [l; e; p] ∧ threads tr = [e] ∧
      succeeded tr (Bind l listen_addr) ∧ succeeded tr (Listen l 128) ∧
      (∃ flags r, (GetFlags l, flags) ∈ tr ∧ (SetFlags l (Z.lor flags O_NONBLOCK), r) ∈ tr) ∧
      (∃ r r', (EpollCtlAdd p l EPOLLIN, r) ∈ tr ∧ (EpollCtlAdd p e EPOLLIN, r') ∈ tr) ∧
      open_descriptors (finish kernel l e p tr).2 = []
  | ReturnOne =>
      open_descriptors tr = [] ∧ threads tr = [] ∧
      (failed tr Socket ∨ failed tr EventFd ∨
       ∃ fd, failed tr (Bind fd listen_addr) ∨ failed tr (Listen fd 128))
  | Terminated => ∃ e, e ∈ open_descriptors tr ∧ (failed tr (StartThread e) ∨
                       (failed tr EpollCreate ∧ threads tr = [e]))
  end.
Proof.
  intros Hfresh. pose proof (start_up_spec kernel Hfresh) as Hs.
  destruct (start_up kernel []) as [[l e p| |] tr]; [|done|done].
  destruct Hs as (Ho & Hrest). pose proof (finish_closes kernel l e p tr Ho). tauto.
Qed.

(** Every call succeeds, with a descriptor above the open ones. *)
Definition sample_os (tr : history) (r : request) : Z :=
  if decide (r ∈ [Socket; EventFd; EpollCreate]) then 1 + foldr Z.max 2 (open_descriptors tr) else 0.

(** The same, but there is no epoll instance to be had. *)
Definition exhausted_os (tr : history) (r : request) : Z :=
  if decide (r = EpollCreate) then -1 else sample_os tr r.

Lemma foldr_max x l : x ∈ l → x ≤ foldr Z.max 2 l.
Proof. induction 1; simpl; lia. Qed.

Lemma sample_os_fresh : fresh_descriptors sample_os.
Proof. intros tr r Hr Hin%foldr_max. unfold sample_os in Hin. rewrite decide_True in Hin by done. lia. Qed.

Lemma start_up_outcome_witness :
  let '(out, tr) := start_up sample_os [] in
  out = Running 3 4 5 ∧ threads tr = [4] ∧ open_descriptors (finish sample_os 3 4 5 tr).2 = [] ∧
  (start_up exhausted_os []).1 = Terminated.
Proof.
  pose proof (start_up_outcome sample_os sample_os_fresh) as H.
  assert ((start_up sample_os []).1 = Running 3 4 5) as Hout by (vm_compute; reflexivity).
  destruct (start_up sample_os []) as [out tr]. simpl in Hout. subst out.
  destruct H as (_ & _ & Hth & _ & _ & _ & _ & Hfin).
  split; [reflexivity|]. split; [exact Hth|]. split; [exact Hfin|]. vm_compute. reflexivity.
Defined.
