(* ===== verification/BenchProgram.v ===== *)
(** * The benchmark client from its command line to its exit

    Models [main] of [core/order_entry/examples/epoll_bench_client.cpp]: the
    connection it makes, the exchange of [BenchClient] over it and the
    statistics of [BenchStats].  [perror] and [printf] are left out, but not
    the values they print. *)

From stdpp Require Import strings.
From S2P Require Import Prelude Calls Startup.
From S2P Require Import EngineMessages BenchClient BenchStats.

#[local] Open Scope Z_scope.

Module Client.

Inductive request : Set :=
| Socket
| SetNodelay (fd : Z)
| Connect (fd : Z) (addr : sockaddr_in)
| CloseFd (fd : Z).

Inductive exit : Type :=
| Returned (code : Z) (printed : option (list Z * Z))   (** percentiles and mean *)
| Terminated.                                           (** an exception leaves [main] *)

Record run : Type := mkrun { ended : exit; exchanged : list call; made : history request }.

Section program.
Context (atoi : string → option Z) (inet_pton : string → option (list Z)).
Context (os : history request → request → Z) (net : Z → Network).

(** [addr]: a host that [inet_pton] does not understand leaves the address
    zero, and a port out of range is truncated. *)
Definition peer (opts : Options.t) : sockaddr_in :=
  mksockaddr AF_INET (htons (u16 (Options.port opts))) (default (replicate 4 0) (inet_pton (Options.host opts))).

(** The socket, if it could be connected; the results of [socket] and
    [setsockopt] are not looked at. *)
Definition connect_to (opts : Options.t) : sys request (option Z) :=
  fd ← Calls.call os Socket;
  Calls.call os (SetNodelay fd);;
  connected ← Calls.call os (Connect fd (peer opts));
  mret (if decide (connected < 0) then None else Some fd).

Definition main (argv : list string) : option run :=
  opts ← parse_options atoi argv;
  let '(connected, tr) := connect_to opts [] in
  match connected with
  | None => Some (mkrun (Returned 1 None) [] tr)
  | Some fd =>
      out ← exchange (net fd) opts;
      match out with
      | LengthError s => Some (mkrun Terminated (calls s) tr)
      | Measured rtts s =>
          let '(_, tr) := Calls.call os (CloseFd fd) tr in
          printed ← report opts rtts;
          Some (mkrun (Returned 0 (Some printed)) (calls s) tr)
      end
  end.

Lemma connect_to_spec opts :
  (∀ tr fd addr, fd < 0 → os tr (Connect fd addr) < 0) →
  ∃ fd tr, connect_to opts [] = (fd, tr) ∧ (∀ fd r, (CloseFd fd, r) ∉ tr) ∧
  match fd with
  | None => ∃ fd, failed tr (Connect fd (peer opts))
  | Some fd => 0 ≤ fd ∧ succeeded tr (Connect fd (peer opts)) ∧ ∃ r, (SetNodelay fd, r) ∈ tr
  end.
Proof using os.
  intros Hneg. unfold connect_to.
  pose proof (λ fd tr, Hneg tr fd (peer opts)) as H.
  next_call fd. next_call r. specialize (H fd (([] ++ [(Socket, fd)]) ++ [(SetNodelay fd, r)])).
  revert H. next_call connected. intros H. unfold mret, sys_ret.
  eexists _, _. split; [done|]. split.
  { intros fd' r'. simpl. rewrite !elem_of_cons. intros Hin. destruct_or!; try done. by apply elem_of_nil in Hin. }
  case_decide.
  - exists fd, connected. split; [done|]. in_history.
  - split_and!; [lia| |].
    + exists connected. split; [lia|]. in_history.
    + exists r. in_history.
Qed.

End program.

End Client.

Import Client.

(** C35: The benchmark client on every branch of [main].  If it cannot connect
    it exits with 1, having sent nothing.  Otherwise it is connected to the
    host and port of its options, with [TCP_NODELAY] requested, and the orders
    it sends are all submitted in sequence by the gateway: a negative message
    count terminates it after the warm-up, a count of zero is undefined
    behaviour, and with any other count it closes the socket and reports the
    times of the measured rounds, in order. *)
Theorem bench_program_outcome atoi inet_pton os net argv opts tok :
  (∀ tr fd addr, fd < 0 → os tr (Connect fd addr) < 0) →
  (∀ fd, network_ok (net fd)) → (∀ fd tr, 0 ≤ n_elapsed (net fd) tr < 2 ^ 32) →
  parse_options atoi argv = Some opts → Options.warmup opts < 2 ^ 31 → Options.messages opts < 2 ^ 31 →
  let w := Z.to_nat (Options.warmup opts) in
  let m := Z.to_nat (Options.messages opts) in
  let '(connected, tr) := connect_to inet_pton os opts [] in
  match connected with
  | None =>
      main atoi inet_pton os net argv = Some (mkrun (Returned 1 None) [] tr) ∧
      ∃ fd, failed tr (Connect fd (peer inet_pton opts))
  | Some fd =>
      (0 ≤ fd ∧ succeeded tr (Connect fd (peer inet_pton opts)) ∧ ∃ r, (SetNodelay fd, r) ∈ tr) ∧
      (main atoi inet_pton os net argv = None ↔ Options.messages opts = 0) ∧
      (Options.messages opts < 0 → ∃ sent,
         main atoi inet_pton os net argv = Some (mkrun Terminated sent tr) ∧ in_sequence tok w sent) ∧
      (0 < Options.messages opts → ∃ sent printed mean r,
         main atoi inet_pton os net argv =
           Some (mkrun (Returned 0 (Some (printed, mean))) sent (tr ++ [(CloseFd fd, r)])) ∧
         in_sequence tok (w + m) sent ∧
         summarises ((λ i, n_elapsed (net fd) (take (2 * (w + i + 1)) sent)) <$> List.seq 0 m) printed mean)
  end.
Proof.
  intros Hneg Hnet Htime Hopts Hw Hm w m.
  destruct (connect_to_spec inet_pton os opts Hneg) as (connected & tr & E & _ & Hc). rewrite E.
  unfold main. rewrite Hopts. cbn [mbind option_bind]. rewrite E.
  destruct connected as [fd|]; [|by split]. split; [done|].
  destruct (exchange_sends (net fd) opts tok (Hnet fd) Hw Hm) as (s & Hx & Hseq). fold w m in Hx, Hseq.
  rewrite Hx. set (rtts := _ <$> List.seq 0 m).
  assert (length rtts = m) as Hlen by (unfold rtts; by rewrite length_fmap, length_seq).
  destruct (decide (Options.messages opts < 0)) as [Hlt|Hge]; cbn [mbind option_bind].
  { split; [split; [done|lia]|]. split; [|lia]. intros _. exists (calls s). split; [done|].
    by replace w with (w + m)%nat by lia. }
  unfold Calls.call. destruct (decide (Options.messages opts = 0)) as [Hz|Hnz].
  { assert (rtts = []) as -> by (apply nil_length_inv; lia). split; [split; [done|]|lia].
    intros _. by rewrite report_nothing. }
  destruct (report_summary opts rtts) as (printed & mean & Hr & Hsum).
  - intros Hnil. rewrite Hnil in Hlen. simpl in Hlen. lia.
  - lia.
  - done.
  - apply Forall_fmap, Forall_forall. intros i _. apply Htime.
  - rewrite Hr. cbn [mbind option_bind]. split; [split; [done|lia]|]. split; [lia|].
    intros _. by exists (calls s), printed, mean, (os tr (CloseFd fd)).
Qed.

(** A host in dotted digits is understood; connections are accepted. *)
Definition sample_pton (host : string) : option (list Z) :=
  if decide (host = "127.0.0.1") then Some (htonl INADDR_LOOPBACK) else None.
Definition sample_sockets (tr : history request) (r : request) : Z :=
  match r with Socket => 3 | Connect fd _ => if decide (fd < 0) then -1 else 0 | _ => 0 end.
Definition sample_command : list string := ["client"; "--messages"; "2"; "--warmup"; "1"]%string.

Definition printed_of (c : run) : list Z :=
  match ended c with Returned _ (Some (printed, _)) => printed | _ => [] end.

(** Three orders over [sample_network], sent to where the gateway listens. *)
Lemma bench_program_outcome_witness :
  ∃ sent mean r,
    main sample_atoi sample_pton sample_sockets (λ _, sample_network) sample_command =
      Some (mkrun (Returned 0 (Some ([4; 4; 4; 4; 4; 4; 6], mean))) sent
              ([(Socket, 3); (SetNodelay 3, 0); (Connect 3 listen_addr, 0)] ++ [(CloseFd 3, r)])) ∧
    in_sequence (SessionToken.mk 0 1) 3 sent.
Proof.
  pose proof (bench_program_outcome sample_atoi sample_pton sample_sockets (λ _, sample_network)
    sample_command (Options.mk "127.0.0.1" 9000 2 1) (SessionToken.mk 0 1)) as H.
  assert (connect_to sample_pton sample_sockets (Options.mk "127.0.0.1" 9000 2 1) [] =
    (Some 3, [(Socket, 3); (SetNodelay 3, 0); (Connect 3 listen_addr, 0)])) as E by (vm_compute; reflexivity).
  rewrite E in H. destruct H as (_ & _ & _ & H).
  - intros tr fd addr Hfd. simpl. by rewrite decide_True.
  - intros _. apply sample_network_ok.
  - intros _ tr. simpl. pose proof (Z.mod_pos_bound (Z.of_nat (length tr)) 1000). lia.
  - vm_compute. reflexivity.
  - reflexivity.
  - reflexivity.
  - destruct (H eq_refl) as (sent & printed & mean & r & Hrun & Hseq & _).
    assert (printed_of <$> main sample_atoi sample_pton sample_sockets (λ _, sample_network) sample_command =
      Some [4; 4; 4; 4; 4; 4; 6]) as Hp by (vm_compute; reflexivity).
    rewrite Hrun in Hp. cbn [fmap option_fmap option_map printed_of ended] in Hp. injection Hp as ->.
    exists sent, mean, r. exact (conj Hrun Hseq).
Defined.
