(* ===== verification/GatewayProperties.v ===== *)
(** * Properties of the gateway thread

    Theorems about the connection handling of [epoll_server.cpp] with the
    queues it declares, between two steps of the matching thread. *)

From stdpp Require Import sorting.
From S2P Require Import Prelude Protocol Codec Wire Ring FrameParser Stream Session.
From S2P Require Import EngineMessages Queue Spsc SpscSequential SpscQueue Matching Gateway GatewayInvariant.
From S2P Require Import GatewayRequests.

(** [using CommandQueue], [using ResponseQueue] *)
Definition CommandQueue : Type := weak_ring V3 kQueueCapacity EngineCommand.t.
Definition ResponseQueue : Type := weak_ring V3 kQueueCapacity EngineResponse.t.

#[export] Instance command_queue : BoundedQueue CommandQueue EngineCommand.t :=
  weak_queue V3 kQueueCapacity.
#[export] Instance response_queue : BoundedQueue ResponseQueue EngineResponse.t :=
  weak_queue V3 kQueueCapacity.
#[export] Instance command_queue_laws : BoundedQueueLaws CommandQueue EngineCommand.t.
Proof. by apply (weak_queue_laws V3 kQueueCapacity (HC:=queue_capacity_4096)). Qed.
#[export] Instance response_queue_laws : BoundedQueueLaws ResponseQueue EngineResponse.t.
Proof. by apply (weak_queue_laws V3 kQueueCapacity (HC:=queue_capacity_4096)). Qed.

Abbreviation server := (world (CQ:=CommandQueue) (RQ:=ResponseQueue)).

(** ** A kernel for the examples *)

(** Every descriptor can be written, one client connects and gets descriptor
    10, and the bytes [incoming] arrive once. *)
Definition sample_kernel (incoming : list Z) : Kernel := {|
  k_send _ _ bytes := Z.of_nat (length bytes);
  k_recv tr _ := if existsb (λ s, match s with Recv _ _ => true | _ => false end) tr
                 then RecvAgain else RecvData incoming;
  k_accept tr := if decide (accepted_fds tr = [] ∧ 10 ∉ open_fds tr) then 10 else -1
|}.

Lemma sample_kernel_ok incoming :
  Forall is_u8 incoming → 0 < Z.of_nat (length incoming) ≤ read_buf_size →
  kernel_ok (sample_kernel incoming).
Proof.
  intros Hb Hl. split.
  - intros tr. simpl. case_decide; [right; by destruct_and?|by left].
  - intros tr fd bytes. simpl. destruct (existsb _ tr); [done|]. by intros [= <-].
Qed.

(** The server with one connection, on descriptor 10. *)
Definition sample_server : server := accepted initial_world 10.

Lemma sample_server_ok : gw_ok sample_server.
Proof. apply accepted_ok; [apply initial_world_ok|done|done]. Qed.

Definition sample_connection : Connection.t := Connection.make 10 (SessionToken.mk 0 1).

Lemma sample_server_connection : connections sample_server !! 10 = Some sample_connection.
Proof. reflexivity. Qed.

(** Two orders in sequence, one out of sequence, and a log-out with half an
    order behind it. *)
Definition numbered_order (n : Z) : list Z :=
  default [] (snd <$> encode_new_order (MessageHeader.set_sequence_number n sample_header)
    sample_order (replicate kFrameSize 0)).

Definition numbered_logout (n : Z) : list Z :=
  default [] (encode_header (stamp MessageType.Logout
    (MessageHeader.set_sequence_number n sample_header)) (replicate kFrameSize 0)).

Definition sample_bytes : list Z :=
  numbered_order 1 ++ numbered_order 2 ++ numbered_order 9 ++ numbered_logout 3 ++
  take 32 (numbered_order 4).

Lemma sample_bytes_ok : Forall is_u8 sample_bytes ∧ 0 < Z.of_nat (length sample_bytes) ≤ read_buf_size.
Proof. evaluate. Qed.

Lemma sample_recv bytes :
  k_recv (sample_kernel bytes) (trace sample_server) 10 = RecvData bytes.
Proof. reflexivity. Qed.

Lemma sample_contents : contents parser_capacity (Connection.parser sample_connection) = [].
Proof. exact (proj2 (parser_ok_empty (Capacity:=4096))). Qed.

Lemma sample_decode bytes :
  decode_stream (contents parser_capacity (Connection.parser sample_connection) ++ bytes) =
  ((decode_stream bytes).1.1, (decode_stream bytes).1.2, (decode_stream bytes).2).
Proof. rewrite sample_contents. simpl. by destruct (decode_stream bytes) as [[??]?]. Qed.

Lemma sample_fit (bytes : list Z) :
  Z.of_nat (length bytes) ≤ read_buf_size →
  Z.of_nat (length (contents parser_capacity (Connection.parser sample_connection))) +
    Z.of_nat (length bytes) ≤ parser_capacity.
Proof. rewrite sample_contents. unfold read_buf_size, parser_capacity. cbn [length]. lia. Qed.

Lemma sample_queue : q_items (cmd_queue sample_server) = [].
Proof. apply (q_empty_items (Q:=CommandQueue)). Qed.

(** Its command queue takes 4095 commands. *)
Lemma sample_submits cmds w' :
  submits cmds sample_server w' → Z.of_nat (length cmds) ≤ 4095 → q_items (cmd_queue w') = cmds.
Proof.
  intros [new Hnew] Hl. rewrite (pushes_items _ _ _ _ Hnew), (pushes_room _ _ _ _ Hnew); [done|]. exact Hl.
Qed.

(** ** Client data *)

(** C9: A readable client, on every branch: the whole event terminates without
    undefined behaviour and keeps the tables consistent.  A closed or failing
    socket and a full buffer close the connection and tell the engine; data
    is cut into frames behind what was buffered, and up to the first log-out
    every message is answered in order: a bad sequence number with a reject
    frame, log-out and heartbeat with an accept frame, an order with one
    command for the engine, dropped only when the queue is full. *)
Theorem client_event_served os fd (w : server) :
  kernel_ok os → gw_ok w →
  ∃ w', client_event os fd true w = Some (tt, w') ∧ gw_ok w' ∧ client_served os w w' fd.
Proof. intros Hos Hw. by apply client_event_spec. Qed.

Lemma client_event_served_witness :
  ∃ w', client_event (sample_kernel sample_bytes) 10 true sample_server = Some (tt, w') ∧
    EngineCommand.request_sequence <$> q_items (cmd_queue w') = [1; 2] ∧
    length (trace w') = 7%nat.
Proof.
  destruct (client_event_served (sample_kernel sample_bytes) 10 sample_server)
    as (w' & Hrun & _ & Hserved).
  - apply sample_kernel_ok; apply sample_bytes_ok.
  - apply sample_server_ok.
  - exists w'. split; [exact Hrun|]. unfold client_served in Hserved.
    rewrite sample_server_connection in Hserved. cbv zeta in Hserved.
    change (k_recv _ _ _) with (RecvData sample_bytes) in Hserved. cbv iota in Hserved.
    rewrite decide_True in Hserved by (apply sample_fit, sample_bytes_ok).
    unfold served in Hserved. rewrite sample_decode in Hserved.
    destruct (serve_requests _ _ _) as [[[actions n] k] l] eqn:E'.
    assert (EngineCommand.request_sequence <$> commands actions = [1; 2] ∧ length (replies actions) = 2%nat)
      as [Hc Hr].
    { change actions with (actions, n, k, l).1.1.1. rewrite <- E'. split; vm_compute; reflexivity. }
    destruct Hserved as (p & rs & _ & _ & Hlen & Htr & Hq & _).
    apply sample_submits in Hq; [|rewrite <- (length_fmap EngineCommand.request_sequence), Hc; vm_compute; discriminate].
    rewrite Hq, Htr. split.
    + exact Hc.
    + rewrite length_app, length_cons, length_zip_with, Hlen, Hr. reflexivity.
Defined.

(** ** Sequence numbers *)

(** The commands of a run of messages are numbered upwards within the range
    of sequence numbers the run consumed. *)
Lemma serve_requests_numbers tok n msgs :
  0 ≤ n → n + Z.of_nat (length msgs) < 2 ^ 64 →
  let '(actions, n', k, _) := serve_requests tok n msgs in
  n ≤ n' ≤ n + Z.of_nat k ∧ (k ≤ length msgs)%nat ∧
  StronglySorted Z.lt (EngineCommand.request_sequence <$> commands actions) ∧
  Forall (λ i, n ≤ i < n') (EngineCommand.request_sequence <$> commands actions).
Proof.
  revert n. induction msgs as [|msg msgs IH]; intros n Hn Hl; simpl.
  { split_and!; [lia|lia|done|constructor|constructor]. }
  simpl in Hl. unfold answer. case_decide as Hs.
  2: { specialize (IH n Hn ltac:(lia)). destruct (serve_requests tok n msgs) as [[[actions n'] k] l].
       destruct IH as (? & ? & ? & ?). split_and!; [lia|lia|lia|done|done]. }
  rewrite (wrap_uint 64 (n + 1)) by (split; lia).
  assert (∀ a, commands [a] = [] ∨ commands [a] = [command_of tok msg] → match serve_requests tok (n + 1) msgs with
    (actions, n', k, _) => n ≤ n' ≤ n + Z.of_nat (S k) ∧ (S k ≤ S (length msgs))%nat ∧
      StronglySorted Z.lt (EngineCommand.request_sequence <$> commands (a :: actions)) ∧
      Forall (λ i, n ≤ i < n') (EngineCommand.request_sequence <$> commands (a :: actions)) end) as Hnext.
  { intros a Ha. specialize (IH (n + 1) ltac:(lia) ltac:(lia)).
    destruct (serve_requests tok (n + 1) msgs) as [[[actions n'] k] l].
    destruct IH as (Hb & Hk & Hsort & Hrange).
    assert (commands (a :: actions) = commands [a] ++ commands actions) as -> by (by destruct a).
    assert (EngineCommand.request_sequence (command_of tok msg) = n) as Hseq
      by (unfold command_of; by destruct (DecodedMessage.type msg)).
    assert (Forall (λ i, n ≤ i < n') (EngineCommand.request_sequence <$> commands actions)) as Hr'
      by (eapply Forall_impl; [exact Hrange|]; simpl; lia).
    split; [lia|]. split; [lia|]. destruct Ha as [-> | ->]; simpl; [done|]. rewrite Hseq. split.
    - constructor; [done|]. eapply Forall_impl; [exact Hrange|]. simpl. lia.
    - constructor; [lia|done]. }
  destruct (DecodedMessage.type msg);
    try (specialize (Hnext (Submit (command_of tok msg)) (or_intror eq_refl));
         by destruct (serve_requests tok (n + 1) msgs) as [[[??]?]?]).
  - specialize (Hnext (Reply (control_frame (DecodedMessage.header msg))) (or_introl eq_refl)).
    by destruct (serve_requests tok (n + 1) msgs) as [[[??]?]?].
  - simpl. split_and!; [lia|lia|lia|constructor|constructor].
Qed.

(** The data event of an open connection whose bytes fit, in one statement. *)
Lemma client_event_data os fd (w : server) conn bytes msgs st rest :
  kernel_ok os → gw_ok w → connections w !! fd = Some conn →
  k_recv os (trace w) fd = RecvData bytes →
  Z.of_nat (length (contents parser_capacity (Connection.parser conn))) +
    Z.of_nat (length bytes) ≤ parser_capacity →
  decode_stream (contents parser_capacity (Connection.parser conn) ++ bytes) = (msgs, st, rest) →
  ∃ w' actions n k logout p rs,
    client_event os fd true w = Some (tt, w') ∧
    serve_requests (Connection.token conn) (Connection.expected_sequence conn) msgs =
      (actions, n, k, logout) ∧
    connections w' = <[fd := Connection.mk p (Connection.token conn) n fd]> (connections w) ∧
    trace w' = trace w ++ Recv fd (RecvData bytes) :: zip_with (Send fd) (replies actions) rs ∧
    submits (commands actions) w w'.
Proof.
  intros Hos Hw Hc Hr Hfit Hd. destruct (client_event_spec os Hos fd w Hw) as (w' & Hrun & _ & Hs).
  unfold client_served in Hs. rewrite Hc, Hr in Hs. cbv zeta iota in Hs.
  rewrite decide_True in Hs by done. unfold served in Hs. rewrite Hd in Hs.
  destruct (serve_requests _ _ msgs) as [[[actions n] k] logout].
  destruct Hs as (p & rs & Hcs & _ & _ & Ht & Hq & _).
  by exists w', actions, n, k, logout, p, rs.
Qed.

(** C15: No order is submitted twice: the commands one event adds to the queue
    carry the connection's token and strictly increasing request sequence
    numbers, all between the number the connection expected before and the
    one it expects afterwards. *)
Theorem commands_in_sequence os fd (w : server) conn bytes msgs st rest :
  kernel_ok os → gw_ok w → connections w !! fd = Some conn →
  k_recv os (trace w) fd = RecvData bytes →
  Z.of_nat (length (contents parser_capacity (Connection.parser conn))) +
    Z.of_nat (length bytes) ≤ parser_capacity →
  decode_stream (contents parser_capacity (Connection.parser conn) ++ bytes) = (msgs, st, rest) →
  Connection.expected_sequence conn + Z.of_nat (length msgs) < 2 ^ 64 →
  ∃ w' conn' new,
    client_event os fd true w = Some (tt, w') ∧ connections w' !! fd = Some conn' ∧
    q_items (cmd_queue w') = q_items (cmd_queue w) ++ new ∧
    StronglySorted Z.lt (EngineCommand.request_sequence <$> new) ∧
    Forall (λ cmd, EngineCommand.session cmd = Connection.token conn ∧
      Connection.expected_sequence conn ≤ EngineCommand.request_sequence cmd <
      Connection.expected_sequence conn') new.
Proof.
  intros Hos Hw Hc Hr Hfit Hd Hroom.
  destruct (client_event_data os fd w conn bytes msgs st rest Hos Hw Hc Hr Hfit Hd)
    as (w' & actions & n & k & logout & p & rs & Hrun & Hs & Hcs & _ & Hq).
  destruct (ok_connections _ Hw fd conn Hc) as (_ & _ & _ & _ & Hn).
  pose proof (serve_requests_numbers (Connection.token conn) _ msgs (proj1 Hn) Hroom) as Hnum.
  pose proof (serve_requests_commands (Connection.token conn) (Connection.expected_sequence conn) msgs)
    as Htok. rewrite Hs in Hnum, Htok. destruct Hnum as (_ & _ & Hsort & Hrange).
  destruct Hq as [new [_ Hq Hnew _ _]].
  exists w', (Connection.mk p (Connection.token conn) n fd), new.
  split; [done|]. split; [by rewrite Hcs, lookup_insert_eq|]. split; [done|]. split.
  - eapply sublist_StronglySorted; [|exact Hsort]. by apply fmap_sublist.
  - eapply sublist_Forall; [exact Hnew|]. apply Forall_and. split; [done|]. by apply Forall_fmap in Hrange.
Qed.

Lemma commands_in_sequence_witness :
  ∃ w' conn' new,
    client_event (sample_kernel sample_bytes) 10 true sample_server = Some (tt, w') ∧
    connections w' !! 10 = Some conn' ∧ q_items (cmd_queue w') = new ∧
    StronglySorted Z.lt (EngineCommand.request_sequence <$> new).
Proof.
  destruct (commands_in_sequence (sample_kernel sample_bytes) 10 sample_server sample_connection
    sample_bytes _ _ _ (sample_kernel_ok _ (proj1 sample_bytes_ok) (proj2 sample_bytes_ok))
    sample_server_ok sample_server_connection (sample_recv _)
    (sample_fit _ (proj2 (proj2 sample_bytes_ok))) (sample_decode _))
    as (w' & conn' & new & Hrun & Hc & Hq & Hsort & _).
  - vm_compute. reflexivity.
  - rewrite sample_queue in Hq. exists w', conn', new. exact (conj Hrun (conj Hc (conj Hq Hsort))).
Defined.

(** The session class and the gateway take the same decision on the sequence
    number of every request and stop at the same log-out. *)
Lemma serve_agrees tok s msgs :
  Forall (λ m, is_known_request_type (DecodedMessage.type m) = true) msgs →
  ∃ frames s', serve s msgs = Some (frames, s') ∧
    OrderEntrySession.expected_sequence_number s' =
    (serve_requests tok (OrderEntrySession.expected_sequence_number s) msgs).1.1.2 ∧
    length frames =
    length (serve_requests tok (OrderEntrySession.expected_sequence_number s) msgs).1.1.1.
Proof.
  revert s. induction msgs as [|msg msgs IH]; intros s Hm; [by exists [], s|].
  apply Forall_cons in Hm as [Hk Hm]. cbn [serve serve_requests].
  destruct (spec_handle s msg) as [[r s1] open] eqn:E.
  rewrite (handle_message_frame _ _ _ _ _ _ E) by (by rewrite length_replicate).
  cbn [mbind option_bind].
  assert (∃ a, answer tok (OrderEntrySession.expected_sequence_number s) msg =
    (a, OrderEntrySession.expected_sequence_number s1, negb open)) as [a ->].
  { revert E. unfold spec_handle, answer. rewrite Hk. cbn [negb].
    change (OrderEntrySession.expected_sequence_number_ s) with
      (OrderEntrySession.expected_sequence_number s).
    case_decide; intros E; injection E as <- <- <-; [|by eexists].
    set (v := verdict _ _ _).
    assert (OrderEntrySession.expected_sequence_number (settle s msg v) =
            OrderEntrySession.expected_sequence_number s +₆₄ 1) as ->
      by (unfold settle; by repeat case_match).
    destruct (DecodedMessage.type msg); by eexists. }
  destruct open; cbn [negb]; [|by eexists _, _].
  destruct (IH s1 Hm) as (frames & s2 & -> & Hn & Hl).
  destruct (serve_requests tok _ msgs) as [[[actions n] k] l].
  eexists _, s2. split; [done|]. split; [exact Hn|]. simpl. by f_equal.
Qed.

(** C16: The gateway numbers requests like the session class: after a data event
    the connection expects the number that a session with the same expected
    number expects after [handle_message] was called on the same messages. *)
Theorem gateway_session_sequence os fd (w : server) conn bytes msgs st rest s :
  kernel_ok os → gw_ok w → connections w !! fd = Some conn →
  k_recv os (trace w) fd = RecvData bytes →
  Z.of_nat (length (contents parser_capacity (Connection.parser conn))) +
    Z.of_nat (length bytes) ≤ parser_capacity →
  decode_stream (contents parser_capacity (Connection.parser conn) ++ bytes) = (msgs, st, rest) →
  OrderEntrySession.expected_sequence_number s = Connection.expected_sequence conn →
  ∃ w' conn' frames s',
    client_event os fd true w = Some (tt, w') ∧ connections w' !! fd = Some conn' ∧
    serve s msgs = Some (frames, s') ∧
    OrderEntrySession.expected_sequence_number s' = Connection.expected_sequence conn'.
Proof.
  intros Hos Hw Hc Hr Hfit Hd Hseq.
  destruct (client_event_data os fd w conn bytes msgs st rest Hos Hw Hc Hr Hfit Hd)
    as (w' & actions & n & k & logout & p & rs & Hrun & Hs & Hcs & _).
  destruct (ok_connections _ Hw fd conn Hc) as (_ & _ & _ & Hp & _).
  assert (Forall request_understood msgs) as Hund.
  { eapply decode_stream_understood; [|exact Hd]. apply Forall_app. split.
    - by apply contents_u8.
    - by apply (recv_bounded _ Hos _ _ _ Hr). }
  destruct (serve_agrees (Connection.token conn) s msgs) as (frames & s' & Hserve & Hn & _).
  { eapply Forall_impl; [exact Hund|]. by intros m []. }
  exists w', (Connection.mk p (Connection.token conn) n fd), frames, s'. split; [done|].
  split; [by rewrite Hcs, lookup_insert_eq|]. split; [done|]. by rewrite Hn, Hseq, Hs.
Qed.

Lemma gateway_session_sequence_witness :
  ∃ w' conn' frames s',
    client_event (sample_kernel sample_bytes) 10 true sample_server = Some (tt, w') ∧
    connections w' !! 10 = Some conn' ∧
    serve (OrderEntrySession.make 7) (decode_stream sample_bytes).1.1 = Some (frames, s') ∧
    OrderEntrySession.expected_sequence_number s' = Connection.expected_sequence conn'.
Proof.
  destruct (gateway_session_sequence (sample_kernel sample_bytes) 10 sample_server sample_connection
    sample_bytes _ _ _ (OrderEntrySession.make 7)
    (sample_kernel_ok _ (proj1 sample_bytes_ok) (proj2 sample_bytes_ok))
    sample_server_ok sample_server_connection (sample_recv _)
    (sample_fit _ (proj2 (proj2 sample_bytes_ok))) (sample_decode _))
    as (w' & conn' & frames & s' & H).
  - reflexivity.
  - exists w', conn', frames, s'. exact H.
Defined.

(** C40: Neither a protocol error nor a log-out closes the connection: as long as
    data arrives and fits, the event leaves every descriptor open and every
    connection in the table, whatever the bytes are. *)
Theorem data_never_closes os fd (w : server) conn bytes :
  kernel_ok os → gw_ok w → connections w !! fd = Some conn →
  k_recv os (trace w) fd = RecvData bytes →
  Z.of_nat (length (contents parser_capacity (Connection.parser conn))) +
    Z.of_nat (length bytes) ≤ parser_capacity →
  ∃ w' new, client_event os fd true w = Some (tt, w') ∧
    dom (connections w') = dom (connections w) ∧
    trace w' = trace w ++ new ∧ Forall (λ sc, ∀ fd', sc ≠ Close fd') new.
Proof.
  intros Hos Hw Hc Hr Hfit. destruct (decode_stream (contents parser_capacity
    (Connection.parser conn) ++ bytes)) as [[msgs st] rest] eqn:Hd.
  destruct (client_event_data os fd w conn bytes msgs st rest Hos Hw Hc Hr Hfit Hd)
    as (w' & actions & n & k & logout & p & rs & Hrun & Hs & Hcs & Ht & _).
  eexists w', _. split; [done|]. split; [by rewrite Hcs, dom_insert_lookup_L|]. split; [exact Ht|].
  constructor; [done|]. apply Forall_forall. intros sc Hin fd' ->.
  apply list_elem_of_lookup in Hin as [i Hi]. apply lookup_zip_with_Some in Hi.
  by destruct Hi as (f & r & ? & _).
Qed.

(** 64 bytes that are no frame. *)
Definition garbage : list Z := replicate kFrameSize 0.

Lemma garbage_ok : Forall is_u8 garbage ∧ 0 < Z.of_nat (length garbage) ≤ read_buf_size.
Proof. evaluate. Qed.

Lemma data_never_closes_witness :
  (decode_stream garbage).1.2 = FrameParser.Status.ProtocolError ∧
  ∃ w' new, client_event (sample_kernel garbage) 10 true sample_server = Some (tt, w') ∧
    trace w' = trace sample_server ++ new ∧ Forall (λ sc, ∀ fd', sc ≠ Close fd') new.
Proof.
  split; [vm_compute; reflexivity|].
  destruct (data_never_closes (sample_kernel garbage) 10 sample_server sample_connection garbage
    (sample_kernel_ok _ (proj1 garbage_ok) (proj2 garbage_ok)) sample_server_ok
    sample_server_connection (sample_recv _) (sample_fit _ (proj2 (proj2 garbage_ok))))
    as (w' & new & Hrun & _ & Ht).
  exists w', new. exact (conj Hrun Ht).
Defined.

(** ** A full command queue *)

(** The event of a client whose bytes are one whole frame. *)
Lemma client_event_message os fd (w : server) conn bytes msg :
  kernel_ok os → gw_ok w → connections w !! fd = Some conn →
  contents parser_capacity (Connection.parser conn) = [] →
  k_recv os (trace w) fd = RecvData bytes →
  decode_stream bytes = ([msg], FrameParser.Status.NeedMoreData, []) →
  let '(a, n, _) := answer (Connection.token conn) (Connection.expected_sequence conn) msg in
  ∃ w' conn' rs, client_event os fd true w = Some (tt, w') ∧ gw_ok w' ∧
    connections w' !! fd = Some conn' ∧ contents parser_capacity (Connection.parser conn') = [] ∧
    Connection.token conn' = Connection.token conn ∧ Connection.expected_sequence conn' = n ∧
    length rs = length (replies [a]) ∧
    trace w' = trace w ++ Recv fd (RecvData bytes) :: zip_with (Send fd) (replies [a]) rs ∧
    submits (commands [a]) w w'.
Proof.
  intros Hos Hw Hc Hempty Hr Hd. pose proof (recv_bounded _ Hos _ _ _ Hr) as [_ Hlen].
  destruct (client_event_spec os Hos fd w Hw) as (w' & Hrun & Hw' & Hs).
  unfold client_served in Hs. rewrite Hc, Hr in Hs. cbv zeta iota in Hs. rewrite Hempty in Hs.
  rewrite decide_True in Hs by (unfold read_buf_size, parser_capacity in *; simpl; lia).
  unfold served in Hs. rewrite Hempty in Hs. cbn [app] in Hs. rewrite Hd in Hs. cbn [serve_requests] in Hs.
  apply decode_stream_one in Hd as Hone.
  assert (drop (1 * kFrameSize) bytes = []) as Hrest by exact Hone.
  destruct (answer _ _ msg) as [[a n] [|]]; destruct Hs as (p & rs & Hcs & Hcont & Hrs & Ht & Hq & _);
    rewrite Hrest in Hcont;
    (exists w', (Connection.mk p (Connection.token conn) n fd), rs; by rewrite Hcs, lookup_insert_eq).
Qed.

(** C38: An order that meets a full command queue is lost for good: the event
    submits nothing and sends nothing to the client, but consumes the order's
    sequence number.  When the client sends the same order again, in whatever
    state the server is by then, with room in the queue or without, the
    connection being as this event left it, that event submits nothing either
    and answers that the sequence number is bad. *)
Theorem full_queue_drops_order os fd (w : server) conn bytes msg :
  kernel_ok os → gw_ok w → connections w !! fd = Some conn →
  contents parser_capacity (Connection.parser conn) = [] →
  k_recv os (trace w) fd = RecvData bytes →
  decode_stream bytes = ([msg], FrameParser.Status.NeedMoreData, []) →
  DecodedMessage.type msg ∈ [MessageType.NewOrder; MessageType.CancelOrder; MessageType.ModifyOrder] →
  MessageHeader.sequence_number (DecodedMessage.header msg) = Connection.expected_sequence conn →
  Z.of_nat (length (q_items (cmd_queue w))) = usable V3 kQueueCapacity →
  ∃ w' conn', client_event os fd true w = Some (tt, w') ∧ gw_ok w' ∧
    q_items (cmd_queue w') = q_items (cmd_queue w) ∧
    trace w' = trace w ++ [Recv fd (RecvData bytes)] ∧
    connections w' !! fd = Some conn' ∧
    Connection.expected_sequence conn' = Connection.expected_sequence conn +₆₄ 1 ∧
    ∀ later : server, gw_ok later → connections later !! fd = Some conn' →
      k_recv os (trace later) fd = RecvData bytes →
      ∃ w2 conn2 r, client_event os fd true later = Some (tt, w2) ∧
        q_items (cmd_queue w2) = q_items (cmd_queue later) ∧
        trace w2 = trace later ++ [Recv fd (RecvData bytes);
          Send fd (bad_sequence_frame (Connection.token conn) (DecodedMessage.header msg)) r] ∧
        connections w2 !! fd = Some conn2 ∧
        Connection.expected_sequence conn2 = Connection.expected_sequence conn'.
Proof.
  intros Hos Hw Hc Hempty Hr Hd Hty Hseq Hfull.
  pose proof (client_event_message os fd w conn bytes msg Hos Hw Hc Hempty Hr Hd) as Hfirst.
  destruct (ok_connections _ Hw fd conn Hc) as (_ & _ & _ & _ & Hn).
  assert (∃ cmd, answer (Connection.token conn) (Connection.expected_sequence conn) msg =
    (Submit cmd, Connection.expected_sequence conn +₆₄ 1, false)) as [cmd E].
  { unfold answer. rewrite decide_True by done. rewrite !elem_of_cons, elem_of_nil in Hty.
    destruct_or!; try done; rewrite Hty; by eexists. }
  rewrite E in Hfirst. destruct Hfirst as (w' & conn' & rs & Hrun & Hw' & Hc' & Hempty' & Htok & Hn' & _ & Ht & new & Hnew).
  rewrite (full_takes_nothing _ _ _ _ Hfull Hnew) in Hnew. apply pushes_items in Hnew as Hi. rewrite app_nil_r in Hi.
  exists w', conn'. split_and!; [done|done|done|exact Ht|done|done|].
  intros later Hlater Hcl Hrl. pose proof (client_event_message os fd later conn' bytes msg Hos Hlater Hcl Hempty' Hrl Hd) as H2.
  unfold answer in H2. rewrite decide_False in H2.
  - rewrite Htok in H2. destruct H2 as (w2 & conn2 & rs2 & Hrun2 & _ & Hc2 & _ & _ & Hn2 & Hrs2 & Ht2 & new2 & Hnew2).
    destruct rs2 as [|r [|]]; try done. exists w2, conn2, r. split_and!; try done.
    pose proof (pushes_new _ _ _ _ Hnew2) as ->%sublist_nil_r. apply pushes_items in Hnew2. by rewrite app_nil_r in Hnew2.
  - rewrite Hn', Hseq. destruct Hn as [Hn0 Hn1]. unfold wrap. change (2 ^ 64) with 18446744073709551616 in *.
    Z.div_mod_to_equations. lia.
Qed.

(** A client that sends the same bytes again and again. *)
Definition repeating_kernel (bytes : list Z) : Kernel := {|
  k_send _ _ bytes := Z.of_nat (length bytes);
  k_recv _ _ := RecvData bytes;
  k_accept _ := -1
|}.

Lemma repeating_kernel_ok bytes :
  Forall is_u8 bytes ∧ 0 < Z.of_nat (length bytes) ≤ read_buf_size → kernel_ok (repeating_kernel bytes).
Proof. intros Hb. split; [by left|]. intros tr fd bs [= <-]. exact Hb. Qed.

(** An empty server but for a full command queue. *)
Lemma sample_full :
  ∃ q : CommandQueue, gw_ok (set_cmd_queue q sample_server) ∧
    Z.of_nat (length (q_items q)) = usable V3 kQueueCapacity.
Proof.
  set (cmd := session_closed (SessionToken.mk 0 1)).
  destruct (q_fill (Q:=CommandQueue) cmd (Z.to_nat (usable V3 kQueueCapacity))) as (q & Hq & Hi); [done|].
  exists q. rewrite Hi, length_replicate. split; [|done].
  pose proof sample_server_ok as Hok. destruct Hok. split; try done. cbn [cmd_queue set_cmd_queue].
  rewrite Hi. by apply Forall_replicate.
Qed.

Lemma order_1_ok : Forall is_u8 (numbered_order 1) ∧ 0 < Z.of_nat (length (numbered_order 1)) ≤ read_buf_size.
Proof. evaluate. Qed.

Lemma full_queue_drops_order_witness :
  let os := repeating_kernel (numbered_order 1) in
  ∃ (q : CommandQueue) w' w2 frame r, let w := set_cmd_queue q sample_server in
    client_event os 10 true w = Some (tt, w') ∧ q_items (cmd_queue w') = q_items (cmd_queue w) ∧
    client_event os 10 true w' = Some (tt, w2) ∧ q_items (cmd_queue w2) = q_items (cmd_queue w) ∧
    trace w2 = trace w ++ [Recv 10 (RecvData (numbered_order 1)); Recv 10 (RecvData (numbered_order 1));
                           Send 10 frame r].
Proof.
  intros os. destruct sample_full as (q & Hok & Hfull).
  destruct (full_queue_drops_order os 10 (set_cmd_queue q sample_server)
    sample_connection (numbered_order 1) (hd DecodedMessage.default (decode_stream (numbered_order 1)).1.1)
    (repeating_kernel_ok _ order_1_ok) Hok sample_server_connection sample_contents
    eq_refl) as (w' & conn' & Hrun & Hw' & Hi & Ht & Hc' & _ & Hagain).
  - vm_compute. reflexivity.
  - left.
  - vm_compute. reflexivity.
  - exact Hfull.
  - destruct (Hagain w' Hw' Hc' eq_refl) as (w2 & conn2 & r & Hrun2 & Hi2 & Ht2 & _).
    rewrite Ht, <- app_assoc in Ht2. eexists q, w', w2, _, r.
    exact (conj Hrun (conj Hi (conj Hrun2 (conj (eq_trans Hi2 Hi) Ht2)))).
Defined.
