(* ===== verification/System.v ===== *)
(** * The gateway thread and the matching thread together

    Models the loops of [main] in
    [core/order_entry/examples/epoll_server.cpp] as a machine whose steps are
    the loop bodies of [Gateway], interleaved with the steps of
    [Matching.engine_step].  The two threads share the two queues and the
    eventfd.  Every step chooses how recent the stores are that its queue
    operations see of the other thread. *)

From S2P Require Import Prelude Protocol Codec Wire Ring FrameParser Stream Session.
From S2P Require Import EngineMessages Queue Matching Gateway GatewayInvariant.
From S2P Require Import GatewayRequests.

(** What [epoll_wait] returns: events as a descriptor and whether [EPOLLIN]
    is set, [EINTR], or another error. *)
Inductive poll_result : Type :=
| Events (evs : list (Z * bool))
| Interrupted
| PollFailed.

(** Where [main] is, with the events of the batch that are left. *)
Inductive main_pc : Type :=
| Waiting                                                  (** in [epoll_wait] *)
| Handling (evs : list (Z * bool))                         (** before the next event *)
| Draining (evs : list (Z * bool))                         (** in the response loop *)
| Accepting (readable : bool) (evs : list (Z * bool))      (** in the accept loop *)
| Receiving (fd : Z) (readable : bool) (evs : list (Z * bool))   (** before [recv] *)
| Parsing (fd : Z) (should_close : bool) (evs : list (Z * bool)) (** in the parse loop *)
| Joining.                                                 (** in [matching.join()] *)

(** [EngineCommand shutdown{}] with its type set. *)
Definition shutdown_command : EngineCommand.t :=
  EngineCommand.mk 0 0 0 0 Side.Buy (SessionToken.mk 0 0) EngineCommandType.Shutdown.

Section system.
Context {CQ RQ E : Type}.
Context `{!BoundedQueue CQ EngineCommand.t, !BoundedQueue RQ EngineResponse.t, !EventFd E}.
Context (os : Kernel) (event_fd listen_fd : Z).
Abbreviation world := (world (CQ:=CQ) (RQ:=RQ)).

(** [read(event_fd, ...)]: takes the matching thread's signal if there is one. *)
Definition read_eventfd (w : world) (notify : E) : world * E :=
  (if ev_ready notify then set_rsp_queue (q_sync (rsp_queue w)) w else w, ev_clear notify).

(** One step of [main]; [None] is undefined behaviour. *)
Definition main_step (poll : poll_result) (pc : main_pc) (w : world) (notify : E)
    : option (main_pc * world * E) :=
  match pc with
  | Waiting =>
      match poll with
      | Events evs => Some (Handling evs, w, notify)
      | Interrupted => Some (Waiting, w, notify)
      | PollFailed =>
          '(_, w) ← push_command shutdown_command w;
          Some (Joining, w, notify)
      end
  | Handling [] => Some (Waiting, w, notify)
  | Handling ((fd, readable) :: evs) =>
      if decide (fd = event_fd) then
        let '(w, notify) := read_eventfd w notify in Some (Draining evs, w, notify)
      else if decide (fd = listen_fd) then Some (Accepting readable evs, w, notify)
      else Some (Receiving fd readable evs, w, notify)
  | Draining evs =>
      '(go, w) ← drain_body os w;
      Some (if go : bool then Draining evs else Handling evs, w, notify)
  | Accepting readable evs =>
      '(go, w) ← accept_body os w;
      Some (if go : bool then Accepting readable evs else Receiving listen_fd readable evs, w, notify)
  | Receiving fd readable evs =>
      '(go, w) ← receive os fd readable w;
      Some (if go : bool then Parsing fd false evs else Handling evs, w, notify)
  | Parsing fd should_close evs =>
      '(should_close, go, w) ← parse_body os fd should_close w;
      Some (if go : bool then Parsing fd should_close evs else Handling evs, w, notify)
  | Joining => Some (Joining, w, notify)
  end.

(** Both threads.  The last two fields are history: the commands that found
    room in the queue, and the responses the gateway took out. *)
Record system : Type := mksystem {
  main : main_pc;
  gateway : world;
  engine : engine_pc;
  notify : E;
  submitted : list EngineCommand.t;
  answered : list EngineResponse.t
}.

Definition start : system := mksystem Waiting initial_world Polling ev_init [] [].

(** The state after [main] moved: it only appends to the command queue and
    only removes from the response queue. *)
Definition after_main (s : system) (pc : main_pc) (w : world) (e : E) : system :=
  let cmds := q_items (cmd_queue (gateway s)) in
  let rsps := q_items (rsp_queue (gateway s)) in
  mksystem pc w (engine s) e
    (submitted s ++ drop (length cmds) (q_items (cmd_queue w)))
    (answered s ++ take (length rsps - length (q_items (rsp_queue w))) rsps).

(** [engine_running] is set once, to true. *)
Definition main_moves (s : system) (ns : list nat * list nat) (poll : poll_result) : option system :=
  '(pc, w, e) ← main_step poll (main s) (look ns (gateway s)) (notify s);
  Some (after_main s pc w e).

Definition engine_moves (s : system) (ns : list nat * list nat) : option system :=
  let w := look ns (gateway s) in
  '(pc, cq, rq, e) ← engine_step true (engine s) (cmd_queue w) (rsp_queue w) (notify s);
  Some (mksystem (main s) (set_rsp_queue rq (set_cmd_queue cq w)) pc e (submitted s) (answered s)).

Inductive system_step (s : system) : system → Prop :=
| step_main ns poll s' : main_moves s ns poll = Some s' → system_step s s'
| step_engine ns s' : engine_moves s ns = Some s' → system_step s s'.

Definition system_reachable : system → Prop := rtc system_step start.

(** ** A schedule

    The choices behind a run, so that concrete runs can be evaluated. *)

Inductive move : Type :=
| MoveMain (ns : list nat * list nat) (poll : poll_result)
| MoveEngine (ns : list nat * list nat).

Definition run_move (s : system) (m : move) : option system :=
  match m with
  | MoveMain ns poll => main_moves s ns poll
  | MoveEngine ns => engine_moves s ns
  end.

Fixpoint run_moves (s : system) (ms : list move) : option system :=
  match ms with
  | [] => Some s
  | m :: ms => s ← run_move s m; run_moves s ms
  end.

Lemma run_moves_app s ms ms' :
  run_moves s (ms ++ ms') = s1 ← run_moves s ms; run_moves s1 ms'.
Proof.
  revert s. induction ms as [|m ms IH]; intros s; [done|]. cbn [run_moves app].
  by destruct (run_move s m); cbn [mbind option_bind].
Qed.

(** Going on where a run of two moves ended. *)
Lemma run_moves_two s m m' s' ms :
  run_moves s [m; m'] = Some s' → run_moves s (m :: m' :: ms) = run_moves s' ms.
Proof. intros H. change (m :: m' :: ms) with ([m; m'] ++ ms). by rewrite run_moves_app, H. Qed.

Lemma run_move_step s m s' : run_move s m = Some s' → system_step s s'.
Proof. destruct m as [ns poll|ns]; [apply step_main|apply step_engine]. Qed.

Lemma run_moves_reach s ms s' : run_moves s ms = Some s' → rtc system_step s s'.
Proof.
  revert s. induction ms as [|m ms IH]; intros s; cbn [run_moves]; [by intros [= <-]|].
  destruct (run_move s m) as [s1|] eqn:E'; [|done]. intros Hrun.
  eapply rtc_l; [by eapply run_move_step|by apply IH].
Qed.

End system.
