(* ===== verification/SystemInvariant.v ===== *)
(** * The invariant of the two threads

    Every step of [main] appends commands to one queue, takes responses from
    the other and keeps the gateway's invariant ([moves]); [system_ok] adds
    what the two threads promise each other. *)

From S2P Require Import Prelude Protocol Codec Wire Ring FrameParser Stream Session.
From S2P Require Import EngineMessages Queue Matching Gateway GatewayInvariant.
From S2P Require Import GatewayRequests System.

(** A command the matching thread answers. *)
Definition is_order (cmd : EngineCommand.t) : bool := bool_decide (is_Some (respond cmd)).

(** A token handed out to one of the connections accepted so far. *)
Definition issued (tr : list syscall) (tok : SessionToken.t) : Prop :=
  ∃ k, (k < length (accepted_fds tr))%nat ∧ tok = token_of (Z.of_nat k).

(** A [Shutdown] among the commands. *)
Definition has_shutdown (cmds : list EngineCommand.t) : Prop :=
  EngineCommandType.Shutdown ∈ (EngineCommand.type <$> cmds).

Lemma has_shutdown_app l l' : has_shutdown (l ++ l') ↔ has_shutdown l ∨ has_shutdown l'.
Proof. unfold has_shutdown. by rewrite fmap_app, elem_of_app. Qed.

Lemma has_shutdown_nil : has_shutdown [] ↔ False.
Proof. unfold has_shutdown. by rewrite elem_of_nil. Qed.

Lemma has_shutdown_singleton cmd :
  has_shutdown [cmd] ↔ EngineCommand.type cmd = EngineCommandType.Shutdown.
Proof. unfold has_shutdown. simpl. rewrite list_elem_of_singleton. split; by intros ->. Qed.

(** A command [main] can push: an order carries the token of a connection, and
    only the end of the program ([stop]) sends a shutdown. *)
Definition move_command (stop : bool) (tr : list syscall) (cmd : EngineCommand.t) : Prop :=
  (is_order cmd = true → issued tr (EngineCommand.session cmd)) ∧
  (EngineCommand.type cmd = EngineCommandType.Shutdown → stop = true).

Lemma no_shutdown tr cmds : Forall (move_command false tr) cmds → ¬ has_shutdown cmds.
Proof.
  intros Hf (cmd & Ht & Hin)%list_elem_of_fmap. rewrite Forall_forall in Hf.
  by destruct (Hf cmd Hin) as [_ Hs]; specialize (Hs (eq_sym Ht)).
Qed.

Section moves.
Context {CQ RQ E : Type}.
Context `{!BoundedQueue CQ EngineCommand.t, !BoundedQueue RQ EngineResponse.t, !EventFd E}.
Context `{!BoundedQueueLaws CQ EngineCommand.t, !BoundedQueueLaws RQ EngineResponse.t}.
Context (os : Kernel) (Hos : kernel_ok os) (event_fd listen_fd : Z).
Abbreviation world := (world (CQ:=CQ) (RQ:=RQ)).
Implicit Types (w : world).

(** A move of [main] that pushes [new] and pops [gone]. *)
Record moves (stop : bool) (w w' : world) (new : list EngineCommand.t)
    (gone : list EngineResponse.t) : Prop := {
  moves_ok : gw_ok w';
  moves_trace : trace w `prefix_of` trace w';
  moves_commands : q_items (cmd_queue w') = q_items (cmd_queue w) ++ new;
  moves_responses : q_items (rsp_queue w) = gone ++ q_items (rsp_queue w');
  moves_synced : (q_synced (rsp_queue w) ≤ length gone + q_synced (rsp_queue w'))%nat;
  moves_signalled : (q_signalled (rsp_queue w) ≤ length gone + q_signalled (rsp_queue w'))%nat;
  moves_lag : (q_lag (rsp_queue w') ≤ length gone + q_lag (rsp_queue w))%nat;
  moves_new : Forall (move_command stop (trace w)) new
}.

(** A move that leaves the response queue alone. *)
Lemma moves_apart stop w w' new :
  gw_ok w' → trace w `prefix_of` trace w' → rsp_queue w' = rsp_queue w →
  q_items (cmd_queue w') = q_items (cmd_queue w) ++ new → Forall (move_command stop (trace w)) new →
  moves stop w w' new [].
Proof. intros Hw Ht Hr Hc Hn. split; try done; by rewrite Hr. Qed.

Lemma moves_nothing w w' :
  gw_ok w' → trace w `prefix_of` trace w' → cmd_queue w' = cmd_queue w → rsp_queue w' = rsp_queue w →
  moves false w w' [] [].
Proof. intros Hw Ht Hc Hr. apply moves_apart; try done. by rewrite Hc, app_nil_r. Qed.

(** Looking first changes nothing. *)
Lemma moves_look ns stop w w' new gone :
  gw_ok w → moves stop (look ns w) w' new gone → moves stop w w' new gone.
Proof using BoundedQueueLaws0 BoundedQueueLaws1.
  intros Hw [M1 M2 M3 M4 M5 M6 M7 M8].
  pose proof (q_look_spec ns.1 _ (ok_cmd_queue _ Hw)) as [_ Hci _ _ _].
  pose proof (q_look_spec ns.2 _ (ok_rsp_queue _ Hw)) as [_ Hri Hsy Hsi Hla].
  simpl in *. rewrite Hci in M3. rewrite Hri in M4. split; try done; lia.
Qed.

(** The commands of a body among those [main] can push. *)
Lemma submits_commands stop cmds w w' :
  submits cmds w w' → Forall (move_command stop (trace w)) cmds →
  ∃ new, q_items (cmd_queue w') = q_items (cmd_queue w) ++ new ∧
    Forall (move_command stop (trace w)) new.
Proof. intros [new [_ Hi Hs _ _]] Hf. exists new. split; [done|]. by eapply sublist_Forall. Qed.

Lemma closing_commands w fd : Forall (move_command false (trace w)) (closing w fd).
Proof. unfold closing. destruct (connections w !! fd); [|done]. by apply Forall_singleton. Qed.

Lemma drain_body_moves w :
  gw_ok w → ∃ go w' new gone, drain_body os w = Some (go, w') ∧ moves false w w' new gone ∧
    length gone = Nat.b2n go ∧
    (go = false → q_synced (rsp_queue w) = O ∧ q_items (rsp_queue w') = q_items (rsp_queue w)).
Proof using BoundedQueueLaws0 BoundedQueueLaws1.
  intros Hw. destruct (drain_body_ok os w Hw) as (go & rsp & w' & Hrun & Hw' & [P1 P2 P3 P4 P5 P6] & _ & Hd).
  assert (∃ new, q_items (cmd_queue w') = q_items (cmd_queue w) ++ new ∧
    trace w `prefix_of` trace w' ∧ Forall (move_command false (trace w)) new)
    as (new & Hcmd & Ht & Hnew).
  { destruct go.
    2: { destruct Hd as (_ & Ht & Hc). exists []. rewrite app_nil_r, Ht, Hc. done. }
    destruct Hd as [(slot & _ & _ & _ & Ht & Hs)|(fd & conn & r & _ & _ & _ & Hr)].
    - destruct (submits_commands false [] w w' Hs) as (new & ? & ?); [done|]. exists new. by rewrite Ht.
    - case_decide; destruct Hr as (_ & Ht & Hs); rewrite Ht.
      + destruct (submits_commands false [] w w' Hs) as (new & ? & ?); [done|]. exists new.
        split_and!; [done|by apply prefix_app_r|done].
      + destruct (submits_commands false _ w w' Hs (closing_commands w fd)) as (new & ? & ?). exists new.
        split_and!; [done|by apply prefix_app_r|done]. }
  exists go, w', new, (if go then [rsp] else []). split; [done|]. split; [|split].
  - split; try done; destruct go; simpl in *; lia.
  - by destruct go.
  - intros ->. split; [by apply P6|done].
Qed.

Lemma accept_body_moves w :
  gw_ok w → ∃ go w', accept_body os w = Some (go, w') ∧ moves false w w' [] [].
Proof using BoundedQueueLaws0 BoundedQueueLaws1 Hos.
  intros Hw. destruct (accept_body_ok os Hos w Hw) as (go & w' & Hrun & Hw' & Hcase).
  exists go, w'. split; [done|]. case_decide; destruct Hcase as [_ ->];
    (apply moves_nothing; [done|by apply prefix_app_r|done|done]).
Qed.

Lemma receive_moves fd readable w :
  gw_ok w → ∃ go w' new, receive os fd readable w = Some (go, w') ∧ moves false w w' new [] ∧
    (go = true → is_Some (connections w' !! fd)).
Proof using BoundedQueueLaws0 BoundedQueueLaws1 Hos.
  intros Hw. destruct readable.
  2: { exists false, w, []. split_and!; [done| |done]. by apply moves_nothing. }
  destruct (receive_ok os Hos fd w Hw) as (go & w' & Hrun & Hw' & Hcase). exists go, w'.
  assert (∀ r, closed w w' fd r → go = false →
    ∃ new, receive os fd true w = Some (go, w') ∧ moves false w w' new [] ∧
      (go = true → is_Some (connections w' !! fd))) as Hclosed.
  { intros r (_ & Ht & Hcmd & _ & Hr) ->.
    destruct (submits_commands false _ w w' Hcmd (closing_commands w fd)) as (new & Hnew & Hf).
    exists new. split_and!; [done| |done].
    apply moves_apart; [done|by rewrite Ht; apply prefix_app_r|done|done|done]. }
  destruct (connections w !! fd) as [conn|].
  2: { destruct Hcase as [-> ->]. exists []. split_and!; [done| |done]. by apply moves_nothing. }
  cbv zeta in Hcase. destruct (k_recv os (trace w) fd) as [bytes| | |].
  - case_decide; destruct Hcase as [-> Hcase]; [|by eapply Hclosed].
    destruct Hcase as (p & _ & _ & ->). exists []. split_and!; [done| |].
    + apply moves_nothing; [done|by apply prefix_app_r|done|done].
    + intros _. simpl. rewrite lookup_insert_eq. by eexists.
  - destruct Hcase as [-> Hcase]. by eapply Hclosed.
  - destruct Hcase as [-> ->]. exists []. split_and!; [done| |done].
    apply moves_nothing; [done|by apply prefix_app_r|done|done].
  - destruct Hcase as [-> Hcase]. by eapply Hclosed.
Qed.

Lemma issued_connection w fd conn :
  gw_ok w → connections w !! fd = Some conn → issued (trace w) (Connection.token conn).
Proof.
  intros Hw Hc. destruct (ok_tokens _ Hw _ _ Hc) as (k & [Hk _] & Ht). exists k. split; [|done].
  by eapply lookup_lt_Some.
Qed.

(** One turn of the parse loop; it only ever runs with the flag down. *)
Lemma parse_body_moves fd w :
  gw_ok w → is_Some (connections w !! fd) →
  ∃ should_close go w' new, parse_body os fd false w = Some ((should_close, go), w') ∧
    moves false w w' new [] ∧ (go = true → should_close = false ∧ is_Some (connections w' !! fd)).
Proof using BoundedQueueLaws0.
  intros Hw [conn Hc]. pose proof (ok_connections _ Hw _ _ Hc) as (Hfd & Hcfd & Htok & Hp & Hn).
  destruct (try_parse_refines (Connection.parser conn) DecodedMessage.default Hp)
    as (st & p & msg & Htry & Hp' & Hspec & Hsame).
  destruct (decide (st = FrameParser.Status.MessageReady)) as [->|Hst].
  2: { eexists _, false, w, []. split_and!; [|by apply moves_nothing|done].
       eapply (parse_body_done os fd w conn); [done|exact Htry|done| |by apply Hsame].
       simpl. intros ->. unfold spec_try_parse in Hspec. case_decide; [done|].
       by destruct (parse_frame _ _). }
  pose proof (parse_body_message os fd w conn p msg Hc (ok_cmd_queue _ Hw) Htry) as Hbody.
  pose proof (answer_commands (Connection.token conn) (Connection.expected_sequence conn) msg) as Hcmds.
  pose proof (serve_requests_sequence (Connection.token conn) _ [msg] Hn) as Hseq.
  simpl in Hseq. destruct (answer _ _ msg) as [[a n] logout].
  assert (Forall (λ cmd, EngineCommand.session cmd = Connection.token conn) (commands [a])) as Hcmd
    by (eapply Forall_impl; [exact Hcmds|]; by intros ? []).
  assert (is_u64 n) as Hn' by (by destruct logout). clear Hseq.
  set (w' := set_connections _ _) in Hbody.
  pose proof (performs_ok os fd _ [a] w Hw Htok Hcmd) as Hw1. cbn [foldl] in Hw1.
  assert (gw_ok w') as Hw'.
  { unfold w'. rewrite <- (connections_perform os fd a w).
    eapply (put_connection_ok fd conn); [done|by rewrite connections_perform|done|by split_and!]. }
  assert (∃ new, moves false w w' new []) as [new Hnew].
  { pose proof (performs_commands os fd [a] w (ok_cmd_queue _ Hw)) as Hq. cbn [foldl] in Hq.
    destruct (performs_trace os fd [a] w (ok_cmd_queue _ Hw)) as (rs & _ & Ht). cbn [foldl] in Ht.
    destruct (submits_commands false _ _ _ Hq) as (new & Hi & Hnew).
    - eapply Forall_impl; [exact Hcmds|]. intros cmd [Hs Hne]. split; [|done].
      intros _. rewrite Hs. by eapply issued_connection.
    - exists new. apply moves_apart; [done|by unfold w'; simpl; rewrite Ht; apply prefix_app_r| |exact Hi|done].
      exact (proj2 (performs_rest os fd [a] w)). }
  exists logout, (negb logout), w', new. split_and!; [exact Hbody|done|].
  destruct logout; [done|]. intros _. split; [done|]. simpl. rewrite lookup_insert_eq. by eexists.
Qed.

Lemma push_shutdown_moves w :
  gw_ok w → ∃ b w' new, push_command shutdown_command w = Some (b, w') ∧ moves true w w' new [].
Proof using BoundedQueueLaws0.
  intros Hw. destruct (push_command_ok w shutdown_command Hw) as (b & q & Hrun & Hw' & Hs); [done|].
  exists b, (set_cmd_queue q w), (if b then [shutdown_command] else []). split; [done|].
  apply moves_apart; [done|done|done|by apply push_items|]. destruct b; [|done]. by apply Forall_singleton.
Qed.

(** ** Steps of [main] *)

Definition pc_ok (pc : main_pc) (w : world) : Prop :=
  match pc with
  | Parsing fd should_close _ => should_close = false ∧ is_Some (connections w !! fd)
  | _ => True
  end.

(** In the response loop, bound to see every waiting response, or past the
    event loop. *)
Definition attending (pc : main_pc) (w : world) : Prop :=
  match pc with
  | Draining _ => (length (q_items (rsp_queue w)) ≤ q_synced (rsp_queue w))%nat
  | Joining => True
  | _ => False
  end.

(** No response waits unnoticed. *)
Definition awake (pc : main_pc) (w : world) (e : E) : Prop :=
  q_items (rsp_queue w) = [] ∨ ev_ready e = true ∨ attending pc w.

Context `{!EventFdLaws E}.

(** A queue that lost nothing but what was popped. *)
Lemma awake_draining evs evs' e (w w' : world) new gone :
  moves false w w' new gone → awake (Draining evs) w e → awake (Draining evs') w' e.
Proof.
  intros [_ _ _ M4 M5 _ _ _] H. unfold awake, attending in *. rewrite M4, length_app in H.
  destruct H as [H|[H|H]]; [left|by right; left|right; right; lia].
  by apply app_eq_nil in H as [_ ?].
Qed.

Lemma awake_apart stop pc pc' e (w w' : world) new :
  moves stop w w' new [] → awake pc w e → ¬ attending pc w → awake pc' w' e.
Proof.
  intros [_ _ _ M4 _ _ _ _] [H|[H|H]] Hno; [left|by right; left|done]. by rewrite M4 in H.
Qed.

Lemma read_eventfd_moves w e :
  gw_ok w → let '(w', e') := read_eventfd w e in
  moves false w w' [] [] ∧ connections w' = connections w ∧
  ∀ evs evs', (length (q_items (rsp_queue w)) ≤ q_signalled (rsp_queue w))%nat →
    awake (Handling evs) w e → awake (Draining evs') w' e'.
Proof using BoundedQueueLaws0 BoundedQueueLaws1.
  intros Hw. unfold read_eventfd. destruct (ev_ready e) eqn:He.
  2: { split; [by apply moves_nothing|]. split; [done|]. intros evs evs' _ [?|[?|?]]; [by left|congruence|done]. }
  destruct (q_sync_spec _ (ok_rsp_queue _ Hw)) as [[H1 H2 H3 H4 H5] H6].
  split; [|split; [done|]].
  - split; try done; simpl.
    + pose proof (ok_rsp_tokens _ Hw). destruct Hw. by split; simpl; rewrite ?H2.
    + by rewrite app_nil_r.
  - intros evs evs' Hl _. right; right. unfold attending. cbn [rsp_queue set_rsp_queue]. rewrite H2. lia.
Qed.

Local Ltac main_facts Hm :=
  eexists _, _, _, _, _, _; split_and!;
    [reflexivity|exact Hm|simpl; auto|by intros [?|?]|].

Lemma main_step_moves poll pc w e :
  gw_ok w → pc_ok pc w →
  ∃ pc' w' e' stop new gone, main_step os event_fd listen_fd poll pc w e = Some (pc', w', e') ∧
    moves stop w w' new gone ∧ pc_ok pc' w' ∧ (stop = true ∨ pc = Joining → pc' = Joining) ∧
    ((length (q_items (rsp_queue w)) ≤ q_signalled (rsp_queue w))%nat → awake pc w e → awake pc' w' e').
Proof using BoundedQueueLaws0 BoundedQueueLaws1 Hos.
  intros Hw Hpc. assert (moves false w w [] []) as Hskip by by apply moves_nothing.
  destruct pc as [|[|[fd readable] evs]|evs|readable evs|fd readable evs|fd sc evs|]; cbn [main_step].
  - destruct poll as [evs| |].
    + main_facts Hskip. intros _ Ha. exact (awake_apart _ _ _ _ _ _ _ Hskip Ha (λ H, H)).
    + main_facts Hskip. done.
    + destruct (push_shutdown_moves w Hw) as (b & w' & new & -> & Hm). main_facts Hm.
      intros _ _. by right; right.
  - main_facts Hskip. intros _ Ha. exact (awake_apart _ _ _ _ _ _ _ Hskip Ha (λ H, H)).
  - case_decide; [|case_decide].
    + pose proof (read_eventfd_moves w e Hw) as Hread. destruct (read_eventfd w e) as [w' e'].
      destruct Hread as (Hm & Hc & Ha). main_facts Hm. apply Ha.
    + main_facts Hskip. intros _ Ha. exact (awake_apart _ _ _ _ _ _ _ Hskip Ha (λ H, H)).
    + main_facts Hskip. intros _ Ha. exact (awake_apart _ _ _ _ _ _ _ Hskip Ha (λ H, H)).
  - destruct (drain_body_moves w Hw) as (go & w' & new & gone & -> & Hm & Hl & Hno).
    destruct go; main_facts Hm; intros _ Ha.
    + by eapply awake_draining.
    + destruct (Hno eq_refl) as [Hs Hi]. unfold awake in *. rewrite Hi. destruct Ha as [?|[?|Ha]]; auto.
      unfold attending in Ha. left. apply length_zero_iff_nil. lia.
  - destruct (accept_body_moves w Hw) as (go & w' & -> & Hm).
    destruct go; main_facts Hm; intros _ Ha; exact (awake_apart _ _ _ _ _ _ _ Hm Ha (λ H, H)).
  - destruct (receive_moves fd readable w Hw) as (go & w' & new & -> & Hm & Hc).
    destruct go; main_facts Hm; intros _ Ha; exact (awake_apart _ _ _ _ _ _ _ Hm Ha (λ H, H)).
  - destruct Hpc as [-> Hc].
    destruct (parse_body_moves fd w Hw Hc) as (sc & go & w' & new & -> & Hm & Hgo).
    destruct go; main_facts Hm; intros _ Ha; exact (awake_apart _ _ _ _ _ _ _ Hm Ha (λ H, H)).
  - main_facts Hskip. done.
Qed.

(** ** Steps of the matching thread *)

Lemma queues_ok w cq rq :
  gw_ok w → q_ok cq → q_ok rq →
  Forall (λ cmd, token_ok (EngineCommand.session cmd)) (q_items cq) →
  Forall (λ rsp, token_ok (EngineResponse.session rsp)) (q_items rq) →
  gw_ok (set_rsp_queue rq (set_cmd_queue cq w)).
Proof. intros Hw. destruct Hw. by split. Qed.

(** The response the thread still has to push. *)
Definition pending (pc : engine_pc) : list EngineResponse.t :=
  match pc with Pushing rsp => [rsp] | _ => [] end.

Lemma respond_session cmd rsp :
  respond cmd = Some rsp → EngineResponse.session rsp = EngineCommand.session cmd.
Proof. unfold respond. by destruct (EngineCommand.type cmd); intros [= <-]. Qed.

(** How many steps the thread has to do at most. *)
Definition engine_work (pc : engine_pc) (cmds : list EngineCommand.t) : nat :=
  3 * length cmds + match pc with Pushing _ => 2 | Notifying => 1 | _ => 0 end.

(** Nothing left to do. *)
Definition engine_idle (pc : engine_pc) (cmds : list EngineCommand.t) : Prop :=
  pc = Stopped ∨ (pc = Polling ∧ cmds = []).

(** The pop of the command queue is refused. *)
Definition starved (pc : engine_pc) (cmd_q : CQ) : Prop :=
  pc = Polling ∧ ∃ y q, q_pop EngineCommand.default cmd_q = Some (false, y, q).

(** A step that pops [taken] commands and pushes [pushed]: a part of what is
    pending, or all of it when there is room. *)
Record engine_moves_by (pc : engine_pc) (w : world) (e : E) (pc' : engine_pc) (cq : CQ) (rq : RQ) (e' : E)
    (taken : list EngineCommand.t) (pushed : list EngineResponse.t) : Prop := {
  engine_gateway : gw_ok (set_rsp_queue rq (set_cmd_queue cq w));
  engine_pending : Forall (λ rsp, token_ok (EngineResponse.session rsp)) (pending pc');
  engine_taken : q_items (cmd_queue w) = taken ++ q_items cq;
  engine_pushed : q_items rq = q_items (rsp_queue w) ++ pushed;
  engine_synced : (q_synced (rsp_queue w) ≤ q_synced rq)%nat;
  engine_signalled : (q_signalled (rsp_queue w) ≤ q_signalled rq)%nat;
  engine_lag : (q_lag rq ≤ q_lag (rsp_queue w))%nat;
  engine_part : pushed ++ pending pc' `sublist_of` pending pc ++ omap respond taken;
  engine_all : Z.of_nat (length (q_items (rsp_queue w)) + q_lag (rsp_queue w)) <
      q_limit (Q:=RQ) (T:=EngineResponse.t) ∨ pending pc = [] →
    pushed ++ pending pc' = pending pc ++ omap respond taken;
  engine_notifies : pushed = [] ∨ pc' = Notifying;
  engine_quiet : pc ≠ Notifying → e' = e;
  engine_signals : pc = Notifying →
    e' = ev_signal e ∧ pushed = [] ∧ (length (q_items rq) ≤ q_signalled rq)%nat;
  engine_stops : pc' = Stopped ↔ pc = Stopped ∨ has_shutdown taken;
  engine_progress : engine_idle pc (q_items (cmd_queue w)) ∨ starved pc (cmd_queue w) ∨
    (engine_work pc' (q_items cq) < engine_work pc (q_items (cmd_queue w)))%nat
}.

(** The facts about a step that hold at once. *)
Local Ltac step_facts :=
  split; rewrite ?has_shutdown_nil, ?has_shutdown_singleton; simpl;
  try done; try (by left); try (by rewrite app_nil_r); try (right; right; lia); auto;
  try (split; [by auto|by intros [?|?]]).

Lemma engine_step_moves pc w e :
  gw_ok w → Forall (λ rsp, token_ok (EngineResponse.session rsp)) (pending pc) →
  ∃ pc' cq rq e' taken pushed,
    engine_step true pc (cmd_queue w) (rsp_queue w) e = Some (pc', cq, rq, e') ∧
    engine_moves_by pc w e pc' cq rq e' taken pushed.
Proof using BoundedQueueLaws0 BoundedQueueLaws1.
  intros Hw Hpend.
  pose proof (ok_cmd_tokens _ Hw) as Hct. pose proof (ok_rsp_tokens _ Hw) as Hrt.
  pose proof (ok_rsp_queue _ Hw) as Hrq. pose proof (ok_cmd_queue _ Hw) as Hcq.
  assert (gw_ok (set_rsp_queue (rsp_queue w) (set_cmd_queue (cmd_queue w) w))) as Hsame by by destruct w.
  destruct pc as [|rsp| |]; cbn [engine_step negb].
  - destruct (q_pop_spec (cmd_queue w) EngineCommand.default Hcq) as (b & cmd & cq & Epop & Hres).
    rewrite Epop. cbn [mbind option_bind].
    pose proof (pop_items _ _ _ _ _ Hres) as Hi. pose proof (pop_ok _ _ _ _ _ Hres) as Hcq'.
    rewrite Hi in Hct. apply Forall_app in Hct as [Hx Hct].
    assert (gw_ok (set_rsp_queue (rsp_queue w) (set_cmd_queue cq w))) as Hw' by by apply queues_ok.
    destruct b; cbn [negb].
    2: { eexists _, _, _, _, [], []. split; [reflexivity|]. step_facts.
         right; left. split; [done|]. by eexists _, _. }
    apply Forall_inv in Hx. case_decide as Hsd.
    { assert (respond cmd = None) as Hno by (unfold respond; by rewrite Hsd).
      eexists _, _, _, _, [cmd], []. split; [reflexivity|]. step_facts; simpl; rewrite ?Hno, ?Hi; try done.
      right; right. unfold engine_work. simpl. lia. }
    destruct (respond cmd) as [rsp|] eqn:Hr.
    + eexists _, _, _, _, [cmd], []. split; [reflexivity|]. step_facts; simpl; rewrite ?Hr, ?Hi; try done.
      * apply Forall_singleton. by rewrite (respond_session _ _ Hr).
      * right; right. unfold engine_work. simpl. lia.
    + eexists _, _, _, _, [cmd], []. split; [reflexivity|]. step_facts; simpl; rewrite ?Hr, ?Hi; try done.
      right; right. unfold engine_work. simpl. lia.
  - destruct (q_push_spec (rsp_queue w) rsp Hrq) as (b & rq & -> & Hres). cbn [mbind option_bind].
    pose proof (push_result_Forall (λ rsp, token_ok (EngineResponse.session rsp)) _ _ _ _ Hres
      (Forall_inv Hpend) Hrt) as Hrt'.
    destruct Hres as [R1 R2 R3 R4 R5 R6].
    eexists _, _, _, _, [], (if b then [rsp] else []). split; [reflexivity|].
    assert (gw_ok (set_rsp_queue rq (set_cmd_queue (cmd_queue w) w))) as Hw' by by apply queues_ok.
    step_facts; destruct b; simpl; try done; try (right; right; unfold engine_work; simpl; lia).
    + apply sublist_nil_l.
    + intros [Hroom|?]; [|done]. specialize (R6 eq_refl). lia.
  - destruct (q_signal_spec _ Hrq) as [[K1 K2 K3 K4 K5] K6].
    assert (gw_ok (set_rsp_queue (q_signal (rsp_queue w)) (set_cmd_queue (cmd_queue w) w))) as Hw'
      by (apply queues_ok; try done; by rewrite K2).
    eexists _, _, _, _, [], []. split; [reflexivity|].
    step_facts; rewrite ?K2, ?app_nil_r; try done; try (right; right; unfold engine_work; simpl; lia).
  - eexists _, _, _, _, [], []. split; [reflexivity|]. step_facts. by left; left.
Qed.

(** ** Both threads *)

Abbreviation system := (system (CQ:=CQ) (RQ:=RQ) (E:=E)).
Implicit Types (s : system).

(** The commands the matching thread has taken. *)
Definition consumed s : list EngineCommand.t :=
  take (length (submitted s) - length (q_items (cmd_queue (gateway s)))) (submitted s).

Definition unread s : list EngineResponse.t := q_items (rsp_queue (gateway s)).

Record system_ok s : Prop := {
  sys_gateway : gw_ok (gateway s);
  sys_pc : pc_ok (main s) (gateway s);
  sys_pending : Forall (λ rsp, token_ok (EngineResponse.session rsp)) (pending (engine s));
  (** Unless the matching thread is about to signal, its last signal covers
      every waiting response, and the gateway has yet to act on it. *)
  sys_awake : engine s = Notifying ∨
    (length (unread s) ≤ q_signalled (rsp_queue (gateway s)))%nat ∧
    awake (main s) (gateway s) (notify s);
  (** The pops the matching thread may not have seen are responses taken. *)
  sys_lag : (q_lag (rsp_queue (gateway s)) ≤ length (answered s))%nat;
  sys_commands : submitted s = consumed s ++ q_items (cmd_queue (gateway s));
  sys_responses : answered s ++ unread s ++ pending (engine s) `sublist_of`
    omap respond (consumed s);
  sys_lossless :
    Z.of_nat (length (omap respond (submitted s))) ≤ q_limit (Q:=RQ) (T:=EngineResponse.t) →
    answered s ++ unread s ++ pending (engine s) = omap respond (consumed s);
  sys_issued : Forall (λ cmd, is_order cmd = true →
    issued (trace (gateway s)) (EngineCommand.session cmd)) (submitted s);
  sys_stopped : engine s = Stopped ↔ has_shutdown (consumed s);
  sys_joining : has_shutdown (submitted s) → main s = Joining
}.

Lemma issued_mono tr tr' tok : tr `prefix_of` tr' → issued tr tok → issued tr' tok.
Proof.
  intros [l ->] (k & Hk & ->). exists k. split; [|done]. rewrite accepted_fds_app, length_app. lia.
Qed.

Lemma start_ok : system_ok start.
Proof using BoundedQueueLaws0 BoundedQueueLaws1.
  assert (q_items (q_empty (Q:=CQ) (T:=EngineCommand.t)) = []) as Hc by apply q_empty_items.
  assert (q_items (q_empty (Q:=RQ) (T:=EngineResponse.t)) = []) as Hr by apply q_empty_items.
  assert (q_lag (q_empty (Q:=RQ) (T:=EngineResponse.t)) = O) as Hl by apply q_empty_lag.
  split; try done; unfold unread, consumed, awake; simpl; rewrite ?Hc, ?Hr, ?Hl; try done.
  - apply initial_world_ok.
  - right. split; [simpl; lia|by left].
  - by rewrite has_shutdown_nil.
  - by rewrite has_shutdown_nil.
Qed.

Lemma after_main_ok s pc w e stop new gone :
  system_ok s → moves stop (gateway s) w new gone → pc_ok pc w →
  (stop = true ∨ main s = Joining → pc = Joining) →
  ((length (unread s) ≤ q_signalled (rsp_queue (gateway s)))%nat →
   awake (main s) (gateway s) (notify s) → awake pc w e) →
  system_ok (after_main s pc w e) ∧ answered (after_main s pc w e) = answered s ++ gone.
Proof.
  intros [H1 H2 H3 H4 H4' H5 H6 H7 H8 H9 H10] [M1 M2 M3 M4 M5 M5' M5'' M6] Hpc Hjoin Hawake.
  assert (submitted (after_main s pc w e) = submitted s ++ new) as Hsub.
  { simpl. by rewrite M3, drop_app_length. }
  assert (answered (after_main s pc w e) = answered s ++ gone) as Hans.
  { simpl. rewrite M4, length_app. f_equal.
    replace (_ + _ - _)%nat with (length gone) by lia. apply take_app_length. }
  assert (consumed (after_main s pc w e) = consumed s) as Hcons.
  { unfold consumed at 1. rewrite Hsub. simpl. rewrite M3, !length_app.
    rewrite take_app_le by (rewrite H5, length_app; lia). unfold consumed. f_equal. lia. }
  assert (unread s = gone ++ unread (after_main s pc w e)) as Hunread by done.
  split; [|done]. split; rewrite ?Hsub, ?Hans, ?Hcons; try done.
  - destruct H4 as [?|[Hl Ha]]; [by left|right]. split; [|by apply Hawake].
    rewrite Hunread, length_app in Hl. simpl in *. lia.
  - rewrite length_app. simpl. lia.
  - simpl. by rewrite M3, app_assoc, <- H5.
  - by rewrite <- (assoc_L (++)), (assoc_L (++) gone), <- Hunread.
  - intros Hl. rewrite <- (assoc_L (++)), (assoc_L (++) gone), <- Hunread. apply H7.
    rewrite omap_app, length_app in Hl. lia.
  - apply Forall_app. split; (eapply Forall_impl; [eassumption|]; simpl; intros cmd Hcmd Ho).
    + eapply issued_mono; eauto.
    + eapply issued_mono; [done|]. by apply Hcmd.
  - simpl. intros [Hold|Hnew]%has_shutdown_app; [by apply Hjoin; right; apply H10|].
    apply Hjoin. left. destruct stop; [done|]. by apply no_shutdown in M6.
Qed.

(** Looking leaves the gateway's share of the invariant alone. *)
Lemma awake_look ns pc w e :
  gw_ok w → awake pc w e → awake pc (look ns w) e.
Proof using BoundedQueueLaws0 BoundedQueueLaws1.
  intros Hw. pose proof (q_look_spec ns.2 _ (ok_rsp_queue _ Hw)) as [_ Hri Hsy _ _].
  unfold awake, attending. simpl. rewrite Hri. intros [?|[?|?]]; auto. right; right.
  destruct pc; try done. lia.
Qed.

Lemma look_kept ns w :
  gw_ok w → kept (cmd_queue w) (cmd_queue (look ns w)) ∧ kept (rsp_queue w) (rsp_queue (look ns w)).
Proof using BoundedQueueLaws0 BoundedQueueLaws1.
  intros Hw. split; apply q_look_spec; apply Hw.
Qed.

(** A step of [main] from a state of the system. *)
Lemma main_moves_ok s ns poll :
  system_ok s → ∃ pc w e stop new gone,
    main_step os event_fd listen_fd poll (main s) (look ns (gateway s)) (notify s) = Some (pc, w, e) ∧
    main_moves os event_fd listen_fd s ns poll = Some (after_main s pc w e) ∧
    moves stop (gateway s) w new gone ∧ system_ok (after_main s pc w e) ∧
    answered (after_main s pc w e) = answered s ++ gone.
Proof using BoundedQueueLaws0 BoundedQueueLaws1 Hos EventFdLaws0.
  intros Hs. pose proof (sys_gateway _ Hs) as Hw.
  destruct (main_step_moves poll (main s) (look ns (gateway s)) (notify s) (look_ok ns _ Hw))
    as (pc & w & e & stop & new & gone & Hrun & Hm & Hpc & Hjoin & Hawake).
  { exact (sys_pc _ Hs). }
  apply moves_look in Hm; [|done]. destruct (look_kept ns _ Hw) as [_ [_ Hri Hsy Hsi _]].
  exists pc, w, e, stop, new, gone. split; [done|]. split; [unfold main_moves; by rewrite Hrun|].
  split; [done|]. apply (after_main_ok s pc w e stop new gone); try done.
  intros Hl Ha. apply Hawake; [rewrite Hri; unfold unread in Hl; lia|]. by apply awake_look.
Qed.

(** A step of the matching thread from a state of the system. *)
Lemma engine_moves_ok s ns :
  system_ok s → ∃ pc cq rq e taken pushed,
    engine_moves s ns = Some (mksystem (main s) (set_rsp_queue rq (set_cmd_queue cq (look ns (gateway s))))
      pc e (submitted s) (answered s)) ∧
    engine_moves_by (engine s) (look ns (gateway s)) (notify s) pc cq rq e taken pushed ∧
    system_ok (mksystem (main s) (set_rsp_queue rq (set_cmd_queue cq (look ns (gateway s))))
      pc e (submitted s) (answered s)).
Proof using BoundedQueueLaws0 BoundedQueueLaws1 EventFdLaws0.
  intros Hs. pose proof (sys_gateway _ Hs) as Hw.
  destruct (engine_step_moves (engine s) (look ns (gateway s)) (notify s) (look_ok ns _ Hw) (sys_pending _ Hs))
    as (pc & cq & rq & e & taken & pushed & Hrun & Hm).
  exists pc, cq, rq, e, taken, pushed. split; [unfold engine_moves; by rewrite Hrun|]. split; [done|].
  destruct (look_kept ns _ Hw) as [[_ Kc _ _ _] [_ Kr Ksy Ksi Kl]].
  pose proof (awake_look ns (main s) (gateway s) (notify s) Hw) as Hlook.
  destruct Hm as [Hg Hpend Hcq Hrq Hsync Hsig Hlag Hpart Hall Hnot Hquiet Hsignal Hstop _].
  rewrite Kc in Hcq. rewrite Kr in Hrq, Hall.
  destruct Hs as [H1 H2 H3 H4 H4' H5 H6 H7 H8 H9 H10].
  set (s' := mksystem _ _ _ _ _ _).
  assert (consumed s' = consumed s ++ taken) as Hcons.
  { unfold consumed at 1. simpl. rewrite H5 at 1 2. rewrite Hcq, !length_app, (assoc_L (++)).
    apply take_app_length'. rewrite length_app. lia. }
  assert (unread s' = unread s ++ pushed) as Hun by exact Hrq.
  split; rewrite ?Hcons; try done.
  - rewrite Hun. simpl. destruct Hnot as [-> | ->]; [|by left]. right. rewrite app_nil_r in *.
    assert (engine s = Notifying ∨ engine s ≠ Notifying) as [Hn|Hn] by (by destruct (engine s); auto).
    + destruct (Hsignal Hn) as (-> & _ & Hl). rewrite Hrq in Hl. split; [done|].
      right; left. apply ev_ready_signal.
    + rewrite (Hquiet Hn). destruct H4 as [?|[Hl Ha]]; [done|]. split; [unfold unread in *; lia|].
      apply Hlook in Ha. unfold awake, attending in *. simpl in *. rewrite Hrq. rewrite Kr in Ha.
      destruct Ha as [?|[?|?]]; auto. right; right. destruct (main s); try done. lia.
  - simpl. lia.
  - simpl. by rewrite <- (assoc_L (++)), <- Hcq.
  - simpl. rewrite Hun, omap_app, <- (assoc_L (++)), (assoc_L (++)).
    etrans; [apply sublist_app; [reflexivity|exact Hpart]|].
    rewrite !(assoc_L (++)). apply sublist_app; [|done]. by rewrite <- (assoc_L (++)).
  - simpl. intros Hl. specialize (H7 Hl).
    assert (pushed ++ pending pc = pending (engine s) ++ omap respond taken) as Hpp.
    { apply Hall. destruct (engine s) as [|rsp| |]; auto. left.
      apply (f_equal length) in H7. rewrite !length_app in H7. simpl in H7.
      rewrite H5, omap_app, length_app in Hl. unfold unread in *. simpl in *. lia. }
    by rewrite Hun, omap_app, <- H7, <- !(assoc_L (++)), Hpp.
  - simpl. rewrite has_shutdown_app, <- H9. exact Hstop.
Qed.

Lemma system_step_ok s s' :
  system_ok s → system_step os event_fd listen_fd s s' → system_ok s'.
Proof using BoundedQueueLaws0 BoundedQueueLaws1 Hos EventFdLaws0.
  intros Hs [ns poll s1 Hrun|ns s1 Hrun].
  - destruct (main_moves_ok s ns poll Hs) as (pc & w & e & stop & new & gone & _ & Hrun' & _ & Hs' & _).
    rewrite Hrun in Hrun'. by injection Hrun' as ->.
  - destruct (engine_moves_ok s ns Hs) as (pc & cq & rq & e & taken & pushed & Hrun' & _ & Hs').
    rewrite Hrun in Hrun'. by injection Hrun' as ->.
Qed.

Lemma system_reachable_ok s : system_reachable os event_fd listen_fd s → system_ok s.
Proof using BoundedQueueLaws0 BoundedQueueLaws1 Hos EventFdLaws0.
  intros Hr. apply (rtc_ind_r (R:=system_step os event_fd listen_fd) system_ok start);
    [apply start_ok| |exact Hr].
  intros s1 s2 _ Hstep Hok. by eapply system_step_ok.
Qed.

End moves.
