(* ===== verification/SystemRuns.v ===== *)
(** * Runs of one of the two threads

    What the gateway does when it is woken, and the matching thread when it
    is left alone: the runs behind the liveness properties of the server. *)

From S2P Require Import Prelude Protocol Codec Wire Ring FrameParser Stream Session.
From S2P Require Import EngineMessages Queue Matching Gateway GatewayInvariant.
From S2P Require Import GatewayRequests System SystemInvariant.

(** ** Tokens *)

(** Two connections share a token only after 2^42 accepts. *)
Lemma token_of_inj j k :
  0 ≤ j < 2 ^ 42 → 0 ≤ k < 2 ^ 42 → token_of j = token_of k → j = k.
Proof.
  unfold token_of, kMaxSlots, wrap. change (2 ^ 42) with 4398046511104.
  change (2 ^ 32) with 4294967296. intros Hj Hk [= H1 H2]. Z.div_mod_to_equations. lia.
Qed.

(** ** Responses on their way *)

(** What a response loop makes of responses when nothing fails: each is sent
    to the open connection with its token, if there is one. *)
Inductive delivered (conns : gmap Z Connection.t) : list EngineResponse.t → list syscall → Prop :=
| delivered_nil : delivered conns [] []
| delivered_sent fd conn rsp rsps acts :
    conns !! fd = Some conn → Connection.token conn = EngineResponse.session rsp →
    delivered conns rsps acts →
    delivered conns (rsp :: rsps) (Send fd (response_frame rsp) (Z.of_nat kFrameSize) :: acts)
| delivered_gone rsp rsps acts :
    (∀ fd conn, conns !! fd = Some conn → Connection.token conn ≠ EngineResponse.session rsp) →
    delivered conns rsps acts → delivered conns (rsp :: rsps) acts.

Lemma delivered_accepts conns rsps acts : delivered conns rsps acts → accepted_fds acts = [].
Proof. by induction 1. Qed.

(** A network that takes every frame whole. *)
Definition reliable (os : Kernel) : Prop :=
  ∀ tr fd bytes, k_send os tr fd bytes = Z.of_nat (length bytes).

Section runs.
Context {CQ RQ E : Type}.
Context `{!BoundedQueue CQ EngineCommand.t, !BoundedQueue RQ EngineResponse.t, !EventFd E}.
Context `{!BoundedQueueLaws CQ EngineCommand.t, !BoundedQueueLaws RQ EngineResponse.t}.
Context `{!EventFdLaws E}.
Context (os : Kernel) (Hos : kernel_ok os) (event_fd listen_fd : Z).
Implicit Types (s : system (CQ:=CQ) (RQ:=RQ) (E:=E)).

Lemma same_token (w : world (CQ:=CQ) (RQ:=RQ)) fd fd' conn conn' :
  gw_ok w → connections w !! fd = Some conn → connections w !! fd' = Some conn' →
  Z.of_nat (length (accepted_fds (trace w))) ≤ 2 ^ 42 →
  Connection.token conn = Connection.token conn' → fd = fd'.
Proof.
  intros Hw Hc Hc' Hl. destruct (ok_tokens _ Hw _ _ Hc) as (k & [Hk _] & ->).
  destruct (ok_tokens _ Hw _ _ Hc') as (k' & [Hk' _] & ->).
  pose proof (lookup_lt_Some _ _ _ Hk). pose proof (lookup_lt_Some _ _ _ Hk').
  intros ->%token_of_inj%(inj Z.of_nat); [congruence|lia|lia].
Qed.

(** Where a response that waits for the gateway comes from. *)
Lemma unread_source s rsp :
  system_ok s → rsp ∈ unread s → ∃ cmd, cmd ∈ submitted s ∧ respond cmd = Some rsp.
Proof.
  intros Hs Hin. assert (rsp ∈ omap respond (consumed s)) as Hin'.
  { eapply elem_of_submseteq; [|apply sublist_submseteq, (sys_responses _ Hs)].
    rewrite !elem_of_app. auto. }
  apply list_elem_of_omap in Hin' as (cmd & Hc & Hr). exists cmd. split; [|done].
  rewrite (sys_commands _ Hs). apply elem_of_app. by left.
Qed.

(** ** Runs of one thread *)

(** One turn of the response loop. *)
Lemma drain_turn s ns evs :
  system_ok s → main s = Draining evs → ∃ (b : bool) rsp w',
    let s' := after_main s (if b then Draining evs else Handling evs) w' (notify s) in
    main_moves os event_fd listen_fd s ns Interrupted = Some s' ∧ system_ok s' ∧
    answered s' = answered s ++ (if b then [rsp] else []) ∧
    unread s = (if b then [rsp] else []) ++ unread s' ∧
    (q_synced (rsp_queue (gateway s)) ≤ Nat.b2n b + q_synced (rsp_queue w'))%nat ∧
    (b = false → q_synced (rsp_queue (gateway s)) = O) ∧
    (ns.2 = [] → unread s ≠ [] → b = true) ∧
    if b then drained os (look ns (gateway s)) w' rsp else trace w' = trace (gateway s).
Proof using Hos EventFdLaws0 BoundedQueueLaws0 BoundedQueueLaws1.
  intros Hs Hmain. pose proof (sys_gateway _ Hs) as Hw.
  destruct (drain_body_ok os _ (look_ok ns _ Hw)) as (b & rsp & w' & Hrun & _ & Hpop & Heq & Hd).
  destruct (look_kept ns _ Hw) as [_ [_ Kr Ksy _ _]].
  destruct (main_moves_ok os Hos event_fd listen_fd s ns Interrupted Hs)
    as (pc & w & e & stop & new & gone & Hstep & Hmove & Hm & Hs' & Hans).
  rewrite Hmain in Hstep. cbn [main_step] in Hstep. rewrite Hrun in Hstep. cbn in Hstep. injection Hstep as <- <- <-.
  exists b, rsp, w'. cbv zeta. split; [done|]. split; [done|].
  destruct Hpop as [_ Hi Hsy _ _ Href]. rewrite Kr in Hi.
  assert (gone = if b then [rsp] else []) as ->.
  { pose proof (moves_responses _ _ _ _ _ Hm) as Hi'. rewrite Hi in Hi'. by apply app_inv_tail in Hi'. }
  split_and!; [done|exact Hi|lia| | |by destruct b; [|destruct Hd as (_ & ? & _)]].
  - intros ->. destruct (Href eq_refl). lia.
  - intros Hns Hne. destruct (q_pop_latest (rsp_queue (gateway s)) EngineResponse.default (ok_rsp_queue _ Hw) Hne)
      as (y & q & E'). cbn [look rsp_queue set_rsp_queue] in Heq. rewrite Hns, E' in Heq. by injection Heq.
Qed.

(** A turn over a reliable network, for the first clients. *)
Lemma drained_delivers (w w' : world (CQ:=CQ) (RQ:=RQ)) rsp :
  reliable os → gw_ok w → Z.of_nat (length (accepted_fds (trace w))) ≤ kMaxSlots →
  drained os w w' rsp → connections w' = connections w ∧
  ∃ acts, trace w' = trace w ++ acts ∧ ∀ rsps acts',
    delivered (connections w) rsps acts' → delivered (connections w) (rsp :: rsps) (acts ++ acts').
Proof using Type.
  intros Hrel Hw Hl [(slot & Hslot & Hdead & Hc & Ht & _)|(fd & conn & r & -> & Hconn & Htok & Hsent)].
  - split; [done|]. exists []. split; [by rewrite app_nil_r|]. intros rsps acts Hd. apply delivered_gone; [|done].
    intros fd conn Hconn Htok. pose proof (ok_first_uses _ Hw _ _ Hconn Hl) as Hslot'.
    destruct (ok_connections _ Hw _ _ Hconn) as (Hfd & _).
    rewrite Htok, Hslot in Hslot'. injection Hslot' as ->. simpl in Hdead. destruct Hdead; [done|lia].
  - rewrite Hrel, length_response_frame, decide_True in Hsent by done. destruct Hsent as (Hc & Ht & _).
    split; [done|]. eexists. split; [exact Ht|]. intros rsps acts Hd. by eapply delivered_sent.
Qed.

(** [main] alone, with choices of its own. *)
Definition main_alone (nss : nat → list nat * list nat) (k : nat) : list move :=
  (λ i, MoveMain (nss i) Interrupted) <$> seq 0 k.

Lemma main_alone_S nss k : main_alone nss (S k) = MoveMain (nss O) Interrupted :: main_alone (nss ∘ S) k.
Proof.
  unfold main_alone. cbn [seq]. rewrite fmap_cons. f_equal. by rewrite <- fmap_S_seq, <- list_fmap_compose.
Qed.

(** The response loop ends, takes all that it is bound to see, and delivers
    what it takes. *)
Lemma drain_run n nss s evs :
  system_ok s → main s = Draining evs → length (unread s) = n →
  ∃ k s' gone, (k ≤ n + 1)%nat ∧ run_moves os event_fd listen_fd s (main_alone nss k) = Some s' ∧
    main s' = Handling evs ∧ answered s' = answered s ++ gone ∧ unread s = gone ++ unread s' ∧
    ((length (unread s) ≤ q_synced (rsp_queue (gateway s)))%nat → unread s' = []) ∧
    (reliable os → Z.of_nat (length (accepted_fds (trace (gateway s)))) ≤ kMaxSlots →
     ∃ acts, trace (gateway s') = trace (gateway s) ++ acts ∧
       delivered (connections (gateway s)) gone acts).
Proof using Hos EventFdLaws0 BoundedQueueLaws0 BoundedQueueLaws1.
  revert s nss. induction n as [|n IH]; intros s nss Hs Hmain Hn;
    destruct (drain_turn s (nss O) evs Hs Hmain) as (b & rsp & w' & Hmove & Hs1 & Hans & Hun & Hsy & Href & _ & Hd);
    set (s1 := after_main _ _ _ _) in *.
  all: destruct b; [|exists 1%nat, s1, []; split; [lia|]; rewrite main_alone_S; cbn [run_moves run_move];
    rewrite Hmove; split_and!; try done;
    [intros Hl; apply length_zero_iff_nil; rewrite (Href eq_refl) in Hl; simpl in Hun;
      rewrite <- Hun; lia
    |intros _ _; exists []; split; [by rewrite (right_id_L [] (++))|apply delivered_nil]]].
  - apply nil_length_inv in Hn. by rewrite Hn in Hun.
  - rewrite Hun in Hn. simpl in Hn.
    destruct (IH s1 (nss ∘ S) Hs1 eq_refl ltac:(lia)) as (k & s' & gone & Hk & Hrun & Hm & Ha & Hu & Hend & Hdel).
    exists (S k), s', (rsp :: gone). split; [lia|]. rewrite main_alone_S. cbn [run_moves run_move]. rewrite Hmove.
    split_and!; [done..| | | |].
    + by rewrite Ha, Hans, <- (assoc_L (++)).
    + by rewrite Hun, Hu.
    + rewrite Hun. simpl. intros Hl. apply Hend. simpl in *. lia.
    + intros Hrel Hl. pose proof (look_ok (nss O) _ (sys_gateway _ Hs)) as Hw.
      destruct (drained_delivers _ w' rsp Hrel Hw Hl Hd) as (Hc & acts & Ht & Hcons).
      cbn [look connections trace set_rsp_queue set_cmd_queue] in Hc, Ht, Hcons.
      pose proof (delivered_accepts _ _ _ (Hcons [] [] (delivered_nil _))) as Hacc. rewrite app_nil_r in Hacc.
      destruct Hdel as (acts' & Ht' & Hd'); [done|simpl; by rewrite Ht, accepted_fds_app, Hacc, app_nil_r|].
      simpl in Ht', Hd'. rewrite Hc in Hd'. exists (acts ++ acts'). split; [by rewrite Ht', Ht, (assoc_L (++))|by apply Hcons].
Qed.

(** A move that only learns. *)
Lemma after_main_idle s pc (w : world (CQ:=CQ) (RQ:=RQ)) e :
  q_items (cmd_queue w) = q_items (cmd_queue (gateway s)) →
  q_items (rsp_queue w) = q_items (rsp_queue (gateway s)) →
  submitted (after_main s pc w e) = submitted s ∧ answered (after_main s pc w e) = answered s ∧
  unread (after_main s pc w e) = unread s.
Proof.
  intros Hc Hr. unfold unread. simpl. by rewrite Hc, Hr, drop_all, Nat.sub_diag, !app_nil_r.
Qed.

(** The gateway is woken: it enters the response loop, bound to see every
    response that waits unless the matching thread has yet to signal. *)
Lemma wake_run s ns ns' readable evs :
  system_ok s → main s = Waiting → ∃ s',
    run_moves os event_fd listen_fd s
      [MoveMain ns (Events ((event_fd, readable) :: evs)); MoveMain ns' Interrupted] = Some s' ∧
    system_ok s' ∧ main s' = Draining evs ∧ answered s' = answered s ∧ unread s' = unread s ∧
    submitted s' = submitted s ∧ trace (gateway s') = trace (gateway s) ∧
    connections (gateway s') = connections (gateway s) ∧
    (engine s = Notifying ∨ (length (unread s') ≤ q_synced (rsp_queue (gateway s')))%nat).
Proof using Hos EventFdLaws0 BoundedQueueLaws0 BoundedQueueLaws1.
  intros Hs Hmain. pose proof (sys_gateway _ Hs) as Hw.
  destruct (look_kept ns _ Hw) as [[_ Kc _ _ _] [_ Kr _ _ _]].
  destruct (main_moves_ok os Hos event_fd listen_fd s ns (Events ((event_fd, readable) :: evs)) Hs)
    as (pc & w & e & stop & new & gone & Hstep & Hmove & _ & Hs1 & _).
  rewrite Hmain in Hstep. cbn [main_step] in Hstep. injection Hstep as <- <- <-.
  destruct (after_main_idle s (Handling ((event_fd, readable) :: evs)) _ (notify s) Kc Kr) as (Hsub1 & Ha1 & Hu1).
  set (s1 := after_main _ _ _ _) in *. pose proof (sys_gateway _ Hs1) as Hw1.
  destruct (look_kept ns' _ Hw1) as [[_ Kc1 _ _ _] [_ Kr1 _ _ _]].
  destruct (main_moves_ok os Hos event_fd listen_fd s1 ns' Interrupted Hs1)
    as (pc & w & e & stop' & new' & gone' & Hstep' & Hmove' & Hm' & Hs2 & _).
  pose proof (read_eventfd_moves (look ns' (gateway s1)) (notify s1) (look_ok ns' _ Hw1)) as Hread.
  change (main s1) with (Handling ((event_fd, readable) :: evs)) in Hstep'. cbn [main_step] in Hstep'.
  rewrite decide_True in Hstep' by done. destruct (read_eventfd _ _) as [w2 e2] eqn:Er.
  injection Hstep' as <- <- <-. destruct Hread as (_ & Hconn & _).
  assert (q_items (cmd_queue w2) = q_items (cmd_queue (gateway s1)) ∧
    q_items (rsp_queue w2) = q_items (rsp_queue (gateway s1)) ∧ trace w2 = trace (gateway s1) ∧
    ev_ready e2 = false) as (Kc2 & Kr2 & Ht & He).
  { unfold read_eventfd in Er. injection Er as <- <-. rewrite ev_ready_clear.
    destruct (q_sync_spec _ (ok_rsp_queue _ (look_ok ns' _ Hw1))) as [[_ Ks _ _ _] _].
    clear -Kc1 Kr1 Ks. change (notify s1) with (notify s). destruct (ev_ready (notify s)).
    - split; [exact Kc1|]. split; [exact (eq_trans Ks Kr1)|done].
    - split; [exact Kc1|]. split; [exact Kr1|done]. }
  destruct (after_main_idle s1 (Draining evs) w2 e2 Kc2 Kr2) as (Hsub2 & Ha2 & Hu2).
  exists (after_main s1 (Draining evs) w2 e2). cbn [run_moves run_move]. rewrite Hmove. cbn [mbind option_bind].
  rewrite Hmove'. rewrite Hsub2, Ha2, Hu2. split_and!; try done.
  destruct (sys_awake _ Hs2) as [?|[_ [Hempty|[Hready|Hatt]]]]; [by left|right..].
  - change (q_items (rsp_queue w2) = []) in Hempty. rewrite <- Hu2. unfold unread. simpl. rewrite Hempty. simpl. lia.
  - simpl in Hready. congruence.
  - rewrite <- Hu2. exact Hatt.
Qed.

(** The matching thread alone, which sees the newest stores. *)
Definition engine_alone (k : nat) : list move := replicate k (MoveEngine ([], [])).

(** It empties the command queue. *)
Lemma engine_run n s :
  system_ok s → (engine_work (engine s) (q_items (cmd_queue (gateway s))) ≤ n)%nat →
  ∃ s' k, (k ≤ n)%nat ∧ run_moves os event_fd listen_fd s (engine_alone k) = Some s' ∧ system_ok s' ∧
    main s' = main s ∧ submitted s' = submitted s ∧ answered s' = answered s ∧
    trace (gateway s') = trace (gateway s) ∧ connections (gateway s') = connections (gateway s) ∧
    engine_idle (engine s') (q_items (cmd_queue (gateway s'))).
Proof using EventFdLaws0 BoundedQueueLaws0 BoundedQueueLaws1.
  revert s. induction n as [|n IH]; intros s Hs Hwork;
    destruct (engine_moves_ok s ([], []) Hs) as (pc & cq & rq & e & taken & pushed & Hmove & Hm & Hs1).
  all: pose proof (sys_gateway _ Hs) as Hw; destruct (look_kept ([], []) _ Hw) as [[_ Kc _ _ _] _].
  all: assert (engine_idle (engine s) (q_items (cmd_queue (gateway s))) ∨
    (engine_work pc (q_items cq) < engine_work (engine s) (q_items (cmd_queue (gateway s))))%nat) as Hprog.
  1, 3: rewrite <- Kc; destruct (engine_progress _ _ _ _ _ _ _ _ _ Hm) as [Hi|[[Hpc (y & q & E')]|Hi]]; auto;
    left; right; split; [done|]; rewrite Kc; destruct (q_items (cmd_queue (gateway s))) eqn:Hitems; [done|];
    destruct (q_pop_latest (cmd_queue (gateway s)) EngineCommand.default (ok_cmd_queue _ Hw))
      as (y' & q' & E''); [by rewrite Hitems|]; cbn in E'; rewrite E'' in E'; discriminate.
  - exists s, 0%nat. destruct Hprog as [?|?]; [|lia]. by split_and!; [lia|..].
  - destruct Hprog as [Hidle|Hless].
    { exists s, 0%nat. by split_and!; [lia|..]. }
    set (s1 := mksystem _ _ _ _ _ _) in *.
    destruct (IH s1 Hs1) as (s' & k & Hk & Hn & Hs' & Hmain & Hsub & Ha & Ht & Hc & Hidle); [simpl; lia|].
    exists s', (S k). split_and!; try done; [lia|].
    change (engine_alone (S k)) with (MoveEngine ([], []) :: engine_alone k). cbn [run_moves run_move].
    by rewrite Hmove.
Qed.

(** Nothing is submitted after the event loop. *)
Lemma joining_stays s s' :
  system_ok s → main s = Joining → ¬ has_shutdown (submitted s) →
  rtc (system_step os event_fd listen_fd) s s' →
  system_ok s' ∧ main s' = Joining ∧ ¬ has_shutdown (submitted s').
Proof using Hos EventFdLaws0 BoundedQueueLaws0 BoundedQueueLaws1.
  intros Hs Hmain Hno Hrun.
  apply (rtc_ind_r (R:=system_step os event_fd listen_fd)
    (λ s', system_ok s' ∧ main s' = Joining ∧ ¬ has_shutdown (submitted s')) s); [done| |exact Hrun].
  intros s1 s2 _ Hstep (Hs1 & Hm & Hn). split; [by eapply system_step_ok|].
  pose proof (sys_gateway _ Hs1) as Hw1.
  destruct Hstep as [ns poll s2 Hstep|ns s2 Hstep].
  - unfold main_moves in Hstep. rewrite Hm in Hstep. injection Hstep as <-. simpl. split; [done|].
    destruct (look_kept ns _ Hw1) as [[_ Kc _ _ _] _]. simpl in Kc. by rewrite Kc, drop_all, app_nil_r.
  - destruct (engine_moves_ok s1 ns Hs1) as (pc & cq & rq & e & taken & pushed & Hmove & _).
    rewrite Hstep in Hmove. by injection Hmove as ->.
Qed.

End runs.

