(* ===== verification/SystemProperties.v ===== *)
(** * Properties of the server

    Theorems about the gateway thread and the matching thread of
    [epoll_server.cpp] running together, over the queues the program
    declares: every state the two threads reach in any interleaving, for
    every behaviour of the kernel and of the clients, and whatever stores of
    the other thread the queue operations see. *)

From S2P Require Import Prelude Protocol Codec Wire Ring FrameParser Stream Session.
From S2P Require Import EngineMessages Queue Spsc SpscSequential SpscQueue Matching Gateway GatewayInvariant.
From S2P Require Import GatewayRequests GatewayProperties System SystemInvariant SystemRuns.

(** ** A run to evaluate the theorems on

    One client connects and sends [sample_bytes]: two orders, a request out
    of sequence and a log-out.  The eventfd is descriptor 5 and the listening
    socket descriptor 4. *)

Definition sample_schedule : list move :=
  let step := MoveMain ([], []) Interrupted in
  MoveMain ([], []) (Events [(4, true)]) :: replicate 5 step ++
  MoveMain ([], []) (Events [(10, true)]) :: replicate 7 step ++
  replicate 6 (MoveEngine ([], [])) ++ [MoveMain ([], []) (Events [(5, true)]); step].

Abbreviation server_state := (system (CQ:=CommandQueue) (RQ:=ResponseQueue) (E:=N)).

Definition sample_run (ms : list move) : option server_state :=
  run_moves (sample_kernel sample_bytes) 5 4 start ms.

(** The state after the first [n] moves. *)
Definition sample_at (n : nat) : server_state := default start (sample_run (take n sample_schedule)).

Lemma run_reachable ms :
  bool_decide (is_Some (sample_run ms)) = true →
  system_reachable (sample_kernel sample_bytes) 5 4 (default start (sample_run ms)).
Proof. intros H. eapply run_moves_reach. exact (some_default _ start H). Qed.

Lemma sample_reachable_14 : system_reachable (sample_kernel sample_bytes) 5 4 (sample_at 14).
Proof. apply run_reachable. vm_compute. reflexivity. Qed.

Lemma sample_reachable_20 : system_reachable (sample_kernel sample_bytes) 5 4 (sample_at 20).
Proof. apply run_reachable. vm_compute. reflexivity. Qed.

Lemma sample_reachable_22 : system_reachable (sample_kernel sample_bytes) 5 4 (sample_at 22).
Proof. apply run_reachable. vm_compute. reflexivity. Qed.

Definition sample_response : EngineResponse.t :=
  EngineResponse.mk 77 0 0 RejectReason.None (SessionToken.mk 0 1) EngineResponseType.Accepted.

Definition sample_kernel_bytes_ok : kernel_ok (sample_kernel sample_bytes) :=
  sample_kernel_ok _ (proj1 sample_bytes_ok) (proj2 sample_bytes_ok).

(** ** Safety *)

(** C2: The server never has undefined behaviour: in every reachable state the
    next step of the gateway thread, whatever [epoll_wait] returns, and the
    next step of the matching thread are defined, whatever stores of the other
    thread their queue operations see.  The connection table is
    always the set of open client descriptors, and a slot with a descriptor
    names the connection that holds its token. *)
Theorem system_never_undefined {E} (HE : EventFd E) (HL : EventFdLaws E) os event_fd listen_fd
    (s : system (CQ:=CommandQueue) (RQ:=ResponseQueue) (E:=E)) :
  kernel_ok os → system_reachable os event_fd listen_fd s →
  (∀ ns poll, ∃ s', main_moves os event_fd listen_fd s ns poll = Some s') ∧
  (∀ ns, ∃ s', engine_moves s ns = Some s') ∧
  dom (connections (gateway s)) = open_fds (trace (gateway s)) ∧
  ∀ i slot, slots (gateway s) !! i = Some slot → 0 ≤ SessionSlot.fd slot →
    ∃ conn, connections (gateway s) !! SessionSlot.fd slot = Some conn ∧
      Connection.token conn = SessionToken.mk (Z.of_nat i) (SessionSlot.generation slot).
Proof.
  intros Hos Hr. pose proof (system_reachable_ok os Hos event_fd listen_fd s Hr) as Hs.
  pose proof (sys_gateway _ Hs) as Hw. split; [|split; [|split; [by apply ok_open|]]].
  - intros ns poll. destruct (main_moves_ok os Hos event_fd listen_fd s ns poll Hs)
      as (pc & w & e & stop & new & gone & _ & -> & _). by eexists.
  - intros ns. destruct (engine_moves_ok s ns Hs) as (pc & cq & rq & e & taken & pushed & -> & _).
    by eexists.
  - intros i slot Hslot. by apply (ok_slots _ Hw).
Qed.

Lemma system_never_undefined_witness :
  ∃ s', engine_moves (sample_at 14) ([0%nat], []) = Some s'.
Proof.
  destruct (system_never_undefined _ _ _ 5 4 (sample_at 14) sample_kernel_bytes_ok sample_reachable_14)
    as (_ & H & _).
  exact (H ([0%nat], [])).
Defined.

(** ** Liveness *)



(** The matching thread alone leaves nothing unanswered. *)
Lemma engine_answers {E} {HE : EventFd E} {HL : EventFdLaws E} {os event_fd listen_fd}
    (s : system (CQ:=CommandQueue) (RQ:=ResponseQueue) (E:=E)) :
  kernel_ok os → system_reachable os event_fd listen_fd s → main s ≠ Joining →
  Z.of_nat (length (omap respond (submitted s))) ≤ usable V3 kQueueCapacity →
  ∃ s' i, (i ≤ 3 * length (q_items (cmd_queue (gateway s))) + 2)%nat ∧
    run_moves os event_fd listen_fd s (engine_alone i) = Some s' ∧ system_ok s' ∧
    main s' = main s ∧ submitted s' = submitted s ∧ answered s' = answered s ∧
    trace (gateway s') = trace (gateway s) ∧ connections (gateway s') = connections (gateway s) ∧
    engine s' = Polling ∧ answered s' ++ unread s' = omap respond (submitted s).
Proof.
  intros Hos Hr Hmain Hl. pose proof (system_reachable_ok os Hos event_fd listen_fd s Hr) as Hs.
  destruct (engine_run os event_fd listen_fd _ s Hs (le_n _))
    as (s' & i & Hi & Hn & Hs' & Hm & Hsub & Ha & Ht & Hc & Hidle).
  exists s', i. split; [unfold engine_work in Hi; destruct (engine s); lia|].
  do 7 (split; [done|]). destruct Hidle as [Hst|[Hpc Hempty]].
  - apply (sys_stopped _ Hs') in Hst. exfalso. apply Hmain. rewrite <- Hm.
    apply (sys_joining _ Hs'). rewrite (sys_commands _ Hs'). apply has_shutdown_app. by left.
  - split; [done|]. pose proof (sys_lossless _ Hs') as Hall. rewrite Hpc, app_nil_r, Hsub in Hall.
    rewrite (Hall Hl). f_equal. rewrite <- Hsub, (sys_commands _ Hs').
    by rewrite Hempty, app_nil_r.
Qed.

(** C8: Orders are answered to their clients, under the side conditions that
    rule out the losses of a full queue, of a shared slot and of a short send:
    the gateway sleeps in [epoll_wait], at most 4095 orders were submitted and
    at most 1024 clients accepted since the start, and [send] takes every
    frame whole.  There is then a run that answers the orders.  In it the
    matching thread runs alone, seeing the newest stores, and works the
    command queue off in at most three steps per command and two more;
    afterwards the gateway, woken by the eventfd and whatever its own loads
    see, sends in the order of submission the response to each order that was
    not answered yet to the open connection that submitted it, and leaves out
    exactly those whose connection is closed. *)
Theorem orders_answered {E} (HE : EventFd E) (HL : EventFdLaws E) os event_fd listen_fd
    (s : system (CQ:=CommandQueue) (RQ:=ResponseQueue) (E:=E)) ns nss :
  kernel_ok os → reliable os → system_reachable os event_fd listen_fd s → main s = Waiting →
  Z.of_nat (length (omap respond (submitted s))) ≤ usable V3 kQueueCapacity →
  Z.of_nat (length (accepted_fds (trace (gateway s)))) ≤ kMaxSlots →
  ∃ open_orders i j s' acts,
    omap respond (submitted s) = answered s ++ open_orders ∧
    (i ≤ 3 * length (q_items (cmd_queue (gateway s))) + 2)%nat ∧ (j ≤ length open_orders + 2)%nat ∧
    run_moves os event_fd listen_fd s
      (engine_alone i ++ MoveMain ns (Events [(event_fd, true)]) :: main_alone nss j) = Some s' ∧
    main s' = Handling [] ∧ answered s' = omap respond (submitted s) ∧
    trace (gateway s') = trace (gateway s) ++ acts ∧
    delivered (connections (gateway s)) open_orders acts.
Proof.
  intros Hos Hrel Hr Hmain Hl Hacc. pose proof (system_reachable_ok os Hos event_fd listen_fd s Hr) as Hs.
  destruct (engine_answers s Hos Hr) as (s1 & i & Hi & Hrun1 & Hs1 & Hm1 & Hsub1 & Ha1 & Ht1 & Hc1 & Hpc & Hall);
    [by rewrite Hmain|done|].
  rewrite Hmain in Hm1.
  destruct (wake_run os Hos event_fd listen_fd s1 ns (nss O) true [] Hs1 Hm1)
    as (s2 & Hrun2 & Hs2 & Hm2 & Ha2 & Hu2 & _ & Ht2 & Hc2 & Hbound).
  destruct (drain_run os Hos event_fd listen_fd _ (nss ∘ S) s2 [] Hs2 Hm2 eq_refl)
    as (j & s' & gone & Hj & Hrun & Hm & Ha & Hu & Hend & Hdel).
  assert (unread s' = []) as Hnone by (destruct Hbound as [?|?]; [congruence|by apply Hend]).
  rewrite Hnone, app_nil_r in Hu. rewrite Ht2, Ht1, Hc2, Hc1 in Hdel.
  destruct Hdel as (acts & Ht & Hd); [done|done|].
  exists gone, i, (S j), s', acts. rewrite <- Hall, Ha1, <- Hu2, Hu. split_and!; try done.
  - rewrite Hu in Hj. lia.
  - rewrite main_alone_S, run_moves_app, Hrun1. cbn [mbind option_bind].
    by rewrite (run_moves_two _ _ _ _ _ _ _ _ Hrun2).
  - by rewrite Ha, Ha2, Ha1.
Qed.

Lemma orders_answered_witness :
  ∃ i j s' acts, run_moves (sample_kernel sample_bytes) 5 4 (sample_at 14)
      (engine_alone i ++ MoveMain ([], []) (Events [(5, true)]) :: main_alone (λ _, ([], [0%nat])) j) = Some s' ∧
    trace (gateway s') = trace (gateway (sample_at 14)) ++ acts ∧
    delivered (connections (gateway (sample_at 14))) [sample_response; sample_response] acts.
Proof.
  assert (omap respond (submitted (sample_at 14)) = [sample_response; sample_response] ∧
    answered (sample_at 14) = []) as [E Ea] by (split; vm_compute; reflexivity).
  destruct (orders_answered _ _ _ 5 4 (sample_at 14) ([], []) (λ _, ([], [0%nat])) sample_kernel_bytes_ok)
    as (rsps & i & j & s' & acts & Hall & _ & _ & Hrun & _ & _ & Ht & Hd).
  - intros tr fd bytes. reflexivity.
  - exact sample_reachable_14.
  - vm_compute. reflexivity.
  - rewrite E. vm_compute. discriminate.
  - vm_compute. discriminate.
  - rewrite E, Ea in Hall. simpl in Hall. subst rsps. exists i, j, s', acts. exact (conj Hrun (conj Ht Hd)).
Defined.

(** C37: Shutdown: [matching.join()] returns once the shutdown command found
    room in the queue, and never when it did not: its refusal is ignored.
    When it returns, [main] closes every open client descriptor once. *)
Theorem shutdown_joins {E} (HE : EventFd E) (HL : EventFdLaws E) os event_fd listen_fd
    (s : system (CQ:=CommandQueue) (RQ:=ResponseQueue) (E:=E)) :
  kernel_ok os → system_reachable os event_fd listen_fd s → main s = Joining →
  (has_shutdown (submitted s) → ∃ s' k w fds,
     (k ≤ 3 * length (q_items (cmd_queue (gateway s))) + 2)%nat ∧
     run_moves os event_fd listen_fd s (engine_alone k) = Some s' ∧ engine s' = Stopped ∧
     close_all (gateway s') = Some (tt, w) ∧ open_fds (trace w) = ∅ ∧ NoDup fds ∧
     list_to_set fds = open_fds (trace (gateway s)) ∧ trace w = trace (gateway s) ++ (Close <$> fds)) ∧
  (¬ has_shutdown (submitted s) → ∀ s', rtc (system_step os event_fd listen_fd) s s' →
     main s' = Joining ∧ engine s' ≠ Stopped).
Proof.
  intros Hos Hr Hmain. pose proof (system_reachable_ok os Hos event_fd listen_fd s Hr) as Hs. split.
  - intros Hsd. destruct (engine_run os event_fd listen_fd _ s Hs (le_n _))
      as (s' & k & Hk & Hn & Hs' & _ & Hsub & _ & Ht & _ & Hidle).
    destruct (close_all_ok (gateway s') (sys_gateway _ Hs')) as (w & Hrun & Hopen & fds & Hnd & Hfds & Htr).
    rewrite Ht in Hfds, Htr. exists s', k, w, fds.
    split; [unfold engine_work in Hk; destruct (engine s); lia|]. split; [done|].
    split; [|done]. destruct Hidle as [?|[_ Hempty]]; [done|]. apply (sys_stopped _ Hs').
    rewrite <- Hsub, (sys_commands _ Hs'), Hempty in Hsd.
    apply has_shutdown_app in Hsd as [?|?%has_shutdown_nil]; done.
  - intros Hno s' Hrun.
    destruct (joining_stays os Hos event_fd listen_fd s s' Hs Hmain Hno Hrun) as (Hs' & Hm & Hn).
    split; [done|]. intros Hst. apply Hn. rewrite (sys_commands _ Hs'). apply has_shutdown_app. left.
    by apply (sys_stopped _ Hs').
Qed.

Lemma shutdown_joins_witness :
  let s := default start (sample_run [MoveMain ([], []) PollFailed]) in
  ∃ s' k w, run_moves (sample_kernel sample_bytes) 5 4 s (engine_alone k) = Some s' ∧ engine s' = Stopped ∧
    close_all (gateway s') = Some (tt, w) ∧ open_fds (trace w) = ∅.
Proof.
  intros s. destruct (shutdown_joins _ _ _ 5 4 s sample_kernel_bytes_ok) as [H _].
  - apply run_reachable. vm_compute. reflexivity.
  - vm_compute. reflexivity.
  - destruct H as (s' & k & w & fds & _ & Hn & Hst & Hc & Ho & _).
    + assert (submitted s = [shutdown_command]) as E by (vm_compute; reflexivity).
      rewrite E. apply has_shutdown_singleton. reflexivity.
    + exists s', k, w. exact (conj Hn (conj Hst (conj Hc Ho))).
Defined.

(** ** Order and routing of responses *)

(** C6: Responses keep the order of the commands: what the gateway took out,
    followed by what waits, is a subsequence of the responses to the commands
    submitted; nothing at all is missing while no more than 4095 orders
    were submitted. *)
Theorem responses_in_order {E} (HE : EventFd E) (HL : EventFdLaws E) os event_fd listen_fd
    (s : system (CQ:=CommandQueue) (RQ:=ResponseQueue) (E:=E)) :
  kernel_ok os → system_reachable os event_fd listen_fd s →
  answered s ++ unread s ++ pending (engine s) `sublist_of` omap respond (submitted s) ∧
  (Z.of_nat (length (omap respond (submitted s))) ≤ usable V3 kQueueCapacity →
   answered s ++ unread s ++ pending (engine s) ++ omap respond (q_items (cmd_queue (gateway s))) =
   omap respond (submitted s)).
Proof.
  intros Hos Hr. pose proof (system_reachable_ok os Hos event_fd listen_fd s Hr) as Hs. split.
  - etrans; [apply (sys_responses _ Hs)|]. rewrite (sys_commands _ Hs).
    rewrite omap_app. by apply sublist_inserts_r.
  - intros Hl. pose proof (sys_lossless _ Hs Hl) as Hall.
    rewrite (sys_commands _ Hs) at 1. rewrite omap_app, <- Hall. by rewrite <- !(assoc_L (++)).
Qed.

Lemma responses_in_order_witness :
  answered (sample_at 20) ++ unread (sample_at 20) ++ pending (engine (sample_at 20))
    `sublist_of` [sample_response; sample_response].
Proof.
  assert (omap respond (submitted (sample_at 20)) = [sample_response; sample_response]) as E
    by (vm_compute; reflexivity).
  destruct (responses_in_order _ _ _ 5 4 (sample_at 20) sample_kernel_bytes_ok sample_reachable_20)
    as [H _].
  rewrite E in H. exact H.
Defined.

(** C3: A response goes to the connection that submitted its command and to no
    other: a turn of the response loop that takes a response takes the oldest
    one, which answers a submitted command; it is dropped when the slot of its
    token is not in use by that token, and otherwise sent to the open
    connection with the command's token, the one accepted last on that
    descriptor.  Within 2^42 accepts no other open connection has that token.
    A turn that sees the newest stores takes a response. *)
Theorem responses_routed {E} (HE : EventFd E) (HL : EventFdLaws E) os event_fd listen_fd
    (s : system (CQ:=CommandQueue) (RQ:=ResponseQueue) (E:=E)) evs rsp rest ns :
  kernel_ok os → system_reachable os event_fd listen_fd s →
  main s = Draining evs → unread s = rsp :: rest →
  ∃ b s', main_moves os event_fd listen_fd s ns Interrupted = Some s' ∧ (ns.2 = [] → b = true) ∧
    if b : bool then main s' = Draining evs ∧ unread s' = rest ∧
      ∃ cmd, cmd ∈ submitted s ∧ respond cmd = Some rsp ∧
      ((∃ slot, slots (gateway s) !! Z.to_nat (SessionToken.slot (EngineCommand.session cmd)) = Some slot ∧
          (SessionSlot.generation slot ≠ SessionToken.generation (EngineCommand.session cmd) ∨
           SessionSlot.fd slot < 0) ∧
          trace (gateway s') = trace (gateway s)) ∨
       (∃ fd conn k r tail, connections (gateway s) !! fd = Some conn ∧
          last_accept (trace (gateway s)) fd k ∧
          Connection.token conn = token_of (Z.of_nat k) ∧
          Connection.token conn = EngineCommand.session cmd ∧
          trace (gateway s') = trace (gateway s) ++ Send fd (response_frame rsp) r :: tail ∧
          tail = (if decide (r = Z.of_nat kFrameSize) then [] else [EpollRemove fd; Close fd]) ∧
          (Z.of_nat (length (accepted_fds (trace (gateway s)))) ≤ 2 ^ 42 →
           ∀ fd' conn', connections (gateway s) !! fd' = Some conn' →
             Connection.token conn' = EngineCommand.session cmd → fd' = fd)))
    else main s' = Handling evs ∧ unread s' = unread s ∧ trace (gateway s') = trace (gateway s).
Proof.
  intros Hos Hr Hmain Hu. pose proof (system_reachable_ok os Hos event_fd listen_fd s Hr) as Hs.
  pose proof (sys_gateway _ Hs) as Hw.
  destruct (unread_source s rsp Hs) as (cmd & Hc & Hresp); [rewrite Hu; by left|].
  pose proof (respond_session _ _ Hresp) as Hsess.
  destruct (drain_turn os Hos event_fd listen_fd s ns evs Hs Hmain)
    as (b & rsp' & w' & Hmove & _ & _ & Hun & _ & _ & Hlatest & Hd).
  set (s' := after_main _ _ _ _) in *. exists b, s'. split; [done|].
  split; [intros; apply Hlatest; [done|by rewrite Hu]|]. destruct b; [|by rewrite Hun].
  rewrite Hu in Hun. injection Hun as <- Hrest. split; [done|]. split; [done|].
  exists cmd. split; [done|]. split; [done|]. unfold drained in Hd. rewrite Hsess in Hd.
  destruct Hd as [(slot & ? & ? & _ & ? & _)|(fd & conn & r & _ & Hconn & Htok & Hsent)].
  { left. by exists slot. }
  right. destruct (ok_tokens _ Hw _ _ Hconn) as (k & Hk & Htk).
  eexists fd, conn, k, r, _. do 4 (split; [done|]). split; [|split; [reflexivity|]].
  - case_decide; apply Hsent.
  - intros Hl fd' conn' Hc' Ht'. eapply (same_token (gateway s)); [done..|]. congruence.
Qed.

Lemma responses_routed_witness :
  ∃ s' cmd, main_moves (sample_kernel sample_bytes) 5 4 (sample_at 22) ([], []) Interrupted = Some s' ∧
    unread s' = [sample_response] ∧ cmd ∈ submitted (sample_at 22) ∧
    respond cmd = Some sample_response.
Proof.
  destruct (responses_routed _ _ _ 5 4 (sample_at 22) [] sample_response [sample_response] ([], [])
    sample_kernel_bytes_ok sample_reachable_22) as (b & s' & H1 & Hb & H2).
  - vm_compute. reflexivity.
  - vm_compute. reflexivity.
  - rewrite (Hb eq_refl) in H2. destruct H2 as (_ & H2 & cmd & H3 & H4 & _).
    exists s', cmd. exact (conj H1 (conj H2 (conj H3 H4))).
Defined.

(** C14: Nothing is lost on the way back for the first 1024 clients: when the
    response loop takes the response to a command of a connection that is
    still open, it sends it to that connection. *)
Theorem responses_delivered {E} (HE : EventFd E) (HL : EventFdLaws E) os event_fd listen_fd
    (s : system (CQ:=CommandQueue) (RQ:=ResponseQueue) (E:=E)) evs rsp rest fd conn ns :
  kernel_ok os → system_reachable os event_fd listen_fd s →
  main s = Draining evs → unread s = rsp :: rest →
  Z.of_nat (length (accepted_fds (trace (gateway s)))) ≤ kMaxSlots →
  connections (gateway s) !! fd = Some conn →
  Connection.token conn = EngineResponse.session rsp →
  ∃ b s', main_moves os event_fd listen_fd s ns Interrupted = Some s' ∧ (ns.2 = [] → b = true) ∧
    if b : bool
    then ∃ r tail, trace (gateway s') = trace (gateway s) ++ Send fd (response_frame rsp) r :: tail
    else unread s' = unread s.
Proof.
  intros Hos Hr Hmain Hu Hl Hconn Htok.
  pose proof (system_reachable_ok os Hos event_fd listen_fd s Hr) as Hs.
  pose proof (sys_gateway _ Hs) as Hw.
  destruct (drain_turn os Hos event_fd listen_fd s ns evs Hs Hmain)
    as (b & rsp' & w' & Hmove & _ & _ & Hun & _ & _ & Hlatest & Hd).
  set (s' := after_main _ _ _ _) in *. exists b, s'. split; [done|].
  split; [intros; apply Hlatest; [done|by rewrite Hu]|]. destruct b; [|by rewrite Hun].
  rewrite Hu in Hun. injection Hun as <- Hrest.
  pose proof (ok_first_uses _ Hw _ _ Hconn Hl) as Hslot. rewrite Htok in Hslot.
  destruct (ok_connections _ Hw _ _ Hconn) as (Hfd & _).
  destruct Hd as [(slot & Hslot' & Hdead & _)|(fd' & conn' & r & _ & Hconn' & Htok' & Hsent)].
  - cbn [slots look set_rsp_queue set_cmd_queue] in Hslot'. rewrite Hslot in Hslot'.
    injection Hslot' as <-. simpl in Hdead. destruct Hdead; [done|lia].
  - assert (fd' = fd) as ->.
    { eapply (same_token (gateway s)); [done..| |congruence]. etrans; [exact Hl|done]. }
    exists r. case_decide; destruct Hsent as (_ & Ht & _); eexists; exact Ht.
Qed.

Lemma responses_delivered_witness :
  ∃ s' r tail, main_moves (sample_kernel sample_bytes) 5 4 (sample_at 22) ([], []) Interrupted = Some s' ∧
    trace (gateway s') = trace (gateway (sample_at 22)) ++ Send 10 (response_frame sample_response) r :: tail.
Proof.
  destruct (responses_delivered _ _ _ 5 4 (sample_at 22) [] sample_response [sample_response] 10
    (default sample_connection (connections (gateway (sample_at 22)) !! 10)) ([], [])
    sample_kernel_bytes_ok sample_reachable_22) as (b & s' & H1 & Hb & H2).
  - vm_compute. reflexivity.
  - vm_compute. reflexivity.
  - vm_compute. discriminate.
  - apply some_default. vm_compute. reflexivity.
  - vm_compute. reflexivity.
  - rewrite (Hb eq_refl) in H2. destruct H2 as (r & tail & Ht). exists s', r, tail. exact (conj H1 Ht).
Defined.
