(* ===== verification/Slots.v ===== *)
(** * Slots that are out of service

    [accept] hands out slots of [epoll_server.cpp] without asking whether they
    are free, and [close_conn] takes a slot out of service without asking
    whose it is.  A slot that is out of service stays so until it is handed
    out again, and then its generation is another one; so a connection that
    shared its slot with one that closed never gets another response. *)

From S2P Require Import Prelude Protocol Codec Wire Ring FrameParser Stream Session.
From S2P Require Import EngineMessages Queue Matching Gateway GatewayInvariant GatewayRequests.
From S2P Require Import GatewayProperties System SystemInvariant SystemRuns.

Create HintDb retire.

Section slots.
Context {CQ RQ : Type}.
Context `{!BoundedQueue CQ EngineCommand.t, !BoundedQueue RQ EngineResponse.t}.
Context `{!BoundedQueueLaws CQ EngineCommand.t, !BoundedQueueLaws RQ EngineResponse.t}.
Context (os : Kernel) (Hos : kernel_ok os).
Abbreviation world := (world (CQ:=CQ) (RQ:=RQ)).
Abbreviation gw := (gw (CQ:=CQ) (RQ:=RQ)).
Implicit Types (w : world).

Definition dead (i : nat) w : Prop := ∃ slot, slots w !! i = Some slot ∧ SessionSlot.fd slot < 0.

(** How often the slot was handed out. *)
Definition uses (i : nat) w : Z :=
  slot_uses (Z.of_nat (length (accepted_fds (trace w)))) (Z.of_nat i).

(** From one state to a later one a dead slot stays dead or is handed out. *)
Record retires w w' : Prop := {
  retires_trace : trace w `prefix_of` trace w';
  retires_slots i : dead i w → dead i w' ∨ uses i w < uses i w'
}.

Lemma uses_mono i w w' : trace w `prefix_of` trace w' → uses i w ≤ uses i w'.
Proof.
  intros [tr Ht]. unfold uses. rewrite Ht, accepted_fds_app, length_app. unfold slot_uses, kMaxSlots.
  apply Z.div_le_mono; lia.
Qed.

#[export] Instance retires_preorder : PreOrder retires.
Proof.
  split; [intros w; by split; auto|]. intros w1 w2 w3 [T1 S1] [T2 S2]. split; [by etrans|].
  intros i [Hd|Hu]%S1; [apply S2 in Hd as [?|?]; [by left|right]|right].
  - eapply Z.le_lt_trans; [by apply uses_mono|done].
  - eapply Z.lt_le_trans; [done|by apply uses_mono].
Qed.

(** A change of anything but the slots. *)
Lemma retires_same w w' : trace w `prefix_of` trace w' → slots w' = slots w → retires w w'.
Proof. intros Ht Hs. split; [done|]. intros i Hd. left. unfold dead in *. by rewrite Hs. Qed.

(** Programs that hand out no slot. *)
Definition retiring {A} (m : gw A) : Prop := ∀ w a w', m w = Some (a, w') → retires w w'.

Lemma retiring_ret {A} (a : A) : retiring (mret a).
Proof. by intros w b w' [= _ ->]. Qed.

Lemma retiring_bind {A B} (m : gw A) (f : A → gw B) :
  retiring m → (∀ a, retiring (f a)) → retiring (m ≫= f).
Proof.
  intros Hm Hf w b w' ([a w1] & E & Hb)%bind_Some. etrans; [by eapply Hm|by eapply Hf].
Qed.

Lemma retiring_gets {A} (f : world → A) : retiring (gets f).
Proof. by intros w a w' [= _ ->]. Qed.

Lemma retiring_undefined {A} : retiring (undefined (A:=A)).
Proof. done. Qed.

Lemma retiring_lift {A} (m : option A) : retiring (lift m).
Proof. intros w a w' (? & _ & [= _ ->])%bind_Some. done. Qed.

Lemma retiring_modify (f : world → world) : (∀ w, retires w (f w)) → retiring (modify f).
Proof. intros Hf w a w' [= _ <-]. apply Hf. Qed.

Lemma retires_emit sc w : retires w (emit sc w).
Proof. by apply retires_same; [apply prefix_app_r|]. Qed.

Lemma retires_connections c w : retires w (set_connections c w).
Proof. by apply retires_same. Qed.

Lemma retiring_send fd bytes : retiring (send os fd bytes).
Proof. intros w a w' [= _ <-]. apply retires_emit. Qed.

Lemma retiring_recv fd : retiring (recv os fd).
Proof. intros w a w' [= _ <-]. apply retires_emit. Qed.

Lemma retiring_push cmd : retiring (push_command cmd).
Proof. intros w a w' ([b q] & _ & [= _ <-])%bind_Some. by apply retires_same. Qed.

Lemma retiring_pop out : retiring (pop_response out).
Proof. intros w a w' ([[b rsp] q] & _ & [= _ <-])%bind_Some. by apply retires_same. Qed.

(** Taking a slot out of service. *)
Lemma retiring_put_slot i g : retiring (put_slot i (SessionSlot.mk (-1) g)).
Proof.
  intros w a w'. unfold put_slot, gets, mbind, gw_bind. cbn [mbind option_bind].
  case_decide; [|done]. unfold lift, put. case_decide as Hi; [|done]. intros [= _ <-].
  split; [done|]. intros j (slot & Hj & Hfd). left. unfold dead. cbn [slots set_slots].
  destruct (decide (j = Z.to_nat i)) as [->|Hne].
  - eexists. split; [by apply list_lookup_insert_eq|done].
  - exists slot. by rewrite list_lookup_insert_ne.
Qed.

Lemma retiring_get_slot i : retiring (get_slot i).
Proof.
  apply retiring_bind; [apply retiring_gets|]. intros ss. case_decide; [apply retiring_lift|apply retiring_undefined].
Qed.

Lemma retiring_get_connection fd : retiring (get_connection fd).
Proof. apply retiring_bind; [apply retiring_gets|]. intros. apply retiring_lift. Qed.

Lemma retiring_put_connection fd c : retiring (put_connection fd c).
Proof.
  apply retiring_bind; [apply retiring_gets|]. intros. apply retiring_modify. intros. apply retires_connections.
Qed.

#[local] Hint Resolve retiring_ret retiring_gets retiring_undefined retiring_lift retiring_send retiring_recv
  retiring_push retiring_pop retiring_put_slot retiring_get_slot retiring_get_connection
  retiring_put_connection retires_emit retires_connections : retire.

(** Decomposes a body into its primitives. *)
#[local] Ltac retiring :=
  repeat first
    [ progress intros
    | solve [auto with retire]
    | apply retiring_bind
    | apply retiring_modify
    | match goal with |- retiring (match ?x with _ => _ end) => destruct x end ].

Lemma close_conn_retiring fd : retiring (close_conn fd).
Proof. unfold close_conn, epoll_remove. retiring. Qed.

#[local] Hint Resolve close_conn_retiring : retire.

Lemma drain_body_retiring : retiring (drain_body os).
Proof. unfold drain_body. retiring. Qed.

Lemma receive_retiring fd readable : retiring (receive os fd readable).
Proof. unfold receive. retiring. Qed.

Lemma parse_body_retiring fd sc : retiring (parse_body os fd sc).
Proof. unfold parse_body, send_accepted. retiring. Qed.

(** [accept] hands out one slot and leaves the others alone. *)
Lemma accept_body_retires w b w' : gw_ok w → accept_body os w = Some (b, w') → retires w w'.
Proof using Hos.
  intros Hw E. destruct (accept_body_ok os Hos w Hw) as (b1 & w1 & E1 & _ & Hcase).
  rewrite E in E1. injection E1 as <- <-. case_decide as Hfd; destruct Hcase as [_ ->]; [apply retires_emit|].
  set (fd := k_accept os (trace w)) in *. split; [by apply prefix_app_r|]. intros i (slot & Hi & Hdead).
  pose proof (lookup_lt_Some _ _ _ Hi) as Hlt. pose proof (ok_slots_length _ Hw) as Hlen.
  set (n := Z.of_nat (length (accepted_fds (trace w)))).
  assert (uses i (accepted w fd) = slot_uses (n + 1) (Z.of_nat i)) as Huses.
  { unfold uses. cbn [accepted trace]. rewrite accepted_fds_app, length_app. cbn [accepted_fds omap list_omap].
    rewrite decide_False by done. f_equal. cbn [length]. lia. }
  rewrite Huses. unfold uses. fold n. rewrite slot_uses_step by lia.
  destruct (decide (n `mod` kMaxSlots = Z.of_nat i)) as [|Hne]; [right; lia|left].
  exists slot. split; [|done]. cbn [accepted slots]. rewrite list_lookup_insert_ne; [done|].
  rewrite (next_token_eq w Hw). cbn [token_of SessionToken.slot]. fold n.
  pose proof (Z.mod_pos_bound n kMaxSlots eq_refl). lia.
Qed.

(** ** Slots and tokens *)

(** The slot of the [k]-th connection was taken out of service, or handed out
    to another connection since. *)
Definition slot_of (k : nat) : nat := Z.to_nat (SessionToken.slot (token_of (Z.of_nat k))).
Definition nth_use (k : nat) : Z := Z.of_nat k / kMaxSlots + 1.
Definition retired (k : nat) w : Prop :=
  nth_use k ≤ uses (slot_of k) w ∧ (uses (slot_of k) w = nth_use k → dead (slot_of k) w).

Lemma retired_stays k w w' : retires w w' → retired k w → retired k w'.
Proof.
  intros [Ht Hs] [Hle Hd]. pose proof (uses_mono (slot_of k) _ _ Ht) as Hm. split; [lia|]. intros E.
  destruct (Hs (slot_of k)) as [?|?]; [apply Hd; lia|done|lia].
Qed.

Lemma slot_of_eq k : Z.of_nat (slot_of k) = Z.of_nat k `mod` kMaxSlots.
Proof. unfold slot_of. cbn [token_of SessionToken.slot]. apply Z2Nat.id. by apply Z.mod_pos_bound. Qed.

Lemma nth_use_used k w : (k < length (accepted_fds (trace w)))%nat → nth_use k ≤ uses (slot_of k) w.
Proof.
  intros Hk. unfold uses, nth_use. rewrite slot_of_eq. unfold slot_uses, kMaxSlots.
  Z.div_mod_to_equations. lia.
Qed.

(** A response to a connection whose slot is retired is refused by the test of
    the response loop. *)
Lemma retired_refused k w slot :
  gw_ok w → retired k w → Z.of_nat (length (accepted_fds (trace w))) ≤ 2 ^ 42 →
  slots w !! slot_of k = Some slot →
  SessionSlot.generation slot ≠ SessionToken.generation (token_of (Z.of_nat k)) ∨ SessionSlot.fd slot < 0.
Proof.
  intros Hw [Hle Hd] Hl Hslot. destruct (decide (uses (slot_of k) w = nth_use k)) as [E|Hne].
  - right. destruct (Hd E) as (slot' & Hs' & ?). by simplify_eq.
  - left. rewrite (ok_generations _ Hw _ _ Hslot). fold (uses (slot_of k) w).
    cbn [token_of SessionToken.generation]. fold (nth_use k).
    assert (uses (slot_of k) w ≤ 2 ^ 32) as Hmax.
    { unfold uses. rewrite slot_of_eq. unfold slot_uses, kMaxSlots in *.
      change (2 ^ 42) with 4398046511104 in Hl. change (2 ^ 32) with 4294967296.
      Z.div_mod_to_equations. lia. }
    assert (1 ≤ nth_use k) by (unfold nth_use, kMaxSlots; Z.div_mod_to_equations; lia).
    unfold wrap. change (2 ^ 32) with 4294967296 in *. Z.div_mod_to_equations. lia.
Qed.

(** The turn that takes such a response drops it. *)
Lemma drain_body_drops w rsp q :
  pop_response EngineResponse.default w = Some ((true, rsp), set_rsp_queue q w) → token_ok (EngineResponse.session rsp) →
  gw_ok w → (∀ slot, slots w !! Z.to_nat (SessionToken.slot (EngineResponse.session rsp)) = Some slot →
    SessionSlot.generation slot ≠ SessionToken.generation (EngineResponse.session rsp) ∨ SessionSlot.fd slot < 0) →
  drain_body os w = Some (true, set_rsp_queue q w).
Proof.
  intros Hpop Htok Hw Hdead. pose proof (ok_slots_length _ Hw) as Hlen. unfold token_ok in Htok.
  destruct (lookup_lt_is_Some_2 (slots w) (Z.to_nat (SessionToken.slot (EngineResponse.session rsp)))) as [slot Hslot]; [lia|].
  eapply bind_eq; [exact Hpop|]. cbn [negb]. eapply bind_eq.
  - eapply bind_eq; [reflexivity|]. cbn [slots set_rsp_queue]. rewrite decide_True by lia. unfold lift. by rewrite Hslot.
  - by rewrite decide_True by auto.
Qed.

End slots.

(** ** Both threads *)

Section threads.
Context {CQ RQ E : Type}.
Context `{!BoundedQueue CQ EngineCommand.t, !BoundedQueue RQ EngineResponse.t, !EventFd E}.
Context `{!BoundedQueueLaws CQ EngineCommand.t, !BoundedQueueLaws RQ EngineResponse.t}.
Context `{!EventFdLaws E}.
Context (os : Kernel) (Hos : kernel_ok os) (event_fd listen_fd : Z).
Abbreviation system := (system (CQ:=CQ) (RQ:=RQ) (E:=E)).
Implicit Types (s : system).

Lemma look_retires ns (w : world (CQ:=CQ) (RQ:=RQ)) : retires w (look ns w).
Proof. by apply retires_same. Qed.

Lemma main_step_retires poll pc w e pc' w' e' :
  gw_ok w → main_step os event_fd listen_fd poll pc w e = Some (pc', w', e') → retires w w'.
Proof using Hos BoundedQueueLaws0 BoundedQueueLaws1.
  intros Hw. destruct pc as [|[|[fd readable] evs]|evs|readable evs|fd readable evs|fd sc evs|]; cbn [main_step].
  - destruct poll as [evs| |]; [by intros [= _ <- _]..|].
    intros ([b w1] & Hp & [= _ <- _])%bind_Some. by eapply retiring_push.
  - by intros [= _ <- _].
  - unfold read_eventfd. destruct (decide _); [|destruct (decide _)]; intros [= _ <- _]; try done.
    destruct (ev_ready e); [by apply retires_same|done].
  - intros ([b w1] & Hp & [= _ <- _])%bind_Some. by eapply drain_body_retiring.
  - intros ([b w1] & Hp & [= _ <- _])%bind_Some. by eapply accept_body_retires.
  - intros ([b w1] & Hp & [= _ <- _])%bind_Some. by eapply receive_retiring.
  - intros ([[sc' b] w1] & Hp & [= _ <- _])%bind_Some. by eapply parse_body_retiring.
  - by intros [= _ <- _].
Qed.

Lemma system_step_retires s s' :
  system_ok s → system_step os event_fd listen_fd s s' → retires (gateway s) (gateway s').
Proof using Hos BoundedQueueLaws0 BoundedQueueLaws1.
  intros Hs [ns poll s1 Hmove|ns s1 Hmove]; apply bind_Some in Hmove.
  - destruct Hmove as ([[pc w] e] & Hstep & [= <-]). etrans; [apply (look_retires ns)|].
    eapply main_step_retires; [|exact Hstep]. apply look_ok, Hs.
  - destruct Hmove as ([[[pc cq] rq] e] & _ & [= <-]). by apply retires_same.
Qed.

Lemma system_steps_retired k s s' :
  system_ok s → retired k (gateway s) → rtc (system_step os event_fd listen_fd) s s' →
  system_ok s' ∧ retired k (gateway s').
Proof using Hos BoundedQueueLaws0 BoundedQueueLaws1 EventFdLaws0.
  intros Hs Hr. induction 1 as [s|s1 s2 s3 Hstep _ IH]; [done|]. apply IH.
  - by eapply system_step_ok.
  - eapply retired_stays; [by eapply system_step_retires|done].
Qed.

(** A turn of the response loop that finds a response to a retired slot sends
    nothing. *)
Lemma retired_turn k s ns poll evs rsp rest :
  system_ok s → retired k (gateway s) → Z.of_nat (length (accepted_fds (trace (gateway s)))) ≤ 2 ^ 42 →
  main s = Draining evs → unread s = rsp :: rest → EngineResponse.session rsp = token_of (Z.of_nat k) →
  ∃ (b : bool) s', main_moves os event_fd listen_fd s ns poll = Some s' ∧
    trace (gateway s') = trace (gateway s) ∧ unread s' = (if b then rest else rsp :: rest) ∧
    (ns.2 = [] → b = true).
Proof using Hos BoundedQueueLaws0 BoundedQueueLaws1 EventFdLaws0.
  intros Hs Hr Hl Hm Hu Hsess. pose proof (sys_gateway _ Hs) as Hw. pose proof (look_ok ns _ Hw) as Hw1.
  set (w1 := look ns (gateway s)) in *.
  destruct (pop_response_ok w1 EngineResponse.default Hw1) as (b & x & q & Hpop & _ & Hres & Htok & _).
  destruct (look_kept ns _ Hw) as [_ [_ Kr _ _ _]]. fold w1 in Kr.
  pose proof (pop_items _ _ _ _ _ Hres) as Hi. rewrite Kr in Hi. pose proof Hu as Hi'. unfold unread in Hi'. rewrite Hi' in Hi.
  destruct (drain_turn os Hos event_fd listen_fd s ns evs Hs Hm)
    as (b' & x' & w' & Hmove & _ & _ & Hun & _ & _ & Hlatest & Hd).
  assert (trace w' = trace (gateway s)) as Ht.
  { destruct b'; [|exact Hd]. unfold main_moves in Hmove. rewrite Hm in Hmove. cbn [main_step] in Hmove. fold w1 in Hmove.
    assert (drain_body os w1 = Some (b, set_rsp_queue q w1)) as Hbody.
    { destruct b; [|by eapply bind_eq; [exact Hpop|]]. injection Hi as <- _.
      eapply drain_body_drops; [exact Hpop|by apply Htok|done|]. intros slot Hslot. rewrite Hsess in *.
      eapply (retired_refused k w1); [done|by apply (retired_stays k _ _ (look_retires ns _))|exact Hl|exact Hslot]. }
    rewrite Hbody in Hmove. cbn [mbind option_bind] in Hmove. apply (f_equal (fmap gateway)) in Hmove.
    cbn [fmap option_fmap option_map after_main gateway] in Hmove. injection Hmove as <-. done. }
  exists b'. eexists. split; [unfold main_moves in *; rewrite Hm in *; exact Hmove|]. split; [exact Ht|]. rewrite Hu in Hun. split.
  - destruct b'; [by injection Hun|by rewrite Hun].
  - intros Hns. apply Hlatest; [done|by rewrite Hu].
Qed.

End threads.

(** ** Property *)

(** C39: Slots are handed out round robin without asking whether they are free,
    and [close_conn] takes a slot out of service without comparing
    generations.  When one of two open connections that share a slot hangs up
    or fails, the other one stays open but never gets a response of the
    matching thread again: in every state the two threads reach from there,
    up to 2^42 accepts in all, the turn of the response loop that takes a
    response to it drops it without sending anything, and a turn that sees
    the queue as it is takes it. *)
Theorem reused_slot_silenced {E} (HE : EventFd E) (HL : EventFdLaws E) os event_fd listen_fd
    (s : system (CQ:=CommandQueue) (RQ:=ResponseQueue) (E:=E)) fd0 fd conn0 conn evs ns :
  kernel_ok os → system_reachable os event_fd listen_fd s → main s = Receiving fd0 true evs →
  connections (gateway s) !! fd0 = Some conn0 → connections (gateway s) !! fd = Some conn → fd0 ≠ fd →
  SessionToken.slot (Connection.token conn0) = SessionToken.slot (Connection.token conn) →
  k_recv os (trace (gateway s)) fd0 ∈ [RecvEof; RecvError] →
  ∃ s1, main_moves os event_fd listen_fd s ns Interrupted = Some s1 ∧
    connections (gateway s1) !! fd = Some conn ∧ fd ∈ open_fds (trace (gateway s1)) ∧
    ∀ s2 evs2 rsp rest ns2 poll, rtc (system_step os event_fd listen_fd) s1 s2 →
      Z.of_nat (length (accepted_fds (trace (gateway s2)))) ≤ 2 ^ 42 →
      main s2 = Draining evs2 → unread s2 = rsp :: rest →
      EngineResponse.session rsp = Connection.token conn →
      ∃ (b : bool) s3, main_moves os event_fd listen_fd s2 ns2 poll = Some s3 ∧
        trace (gateway s3) = trace (gateway s2) ∧ unread s3 = (if b then rest else rsp :: rest) ∧
        (ns2.2 = [] → b = true).
Proof.
  intros Hos Hr Hm Hc0 Hc Hne Hslot Heof.
  pose proof (system_reachable_ok os Hos event_fd listen_fd s Hr) as Hs. pose proof (sys_gateway _ Hs) as Hw.
  destruct (main_moves_ok os Hos event_fd listen_fd s ns Interrupted Hs)
    as (pc & w & e & stop & new & gone & Hstep & Hmove & _ & Hs1 & _).
  set (s1 := after_main _ _ _ _) in *. pose proof (sys_gateway _ Hs1) as Hw1.
  destruct (ok_tokens _ Hw fd conn Hc) as (k & [Hk _] & Htok). apply lookup_lt_Some in Hk.
  rewrite Hm in Hstep. cbn [main_step] in Hstep.
  destruct (receive_ok os Hos fd0 _ (look_ok ns _ Hw)) as (b & w' & Hrec & _ & Hcl).
  rewrite Hrec in Hstep. cbn [mbind option_bind] in Hstep. injection Hstep as _ <- _.
  change (connections (look ns (gateway s))) with (connections (gateway s)) in Hcl.
  change (trace (look ns (gateway s))) with (trace (gateway s)) in Hcl. rewrite Hc0 in Hcl. cbv zeta in Hcl.
  assert (∃ r, closed (look ns (gateway s)) w' fd0 r) as (r & Hcs & Ht & _ & Hsl & _).
  { rewrite !elem_of_cons, elem_of_nil in Heof. exists (k_recv os (trace (gateway s)) fd0).
    by destruct Heof as [E'|[E'|[]]]; rewrite E' in *; destruct Hcl. }
  change (trace (look ns (gateway s))) with (trace (gateway s)) in Ht.
  change (connections (look ns (gateway s))) with (connections (gateway s)) in Hcs.
  assert (connections w' !! fd = Some conn) as Hc1 by (by rewrite Hcs, lookup_delete_ne).
  assert (retired k w') as Hret.
  { split; [apply nth_use_used; rewrite Ht, accepted_fds_app, length_app; lia|]. intros _.
    unfold dead, closed_slots in *. cbn [connections look set_rsp_queue set_cmd_queue] in Hsl. rewrite Hc0 in Hsl.
    assert (Z.to_nat (SessionToken.slot (Connection.token conn0)) = slot_of k) as Ei by (by rewrite Hslot, Htok).
    rewrite Ei in Hsl. destruct (lookup_lt_is_Some_2 (slots (gateway s)) (slot_of k)) as [slot Hx].
    { pose proof (ok_slots_length _ Hw). pose proof (slot_of_eq k).
      pose proof (Z.mod_pos_bound (Z.of_nat k) kMaxSlots eq_refl). lia. }
    exists (SessionSlot.mk (-1) (SessionSlot.generation slot)). split; [|done].
    rewrite Hsl, list_lookup_alter_eq. cbn [slots look set_rsp_queue set_cmd_queue]. by rewrite Hx. }
  exists s1. split; [done|]. split; [done|]. split.
  { rewrite <- (ok_open _ Hw1). by apply elem_of_dom_2 in Hc1. }
  intros s2 evs2 rsp rest ns2 poll Hrun Hl Hm2 Hu2 Hsess.
  destruct (system_steps_retired os Hos event_fd listen_fd k s1 s2 Hs1 Hret Hrun) as [Hs2 Hret2].
  eapply retired_turn; try done. by rewrite Hsess.
Qed.

(** 1025 clients connect, on descriptors from 10 on, and the first one hangs
    up. *)
Definition crowd_kernel : Kernel := {|
  k_send _ _ bytes := Z.of_nat (length bytes);
  k_recv _ _ := RecvEof;
  k_accept tr := let fd := 1 + foldr Z.max 9 (accepted_fds tr) in if decide (fd < 1035) then fd else -1
|}.

Lemma open_accepted tr fd : fd ∈ open_fds tr → fd ∈ accepted_fds tr.
Proof.
  induction tr as [|sc tr IH] using rev_ind; [done|].
  unfold open_fds. rewrite foldl_snoc, accepted_fds_app, elem_of_app. fold (open_fds tr).
  destruct sc; simpl; try (intros; left; by apply IH); [|intros [? _]%elem_of_difference; left; by apply IH].
  case_decide; [by left; apply IH|]. rewrite elem_of_union, elem_of_singleton. intros [->|?]; [right; by left|left; by apply IH].
Qed.

Lemma foldr_max_le x l : x ∈ l → x ≤ foldr Z.max 9 l.
Proof. induction 1; simpl; lia. Qed.

Lemma crowd_kernel_ok : kernel_ok crowd_kernel.
Proof.
  split; [|done]. intros tr. simpl. case_decide; [right|by left].
  intros Hin%open_accepted%foldr_max_le. lia.
Qed.

Definition crowd_moves : list move :=
  let step := MoveMain ([], []) Interrupted in
  MoveMain ([], []) (Events [(4, true); (10, true)]) :: replicate 1029 step.

Definition crowd_run (ms : list move) : option (system (CQ:=CommandQueue) (RQ:=ResponseQueue) (E:=N)) :=
  run_moves crowd_kernel 5 4 start ms.

Lemma crowd_run_reaches ms s : crowd_run ms = Some s → system_reachable crowd_kernel 5 4 s.
Proof. apply run_moves_reach. Qed.

(** The first client's event is at hand and the last one has its slot. *)
Definition crowded (s : system (CQ:=CommandQueue) (RQ:=ResponseQueue) (E:=N)) : bool :=
  match main s with Receiving 10 true [] => true | _ => false end &&
  bool_decide (Connection.token <$> connections (gateway s) !! 10 = Some (SessionToken.mk 0 1) ∧
               Connection.token <$> connections (gateway s) !! 1034 = Some (SessionToken.mk 0 2)).

Lemma reused_slot_silenced_witness :
  ∃ s s1 conn, crowd_run crowd_moves = Some s ∧
    main_moves crowd_kernel 5 4 s ([], []) Interrupted = Some s1 ∧ connections (gateway s1) !! 1034 = Some conn ∧
    ∀ s2 evs2 rsp rest, rtc (system_step crowd_kernel 5 4) s1 s2 →
      Z.of_nat (length (accepted_fds (trace (gateway s2)))) ≤ 2 ^ 42 →
      main s2 = Draining evs2 → unread s2 = rsp :: rest → EngineResponse.session rsp = Connection.token conn →
      ∃ s3, main_moves crowd_kernel 5 4 s2 ([], []) Interrupted = Some s3 ∧
        trace (gateway s3) = trace (gateway s2) ∧ unread s3 = rest.
Proof.
  assert (crowded <$> crowd_run crowd_moves = Some true) as Hc by (vm_compute; reflexivity).
  destruct (crowd_run crowd_moves) as [s|] eqn:Hrun; [|discriminate Hc]. cbn [fmap option_fmap option_map] in Hc. injection Hc as Hc.
  apply andb_true_iff in Hc as [Hm Hconns]. apply bool_decide_eq_true in Hconns as [H0 H1].
  apply fmap_Some in H0 as (conn0 & H0 & T0). apply fmap_Some in H1 as (conn & H1 & T1).
  assert (main s = Receiving 10 true []) as Hmain.
  { destruct (main s) as [| | | |fd readable hs| |]; try discriminate Hm.
    destruct fd as [|fd|]; try discriminate Hm. do 4 (destruct fd as [fd|fd|]; try discriminate Hm).
    destruct readable; [|discriminate Hm]. destruct hs; [reflexivity|discriminate Hm]. }
  destruct (reused_slot_silenced _ _ crowd_kernel 5 4 s 10 1034 conn0 conn [] ([], []) crowd_kernel_ok)
    as (s1 & Hmove & Hc1 & _ & Hnever).
  - exact (crowd_run_reaches crowd_moves s Hrun).
  - exact Hmain.
  - exact H0.
  - exact H1.
  - discriminate.
  - rewrite <- T0, <- T1. reflexivity.
  - left.
  - exists s, s1, conn. split; [reflexivity|]. split; [exact Hmove|]. split; [exact Hc1|].
    intros s2 evs2 rsp rest Hr Hl Hm2 Hu Hs. destruct (Hnever s2 evs2 rsp rest ([], []) Interrupted Hr Hl Hm2 Hu Hs)
      as (b & s3 & Hmv & Ht & Hun & Hb).
    rewrite (Hb eq_refl) in Hun. exists s3. exact (conj Hmv (conj Ht Hun)).
Defined.
