(* ===== verification/Loopback.v ===== *)
(** * The benchmark client connected to the server

    The client of [epoll_bench_client.cpp] and both threads of
    [epoll_server.cpp] as one machine.  TCP is a reliable byte stream in each
    direction: [recv] of the server returns any non-empty part of what is on
    its way, [recv] of the client waits for a whole frame ([MSG_WAITALL]).
    [Roundtrip] has the theorems. *)

From S2P Require Import Prelude Protocol Codec Wire Ring FrameParser Stream Session.
From S2P Require Import EngineMessages Queue Matching Gateway GatewayInvariant.
From S2P Require Import GatewayRequests BenchClient System SystemInvariant SystemRuns.

(** ** The network as the server sees it *)

(** One client, on descriptor [c], whose bytes [incoming] are on their way, of
    which [recv] returns [n + 1] if it can. *)
Definition loop_kernel (c : Z) (n : nat) (incoming : list Z) : Kernel := {|
  k_send _ _ bytes := Z.of_nat (length bytes);
  k_recv _ fd := if decide (fd = c ∧ incoming ≠ [])
                 then RecvData (take (S n `min` Z.to_nat read_buf_size) incoming) else RecvAgain;
  k_accept tr := if decide (accepted_fds tr = [] ∧ c ∉ open_fds tr) then c else -1
|}.

(** The bytes sent to [c] and received from it. *)
Definition sent_to (c : Z) (tr : list syscall) : list Z :=
  concat (omap (λ sc, match sc with
    | Send fd bytes r => if decide (fd = c) then Some (take (Z.to_nat r) bytes) else None
    | _ => None end) tr).
Definition received_from (c : Z) (tr : list syscall) : list Z :=
  concat (omap (λ sc, match sc with
    | Recv fd (RecvData bytes) => if decide (fd = c) then Some bytes else None
    | _ => None end) tr).

(** ** The machine *)

(** Where the client is in a round. *)
Inductive client_pc : Set := Sending | Receiving_reply.

Inductive loop_move : Type :=
| ClientSend                        (** [encode_order(frame, seq++); send(...)] *)
| ClientRecv                        (** [recv(fd, ..., MSG_WAITALL)] *)
| ServerMain (n : nat) (ns : list nat) (evs : option (list (Z * bool)))
    (** a step of [main]; [epoll_wait] returns events or [EINTR] *)
| ServerEngine (ns : list nat).     (** a step of the matching thread *)

Section loopback.
Context {CQ RQ E : Type}.
Context `{!BoundedQueue CQ EngineCommand.t, !BoundedQueue RQ EngineResponse.t, !EventFd E}.
Context (c event_fd listen_fd : Z) (total : nat).
Abbreviation system := (system (CQ:=CQ) (RQ:=RQ) (E:=E)).

Record loop : Type := mkloop {
  at_pc : client_pc;
  client : BenchClient.state;
  server : system;
  to_server : list Z;
  to_client : list Z
}.

Definition loop_start : loop := mkloop Sending BenchClient.start System.start [] [].

(** The two halves of a round. *)
Definition send_half (s : BenchClient.state) : option BenchClient.state :=
  out ← encode_order (frame s) (seq s);
  Some (mkstate out (seq s +₆₄ 1) (calls s ++ [Sent out (Z.of_nat (length out))])).
Definition recv_half (got : list Z) (s : BenchClient.state) : BenchClient.state :=
  mkstate (got ++ drop (length got) (frame s)) (seq s) (calls s ++ [Received got]).

(** A push sees the newest pops of the other thread: the order at hand was
    sent after the response to the one before had been popped.  A pop may miss
    the newest pushes. *)
Definition loop_step (m : loop_move) (l : loop) : option loop :=
  match m with
  | ClientSend =>
      match at_pc l with
      | Sending =>
          if decide (seq (client l) ≤ Z.of_nat total) then
            s ← send_half (client l);
            Some (mkloop Receiving_reply s (server l) (to_server l ++ frame s) (to_client l))
          else None
      | Receiving_reply => None
      end
  | ClientRecv =>
      match at_pc l with
      | Sending => None
      | Receiving_reply =>
          if decide (kFrameSize ≤ length (to_client l))%nat then
            Some (mkloop Sending (recv_half (take kFrameSize (to_client l)) (client l)) (server l)
                    (to_server l) (drop kFrameSize (to_client l)))
          else None
      end
  | ServerMain n ns evs =>
      let poll := match evs with Some evs => Events evs | None => Interrupted end in
      s ← main_moves (loop_kernel c n (to_server l)) event_fd listen_fd (server l) ([], ns) poll;
      let new := drop (length (trace (gateway (server l)))) (trace (gateway s)) in
      Some (mkloop (at_pc l) (client l) s (drop (length (received_from c new)) (to_server l))
              (to_client l ++ sent_to c new))
  | ServerEngine ns =>
      s ← engine_moves (server l) (ns, []);
      Some (mkloop (at_pc l) (client l) s (to_server l) (to_client l))
  end.

Definition loop_steps (l l' : loop) : Prop := ∃ m, loop_step m l = Some l'.

Definition loop_reachable : loop → Prop := rtc loop_steps loop_start.

(** All orders are sent and answered. *)
Definition finished (l : loop) : Prop :=
  at_pc l = Sending ∧ seq (client l) = Z.of_nat total + 1.

End loopback.

Arguments loop_start {CQ RQ E _ _ _}.

(** ** What passes over the connection *)

Definition order_header (n : Z) : MessageHeader.t :=
  MessageHeader.set_session_id 1 (MessageHeader.set_sequence_number n MessageHeader.default).

(** The frame of the [n]-th order and the frame that accepts it. *)
Definition order_frame (n : Z) : list Z :=
  header_bytes (stamp MessageType.NewOrder (order_header n)) ++
  words (msg_words (NewOrder.mk n Side.Buy 10000 1)).

Definition accept_response (tok : SessionToken.t) (n : Z) : EngineResponse.t :=
  EngineResponse.mk n 0 0 RejectReason.None tok EngineResponseType.Accepted.

Definition accept_frame (n : Z) : list Z := response_frame (accept_response (token_of 0) n).

(** The server as the client knows it: the answer to the [n]-th order is its
    accept frame. *)
Definition gateway_network (clock : list call → Z) : Network := {|
  n_send _ bytes := Z.of_nat (length bytes);
  n_recv tr := accept_frame (Z.of_nat (length tr / 2) + 1);
  n_elapsed := clock
|}.

Lemma respond_order tok n : respond (order_command tok n) = Some (accept_response tok n).
Proof. reflexivity. Qed.

Lemma length_order_frame n : length (order_frame n) = kFrameSize.
Proof. unfold order_frame. by rewrite length_app, length_header_bytes, length_words. Qed.

Lemma length_accept_frame n : length (accept_frame n) = kFrameSize.
Proof. apply length_response_frame. Qed.

Lemma order_frame_u8 n : Forall is_u8 (order_frame n).
Proof. apply Forall_app. split; [apply header_bytes_u8|apply words_u8]. Qed.

Lemma accept_frame_u8 n : Forall is_u8 (accept_frame n).
Proof. apply Forall_app. split; [apply header_bytes_u8|apply words_u8]. Qed.

Lemma gateway_network_ok clock : network_ok (gateway_network clock).
Proof. split; [done|]. intros tr. cbn [n_recv gateway_network]. split; [by rewrite length_accept_frame|apply accept_frame_u8]. Qed.

Lemma encode_order_frame out n : length out = kFrameSize → encode_order out n = Some (order_frame n).
Proof.
  intros Hl. unfold encode_order.
  etransitivity; [exact (wire_encode_frame (M:=NewOrder.t) _ _ out eq_refl)|].
  rewrite decide_True by lia. by rewrite drop_ge, app_nil_r by lia.
Qed.

Lemma parse_order_frame n :
  is_u64 n → parse_frame (order_frame n) DecodedMessage.default = Some (request_message (order n)).
Proof.
  intros Hn. apply (parse_encoded_request (order n) (replicate kFrameSize 0) (order_frame n) (order_ok n Hn)).
  - apply length_replicate.
  - by apply Forall_replicate.
  - by apply encode_order_frame.
Qed.

(** [n] frames one behind the other. *)
Lemma length_frames (f : Z → list Z) (ns : list Z) :
  (∀ n, length (f n) = kFrameSize) → length (concat (f <$> ns)) = (kFrameSize * length ns)%nat.
Proof.
  intros Hf. induction ns as [|n ns IH]; [done|]. rewrite fmap_cons, concat_cons, length_app, IH, Hf.
  cbn [length]. lia.
Qed.

(** ** The client's rounds *)

Section client.
Context (net : Network) (Hnet : network_ok net).

Lemma warm_up_S n s : warm_up net (S n) s = s' ← warm_up net n s; round net s'.
Proof.
  revert s. induction n as [|n IH]; intros s.
  - cbn [warm_up mbind option_bind]. by destruct (round net s).
  - change (warm_up net (S (S n)) s) with (s' ← round net s; warm_up net (S n) s').
    change (warm_up net (S n) s) with (s' ← round net s; warm_up net n s').
    destruct (round net s) as [s1|]; [|done]. cbn [mbind option_bind]. apply IH.
Qed.

(** The measured rounds are rounds. *)
Lemma measure_rounds n i rtts s r s' : measure net n i rtts s = Some (r, s') → warm_up net n s = Some s'.
Proof.
  revert i rtts s. induction n as [|n IH]; intros i rtts s; [by intros [= _ <-]|]. cbn [measure warm_up].
  intros (s1 & -> & (rtts' & _ & Hrest)%bind_Some)%bind_Some. cbn [mbind option_bind]. by eapply IH.
Qed.

Lemma warm_up_app n m s : warm_up net (n + m) s = s' ← warm_up net n s; warm_up net m s'.
Proof.
  revert s. induction n as [|n IH]; intros s; [done|]. cbn [Nat.add warm_up].
  destruct (round net s) as [s1|]; [|done]. cbn [mbind option_bind]. apply IH.
Qed.

(** A round is its two halves. *)
Lemma round_halves s s1 :
  send_half s = Some s1 → length (frame s) = kFrameSize →
  round net s = Some (recv_half (n_recv net (calls s1)) s1).
Proof using Hnet.
  unfold send_half, round. intros Hs Hl. rewrite (encode_order_frame _ _ Hl) in *.
  cbn [mbind option_bind] in *. injection Hs as <-. unfold send_recv. by rewrite (send_whole _ Hnet).
Qed.

End client.
