(* ===== verification/LoopbackInvariant.v ===== *)
(** * One order at a time

    The invariant of [Loopback]: the order that is under way is at one place
    between the client and the matching thread, or its response at one place
    on the way back.  Every move keeps it ([loop_step_at]). *)

From S2P Require Import Prelude Protocol Codec Wire Ring FrameParser Stream Session.
From S2P Require Import EngineMessages Queue Matching Gateway GatewayInvariant.
From S2P Require Import GatewayRequests BenchClient System SystemInvariant SystemRuns Loopback.

(** ** Lists that count *)

Lemma seqZ_prefix {A} (f : Z → A) m n l l' :
  l ++ l' = f <$> seqZ m (Z.of_nat n) → l = f <$> seqZ m (Z.of_nat (length l)).
Proof.
  intros E. pose proof (f_equal length E) as Hl. rewrite length_app, length_fmap, length_seqZ, Nat2Z.id in Hl.
  rewrite <- Hl, Nat2Z.inj_add, seqZ_app, fmap_app in E by lia.
  apply app_inj_1 in E as [? _]; [done|]. by rewrite length_fmap, length_seqZ, Nat2Z.id.
Qed.

Lemma seqZ_succ m n : seqZ m (Z.of_nat (S n)) = seqZ m (Z.of_nat n) ++ [m + Z.of_nat n].
Proof. rewrite Nat2Z.inj_succ, <- Z.add_1_r. apply seqZ_snoc. lia. Qed.

Lemma take_drop_length {A} n (l : list A) : take n l ++ drop (length (take n l)) l = l.
Proof. rewrite <- (take_drop n l) at 3. by rewrite drop_app_length, take_drop. Qed.

Lemma omap_respond_orders tok (ns : list Z) : omap respond (order_command tok <$> ns) = accept_response tok <$> ns.
Proof. induction ns as [|n ns IH]; [done|]. simpl. f_equal. exact IH. Qed.

Section invariant.
Context {CQ RQ E : Type}.
Context `{!BoundedQueue CQ EngineCommand.t, !BoundedQueue RQ EngineResponse.t, !EventFd E}.
Context `{!BoundedQueueLaws CQ EngineCommand.t, !BoundedQueueLaws RQ EngineResponse.t}.
Context `{!EventFdLaws E}.
Context (c event_fd listen_fd : Z) (total : nat) (clock : list call → Z).
Context (Hc : 0 ≤ c) (Htotal : Z.of_nat total < 2 ^ 64 - 2).
Abbreviation world := (world (CQ:=CQ) (RQ:=RQ)).
Abbreviation system := (system (CQ:=CQ) (RQ:=RQ) (E:=E)).
Abbreviation loop := (loop (CQ:=CQ) (RQ:=RQ) (E:=E)).
Abbreviation net := (gateway_network clock).
Implicit Types (w : world) (l : loop).

Lemma loop_kernel_ok n incoming : Forall is_u8 incoming → kernel_ok (loop_kernel c n incoming).
Proof.
  intros Hu. split.
  - intros tr. simpl. case_decide; [right; by destruct_and?|by left].
  - intros tr fd bytes. simpl. case_decide as Hd; [|done]. destruct Hd as [_ Hne]. intros [= <-].
    split; [by apply Forall_take|]. rewrite length_take.
    assert (length incoming ≠ 0%nat) by (by destruct incoming). unfold read_buf_size. lia.
Qed.

(** ** The invariant *)

(** The bytes that [c]'s parser holds. *)
Definition buffered w : list Z :=
  match connections w !! c with Some conn => contents parser_capacity (Connection.parser conn) | None => [] end.

(** The connection table after [e] orders. *)
Definition table_at (e : nat) w : Prop :=
  (connections w = ∅ ∧ accepted_fds (trace w) = [] ∧ e = 0%nat) ∨
  (∃ conn, connections w = {[c := conn]} ∧ accepted_fds (trace w) = [c] ∧
     Connection.expected_sequence conn = Z.of_nat e + 1).

(** The client after [k] sends and [r] answers. *)
Definition client_at (k r : nat) l : Prop :=
  match at_pc l with
  | Sending => k = r ∧ warm_up net k BenchClient.start = Some (client l)
  | Receiving_reply =>
      k = S r ∧ ∃ s, warm_up net r BenchClient.start = Some s ∧ send_half s = Some (client l)
  end.

(** Outside the parse loop the parser holds no whole frame. *)
Definition parser_at (pc : main_pc) w : Prop :=
  match pc with Parsing _ _ _ => True | _ => (length (buffered w) < kFrameSize)%nat end.

(** [k] orders were sent and [e] of them submitted, [a] responses taken out by
    the gateway and [r] of them received. *)
Record loop_at (k e a r : nat) l : Prop := {
  loop_system : system_ok (server l);
  loop_main : main (server l) ≠ Joining;
  loop_counts : (r ≤ a ∧ a ≤ e ∧ e ≤ k ∧ k ≤ r + 1 ∧ k ≤ total)%nat;
  loop_client : client_at k r l;
  loop_table : table_at e (gateway (server l));
  loop_bytes : buffered (gateway (server l)) ++ to_server l =
    concat (order_frame <$> seqZ (Z.of_nat e + 1) (Z.of_nat (k - e)));
  loop_submitted : submitted (server l) = order_command (token_of 0) <$> seqZ 1 (Z.of_nat e);
  loop_lossless : answered (server l) ++ unread (server l) ++ pending (engine (server l)) =
    omap respond (consumed (server l));
  loop_answered : length (answered (server l)) = a;
  loop_replies : to_client l = concat (response_frame <$> drop r (answered (server l)));
  loop_parser : parser_at (main (server l)) (gateway (server l))
}.

(** The state before a round. *)
Lemma client_sent k s :
  (k ≤ total)%nat → warm_up net k BenchClient.start = Some s → sent_orders k s.
Proof using Htotal.
  intros Hk E'. destruct (warm_up_sends net (gateway_network_ok clock) k 0 BenchClient.start) as (s' & Hs & Hsent);
    [lia|apply start_sent|]. rewrite Nat.add_0_r, E' in *. by injection Hs as <-.
Qed.

Section facts.
Context {k e a r : nat} {l : loop} (Hl : loop_at k e a r l).

Lemma loop_u8 : Forall is_u8 (to_server l).
Proof using Hl.
  assert (Forall is_u8 (buffered (gateway (server l)) ++ to_server l)) as [_ ?]%Forall_app; [|done].
  rewrite (loop_bytes _ _ _ _ _ Hl). apply Forall_concat, Forall_fmap, Forall_forall. intros n _. apply order_frame_u8.
Qed.

Lemma loop_length :
  (length (buffered (gateway (server l))) + length (to_server l) = kFrameSize * (k - e))%nat.
Proof using Hl.
  rewrite <- length_app, (loop_bytes _ _ _ _ _ Hl), (length_frames order_frame) by apply length_order_frame.
  by rewrite length_seqZ, Nat2Z.id.
Qed.

(** What the matching thread has made of the orders. *)
Lemma loop_responses :
  answered (server l) ++ unread (server l) ++ pending (engine (server l)) =
    accept_response (token_of 0) <$> seqZ 1 (Z.of_nat (length (consumed (server l)))) ∧
  (length (consumed (server l)) + length (q_items (cmd_queue (gateway (server l)))) = e)%nat.
Proof using Hl.
  pose proof (sys_commands _ (loop_system _ _ _ _ _ Hl)) as Hc'. rewrite (loop_submitted _ _ _ _ _ Hl) in Hc'.
  rewrite (loop_lossless _ _ _ _ _ Hl). split.
  - rewrite (seqZ_prefix _ _ _ _ _ (eq_sym Hc')) at 1. apply omap_respond_orders.
  - apply (f_equal length) in Hc'. rewrite length_fmap, length_seqZ, Nat2Z.id, length_app in Hc'. lia.
Qed.

Lemma loop_accepts : answered (server l) = accept_response (token_of 0) <$> seqZ 1 (Z.of_nat a).
Proof using Hl.
  destruct loop_responses as [E' _]. apply seqZ_prefix in E'.
  by rewrite <- (loop_answered _ _ _ _ _ Hl).
Qed.

(** At most one response is on its way. *)
Lemma loop_in_flight :
  (a + length (unread (server l)) + length (pending (engine (server l))) +
   length (q_items (cmd_queue (gateway (server l)))) = e)%nat.
Proof using Hl.
  destruct loop_responses as [E' Hl']. apply (f_equal length) in E'.
  rewrite !length_app, length_fmap, length_seqZ, Nat2Z.id, (loop_answered _ _ _ _ _ Hl) in E'. lia.
Qed.

Lemma loop_token rsp :
  rsp ∈ unread (server l) → EngineResponse.session rsp = token_of 0.
Proof using Hl.
  destruct loop_responses as [E' _]. intros Hin.
  assert (rsp ∈ answered (server l) ++ unread (server l) ++ pending (engine (server l))) as H
    by (rewrite !elem_of_app; auto).
  rewrite E' in H. apply list_elem_of_fmap in H as (n & -> & _). done.
Qed.

End facts.

Lemma loop_start_at : loop_at 0 0 0 0 (loop_start (CQ:=CQ) (RQ:=RQ) (E:=E)).
Proof.
  assert (q_items (q_empty (Q:=RQ) (T:=EngineResponse.t)) = []) as Hr by apply q_empty_items.
  split; try done; [apply start_ok|lia|by left| |unfold parser_at; evaluate]. unfold unread, consumed. simpl. by rewrite Hr.
Qed.

(** ** Moves of the client *)

Abbreviation loop_step := (loop_step c event_fd listen_fd total).

(** The client stands at its [k + 1]-th order. *)
Lemma loop_seq k e a r l : loop_at k e a r l → seq (client l) = Z.of_nat k + 1.
Proof using Htotal.
  intros [_ _ Hn Hcl _ _ _ _ _ _ _]. unfold client_at in Hcl. destruct (at_pc l).
  - destruct Hcl as [_ E']. apply client_sent in E'; [|lia]. apply (sent_seq _ _ E').
  - destruct Hcl as (-> & s & E' & Hs). apply client_sent in E'; [|lia].
    unfold send_half in Hs. apply bind_Some in Hs as (out & _ & [= <-]). simpl.
    rewrite (sent_seq _ _ E'), wrap_uint by (split; lia). lia.
Qed.

Lemma send_at k e a r l :
  loop_at k e a r l → at_pc l = Sending → (k < total)%nat →
  ∃ l', loop_step ClientSend l = Some l' ∧ loop_at (S k) e a r l' ∧ server l' = server l.
Proof using Htotal.
  intros Hl Hpc Hk. pose proof (loop_seq _ _ _ _ _ Hl) as Hseq. cbn [Loopback.loop_step]. rewrite Hpc.
  rewrite decide_True by lia. destruct Hl as [H1 H2 H3 H4 H5 H6 H7 H8 H9 H10 H11].
  unfold client_at in H4. rewrite Hpc in H4. destruct H4 as [-> Hw].
  pose proof (client_sent _ _ (proj2 (proj2 (proj2 (proj2 H3)))) Hw) as Hsent.
  assert (send_half (client l) = Some (mkstate (order_frame (Z.of_nat r + 1)) (seq (client l) +₆₄ 1)
    (calls (client l) ++ [Sent (order_frame (Z.of_nat r + 1)) (Z.of_nat (length (order_frame (Z.of_nat r + 1))))])))
    as Hhalf.
  { unfold send_half. rewrite Hseq, encode_order_frame; [done|]. apply (sent_frame _ _ Hsent). }
  rewrite Hhalf. cbn [mbind option_bind]. eexists. split; [done|]. split; [|done].
  split; try done.
  - simpl. lia.
  - unfold client_at. simpl. split; [done|]. by exists (client l).
  - cbn [server to_server frame]. rewrite (assoc_L (++)), H6. replace (S r - e)%nat with (S (r - e)) by lia.
    rewrite seqZ_succ, fmap_app, concat_app. f_equal. simpl. rewrite app_nil_r. f_equal. lia.
Qed.

Lemma recv_at k e a r l :
  loop_at k e a r l → at_pc l = Receiving_reply → to_client l ≠ [] →
  ∃ l', loop_step ClientRecv l = Some l' ∧ loop_at k e a (S r) l' ∧ server l' = server l ∧
    to_client l = accept_frame (Z.of_nat r + 1) ++ to_client l'.
Proof using Htotal.
  intros Hl Hpc Hne. pose proof (loop_accepts Hl) as Hans.
  destruct Hl as [H1 H2 H3 H4 H5 H6 H7 H8 H9 H10 H11].
  unfold client_at in H4. rewrite Hpc in H4. destruct H4 as (-> & s & Hw & Hhalf).
  assert (r < a)%nat as Hra.
  { destruct (decide (r < a)%nat) as [|Hge]; [done|]. rewrite drop_ge in H10 by lia. done. }
  assert (answered (server l) !! r = Some (accept_response (token_of 0) (Z.of_nat r + 1))) as Hr.
  { rewrite Hans, list_lookup_fmap, lookup_seqZ_lt by lia. simpl. do 2 f_equal. lia. }
  rewrite (drop_S _ _ _ Hr), fmap_cons, concat_cons in H10.
  change (response_frame _) with (accept_frame (Z.of_nat r + 1)) in H10.
  pose proof (length_accept_frame (Z.of_nat r + 1)) as Hlen.
  cbn [Loopback.loop_step]. rewrite Hpc, H10, decide_True by (rewrite length_app; lia).
  rewrite take_app_length', drop_app_length' by done. eexists. split; [done|]. split; [|done].
  split; try done; [simpl; lia|]. unfold client_at. cbn [at_pc client]. split; [done|].
  pose proof (client_sent r s ltac:(lia) Hw) as Hsent. rewrite warm_up_S, Hw. cbn [mbind option_bind].
  rewrite (round_halves net (gateway_network_ok clock) s (client l) Hhalf (proj1 (sent_frame _ _ Hsent))).
  cbn [n_recv gateway_network]. do 3 f_equal.
  unfold send_half in Hhalf. apply bind_Some in Hhalf as (out & _ & [= <-]). cbn [calls].
  rewrite length_app, (sent_calls _ _ Hsent). cbn [length].
  replace (2 * r + 1)%nat with (1 + r * 2)%nat by lia. by rewrite Nat.div_add by done.
Qed.

(** ** Moves of the matching thread *)

(** With the newest pops in view, a response is pushed if there is room. *)
Lemma engine_pushes_latest (s : system) ns pc cq rq ev taken pushed :
  let w := look (ns, []) (gateway s) in
  system_ok s →
  engine_moves s (ns, []) = Some (mksystem (main s) (set_rsp_queue rq (set_cmd_queue cq w)) pc ev
    (submitted s) (answered s)) →
  engine_moves_by (engine s) w (notify s) pc cq rq ev taken pushed →
  Z.of_nat (length (unread s)) < q_limit (Q:=RQ) (T:=EngineResponse.t) ∨ pending (engine s) = [] →
  pushed ++ pending pc = pending (engine s) ++ omap respond taken.
Proof using BoundedQueueLaws0 BoundedQueueLaws1.
  intros w Hs Hrun Hm [Hroom|Hnone]; [|apply (engine_all _ _ _ _ _ _ _ _ _ Hm); by right].
  destruct (engine s) as [|rsp| |] eqn:Hpc; try (apply (engine_all _ _ _ _ _ _ _ _ _ Hm); by right).
  pose proof (sys_gateway _ Hs) as Hw. destruct (look_kept (ns, []) _ Hw) as [_ [Kq Kr _ _ _]].
  destruct (q_push_latest (rsp_queue (gateway s)) rsp (ok_rsp_queue _ Hw) Hroom) as [q E'].
  unfold engine_moves in Hrun. rewrite Hpc in Hrun. cbn [engine_step rsp_queue look set_rsp_queue snd] in Hrun.
  rewrite E' in Hrun. cbn [mbind option_bind] in Hrun. injection Hrun as <- <- <- <-.
  destruct (q_push_spec _ rsp Kq) as (b & q1 & E1 & Hres).
  cbn [rsp_queue look set_rsp_queue snd] in E1. rewrite E' in E1. injection E1 as <- <-.
  apply push_items in Hres. rewrite (engine_pushed _ _ _ _ _ _ _ _ _ Hm) in Hres.
  apply app_inv_head in Hres as ->.
  pose proof (engine_taken _ _ _ _ _ _ _ _ _ Hm) as Ht. symmetry in Ht.
  apply (f_equal length) in Ht. rewrite length_app in Ht. cbn [w cmd_queue look set_cmd_queue set_rsp_queue fst] in Ht.
  assert (taken = []) as -> by (apply length_zero_iff_nil; clear -Ht; lia). done.
Qed.

(** With the newest pushes in view, the thread gets on with its work. *)
Lemma engine_advances w pc ns ev pc' cq rq ev' taken pushed :
  gw_ok w → engine_moves_by pc (look ([], ns) w) ev pc' cq rq ev' taken pushed →
  engine_idle pc (q_items (cmd_queue w)) ∨
  (engine_work pc' (q_items cq) < engine_work pc (q_items (cmd_queue w)))%nat.
Proof using BoundedQueueLaws0 BoundedQueueLaws1.
  intros Hw Hm. destruct (look_kept ([], ns) _ Hw) as [[_ Kc _ _ _] _].
  destruct (engine_progress _ _ _ _ _ _ _ _ _ Hm) as [Hi|[[-> (y & q & E')]|Hi]]; rewrite ?Kc in *; [by left| |by right].
  left; right. split; [done|]. destruct (q_items (cmd_queue w)) eqn:Hitems; [done|].
  destruct (q_pop_latest (cmd_queue w) EngineCommand.default (ok_cmd_queue _ Hw)) as (y' & q' & E''); [by rewrite Hitems|].
  cbn [cmd_queue look set_rsp_queue set_cmd_queue fst] in E'. by rewrite E'' in E'.
Qed.

Lemma engine_at k e a r l ns :
  loop_at k e a r l →
  ∃ l', loop_step (ServerEngine ns) l = Some l' ∧ loop_at k e a r l' ∧ main (server l') = main (server l) ∧
    at_pc l' = at_pc l ∧ trace (gateway (server l')) = trace (gateway (server l)) ∧
    (ns = [] → engine_idle (engine (server l)) (q_items (cmd_queue (gateway (server l)))) ∨
       (engine_work (engine (server l')) (q_items (cmd_queue (gateway (server l')))) <
        engine_work (engine (server l)) (q_items (cmd_queue (gateway (server l)))))%nat).
Proof using BoundedQueueLaws0 BoundedQueueLaws1 EventFdLaws0.
  intros Hl. pose proof (loop_in_flight Hl) as Hfly.
  destruct Hl as [H1 H2 H3 H4 H5 H6 H7 H8 H9 H10 H11]. pose proof (sys_gateway _ H1) as Hw.
  destruct (engine_moves_ok (server l) (ns, []) H1) as (pc & cq & rq & ev & taken & pushed & Hrun & Hm & H1').
  cbn [Loopback.loop_step]. rewrite Hrun. cbn [mbind option_bind]. eexists. split; [done|].
  split; [|split; [done|split; [done|split; [done|intros ->; by eapply engine_advances]]]].
  set (s' := mksystem _ _ _ _ _ _) in *.
  destruct (look_kept (ns, []) _ Hw) as [[_ Kc _ _ _] [_ Kr _ _ _]].
  pose proof (engine_taken _ _ _ _ _ _ _ _ _ Hm) as Htaken. rewrite Kc in Htaken.
  pose proof (engine_pushed _ _ _ _ _ _ _ _ _ Hm) as Hpushed. rewrite Kr in Hpushed.
  assert (consumed s' = consumed (server l) ++ taken) as Hcons.
  { apply (app_inv_tail (q_items cq)). rewrite <- (assoc_L (++)), <- Htaken.
    rewrite <- (sys_commands _ H1). symmetry. exact (sys_commands _ H1'). }
  split; try done. change (server _) with s'. change (unread s') with (q_items rq).
  rewrite Hcons, Hpushed, omap_app, <- H8, <- !(assoc_L (++)). do 2 f_equal.
  apply (engine_pushes_latest _ ns _ _ _ _ _ _ H1 Hrun Hm). simpl.
  pose proof (q_limit_pos (Q:=RQ) (T:=EngineResponse.t)).
  destruct (engine (server l)); [by right|left; simpl in Hfly; lia|by right..].
Qed.

(** ** Moves of [main]

    What the body of a loop does, as far as the connection is concerned. *)

Definition shows (tr : list syscall) (acc sent recv : list Z) : Prop :=
  accepted_fds tr = acc ∧ sent_to c tr = sent ∧ received_from c tr = recv.

Inductive effect (incoming : list Z) w w' (tr : list syscall)
    : list EngineCommand.t → list EngineResponse.t → Prop :=
| effect_quiet : connections w' = connections w → shows tr [] [] [] → effect incoming w w' tr [] []
| effect_drained rsp :
    connections w' = connections w → shows tr [] (response_frame rsp) [] → effect incoming w w' tr [] [rsp]
| effect_accepted :
    accepted_fds (trace w) = [] → connections w' = <[c := Connection.make c (token_of 0)]> (connections w) →
    shows tr [c] [] [] → effect incoming w w' tr [] []
| effect_received conn p n :
    connections w !! c = Some conn →
    connections w' = <[c := Connection.set_parser p conn]> (connections w) →
    contents parser_capacity p = contents parser_capacity (Connection.parser conn) ++ take n incoming →
    shows tr [] [] (take n incoming) → effect incoming w w' tr [] []
| effect_submitted conn p fd :
    let n := Connection.expected_sequence conn in
    connections w !! c = Some conn →
    connections w' = <[c := Connection.mk p (token_of 0) (n + 1) fd]> (connections w) →
    contents parser_capacity (Connection.parser conn) = order_frame n ++ contents parser_capacity p →
    shows tr [] [] [] → effect incoming w w' tr [order_command (token_of 0) n] [].

Record turn (incoming : list Z) w w' (tr : list syscall)
    (new : list EngineCommand.t) (gone : list EngineResponse.t) : Prop := {
  turn_trace : trace w' = trace w ++ tr;
  turn_commands : q_items (cmd_queue w') = q_items (cmd_queue w) ++ new;
  turn_responses : q_items (rsp_queue w) = gone ++ q_items (rsp_queue w');
  turn_effect : effect incoming w w' tr new gone
}.

(** A turn seen through [look]. *)
Lemma turn_look ns incoming w w' tr new gone :
  gw_ok w → turn incoming (look ns w) w' tr new gone → turn incoming w w' tr new gone.
Proof using BoundedQueueLaws0 BoundedQueueLaws1.
  intros Hw [H1 H2 H3 H4]. destruct (look_kept ns w Hw) as [[_ Kc _ _ _] [_ Kr _ _ _]].
  rewrite Kc in H2. rewrite Kr in H3. split; [done..|]. destruct H4; [by constructor..|by eapply effect_received|by eapply effect_submitted].
Qed.

Lemma submits_none w w' : submits [] w w' → q_items (cmd_queue w') = q_items (cmd_queue w).
Proof.
  intros [new Hs]. pose proof (pushes_new _ _ _ _ Hs) as ->%sublist_nil_r.
  apply pushes_items in Hs. by rewrite app_nil_r in Hs.
Qed.

Section bodies.
Context {k e a r : nat} {l : loop} (Hl : loop_at k e a r l).
#[local] Abbreviation w := (gateway (server l)).
#[local] Abbreviation incoming := (to_server l).

(** The only connection there can be. *)
Lemma only_connection fd conn :
  connections w !! fd = Some conn → fd = c ∧ connections w = {[c := conn]} ∧
  Connection.token conn = token_of 0 ∧ Connection.expected_sequence conn = Z.of_nat e + 1 ∧
  accepted_fds (trace w) = [c] ∧ is_u64 (Connection.expected_sequence conn) ∧
  parser_ok parser_capacity (Connection.parser conn).
Proof using Hl.
  pose proof (sys_gateway _ (loop_system _ _ _ _ _ Hl)) as Hw. intros Hconn.
  destruct (ok_connections _ Hw _ _ Hconn) as (_ & _ & _ & Hp & Hn).
  destruct (ok_tokens _ Hw _ _ Hconn) as (i & [Hi _] & Ht).
  destruct (loop_table _ _ _ _ _ Hl) as [(He & _)|(conn' & He & Ha & Hexp)].
  - by rewrite He, lookup_empty in Hconn.
  - rewrite He in Hconn. apply lookup_singleton_Some in Hconn as [<- ->]. rewrite Ha in Hi.
    destruct i as [|i]; [|by destruct i]. by split_and!.
Qed.

(** A body that does nothing. *)
Lemma turn_nothing ns tr w' :
  connections w' = connections w → trace w' = trace w ++ tr → shows tr [] [] [] →
  cmd_queue w' = cmd_queue (look ns w) → rsp_queue w' = rsp_queue (look ns w) →
  turn incoming w w' tr [] [].
Proof using Hl BoundedQueueLaws0 BoundedQueueLaws1.
  intros Hcs Ht Hsh Hcq Hrq. pose proof (sys_gateway _ (loop_system _ _ _ _ _ Hl)) as Hw.
  apply (turn_look ns); [done|]. split; [done|by rewrite app_nil_r, Hcq|by rewrite Hrq|by apply effect_quiet].
Qed.

Lemma drain_turn_at n ns :
  ∃ (b : bool) w' tr gone, drain_body (loop_kernel c n incoming) (look ([], ns) w) = Some (b, w') ∧
    turn incoming w w' tr [] gone ∧ length gone = Nat.b2n b ∧ (ns = [] → unread (server l) ≠ [] → b = true) ∧
    connections w' = connections w.
Proof using Hl Hc BoundedQueueLaws0 BoundedQueueLaws1.
  pose proof (sys_gateway _ (loop_system _ _ _ _ _ Hl)) as Hw.
  pose proof (look_ok ([], ns) _ Hw) as Hw1.
  destruct (drain_body_ok (loop_kernel c n incoming) _ Hw1) as (b & rsp & w' & Hrun & _ & Hpop & Heq & Hd).
  apply pop_items in Hpop. pose proof (proj2 (look_kept ([], ns) _ Hw)) as Kr. apply kept_items in Kr.
  assert (ns = [] → unread (server l) ≠ [] → b = true) as Hlatest.
  { intros -> Hne. destruct (q_pop_latest (rsp_queue w) EngineResponse.default (ok_rsp_queue _ Hw) Hne)
      as (y & q & E'). cbn [look rsp_queue set_rsp_queue snd] in Heq. rewrite E' in Heq. by injection Heq. }
  destruct b.
  2: { destruct Hd as (Hcs & Ht & Hq). exists false, w', [], []. split; [done|]. split; [|done].
       apply (turn_look ([], ns)); [done|]. split; [by rewrite app_nil_r|by rewrite app_nil_r, Hq|done|].
       by apply effect_quiet. }
  assert (rsp ∈ unread (server l)) as Hin.
  { unfold unread. rewrite <- Kr, Hpop. by left. }
  pose proof (loop_token Hl rsp Hin) as Htok.
  assert (∃ conn, connections w !! c = Some conn) as [conn Hconn].
  { destruct (loop_table _ _ _ _ _ Hl) as [(_ & _ & ->)|(conn & -> & _)].
    - pose proof (loop_in_flight Hl) as Hf. apply list_elem_of_lookup in Hin as [i Hi].
      apply lookup_lt_Some in Hi. lia.
    - exists conn. apply lookup_insert_eq. }
  destruct (only_connection c conn Hconn) as (_ & Hcs & Hct & _ & Ha & _).
  assert (q_items (cmd_queue w') = q_items (cmd_queue (look ([], ns) w)) ∧
    connections w' = connections w ∧ ∃ acts, trace w' = trace w ++ acts ∧
      delivered (connections w) [rsp] acts) as (Hcmd & Hcs' & acts & Ht & Hdel).
  { split.
    - destruct Hd as [(slot & _ & _ & _ & _ & Hs)|(fd & conn' & r' & -> & _ & _ & Hs)]; [by apply submits_none|].
      rewrite decide_True in Hs by (simpl; by rewrite length_response_frame). by apply submits_none, Hs.
    - destruct (drained_delivers (loop_kernel c n incoming) _ w' rsp (λ _ _ _, eq_refl) Hw1) as (Hcs' & acts & Ht & Hcons).
      + cbn [trace look set_rsp_queue set_cmd_queue]. by rewrite Ha.
      + done.
      + split; [done|]. exists acts. split; [done|]. rewrite <- (app_nil_r acts). apply Hcons, delivered_nil. }
  exists true, w', acts, [rsp]. split; [done|]. split; [|done]. apply (turn_look ([], ns)); [done|].
  split; [done|by rewrite app_nil_r|done|]. apply effect_drained; [done|].
  inversion Hdel as [|fd conn' ? ? acts' Hconn' _ Hnil|? ? ? Hgone]; subst.
  - inversion Hnil; subst. destruct (only_connection fd conn' Hconn') as (-> & _).
    unfold shows, sent_to, received_from. simpl. rewrite decide_True by done. simpl.
    rewrite app_nil_r, firstn_all2 by (rewrite length_response_frame; done). done.
  - exfalso. by apply (Hgone c conn Hconn); rewrite Hct, Htok.
Qed.

Lemma accept_turn_at n ns :
  ∃ (b : bool) w' tr, accept_body (loop_kernel c n incoming) (look ([], ns) w) = Some (b, w') ∧
    turn incoming w w' tr [] [] ∧ (b = true ↔ accepted_fds (trace w) = []) ∧ accepted_fds (trace w') ≠ [] ∧
    (length (buffered w') ≤ length (buffered w))%nat.
Proof using Hl Hc BoundedQueueLaws0 BoundedQueueLaws1.
  pose proof (sys_gateway _ (loop_system _ _ _ _ _ Hl)) as Hw.
  pose proof (look_ok ([], ns) _ Hw) as Hw1.
  destruct (accept_body_ok _ (loop_kernel_ok n _ (loop_u8 Hl)) _ Hw1) as (b & w' & Hrun & _ & Hcase).
  exists b, w'. cbn [k_accept loop_kernel trace look set_rsp_queue set_cmd_queue] in Hcase.
  destruct (decide (accepted_fds (trace w) = [] ∧ c ∉ open_fds (trace w))) as [[Ha Hopen]|Hno].
  - rewrite decide_False in Hcase by lia. destruct Hcase as [-> ->]. eexists. split; [exact Hrun|].
    split; [|split; [done|split]].
    2: { simpl. rewrite accepted_fds_app. simpl. rewrite decide_False by lia. by intros []%app_eq_nil. }
    2: { unfold buffered. cbn [connections accepted]. cbv zeta. rewrite lookup_insert_eq.
         cbn [Connection.parser Connection.make].
         rewrite (proj2 (parser_ok_empty (Capacity:=parser_capacity))). simpl. lia. }
    apply (turn_look ([], ns)); [done|]. split; [reflexivity|by rewrite app_nil_r|done|].
    apply effect_accepted; [done| |].
    + cbn [connections accepted]. cbv zeta. rewrite (next_token_eq _ Hw1).
      cbn [trace look set_rsp_queue set_cmd_queue]. by rewrite Ha.
    + unfold shows. simpl. by rewrite decide_False by lia.
  - rewrite decide_True in Hcase by done. destruct Hcase as [-> ->]. eexists. split; [exact Hrun|].
    assert (accepted_fds (trace w) ≠ []) as Ha.
    { intros Ha. apply Hno. split; [done|]. rewrite <- (ok_open _ Hw).
      destruct (loop_table _ _ _ _ _ Hl) as [(-> & _)|(conn & _ & Ha' & _)]; [|by rewrite Ha' in Ha].
      apply not_elem_of_dom, lookup_empty. }
    split; [by apply (turn_nothing ([], ns))|]. split; [done|]. split; [|done].
    simpl. rewrite accepted_fds_app. by intros []%app_eq_nil.
Qed.

Lemma receive_turn_at n ns fd readable :
  ∃ (b : bool) w' tr, receive (loop_kernel c n incoming) fd readable (look ([], ns) w) = Some (b, w') ∧
    turn incoming w w' tr [] [] ∧
    (b = true → fd = c) ∧
    (fd = c → readable = true → accepted_fds (trace w) ≠ [] → incoming ≠ [] → b = true) ∧
    (b = true → (length incoming ≤ S n)%nat → received_from c tr = incoming) ∧
    (b = false → connections w' = connections w).
Proof using Hl Hc BoundedQueueLaws0 BoundedQueueLaws1.
  pose proof (sys_gateway _ (loop_system _ _ _ _ _ Hl)) as Hw.
  pose proof (look_ok ([], ns) _ Hw) as Hw1.
  destruct readable.
  2: { exists false, (look ([], ns) w), []. split; [done|]. split; [|done].
       by apply (turn_nothing ([], ns)); rewrite ?app_nil_r. }
  destruct (receive_ok _ (loop_kernel_ok n _ (loop_u8 Hl)) fd _ Hw1) as (b & w' & Hrun & _ & Hcase).
  exists b, w'. destruct (connections (look ([], ns) w) !! fd) as [conn|] eqn:Hconn.
  2: { destruct Hcase as [-> ->]. exists []. split; [done|]. split; [|split; [done|split; [|by split]]].
       - by apply (turn_nothing ([], ns)); rewrite ?app_nil_r.
       - intros -> _ Ha _. destruct (loop_table _ _ _ _ _ Hl) as [(_ & Ha' & _)|(conn & Hcs & _)]; [done|].
         cbn [connections look set_rsp_queue set_cmd_queue] in Hconn. by rewrite Hcs, lookup_singleton_eq in Hconn. }
  destruct (only_connection fd conn Hconn) as (-> & _).
  cbn [k_recv loop_kernel] in Hcase. destruct (decide (c = c ∧ incoming ≠ [])) as [[_ Hne]|Hno].
  2: { destruct Hcase as [-> ->]. eexists. split; [exact Hrun|]. split; [|split; [done|split; [|by split]]].
       - by apply (turn_nothing ([], ns)).
       - intros _ _ _ Hin. exfalso. by apply Hno. }
  set (m := (S n `min` Z.to_nat read_buf_size)%nat) in *. cbv zeta in Hcase. rewrite decide_True in Hcase.
  2: { pose proof (loop_length Hl) as Hlen. pose proof (loop_counts _ _ _ _ _ Hl) as Hcount. unfold buffered in Hlen.
       cbn [connections look set_rsp_queue set_cmd_queue] in Hconn. rewrite Hconn in Hlen. rewrite length_take.
       unfold kFrameSize, parser_capacity in *. lia. }
  destruct Hcase as (-> & p & _ & Hp & ->). eexists. split; [exact Hrun|].
  assert (received_from c [Recv c (RecvData (take m incoming))] = take m incoming) as Hrecv.
  { unfold received_from. simpl. rewrite decide_True by done. simpl. apply app_nil_r. }
  split; [|split; [done|split; [done|split; [|done]]]].
  - apply (turn_look ([], ns)); [done|]. split; [reflexivity|by rewrite app_nil_r|done|].
    eapply effect_received; [exact Hconn|done|exact Hp|]. unfold shows. rewrite Hrecv. done.
  - intros _ Hn. rewrite Hrecv. apply firstn_all2. unfold m.
    pose proof (loop_length Hl) as Hlen. pose proof (loop_counts _ _ _ _ _ Hl) as Hcount.
    unfold kFrameSize, read_buf_size in *. lia.
Qed.

(** A whole frame in the parser is the next order. *)
Lemma buffered_frame :
  (kFrameSize ≤ length (buffered w))%nat →
  (e < k)%nat ∧ take kFrameSize (buffered w) = order_frame (Z.of_nat e + 1).
Proof using Hl.
  intros Hlen. pose proof (loop_length Hl) as Hb. assert (e < k)%nat as Hek by (unfold kFrameSize in *; lia).
  split; [done|]. pose proof (loop_bytes _ _ _ _ _ Hl) as E'.
  replace (k - e)%nat with (S (k - e - 1)) in E' by lia.
  rewrite Nat2Z.inj_succ, seqZ_cons, Z.pred_succ, fmap_cons, concat_cons in E' by lia.
  apply (f_equal (take kFrameSize)) in E'. rewrite take_app_le in E' by done.
  rewrite take_app_length' in E' by by rewrite length_order_frame. exact E'.
Qed.

Lemma parse_turn_at n ns conn :
  connections w !! c = Some conn →
  ∃ (b : bool) w' new, parse_body (loop_kernel c n incoming) c false (look ([], ns) w) = Some ((false, b), w') ∧
    turn incoming w w' [] new [] ∧ length new = Nat.b2n b ∧ is_Some (connections w' !! c) ∧
    (b = true ↔ (kFrameSize ≤ length (buffered w))%nat) ∧ (b = false → connections w' = connections w).
Proof using Hl Htotal BoundedQueueLaws0 BoundedQueueLaws1.
  intros Hconn. destruct (only_connection c conn Hconn) as (_ & _ & Htok & Hn & _ & Hu & Hp).
  pose proof (sys_gateway _ (loop_system _ _ _ _ _ Hl)) as Hw. pose proof (look_ok ([], ns) _ Hw) as Hw1.
  destruct (try_parse_refines (Connection.parser conn) DecodedMessage.default Hp)
    as (st & p & msg & Htry & Hp' & Hspec & Hsame).
  pose proof buffered_frame as Hframe. unfold buffered in *. rewrite Hconn in *. unfold spec_try_parse in Hspec.
  destruct (decide (length (contents parser_capacity (Connection.parser conn)) < kFrameSize)%nat) as [Hlt|Hge].
  { injection Hspec as -> _ ->. rewrite Hsame in Htry by done.
    exists false, (look ([], ns) w), []. split; [|split; [|split; [done|split; [by exists conn|split; [|done]]]]]; [| |split; [done|lia]].
    - by apply (parse_body_done (loop_kernel c n incoming) c (look ([], ns) w) conn _ false Hconn Htry).
    - by apply (turn_nothing ([], ns)); rewrite ?app_nil_r. }
  destruct (Hframe ltac:(lia)) as [Hek Htake]. pose proof (loop_counts _ _ _ _ _ Hl) as Hcount.
  assert (is_u64 (Z.of_nat e + 1)) as Hu' by (split; lia). rewrite Htake, (parse_order_frame _ Hu') in Hspec.
  set (msg1 := request_message _) in Hspec. injection Hspec as -> Hcont ->.
  pose proof (parse_body_message (loop_kernel c n incoming) c (look ([], ns) w) conn p _ Hconn
    (ok_cmd_queue _ Hw1) Htry) as Hbody.
  unfold answer in Hbody. rewrite Hn, decide_True in Hbody by done.
  cbn [DecodedMessage.type request_message order] in Hbody.
  change (command_of _ _) with (order_command (Connection.token conn) (Z.of_nat e + 1)) in Hbody.
  change (DecodedMessage.type _) with MessageType.NewOrder in Hbody. cbv iota in Hbody.
  rewrite Htok, wrap_uint in Hbody by (split; lia). set (cmd := order_command _ _) in *.
  pose proof (loop_in_flight Hl) as Hfly. pose proof (q_limit_pos (Q:=CQ) (T:=EngineCommand.t)) as Hroom.
  destruct (q_push_latest (cmd_queue w) cmd (ok_cmd_queue _ Hw)) as [q Hpush]; [lia|].
  destruct (q_push_spec _ cmd (ok_cmd_queue _ Hw1)) as (b & q1 & E1 & Hres).
  unfold perform in Hbody. cbn [cmd_queue look set_rsp_queue set_cmd_queue fst] in Hbody, E1, Hres.
  rewrite Hpush in Hbody, E1. injection E1 as <- <-. apply push_items in Hres.
  pose proof (kept_items _ _ (q_look_spec [] _ (ok_cmd_queue _ Hw))) as Hitems. rewrite Hitems in Hres.
  exists true. eexists _, [cmd]. split; [exact Hbody|]. split; [|split; [done|split; [|split; [split; [lia|done]|done]]]].
  - split; [by rewrite app_nil_r|exact Hres| |].
    + exact (eq_sym (kept_items _ _ (q_look_spec ns _ (ok_rsp_queue _ Hw)))).
    + unfold cmd. rewrite <- Hn. eapply effect_submitted; [exact Hconn|by rewrite Hn| |done].
      rewrite Hn, <- Htake, Hcont. by rewrite take_drop.
  - cbn [connections set_connections]. rewrite lookup_insert_eq. by eexists.
Qed.

(** Every effect keeps the invariant. *)
(** What a body's effect makes of the counts, the table, the bytes to come and
    the bytes sent. *)
Lemma effect_parts w' tr new gone :
  turn incoming w w' tr new gone →
  (a + length gone ≤ e + length new ≤ k)%nat ∧ table_at (e + length new) w' ∧
  buffered w' ++ drop (length (received_from c tr)) incoming =
    concat (order_frame <$> seqZ (Z.of_nat (e + length new) + 1) (Z.of_nat (k - (e + length new)))) ∧
  new = order_command (token_of 0) <$> seqZ (Z.of_nat e + 1) (Z.of_nat (length new)) ∧
  sent_to c tr = concat (response_frame <$> gone).
Proof using Hl Htotal.
  intros [Ht Hcmd Hrsp Heff]. pose proof (loop_in_flight Hl) as Hfly. pose proof (loop_length Hl) as Hlen.
  pose proof only_connection as Honly.
  destruct Hl as [H1 H2 H3 H4 H5 H6 H7 H8 H9 H10 H11].
  unfold table_at, buffered in *. destruct Heff as
    [Hcs [Ha [Hse Hre]]|rsp Hcs [Ha [Hse Hre]]|Hnone Hcs [Ha [Hse Hre]]
    |conn p n Hconn Hcs Hcont [Ha [Hse Hre]]|conn p fd n Hconn Hcs Hcont [Ha [Hse Hre]]];
    split_and!; rewrite ?Hcs, ?Ht, ?accepted_fds_app, ?Ha, ?Hse, ?Hre, ?app_nil_r, ?Nat.add_0_r;
    cbn [length concat fmap list_fmap]; rewrite ?app_nil_r, ?Nat.add_0_r; try done; try lia.
  - apply (f_equal length) in Hrsp. rewrite length_app in Hrsp. unfold unread in Hfly. simpl in *. lia.
  - right. eexists. destruct H5 as [(-> & -> & ->)|(conn & _ & Ha' & _)]; [done|by rewrite Ha' in Hnone].
  - rewrite lookup_insert_eq. cbn [Connection.parser Connection.make].
    rewrite (proj2 (parser_ok_empty (Capacity:=parser_capacity))), <- H6.
    destruct H5 as [(-> & _)|(conn & _ & Ha' & _)]; [by rewrite lookup_empty|by rewrite Ha' in Hnone].
  - right. eexists. destruct (Honly c conn Hconn) as (_ & -> & _ & Hn & -> & _). by rewrite insert_singleton_eq.
  - rewrite lookup_insert_eq. cbn [Connection.parser Connection.set_parser].
    by rewrite Hcont, <- H6, Hconn, <- (assoc_L (++)), take_drop_length.
  - rewrite Hconn, Hcont, length_app, length_order_frame in Hlen. unfold kFrameSize in Hlen. lia.
  - right. eexists. destruct (Honly c conn Hconn) as (_ & -> & _ & Hn & -> & _). rewrite insert_singleton_eq.
    split_and!; [done|done|]. simpl. lia.
  - rewrite lookup_insert_eq, drop_0. cbn [Connection.parser].
    destruct (Honly c conn Hconn) as (_ & _ & _ & Hn & _). rewrite Hconn, Hcont in H6, Hlen.
    rewrite length_app, length_order_frame in Hlen. unfold kFrameSize in Hlen.
    replace (k - e)%nat with (S (k - (e + 1))) in H6 by lia. rewrite <- (assoc_L (++)) in H6.
    rewrite Nat2Z.inj_succ, seqZ_cons, Z.pred_succ, fmap_cons, concat_cons, <- Hn in H6 by lia.
    apply app_inv_head in H6. rewrite H6, Hn. do 3 f_equal. lia.
  - destruct (Honly c conn Hconn) as (_ & _ & _ & Hn & _). unfold n. by rewrite Hn.
Qed.

Lemma effect_at s' tr new gone :
  system_ok s' → main s' ≠ Joining → engine s' = engine (server l) →
  submitted s' = submitted (server l) ++ new → answered s' = answered (server l) ++ gone →
  turn incoming w (gateway s') tr new gone → parser_at (main s') (gateway s') →
  loop_at k (e + length new) (a + length gone) r
    (mkloop (at_pc l) (client l) s' (drop (length (received_from c tr)) incoming) (to_client l ++ sent_to c tr)).
Proof using Hl Htotal.
  intros Hs' Hjoin Heng Hsub Hans Hturn Hparser.
  destruct (effect_parts _ _ _ _ Hturn) as (Hcount & Htab & Hbytes & Hnew & Hsent). destruct Hturn as [_ Hcmd Hrsp _].
  destruct Hl as [H1 H2 H3 H4 H5 H6 H7 H8 H9 H10 H11].
  assert (consumed s' = consumed (server l)) as Hcons.
  { apply (app_inv_tail (q_items (cmd_queue (gateway s')))). rewrite <- (sys_commands _ Hs'), Hsub, Hcmd.
    rewrite (sys_commands _ H1) at 1. by rewrite <- (assoc_L (++)). }
  split; try done; simpl.
  - lia.
  - rewrite Hsub, H7, Hnew at 1. rewrite <- fmap_app, Nat2Z.inj_add, (Z.add_comm (Z.of_nat e) 1).
    by rewrite <- seqZ_app by lia.
  - rewrite Hcons, <- H8, Heng, Hans. unfold unread at 2. by rewrite Hrsp, <- !(assoc_L (++)).
  - by rewrite Hans, length_app, H9.
  - by rewrite H10, Hsent, Hans, drop_app_le, fmap_app, concat_app by lia.
Qed.

End bodies.

(** ** Steps of [main] *)

Definition poll_of (evs : option (list (Z * bool))) : poll_result :=
  match evs with Some evs => Events evs | None => Interrupted end.

Lemma main_turn_at k e a r l n ns evs pc w' ev tr new gone :
  loop_at k e a r l →
  main_step (loop_kernel c n (to_server l)) event_fd listen_fd (poll_of evs) (main (server l))
    (look ([], ns) (gateway (server l))) (notify (server l)) = Some (pc, w', ev) →
  turn (to_server l) (gateway (server l)) w' tr new gone → pc ≠ Joining → parser_at pc w' →
  ∃ l', loop_step (ServerMain n ns evs) l = Some l' ∧ loop_at k (e + length new) (a + length gone) r l' ∧
    main (server l') = pc ∧ gateway (server l') = w' ∧ engine (server l') = engine (server l) ∧
    to_server l' = drop (length (received_from c tr)) (to_server l) ∧
    at_pc l' = at_pc l ∧ to_client l' = to_client l ++ sent_to c tr.
Proof using Hc Htotal BoundedQueueLaws0 BoundedQueueLaws1 EventFdLaws0.
  intros Hl Hstep Hturn Hpc Hparser.
  destruct (main_moves_ok (loop_kernel c n (to_server l)) (loop_kernel_ok n _ (loop_u8 Hl)) event_fd listen_fd
    (server l) ([], ns) (poll_of evs) (loop_system _ _ _ _ _ Hl)) as (pc1 & w1 & ev1 & stop & new1 & gone1 & Hrun & Hmove & Hm & Hs' & Hans).
  rewrite Hstep in Hrun. injection Hrun as <- <- <-.
  pose proof (turn_responses _ _ _ _ _ _ Hturn) as Hrsp. rewrite (moves_responses _ _ _ _ _ Hm) in Hrsp.
  apply app_inv_tail in Hrsp as ->.
  assert (submitted (after_main (server l) pc w' ev) = submitted (server l) ++ new) as Hsub.
  { simpl. by rewrite (turn_commands _ _ _ _ _ _ Hturn), drop_app_length. }
  pose proof (effect_at Hl _ tr new gone Hs' Hpc eq_refl Hsub Hans Hturn Hparser) as Hl'.
  cbn [Loopback.loop_step]. fold (poll_of evs). rewrite Hmove. cbn [mbind option_bind].
  change (gateway (after_main (server l) pc w' ev)) with w'.
  rewrite (turn_trace _ _ _ _ _ _ Hturn), drop_app_length.
  eexists. split; [reflexivity|]. by split_and!.
Qed.

(** What is left of the events at hand; a bound on the steps to go. *)
Definition stage (pc : main_pc) w : nat :=
  match pc with
  | Waiting | Joining => 0
  | Handling evs => 8 * length evs + 1
  | Draining evs => 8 * length evs + 2 + length (q_items (rsp_queue w))
  | Accepting _ evs => 8 * length evs + 5 + (match accepted_fds (trace w) with [] => 1 | _ => 0 end)
  | Receiving _ _ evs => 8 * length evs + 4
  | Parsing _ _ evs => 8 * length evs + 2 + length (buffered w) / kFrameSize
  end.

(** A turn of the response queue that only learns. *)
Lemma eventfd_turn_at k e a r l ns :
  loop_at k e a r l →
  let '(w', _) := read_eventfd (look ([], ns) (gateway (server l))) (notify (server l)) in
  turn (to_server l) (gateway (server l)) w' [] [] [] ∧ connections w' = connections (gateway (server l)).
Proof using BoundedQueueLaws0 BoundedQueueLaws1.
  intros Hl. pose proof (sys_gateway _ (loop_system _ _ _ _ _ Hl)) as Hw.
  pose proof (look_ok ([], ns) _ Hw) as Hw1. unfold read_eventfd.
  destruct (q_sync_spec _ (ok_rsp_queue _ Hw1)) as [[_ Ks _ _ _] _].
  split; [|by destruct (ev_ready (notify (server l)))].
  apply (turn_look ([], ns)); [done|]. destruct (ev_ready (notify (server l)));
    (split; [by rewrite app_nil_r|by rewrite app_nil_r| |by apply effect_quiet]).
  - exact (eq_sym Ks).
  - done.
Qed.

(** What a step of [main] achieves in each place. *)
Definition main_progress (n : nat) (ns : list nat) (evs : option (list (Z * bool))) (e e' a a' : nat) l l' : Prop :=
  match main (server l) with
  | Waiting =>
      main (server l') = match evs with Some evs => Handling evs | None => Waiting end ∧
      to_server l' = to_server l ∧ unread (server l') = unread (server l)
  | Handling ((fd, readable) :: evs) =>
      main (server l') = (if decide (fd = event_fd) then Draining evs
                          else if decide (fd = listen_fd) then Accepting readable evs
                          else Receiving fd readable evs) ∧
      to_server l' = to_server l ∧ unread (server l') = unread (server l)
  | Draining _ => ns = [] → unread (server l) ≠ [] → (a < a')%nat
  | Accepting _ _ => accepted_fds (trace (gateway (server l'))) ≠ []
  | Receiving fd readable evs =>
      fd = c → readable = true → accepted_fds (trace (gateway (server l))) ≠ [] → to_server l ≠ [] →
      (length (to_server l) ≤ S n)%nat → main (server l') = Parsing c false evs ∧ to_server l' = []
  | Parsing _ _ _ => (kFrameSize ≤ length (buffered (gateway (server l))))%nat → (e < e')%nat
  | _ => True
  end.

Record main_result (n : nat) (ns : list nat) (evs : option (list (Z * bool))) (k e a r : nat) l l' (e' a' : nat)
    : Prop := {
  result_at : loop_at k e' a' r l';
  result_counts : (e ≤ e' ∧ a ≤ a')%nat;
  result_client : at_pc l' = at_pc l;
  result_accepted : accepted_fds (trace (gateway (server l))) ≠ [] →
    accepted_fds (trace (gateway (server l'))) ≠ [];
  result_stage : main (server l) ≠ Waiting →
    (stage (main (server l')) (gateway (server l')) < stage (main (server l)) (gateway (server l)))%nat;
  result_progress : main_progress n ns evs e e' a a' l l'
}.

(** One step, given what its body does. *)
Lemma main_result_of k e a r l n ns evs pc w' ev tr new gone :
  loop_at k e a r l →
  main_step (loop_kernel c n (to_server l)) event_fd listen_fd (poll_of evs) (main (server l))
    (look ([], ns) (gateway (server l))) (notify (server l)) = Some (pc, w', ev) →
  turn (to_server l) (gateway (server l)) w' tr new gone → pc ≠ Joining → parser_at pc w' →
  (main (server l) ≠ Waiting → (length (buffered w') ≤ kFrameSize * (k - (e + length new)))%nat →
     (stage pc w' < stage (main (server l)) (gateway (server l)))%nat) →
  (∀ l', main (server l') = pc → gateway (server l') = w' →
     to_server l' = drop (length (received_from c tr)) (to_server l) →
     main_progress n ns evs e (e + length new) a (a + length gone) l l') →
  ∃ l' e' a', loop_step (ServerMain n ns evs) l = Some l' ∧ main_result n ns evs k e a r l l' e' a'.
Proof using Hc Htotal BoundedQueueLaws0 BoundedQueueLaws1 EventFdLaws0.
  intros Hl Hstep Hturn Hpc Hparser Hstage Hprog.
  destruct (main_turn_at _ _ _ _ _ _ _ _ _ _ _ _ _ _ Hl Hstep Hturn Hpc Hparser)
    as (l' & Hrun & Hl' & Hm & Hg & _ & Hts & Hcp & _).
  exists l', (e + length new)%nat, (a + length gone)%nat. split; [done|]. split; [done|lia|done| | |by apply Hprog].
  - intros Ha. rewrite Hg, (turn_trace _ _ _ _ _ _ Hturn), accepted_fds_app. intros [? _]%app_eq_nil. done.
  - intros Hne. pose proof (loop_length Hl') as Hlen. rewrite Hm, Hg in *. apply Hstage; [done|lia].
Qed.

Section step.
Context {k e a r : nat} {l : loop} (Hl : loop_at k e a r l) (n : nat) (ns : list nat) (evs : option (list (Z * bool))).
#[local] Abbreviation stepped :=
  (∃ l' e' a', loop_step (ServerMain n ns evs) l = Some l' ∧ main_result n ns evs k e a r l l' e' a').

(** What there is to know before the step, [main] being where [Hm] says. *)
#[local] Ltac at_place Hm :=
  pose proof (sys_gateway _ (loop_system _ _ _ _ _ Hl)) as Hw;
  pose proof (λ pc w' ev tr new gone, main_result_of k e a r l n ns evs pc w' ev tr new gone Hl) as Hstep;
  assert (turn (to_server l) (gateway (server l)) (look ([], ns) (gateway (server l))) [] [] []) as Hidle
    by (apply (turn_nothing Hl ([], ns)); rewrite ?app_nil_r; done);
  pose proof (turn_responses _ _ _ _ _ _ Hidle) as Hun; pose proof (loop_parser _ _ _ _ _ Hl) as Hparser;
  pose proof (loop_counts _ _ _ _ _ Hl) as Hcount; unfold main_progress, unread in Hstep;
  rewrite Hm in Hstep, Hparser.

Lemma waiting_at :
  main (server l) = Waiting → stepped.
Proof using Hl Hc Htotal BoundedQueueLaws0 BoundedQueueLaws1 EventFdLaws0.
  intros Hm. at_place Hm.
  destruct evs; (eapply Hstep; [reflexivity|exact Hidle|done|exact Hparser|done|by intros l' -> -> ->]).
Qed.

Lemma handled_at :
  main (server l) = Handling [] → stepped.
Proof using Hl Hc Htotal BoundedQueueLaws0 BoundedQueueLaws1 EventFdLaws0.
  intros Hm. at_place Hm.
  eapply Hstep; [reflexivity|exact Hidle|done|exact Hparser|simpl; lia|done].
Qed.

Lemma handling_at fd readable hs :
  main (server l) = Handling ((fd, readable) :: hs) → stepped.
Proof using Hl Hc Htotal BoundedQueueLaws0 BoundedQueueLaws1 EventFdLaws0.
  intros Hm. at_place Hm.
  pose proof (eventfd_turn_at k e a r l ns Hl) as Hev. pose proof (loop_in_flight Hl) as Hfly. unfold unread in Hfly.
  destruct (read_eventfd _ _) as [w' ev] eqn:Er. destruct Hev as [Hturn Hcs].
  pose proof (turn_responses _ _ _ _ _ _ Hturn) as Hi. cbn [app] in Hi.
  assert (parser_at Waiting w') as Hparser' by (unfold parser_at, buffered in *; by rewrite Hcs).
  destruct (decide (fd = event_fd)) as [He|He]; [|destruct (decide (fd = listen_fd)) as [Hf|Hf]];
    (eapply Hstep; [cbn [main_step]; rewrite ?decide_True by done; rewrite ?decide_False by done;
                    rewrite ?decide_True by done; rewrite ?Er; reflexivity|eassumption|done
                   |first [exact Hparser'|exact Hparser]| |intros l' -> -> ->; split_and!; first [done|exact (eq_sym Hi)|exact (eq_sym Hun)]]); intros _ _.
  + rewrite Hi in Hfly. simpl in *. lia.
  + simpl. destruct (accepted_fds _); lia.
  + simpl. lia.
Qed.

Lemma draining_at hs :
  main (server l) = Draining hs → stepped.
Proof using Hl Hc Htotal BoundedQueueLaws0 BoundedQueueLaws1 EventFdLaws0.
  intros Hm. at_place Hm.
  destruct (drain_turn_at Hl n ns) as (b & w' & tr & gone & Hrun & Hturn & Hgone & Hlatest & Hcs).
  pose proof (turn_responses _ _ _ _ _ _ Hturn) as Hi.
  eapply Hstep; [cbn [main_step]; rewrite Hrun; reflexivity|exact Hturn|by destruct b| | |].
  + unfold parser_at, buffered in *. rewrite Hcs. by destruct b.
  + intros _ _. simpl. rewrite Hi, length_app, Hgone. destruct b; simpl; lia.
  + intros l' _ _ _ Hns Hne. rewrite Hgone, (Hlatest Hns Hne). simpl. lia.
Qed.

Lemma accepting_at readable hs :
  main (server l) = Accepting readable hs → stepped.
Proof using Hl Hc Htotal BoundedQueueLaws0 BoundedQueueLaws1 EventFdLaws0.
  intros Hm. at_place Hm.
  destruct (accept_turn_at Hl n ns) as (b & w' & tr & Hrun & Hturn & Hb & Hacc & Hbuf).
  eapply Hstep; [cbn [main_step]; rewrite Hrun; reflexivity|exact Hturn|by destruct b| | |].
  + unfold parser_at in *. destruct b; lia.
  + intros _ _. destruct b; simpl.
    * destruct (accepted_fds (trace w')); [done|]. rewrite (proj1 Hb eq_refl). lia.
    * destruct (accepted_fds _); lia.
  + by intros l' _ -> _.
Qed.

Lemma receiving_at fd readable hs :
  main (server l) = Receiving fd readable hs → stepped.
Proof using Hl Hc Htotal BoundedQueueLaws0 BoundedQueueLaws1 EventFdLaws0.
  intros Hm. at_place Hm.
  destruct (receive_turn_at Hl n ns fd readable) as (b & w' & tr & Hrun & Hturn & Hfd & Hb & Hall & Hcs).
  eapply Hstep; [cbn [main_step]; rewrite Hrun; reflexivity|exact Hturn|by destruct b| | |].
  + unfold parser_at, buffered in *. destruct b; [done|]. by rewrite Hcs.
  + intros _ Hlen. destruct b; cbn [stage]; [|lia].
    assert (length (buffered w') / kFrameSize < 2)%nat; [|lia].
    apply Nat.Div0.div_lt_upper_bound. unfold kFrameSize in *. cbn [length] in Hlen. lia.
  + intros l' -> _ -> -> -> Ha Hne Hn. rewrite (Hb eq_refl eq_refl Ha Hne), (Hall (Hb eq_refl eq_refl Ha Hne) Hn).
    split; [done|]. by rewrite drop_all.
Qed.

Lemma parsing_at fd sc hs :
  main (server l) = Parsing fd sc hs → stepped.
Proof using Hl Hc Htotal BoundedQueueLaws0 BoundedQueueLaws1 EventFdLaws0.
  intros Hm. at_place Hm. pose proof (sys_pc _ (loop_system _ _ _ _ _ Hl)) as Hpc. rewrite Hm in Hpc.
  destruct Hpc as [-> [conn Hconn]]. destruct (only_connection Hl fd conn Hconn) as (-> & _).
  destruct (parse_turn_at Hl n ns conn Hconn) as (b & w' & new & Hrun & Hturn & Hnew & _ & Hb & Hcs).
  eapply Hstep; [cbn [main_step]; rewrite Hrun; reflexivity|exact Hturn|by destruct b| | |].
  + unfold parser_at, buffered in *. destruct b; [done|]. rewrite Hcs by done.
    destruct (decide (kFrameSize ≤ length (buffered (gateway (server l))))%nat) as [Hge|]; [|unfold buffered in *; lia].
    by apply Hb in Hge.
  + intros _ Hlen. destruct b; cbn [stage]; [|lia].
    pose proof (Nat.Div0.div_le_mono _ _ kFrameSize (proj1 Hb eq_refl)) as Hd.
    rewrite Nat.div_same in Hd by done. rewrite Hnew in Hlen. cbn [Nat.b2n] in Hlen.
    assert (length (buffered w') = 0)%nat as -> by (unfold kFrameSize in *; lia). rewrite Nat.Div0.div_0_l. lia.
  + intros l' _ _ _ Hlen. rewrite Hnew, (proj2 Hb Hlen). simpl. lia.
Qed.

End step.

(** Every step of [main] is defined and keeps the invariant. *)
Lemma main_at k e a r l n ns evs :
  loop_at k e a r l →
  ∃ l' e' a', loop_step (ServerMain n ns evs) l = Some l' ∧ main_result n ns evs k e a r l l' e' a'.
Proof using Hc Htotal BoundedQueueLaws0 BoundedQueueLaws1 EventFdLaws0.
  intros Hl. destruct (main (server l)) as [|[|[fd readable] hs]|hs|readable hs|fd readable hs|fd sc hs|] eqn:Hm.
  - by apply waiting_at.
  - by apply handled_at.
  - by eapply handling_at.
  - by eapply draining_at.
  - by eapply accepting_at.
  - by eapply receiving_at.
  - by eapply parsing_at.
  - by destruct (loop_main _ _ _ _ _ Hl).
Qed.

(** ** Every move *)

Lemma loop_step_at k e a r l m l' :
  loop_at k e a r l → loop_step m l = Some l' →
  ∃ k' e' a' r', loop_at k' e' a' r' l' ∧ (k ≤ k' ∧ e ≤ e' ∧ a ≤ a' ∧ r ≤ r')%nat.
Proof using Hc Htotal BoundedQueueLaws0 BoundedQueueLaws1 EventFdLaws0.
  intros Hl Hstep. destruct m as [| |n ns evs|ns].
  - cbn [Loopback.loop_step] in Hstep. destruct (at_pc l) eqn:Hpc; [|done].
    case_decide as Hseq; [|done]. pose proof (loop_seq _ _ _ _ _ Hl) as Hk.
    destruct (send_at _ _ _ _ _ Hl Hpc ltac:(lia)) as (l1 & Hrun & Hl1 & _).
    cbn [Loopback.loop_step] in Hrun. rewrite Hpc, decide_True in Hrun by done.
    rewrite Hrun in Hstep. injection Hstep as <-. exists (S k), e, a, r. split; [done|lia].
  - cbn [Loopback.loop_step] in Hstep. destruct (at_pc l) eqn:Hpc; [done|].
    case_decide as Hlen; [|done]. injection Hstep as <-.
    assert (to_client l ≠ []) as Hne by (intros Hnil; rewrite Hnil in Hlen; unfold kFrameSize in Hlen; simpl in Hlen; lia).
    destruct (recv_at _ _ _ _ _ Hl Hpc Hne) as (l1 & Hrun & Hl1 & _).
    cbn [Loopback.loop_step] in Hrun. rewrite Hpc, decide_True in Hrun by done. injection Hrun as <-.
    exists k, e, a, (S r). split; [done|lia].
  - destruct (main_at _ _ _ _ l n ns evs Hl) as (l1 & e' & a' & Hrun & [Hl1 Hn _ _ _ _]).
    rewrite Hrun in Hstep. injection Hstep as <-. exists k, e', a', r. split; [done|lia].
  - destruct (engine_at _ _ _ _ l ns Hl) as (l1 & Hrun & Hl1 & _).
    rewrite Hrun in Hstep. injection Hstep as <-. exists k, e, a, r. split; [done|lia].
Qed.

End invariant.
