(* ===== verification/Roundtrip.v ===== *)
(** * The benchmark runs through

    What the client of [epoll_bench_client.cpp] sees of the server of
    [epoll_server.cpp] in the machine of [Loopback], under every interleaving
    of client, gateway thread and matching thread, every segmentation of the
    byte streams and whatever [epoll_wait] reports. *)

From S2P Require Import Prelude Protocol Codec Wire Ring FrameParser Stream Session.
From S2P Require Import EngineMessages Queue Matching Gateway GatewayInvariant GatewayRequests.
From S2P Require Import GatewayProperties BenchClient System SystemInvariant SystemRuns Loopback.
From S2P Require Import LoopbackInvariant.

(** ** Every run can be finished *)

Section completion.
Context {CQ RQ E : Type}.
Context `{!BoundedQueue CQ EngineCommand.t, !BoundedQueue RQ EngineResponse.t, !EventFd E}.
Context `{!BoundedQueueLaws CQ EngineCommand.t, !BoundedQueueLaws RQ EngineResponse.t}.
Context `{!EventFdLaws E}.
Context (c event_fd listen_fd : Z) (total : nat) (clock : list call → Z).
Context (Hc : 0 ≤ c) (Htotal : Z.of_nat total < 2 ^ 64 - 2).
Abbreviation loop := (loop (CQ:=CQ) (RQ:=RQ) (E:=E)).
Abbreviation loop_at := (loop_at c total clock).
Abbreviation runs := (rtc (loop_steps c event_fd listen_fd total)).
Implicit Types (l : loop).

Lemma reachable_at l :
  loop_reachable c event_fd listen_fd total l → ∃ k e a r, loop_at k e a r l.
Proof using Hc Htotal BoundedQueueLaws0 BoundedQueueLaws1 EventFdLaws0.
  intros Hr. apply (rtc_ind_r (R:=loop_steps c event_fd listen_fd total) (λ l, ∃ k e a r, loop_at k e a r l)
    loop_start); [exists 0%nat, 0%nat, 0%nat, 0%nat; apply loop_start_at| |exact Hr].
  intros l1 l2 _ [m Hstep] (k & e & a & r & Hl).
  destruct (loop_step_at c event_fd listen_fd total clock Hc Htotal k e a r l1 m l2 Hl Hstep)
    as (k' & e' & a' & r' & Hl' & _). by exists k', e', a', r'.
Qed.

(** How far a run is: whether the connection was accepted, and what was sent,
    submitted, answered and received. *)
Definition accepts l : nat := match accepted_fds (trace (gateway (server l))) with [] => 0 | _ => 1 end.
Definition progress (k e a r : nat) l : nat := accepts l + k + e + a + r.

(** A run on to a state that is no less far. *)
Definition onward (k e a r : nat) l (P : nat → nat → nat → nat → loop → Prop) : Prop :=
  ∃ l' k' e' a' r', runs l l' ∧ loop_at k' e' a' r' l' ∧ (k ≤ k' ∧ e ≤ e' ∧ a ≤ a' ∧ r ≤ r')%nat ∧
    (accepts l ≤ accepts l')%nat ∧ P k' e' a' r' l'.

Lemma accepts_mono l l' :
  (accepted_fds (trace (gateway (server l))) ≠ [] → accepted_fds (trace (gateway (server l'))) ≠ []) →
  (accepts l ≤ accepts l')%nat.
Proof. unfold accepts. destruct (accepted_fds (trace (gateway (server l)))), (accepted_fds _); try lia. by intros []. Qed.

Lemma onward_trans k e a r l P Q :
  onward k e a r l P → (∀ k' e' a' r' l', loop_at k' e' a' r' l' → P k' e' a' r' l' → onward k' e' a' r' l' Q) →
  onward k e a r l Q.
Proof.
  intros (l1 & k1 & e1 & a1 & r1 & H1 & Hl1 & Hn1 & Ha1 & HP) Hnext.
  destruct (Hnext _ _ _ _ _ Hl1 HP) as (l2 & k2 & e2 & a2 & r2 & H2 & Hl2 & Hn2 & Ha2 & HQ).
  exists l2, k2, e2, a2, r2. split_and!; try done; try lia. by etrans.
Qed.

Lemma onward_here k e a r l (P : nat → nat → nat → nat → loop → Prop) :
  loop_at k e a r l → P k e a r l → onward k e a r l P.
Proof. intros Hl HP. exists l, k, e, a, r. split_and!; try done. Qed.

(** One step of [main]. *)
Lemma onward_main k e a r l n ns evs (P : nat → nat → nat → nat → loop → Prop) :
  loop_at k e a r l →
  (∀ l' e' a', main_result c event_fd listen_fd total clock n ns evs k e a r l l' e' a' → P k e' a' r l') →
  onward k e a r l P.
Proof using Hc Htotal BoundedQueueLaws0 BoundedQueueLaws1 EventFdLaws0.
  intros Hl HP. destruct (main_at c event_fd listen_fd total clock Hc Htotal k e a r l n ns evs Hl)
    as (l' & e' & a' & Hrun & Hres). pose proof Hres as [Hl' Hn _ Hacc _ _].
  exists l', k, e', a', r. split_and!; try done; try lia.
  - eapply rtc_once. by eexists.
  - by apply accepts_mono.
  - by apply HP.
Qed.

(** [main] gets back to [epoll_wait]. *)
Lemma onward_waiting k e a r l :
  loop_at k e a r l → onward k e a r l (λ _ _ _ _ l', main (server l') = Waiting).
Proof using Hc Htotal BoundedQueueLaws0 BoundedQueueLaws1 EventFdLaws0.
  remember (stage c (main (server l)) (gateway (server l))) as n eqn:Hn.
  revert k e a r l Hn. induction n as [n IH] using lt_wf_ind. intros k e a r l Hn Hl.
  destruct (main (server l)) eqn:Hm; [by apply onward_here| | | | | |by destruct (loop_main _ _ _ _ _ _ _ _ Hl)].
  all: (eapply onward_trans;
    [apply (onward_main k e a r l 0 [] None (λ k' e' a' r' l', loop_at k' e' a' r' l' ∧
       (stage c (main (server l')) (gateway (server l')) < n)%nat) Hl);
     intros l' e' a' [Hl' _ _ _ Hs _]; split; [done|]; rewrite Hn, <- Hm; apply Hs; by rewrite Hm
    |intros k' e' a' r' l' Hl' [_ Hless]; by eapply IH]).
Qed.

(** The matching thread gets to the end of its queue. *)
Lemma onward_idle k e a r l :
  loop_at k e a r l → main (server l) = Waiting →
  onward k e a r l (λ _ e' a' _ l', main (server l') = Waiting ∧
    pending (engine (server l')) = [] ∧ (a' + length (unread (server l')) = e')%nat).
Proof using Hc Htotal BoundedQueueLaws0 BoundedQueueLaws1 EventFdLaws0.
  remember (engine_work (engine (server l)) (q_items (cmd_queue (gateway (server l))))) as n eqn:Hn.
  revert l Hn. induction n as [n IH] using lt_wf_ind. intros l Hn Hl Hm.
  destruct (engine_at c event_fd listen_fd total clock k e a r l [] Hl)
    as (l' & Hrun & Hl' & Hm' & _ & Ht & Hwork).
  destruct (Hwork eq_refl) as [[Hst|[Hpc Hitems]]|Hless].
  - apply (sys_stopped _ (loop_system _ _ _ _ _ _ _ _ Hl)) in Hst. exfalso.
    apply (loop_main _ _ _ _ _ _ _ _ Hl), (sys_joining _ (loop_system _ _ _ _ _ _ _ _ Hl)).
    rewrite (sys_commands _ (loop_system _ _ _ _ _ _ _ _ Hl)). apply has_shutdown_app. by left.
  - apply onward_here; [done|]. pose proof (loop_in_flight _ _ _ Hl) as Hfly.
    rewrite Hpc, Hitems in *. simpl in *. split_and!; [done|done|lia].
  - subst n. eapply (onward_trans _ _ _ _ _ (λ k' e' a' r' l1, k' = k ∧ e' = e ∧ a' = a ∧ r' = r ∧ l1 = l')).
    + exists l', k, e, a, r. split_and!; try done.
      * eapply rtc_once. by eexists.
      * apply accepts_mono. by rewrite Ht.
    + intros k' e' a' r' l1 _ (-> & -> & -> & -> & ->). apply (IH _ Hless l' eq_refl Hl'). by rewrite Hm'.
Qed.

Context (Hce : c ≠ event_fd) (Hcl : c ≠ listen_fd) (Hle : listen_fd ≠ event_fd).

(** The gateway wakes up for one event, with [n + 1] bytes to be had. *)
Lemma onward_event k e a r l fd :
  loop_at k e a r l → main (server l) = Waiting →
  onward k e a r l (λ k' e' a' r' l', k' = k ∧ r' = r ∧ to_server l' = to_server l ∧
    unread (server l') = unread (server l) ∧ at_pc l' = at_pc l ∧
    main (server l') = (if decide (fd = event_fd) then Draining []
                        else if decide (fd = listen_fd) then Accepting true [] else Receiving fd true [])).
Proof using Hc Htotal BoundedQueueLaws0 BoundedQueueLaws1 EventFdLaws0.
  intros Hl Hm. eapply onward_trans.
  { eapply (onward_main k e a r l 0 [] (Some [(fd, true)]) (λ k' e' a' r' l', k' = k ∧ r' = r ∧
      to_server l' = to_server l ∧ unread (server l') = unread (server l) ∧ at_pc l' = at_pc l ∧
      main (server l') = Handling [(fd, true)]) Hl).
    intros l' e' a' [_ _ Hp _ _ Hprog]. unfold main_progress in Hprog. rewrite Hm in Hprog.
    by destruct Hprog as (? & ? & ?). }
  intros k1 e1 a1 r1 l1 Hl1 (-> & -> & H1 & H2 & H3 & Hm1).
  eapply (onward_main k e1 a1 r l1 0 [] None _ Hl1).
  intros l' e' a' [_ _ Hp _ _ Hprog]. unfold main_progress in Hprog. rewrite Hm1 in Hprog.
  destruct Hprog as (Hm' & Hts & Hun). by rewrite Hts, Hun, Hp.
Qed.

(** The connection is accepted. *)
Lemma onward_accept k e a r l :
  loop_at k e a r l → main (server l) = Waiting → onward k e a r l (λ _ _ _ _ l', accepts l' = 1%nat).
Proof using Hc Htotal Hce Hcl Hle BoundedQueueLaws0 BoundedQueueLaws1 EventFdLaws0.
  intros Hl Hm. eapply onward_trans; [exact (onward_event k e a r l listen_fd Hl Hm)|].
  intros k1 e1 a1 r1 l1 Hl1 (_ & _ & _ & _ & _ & Hm1). rewrite decide_False, decide_True in Hm1 by done.
  eapply (onward_main _ _ _ _ _ 0 [] None _ Hl1). intros l' e' a' [_ _ _ _ _ Hprog].
  unfold main_progress in Hprog. rewrite Hm1 in Hprog. unfold accepts. by destruct (accepted_fds _).
Qed.

(** A response that waits is taken out. *)
Lemma onward_answer k e a r l :
  loop_at k e a r l → main (server l) = Waiting → unread (server l) ≠ [] →
  onward k e a r l (λ _ _ a' _ _, a < a')%nat.
Proof using Hc Htotal Hce Hcl Hle BoundedQueueLaws0 BoundedQueueLaws1 EventFdLaws0.
  intros Hl Hm Hun. pose proof (onward_event k e a r l event_fd Hl Hm) as (l1 & k1 & e1 & a1 & r1 & H1 & Hl1 & Hn1 & Ha1 & HP).
  destruct HP as (-> & -> & _ & Hu1 & _ & Hm1). rewrite decide_True in Hm1 by done.
  destruct (onward_main k e1 a1 r l1 0 [] None (λ _ _ a' _ _, a1 < a')%nat Hl1)
    as (l' & k' & e' & a' & r' & H' & Hl' & Hn' & Ha' & Hless).
  - intros l' e' a' [_ _ _ _ _ Hprog]. unfold main_progress in Hprog. rewrite Hm1, Hu1 in Hprog. by apply Hprog.
  - exists l', k', e', a', r'. split_and!; try done; try lia. by etrans.
Qed.

(** An order on its way is submitted. *)
Lemma onward_submit k e a r l :
  loop_at k e a r l → main (server l) = Waiting → accepts l ≠ 0%nat → (e < k)%nat →
  onward k e a r l (λ _ e' _ _ _, e < e')%nat.
Proof using Hc Htotal Hce Hcl Hle BoundedQueueLaws0 BoundedQueueLaws1 EventFdLaws0.
  intros Hl Hm Hacc Hek.
  pose proof (loop_length _ _ _ Hl) as Hlen. pose proof (loop_parser _ _ _ _ _ _ _ _ Hl) as Hp.
  unfold parser_at in Hp. rewrite Hm in Hp.
  pose proof (onward_event k e a r l c Hl Hm) as (l1 & k1 & e1 & a1 & r1 & H1 & Hl1 & Hn1 & Ha1 & HP).
  destruct HP as (-> & -> & Hts & _ & _ & Hm1). rewrite !decide_False in Hm1 by done.
  assert (onward k e1 a1 r l1 (λ k' e' _ _ l', k' = k ∧ main (server l') = Parsing c false [] ∧ to_server l' = []))
    as (l2 & k2 & e2 & a2 & r2 & H2 & Hl2 & Hn2 & Ha2 & -> & Hm2 & Hts2).
  { eapply (onward_main _ _ _ _ _ (length (to_server l1)) [] None _ Hl1). intros l' e' a' [_ _ _ _ _ Hprog].
    split; [done|]. unfold main_progress in Hprog. rewrite Hm1 in Hprog. apply Hprog; try done; [|  |lia].
    - intros Hnil. apply Hacc. unfold accepts in *. rewrite Hnil in Ha1. lia.
    - rewrite Hts. intros Hnil. rewrite Hnil in Hlen. unfold kFrameSize in *. simpl in Hlen. lia. }
  pose proof (loop_length _ _ _ Hl2) as Hlen2. rewrite Hts2, Nat.add_0_r in Hlen2.
  pose proof (loop_counts _ _ _ _ _ _ _ _ Hl2).
  destruct (onward_main k e2 a2 r2 l2 0 [] None (λ _ e' _ _ _, e2 < k → e2 < e')%nat Hl2)
    as (l' & k' & e' & a' & r' & H' & Hl' & Hn' & Ha' & Hless).
  { intros l' e' a' [_ _ _ _ _ Hprog] Hlt. unfold main_progress in Hprog. rewrite Hm2 in Hprog. apply Hprog.
    unfold kFrameSize in *. lia. }
  exists l', k', e', a', r'. split_and!; try done; try lia.
  by do 2 (etrans; [eassumption|]).
Qed.

(** With everything answered it is the client's turn. *)
Lemma onward_client k e a r l :
  loop_at k e a r l → a = k → (r < total)%nat → onward k e a r l (λ k' _ _ r' _, k + r < k' + r')%nat.
Proof using Hc Htotal Hce Hcl Hle BoundedQueueLaws0 BoundedQueueLaws1 EventFdLaws0.
  intros Hl -> Hr. pose proof (loop_client _ _ _ _ _ _ _ _ Hl) as Hcli. unfold client_at in Hcli.
  destruct (at_pc l) eqn:Hpc.
  - destruct Hcli as [-> _].
    destruct (send_at c event_fd listen_fd total clock Htotal _ _ _ _ _ Hl Hpc Hr) as (l' & Hrun & Hl' & Hs).
    exists l', (S r), e, r, r. split_and!; try done; try lia; [|apply accepts_mono; by rewrite Hs].
    eapply rtc_once. by eexists.
  - destruct Hcli as [-> _].
    assert (to_client l ≠ []) as Hne.
    { rewrite (loop_replies _ _ _ _ _ _ _ _ Hl). pose proof (loop_answered _ _ _ _ _ _ _ _ Hl) as Hans.
      destruct (drop r (answered (server l))) as [|rsp rsps] eqn:Hd.
      - apply (f_equal length) in Hd. rewrite length_drop in Hd. simpl in Hd. lia.
      - simpl. intros Hnil. apply (f_equal length) in Hnil.
        rewrite length_app, length_response_frame in Hnil. done. }
    destruct (recv_at c event_fd listen_fd total clock Htotal _ _ _ _ _ Hl Hpc Hne) as (l' & Hrun & Hl' & Hs & _).
    exists l', (S r), e, (S r), (S r). split_and!; try done; try lia; [|apply accepts_mono; by rewrite Hs].
    eapply rtc_once. by eexists.
Qed.

Lemma onward_further k e a r l P (n : nat) :
  onward k e a r l P →
  (∀ k' e' a' r' l', P k' e' a' r' l' → (k ≤ k' ∧ e ≤ e' ∧ a ≤ a' ∧ r ≤ r')%nat → (accepts l ≤ accepts l')%nat →
    (n < progress k' e' a' r' l')%nat) →
  onward k e a r l (λ k' e' a' r' l', n < progress k' e' a' r' l')%nat.
Proof using Type.
  intros (l' & k' & e' & a' & r' & H' & Hl' & Hn' & Ha' & HP) Himp.
  exists l', k', e', a', r'. destruct Hn' as (? & ? & ? & ?). by split_and!; auto.
Qed.

(** There is always something that can be done. *)
Lemma onward_progress k e a r l :
  loop_at k e a r l → accepts l = 0%nat ∨ (r < total)%nat →
  onward k e a r l (λ k' e' a' r' l', progress k e a r l < progress k' e' a' r' l')%nat.
Proof using Hc Htotal Hce Hcl Hle BoundedQueueLaws0 BoundedQueueLaws1 EventFdLaws0.
  intros Hl Hmore.
  destruct (onward_waiting k e a r l Hl) as (l1 & k1 & e1 & a1 & r1 & H1 & Hl1 & Hn1 & Ha1 & Hm1).
  destruct (onward_idle k1 e1 a1 r1 l1 Hl1 Hm1) as (l2 & k2 & e2 & a2 & r2 & H2 & Hl2 & Hn2 & Ha2 & Hm2 & _ & Hun).
  cut (onward k2 e2 a2 r2 l2 (λ k' e' a' r' l', progress k e a r l < progress k' e' a' r' l')%nat).
  { intros (l' & k' & e' & a' & r' & H' & Hl' & Hn' & Ha' & Hless). exists l', k', e', a', r'.
    split_and!; try done; try lia. by do 2 (etrans; [eassumption|]). }
  pose proof (loop_counts _ _ _ _ _ _ _ _ Hl2) as Hcount.
  destruct (decide (progress k e a r l < progress k2 e2 a2 r2 l2)%nat) as [|Hsame]; [by apply onward_here|].
  unfold progress in Hsame.
  destruct (decide (accepts l2 = 0%nat)) as [Hacc|Hacc];
    [|destruct (decide (unread (server l2) = [])) as [Hnone|Hsome];
      [rewrite Hnone in Hun; simpl in Hun; destruct (decide (e2 < k2)%nat) as [Hek|Hek]|]].
  - eapply onward_further; [by apply onward_accept|]. intros k' e' a' r' l' Hone ? ?. unfold progress. cbv beta in *. lia.
  - eapply onward_further; [by apply onward_submit|]. intros k' e' a' r' l' Hless ? ?. unfold progress. cbv beta in *. lia.
  - eapply onward_further; [apply onward_client; [done|lia|lia]|].
    intros k' e' a' r' l' Hless ? ?. unfold progress. cbv beta in *. lia.
  - eapply onward_further; [by apply onward_answer|]. intros k' e' a' r' l' Hless ? ?. unfold progress. cbv beta in *. lia.
Qed.

(** Every run can be finished. *)
Lemma run_to_end k e a r l :
  loop_at k e a r l → ∃ l', runs l l' ∧ loop_at total total total total l' ∧ at_pc l' = Sending.
Proof using Hc Htotal Hce Hcl Hle BoundedQueueLaws0 BoundedQueueLaws1 EventFdLaws0.
  remember (4 * total + 1 - progress k e a r l)%nat as n eqn:Hn. revert k e a r l Hn.
  induction n as [n IH] using lt_wf_ind. intros k e a r l Hn Hl.
  pose proof (loop_counts _ _ _ _ _ _ _ _ Hl) as Hcount.
  destruct (decide (r < total)%nat) as [Hlt|Hge].
  - destruct (onward_progress k e a r l Hl (or_intror Hlt)) as (l1 & k1 & e1 & a1 & r1 & H1 & Hl1 & _ & _ & Hless).
    pose proof (loop_counts _ _ _ _ _ _ _ _ Hl1) as Hcount1.
    assert (accepts l1 ≤ 1)%nat as Hone by (unfold accepts; destruct (accepted_fds _); lia).
    destruct (IH (4 * total + 1 - progress k1 e1 a1 r1 l1)%nat ltac:(unfold progress in *; lia) _ _ _ _ l1 eq_refl Hl1)
      as (l' & H' & ?). exists l'. split; [by etrans|done].
  - assert (r = total ∧ a = total ∧ e = total ∧ k = total) as (-> & -> & -> & ->) by lia.
    exists l. split_and!; [done|done|]. pose proof (loop_client _ _ _ _ _ _ _ _ Hl) as Hcli.
    unfold client_at in Hcli. destruct (at_pc l); [done|lia].
Qed.

End completion.

(** ** The client's view *)

Definition replies_of (tr : list call) : list (list Z) :=
  omap (λ c, match c with Received bytes => Some bytes | Sent _ _ => None end) tr.

Lemma warm_up_replies clock n s :
  Z.of_nat n < 2 ^ 64 - 1 → warm_up (gateway_network clock) n BenchClient.start = Some s →
  sent_orders n s ∧ replies_of (calls s) = accept_frame <$> seqZ 1 (Z.of_nat n).
Proof.
  revert s. induction n as [|n IH]; intros s Hn Hw.
  { injection Hw as <-. split; [apply start_sent|done]. }
  rewrite warm_up_S in Hw. apply bind_Some in Hw as (s1 & Hw1 & Hround).
  destruct (IH s1 ltac:(lia) Hw1) as [Hsent Hr].
  destruct (round_sends _ (gateway_network_ok clock) n s1 ltac:(lia) Hsent) as (s2 & E2 & Hs2 & _).
  rewrite Hround in E2. injection E2 as <-. split; [done|].
  unfold round in Hround. apply bind_Some in Hround as (out & _ & [= <-]).
  cbn [calls]. unfold replies_of in *. rewrite !omap_app, Hr, seqZ_succ, fmap_app. cbn [omap list_omap n_recv gateway_network].
  rewrite app_nil_r, length_app, (sent_calls _ _ Hsent). cbn [length]. do 3 f_equal.
  replace (2 * n + 1)%nat with (1 + n * 2)%nat by lia. change (Nat.divmod _ _ _ _).1 with ((1 + n * 2) / 2)%nat.
  rewrite Nat.div_add, Nat.add_0_l by done. simpl. do 2 f_equal. lia.
Qed.

(** ** A run to evaluate the theorems on

    One order, whose frame arrives in two pieces of 10 and 54 bytes. *)

Abbreviation benchmark := (loop (CQ:=CommandQueue) (RQ:=ResponseQueue) (E:=N)).

Fixpoint run_loop (total : nat) (ms : list loop_move) (l : benchmark) : option benchmark :=
  match ms with [] => Some l | m :: ms => l ← loop_step 10 5 4 total m l; run_loop total ms l end.

Lemma run_loop_reaches total ms l l' :
  run_loop total ms l = Some l' → rtc (loop_steps 10 5 4 total) l l'.
Proof.
  revert l. induction ms as [|m ms IH]; intros l; cbn [run_loop]; [by intros [= <-]|].
  intros (l1 & H1 & H2)%bind_Some. eapply rtc_l; [by exists m|by apply IH].
Qed.

Definition sample_moves : list loop_move :=
  let step := ServerMain 0 [] None in
  [ClientSend; ServerMain 0 [] (Some [(4, true)])] ++ replicate 5 step ++
  [ServerMain 0 [] (Some [(10, true)]); step; ServerMain 9 [0%nat] None; step; step;
   ServerMain 0 [] (Some [(10, true)]); step; ServerMain 100 [] None; step; step; step] ++
  replicate 4 (ServerEngine []) ++ [ServerMain 0 [] (Some [(5, true)])] ++ replicate 3 step ++ [ClientRecv].

(** After the first [n] moves, with two orders to send. *)
Definition sample_loop (n : nat) : benchmark := default loop_start (run_loop 2 (take n sample_moves) loop_start).

Lemma sample_loop_reachable n :
  bool_decide (is_Some (run_loop 2 (take n sample_moves) loop_start)) = true →
  loop_reachable 10 5 4 2 (sample_loop n).
Proof. intros H. eapply run_loop_reaches. exact (some_default _ loop_start H). Qed.

(** ** Properties *)

(** C4: Safety of the whole benchmark, under every interleaving of the client, the
    gateway thread and the matching thread, every segmentation and every
    report of [epoll_wait]: no step of the server is undefined; the gateway
    has submitted the first [e] orders, each once and in order; what the
    client got so far are the accept frames of its first [r] orders, in
    order, and nothing else; and its state is the one it has over a network
    that answers order [n] by the accept frame of [n]. *)
Theorem benchmark_answered {E} (HE : EventFd E) (HL : EventFdLaws E) c event_fd listen_fd total clock
    (l : loop (CQ:=CommandQueue) (RQ:=ResponseQueue) (E:=E)) :
  0 ≤ c → Z.of_nat total < 2 ^ 64 - 2 → loop_reachable c event_fd listen_fd total l →
  (∀ n ns evs, ∃ l', loop_step c event_fd listen_fd total (ServerMain n ns evs) l = Some l') ∧
  (∀ ns, ∃ l', loop_step c event_fd listen_fd total (ServerEngine ns) l = Some l') ∧
  ∃ e r : nat, (r ≤ e ≤ total)%nat ∧ Z.of_nat e < seq (client l) ≤ Z.of_nat r + 2 ∧
    submitted (server l) = order_command (token_of 0) <$> seqZ 1 (Z.of_nat e) ∧
    replies_of (calls (client l)) = accept_frame <$> seqZ 1 (Z.of_nat r) ∧
    (at_pc l = Sending → warm_up (gateway_network clock) r BenchClient.start = Some (client l)).
Proof.
  intros Hc Ht Hr. destruct (reachable_at c event_fd listen_fd total clock Hc Ht l Hr) as (k & e & a & r & Hl).
  split; [|split].
  - intros n ns evs. destruct (main_at c event_fd listen_fd total clock Hc Ht k e a r l n ns evs Hl)
      as (l' & _ & _ & Hrun & _). by exists l'.
  - intros ns. destruct (engine_at c event_fd listen_fd total clock k e a r l ns Hl) as (l' & Hrun & _). by exists l'.
  - pose proof (loop_counts _ _ _ _ _ _ _ _ Hl) as Hn. pose proof (loop_client _ _ _ _ _ _ _ _ Hl) as Hcl.
    exists e, r. split; [lia|]. split; [rewrite (loop_seq c total clock Ht _ _ _ _ _ Hl); lia|].
    split; [apply (loop_submitted _ _ _ _ _ _ _ _ Hl)|]. unfold client_at in Hcl. destruct (at_pc l).
    + destruct Hcl as [-> Hw]. split; [|done]. by apply (warm_up_replies clock r (client l)); [lia|].
    + destruct Hcl as (-> & s & Hw & Hhalf). split; [|done].
      unfold send_half in Hhalf. apply bind_Some in Hhalf as (out & _ & Heq). apply (f_equal (fmap calls)) in Heq.
      injection Heq as <-. destruct (warm_up_replies clock r s ltac:(lia) Hw) as [_ <-].
      unfold replies_of. rewrite omap_app. cbn [omap list_omap]. by rewrite app_nil_r.
Qed.

Lemma benchmark_answered_witness :
  at_pc (sample_loop 27) = Sending ∧ seq (client (sample_loop 27)) = 2 ∧
  ∃ r : nat, replies_of (calls (client (sample_loop 27))) = accept_frame <$> seqZ 1 (Z.of_nat r).
Proof.
  split; [vm_compute; reflexivity|]. split; [vm_compute; reflexivity|].
  destruct (benchmark_answered _ _ 10 5 4 2 (λ _, 0) (sample_loop 27)) as (_ & _ & e & r & _ & _ & _ & Hr & _).
  - lia.
  - reflexivity.
  - apply sample_loop_reachable. vm_compute. reflexivity.
  - exists r. exact Hr.
Defined.

(** C7: The benchmark ends: from every state it reaches, with any number of orders
    the options can ask for, the two programs can go on until every order was
    sent and answered.  The client's exchange is then the one over the
    network that accepts every order. *)
Theorem benchmark_completes {E} (HE : EventFd E) (HL : EventFdLaws E) c event_fd listen_fd opts clock
    (l : loop (CQ:=CommandQueue) (RQ:=ResponseQueue) (E:=E)) :
  0 ≤ c → NoDup [c; event_fd; listen_fd] →
  0 ≤ Options.warmup opts < 2 ^ 31 → 0 ≤ Options.messages opts < 2 ^ 31 →
  let total := Z.to_nat (Options.warmup opts + Options.messages opts) in
  loop_reachable c event_fd listen_fd total l →
  ∃ l' rtts, rtc (loop_steps c event_fd listen_fd total) l l' ∧ finished total l' ∧
    submitted (server l') = order_command (token_of 0) <$> seqZ 1 (Z.of_nat total) ∧
    replies_of (calls (client l')) = accept_frame <$> seqZ 1 (Z.of_nat total) ∧
    exchange (gateway_network clock) opts = Some (Measured rtts (client l')) ∧
    Z.of_nat (length rtts) = Options.messages opts.
Proof.
  intros Hc Hnd Hw Hm total Hr. assert (Z.of_nat total < 2 ^ 64 - 2) as Ht by (unfold total; lia).
  rewrite !NoDup_cons, !not_elem_of_cons in Hnd. destruct Hnd as ((Hce & Hcl & _) & (Hel & _) & _).
  destruct (reachable_at c event_fd listen_fd total clock Hc Ht l Hr) as (k & e & a & r & Hl).
  destruct (run_to_end c event_fd listen_fd total clock Hc Ht Hce Hcl (not_eq_sym Hel) k e a r l Hl)
    as (l' & Hrun & Hl' & Hpc).
  pose proof (loop_client _ _ _ _ _ _ _ _ Hl') as Hcli. unfold client_at in Hcli. rewrite Hpc in Hcli.
  destruct Hcli as [_ Hwarm]. destruct (warm_up_replies clock total (client l') ltac:(lia) Hwarm) as [_ Hrep].
  destruct (exchange_sends (gateway_network clock) opts (token_of 0) (gateway_network_ok clock)) as (s & Hx & _); [lia..|].
  rewrite decide_False in Hx by lia. exists l', ((λ i, n_elapsed (gateway_network clock)
    (take (2 * (Z.to_nat (Options.warmup opts) + i + 1)) (calls s))) <$> List.seq 0 (Z.to_nat (Options.messages opts))).
  assert (s = client l') as Hs.
  { unfold exchange in Hx. apply bind_Some in Hx as (s1 & H1 & Hx). rewrite decide_False in Hx by lia.
    apply bind_Some in Hx as ([rtts s2] & H2 & [= _ <-]). apply measure_rounds in H2.
    unfold total in Hwarm. rewrite Z2Nat.inj_add, warm_up_app, H1 in Hwarm by lia. cbn [mbind option_bind] in Hwarm.
    rewrite H2 in Hwarm. by injection Hwarm. }
  split; [done|]. split.
  { split; [done|]. by apply (loop_seq c total clock Ht _ _ _ _ _ Hl'). }
  split; [apply (loop_submitted _ _ _ _ _ _ _ _ Hl')|]. split; [done|].
  rewrite <- Hs. split; [exact Hx|]. rewrite length_fmap, length_seq. lia.
Qed.

(** The number of orders under the default options: 101000. *)
Definition default_total : nat :=
  Z.to_nat (Options.warmup Options.default + Options.messages Options.default).

Lemma benchmark_completes_witness :
  ∃ (l' : benchmark) rtts, rtc (loop_steps 10 5 4 default_total) loop_start l' ∧ finished default_total l' ∧
    exchange (gateway_network (λ _, 1)) Options.default = Some (Measured rtts (client l')).
Proof.
  destruct (benchmark_completes _ _ 10 5 4 Options.default (λ _, 1) (loop_start (E:=N)))
    as (l' & rtts & Hrun & Hfin & _ & _ & Hx & _).
  - lia.
  - rewrite !NoDup_cons, !not_elem_of_cons. split_and!; auto using not_elem_of_nil, NoDup_nil_2.
  - split; reflexivity || discriminate.
  - split; reflexivity || discriminate.
  - apply rtc_refl.
  - exists l', rtts. exact (conj Hrun (conj Hfin Hx)).
Defined.
