(* ===== verification/Server.v ===== *)
(** * The server from its start to its exit

    [main] of [core/order_entry/examples/epoll_server.cpp] as one program:
    start-up ([Startup]), the event loop interleaved with the matching thread
    ([System]) and the exit, for every schedule of the two threads. *)

From S2P Require Import Prelude Calls Startup Protocol Codec Wire Ring FrameParser Stream Session.
From S2P Require Import EngineMessages Queue Matching Gateway GatewayInvariant GatewayRequests.
From S2P Require Import Spsc SpscSequential SpscQueue GatewayProperties System SystemInvariant SystemRuns.

Section server.
Context {CQ RQ E : Type}.
Context `{!BoundedQueue CQ EngineCommand.t, !BoundedQueue RQ EngineResponse.t, !Matching.EventFd E}.
Context (boot : history Startup.request → Startup.request → Z) (os : Kernel).
Abbreviation system := (system (CQ:=CQ) (RQ:=RQ) (E:=E)).

(** The calls of the straight-line parts and those of the gateway. *)
Inductive ending : Type :=
| Returned (code : Z) (calls : history Startup.request) (net : list syscall)
| Aborted (calls : history Startup.request)                                   (** [std::terminate] *)
| Serving (listen_fd event_fd epoll_fd : Z) (calls : history Startup.request) (s : system).

(** [matching.join()] returns when the thread has stopped. *)
Definition exit_main (listen_fd event_fd epoll_fd : Z) (calls : history Startup.request) (s : system)
    : option ending :=
  match System.main s, engine s with
  | Joining, Stopped =>
      '(_, w) ← close_all (gateway s);
      let '(code, calls) := finish boot listen_fd event_fd epoll_fd calls in
      Some (Returned code calls (trace w))
  | _, _ => Some (Serving listen_fd event_fd epoll_fd calls s)
  end.

(** [main] under a schedule. *)
Definition main (ms : list move) : option ending :=
  let '(out, calls) := start_up boot [] in
  match out with
  | ReturnOne => Some (Returned 1 calls [])
  | Terminated => Some (Aborted calls)
  | Running listen_fd event_fd epoll_fd =>
      s ← run_moves os event_fd listen_fd start ms;
      exit_main listen_fd event_fd epoll_fd calls s
  end.

Context `{!BoundedQueueLaws CQ EngineCommand.t, !BoundedQueueLaws RQ EngineResponse.t}.
Context `{!EventFdLaws E}.
Context (Hos : kernel_ok os).

Lemma run_moves_defined event_fd listen_fd ms (s : system) :
  system_ok s → ∃ s', run_moves os event_fd listen_fd s ms = Some s' ∧ system_ok s'.
Proof using BoundedQueueLaws0 BoundedQueueLaws1 EventFdLaws0 Hos.
  revert s. induction ms as [|m ms IH]; intros s Hs; [by exists s|]. cbn [run_moves].
  assert (∃ s1, run_move os event_fd listen_fd s m = Some s1 ∧ system_ok s1) as (s1 & -> & Hs1);
    [|by apply IH].
  destruct m as [ns poll|ns]; cbn [run_move].
  - destruct (main_moves_ok os Hos event_fd listen_fd s ns poll Hs)
      as (pc & w & e & stop & new & gone & _ & -> & _ & Hs' & _). by eexists.
  - destruct (engine_moves_ok s ns Hs) as (pc & cq & rq & e & taken & pushed & -> & _ & Hs'). by eexists.
Qed.

(** Leaving the event loop, when there is room for the shutdown command. *)
Lemma leave_loop event_fd listen_fd (s : system) :
  system_ok s → System.main s = Waiting →
  Z.of_nat (length (q_items (cmd_queue (gateway s)))) < q_limit (Q:=CQ) (T:=EngineCommand.t) →
  ∃ s', main_moves os event_fd listen_fd s ([], []) PollFailed = Some s' ∧ system_ok s' ∧
    System.main s' = Joining ∧ has_shutdown (submitted s') ∧
    q_items (cmd_queue (gateway s')) = q_items (cmd_queue (gateway s)) ++ [shutdown_command].
Proof using BoundedQueueLaws0 BoundedQueueLaws1 EventFdLaws0 Hos.
  intros Hs Hm Hroom. pose proof (sys_gateway _ Hs) as Hw.
  destruct (main_moves_ok os Hos event_fd listen_fd s ([], []) PollFailed Hs)
    as (pc & w & e & stop & new & gone & Hstep & Hmove & _ & Hs' & _).
  eexists. split; [exact Hmove|]. split; [done|]. rewrite Hm in Hstep. cbn [main_step] in Hstep.
  destruct (q_push_latest (cmd_queue (gateway s)) shutdown_command (ok_cmd_queue _ Hw) Hroom) as [q E'].
  destruct (q_look_spec [] _ (ok_cmd_queue _ Hw)) as [Kq Ki _ _ _].
  destruct (q_push_spec _ shutdown_command Kq) as (b & q1 & E1 & Hres).
  rewrite E' in E1. injection E1 as <- <-. apply push_items in Hres. rewrite Ki in Hres.
  unfold push_command in Hstep. cbn [cmd_queue look set_rsp_queue set_cmd_queue fst] in Hstep.
  rewrite E' in Hstep. cbn [mbind option_bind] in Hstep. injection Hstep as <- <- <-.
  split; [done|]. split; [|exact Hres]. simpl. rewrite Hres, drop_app_length. apply has_shutdown_app. right.
  by apply has_shutdown_singleton.
Qed.

End server.

Arguments ending : clear implicits.
Arguments Returned {CQ RQ E}.
Arguments Aborted {CQ RQ E}.
Arguments Serving {CQ RQ E}.

(** ** Properties *)

Abbreviation server_ending E := (ending CommandQueue ResponseQueue E).

Lemma finish_run kernel l e p tr :
  open_descriptors tr = [l; e; p] →
  ∃ tr', finish kernel l e p tr = (0, tr') ∧ open_descriptors tr' = [] ∧ threads tr' = threads tr.
Proof.
  intros Ho. pose proof (finish_closes kernel l e p tr Ho) as Hc.
  eexists. split; [reflexivity|]. split; [exact Hc|]. rewrite !threads_snoc. simpl. by rewrite !app_nil_r.
Qed.

(** The two ways on from the event loop. *)
Lemma exit_main_spec {E} {HE : Matching.EventFd E} {HL : EventFdLaws E} boot l e p tr
    (s : system (CQ:=CommandQueue) (RQ:=ResponseQueue) (E:=E)) :
  system_ok s → open_descriptors tr = [l; e; p] →
  (System.main s = Joining ∧ engine s = Stopped ∧ ∃ tr' net, exit_main boot l e p tr s = Some (Returned 0 tr' net) ∧
     open_descriptors tr' = [] ∧ open_fds net = ∅ ∧ threads tr' = threads tr ∧
     trace (gateway s) `prefix_of` net) ∨
  (exit_main boot l e p tr s = Some (Serving l e p tr s) ∧ (System.main s = Joining → engine s ≠ Stopped)).
Proof.
  intros Hs Ho. unfold exit_main. destruct (System.main s); try (by right).
  destruct (engine s); try (by right). left. split; [done|]. split; [done|].
  destruct (close_all_ok (gateway s) (sys_gateway _ Hs)) as (w & -> & Hopen & fds & _ & _ & Htr).
  destruct (finish_run boot l e p tr Ho) as (tr' & E' & Ho' & Hth). cbn [mbind option_bind]. rewrite E'.
  exists tr', (trace w). split_and!; try done. rewrite Htr. by apply prefix_app_r.
Qed.

(** C17: The whole server, for every environment and every schedule of its two
    threads: no undefined behaviour.  If [main] returns, every descriptor it
    ever opened is closed.  It returns 0 only from [matching.join()], in the
    state the schedule leads to, when the one matching thread it started has
    stopped; it returns 1 before any thread was started.  It is terminated
    only when the thread or the epoll instance cannot be had.  Otherwise it
    is serving, with its three descriptors open, in a state its threads can
    reach, and waits in [join] only for a thread that has not stopped. *)
Theorem server_main_outcome {E} (HE : Matching.EventFd E) (HL : EventFdLaws E) boot os ms :
  fresh_descriptors boot → kernel_ok os →
  ∃ out : server_ending E, main boot os ms = Some out ∧
    match out with
    | Returned code calls net =>
        open_descriptors calls = [] ∧ open_fds net = ∅ ∧
        (code = 0 ∧ (∃ l e p s, (start_up boot []).1 = Running l e p ∧ threads calls = [e] ∧
           run_moves os e l start ms = Some s ∧ System.main s = Joining ∧ engine s = Stopped ∧
           trace (gateway s) `prefix_of` net) ∨
         code = 1 ∧ threads calls = [] ∧ net = [])
    | Aborted calls => ∃ e, e ∈ open_descriptors calls ∧
        (failed calls (StartThread e) ∨ failed calls EpollCreate ∧ threads calls = [e])
    | Serving l e p calls s =>
        open_descriptors calls = [l; e; p] ∧ NoDup [l; e; p] ∧ threads calls = [e] ∧
        run_moves os e l start ms = Some s ∧ system_reachable os e l s ∧
        (System.main s = Joining → engine s ≠ Stopped)
    end.
Proof.
  intros Hboot Hos. pose proof (start_up_spec boot Hboot) as Hstart. unfold main.
  destruct (start_up boot []) as [[l e p| |] calls].
  - destruct Hstart as (Ho & Hnd & Hth & _).
    destruct (run_moves_defined os Hos e l ms start start_ok) as (s & Hrun & Hs).
    rewrite Hrun. cbn [mbind option_bind].
    destruct (exit_main_spec boot l e p calls s Hs Ho) as
      [(Hm & Hst & tr' & net & -> & Ho' & Hn & Hth' & Hpre)|[-> Hne]].
    + eexists. split; [done|]. split_and!; [done|done|]. left. split; [done|].
      exists l, e, p, s. split_and!; try done. congruence.
    + eexists. split; [done|]. split_and!; try done. by eapply run_moves_reach.
  - eexists. split; [reflexivity|]. destruct Hstart as (Ho & Hth & _). split_and!; [done|done|]. by right.
  - eexists. split; [reflexivity|]. exact Hstart.
Qed.

Lemma server_main_outcome_witness :
  ∃ calls net, main sample_os (sample_kernel sample_bytes)
      (MoveMain ([], []) PollFailed :: engine_alone 1) = Some (Returned (E:=N) 0 calls net : server_ending N) ∧
    open_descriptors calls = [] ∧ open_fds net = ∅.
Proof.
  destruct (server_main_outcome _ _ sample_os (sample_kernel sample_bytes)
    (MoveMain ([], []) PollFailed :: engine_alone 1) sample_os_fresh) as (out & E & H).
  - apply sample_kernel_ok; apply sample_bytes_ok.
  - assert ((λ out : server_ending N, match out with Returned code _ _ => Some code | _ => None end) <$>
      main sample_os (sample_kernel sample_bytes) (MoveMain ([], []) PollFailed :: engine_alone 1) = Some (Some 0))
      as Hcode by (vm_compute; reflexivity).
    rewrite E in Hcode. destruct out as [code calls net| |]; [|discriminate Hcode|discriminate Hcode].
    cbn [fmap option_fmap option_map] in Hcode. injection Hcode as ->. destruct H as (H1 & H2 & _).
    exists calls, net. exact (conj E (conj H1 H2)).
Defined.

(** C36: The server can always be brought to its end: when it sleeps in
    [epoll_wait] with room in the command queue, there is a schedule after
    which [main] returns 0, no longer than the commands that wait require. *)
Theorem server_can_exit {E} (HE : Matching.EventFd E) (HL : EventFdLaws E) boot os ms l e p calls
    (s : system (CQ:=CommandQueue) (RQ:=ResponseQueue) (E:=E)) :
  fresh_descriptors boot → kernel_ok os →
  main boot os ms = Some (Serving l e p calls s : server_ending E) → System.main s = Waiting →
  Z.of_nat (length (q_items (cmd_queue (gateway s)))) < usable V3 kQueueCapacity →
  ∃ ms' calls' net, main boot os (ms ++ ms') = Some (Returned 0 calls' net : server_ending E) ∧
    (length ms' ≤ 3 * length (q_items (cmd_queue (gateway s))) + 6)%nat.
Proof.
  intros Hboot Hos Hmain Hwait Hroom. pose proof (start_up_spec boot Hboot) as Hstart. unfold main in *.
  destruct (start_up boot []) as [[l' e' p'| |] tr]; [|done|done]. destruct Hstart as (Ho & _).
  destruct (run_moves_defined os Hos e' l' ms start start_ok) as (s0 & Hrun & Hs).
  rewrite Hrun in Hmain. cbn [mbind option_bind] in Hmain.
  destruct (exit_main_spec boot l' e' p' tr s0 Hs Ho) as [(_ & _ & ? & ? & Hx & _)|[Hx _]];
    rewrite Hx in Hmain; [done|]. injection Hmain as -> -> -> -> ->.
  destruct (leave_loop os Hos e l s Hs Hwait Hroom) as (s1 & Hmove & Hs1 & Hm1 & Hsd & Hitems).
  destruct (engine_run os e l _ s1 Hs1 (le_n _)) as (s2 & k & Hk & Hn & Hs2 & Hm2 & Hsub & _ & _ & _ & Hidle).
  assert (engine s2 = Stopped) as Hst.
  { destruct Hidle as [?|[_ Hempty]]; [done|]. apply (sys_stopped _ Hs2).
    rewrite <- Hsub, (sys_commands _ Hs2), Hempty in Hsd.
    apply has_shutdown_app in Hsd as [?|?%has_shutdown_nil]; done. }
  exists (MoveMain ([], []) PollFailed :: engine_alone k).
  destruct (exit_main_spec boot l e p calls s2 Hs2 Ho) as [(_ & _ & tr' & net & Hx' & _)|[_ Hno]].
  - exists tr', net. rewrite run_moves_app, Hrun. cbn [mbind option_bind run_moves run_move].
    rewrite Hmove. cbn [mbind option_bind]. rewrite Hn. cbn [mbind option_bind]. split; [exact Hx'|].
    unfold engine_work in Hk. rewrite Hitems, length_app in Hk. unfold engine_alone. rewrite length_cons, length_replicate.
    destruct (engine s1); simpl in *; lia.
  - by destruct Hno; [congruence|].
Qed.

Lemma server_can_exit_witness :
  ∃ ms' calls' net, main sample_os (sample_kernel sample_bytes) ms' =
    Some (Returned 0 calls' net : server_ending N) ∧ (length ms' ≤ 6)%nat.
Proof.
  destruct (server_can_exit _ _ sample_os (sample_kernel sample_bytes) [] 3 4 5
    (start_up sample_os []).2 start sample_os_fresh) as (ms' & calls' & net & Hrun & Hl).
  - apply sample_kernel_ok; apply sample_bytes_ok.
  - vm_compute. reflexivity.
  - reflexivity.
  - vm_compute. reflexivity.
  - exists ms', calls', net. split; [exact Hrun|]. exact Hl.
Defined.
